(* ===== verification/_CoqProject ===== *)
-Q . S2P
Prelude.v
Types.v
Rlt.v
RltReverse.v
RltTables.v
GoNet.v
Json.v
Codec.v
WatcherMux.v
MuxStreams.v
Packet.v
EchoServer.v
WorkerPool.v
PoolDispatch.v
BpfManager.v
ManagerLoop.v
Monitor.v
MonitorLoops.v
Controller.v
Wiring.v
Xdp.v
DataPath.v
Main.v
HealthPath.v
Failover.v
StateMachine.v
StateCodec.v
RingBuffer.v
LinkedList.v
Wal.v
WalLoops.v
Dvds.v
DvdsLoops.v
DvdsShutdown.v
Cluster.v
ClusterLoops.v
TypedLoops.v
Testenv.v
TestDriver.v
TrafficGen.v
Validation.v
BenchLog.v
