(* ===== verification/Prelude.v ===== *)
(** * udplb: a session-aware UDP load balancer, modelled and verified

    ** The program

    udplb balances UDP datagrams over backends by the 128-bit session
    identifier they carry.  An XDP program forwards packets by three
    double-buffered kernel structures (the backend list, the lookup table and
    the session map); a Go process keeps them up to date.  Its parts and the
    way they call each other:

    - the XDP program (internal/adapter/bpf/udplb_kern.c and its headers)
      rewrites a frame towards the backend of its session and reports new
      sessions through a ring buffer;
    - the controller (internal/controller/controller.go) builds the backends
      from the configuration, consumes assignments and health changes,
      recomputes the lookup table and the session map, and hands the three
      objects to the data-structure manager;
    - the lookup-table algorithms (internal/adapter/rlt/rlt.go);
    - the data-structure manager and the program runnable
      (internal/adapter/bpf): one event loop serialises the writes to the
      kernel structures, which belong to the ebpfstruct module;
    - the health monitor, the remote-assignment receiver and the static
      backend list (internal/adapter/monitor);
    - utilities (internal/util): the watcher multiplexer every component uses
      to fan out events, the worker pool, a ring buffer, a linked list, net
      helpers;
    - the distributed layer: the write-ahead log (internal/adapter/wal), the
      replicated data structure over it (internal/controller/dvds), the state
      machines (internal/adapter/statemachine) and the cluster transport
      (internal/adapter/cluster);
    - the entry point cmd/udplb, which starts the process and closes it in
      reverse order;
    - the test tooling: cmd/udplb-traffic-gen, cmd/udplb-echo-backend, the
      integration test driver cmd/udplb_test, the end-to-end configuration,
      the benchmark log parser and the validators of the common API.

    ** The files

    - [Prelude]: machine integers with their wrap-around, the monad [go] of Go
      computations (a value, a panic, a goroutine parked for ever, or fuel that
      ran out), loops and slices, the total-correctness judgement [returns]
      with its rules, runs of step functions ([run_acts]) with their
      invariants, the hint database [udplb].
    - [Types]: internal/types: errors as values with [errors.Is], backends and
      their coordinates, configuration, the [StateMachine] interface with its
      laws, codecs, and [FlatErrors], what is used of flaterrors.Join.
    - [Rlt], [RltReverse], [RltTables]: the five table algorithms, one
      definition per loop; then ReverseCoordinatesLookupTable (termination and
      well-formedness for every order the runtime may range over the map of
      free slots, the home slots, what two orders agree on, and that they may
      differ), then the round robin, its equivalence with the naive Fibonacci
      table, and the robust tables, which end exactly when the slots suffice.
    - [GoNet]: net.ParseIP, IP.To4 and net.ParseMAC as the Go library has
      them, and internal/util/net.go.
    - [Json], [Codec]: what encoding/json makes of the values the program
      sends through it (integers, strings and byte slices, lists, maps with
      their keys sorted, structs), the encoder, the decoder with its
      tolerances, and the codecs of the program's types.
    - [WatcherMux], [MuxStreams]: internal/util/watchermux.go.  Watchers live
      in a heap, since the map, the cancel closures and a running dispatch
      share them.  A step relation interleaves registrations, cancels, single
      sends, reads and Close; invariants by induction on runs; the shutdown
      hazards.  Then what one subscriber receives of a sequence of dispatches,
      the interface through which every component with a multiplexer is proved.
    - [WorkerPool], [PoolDispatch]: internal/util/workerpool.go as a step
      function over the queue, the workers, the waiter and Close, under every
      schedule; the pool as the event loops use it, equivalent to handling the
      events one at a time.
    - [Packet]: BuildPacket, ParsePacket, the statistics and the receive loop
      of the echo backend, the monitor's probe.  [EchoServer]: the two
      goroutines of the echo backend and its main.  [TrafficGen]: the
      generator's flags, loop and report, and the generator against the echo
      backend.
    - [BpfManager]: manager.go and the runnable of udplb_user.go, TraceBPF
      included.  The kernel structures are the class [EbpfObjects] with the
      laws [EbpfObjectsLaws]: a set writes the inactive variant, its deferred
      switchover activates it.  [shared_kernel] is an instance with one pointer
      for all structures, as the program configures them.  The class
      [ObjectsManager] is the contract the controller relies on;
      [dsManager_laws] discharges it.
    - [ManagerLoop]: the same manager with any number of callers in flight,
      its event channel and its loop, as a step function over schedules.
    - [Monitor]: internal/adapter/monitor.  [MonitorLoops]: the loops of the
      health monitor and of the receiver of remote assignments beside their
      callers, as step functions.  [Controller]: controller.go against
      [ObjectsManager].  [Wiring]: New, Run and Close of the whole process.
      [Main]: cmd/udplb/main.go from its arguments to its exit status.
      [HealthPath]: the health monitor, its channel and both loops of the
      started controller under every schedule.
    - [Xdp]: the XDP program on a frame of bytes: header parsing with its
      bounds, the session and table lookups, the rewriting of addresses and
      checksums, the assignment record.  [DataPath]: the composition with the
      controller, the manager's structures and the echo backend.  [Failover]:
      the composition of [HealthPath] and [DataPath].
    - [StateMachine], [StateCodec]: the state machines and their options; their
      JSON snapshots.  [RingBuffer], [LinkedList]: the containers, refined to
      a queue and a list.  [Wal], [Dvds], [Cluster]: the operations of the
      distributed layer, the log proved from those refinements.
    - [WalLoops], [DvdsLoops], [DvdsShutdown], [ClusterLoops], [TypedLoops]:
      the goroutines of the log (its reader and its event loop), of the
      replicated structure over its two logs, and of the raw and the typed
      cluster, as step functions over schedules; the typed cluster runs over
      the raw one.
    - [Testenv] (the end-to-end configuration and the test port),
      [TestDriver] (setup.go, run.go and main.go of cmd/udplb_test),
      [Validation] (the common API's validators), [BenchLog] (the benchmark
      log parser, its regular expression as a deterministic matcher).

    ** Correspondence

    A definition keeps the name of the function it translates where it can
    ([mgr_Run], [cm_Close] and the like where several components have the same
    method).  State is passed explicitly; a method that mutates its receiver
    returns the new receiver.  A nil map is [None], where writing to it
    panics.  Mutexes that every path releases are not modelled; the manager's,
    which two paths leak, is.  A blocking operation that nothing can complete
    is [Blocked].  Choices of the runtime are arguments quantified in the
    theorems: the order a map is ranged over (any permutation of its
    elements), which ready case a select takes, whether a reader catches up
    during a dispatch timeout, and, for the goroutines of the pool, the
    manager, the monitors, the controller, the log, the replicated structure,
    the clusters and the echo backend, the schedule (any list of steps enabled
    one after the other).  encoding/json is modelled, being part of the
    language's library; the codecs of generic payloads are arguments.  What
    libraries outside the repository answer (ebpfstruct, cilium/ebpf,
    google/uuid's SHA-1 identifiers, flaterrors, netlink), the kernel's
    helpers, the network (protocol.go is a record of functions over it) and
    the clock are arguments too, with their documented behaviour as class laws
    or named hypotheses.

    ** Fuel and bounds

    The prime rounds of the reverse table run at most once per prime below the
    table size after the first, so [rclt_fuel] is the number of primes plus
    one; the theorem shows it always suffices.  The probes and loops of the
    robust tables take their fuel as an argument; the theorems give a bound
    that suffices when there are at least as many slots as backends, and show
    that no fuel does otherwise.  The matcher of [BenchLog] is bounded by the
    length of the log, each match consuming at least a byte.  Parsers recurse
    on their input.  Goroutines need no fuel: a schedule is a list, and the
    liveness theorems say that every way of going on ends, by a measure that
    each step decreases.

    Bounds that the theorems name: a log's capacity is positive and below
    2^64 - 1 (the ring buffer's indices wrap around); the callers of a log are
    polite, that is leave at most 32 proposals unread (the size of the
    buffers), and [healthLoop] is less than the 100 entries of its channel
    behind.  Past these bounds the code drops, and past the first it panics;
    the theorems without them say what is left.

    ** What the theorems show

    The data path.  Once the first tables are installed, a session datagram is
    transmitted to an enabled backend of the configuration, with its addresses
    as configured and its payload intact; a session stays with its backend
    while the tables stay, and across a recomputation that keeps the backend;
    the program never forwards its own frames again.  Before the first
    installation a datagram is sent to 0.0.0.0.

    Failover.  Under every schedule of a started process in which the health
    loop keeps up, the outcome of the probes reaches the list the program
    reads without loss, and every frame then goes to a backend that answered
    its last probe.

    The process.  The controller never panics or installs an index out of
    range on any run; one recomputation preserves affinity, two need not.
    SetObjects is atomic for readers, up to a panic on addresses the
    configuration check lets through, and concurrent calls to the manager
    linearize and settle.  Health rounds probe each backend once; what a
    subscriber receives of a monitor is an ordered selection of what was
    observed or decoded.  Every shutdown (pool, manager, monitors, raw and
    typed cluster, log, replicated structure, process) completes, the callers
    cancelling once.

    The distributed layer.  Containers refine a queue and a list.  Under every
    schedule the log accepts an ordered selection of its proposals and keeps
    the last of them; with polite callers it loses nothing, and a burst of
    proposals makes it panic.  A replicated machine follows its logs, and is
    with polite callers the replay of all proposals.  A running cluster
    forwards the messages of each source in order and sends every one of them
    once to each connected peer, and a typed value arrives as it was sent; but
    the cluster never learns of a peer.  Machines behave as last-writer-wins
    stores, except the counter's bounds and forks; their snapshots decode to
    the state encoded, merged into what a map or a set held.

    The tables and the tools.  Tables are total and well formed but depend on
    map order.  The generator and the echo backend agree on what they count,
    and the reports of the echo backend never go back; the test driver sets up
    what its plan says, and the log parser recovers what the benchmark prints.

    ** Not modelled

    Generated code (the protobuf messages, the mocks and bpf2go's loaders) and
    the vmagent adapter, whose functions are panic("unimplemented"): they
    have no logic of this program.  Logging and the text of usage messages.
    Health entries handled before Run returns: the loops of [HealthPath] start
    from the state Run leaves.  The remaining lines of the sources declare
    interfaces, imports and sentinel errors. *)
From Stdlib Require Export Ascii.
From stdpp Require Export strings gmap sorting prelude list_numbers.
#[global] Open Scope Z_scope.

(** ** Machine integers

    Go's fixed-width integers wrap around; an [n]-bit unsigned value is kept
    as a [Z] in [0, 2^n) and every operation that can leave the range is
    followed by its wrap. *)

Definition wrap (w : Z) (x : Z) : Z := x `mod` 2 ^ w.
Definition u8 (x : Z) : Z := wrap 8 x.
Definition u16 (x : Z) : Z := wrap 16 x.
Definition u32 (x : Z) : Z := wrap 32 x.
Definition max_u32 : Z := 2 ^ 32 - 1.

(** A 64-bit two's complement integer (Go's [int64], and [int] on the
    64-bit targets the program is built for). *)
Definition i64 (x : Z) : Z := (x + 2 ^ 63) `mod` 2 ^ 64 - 2 ^ 63.
Definition min_i64 : Z := - 2 ^ 63.
Definition max_i64 : Z := 2 ^ 63 - 1.

Definition is_u32 (x : Z) : Prop := 0 <= x < 2 ^ 32.
Definition is_i64 (x : Z) : Prop := min_i64 <= x <= max_i64.

(** ** Computations of Go code

    A call either returns, panics, parks its goroutine forever (a lock or
    channel nobody will release), or needs more iterations than the fuel it was
    given.  Go errors are ordinary values and are returned by [Done]. *)

Inductive panic :=
  | IndexOutOfRange
  | DivideByZero
  | NilDereference
  | CloseOfClosedChannel
  | SendOnClosedChannel
  | SliceToArray
  | MakeLength
  | Unimplemented
  | ExplicitPanic
  | NilMapWrite.

Inductive go (A : Type) :=
  | Done (a : A)
  | Panic (p : panic)
  | Blocked
  | NoFuel.
Arguments Done {A} a.
Arguments Panic {A} p.
Arguments Blocked {A}.
Arguments NoFuel {A}.

#[export] Instance go_ret : MRet go := @Done.
#[export] Instance go_bind : MBind go := λ A B k c,
  match c with
  | Done a => k a
  | Panic p => Panic p
  | Blocked => Blocked
  | NoFuel => NoFuel
  end.
#[export] Instance panic_eq_dec : EqDecision panic.
Proof. solve_decision. Defined.
#[export] Instance go_eq_dec `{EqDecision A} : EqDecision (go A).
Proof. solve_decision. Defined.

(** Total correctness: the computation returns a value satisfying [Q]. *)
Definition returns {A} (c : go A) (Q : A → Prop) : Prop := ∃ a, c = Done a ∧ Q a.

(** [for x := range l { s = f(s, x) }]. *)
Fixpoint foldM {S A} (f : S → A → go S) (l : list A) (s : S) : go S :=
  match l with
  | [] => Done s
  | x :: l => s' ← f s x; foldM f l s'
  end.

(** A [range] loop with [break] (or a [goto] out of it): the body also says
    whether to stop, and the result says whether it was stopped. *)
Fixpoint foldM_until {S A} (f : S → A → go (S * bool)) (l : list A) (s : S) : go (S * bool) :=
  match l with
  | [] => Done (s, false)
  | x :: l => '(s', stop) ← f s x; if stop : bool then Done (s', true) else foldM_until f l s'
  end.

(** [for { s, again = body(s); if !again { break } }], at most [fuel] times. *)
Fixpoint loopM {S} (fuel : nat) (body : S → go (S * bool)) (s : S) : go S :=
  match fuel with
  | O => NoFuel
  | Datatypes.S fuel => '(s', again) ← body s; if again : bool then loopM fuel body s' else Done s'
  end.

(** Slices: reading and writing out of range panics. *)
Definition slice_get {A} (l : list A) (i : Z) : go A :=
  if decide (0 <= i) then
    match l !! Z.to_nat i with Some a => Done a | None => Panic IndexOutOfRange end
  else Panic IndexOutOfRange.
Definition slice_set {A} (l : list A) (i : Z) (a : A) : go (list A) :=
  if decide (0 <= i < Z.of_nat (length l)) then Done (<[Z.to_nat i := a]> l)
  else Panic IndexOutOfRange.

(** [l[a:b]] for a slice whose capacity is its length. *)
Definition slice_range {A} (l : list A) (a b : Z) : go (list A) :=
  if decide (0 <= a <= b ∧ b <= Z.of_nat (length l))
  then Done (take (Z.to_nat (b - a)) (drop (Z.to_nat a) l))
  else Panic IndexOutOfRange.

(** Integer division and remainder panic on a zero divisor.  Both operands
    are unsigned in the code modelled here. *)
Definition udiv (x y : Z) : go Z := if decide (y = 0) then Panic DivideByZero else Done (x `div` y).
Definition umod (x y : Z) : go Z := if decide (y = 0) then Panic DivideByZero else Done (x `mod` y).

(** Reading an absent key of a [map[K]uint32] yields the zero value. *)
Definition map_get `{Countable K} (m : gmap K Z) (k : K) : Z := default 0 (m !! k).

(** [for i := range m]. *)
Definition range (m : Z) : list Z := seqZ 0 m.

(** * Lemmas *)

Create HintDb udplb.

Lemma u32_range x : is_u32 (u32 x).
Proof. unfold is_u32, u32, wrap. apply Z.mod_pos_bound. lia. Qed.
Lemma u32_small x : is_u32 x → u32 x = x.
Proof. apply Z.mod_small. Qed.
Lemma i64_small x : is_i64 x → i64 x = x.
Proof. unfold is_i64, i64, min_i64, max_i64. intros. rewrite Z.mod_small; lia. Qed.
Lemma i64_range x : is_i64 (i64 x).
Proof.
  unfold is_i64, i64, min_i64, max_i64.
  pose proof (Z.mod_pos_bound (x + 2 ^ 63) (2 ^ 64)). lia.
Qed.
(** The three ways a sum or difference of two in-range integers can land. *)
Lemma i64_above x : max_i64 < x <= max_i64 + 2 ^ 64 → i64 x = x - 2 ^ 64.
Proof.
  unfold i64, max_i64. intros.
  replace (x + 2 ^ 63) with (x + 2 ^ 63 - 2 ^ 64 + 1 * 2 ^ 64) by lia.
  rewrite Z.mod_add by lia. rewrite Z.mod_small; lia.
Qed.
Lemma i64_below x : min_i64 - 2 ^ 64 <= x < min_i64 → i64 x = x + 2 ^ 64.
Proof.
  unfold i64, min_i64. intros.
  replace (x + 2 ^ 63) with (x + 2 ^ 63 + 2 ^ 64 + (-1) * 2 ^ 64) by lia.
  rewrite Z.mod_add by lia. rewrite Z.mod_small; lia.
Qed.
#[export] Hint Resolve u32_range i64_range : udplb.

(** ** Rules for [returns] *)

Lemma returns_done {A} (a : A) Q : Q a → returns (Done a) Q.
Proof. intros. by exists a. Qed.
Lemma returns_bind {A B} (c : go A) (k : A → go B) (R : A → Prop) (Q : B → Prop) :
  returns c R → (∀ a, R a → returns (k a) Q) → returns (c ≫= k) Q.
Proof. intros (a & -> & Ha) Hk. by apply Hk. Qed.
Lemma returns_mono {A} (c : go A) (P Q : A → Prop) :
  returns c P → (∀ a, P a → Q a) → returns c Q.
Proof. intros (a & -> & HP) Hm. exists a. auto. Qed.
Lemma returns_and {A} (c : go A) (P Q : A → Prop) :
  returns c P → returns c Q → returns c (λ a, P a ∧ Q a).
Proof. intros (a & -> & ?) (b & [= <-] & ?). by exists a. Qed.
Lemma returns_inv {A} (a : A) Q : returns (Done a) Q → Q a.
Proof. by intros (? & [= <-] & ?). Qed.

(** Loop rule: [P done s] holds after the elements of [done]. *)
Lemma returns_foldM_prefix {S A} (f : S → A → go S) (P : list A → S → Prop) l s :
  P [] s →
  (∀ done x rest s', l = done ++ x :: rest → P done s' → returns (f s' x) (P (done ++ [x]))) →
  returns (foldM f l s) (P l).
Proof.
  intros H0 Hstep.
  cut (∀ l2 l1 s', l = l1 ++ l2 → P l1 s' → returns (foldM f l2 s') (P l)).
  { intros Hc. by apply (Hc l [] s). }
  induction l2 as [|x l2 IH]; intros l1 s' Hl HP; simpl.
  - apply returns_done. by rewrite Hl, app_nil_r.
  - eapply returns_bind; [by eapply Hstep|]. intros s'' Hs''.
    apply (IH (l1 ++ [x])); [by rewrite <-app_assoc|done].
Qed.
Lemma returns_foldM {S A} (f : S → A → go S) (P : S → Prop) l s :
  P s → (∀ s' x, x ∈ l → P s' → returns (f s' x) P) → returns (foldM f l s) P.
Proof.
  intros H0 Hstep. apply (returns_foldM_prefix f (λ _, P) l s H0).
  intros done x rest s' -> HP. apply Hstep; [set_solver|done].
Qed.

(** What every successful iteration preserves, a loop that returns preserves. *)
Lemma foldM_preserves {S A} (f : S → A → go S) (P : S → Prop) l s s' :
  (∀ s x s', x ∈ l → P s → f s x = Done s' → P s') → P s → foldM f l s = Done s' → P s'.
Proof.
  revert s. induction l as [|x l IH]; intros s Hf Hs; simpl; [by intros [= <-]|].
  destruct (f s x) as [s1| | |] eqn:E; simpl; try done.
  apply IH; [|apply (Hf s x s1); [set_solver|done..]].
  intros s2 y s3 Hy. apply Hf. set_solver.
Qed.

Lemma returns_foldM_until {S A} (f : S → A → go (S * bool)) (P : S → Prop) l s :
  P s → (∀ s' x, x ∈ l → P s' → returns (f s' x) (λ r, P r.1)) →
  returns (foldM_until f l s) (λ r, P r.1).
Proof.
  revert s. induction l as [|x l IH]; intros s H0 Hstep; simpl; [by apply returns_done|].
  eapply returns_bind; [apply Hstep; [set_solver|done]|].
  intros [s' []] Hs'; [by apply returns_done|].
  apply IH; [done|]. intros s'' y Hy. apply Hstep. set_solver.
Qed.

(** Loop rule with a variant: the fuel only has to exceed the measure of the
    initial state. *)
Lemma returns_loopM {S} (body : S → go (S * bool)) (P : S → Prop) (Q : S → Prop)
    (measure : S → nat) fuel s :
  (measure s < fuel)%nat → P s →
  (∀ s', P s' → returns (body s') (λ '(s'', again),
     if again : bool then P s'' ∧ (measure s'' < measure s')%nat else Q s'')) →
  returns (loopM fuel body s) Q.
Proof.
  revert s. induction fuel as [|fuel IH]; intros s Hm HP Hbody; [lia|]. simpl.
  eapply returns_bind; [by apply Hbody|].
  intros [s' []]; simpl; [|apply returns_done].
  intros [HP' Hm']. apply IH; [lia|done..].
Qed.

Lemma returns_slice_get {A} (l : list A) i Q :
  (∃ a, l !! Z.to_nat i = Some a ∧ Q a) → 0 <= i → returns (slice_get l i) Q.
Proof.
  intros (a & Hl & Ha) Hi. unfold slice_get. rewrite decide_True by done. rewrite Hl.
  by apply returns_done.
Qed.
Lemma returns_slice_set {A} (l : list A) i a (Q : list A → Prop) :
  0 <= i < Z.of_nat (length l) → Q (<[Z.to_nat i := a]> l) → returns (slice_set l i a) Q.
Proof. intros Hi HQ. unfold slice_set. rewrite decide_True by done. by apply returns_done. Qed.
Lemma slice_range_Done {A} (l : list A) a b :
  0 <= a <= b → b <= Z.of_nat (length l) →
  slice_range l a b = Done (take (Z.to_nat (b - a)) (drop (Z.to_nat a) l)).
Proof. intros. unfold slice_range. by rewrite decide_True. Qed.
Lemma returns_slice_range {A} (l : list A) a b (Q : list A → Prop) :
  0 <= a <= b → b <= Z.of_nat (length l) →
  Q (take (Z.to_nat (b - a)) (drop (Z.to_nat a) l)) → returns (slice_range l a b) Q.
Proof. intros. rewrite slice_range_Done by done. by apply returns_done. Qed.
Lemma returns_udiv x y (Q : Z → Prop) : y ≠ 0 → Q (x `div` y) → returns (udiv x y) Q.
Proof. intros. unfold udiv. rewrite decide_False by done. by apply returns_done. Qed.
Lemma returns_umod x y (Q : Z → Prop) : y ≠ 0 → Q (x `mod` y) → returns (umod x y) Q.
Proof. intros. unfold umod. rewrite decide_False by done. by apply returns_done. Qed.
#[export] Hint Resolve returns_done returns_slice_set returns_udiv returns_umod : udplb.

(** ** Ranges and map reads *)

Lemma elem_of_range m k : k ∈ range m ↔ 0 <= k < m.
Proof. unfold range. rewrite elem_of_seqZ. lia. Qed.
Lemma range_length m : length (range m) = Z.to_nat m.
Proof. apply length_seqZ. Qed.
Lemma range_NoDup m : NoDup (range m).
Proof. apply NoDup_seqZ. Qed.
(** A prefix of a range is a range. *)
Lemma range_split m l1 x l2 : range m = l1 ++ x :: l2 → l1 = range x ∧ 0 <= x < m.
Proof.
  intros H.
  assert (Hx : x ∈ range m) by (rewrite H; set_solver).
  apply elem_of_range in Hx. split; [|done].
  assert (Hlk : range m !! length l1 = Some x).
  { rewrite H, lookup_app_r, Nat.sub_diag by lia. done. }
  apply lookup_seqZ in Hlk as [Hxeq Hlt].
  assert (Hsplit : range m = range x ++ seqZ x (m - x)).
  { unfold range. replace m with (x + (m - x)) at 1 by lia. by rewrite seqZ_app by lia. }
  rewrite Hsplit in H. apply app_inj_1 in H as [? _]; [done|].
  rewrite range_length. lia.
Qed.

Lemma map_get_insert `{Countable K} (m : gmap K Z) k v : map_get (<[k := v]> m) k = v.
Proof. unfold map_get. by rewrite lookup_insert_eq. Qed.
Lemma map_get_insert_ne `{Countable K} (m : gmap K Z) k k' v :
  k ≠ k' → map_get (<[k := v]> m) k' = map_get m k'.
Proof. intros. unfold map_get. by rewrite lookup_insert_ne. Qed.

(** Loop rule for [for i := range m]: [P i] holds before iteration [i]. *)
Lemma returns_foldM_range {S} (f : S → Z → go S) (P : Z → S → Prop) m s :
  0 <= m → P 0 s →
  (∀ i s', 0 <= i < m → P i s' → returns (f s' i) (P (i + 1))) →
  returns (foldM f (range m) s) (P m).
Proof.
  intros Hm H0 Hstep.
  assert (Hinj : ∀ i j, 0 <= i → 0 <= j → range i = range j → i = j).
  { intros i j ?? Hij%(f_equal length). rewrite !range_length in Hij. lia. }
  eapply returns_mono; [apply (returns_foldM_prefix _ (λ done s', ∀ i, done = range i → 0 <= i → P i s'))|].
  - intros i Hi Hi0. apply (Hinj 0) in Hi as <-; [done|lia..].
  - intros done i rest s' Hr HP. apply range_split in Hr as [-> Hi].
    eapply returns_mono; [apply Hstep; [done|by apply HP; [|lia]]|].
    intros s'' HP' i' Hi' Hi0. assert (range i ++ [i] = range (i + 1)) as Heq.
    { unfold range. by rewrite seqZ_app by lia. }
    rewrite Heq in Hi'. by apply Hinj in Hi' as <-; [|lia..].
  - intros s' HP. by apply HP.
Qed.

(** The same for a loop that may stop early, after [i] iterations. *)
Lemma returns_foldM_until_range {S} (f : S → Z → go (S * bool)) (P : Z → S → Prop) m s :
  0 <= m → P 0 s →
  (∀ i s', 0 <= i < m → P i s' → returns (f s' i) (λ r, P (i + 1) r.1)) →
  returns (foldM_until f (range m) s) (λ r, ∃ i, 0 <= i <= m ∧ P i r.1).
Proof.
  intros Hm H0 Hstep. unfold range.
  cut (∀ k a s', 0 <= a → a + Z.of_nat k = m → P a s' →
    returns (foldM_until f (seqZ a (Z.of_nat k)) s') (λ r, ∃ i, 0 <= i <= m ∧ P i r.1)).
  { intros Hc. rewrite <-(Z2Nat.id m Hm) at 1. apply Hc; [lia..|done]. }
  induction k as [|k IH]; intros a s' Ha Hk HP.
  - apply returns_done. exists a. split; [lia|done].
  - rewrite seqZ_cons by lia. simpl. eapply returns_bind; [apply Hstep; [lia|done]|].
    intros [s'' []] Hs''; simpl in *; [apply returns_done; exists (a + 1); split; [lia|done]|].
    replace (Z.pred (Z.of_nat (Datatypes.S k))) with (Z.of_nat k) by lia.
    apply IH; [lia..|done].
Qed.

(** ** Finite sets of indices *)

Lemma index_set_free (n : Z) (X : gset Z) :
  Z.of_nat (size X) < n → ∃ j, 0 <= j < n ∧ j ∉ X.
Proof.
  intros Hlt. destruct (decide (Exists (λ j, j ∉ X) (range n))) as [He|Hne].
  - apply Exists_exists in He as (j & Hj%elem_of_range & ?). eauto.
  - apply not_Exists_Forall in Hne; [|solve_decision]. rewrite Forall_forall in Hne.
    assert (Hsub : list_to_set (range n) ⊆ X).
    { intros j Hj%elem_of_list_to_set. destruct (decide (j ∈ X)); [done|]. by destruct (Hne j). }
    apply subseteq_size in Hsub. rewrite size_list_to_set in Hsub by apply range_NoDup.
    rewrite range_length in Hsub. lia.
Qed.
Lemma index_set_size (n : Z) (X : gset Z) :
  0 <= n → (∀ j, j ∈ X → 0 <= j < n) → Z.of_nat (size X) <= n.
Proof.
  intros Hn HX. assert (Hsub : X ⊆ list_to_set (range n)).
  { intros j Hj. by apply elem_of_list_to_set, elem_of_range, HX. }
  apply subseteq_size in Hsub. rewrite size_list_to_set in Hsub by apply range_NoDup.
  rewrite range_length in Hsub. lia.
Qed.

(** ** Schedules

    Where several goroutines take turns, a schedule is the list of the actions
    taken; [step] says what an action does, or that it is not enabled. *)

Fixpoint run_acts {S A} (step : S → A → option S) (s : S) (acts : list A) : option S :=
  match acts with
  | [] => Some s
  | a :: acts => s' ← step s a; run_acts step s' acts
  end.

(** Every schedule of enabled actions ends, and in a state satisfying [Q]:
    whatever is scheduled, something can be until [Q] holds. *)
Inductive inevitable {S A} (step : S → A → option S) (Q : S → Prop) (s : S) : Prop :=
  | inevitable_now : Q s → inevitable step Q s
  | inevitable_later :
      (∃ a s', step s a = Some s') → (∀ a s', step s a = Some s' → inevitable step Q s') →
      inevitable step Q s.

Lemma run_acts_app {S A} (step : S → A → option S) s l1 l2 :
  run_acts step s (l1 ++ l2) = run_acts step s l1 ≫= λ s', run_acts step s' l2.
Proof. revert s. induction l1 as [|a l1 IH]; intros s; simpl; [done|]. destruct (step s a); simpl; [apply IH|done]. Qed.
Lemma run_acts_inv {S A} (step : S → A → option S) (P : S → Prop) s acts s' :
  (∀ s a s', P s → step s a = Some s' → P s') → P s → run_acts step s acts = Some s' → P s'.
Proof.
  intros Hstep. revert s. induction acts as [|a acts IH]; intros s Hs; simpl; [by intros [= <-]|].
  intros (s1 & H1 & H2)%bind_Some. by eapply IH; [eapply Hstep|].
Qed.
(** The same when only some actions preserve the invariant. *)
Lemma run_acts_inv_in {S A} (step : S → A → option S) (P : S → Prop) (ok : A → Prop) s acts s' :
  (∀ s a s', ok a → P s → step s a = Some s' → P s') → Forall ok acts → P s →
  run_acts step s acts = Some s' → P s'.
Proof.
  intros Hstep Hok. revert s. induction Hok as [|a acts Ha _ IH]; intros s Hs; simpl; [by intros [= <-]|].
  intros (s1 & H1 & H2)%bind_Some. by eapply IH; [eapply Hstep|].
Qed.
(** A measure that every action decreases, and progress until [Q]. *)
Lemma inevitable_measure {S A} (step : S → A → option S) (P Q : S → Prop) (m : S → nat) s :
  P s →
  (∀ s, P s → Q s ∨ ∃ a s', step s a = Some s') →
  (∀ s a s', P s → step s a = Some s' → P s' ∧ (m s' < m s)%nat) →
  inevitable step Q s.
Proof.
  intros HP Hprog Hdec. remember (m s) as n eqn:Hn. revert s HP Hn.
  induction (lt_wf n) as [n _ IH]. intros s HP ->.
  destruct (Hprog s HP) as [HQ|Hex]; [by left|]. right; [done|].
  intros a s' Hs. destruct (Hdec s a s' HP Hs) as [HP' Hlt]. by eapply IH.
Qed.

(** ** Tactics *)

(** Runs [foldM] bodies and slice accesses by the rules above; [go_bind]
    steps through one monadic bind whose head returns. *)
Ltac go_bind R := eapply (returns_bind _ _ R).
Ltac go_auto := eauto with udplb.
