(* ===== verification/Types.v ===== *)
(** * Types: the data of internal/types and the errors of the program

    [error] values, the [State] enumeration, backends and their cached
    coordinates, assignments, the configuration and the [StateMachine]
    interface, translated from src/internal/types. *)
From S2P Require Import Prelude.

(** ** Errors

    A Go error is a sentinel made by [errors.New], an error of a library or
    of the operating system, or a value that wraps several errors
    ([errors.Join], [fmt.Errorf] with [%w]). *)
Inductive error :=
  | Sentinel (text : string)
  | Foreign (code : Z)
  | Wraps (es : list error).

(** [errors.Is] against a sentinel: depth-first search of the wrapped errors. *)
Fixpoint errors_is (e : error) (target : string) : bool :=
  match e with
  | Sentinel t => String.eqb t target
  | Foreign _ => false
  | Wraps es => existsb (λ e', errors_is e' target) es
  end.

(** [flaterrors.Join] of the tooling module: the joined error is each of the
    errors it was made from. *)
Class FlatErrors := {
  Join : list error → error;
  Join_is : ∀ es t, errors_is (Join es) t = existsb (λ e, errors_is e t) es
}.
Definition flaterrors_wraps : FlatErrors := {| Join := Wraps; Join_is := λ _ _, eq_refl |}.

Definition ErrAlreadyClosed := Sentinel "trying to close an already closed interface".
Definition ErrAlreadyRunning := Sentinel "trying to run an already running interface".
Definition ErrCannotRunClosedRunnable := Sentinel "cannot run a closed runnable".
Definition ErrRunnableMustBeRunningToBeClosed := Sentinel "runnable must be running to be closed".
Definition ErrNotFound := Sentinel "not found".
Definition ErrUnsupportedStateMachineCommand := Sentinel "unsupported state machine command".

(** ** State *)

Inductive State := StateUnknown | StateAvailable | StateUnschedulable | StateUnavailable.
#[export] Instance State_eq_dec : EqDecision State.
Proof. solve_decision. Defined.

(** The [int] behind each constant ([iota]). *)
Definition State_int (s : State) : Z :=
  match s with
  | StateUnknown => 0
  | StateAvailable => 1
  | StateUnschedulable => 2
  | StateUnavailable => 3
  end.

(** ** Identifiers and byte order *)

(** A [uuid.UUID] is a [16]byte array. *)
Abbreviation uuid := (list Z) (only parsing).

(** The byte order [binary.NativeEndian] stands for on the target. *)
Inductive endian := LittleEndian | BigEndian.

(** [binary.*.Uint32(b)]: reads the first four bytes, panics on a shorter slice. *)
Definition Uint32 (e : endian) (b : list Z) : go Z :=
  match b with
  | b0 :: b1 :: b2 :: b3 :: _ =>
      Done match e with
      | LittleEndian => b0 + b1 * 2 ^ 8 + b2 * 2 ^ 16 + b3 * 2 ^ 24
      | BigEndian => b3 + b2 * 2 ^ 8 + b1 * 2 ^ 16 + b0 * 2 ^ 24
      end
  | _ => Panic IndexOutOfRange
  end.

Definition is_byte (b : Z) : Prop := 0 <= b < 256.
Definition is_uuid (u : uuid) : Prop := length u = 16%nat ∧ Forall is_byte u.

(** ** Assignment, backends *)

Record Assignment := { BackendId : uuid; SessionId : uuid }.

Record BackendSpec := {
  IP : list Z;          (* net.IP: 4 or 16 bytes *)
  Port : Z;
  MacAddr : list Z;     (* net.HardwareAddr *)
  SpecState : State     (* the desired state *)
}.

Record BackendStatus := { StatusState : State }.

Record BackendStatusEntry := { EntryBackendId : uuid; EntryState : State }.

Definition NCoordinates : Z := 4.

Record Backend := {
  Id : uuid;
  Spec : BackendSpec;
  Status : BackendStatus;
  coordinates : list Z   (* [NCoordinates]uint32 *)
}.

Definition Coordinates (b : Backend) : list Z := coordinates b.

(** [NewBackend] caches the four native-endian words of the identifier. *)
Definition NewBackend (e : endian) (id : uuid) (spec : BackendSpec) (status : BackendStatus)
    : go Backend :=
  coords ← foldM (λ coords i,
      h ← slice_range id (4 * i) (4 * (i + 1));
      c ← Uint32 e h;
      slice_set coords i c)
    (range NCoordinates) (replicate 4 0);
  Done {| Id := id; Spec := spec; Status := status; coordinates := coords |}.

(** ** Config *)

Record BackendConfig := { Enabled : bool; cfgIP : string; cfgMAC : string; cfgPort : Z }.

Record Config := {
  Ifname : string;
  ConfigIP : string;
  ConfigPort : Z;
  Backends : list BackendConfig
}.

(** ** Commands and the StateMachine interface *)

(** [StateMachineCommand] is a string type; any other string reaches the
    [default] case of [Execute]. *)
Definition AddCommand : string := "Add".
Definition AppendCommand : string := "Append".
Definition DeleteCommand : string := "Delete".
Definition PutCommand : string := "Put".
Definition SubtractCommand : string := "Subtract".

(** [types.StateMachine[T, U]] for a machine of Go type [M].  [Execute]
    mutates the receiver, so it returns the new receiver beside its error; it
    may panic.  [Encode] and [Decode] are the class [Codec]. *)
Class StateMachine (M T U : Type) := {
  Execute : M → string → T → go (M * option error);
  StateOf : M → U;
  DeepCopy : M → M
}.

(** [types.Codec]: [Decode] mutates the receiver. *)
Class Codec (M : Type) := {
  Encode : M → list Z + error;
  Decode : M → list Z → M * option error
}.

(** What the repository expects of a machine in a proper state ([live]): no
    command panics, and a fork reports the state it was forked from and reacts
    to every command as the original does. *)
Class StateMachineLaws (M T U : Type) `{!StateMachine M T U} (live : M → Prop) := {
  execute_live : ∀ (m : M) verb (obj : T), live m → returns (Execute m verb obj) (λ r, live r.1);
  deepcopy_live : ∀ m : M, live (DeepCopy m);
  deepcopy_state : ∀ m : M, StateOf (DeepCopy m) = StateOf m;
  deepcopy_execute : ∀ (m : M) verb (obj : T), live m →
    ('(m', err) ← Execute (DeepCopy m) verb obj; Done (StateOf m', err)) =
    ('(m', err) ← Execute m verb obj; Done (StateOf m', err))
}.

(** * Lemmas *)

Lemma errors_is_wraps es t : errors_is (Wraps es) t = existsb (λ e, errors_is e t) es.
Proof. done. Qed.

Lemma Uint32_returns e b :
  (4 <= length b)%nat → Forall is_byte b → returns (Uint32 e b) is_u32.
Proof.
  intros Hl Hb. destruct b as [|b0 [|b1 [|b2 [|b3 b]]]]; simpl in Hl; try lia.
  rewrite !Forall_cons in Hb. destruct Hb as (?&?&?&?&_).
  apply returns_done. unfold is_byte, is_u32 in *. destruct e; cbv match; lia.
Qed.

Lemma Forall_take_drop {A} (P : A → Prop) n k l : Forall P l → Forall P (take n (drop k l)).
Proof. intros. by apply Forall_take, Forall_drop. Qed.

(** A backend made from a well-formed identifier has four 32-bit coordinates. *)
Lemma NewBackend_coordinates e id spec status :
  is_uuid id →
  returns (NewBackend e id spec status) (λ b,
    Id b = id ∧ Spec b = spec ∧ Status b = status ∧
    length (coordinates b) = 4%nat ∧ Forall is_u32 (coordinates b)).
Proof.
  intros [Hlen Hbytes]. unfold NewBackend.
  go_bind (λ c, length c = 4%nat ∧ Forall is_u32 c).
  - apply returns_foldM; [by repeat constructor|].
    intros c i Hi%elem_of_range [Hc Hu]. unfold NCoordinates in Hi.
    go_bind (λ h, (4 <= length h)%nat ∧ Forall is_byte h).
    { apply returns_slice_range; [lia..|]. split; [|by apply Forall_take_drop].
      rewrite length_take, length_drop. lia. }
    intros h [Hh Hb]. eapply returns_bind; [by apply Uint32_returns|].
    intros w Hw. apply returns_slice_set; [lia|]. split; [by rewrite length_insert|].
    by apply Forall_insert.
  - intros c [Hc Hu]. by apply returns_done.
Qed.
