(* ===== verification/Rlt.v ===== *)
(** * Rlt: the lookup-table algorithms of internal/adapter/rlt/rlt.go

    Every algorithm is translated loop by loop.  [uint32] values are [Z] with
    their wrap-around written out, Go maps are [gmap]/[gset], a slice access
    out of range and a division by zero panic.  The iteration order of a Go
    map, which the runtime chooses, is a parameter [iter] of the algorithms
    that iterate over one and use the order. *)
From S2P Require Import Prelude Types.

(** ** Constants *)

Definition Prime307 : Z := 307.
Definition Prime4071 : Z := 4071.
Definition Prime65497 : Z := 65497.

Definition primes : list Z :=
  [2; 3; 5; 7; 13; 17; 19; 31; 61; 89; 107; 127; 521; 607;
   1279; 2203; 2281; 3217; 4253; 4423; 9689; 9941; 11213;
   19937; 21701; 23209; 44497].

Definition fib : list Z :=
  [1; 1; 2; 3; 5; 8; 13; 21; 34; 55; 89; 144; 233; 377; 610;
   987; 1587; 2584; 4181].

(** A choice of the runtime: the order in which [for k := range m] visits the
    keys of a map. *)
Definition map_iteration (iter : gset Z → list Z) : Prop := ∀ s, iter s ≡ₚ elements s.

(** ** ReverseCoordinatesLookupTable *)

(** [nextPrime] scans the list from its largest element downwards. *)
Definition nextPrime (current : Z) : Z * bool :=
  match list_find (λ p, p < current) (reverse primes) with
  | Some (_, p) => (p, true)
  | None => (0, false)
  end.

Definition isNotFullyDistributed (distribution : gmap Z Z) : bool :=
  existsb (λ '(_, v), bool_decide (0 < v)) (map_to_list distribution).

(** The variables the main loop mutates. *)
Record rclt := { out : list Z; unset : gset Z; distribution : gmap Z Z }.

(** One slot of the innermost loop: backend [i] takes [idx] if it is free. *)
Definition rclt_slot (i idx : Z) (s : rclt) : go rclt :=
  if decide (idx ∈ unset s) then
    out' ← slice_set (out s) idx i;
    Done {| out := out';
            unset := unset s ∖ {[idx]};
            distribution := <[i := u32 (map_get (distribution s) i - 1)]> (distribution s) |}
  else Done s.

(** Coordinate [j] of backend [i] under the current prime. *)
Definition rclt_coord (coord : list (list Z)) (m prime i : Z) (s : rclt) (j : Z) : go rclt :=
  if decide (map_get (distribution s) i < 1) then Done s
  else
    ci ← slice_get coord i;
    cij ← slice_get ci j;
    md ← umod cij prime;
    cnt ← udiv m prime;
    foldM (λ s k, rclt_slot i (u32 (u32 (k + 1) * md)) s) (range cnt) s.

(** One iteration of the [for shouldContinue] loop, before the next prime. *)
Definition rclt_round (coord : list (list Z)) (m n prime : Z) (s : rclt) : go rclt :=
  foldM (λ s i, foldM (rclt_coord coord m prime i) (range NCoordinates) s) (range n) s.

Definition rclt_step (coord : list (list Z)) (m n : Z) (st : Z * rclt) : go ((Z * rclt) * bool) :=
  s' ← rclt_round coord m n st.1 st.2;
  let '(prime, shouldContinue) := nextPrime st.1 in
  Done ((prime, s'), shouldContinue && isNotFullyDistributed (distribution s')).

(** The loop runs at most once per prime below [m], after the round for [m]. *)
Definition rclt_fuel : nat := S (length primes).

(** Everything before "fill remaining". *)
Definition rclt_rounds (bs : list Backend) (m : Z) : go rclt :=
  let n := u32 (Z.of_nat (length bs)) in
  dist ← foldM (λ d i, q ← udiv m n; Done (<[i := q]> d)) (range n) ∅;
  let coord := Coordinates <$> bs in
  st ← loopM rclt_fuel (rclt_step coord m n)
         (m, {| out := replicate (Z.to_nat m) 0;
                unset := list_to_set (range m);
                distribution := dist |});
  Done st.2.

(** [for k := range unset]: the free slots, in the order [order], take the
    backends in turn. *)
Definition rclt_fill (n : Z) (order : list Z) (out : list Z) : go (list Z) :=
  st ← foldM (λ '(out, i) k,
      let i := if decide (i > u32 (n - 1)) then 0 else i in
      out' ← slice_set out k i;
      Done (out', u32 (i + 1)))
    order (out, 0);
  Done st.1.

Definition ReverseCoordinatesLookupTable (iter : gset Z → list Z) (bs : list Backend) (m : Z)
    : go (list Z) :=
  s ← rclt_rounds bs m;
  rclt_fill (u32 (Z.of_nat (length bs))) (iter (unset s)) (out s).

(** ** ShardedLookupTable *)

Definition ShardedLookupTable (bs : list Backend) (lookupTableLength : Z) : go (list Z) :=
  Panic Unimplemented.

(** ** RobustFibLookupTable and RobustSimpleLookupTable *)

(** The variables shared by the two algorithms: the partial table, what is
    left of each backend's quota, its last slot, and the exhausted backends. *)
Record robust := { lup : gmap Z Z; quota : gmap Z Z; lastIdx : list Z; banned : gset Z }.

(** The two initial loops: quotas of [m / n], then the hashed slot of each backend. *)
Definition robust_init (bs : list Backend) (m n : Z) : go robust :=
  q ← foldM (λ d j, q ← udiv m n; Done (<[j := q]> d)) (range n) ∅;
  foldM (λ s j,
      b ← slice_get bs j;
      c0 ← slice_get (Coordinates b) 0;
      md ← umod c0 m;
      lastIdx' ← slice_set (lastIdx s) j md;
      Done {| lup := <[md := j]> (lup s);
              quota := <[j := u32 (map_get (quota s) j - 1)]> (quota s);
              lastIdx := lastIdx';
              banned := banned s |})
    (range n)
    {| lup := ∅; quota := q; lastIdx := replicate (Z.to_nat n) 0; banned := ∅ |}.

(** [for { ... }] "until we find an empty slot". *)
Definition robust_probe (fuel : nat) (m : Z) (lup : gmap Z Z) (start : Z) : go Z :=
  loopM fuel (λ Mj,
      let Mj := if decide (Mj > u32 (m - 1)) then 0 else Mj in
      match lup !! Mj with
      | Some _ => Done (u32 (Mj + 1), true)
      | None => Done (Mj, false)
      end)
    start.

(** Backend [j] takes the next empty slot after its last one. *)
Definition robust_take (fuel : nat) (m j : Z) (s : robust) : go robust :=
  last ← slice_get (lastIdx s) j;
  Mj ← robust_probe fuel m (lup s) (u32 (last + 1));
  lastIdx' ← slice_set (lastIdx s) j Mj;
  Done {| lup := <[Mj := j]> (lup s);
          quota := <[j := u32 (map_get (quota s) j - 1)]> (quota s);
          lastIdx := lastIdx';
          banned := banned s |}.

Definition robust_ban (j : Z) (s : robust) : robust :=
  {| lup := lup s; quota := quota s; lastIdx := lastIdx s; banned := {[j]} ∪ banned s |}.

(** "fill remaining fields" and "output format". *)
Definition robust_fill (n rem : Z) (lup : gmap Z Z) : go (gmap Z Z) :=
  r ← foldM_until (λ '(lup, j) i,
      if decide (j > u32 (rem - 1)) then Done ((lup, j), true)
      else match lup !! i with
           | Some _ => Done ((lup, j), false)
           | None => Done ((<[i := j]> lup, u32 (j + 1)), false)
           end)
    (range n) (lup, 0);
  Done r.1.1.

Definition robust_out (m : Z) (lup : gmap Z Z) : go (list Z) :=
  foldM (λ out '(k, v), slice_set out k v) (map_to_list lup) (replicate (Z.to_nat m) 0).

(** The [for range fib[i]] loop for backend [j]; it breaks, banning [j], when
    the quota is used up. *)
Definition robust_fib_run (fuel : nat) (m j count : Z) (s : robust) : go robust :=
  r ← foldM_until (λ s _,
      if decide (map_get (quota s) j < 1) then Done (robust_ban j s, true)
      else s' ← robust_take fuel m j s; Done (s', false))
    (range count) s;
  Done r.1.

Definition RobustFibLookupTable (fuel : nat) (bs : list Backend) (m : Z) : go (list Z) :=
  let n := u32 (Z.of_nat (length bs)) in
  rem ← umod m n;
  s0 ← robust_init bs m n;
  r ← foldM_until (λ s i,
      foldM_until (λ s j,
          if decide (u32 (Z.of_nat (size (banned s))) = n) then Done (s, true)
          else if decide (map_get (quota s) j < 1) then Done (s, false)
          else
            count ← slice_get fib i;
            s' ← robust_fib_run fuel m j count s;
            Done (s', false))
        (range n) s)
    (range (Z.of_nat (length fib))) s0;
  lup' ← robust_fill n rem (lup r.1);
  robust_out m lup'.

Definition robust_simple_pass (fuel : nat) (m n : Z) (s : robust) : go robust :=
  foldM (λ s j,
      if decide (map_get (quota s) j < 1) then Done (robust_ban j s)
      else robust_take fuel m j s)
    (range n) s.

(** [for uint32(len(banned)) != n { ... }]: the test comes before each pass. *)
Definition robust_simple_loop (fuel : nat) (m n : Z) (s : robust) : go robust :=
  loopM fuel (λ s,
      if decide (u32 (Z.of_nat (size (banned s))) = n) then Done (s, false)
      else s' ← robust_simple_pass fuel m n s; Done (s', true))
    s.

Definition RobustSimpleLookupTable (fuel : nat) (bs : list Backend) (lookupTableLength : Z)
    : go (list Z) :=
  let n := u32 (Z.of_nat (length bs)) in
  let m := lookupTableLength in
  rem ← umod m n;
  s0 ← robust_init bs m n;
  s ← robust_simple_loop fuel m n s0;
  lup' ← robust_fill n rem (lup s);
  robust_out m lup'.

(** ** NaiveFibLookupTable *)

Record naive := {
  nout : list Z; jdx : Z; kdx : Z; currentEntry : Z;
  nbanned : Z; banList : gset Z; ndist : gmap Z Z
}.

(** The code after the label [nextentry]; [again] is its backward [goto]. *)
Definition naive_nextentry (n : Z) (s : naive) : naive * bool :=
  let cur := u32 (currentEntry s + 1) in
  let upd j cur := {| nout := nout s; jdx := j; kdx := 0; currentEntry := cur;
                      nbanned := nbanned s; banList := banList s; ndist := ndist s |} in
  if decide (cur < n) then (upd (jdx s) cur, false)
  else
    let j := u32 (jdx s + 1) in
    let j := if decide (j < u32 (Z.of_nat (length fib) - 1)) then 0 else j in
    (upd j 0, bool_decide (0 ∈ banList s)).

(** The [goto] runs at most twice: its second run stops at entry 1 or never. *)
Definition naive_goto (n : Z) (s : naive) : go naive :=
  loopM 2 (λ s, Done (naive_nextentry n s)) s.

Definition naive_step (n : Z) (s : naive) (i : Z) : go naive :=
  out' ← slice_set (nout s) i (currentEntry s);
  let d := <[currentEntry s := u32 (map_get (ndist s) (currentEntry s) - 1)]> (ndist s) in
  if decide (map_get d (currentEntry s) < 1) then
    naive_goto n {| nout := out'; jdx := jdx s; kdx := kdx s; currentEntry := currentEntry s;
                    nbanned := i64 (nbanned s + 1);
                    banList := {[currentEntry s]} ∪ banList s; ndist := d |}
  else
    let k := u32 (kdx s + 1) in
    let s' := {| nout := out'; jdx := jdx s; kdx := k; currentEntry := currentEntry s;
                 nbanned := nbanned s; banList := banList s; ndist := d |} in
    fj ← slice_get fib (jdx s);
    if decide (k < fj) then Done s' else naive_goto n s'.

Definition NaiveFibLookupTable (bs : list Backend) (lookupTableLength : Z) : go (list Z) :=
  let n := u32 (Z.of_nat (length bs)) in
  let m := lookupTableLength in
  d ← foldM (λ d i, q ← udiv m n; Done (<[i := u32 (q + 1)]> d)) (range n) ∅;
  s ← foldM (naive_step n) (range m)
        {| nout := replicate (Z.to_nat m) 0; jdx := 0; kdx := 0; currentEntry := 0;
           nbanned := 0; banList := ∅; ndist := d |};
  Done (nout s).

(** ** SimpleLookupTable *)

Definition SimpleLookupTable (bs : list Backend) (lookupTableLength : Z) : go (list Z) :=
  let m := lookupTableLength in
  foldM (λ out i,
      v ← umod i (u32 (Z.of_nat (length bs)));
      slice_set out i v)
    (range m) (replicate (Z.to_nat m) 0).
