(* ===== verification/RltReverse.v ===== *)
(** * RltReverse: correctness of ReverseCoordinatesLookupTable

    The table is well formed for every non-empty backend list and every map
    iteration order; two runs agree on all slots the prime rounds assigned and
    have the same number of slots per backend; each backend's home slot goes
    to it or to an earlier backend. *)
From S2P Require Import Prelude Types Rlt.

(** ** Well-formed inputs *)

(** What [NewBackend] guarantees of a backend. *)
Definition wf_backend (b : Backend) : Prop :=
  length (coordinates b) = 4%nat ∧ Forall is_u32 (coordinates b).

(** The slot a backend's first coordinate hashes to. *)
Definition home_slot (m : Z) (b : Backend) : Z := default 0 (coordinates b !! 0%nat) `mod` m.

(** ** The primes *)

Lemma list_find_descending p (l : list Z) i q :
  StronglySorted (λ x y, y <= x) l → list_find (λ x, x < p) l = Some (i, q) →
  q ∈ l ∧ q < p ∧ ∀ r, r ∈ l → r < p → r <= q.
Proof.
  intros Hs. revert i. induction Hs as [|x l Hs IH Hx]; intros i Hf; simpl in Hf; [done|].
  rewrite Forall_forall in Hx. case_decide as Hlt; simplify_eq.
  - split_and!; [set_solver|done|]. intros r [->|Hr]%elem_of_cons Hrp; [done|by apply Hx].
  - apply fmap_Some in Hf as ([i' q'] & Hf & [= -> ->]). destruct (IH _ Hf) as (? & ? & Hmax).
    split_and!; [set_solver|done|]. intros r [->|Hr]%elem_of_cons Hrp; [lia|by apply Hmax].
Qed.

(** [nextPrime p] is the largest listed prime below [p]. *)
Lemma nextPrime_spec p q ok :
  nextPrime p = (q, ok) →
  if ok then q ∈ primes ∧ q < p ∧ (∀ r, r ∈ primes → r < p → r <= q)
  else ∀ r, r ∈ primes → p <= r.
Proof.
  unfold nextPrime. destruct (list_find _ _) as [[i r]|] eqn:Hf; intros [= <- <-].
  - setoid_rewrite <-elem_of_reverse. eapply list_find_descending; [|exact Hf].
    by apply (bool_decide_unpack _); vm_compute.
  - apply list_find_None in Hf. rewrite Forall_forall in Hf.
    intros r Hr%elem_of_reverse. specialize (Hf r Hr). simpl in Hf. lia.
Qed.

Lemma primes_pos p : p ∈ primes → 2 <= p.
Proof. revert p. apply Forall_forall. by apply (bool_decide_unpack _); vm_compute. Qed.

(** The number of primes still ahead decreases at every round. *)
Definition primes_below (p : Z) : nat := length (filter (λ q, q < p) primes).

Lemma primes_below_lt p q : q ∈ primes → q < p → (primes_below q < primes_below p)%nat.
Proof.
  unfold primes_below. intros Hq Hlt. induction primes as [|x l IH]; [set_solver|].
  assert (Hmono : (length (filter (λ r, r < q)%Z l) <= length (filter (λ r, r < p)%Z l))%nat).
  { clear -Hlt. induction l as [|y l IH]; [done|].
    rewrite !filter_cons. repeat case_decide; simpl; lia. }
  rewrite !filter_cons. apply elem_of_cons in Hq as [->|Hq].
  - rewrite (decide_False (P := x < x)), (decide_True (P := x < p)) by lia. simpl. lia.
  - specialize (IH Hq). repeat case_decide; simpl; lia.
Qed.
Lemma primes_below_fuel p : (primes_below p < rclt_fuel)%nat.
Proof.
  unfold primes_below, rclt_fuel. pose proof (length_filter (λ q, q < p) primes). lia.
Qed.

(** ** The main loop *)

(** The table has its length, holds backend indices, and free slots are slots. *)
Record table_ok (m n : Z) (s : rclt) : Prop := {
  ok_length : length (out s) = Z.to_nat m;
  ok_entries : Forall (λ v, 0 <= v < n) (out s);
  ok_unset : ∀ k, k ∈ unset s → 0 <= k < m
}.

(** [s'] comes from [s] by claiming free slots: a claimed slot stays claimed
    and keeps its backend. *)
Definition claims (s s' : rclt) : Prop :=
  unset s' ⊆ unset s ∧
  ∀ k, 0 <= k → k ∉ unset s → out s' !! Z.to_nat k = out s !! Z.to_nat k.

(** ... for backend [i]: only its quota changed and it owns the new slots. *)
Definition claims_for (i : Z) (s s' : rclt) : Prop :=
  claims s s' ∧
  (∀ i', i' ≠ i → map_get (distribution s') i' = map_get (distribution s) i') ∧
  (∀ k, 0 <= k → k ∈ unset s → k ∉ unset s' → out s' !! Z.to_nat k = Some i).

#[export] Instance claims_preorder : PreOrder claims.
Proof.
  split; [by intros s|]. intros s1 s2 s3 [Hu1 Ho1] [Hu2 Ho2]. split; [set_solver|].
  intros k Hk Hn. rewrite Ho2, Ho1; set_solver.
Qed.
#[export] Instance claims_for_preorder i : PreOrder (claims_for i).
Proof.
  split; [by intros s|].
  intros s1 s2 s3 (Hc1 & Hd1 & Hn1) (Hc2 & Hd2 & Hn2). split_and!; [by etrans|..].
  - intros i' Hi'. by rewrite Hd2, Hd1.
  - intros k Hk Hk1 Hk3. destruct (decide (k ∈ unset s2)) as [Hk2|Hk2]; [by apply Hn2|].
    destruct Hc2 as [_ Ho2]. rewrite Ho2; [by apply Hn1|done..].
Qed.

Section rounds.
Context (m n : Z) (coord : list (list Z)).
Context (Hm : 0 < m) (Hn : 0 < n).
Context (Hcoord : ∀ i, 0 <= i < n → ∃ c, coord !! Z.to_nat i = Some c ∧ length c = 4%nat).

Lemma rclt_slot_ok i idx s :
  0 <= i < n → table_ok m n s →
  returns (rclt_slot i idx s) (λ s', table_ok m n s' ∧ claims_for i s s' ∧ (idx ∉ unset s')).
Proof.
  intros Hi [Hl He Hu]. unfold rclt_slot. case_decide as Hidx.
  - pose proof (Hu idx Hidx) as Hr.
    go_bind (λ o, o = <[Z.to_nat idx := i]> (out s)); [apply returns_slice_set; [lia|done]|].
    intros o ->. apply returns_done. split_and!; simpl.
    + split; simpl; [by rewrite length_insert|by apply Forall_insert|].
      intros k Hk. apply Hu. set_solver.
    + split_and!; [split; simpl; [set_solver|]|..].
      * intros k Hk Hkn. apply list_lookup_insert_ne.
        intros Heq. assert (k = idx) by lia. by subst.
      * intros i' Hi'. simpl. by rewrite map_get_insert_ne.
      * simpl. intros k Hk Hku Hkn. destruct (decide (k = idx)) as [->|]; [|set_solver].
        apply list_lookup_insert_eq. lia.
    + set_solver.
  - apply returns_done. by split_and!.
Qed.

Lemma rclt_coord_ok prime i j s :
  0 < prime → 0 <= i < n → 0 <= j < 4 → table_ok m n s →
  returns (rclt_coord coord m prime i s j) (λ s', table_ok m n s' ∧ claims_for i s s').
Proof.
  intros Hp Hi Hj Hok. unfold rclt_coord. case_decide; [by apply returns_done|].
  destruct (Hcoord i Hi) as (c & Hc & Hlen).
  go_bind (eq c); [apply returns_slice_get; [eauto|lia]|]. intros ? <-.
  destruct (lookup_lt_is_Some_2 c (Z.to_nat j)) as [cj Hcj]; [lia|].
  go_bind (eq cj); [apply returns_slice_get; [eauto|lia]|]. intros ? <-.
  eapply returns_bind; [apply (returns_umod _ _ (λ _, True)); [lia|done]|]. intros md _.
  eapply returns_bind; [apply (returns_udiv _ _ (λ _, True)); [lia|done]|]. intros cnt _.
  apply (returns_foldM _ (λ s', table_ok m n s' ∧ claims_for i s s')); [done|].
  intros s' k _ [Hok' Hc']. eapply returns_mono; [by apply rclt_slot_ok|].
  intros s'' (? & ? & _). split; [done|by etrans].
Qed.

(** Backend [i]'s turn in a round. *)
Lemma rclt_backend_ok prime i s :
  0 < prime → 0 <= i < n → table_ok m n s →
  returns (foldM (rclt_coord coord m prime i) (range NCoordinates) s)
    (λ s', table_ok m n s' ∧ claims_for i s s').
Proof.
  intros Hp Hi Hok.
  apply (returns_foldM _ (λ s', table_ok m n s' ∧ claims_for i s s')); [done|].
  intros s' j Hj%elem_of_range [Hok' Hc']. eapply returns_mono; [by apply rclt_coord_ok|].
  intros s'' [? ?]. split; [done|by etrans].
Qed.

Lemma rclt_round_ok prime s :
  0 < prime → table_ok m n s →
  returns (rclt_round coord m n prime s) (λ s', table_ok m n s' ∧ claims s s').
Proof.
  intros Hp Hok. apply (returns_foldM _ (λ s', table_ok m n s' ∧ claims s s')); [done|].
  intros s' i Hi%elem_of_range [Hok' Hc']. eapply returns_mono; [by apply rclt_backend_ok|].
  intros s'' [? (? & _)]. split; [done|by etrans].
Qed.

(** The loop over the primes, whose first round is for [m], terminates within
    [rclt_fuel] rounds; what the first round establishes is kept. *)
Lemma rclt_loop_ok s (Q : rclt → Prop) :
  table_ok m n s →
  returns (rclt_round coord m n m s) Q → (∀ s1 s2, Q s1 → claims s1 s2 → Q s2) →
  returns (loopM rclt_fuel (rclt_step coord m n) (m, s)) (λ st, table_ok m n st.2 ∧ Q st.2).
Proof.
  intros Hok HQ Hstable.
  pose (P := λ st : Z * rclt, 0 < st.1 ∧ table_ok m n st.2 ∧ (st = (m, s) ∨ Q st.2)).
  apply (returns_loopM _ P _ (λ st, primes_below st.1)); [apply primes_below_fuel| |].
  { by split_and!; [..|left]. }
  intros [p s'] (Hp & Hok' & HQ'); simpl in *. unfold rclt_step; simpl.
  go_bind (λ s'', table_ok m n s'' ∧ Q s'').
  { pose proof (rclt_round_ok p s' Hp Hok') as Hr. destruct HQ' as [[= -> ->]|HQ'].
    - eapply returns_mono; [exact (returns_and _ _ _ Hr HQ)|]. naive_solver.
    - eapply returns_mono; [exact Hr|]. naive_solver. }
  intros s'' [Hok'' HQ'']. destruct (nextPrime p) as [q ok] eqn:Hnp.
  apply nextPrime_spec in Hnp. apply returns_done.
  destruct ok; simpl; [|done]. destruct Hnp as (Hq & Hlt & _).
  destruct (isNotFullyDistributed _); [|done].
  split; [|by apply primes_below_lt]. split_and!; simpl; [|done|by right].
  apply primes_pos in Hq. lia.
Qed.

(** *** Home slots *)

(** Slot [coord[i][0] % m] is taken, by a backend no later than [i]. *)
Definition homed (i : Z) (s : rclt) : Prop :=
  ∀ c c0, coord !! Z.to_nat i = Some c → c !! 0%nat = Some c0 →
  (c0 `mod` m ∉ unset s) ∧ ∃ v, out s !! Z.to_nat (c0 `mod` m) = Some v ∧ v <= i.

Lemma homed_claims i s s' : homed i s → claims s s' → homed i s'.
Proof using Hm.
  clear Hn Hcoord. intros Hh [Hu Ho] c c0 Hc Hc0. destruct (Hh c c0 Hc Hc0) as (Hn' & v & Hv & Hle).
  split; [set_solver|]. exists v. split; [|done].
  rewrite Ho; [done| |done]. pose proof (Z.mod_pos_bound c0 m Hm). lia.
Qed.

(** In the round for [m], backend [i]'s first coordinate addresses one slot. *)
Lemma rclt_coord_home i s :
  m < 2 ^ 32 → 0 <= i < n → table_ok m n s → 1 <= map_get (distribution s) i →
  returns (rclt_coord coord m m i s 0) (λ s', table_ok m n s' ∧ claims_for i s s' ∧
    (∀ c c0, coord !! Z.to_nat i = Some c → c !! 0%nat = Some c0 → c0 `mod` m ∉ unset s')).
Proof.
  intros Hm32 Hi Hok Hd. unfold rclt_coord. rewrite decide_False by lia.
  destruct (Hcoord i Hi) as (c & Hc & Hlen).
  destruct (lookup_lt_is_Some_2 c 0%nat) as [c0 Hc0]; [lia|].
  go_bind (eq c); [apply returns_slice_get; [eauto|lia]|]. intros ? <-.
  go_bind (eq c0); [apply returns_slice_get; [eauto|lia]|]. intros ? <-.
  go_bind (eq (c0 `mod` m)); [apply returns_umod; [lia|done]|]. intros ? <-.
  go_bind (eq 1); [apply returns_udiv; [lia|by rewrite Z.div_same by lia]|]. intros ? <-.
  pose proof (Z.mod_pos_bound c0 m Hm).
  change (range 1) with [0]. cbn [foldM]. change (u32 (0 + 1)) with 1. rewrite Z.mul_1_l, u32_small by (unfold is_u32; lia).
  eapply returns_bind; [by apply rclt_slot_ok|]. intros s' (? & ? & ?).
  apply returns_done. split_and!; [done..|]. intros; by simplify_eq.
Qed.

(** After backend [i]'s turn in the round for [m], its home slot is taken. *)
Lemma rclt_backend_home i s :
  m < 2 ^ 32 → 0 <= i < n → table_ok m n s → 1 <= map_get (distribution s) i →
  returns (foldM (rclt_coord coord m m i) (range NCoordinates) s)
    (λ s', table_ok m n s' ∧ claims_for i s s' ∧
      ∀ c c0, coord !! Z.to_nat i = Some c → c !! 0%nat = Some c0 → c0 `mod` m ∉ unset s').
Proof.
  intros Hm32 Hi Hok Hd. change (range NCoordinates) with (0 :: [1; 2; 3]). simpl foldM.
  eapply returns_bind; [by apply rclt_coord_home|]. intros s1 (Hok1 & Hc1 & Hh1).
  apply (returns_foldM _ (λ s', table_ok m n s' ∧ claims_for i s s' ∧
    (∀ c c0, coord !! Z.to_nat i = Some c → c !! 0%nat = Some c0 → c0 `mod` m ∉ unset s'))
    [1; 2; 3]); [done|].
  intros s2 j Hj (Hok2 & Hc2 & Hh2). eapply returns_mono.
  { apply (rclt_coord_ok m i j s2); [done..| |done]. set_unfold. lia. }
  intros s3 [Hok3 Hc3]. split_and!; [done|by etrans|]. intros c c0 Hc Hc0 Hin.
  eapply Hh2; [done..|]. destruct Hc3 as ((Hsub & _) & _). by apply Hsub.
Qed.

Lemma rclt_round_home s :
  m < 2 ^ 32 → table_ok m n s → (∀ i, 0 <= i < n → 1 <= map_get (distribution s) i) →
  (∀ k, 0 <= k < m → k ∈ unset s) →
  returns (rclt_round coord m n m s) (λ s', ∀ i, 0 <= i < n → homed i s').
Proof.
  intros Hm32 Hok Hd Hfree.
  pose (I := λ i s', table_ok m n s' ∧ (∀ i', i <= i' < n → 1 <= map_get (distribution s') i') ∧
    (∀ k, 0 <= k < m → k ∉ unset s' → ∃ v, out s' !! Z.to_nat k = Some v ∧ v < i) ∧
    (∀ i', 0 <= i' < i → homed i' s')).
  eapply returns_mono; [apply (returns_foldM_range _ I)|].
  - lia.
  - split_and!; [done|done| |lia]. intros k Hk []. by apply Hfree.
  - intros i s' Hi (Hok' & Hd' & Hv' & Hh').
    eapply returns_mono; [apply rclt_backend_home; [done|done|done|apply Hd'; lia]|].
    intros s'' (Hok'' & (Hc & Hdf & Hnew) & Hh'').
    assert (Hval : ∀ k, 0 <= k < m → k ∉ unset s'' →
      ∃ v, out s'' !! Z.to_nat k = Some v ∧ v < i + 1).
    { intros k Hk Hkn. destruct (decide (k ∈ unset s')) as [Hin|Hnin].
      - exists i. split; [apply Hnew; [lia|done..]|lia].
      - destruct (Hv' k Hk Hnin) as (v & Hv & ?). exists v. split; [|lia].
        destruct Hc as [_ Ho]. rewrite Ho; [done|lia|done]. }
    split_and!; [done| |done|].
    + intros i' Hi'. rewrite Hdf by lia. apply Hd'. lia.
    + intros i' Hi'. destruct (decide (i' = i)) as [->|].
      * intros c c0 Hc1 Hc0. pose proof (Hh'' c c0 Hc1 Hc0) as Hnu. split; [done|].
        destruct (Hval (c0 `mod` m)) as (v & ? & ?); [by apply Z.mod_pos_bound|done|].
        exists v. split; [done|lia].
      * eapply homed_claims; [apply Hh'; lia|done].
  - unfold I. naive_solver.
Qed.
End rounds.

(** The quotas before the loop. *)
Lemma quotas_init m n (f : Z → Z) :
  0 < n →
  returns (foldM (λ d i, q ← udiv m n; Done (<[i := f q]> d)) (range n) (∅ : gmap Z Z))
    (λ d, ∀ i, 0 <= i < n → map_get d i = f (m `div` n)).
Proof.
  intros Hn.
  apply (returns_mono _ (λ d, ∀ i, i ∈ range n → map_get d i = f (m `div` n))).
  - apply (returns_foldM_prefix _ (λ done (d : gmap Z Z), ∀ i, i ∈ done → map_get d i = f (m `div` n))).
    { set_solver. }
    intros done i rest d _ HP. go_bind (eq (m `div` n)); [apply returns_udiv; [lia|done]|].
    intros ? <-. apply returns_done. intros i' Hi'. destruct (decide (i' = i)) as [->|].
    + apply map_get_insert.
    + rewrite map_get_insert_ne by done. apply HP. set_solver.
  - intros d Hd i Hi. by apply Hd, elem_of_range.
Qed.

(** The free slots and their round-robin backends. *)
Record filled (n : Z) (order base out' : list Z) : Prop := {
  filled_length : length out' = length base;
  filled_frame : ∀ k, 0 <= k → k ∉ order → out' !! Z.to_nat k = base !! Z.to_nat k;
  filled_order : ∀ t k, order !! t = Some k → out' !! Z.to_nat k = Some (Z.of_nat t `mod` n)
}.

Lemma rclt_fill_ok m n order base :
  0 < n < 2 ^ 32 → length base = Z.to_nat m →
  NoDup order → (∀ k, k ∈ order → 0 <= k < m) →
  returns (rclt_fill n order base) (filled n order base).
Proof.
  intros Hn Hlen Hnd Hr. unfold rclt_fill.
  go_bind (λ st : list Z * Z, filled n order base st.1); [|intros st Hst; by apply returns_done].
  eapply returns_mono; [apply (returns_foldM_prefix _ (λ done st, filled n done base st.1 ∧
    0 <= st.2 <= n ∧ st.2 `mod` n = Z.of_nat (length done) `mod` n))|by intros st [? _]].
  { split; [by split|simpl; lia]. }
  intros done k rest [o i] Ho (Hf & Hi & Him); simpl in *.
  rewrite (u32_small (n - 1)) by (unfold is_u32; lia).
  set (i' := if decide (i > n - 1) then 0 else i).
  assert (Hi' : i' = Z.of_nat (length done) `mod` n).
  { rewrite <-Him. unfold i'. case_decide.
    - assert (i = n) as -> by lia. by rewrite Z.mod_same by lia.
    - by rewrite Z.mod_small by lia. }
  pose proof (Z.mod_pos_bound (Z.of_nat (length done)) n ltac:(lia)) as Hb.
  assert (Hk : 0 <= k < m) by (apply Hr; rewrite Ho; set_solver).
  assert (Hkn : k ∉ done).
  { rewrite Ho in Hnd. apply NoDup_app in Hnd as (_ & Hd & _). intros Hin. eapply Hd; [done|set_solver]. }
  go_bind (eq (<[Z.to_nat k := i']> o)).
  { apply returns_slice_set; [|done]. rewrite (filled_length _ _ _ _ Hf). lia. }
  intros ? <-. rewrite u32_small by (unfold is_u32; lia). apply returns_done. simpl.
  split_and!; [|lia|lia|].
  - destruct Hf as [Hl Hfr Hor]. split.
    + by rewrite length_insert.
    + intros k' Hk' Hn'. rewrite list_lookup_insert_ne; [apply Hfr; [done|set_solver]|].
      intros Heq. assert (k' = k) by lia. set_solver.
    + intros t k' Ht. destruct (decide (t < length done)%nat) as [Hlt|Hge].
      * rewrite lookup_app_l in Ht by done. rewrite list_lookup_insert_ne; [by apply Hor|].
        assert (k' ∈ done) by by eapply list_elem_of_lookup_2.
        assert (0 <= k' < m) by (apply Hr; rewrite Ho; set_solver).
        intros Heq. assert (k' = k) by lia. set_solver.
      * rewrite lookup_app_r in Ht by lia. apply list_lookup_singleton_Some in Ht as [Ht <-].
        rewrite list_lookup_insert_eq by (rewrite Hl; lia). rewrite Hi'. do 3 f_equal. lia.
  - rewrite Hi', length_app. simpl. rewrite Zplus_mod_idemp_l. f_equal. lia.
Qed.

Lemma Permutation_refl' {A} (l1 l2 : list A) : l1 = l2 → l1 ≡ₚ l2.
Proof. by intros ->. Qed.

(** Up to order, the table is the claimed slots followed by the round robin. *)
Lemma filled_perm m n order base out' :
  length base = Z.to_nat m → NoDup order → (∀ k, k ∈ order → 0 <= k < m) →
  filled n order base out' →
  out' ≡ₚ ((λ t, Z.of_nat t `mod` n) <$> seq 0 (length order)) ++
          ((λ k, default 0 (base !! Z.to_nat k)) <$> filter (λ k, k ∉ order) (range m)).
Proof.
  intros Hlen Hnd Hr Hf. set (f := λ k, default 0 (out' !! Z.to_nat k)).
  assert (Hout : out' = f <$> range m).
  { apply list_eq. intros t. rewrite list_lookup_fmap. destruct (out' !! t) as [v|] eqn:Ht.
    - pose proof (lookup_lt_Some _ _ _ Ht) as Htl. rewrite (filled_length _ _ _ _ Hf), Hlen in Htl.
      unfold range. rewrite lookup_seqZ_lt by lia. simpl. unfold f.
      rewrite Z.add_0_l, Nat2Z.id, Ht. done.
    - apply lookup_ge_None in Ht. rewrite (filled_length _ _ _ _ Hf), Hlen in Ht.
      unfold range. by rewrite lookup_seqZ_ge by lia. }
  assert (Hperm : range m ≡ₚ order ++ filter (λ k, k ∉ order) (range m)).
  { apply NoDup_Permutation; [apply range_NoDup| |].
    - apply NoDup_app. split_and!; [done| |apply NoDup_filter, range_NoDup].
      intros k Hk Hk'%list_elem_of_filter. naive_solver.
    - intros k. rewrite elem_of_app, list_elem_of_filter, elem_of_range.
      destruct (decide (k ∈ order)); [|naive_solver]. specialize (Hr k). naive_solver. }
  rewrite Hout at 1. rewrite Hperm at 1. rewrite fmap_app. f_equiv.
  - apply Permutation_refl', list_eq. intros t. rewrite !list_lookup_fmap.
    destruct (order !! t) as [k|] eqn:Ht.
    + rewrite lookup_seq_lt by (by eapply lookup_lt_Some). simpl. unfold f.
      by rewrite (filled_order _ _ _ _ Hf _ _ Ht).
    + rewrite lookup_seq_ge by (by apply lookup_ge_None). done.
  - apply Permutation_refl', list_fmap_ext. intros t k Hk. simpl. unfold f.
    apply list_elem_of_lookup_2, list_elem_of_filter in Hk as [Hk Hkr%elem_of_range].
    by rewrite (filled_frame _ _ _ _ Hf) by (done || lia).
Qed.

(** ** The whole function *)

Section table.
Context (bs : list Backend) (m : Z).
Context (Hbs : Forall wf_backend bs) (Hn : 0 < Z.of_nat (length bs) < 2 ^ 32).
Context (Hm : 0 < m < 2 ^ 32).
Local Abbreviation n := (Z.of_nat (length bs)).

Lemma coord_wf i : 0 <= i < n → ∃ c, (Coordinates <$> bs) !! Z.to_nat i = Some c ∧ length c = 4%nat.
Proof.
  intros Hi. destruct (lookup_lt_is_Some_2 bs (Z.to_nat i)) as [b Hb]; [lia|].
  exists (coordinates b). rewrite list_lookup_fmap, Hb. split; [done|].
  rewrite Forall_forall in Hbs. by destruct (Hbs b) as [? _]; [eapply list_elem_of_lookup_2|].
Qed.

Lemma rclt_rounds_ok :
  returns (rclt_rounds bs m) (λ s, table_ok m n s ∧
    (n <= m → ∀ i, 0 <= i < n → homed m (Coordinates <$> bs) i s)).
Proof.
  unfold rclt_rounds. rewrite u32_small by (unfold is_u32; lia). simpl.
  eapply returns_bind; [apply (quotas_init m n (λ q, q)); lia|]. intros d Hd. cbv beta in Hd.
  eapply returns_bind; [|intros st Hst; apply returns_done; exact Hst].
  set (s0 := {| out := _; unset := _; distribution := _ |}).
  assert (Hok : table_ok m n s0).
  { split; simpl.
    - apply length_replicate.
    - apply Forall_replicate. lia.
    - intros k. rewrite elem_of_list_to_set, elem_of_range. lia. }
  destruct (decide (n <= m)) as [Hle|Hgt].
  - eapply returns_mono.
    + apply (rclt_loop_ok m n _ ltac:(lia) ltac:(lia) coord_wf s0
        (λ s, ∀ i, 0 <= i < n → homed m (Coordinates <$> bs) i s)); [done| |].
      * apply rclt_round_home; [lia|lia|apply coord_wf|lia|done| |].
        -- intros i Hi. simpl. rewrite Hd by done.
           rewrite <-(Z.div_same n) by lia. apply Z.div_le_mono; lia.
        -- intros k Hk. simpl. by apply elem_of_list_to_set, elem_of_range.
      * intros s1 s2 H1 H2 i Hi. eapply homed_claims; [lia|by apply H1|done].
    + naive_solver.
  - eapply returns_mono.
    + apply (rclt_loop_ok m n _ ltac:(lia) ltac:(lia) coord_wf s0 (λ _, True)); [done| |done].
      eapply returns_mono; [apply rclt_round_ok; [lia|lia|apply coord_wf|lia|done]|done].
    + intros st [? _]. split; [done|lia].
Qed.

(** What a run of the function is, for a valid iteration order. *)
Lemma rclt_run iter :
  map_iteration iter →
  ∃ s, rclt_rounds bs m = Done s ∧ table_ok m n s ∧
    (n <= m → ∀ i, 0 <= i < n → homed m (Coordinates <$> bs) i s) ∧
    NoDup (iter (unset s)) ∧ (∀ k, k ∈ iter (unset s) ↔ k ∈ unset s) ∧
    returns (ReverseCoordinatesLookupTable iter bs m) (filled n (iter (unset s)) (out s)).
Proof.
  intros Hiter. destruct rclt_rounds_ok as (s & Hs & Hok & Hhome).
  assert (Hel : ∀ k, k ∈ iter (unset s) ↔ k ∈ unset s).
  { intros k. rewrite (Hiter (unset s)). apply elem_of_elements. }
  assert (Hnd : NoDup (iter (unset s))) by (rewrite (Hiter (unset s)); apply NoDup_elements).
  exists s. split_and!; [done..|]. unfold ReverseCoordinatesLookupTable. rewrite Hs. simpl.
  rewrite u32_small by (unfold is_u32; lia).
  apply (rclt_fill_ok m); [lia|by destruct Hok|done|].
  intros k Hk%Hel. by eapply ok_unset.
Qed.
End table.

Lemma filled_entries m n order base out' :
  0 < n → length base = Z.to_nat m → Forall (λ v, 0 <= v < n) base →
  (∀ k, k ∈ order → 0 <= k < m) → filled n order base out' →
  Forall (λ v, 0 <= v < n) out'.
Proof.
  intros Hn Hlen Hb Hr Hf. apply Forall_forall. intros v Hv.
  apply list_elem_of_lookup in Hv as [t Ht].
  destruct (decide (Z.of_nat t ∈ order)) as [Hin|Hnin].
  - apply list_elem_of_lookup in Hin as [u Hu]. apply (filled_order _ _ _ _ Hf) in Hu.
    rewrite Nat2Z.id, Ht in Hu. injection Hu as ->. apply Z.mod_pos_bound. lia.
  - pose proof (filled_frame _ _ _ _ Hf (Z.of_nat t) ltac:(lia) Hnin) as Hfr.
    rewrite Nat2Z.id, Ht in Hfr. symmetry in Hfr. rewrite Forall_forall in Hb.
    by eapply Hb, list_elem_of_lookup_2.
Qed.

(** The backends of the repository's own unit test (makeBackends in
    rlt_unit_test.go): identifier bytes 0..3 hold the index. *)
Definition test_spec : BackendSpec :=
  {| IP := []; Port := 0; MacAddr := []; SpecState := StateUnknown |}.
Definition test_coordinates (i : Z) : list Z := [i * 2 ^ 24; 2 ^ 22; 128; 0].
Definition test_uuid (i : Z) : uuid := [0; 0; 0; i; 0; 0; 64; 0; 128; 0; 0; 0; 0; 0; 0; 0].
Definition test_backend (i : Z) : Backend :=
  {| Id := test_uuid i; Spec := test_spec; Status := {| StatusState := StateUnknown |};
     coordinates := test_coordinates i |}.

Example test_backend_new i :
  0 <= i < 256 →
  NewBackend LittleEndian (test_uuid i) test_spec {| StatusState := StateUnknown |} =
    Done (test_backend i).
Proof.
  intros Hi. unfold NewBackend, test_backend, test_coordinates, test_uuid. simpl.
  repeat f_equal; lia.
Qed.

Lemma elements_iteration : map_iteration elements.
Proof. by intros s. Qed.
Lemma reverse_iteration : map_iteration (λ s, reverse (elements s)).
Proof. intros s. apply reverse_Permutation. Qed.
Lemma test_backends_wf n : 0 <= n <= 256 → Forall wf_backend (test_backend <$> range n).
Proof.
  intros Hn. apply Forall_fmap, Forall_forall. intros i Hi%elem_of_range. split; [done|].
  unfold is_u32. repeat constructor; simpl; lia.
Qed.

(** The table is total and its entries are backend indices. *)
Lemma reverse_table_ok iter bs m :
  map_iteration iter → Forall wf_backend bs → 0 < Z.of_nat (length bs) < 2 ^ 32 →
  0 < m < 2 ^ 32 →
  returns (ReverseCoordinatesLookupTable iter bs m) (λ t,
    length t = Z.to_nat m ∧ Forall (λ v, 0 <= v < Z.of_nat (length bs)) t).
Proof.
  intros Hiter Hbs Hn Hm.
  destruct (rclt_run bs m Hbs Hn Hm iter Hiter) as (s & _ & Hok & _ & Hnd & Hel & Hret).
  eapply returns_mono; [exact Hret|]. intros t Hf. destruct Hok as [Hl He Hu].
  split; [by rewrite (filled_length _ _ _ _ Hf)|].
  eapply filled_entries; [lia|done|done| |done]. intros k Hk%Hel. by apply Hu.
Qed.

(** C13: for every non-empty list of well-formed backends, every table size and
    every order the runtime may iterate the map of free slots in,
    [ReverseCoordinatesLookupTable] terminates without a panic and returns a
    table of exactly [m] entries, each the index of a backend of the list. *)
Theorem reverse_table_wellformed iter bs m :
  map_iteration iter → Forall wf_backend bs → 0 < Z.of_nat (length bs) < 2 ^ 32 →
  0 < m < 2 ^ 32 →
  returns (ReverseCoordinatesLookupTable iter bs m) (λ t,
    length t = Z.to_nat m ∧ Forall (λ v, 0 <= v < Z.of_nat (length bs)) t).
Proof. apply reverse_table_ok. Qed.

Lemma reverse_table_wellformed_witness :
  returns (ReverseCoordinatesLookupTable elements (test_backend <$> range 3) 13) (λ t,
    length t = Z.to_nat 13 ∧
    Forall (λ v, 0 <= v < Z.of_nat (length (test_backend <$> range 3))) t).
Proof.
  apply (reverse_table_wellformed elements (test_backend <$> range 3) 13).
  - apply elements_iteration.
  - apply test_backends_wf. lia.
  - simpl. lia.
  - lia.
Defined.

(** C35: two runs on the same backends that differ only in the map iteration
    order agree on every slot the prime rounds claimed, and give every backend
    the same number of slots (the tables are permutations of each other). *)
Theorem reverse_table_orders_agree iter1 iter2 bs m :
  map_iteration iter1 → map_iteration iter2 → Forall wf_backend bs →
  0 < Z.of_nat (length bs) < 2 ^ 32 → 0 < m < 2 ^ 32 →
  ∃ s t1 t2, rclt_rounds bs m = Done s ∧
    ReverseCoordinatesLookupTable iter1 bs m = Done t1 ∧
    ReverseCoordinatesLookupTable iter2 bs m = Done t2 ∧
    (∀ k, 0 <= k → k ∉ unset s → t1 !! Z.to_nat k = t2 !! Z.to_nat k) ∧
    t1 ≡ₚ t2.
Proof.
  intros Hi1 Hi2 Hbs Hn Hm.
  destruct (rclt_run bs m Hbs Hn Hm iter1 Hi1) as (s & Hs & Hok & _ & Hnd1 & Hel1 & (t1 & Ht1 & Hf1)).
  destruct (rclt_run bs m Hbs Hn Hm iter2 Hi2) as (s' & Hs' & _ & _ & Hnd2 & Hel2 & (t2 & Ht2 & Hf2)).
  rewrite Hs in Hs'. injection Hs' as <-. destruct Hok as [Hl He Hu].
  exists s, t1, t2. split_and!; [done..| |].
  - intros k Hk Hkn. rewrite (filled_frame _ _ _ _ Hf1), (filled_frame _ _ _ _ Hf2);
      rewrite ?Hel1, ?Hel2; done.
  - rewrite (filled_perm m _ _ _ _ Hl Hnd1 ltac:(intros k Hk%Hel1; by apply Hu) Hf1).
    rewrite (filled_perm m _ _ _ _ Hl Hnd2 ltac:(intros k Hk%Hel2; by apply Hu) Hf2).
    assert (Hlen : length (iter1 (unset s)) = length (iter2 (unset s))) by by rewrite (Hi1 (unset s)), (Hi2 (unset s)).
    rewrite Hlen. f_equiv. apply Permutation_refl'. f_equal.
    apply list_filter_iff. intros k. by rewrite Hel1, Hel2.
Qed.

Lemma reverse_table_orders_agree_witness :
  ∃ s t1 t2, rclt_rounds (test_backend <$> range 3) 7 = Done s ∧
    ReverseCoordinatesLookupTable elements (test_backend <$> range 3) 7 = Done t1 ∧
    ReverseCoordinatesLookupTable (λ s, reverse (elements s)) (test_backend <$> range 3) 7 = Done t2 ∧
    (∀ k, 0 <= k → k ∉ unset s → t1 !! Z.to_nat k = t2 !! Z.to_nat k) ∧ t1 ≡ₚ t2.
Proof.
  apply (reverse_table_orders_agree elements (λ s, reverse (elements s))
           (test_backend <$> range 3) 7).
  - apply elements_iteration.
  - apply reverse_iteration.
  - apply test_backends_wf. lia.
  - simpl. lia.
  - lia.
Defined.

(** When there are at least as many slots as backends, the home slot of a
    backend (its first coordinate modulo the table size) belongs to that
    backend or to one before it in the list; the first backend always keeps
    its home slot. *)
Theorem reverse_table_home_slot iter bs m i b :
  map_iteration iter → Forall wf_backend bs →
  0 < Z.of_nat (length bs) <= m → m < 2 ^ 32 → bs !! i = Some b →
  returns (ReverseCoordinatesLookupTable iter bs m) (λ t,
    ∃ v, t !! Z.to_nat (home_slot m b) = Some v ∧ 0 <= v <= Z.of_nat i).
Proof.
  intros Hiter Hbs Hn Hm Hb.
  destruct (rclt_run bs m Hbs ltac:(lia) ltac:(lia) iter Hiter) as (s & _ & Hok & Hhome & Hnd & Hel & Hret).
  eapply returns_mono; [exact Hret|]. intros t Hf. destruct Hok as [Hl He Hu].
  pose proof (lookup_lt_Some _ _ _ Hb) as Hi.
  assert (Hc : (Coordinates <$> bs) !! Z.to_nat (Z.of_nat i) = Some (coordinates b)).
  { by rewrite Nat2Z.id, list_lookup_fmap, Hb. }
  destruct (lookup_lt_is_Some_2 (coordinates b) 0%nat) as [c0 Hc0].
  { rewrite Forall_forall in Hbs. destruct (Hbs b) as [Hl4 _]; [by eapply list_elem_of_lookup_2|]. lia. }
  destruct (Hhome ltac:(lia) (Z.of_nat i) ltac:(lia) _ _ Hc Hc0) as (Hnu & v & Hv & Hle).
  unfold home_slot. rewrite Hc0. simpl. exists v.
  pose proof (Z.mod_pos_bound c0 m ltac:(lia)). split.
  - rewrite (filled_frame _ _ _ _ Hf); [done|lia|]. by rewrite Hel.
  - split; [|done]. rewrite Forall_forall in He.
    by apply (He v); eapply list_elem_of_lookup_2.
Qed.

Lemma reverse_table_home_slot_witness :
  returns (ReverseCoordinatesLookupTable elements (test_backend <$> range 3) 7) (λ t,
    ∃ v, t !! Z.to_nat (home_slot 7 (test_backend 2)) = Some v ∧ 0 <= v <= Z.of_nat 2).
Proof.
  apply (reverse_table_home_slot elements (test_backend <$> range 3) 7 2).
  - apply elements_iteration.
  - apply test_backends_wf. lia.
  - simpl. lia.
  - lia.
  - reflexivity.
Defined.

(** The table is not a function of the backend list: on the three backends
    of the unit test and a table of seven slots, two iteration orders of the
    map of free slots give different tables, so two nodes (or two runs) with
    the same backends can route the same session differently. *)
Theorem reverse_table_order_dependent :
  ∃ iter1 iter2 t1 t2, map_iteration iter1 ∧ map_iteration iter2 ∧
    ReverseCoordinatesLookupTable iter1 (test_backend <$> range 3) 7 = Done t1 ∧
    ReverseCoordinatesLookupTable iter2 (test_backend <$> range 3) 7 = Done t2 ∧
    t1 ≠ t2.
Proof.
  exists elements, (λ s, reverse (elements s)), [0; 1; 0; 2; 1; 0; 1], [0; 1; 0; 2; 1; 1; 0].
  split_and!; [apply elements_iteration|apply reverse_iteration|by vm_compute..|done].
Qed.

(** The quotas do not bound a backend's share: on the unit test's three
    backends and a table of thirteen slots (quota [13 / 3 = 4]) backend 0 gets
    nine slots, because the quota is only tested once per coordinate and its
    [uint32] counter wraps below zero. *)
Theorem reverse_table_uneven :
  ∃ t, ReverseCoordinatesLookupTable elements (test_backend <$> range 3) 13 = Done t ∧
    length (filter (λ v, v = 0) t) = 9%nat ∧ length (filter (λ v, v = 1) t) = 2%nat.
Proof. eexists. by split_and!; vm_compute. Qed.
