(* ===== verification/RltTables.v ===== *)
(** * RltTables: SimpleLookupTable, NaiveFibLookupTable and the two robust tables

    [SimpleLookupTable] is exactly the round robin and is balanced;
    [NaiveFibLookupTable] computes the same table, whatever the Fibonacci
    list; the robust tables terminate and are well formed when there are at
    least as many slots as backends, and loop forever otherwise. *)
From S2P Require Import Prelude Types Rlt RltReverse.

(** The round-robin table, and the number of its slots held by backend [b]. *)
Definition round_robin (n m : Z) : list Z := (λ i, i `mod` n) <$> range m.
Definition slots (n m b : Z) : Z := m `div` n + (if decide (b < m `mod` n) then 1 else 0).

(** ** Writing a slice left to right *)

Lemma range_snoc i : 0 <= i → range (i + 1) = range i ++ [i].
Proof. intros. unfold range. rewrite seqZ_app by lia. done. Qed.
Lemma range_fmap_snoc {A} (g : Z → A) i : 0 <= i → g <$> range (i + 1) = (g <$> range i) ++ [g i].
Proof. intros. by rewrite range_snoc, fmap_app by done. Qed.

(** The slice after its first [i] entries were written with [g]. *)
Definition written (g : Z → Z) (m i : Z) : list Z := (g <$> range i) ++ replicate (Z.to_nat (m - i)) 0.

Lemma written_length g m i : 0 <= i <= m → length (written g m i) = Z.to_nat m.
Proof. intros. unfold written. rewrite length_app, length_fmap, range_length, length_replicate. lia. Qed.
Lemma written_step g m i : 0 <= i < m → <[Z.to_nat i := g i]> (written g m i) = written g m (i + 1).
Proof.
  intros Hi. unfold written. rewrite range_fmap_snoc by lia.
  replace (Z.to_nat (m - i)) with (S (Z.to_nat (m - (i + 1)))) by lia. simpl.
  rewrite insert_app_r_alt by (rewrite length_fmap, range_length; lia).
  rewrite length_fmap, range_length, Nat.sub_diag. simpl. by rewrite <-app_assoc.
Qed.
Lemma written_all g m : 0 <= m → written g m m = g <$> range m.
Proof. intros. unfold written. rewrite Z.sub_diag. simpl. apply app_nil_r. Qed.
Lemma returns_write g m i v (Q : list Z → Prop) :
  0 <= i < m → v = g i → Q (written g m (i + 1)) → returns (slice_set (written g m i) i v) Q.
Proof.
  intros Hi -> HQ. apply returns_slice_set; [rewrite written_length; lia|]. by rewrite written_step.
Qed.

(** ** Division by the number of backends *)

Section slots.
Context (n : Z) (Hn : 0 < n).

Lemma div_mod_succ m :
  (m `mod` n + 1 < n ∧ (m + 1) `div` n = m `div` n ∧ (m + 1) `mod` n = m `mod` n + 1) ∨
  (m `mod` n = n - 1 ∧ (m + 1) `div` n = m `div` n + 1 ∧ (m + 1) `mod` n = 0).
Proof.
  pose proof (Z.div_mod m n ltac:(lia)) as Hdm. pose proof (Z.mod_pos_bound m n Hn).
  destruct (decide (m `mod` n + 1 < n)).
  - left. split_and!; [done|symmetry; apply (Z.div_unique_pos _ _ _ (m `mod` n + 1)); lia|].
    symmetry. apply (Z.mod_unique_pos _ _ (m `div` n)); lia.
  - right. split_and!; [lia|symmetry; apply (Z.div_unique_pos _ _ _ 0); lia|].
    symmetry. apply (Z.mod_unique_pos _ _ (m `div` n + 1)); lia.
Qed.

Lemma slots_succ m b :
  0 <= b < n → slots n (m + 1) b = slots n m b + (if decide (m `mod` n = b) then 1 else 0).
Proof.
  intros Hb. unfold slots. pose proof (Z.mod_pos_bound m n Hn).
  destruct (div_mod_succ m) as [(?&->&->)|(?&->&->)]; repeat case_decide; lia.
Qed.
Lemma slots_0 b : 0 <= b < n → slots n 0 b = 0.
Proof. intros. unfold slots. rewrite Z.div_0_l, Z.mod_0_l by lia. case_decide; lia. Qed.
Lemma slots_mono m m' b : 0 <= b < n → m <= m' → slots n m b <= slots n m' b.
Proof.
  intros Hb Hle. replace m' with (m + Z.of_nat (Z.to_nat (m' - m))) by lia.
  generalize (Z.to_nat (m' - m)). induction n0 as [|k IH]; [by rewrite Z.add_0_r|].
  replace (m + Z.of_nat (S k)) with (m + Z.of_nat k + 1) by lia.
  rewrite slots_succ by done. case_decide; lia.
Qed.
(** The backend whose turn it is has had [m / n] slots. *)
Lemma slots_turn m : slots n m (m `mod` n) = m `div` n.
Proof. unfold slots. rewrite decide_False by lia. lia. Qed.

Lemma round_robin_count m b :
  0 <= m → 0 <= b < n →
  Z.of_nat (length (filter (λ v, v = b) (round_robin n m))) = slots n m b.
Proof.
  intros Hm Hb. unfold round_robin. revert m Hm. apply natlike_ind; [by rewrite slots_0|].
  intros m Hm IH. unfold Z.succ. rewrite range_fmap_snoc, slots_succ, <-IH by done.
  rewrite filter_app, length_app, filter_cons, filter_nil.
  repeat case_decide; simpl; lia.
Qed.
End slots.

(** ** SimpleLookupTable *)

Lemma simple_table_run bs m :
  0 < Z.of_nat (length bs) < 2 ^ 32 → 0 <= m →
  SimpleLookupTable bs m = Done (round_robin (Z.of_nat (length bs)) m).
Proof.
  intros Hn Hm. unfold SimpleLookupTable, round_robin. rewrite u32_small by (unfold is_u32; lia).
  set (n := Z.of_nat (length bs)) in *.
  enough (returns (foldM (λ out i, v ← umod i n; slice_set out i v) (range m)
      (replicate (Z.to_nat m) 0)) (eq (written (λ i, i `mod` n) m m))) as (t & -> & <-).
  { by rewrite written_all. }
  apply (returns_foldM_range _ (λ i o, written (λ i, i `mod` n) m i = o)); [done| |].
  - unfold written. by rewrite Z.sub_0_r.
  - intros i o Hi <-. go_bind (eq (i `mod` n)); [apply returns_umod; [lia|done]|]. intros ? <-.
    by apply (returns_write (λ i, i `mod` n)).
Qed.

(** ** NaiveFibLookupTable *)

Section naive.
Context (n m : Z) (Hn : 0 < n < 2 ^ 32) (Hm : 0 <= m < max_u32).

(** The state before entry [i]: the Fibonacci index never leaves 0. *)
Record naive_at (i : Z) (s : naive) : Prop := {
  na_out : nout s = written (λ t, t `mod` n) m i;
  na_j : jdx s = 0;
  na_k : kdx s = 0;
  na_cur : currentEntry s = i `mod` n;
  na_dist : ∀ c, 0 <= c < n → map_get (ndist s) c = m `div` n + 1 - slots n i c;
  na_ban : ∀ c, c ∈ banList s → 0 <= c < n ∧ map_get (ndist s) c = 0
}.

Lemma naive_goto_ok i s :
  0 <= i < m → jdx s = 0 → currentEntry s = i `mod` n → (0 ∈ banList s → (i + 1) `mod` n ≠ 0) →
  naive_goto n s = Done {| nout := nout s; jdx := 0; kdx := 0; currentEntry := (i + 1) `mod` n;
                           nbanned := nbanned s; banList := banList s; ndist := ndist s |}.
Proof.
  intros Hi Hj Hc Hb. unfold naive_goto. simpl. unfold naive_nextentry. rewrite Hj, Hc.
  pose proof (Z.mod_pos_bound i n ltac:(lia)).
  rewrite (u32_small (i `mod` n + 1)) by (unfold is_u32; lia).
  destruct (div_mod_succ n ltac:(lia) i) as [(?&_&->)|(?&_&H0)].
  - by rewrite decide_True by lia.
  - rewrite decide_False by lia. rewrite bool_decide_eq_false_2; [by rewrite H0|].
    intros Hin. by apply Hb in Hin.
Qed.

Lemma naive_step_ok i s : 0 <= i < m → naive_at i s → returns (naive_step n s i) (naive_at (i + 1)).
Proof.
  intros Hi [Ho Hj Hk Hc Hd Hb]. unfold naive_step. rewrite Ho, Hc.
  go_bind (eq (written (λ t, t `mod` n) m (i + 1))); [by apply (returns_write (λ t, t `mod` n))|].
  intros ? <-. cbv zeta. rewrite map_get_insert.
  pose proof (Z.mod_pos_bound i n ltac:(lia)) as Hmod. rewrite Hd, slots_turn by lia.
  assert (Hdiv : 0 <= i `div` n <= m `div` n /\ m `div` n <= m).
  { split_and!; [apply Z.div_pos; lia|apply Z.div_le_mono; lia|apply Z.div_le_upper_bound; nia]. }
  unfold max_u32 in Hm. rewrite u32_small by (unfold is_u32; lia).
  set (d' := <[_ := _]> (ndist s)).
  assert (Hd' : ∀ c, 0 <= c < n → map_get d' c = m `div` n + 1 - slots n (i + 1) c).
  { intros c Hcn. rewrite slots_succ by lia. unfold d'. case_decide as Hic.
    - subst c. rewrite map_get_insert, slots_turn; lia.
    - rewrite map_get_insert_ne, Hd by done. lia. }
  assert (Hban : ∀ X : gset Z, (∀ c, c ∈ X → 0 <= c < n ∧ map_get d' c = 0) → 0 ∈ X → (i + 1) `mod` n ≠ 0).
  { intros X HX H0 Hz. destruct (HX 0 H0) as [_ Hz']. rewrite Hd' in Hz' by lia.
    rewrite <-Hz, slots_turn in Hz'. pose proof (Z.div_le_mono (i + 1) m n ltac:(lia) ltac:(lia)). lia. }
  assert (Hb' : ∀ c, c ∈ banList s → c ≠ i `mod` n → 0 <= c < n ∧ map_get d' c = 0).
  { intros c Hcb Hne. unfold d'. rewrite map_get_insert_ne by done. by apply Hb. }
  assert (Hself : i `mod` n ∉ banList s).
  { intros Hin%Hb. rewrite Hd, slots_turn in Hin by lia. lia. }
  case_decide as Hz.
  - assert (HX : ∀ c, c ∈ ({[i `mod` n]} ∪ banList s : gset Z) → 0 <= c < n ∧ map_get d' c = 0).
    { intros c [->%elem_of_singleton|Hcb]%elem_of_union.
      - split; [done|]. unfold d'. rewrite map_get_insert. lia.
      - apply Hb'; [done|]. by intros ->. }
    rewrite (naive_goto_ok i); [|done..|by apply Hban].
    apply returns_done. by split.
  - rewrite Hj. change (slice_get fib 0) with (Done 1 : go Z). simpl. rewrite Hk.
    change (u32 (0 + 1)) with 1. rewrite decide_False by lia.
    assert (HX : ∀ c, c ∈ banList s → 0 <= c < n ∧ map_get d' c = 0).
    { intros c Hcb. apply Hb'; [done|]. by intros ->. }
    rewrite (naive_goto_ok i); [|done..|by apply Hban].
    apply returns_done. by split.
Qed.
End naive.

Lemma naive_table_run bs m :
  0 < Z.of_nat (length bs) < 2 ^ 32 → 0 <= m < max_u32 →
  NaiveFibLookupTable bs m = Done (round_robin (Z.of_nat (length bs)) m).
Proof.
  intros Hn Hm. unfold NaiveFibLookupTable. rewrite u32_small by (unfold is_u32; lia). cbv zeta.
  set (n := Z.of_nat (length bs)) in *.
  destruct (quotas_init m n (λ q, u32 (q + 1)) ltac:(lia)) as (d & -> & Hd).
  enough (returns (foldM (naive_step n) (range m)
    {| nout := replicate (Z.to_nat m) 0; jdx := 0; kdx := 0; currentEntry := 0;
       nbanned := 0; banList := ∅; ndist := d |}) (naive_at n m m)) as (s & Hs & Hat).
  { simpl in Hs |- *. rewrite Hs. simpl. by rewrite (na_out _ _ _ _ Hat), written_all by lia. }
  apply returns_foldM_range; [lia| |intros; by apply naive_step_ok].
  split; simpl; try done.
  - unfold written. by rewrite Z.sub_0_r.
  - intros c Hc. rewrite Hd, slots_0 by lia. unfold max_u32 in Hm.
    rewrite u32_small; [lia|]. unfold is_u32.
    assert (m `div` n <= m) by (apply Z.div_le_upper_bound; nia).
    pose proof (Z.div_pos m n ltac:(lia) ltac:(lia)). lia.
Qed.

(** ** The robust tables *)

(** What is left of all quotas together. *)
Definition remaining (l : list Z) (q : gmap Z Z) : Z := foldr Z.add 0 (map_get q <$> l).

Lemma remaining_cons x l q : remaining (x :: l) q = map_get q x + remaining l q.
Proof. done. Qed.
Lemma remaining_ext l q q' :
  (∀ j, j ∈ l → map_get q j = map_get q' j) → remaining l q = remaining l q'.
Proof.
  induction l as [|x l IH]; intros Hq; [done|].
  rewrite !remaining_cons, Hq by set_solver. f_equal. apply IH. set_solver.
Qed.
Lemma remaining_update l q j v :
  NoDup l → j ∈ l → remaining l (<[j := v]> q) = remaining l q - map_get q j + v.
Proof.
  induction 1 as [|x l Hx Hnd IH]; [set_solver|]. rewrite !remaining_cons.
  intros [->|Hj]%elem_of_cons.
  - rewrite map_get_insert, (remaining_ext l (<[x := v]> q) q); [lia|].
    intros j Hj. apply map_get_insert_ne. by intros ->.
  - rewrite IH by done. rewrite map_get_insert_ne by (by intros ->). lia.
Qed.
Lemma remaining_nonneg l q : (∀ j, j ∈ l → 0 <= map_get q j) → 0 <= remaining l q.
Proof.
  induction l as [|x l IH]; intros Hq; [done|]. rewrite remaining_cons.
  pose proof (Hq x ltac:(set_solver)). assert (0 <= remaining l q); [|lia].
  apply IH. set_solver.
Qed.
Lemma remaining_le l q j :
  (∀ j, j ∈ l → 0 <= map_get q j) → NoDup l → j ∈ l → map_get q j <= remaining l q.
Proof.
  intros Hq Hnd Hj. pose proof (remaining_update l q j 0 Hnd Hj) as Hu.
  assert (0 <= remaining l (<[j := 0]> q)); [|lia]. apply remaining_nonneg. intros j' Hj'.
  destruct (decide (j' = j)) as [->|]; [by rewrite map_get_insert|].
  rewrite map_get_insert_ne by done. by apply Hq.
Qed.
Lemma remaining_const l q c :
  (∀ j, j ∈ l → map_get q j = c) → remaining l q = Z.of_nat (length l) * c.
Proof.
  induction l as [|x l IH]; intros Hq; [done|].
  rewrite remaining_cons, Hq, IH by set_solver. simpl length. lia.
Qed.

Section robust.
Context (n m : Z) (Hn : 0 < n) (Hnm : n <= m) (Hm : m < 2 ^ 32).

(** Slots and quotas balance: what is filled and what may still be filled
    never exceed the table. *)
Record robust_ok (s : robust) : Prop := {
  ro_lup : ∀ k v, lup s !! k = Some v → 0 <= k < m ∧ 0 <= v < n;
  ro_last : length (lastIdx s) = Z.to_nat n ∧ Forall (λ x, 0 <= x < m) (lastIdx s);
  ro_quota : ∀ j, 0 <= j < n → is_u32 (map_get (quota s) j);
  ro_banned : ∀ j, j ∈ banned s → 0 <= j < n;
  ro_balance : Z.of_nat (size (lup s)) + remaining (range n) (quota s) <= m
}.

(** Probing finds a free slot as soon as there is one. *)
Lemma robust_probe_ok fuel (l : gmap Z Z) e start :
  (Z.to_nat m < fuel)%nat → 0 <= e < m → l !! e = None → 0 <= start <= m →
  returns (robust_probe fuel m l start) (λ k, 0 <= k < m ∧ l !! k = None).
Proof.
  intros Hf He Hle Hs. unfold robust_probe.
  apply (returns_loopM _ (λ k, 0 <= k <= m) _ (λ k, Z.to_nat ((e - k) `mod` m))); [|done|].
  { pose proof (Z.mod_pos_bound (e - start) m ltac:(lia)). lia. }
  intros k Hk. cbv zeta. rewrite (u32_small (m - 1)) by (unfold is_u32; lia).
  set (k' := if decide (k > m - 1) then 0 else k).
  assert (Hk' : 0 <= k' < m ∧ (e - k) `mod` m = (e - k') `mod` m).
  { unfold k'. case_decide; [|split; [lia|done]]. assert (k = m) as -> by lia.
    split; [lia|]. rewrite Z.sub_0_r, <-(Z_mod_plus_full (e - m) 1 m). f_equal. lia. }
  destruct Hk' as [Hk' ->]. destruct (l !! k') as [v|] eqn:Hlk; apply returns_done; [|done].
  rewrite u32_small by (unfold is_u32; lia). split; [lia|].
  assert (Hne : e ≠ k') by congruence.
  destruct (decide (k' < e)).
  - rewrite !Z.mod_small by lia. lia.
  - replace (e - (k' + 1)) with (e - (k' + 1) + m + (-1) * m) by lia.
    replace (e - k') with (e - k' + m + (-1) * m) by lia.
    rewrite !Z_mod_plus_full, !Z.mod_small by lia. lia.
Qed.

Lemma robust_take_ok fuel j s :
  (Z.to_nat m < fuel)%nat → 0 <= j < n → robust_ok s → 1 <= map_get (quota s) j →
  returns (robust_take fuel m j s) (λ s', robust_ok s' ∧ banned s' = banned s ∧
    remaining (range n) (quota s') = remaining (range n) (quota s) - 1).
Proof.
  intros Hf Hj [Hl [Hlen Hlast] Hq Hb Hbal] Hqj. unfold robust_take.
  assert (Hjr : j ∈ range n) by (by apply elem_of_range).
  pose proof (remaining_le (range n) (quota s) j
    ltac:(intros j' ?%elem_of_range; by apply Hq) (range_NoDup n) Hjr) as Hrem.
  destruct (index_set_free m (dom (lup s))) as (e & He & Hfree).
  { rewrite size_dom. lia. }
  apply not_elem_of_dom in Hfree.
  destruct (lookup_lt_is_Some_2 (lastIdx s) (Z.to_nat j)) as [x Hx]; [lia|].
  assert (Hxr : 0 <= x < m) by (rewrite Forall_forall in Hlast; by eapply Hlast, list_elem_of_lookup_2).
  go_bind (eq x); [apply returns_slice_get; [eauto|lia]|]. intros ? <-.
  rewrite (u32_small (x + 1)) by (unfold is_u32; lia).
  eapply returns_bind; [apply (robust_probe_ok fuel (lup s) e); [done..|lia]|].
  intros k [Hk Hkn]. go_bind (eq (<[Z.to_nat j := k]> (lastIdx s))); [apply returns_slice_set; [lia|done]|].
  intros ? <-. pose proof (Hq j Hj) as Hqju.
  rewrite (u32_small (map_get (quota s) j - 1)) by (unfold is_u32 in *; lia).
  assert (Hr : remaining (range n) (<[j := map_get (quota s) j - 1]> (quota s)) =
    remaining (range n) (quota s) - 1).
  { rewrite remaining_update by (done || apply range_NoDup). lia. }
  apply returns_done. split_and!; [|done|done]. split; simpl.
  - intros k' v [[-> ->]|[_ ?]]%lookup_insert_Some; [done|by apply Hl].
  - split; [by rewrite length_insert|by apply Forall_insert].
  - intros j' Hj'. destruct (decide (j' = j)) as [->|].
    + rewrite map_get_insert. specialize (Hq j Hj). unfold is_u32 in *. lia.
    + rewrite map_get_insert_ne by done. by apply Hq.
  - done.
  - rewrite map_size_insert_None by done. lia.
Qed.

Lemma robust_ban_ok j s : 0 <= j < n → robust_ok s → robust_ok (robust_ban j s).
Proof.
  intros Hj [Hl Hlast Hq Hb Hbal]. split; simpl; [done..| |done].
  intros j' [->%elem_of_singleton|?]%elem_of_union; [done|by apply Hb].
Qed.

(** *** Initialisation *)

Lemma robust_init_ok bs :
  Forall wf_backend bs → n = Z.of_nat (length bs) →
  returns (robust_init bs m n) (λ s, robust_ok s ∧ banned s = ∅).
Proof.
  intros Hbs Hlen. unfold robust_init.
  eapply returns_bind; [apply (quotas_init m n (λ q, q)); lia|]. intros q Hq. cbv beta in Hq.
  assert (Hdiv : 1 <= m `div` n <= m).
  { split; [rewrite <-(Z.div_same n) by lia; apply Z.div_le_mono; lia|].
    apply Z.div_le_upper_bound; nia. }
  eapply returns_mono; [apply (returns_foldM_range _ (λ i s, robust_ok s ∧ banned s = ∅ ∧
    ∀ j, i <= j < n → map_get (quota s) j = m `div` n))|naive_solver].
  - lia.
  - split_and!; [|done|simpl; naive_solver]. split; simpl.
    + intros k v. by rewrite lookup_empty.
    + split; [apply length_replicate|]. apply Forall_replicate. lia.
    + intros j Hj. rewrite Hq by done. unfold is_u32. lia.
    + set_solver.
    + rewrite map_size_empty, (remaining_const _ _ (m `div` n)), range_length.
      * pose proof (Z.mul_div_le m n ltac:(lia)). lia.
      * intros j Hj%elem_of_range. by apply Hq.
  - intros i s Hi ([Hl [Hlenl Hlast] Hqs Hb Hbal] & Hban & Hfresh).
    destruct (lookup_lt_is_Some_2 bs (Z.to_nat i)) as [b Hbl]; [lia|].
    go_bind (eq b); [apply returns_slice_get; [eauto|lia]|]. intros ? <-.
    destruct (lookup_lt_is_Some_2 (Coordinates b) 0%nat) as [c0 Hc0].
    { rewrite Forall_forall in Hbs. destruct (Hbs b) as [Hl4 _]; [by eapply list_elem_of_lookup_2|].
      unfold Coordinates. lia. }
    go_bind (eq c0); [apply returns_slice_get; [eauto|lia]|]. intros ? <-.
    go_bind (eq (c0 `mod` m)); [apply returns_umod; [lia|done]|]. intros ? <-.
    go_bind (eq (<[Z.to_nat i := c0 `mod` m]> (lastIdx s))); [apply returns_slice_set; [lia|done]|].
    intros ? <-. pose proof (Z.mod_pos_bound c0 m ltac:(lia)).
    rewrite Hfresh by lia. rewrite u32_small by (unfold is_u32; lia).
    apply returns_done. split_and!; simpl; [|done|].
    + split; simpl.
      * intros k' v [[<- <-]|[_ ?]]%lookup_insert_Some; [by split|by apply Hl].
      * split; [by rewrite length_insert|by apply Forall_insert].
      * intros j' Hj'. destruct (decide (j' = i)) as [->|].
        -- rewrite map_get_insert. unfold is_u32. lia.
        -- rewrite map_get_insert_ne by done. by apply Hqs.
      * done.
      * rewrite remaining_update by (apply range_NoDup || by apply elem_of_range).
        rewrite Hfresh by lia. rewrite map_size_insert. case_match; simpl; lia.
    + intros j Hj. rewrite map_get_insert_ne by lia. apply Hfresh. lia.
Qed.

(** *** Filling and output *)

Lemma robust_fill_ok rem (l : gmap Z Z) :
  (∀ k v, l !! k = Some v → 0 <= k < m ∧ 0 <= v < n) →
  returns (robust_fill n rem l) (λ l', ∀ k v, l' !! k = Some v → 0 <= k < m ∧ 0 <= v < n).
Proof.
  intros Hl. unfold robust_fill. eapply returns_bind.
  - apply (returns_foldM_until_range _ (λ i (st : gmap Z Z * Z), 0 <= st.2 <= i ∧
      ∀ k v, st.1 !! k = Some v → 0 <= k < m ∧ 0 <= v < n)); [lia|by split|].
    intros i [l' j] Hi [Hj Hl']; simpl in *. case_decide; [apply returns_done; simpl; split; [lia|done]|].
    destruct (l' !! i) eqn:Hli; apply returns_done; simpl; [split; [lia|done]|].
    rewrite u32_small by (unfold is_u32; lia). split; [lia|].
    intros k v [[-> ->]|[_ ?]]%lookup_insert_Some; [lia|by apply Hl'].
  - intros r (i & _ & _ & Hr). by apply returns_done.
Qed.

Lemma robust_out_ok (l : gmap Z Z) :
  (∀ k v, l !! k = Some v → 0 <= k < m ∧ 0 <= v < n) →
  returns (robust_out m l) (λ t, length t = Z.to_nat m ∧ Forall (λ v, 0 <= v < n) t).
Proof.
  intros Hl. unfold robust_out. apply returns_foldM.
  - split; [apply length_replicate|]. apply Forall_replicate. lia.
  - intros t [k v] Hkv%elem_of_map_to_list [Ht He]. apply Hl in Hkv as [Hk Hv].
    apply returns_slice_set; [lia|]. split; [by rewrite length_insert|by apply Forall_insert].
Qed.

(** *** The loop of RobustSimpleLookupTable *)

(** Takes left plus backends not yet banned: each pass uses some up. *)
Definition work (s : robust) : Z :=
  remaining (range n) (quota s) + (n - Z.of_nat (size (banned s))).

Lemma work_nonneg s : robust_ok s → 0 <= work s.
Proof.
  intros [_ _ Hq Hb _]. unfold work.
  pose proof (remaining_nonneg (range n) (quota s) ltac:(intros j ?%elem_of_range; by apply Hq)).
  pose proof (index_set_size n (banned s) ltac:(lia) Hb). lia.
Qed.

Lemma robust_simple_pass_ok fuel s :
  (Z.to_nat m < fuel)%nat → robust_ok s → Z.of_nat (size (banned s)) < n →
  returns (robust_simple_pass fuel m n s) (λ s', robust_ok s' ∧ work s' < work s).
Proof.
  intros Hf Hok Hlt. destruct (index_set_free n (banned s) Hlt) as (j0 & Hj0 & Hj0b).
  unfold robust_simple_pass. eapply returns_mono;
    [apply (returns_foldM_range _ (λ i s', robust_ok s' ∧ work s' <= work s ∧
       (∀ j, j ∈ banned s' → j ∈ banned s ∨ j < i) ∧ (j0 < i → work s' < work s)))|].
  - lia.
  - split_and!; [done|lia|naive_solver|lia].
  - intros i s' Hi (Hok' & Hw & Hban & Hj0'). case_decide as Hq.
    + apply returns_done. split_and!; [by apply robust_ban_ok| | |].
      * unfold work in *; simpl. assert (size (banned s') <= size ({[i]} ∪ banned s'))%nat; [|lia].
        apply subseteq_size. set_solver.
      * simpl. intros j [->%elem_of_singleton|Hj]%elem_of_union; [lia|].
        destruct (Hban j Hj); [by left|lia].
      * intros Hj. destruct (decide (i = j0)) as [->|].
        -- assert (Hnb : j0 ∉ banned s') by (intros [?|?]%Hban; [done|lia]).
           unfold work in *; simpl. rewrite size_union, size_singleton by set_solver. lia.
        -- assert (work s' < work s) by (apply Hj0'; lia). unfold work in *; simpl.
           assert (size (banned s') <= size ({[i]} ∪ banned s'))%nat; [|lia].
           apply subseteq_size. set_solver.
    + eapply returns_mono; [apply robust_take_ok; [done..|lia]|].
      intros s'' (Hok'' & Hb'' & Hr''). unfold work in *. rewrite Hb'', Hr''.
      split_and!; [done|lia| |lia]. intros j [?|?]%Hban; [by left|lia].
  - intros s' (? & _ & _ & Hw). split; [done|]. apply Hw. lia.
Qed.

Lemma robust_simple_loop_ok fuel s :
  (Z.to_nat (m + n) < fuel)%nat → robust_ok s →
  returns (robust_simple_loop fuel m n s) robust_ok.
Proof.
  intros Hf Hok. unfold robust_simple_loop.
  apply (returns_loopM _ robust_ok _ (λ s, Z.to_nat (work s))); [|done|].
  { destruct Hok. unfold work. lia. }
  intros s' Hok'. pose proof (index_set_size n (banned s') ltac:(lia) (ro_banned _ Hok')) as Hsz.
  rewrite u32_small by (unfold is_u32; lia). case_decide; [by apply returns_done|].
  eapply returns_bind; [apply robust_simple_pass_ok; [lia|done|lia]|].
  intros s'' [Hok'' Hw]. apply returns_done. split; [done|].
  pose proof (work_nonneg s' Hok'). pose proof (work_nonneg s'' Hok''). lia.
Qed.

(** *** The loops of RobustFibLookupTable *)

Lemma robust_fib_run_ok fuel j count s :
  (Z.to_nat m < fuel)%nat → 0 <= j < n → robust_ok s →
  returns (robust_fib_run fuel m j count s) robust_ok.
Proof.
  intros Hf Hj Hok. unfold robust_fib_run.
  go_bind (λ r : robust * bool, robust_ok r.1); [|intros r Hr; by apply returns_done].
  apply returns_foldM_until; [done|]. intros s' x _ Hok'. case_decide.
  - apply returns_done. by apply robust_ban_ok.
  - eapply returns_bind; [apply robust_take_ok; [done..|lia]|]. intros s'' (? & _). by apply returns_done.
Qed.
End robust.

(** ** The robust functions *)

Definition valid_table (n m : Z) (t : list Z) : Prop :=
  length t = Z.to_nat m ∧ Forall (λ v, 0 <= v < n) t.

Section robust_tables.
Context (bs : list Backend) (m : Z) (fuel : nat).
Context (Hbs : Forall wf_backend bs) (Hn : 0 < Z.of_nat (length bs) <= m) (Hm : m < 2 ^ 32).

Lemma robust_simple_run :
  (Z.to_nat (m + Z.of_nat (length bs)) < fuel)%nat →
  returns (RobustSimpleLookupTable fuel bs m) (valid_table (Z.of_nat (length bs)) m).
Proof.
  intros Hf. unfold RobustSimpleLookupTable. rewrite u32_small by (unfold is_u32; lia). cbv zeta.
  go_bind (λ _ : Z, True); [apply returns_umod; [lia|done]|]. intros rem _.
  eapply returns_bind; [apply (robust_init_ok _ m); done || lia|]. intros s0 [Hok0 _].
  eapply returns_bind; [apply (robust_simple_loop_ok _ m); done || lia|]. intros s Hok.
  eapply returns_bind; [apply (robust_fill_ok _ m); [lia..|apply Hok]|].
  intros l Hl. apply (robust_out_ok _ m); done || lia.
Qed.

Lemma robust_fib_table_run :
  (Z.to_nat m < fuel)%nat →
  returns (RobustFibLookupTable fuel bs m) (valid_table (Z.of_nat (length bs)) m).
Proof.
  intros Hf. unfold RobustFibLookupTable. rewrite u32_small by (unfold is_u32; lia). cbv zeta.
  set (n := Z.of_nat (length bs)) in *.
  go_bind (λ _ : Z, True); [apply returns_umod; [lia|done]|]. intros rem _.
  eapply returns_bind; [apply (robust_init_ok n m); done || lia|]. intros s0 [Hok0 _].
  go_bind (λ r : robust * bool, robust_ok n m r.1).
  { apply returns_foldM_until; [done|]. intros s i Hi%elem_of_range Hok.
    apply returns_foldM_until; [done|]. intros s' j Hj%elem_of_range Hok'.
    case_decide; [by apply returns_done|]. case_decide; [by apply returns_done|].
    destruct (lookup_lt_is_Some_2 fib (Z.to_nat i)) as [c Hc]; [lia|].
    go_bind (eq c); [apply returns_slice_get; [eauto|lia]|]. intros ? <-.
    eapply returns_bind; [apply (robust_fib_run_ok n m); done || lia|].
    intros s'' Hok''. by apply returns_done. }
  intros r Hok. eapply returns_bind; [apply (robust_fill_ok n m); [lia..|apply Hok]|].
  intros l Hl. apply (robust_out_ok n m); done || lia.
Qed.
End robust_tables.

(** A full table has no free slot: the probe never returns. *)
Lemma robust_probe_full fuel m (l : gmap Z Z) start :
  0 < m < 2 ^ 32 → (∀ k, 0 <= k < m → is_Some (l !! k)) → 0 <= start < 2 ^ 32 →
  robust_probe fuel m l start = NoFuel.
Proof.
  intros Hm Hl. revert start. unfold robust_probe.
  rewrite (u32_small (m - 1)) by (unfold is_u32; lia).
  induction fuel as [|fuel IH]; intros start Hs; [done|]. simpl. case_decide.
  - destruct (Hl 0 ltac:(lia)) as [v ->]. apply IH. by change (u32 (0 + 1)) with 1.
  - destruct (Hl start ltac:(lia)) as [v ->]. apply IH. rewrite u32_small; unfold is_u32; lia.
Qed.

(** Two backends, one slot: after the initialisation the table is full and
    both quotas have wrapped. *)
Definition stuck : robust :=
  {| lup := {[0 := 1]}; quota := <[0 := max_u32]> {[1 := max_u32]}; lastIdx := [0; 0]; banned := ∅ |}.

Lemma stuck_init : robust_init (test_backend <$> range 2) 1 2 = Done stuck.
Proof. by vm_compute. Qed.
Lemma stuck_take fuel : robust_take fuel 1 0 stuck = NoFuel.
Proof.
  unfold robust_take. change (slice_get (lastIdx stuck) 0) with (Done 0 : go Z).
  cbn [mbind go_bind]. change (u32 (0 + 1)) with 1. rewrite robust_probe_full; [done|lia| |lia].
  intros k Hk. assert (k = 0) as -> by lia. simpl. rewrite lookup_singleton_eq. by eexists.
Qed.

(** * Properties *)

(** [SimpleLookupTable] is the round robin over the backends, and it is
    balanced: backend [b] holds [m / n] slots, one more for the first [m mod n]
    backends. *)
Theorem simple_table_balanced bs m :
  0 < Z.of_nat (length bs) < 2 ^ 32 → 0 <= m →
  ∃ t, SimpleLookupTable bs m = Done t ∧ t = round_robin (Z.of_nat (length bs)) m ∧
    ∀ b, 0 <= b < Z.of_nat (length bs) →
      Z.of_nat (length (filter (λ v, v = b) t)) = slots (Z.of_nat (length bs)) m b.
Proof.
  intros Hn Hm. eexists. split_and!; [by apply simple_table_run|done|].
  intros b Hb. apply round_robin_count; [lia|done..].
Qed.

Lemma simple_table_balanced_witness :
  ∃ t, SimpleLookupTable (test_backend <$> range 3) 13 = Done t ∧
    t = round_robin (Z.of_nat (length (test_backend <$> range 3))) 13 ∧
    ∀ b, 0 <= b < Z.of_nat (length (test_backend <$> range 3)) →
      Z.of_nat (length (filter (λ v, v = b) t)) =
      slots (Z.of_nat (length (test_backend <$> range 3))) 13 b.
Proof. apply (simple_table_balanced (test_backend <$> range 3) 13); [simpl; lia|lia]. Defined.

(** [NaiveFibLookupTable] computes the same table as [SimpleLookupTable]:
    its Fibonacci index is reset to 0 after every pass over the backends, so
    every run has length [fib[0] = 1]. *)
Theorem naive_fib_is_simple bs m :
  0 < Z.of_nat (length bs) < 2 ^ 32 → 0 <= m < max_u32 →
  NaiveFibLookupTable bs m = SimpleLookupTable bs m.
Proof. intros Hn Hm. by rewrite naive_table_run, simple_table_run by lia. Qed.

Lemma naive_fib_is_simple_witness :
  NaiveFibLookupTable (test_backend <$> range 3) 13 = SimpleLookupTable (test_backend <$> range 3) 13.
Proof. apply (naive_fib_is_simple (test_backend <$> range 3) 13); [simpl; lia|unfold max_u32; lia]. Defined.

(** C36: when there are at least as many slots as backends,
    [RobustSimpleLookupTable] terminates (its probing loops included) without
    a panic and returns [m] backend indices. *)
Theorem robust_simple_table_ok bs m fuel :
  Forall wf_backend bs → 0 < Z.of_nat (length bs) <= m → m < 2 ^ 32 →
  (Z.to_nat (m + Z.of_nat (length bs)) < fuel)%nat →
  returns (RobustSimpleLookupTable fuel bs m) (valid_table (Z.of_nat (length bs)) m).
Proof. apply robust_simple_run. Qed.

Lemma robust_simple_table_ok_witness :
  returns (RobustSimpleLookupTable 17 (test_backend <$> range 3) 13)
    (valid_table (Z.of_nat (length (test_backend <$> range 3))) 13).
Proof.
  apply (robust_simple_table_ok (test_backend <$> range 3) 13 17);
    [apply test_backends_wf; lia|simpl; lia..].
Defined.

(** Under the same condition [RobustFibLookupTable] terminates without a
    panic and returns [m] backend indices. *)
Theorem robust_fib_table_ok bs m fuel :
  Forall wf_backend bs → 0 < Z.of_nat (length bs) <= m → m < 2 ^ 32 →
  (Z.to_nat m < fuel)%nat →
  returns (RobustFibLookupTable fuel bs m) (valid_table (Z.of_nat (length bs)) m).
Proof. apply robust_fib_table_run. Qed.

Lemma robust_fib_table_ok_witness :
  returns (RobustFibLookupTable 14 (test_backend <$> range 3) 13)
    (valid_table (Z.of_nat (length (test_backend <$> range 3))) 13).
Proof.
  apply (robust_fib_table_ok (test_backend <$> range 3) 13 14);
    [apply test_backends_wf; lia|simpl; lia..].
Defined.

(** With fewer slots than backends the quota [m / n = 0] wraps below zero
    and both robust tables loop forever: for two backends and one slot no
    number of iterations is enough. *)
Theorem robust_tables_diverge fuel :
  RobustSimpleLookupTable fuel (test_backend <$> range 2) 1 = NoFuel ∧
  RobustFibLookupTable fuel (test_backend <$> range 2) 1 = NoFuel.
Proof.
  unfold RobustSimpleLookupTable, RobustFibLookupTable.
  change (u32 (Z.of_nat (length (test_backend <$> range 2)))) with 2. cbv zeta.
  change (umod 1 2) with (Done 1 : go Z). rewrite stuck_init.
  change (range 2) with [0; 1]. cbn [mbind go_bind]. split.
  - unfold robust_simple_loop, robust_simple_pass. destruct fuel as [|fuel]; [done|].
    cbn [loopM]. rewrite decide_False by done. change (range 2) with [0; 1]. cbn [foldM].
    rewrite decide_False by done. by rewrite stuck_take.
  - change (range (Z.of_nat (length fib))) with (0 :: seqZ 1 18). cbn [foldM_until].
    rewrite decide_False by done. rewrite decide_False by done.
    change (slice_get fib 0) with (Done 1 : go Z). cbn [mbind go_bind].
    unfold robust_fib_run. change (range 1) with [0]. cbn [foldM_until].
    rewrite decide_False by done. by rewrite stuck_take.
Qed.
