(* ===== verification/GoNet.v ===== *)
(** * GoNet: the parts of Go's [net] and [fmt] packages the program calls

    [net.ParseIP], [IP.To4], [net.ParseMAC] and the decimal rendering of an
    integer, translated from their definition in the Go standard library,
    followed by the helpers of internal/util/net.go built on them.
    A string is the list of its bytes. *)
From S2P Require Import Prelude Types.

Definition bytes (s : string) : list Z := (λ c, Z.of_N (N_of_ascii c)) <$> String.list_ascii_of_string s.

Definition ch_dot : Z := 46.
Definition ch_colon : Z := 58.
Definition ch_percent : Z := 37.
Definition ch_dash : Z := 45.
Definition is_digit (c : Z) : bool := bool_decide (48 <= c <= 57).

(** The value of a hexadecimal digit. *)
Definition hex_val (c : Z) : option Z :=
  if is_digit c then Some (c - 48)
  else if bool_decide (97 <= c <= 102) then Some (c - 87)
  else if bool_decide (65 <= c <= 70) then Some (c - 55)
  else None.

(** ** IPv4: netip.parseIPv4Fields *)

(** [val], [digLen] describe the current octet, [fields] the octets before it,
    [prev_dot] whether the previous byte was a dot (or there is none). *)
Fixpoint parseIPv4Fields_loop (s : list Z) (val digLen : Z) (prev_dot : bool) (fields : list Z)
    : option (list Z) :=
  match s with
  | [] => if decide (length fields < 3)%nat then None else Some (fields ++ [val])
  | c :: s' =>
      if is_digit c then
        if decide (digLen = 1 ∧ val = 0) then None
        else
          let val := val * 10 + (c - 48) in
          if decide (val > 255) then None
          else parseIPv4Fields_loop s' val (digLen + 1) false fields
      else if decide (c = ch_dot) then
        if prev_dot then None
        else if decide (s' = []) then None
        else if decide (length fields = 3%nat) then None
        else parseIPv4Fields_loop s' 0 0 true (fields ++ [val])
      else None
  end.
Definition parseIPv4Fields (s : list Z) : option (list Z) := parseIPv4Fields_loop s 0 0 true [].

(** [Addr.As16] of an IPv4 address. *)
Definition v4InV6 (a : list Z) : list Z := replicate 10 0 ++ [255; 255] ++ a.

(** ** IPv6: netip.parseIPv6 *)

(** A group of at most four hexadecimal digits: its length, value and the rest. *)
Fixpoint hex_group (fuel : nat) (s : list Z) (off acc : Z) : option (Z * Z * list Z) :=
  match fuel, s with
  | S fuel, c :: s' =>
      match hex_val c with
      | None => Some (off, acc, s)
      | Some d =>
          if decide (off > 3) then None
          else hex_group fuel s' (off + 1) (acc * 16 + d)
      end
  | _, _ => Some (off, acc, s)
  end.

(** The main loop; [ip] holds the bytes read so far, [ellipsis] its position. *)
Fixpoint parseIPv6_loop (fuel : nat) (s ip : list Z) (ellipsis : option nat)
    : option (list Z * list Z * option nat) :=
  match fuel with
  | O => Some (s, ip, ellipsis)
  | S fuel =>
      if decide (16 <= length ip)%nat then Some (s, ip, ellipsis)
      else match hex_group 5 s 0 0 with
      | None => None
      | Some (off, acc, rest) =>
          if decide (off = 0) then None
          else match rest with
          | c :: _ =>
              if decide (c = ch_dot) then
                if decide (ellipsis = None ∧ length ip ≠ 12%nat) then None
                else if decide (16 < length ip + 4)%nat then None
                else v4 ← parseIPv4Fields s; Some ([], ip ++ v4, ellipsis)
              else
                let ip := ip ++ [acc `div` 256; acc `mod` 256] in
                if decide (c ≠ ch_colon) then None
                else match rest with
                | [_] => None
                | _ :: c2 :: rest2 =>
                    if decide (c2 = ch_colon) then
                      if decide (ellipsis ≠ None) then None
                      else if decide (rest2 = []) then Some ([], ip, Some (length ip))
                      else parseIPv6_loop fuel rest2 ip (Some (length ip))
                    else parseIPv6_loop fuel (c2 :: rest2) ip ellipsis
                | [] => None
                end
          | [] => Some ([], ip ++ [acc `div` 256; acc `mod` 256], ellipsis)
          end
      end
  end.

(** Zones are refused by [net.ParseIP]; the percent sign never parses here. *)
Definition parseIPv6 (s : list Z) : option (list Z) :=
  if decide (ch_percent ∈ s) then None
  else
    let start := match s with
                 | c1 :: c2 :: s' => if decide (c1 = ch_colon ∧ c2 = ch_colon) then Some s' else None
                 | _ => None
                 end in
    match start with
    | Some [] => Some (replicate 16 0)
    | _ =>
        '(rest, ip, ell) ← parseIPv6_loop 9 (default s start) []
                             (match start with Some _ => Some 0%nat | None => None end);
        if decide (rest ≠ []) then None
        else if decide (length ip < 16)%nat then
          match ell with
          | None => None
          | Some e => Some (take e ip ++ replicate (16 - length ip) 0 ++ drop e ip)
          end
        else if decide (ell ≠ None) then None else Some ip
    end.

(** ** net.ParseIP and IP.To4 *)

(** The first '.', ':' or '%' decides the syntax. *)
Fixpoint ParseIP_kind (s : list Z) : option Z :=
  match s with
  | [] => None
  | c :: s' => if decide (c = ch_dot ∨ c = ch_colon ∨ c = ch_percent) then Some c else ParseIP_kind s'
  end.

(** [None] is the nil IP. *)
Definition ParseIP (s : string) : option (list Z) :=
  let b := bytes s in
  match ParseIP_kind b with
  | Some c =>
      if decide (c = ch_dot) then v4InV6 <$> parseIPv4Fields b
      else if decide (c = ch_colon) then parseIPv6 b
      else None
  | None => None
  end.

Definition To4 (ip : list Z) : option (list Z) :=
  if decide (length ip = 4%nat) then Some ip
  else if decide (length ip = 16%nat ∧ take 12 ip = replicate 10 0 ++ [255; 255]) then Some (drop 12 ip)
  else None.

(** ** net.ParseMAC *)

(** [xtoi2(s, e)]: two hexadecimal digits, then the end or the byte [e]. *)
Definition xtoi2 (s : list Z) (e : Z) : option Z :=
  match s with
  | c1 :: c2 :: rest =>
      if match rest with [] => false | c3 :: _ => bool_decide (c3 ≠ e) end then None
      else d1 ← hex_val c1; d2 ← hex_val c2; Some (d1 * 16 + d2)
  | _ => None
  end.

Fixpoint mac_octets (n : nat) (s : list Z) (sep : Z) : option (list Z) :=
  match n with
  | O => Some []
  | S n => b ← xtoi2 s sep; bs ← mac_octets n (drop 3 s) sep; Some (b :: bs)
  end.
Fixpoint mac_words (n : nat) (s : list Z) : option (list Z) :=
  match n with
  | O => Some []
  | S n =>
      b1 ← xtoi2 (take 2 s) 0; b2 ← xtoi2 (drop 2 s) ch_dot;
      bs ← mac_words n (drop 5 s); Some (b1 :: b2 :: bs)
  end.

Definition mac_size (n : nat) : bool := bool_decide (n = 6%nat ∨ n = 8%nat ∨ n = 20%nat).

Definition ParseMAC (str : string) : option (list Z) :=
  let s := bytes str in
  let len := length s in
  if decide (len < 14)%nat then None
  else match s !! 2%nat, s !! 4%nat with
  | Some c2, Some c4 =>
      if decide (c2 = ch_colon ∨ c2 = ch_dash) then
        if decide ((len + 1) mod 3 ≠ 0)%nat then None
        else
          let n := ((len + 1) / 3)%nat in
          if mac_size n then mac_octets n s c2 else None
      else if decide (c4 = ch_dot) then
        if decide ((len + 1) mod 5 ≠ 0)%nat then None
        else
          let n := (2 * (len + 1) / 5)%nat in
          if mac_size n then mac_words (n / 2) s else None
      else None
  | _, _ => None
  end.

(** ** fmt.Sprintf("%d") *)

Fixpoint decimal_digits (fuel : nat) (x : Z) (acc : list Z) : list Z :=
  match fuel with
  | O => acc
  | S fuel =>
      let acc := (48 + x `mod` 10) :: acc in
      if decide (x < 10) then acc else decimal_digits fuel (x `div` 10) acc
  end.
(** Twenty digits are enough for a 64-bit integer. *)
Definition itoa (x : Z) : list Z :=
  if decide (x < 0) then ch_dash :: decimal_digits 20 (- x) [] else decimal_digits 20 x [].

(** The decimal digits [strconv.Atoi] and [strconv.ParseInt] read. *)
Fixpoint atoi_digits (s : list Z) (acc : Z) : option Z :=
  match s with
  | [] => Some acc
  | c :: s => if is_digit c then atoi_digits s (acc * 10 + (c - 48)) else None
  end.

(** ** src/internal/util/net.go *)

Definition errNotIPv4 := Sentinel "IP must be ipv4".
Definition errParseIEEE802MAC :=
  Sentinel "loadbalancer backend mac addr must be a valid IEEE 802 MAC address".
Definition ErrInvalidUDPLBPort := Sentinel "udplb port is invalid".

(** A nil slice has no bytes to read: [Uint32] panics. *)
Definition ParseIPV4ToUint32 (e : endian) (s : string) : go (Z + error) :=
  match ParseIP s ≫= To4 with
  | None => Done (inr errNotIPv4)
  | Some ipv4 => v ← Uint32 e ipv4; Done (inl v)
  end.

Definition NetIPv4ToUint32 (e : endian) (ip : list Z) : go Z :=
  Uint32 e (default [] (To4 ip)).

(** The error of [net.ParseMAC] is joined with the sentinel. *)
Definition ParseIEEE802MAC `{FlatErrors} (s : string) : list Z + error :=
  match ParseMAC s with
  | None => inr (Join [Foreign 0; errParseIEEE802MAC])
  | Some mac => if decide (length mac ≠ 6%nat) then inr errParseIEEE802MAC else inl mac
  end.

Definition ValidateUint16Port (port : Z) : option error :=
  if decide (port < 1000 ∨ port > 2 ^ 16 - 1) then Some ErrInvalidUDPLBPort else None.

(** * Lemmas *)

Lemma mac_octets_length n s sep bs : mac_octets n s sep = Some bs → length bs = n.
Proof.
  revert s bs. induction n as [|n IH]; intros s bs; simpl; [by intros [= <-]|].
  intros (b & _ & (l & Hl & [= <-])%bind_Some)%bind_Some. simpl. f_equal. by eapply IH.
Qed.
Lemma mac_words_length n s bs : mac_words n s = Some bs → length bs = (2 * n)%nat.
Proof.
  revert s bs. induction n as [|n IH]; intros s bs; simpl; [by intros [= <-]|].
  intros (b & _ & (b' & _ & (l & Hl & [= <-])%bind_Some)%bind_Some)%bind_Some. simpl.
  rewrite (IH _ _ Hl). lia.
Qed.

(** A parsed hardware address has 6, 8 or 20 bytes. *)
Lemma ParseMAC_length s mac : ParseMAC s = Some mac → length mac ∈ [6; 8; 20]%nat.
Proof.
  unfold ParseMAC, mac_size. case_decide; [done|].
  destruct (bytes s !! 2%nat) as [c2|]; [|done]. destruct (bytes s !! 4%nat) as [c4|]; [|done].
  case_decide; [|case_decide; [|done]]; (case_decide; [done|]); case_bool_decide as Hn; try done.
  - intros ->%mac_octets_length. set_solver.
  - intros Hl%mac_words_length. rewrite Hl. destruct Hn as [Hn|[Hn|Hn]]; rewrite Hn; set_solver.
Qed.

(** ** Parsed addresses are bytes *)

Lemma hex_val_range c d : hex_val c = Some d → 0 <= d < 16.
Proof. unfold hex_val, is_digit. repeat case_bool_decide; try done; intros [= <-]; lia. Qed.

Lemma parseIPv4Fields_loop_bytes s val digLen prev fields out :
  0 <= val <= 255 → Forall is_byte fields → (length fields <= 3)%nat →
  parseIPv4Fields_loop s val digLen prev fields = Some out → Forall is_byte out ∧ length out = 4%nat.
Proof.
  revert val digLen prev fields. induction s as [|c s IH]; intros val digLen prev fields Hv Hf Hl; simpl.
  - case_decide; [done|]. intros [= <-]. rewrite length_app, Forall_app, Forall_singleton.
    split; [split; [done|unfold is_byte; lia]|simpl; lia].
  - unfold is_digit. case_bool_decide as Hc.
    + do 2 (case_decide; [done|]). by apply IH; [lia|..].
    + case_decide; [|done]. destruct prev; [done|]. do 2 (case_decide; [done|]).
      apply IH; [lia| |rewrite length_app; simpl; lia].
      rewrite Forall_app, Forall_singleton. split; [done|unfold is_byte; lia].
Qed.
Lemma parseIPv4Fields_bytes s out : parseIPv4Fields s = Some out → Forall is_byte out ∧ length out = 4%nat.
Proof. apply parseIPv4Fields_loop_bytes; [lia|done|simpl; lia]. Qed.

Lemma hex_group_range fuel s off acc off' acc' rest :
  0 <= off → 0 <= acc < 16 ^ off → off <= 4 → hex_group fuel s off acc = Some (off', acc', rest) →
  0 <= acc' < 65536.
Proof.
  assert (Hend : ∀ o a, 0 <= o → 0 <= a < 16 ^ o → o <= 4 → 0 <= a < 65536).
  { intros o a Ho Ha Ho4. pose proof (Z.pow_le_mono_r 16 o 4). lia. }
  revert s off acc. induction fuel as [|fuel IH]; intros s off acc Ho Ha Ho4; simpl.
  { intros [= <- <- <-]. by eapply Hend. }
  destruct s as [|c s]; [intros [= <- <- <-]; by eapply Hend|].
  destruct (hex_val c) as [d|] eqn:Hd; [|intros [= <- <- <-]; by eapply Hend].
  apply hex_val_range in Hd. case_decide; [done|].
  apply IH; [lia| |lia]. rewrite Z.add_1_r, Z.pow_succ_r by lia. lia.
Qed.

Lemma parseIPv6_loop_bytes fuel s ip ell s' ip' ell' :
  Forall is_byte ip → parseIPv6_loop fuel s ip ell = Some (s', ip', ell') → Forall is_byte ip'.
Proof.
  revert s ip ell. induction fuel as [|fuel IH]; intros s ip ell Hip; cbn [parseIPv6_loop]; [by intros [= <- <- <-]|].
  case_decide; [by intros [= <- <- <-]|].
  destruct (hex_group 5 s 0 0) as [[[off acc] rest]|] eqn:Hg; [|done].
  apply hex_group_range in Hg; [|lia..]. case_decide; [done|].
  assert (Hip' : Forall is_byte (ip ++ [acc `div` 256; acc `mod` 256])).
  { rewrite Forall_app. split; [done|].
    repeat constructor; unfold is_byte; try apply Z.mod_pos_bound; try lia; [apply Z.div_pos|apply Z.div_lt_upper_bound]; lia. }
  destruct rest as [|c rest]; [by intros [= <- <- <-]|].
  case_decide.
  { do 2 (case_decide; [done|]). intros (v4 & [Hv _]%parseIPv4Fields_bytes & [= <- <- <-])%bind_Some.
    by rewrite Forall_app. }
  case_decide; [done|]. destruct rest as [|c2 rest2]; [done|].
  case_decide; [|by apply IH]. case_decide; [done|].
  case_decide; [by intros [= <- <- <-]|]. by apply IH.
Qed.
Lemma parseIPv6_bytes s out : parseIPv6 s = Some out → Forall is_byte out.
Proof.
  unfold parseIPv6. case_decide; [done|].
  assert (Hz : ∀ n, Forall is_byte (replicate n 0)) by (intros; apply Forall_replicate; unfold is_byte; lia).
  assert (Hfin : ∀ rest ip (ell : option nat), Forall is_byte ip →
    (if decide (rest ≠ ([] : list Z)) then None
     else if decide (length ip < 16)%nat then
       match ell with None => None | Some e => Some (take e ip ++ replicate (16 - length ip) 0 ++ drop e ip) end
     else if decide (ell ≠ None) then None else Some ip) = Some out → Forall is_byte out).
  { intros rest ip ell Hip. repeat case_decide; try done; [|by intros [= <-]].
    destruct ell; [|done]. intros [= <-]. rewrite !Forall_app.
    split_and!; [by apply Forall_take|done|by apply Forall_drop]. }
  set (start := match s with c1 :: c2 :: s' => _ | _ => _ end).
  destruct start as [[|c s']|]; [intros [= <-]; apply (Hz 16%nat)| |];
    (intros ([[rest ip] ell] & Hl & Hf)%bind_Some; eapply Hfin; [|exact Hf];
     by eapply parseIPv6_loop_bytes; [|exact Hl]).
Qed.

(** Every byte of a parsed address is a byte. *)
Lemma ParseIP_bytes s ip : ParseIP s = Some ip → Forall is_byte ip.
Proof.
  unfold ParseIP. destruct (ParseIP_kind _); [|done]. case_decide.
  - intros (v4 & [Hv _]%parseIPv4Fields_bytes & ->)%fmap_Some. unfold v4InV6. rewrite !Forall_app.
    split_and!; [|repeat constructor; unfold is_byte; lia|done].
    apply Forall_replicate. unfold is_byte. lia.
  - case_decide; [apply parseIPv6_bytes|done].
Qed.
Lemma To4_bytes ip v4 : Forall is_byte ip → To4 ip = Some v4 → Forall is_byte v4 ∧ length v4 = 4%nat.
Proof.
  intros Hip. unfold To4. case_decide; [by intros [= <-]|]. case_decide as Hl; [|done]. intros [= <-].
  split; [by apply Forall_drop|]. rewrite length_drop. lia.
Qed.

Lemma xtoi2_byte s e b : xtoi2 s e = Some b → is_byte b.
Proof.
  unfold xtoi2. destruct s as [|c1 [|c2 rest]]; try done.
  destruct (match rest with [] => false | c3 :: _ => bool_decide (c3 ≠ e) end); [done|].
  intros (d1 & H1%hex_val_range & (d2 & H2%hex_val_range & [= <-])%bind_Some)%bind_Some.
  unfold is_byte. lia.
Qed.
Lemma mac_octets_bytes n s sep bs : mac_octets n s sep = Some bs → Forall is_byte bs.
Proof.
  revert s bs. induction n as [|n IH]; intros s bs; simpl; [by intros [= <-]|].
  intros (b & Hb%xtoi2_byte & (l & Hl & [= <-])%bind_Some)%bind_Some. constructor; [done|by eapply IH].
Qed.
Lemma mac_words_bytes n s bs : mac_words n s = Some bs → Forall is_byte bs.
Proof.
  revert s bs. induction n as [|n IH]; intros s bs; simpl; [by intros [= <-]|].
  intros (b & Hb%xtoi2_byte & (b' & Hb'%xtoi2_byte & (l & Hl & [= <-])%bind_Some)%bind_Some)%bind_Some.
  constructor; [done|]. constructor; [done|by eapply IH].
Qed.
Lemma ParseMAC_bytes s mac : ParseMAC s = Some mac → Forall is_byte mac.
Proof.
  unfold ParseMAC. case_decide; [done|].
  destruct (bytes s !! 2%nat); [|done]. destruct (bytes s !! 4%nat); [|done].
  case_decide; [|case_decide; [|done]]; (case_decide; [done|]); destruct (mac_size _); try done.
  - apply mac_octets_bytes.
  - apply mac_words_bytes.
Qed.

(** ** Printed addresses parse back *)

(** [IP.String] of an IPv4 address. *)
Definition dotted (a b c d : Z) : list Z :=
  itoa a ++ ch_dot :: itoa b ++ ch_dot :: itoa c ++ ch_dot :: itoa d.

(** The one to three digits of an octet. *)
Lemma itoa_octet x :
  is_byte x →
  (x < 10 ∧ itoa x = [48 + x]) ∨
  (10 <= x < 100 ∧ itoa x = [48 + x `div` 10; 48 + x `mod` 10]) ∨
  (100 <= x ∧ itoa x = [48 + x `div` 100; 48 + (x `div` 10) `mod` 10; 48 + x `mod` 10]).
Proof.
  unfold is_byte, itoa. intros Hx. rewrite decide_False by lia.
  destruct (decide (x < 10)); [left|right; destruct (decide (x < 100)); [left|right]]; (split; [lia|]);
    cbn [decimal_digits].
  - rewrite decide_True by lia. by rewrite Z.mod_small by lia.
  - rewrite decide_False, decide_True by (Z.div_mod_to_equations; lia).
    by rewrite (Z.mod_small (x `div` 10)) by (Z.div_mod_to_equations; lia).
  - rewrite !decide_False, decide_True by (Z.div_mod_to_equations; lia).
    rewrite Z.div_div by lia. by rewrite (Z.mod_small (x `div` (10 * 10))) by (Z.div_mod_to_equations; lia).
Qed.

(** The parser reads an octet digit by digit. *)
Lemma parse_digit x s val digLen prev fields :
  0 <= x <= 9 → (digLen = 0 ∨ 0 < val) → 0 <= val → val * 10 + x <= 255 →
  parseIPv4Fields_loop ((48 + x) :: s) val digLen prev fields =
  parseIPv4Fields_loop s (val * 10 + x) (digLen + 1) false fields.
Proof.
  intros Hx Hd Hv Hr. cbn [parseIPv4Fields_loop]. unfold is_digit.
  rewrite bool_decide_true by lia. rewrite decide_False by lia.
  replace (val * 10 + (48 + x - 48)) with (val * 10 + x) by lia. by rewrite decide_False by lia.
Qed.
Lemma parse_octet x s fields :
  is_byte x → ∃ digLen,
  parseIPv4Fields_loop (itoa x ++ s) 0 0 true fields = parseIPv4Fields_loop s x digLen false fields.
Proof.
  intros Hx. destruct (itoa_octet x Hx) as [[Hr ->]|[[Hr ->]|[Hr ->]]]; unfold is_byte in Hx;
    cbn [app]; eexists; rewrite !parse_digit by (Z.div_mod_to_equations; lia); f_equal; Z.div_mod_to_equations; lia.
Qed.
Lemma parse_dot s val digLen fields :
  s ≠ [] → length fields ≠ 3%nat →
  parseIPv4Fields_loop (ch_dot :: s) val digLen false fields = parseIPv4Fields_loop s 0 0 true (fields ++ [val]).
Proof.
  intros Hs Hf. cbn [parseIPv4Fields_loop]. unfold is_digit, ch_dot. rewrite bool_decide_false by lia.
  by rewrite decide_True, !decide_False by done.
Qed.
Lemma itoa_not_nil x s : is_byte x → itoa x ++ s ≠ [].
Proof. intros Hx. by destruct (itoa_octet x Hx) as [[_ ->]|[[_ ->]|[_ ->]]]. Qed.
Lemma parse_dotted a b c d :
  is_byte a → is_byte b → is_byte c → is_byte d → parseIPv4Fields (dotted a b c d) = Some [a; b; c; d].
Proof.
  intros Ha Hb Hc Hd. unfold parseIPv4Fields, dotted.
  destruct (parse_octet a (ch_dot :: itoa b ++ ch_dot :: itoa c ++ ch_dot :: itoa d) [] Ha) as [n1 ->].
  rewrite parse_dot by (by apply itoa_not_nil || done). cbn [app].
  destruct (parse_octet b (ch_dot :: itoa c ++ ch_dot :: itoa d) [a] Hb) as [n2 ->].
  rewrite parse_dot by (by apply itoa_not_nil || done). cbn [app].
  destruct (parse_octet c (ch_dot :: itoa d) [a; b] Hc) as [n3 ->].
  rewrite parse_dot by (done || by rewrite <-(app_nil_r (itoa d)); apply itoa_not_nil). cbn [app].
  destruct (parse_octet d [] [a; b; c] Hd) as [n4 Hd4]. rewrite app_nil_r in Hd4. by rewrite Hd4.
Qed.
Lemma ParseIP_dotted s a b c d :
  is_byte a → is_byte b → is_byte c → is_byte d → bytes s = dotted a b c d →
  ParseIP s ≫= To4 = Some [a; b; c; d].
Proof.
  intros Ha Hb Hc Hd Hs. unfold ParseIP. rewrite Hs.
  assert (Hk : ParseIP_kind (dotted a b c d) = Some ch_dot).
  { unfold dotted. destruct (itoa_octet a Ha) as [[? ->]|[[? ->]|[? ->]]]; unfold is_byte in Ha; cbn [app ParseIP_kind];
      unfold ch_dot, ch_colon, ch_percent; rewrite !decide_False, decide_True by (Z.div_mod_to_equations; lia); done. }
  rewrite Hk, decide_True by done. by rewrite parse_dotted.
Qed.

(** ** Printed integers parse back *)

Lemma atoi_decimal n x acc :
  0 <= x < 10 ^ Z.of_nat n → atoi_digits (decimal_digits n x acc) 0 = atoi_digits acc x.
Proof.
  revert x acc. induction n as [|n IH]; intros x acc Hx; [simpl in *; by replace x with 0 by lia|].
  cbn [decimal_digits].
  assert (Hstep : ∀ v, atoi_digits ((48 + x `mod` 10) :: acc) v = atoi_digits acc (v * 10 + x `mod` 10)).
  { intros v. simpl. unfold is_digit. rewrite bool_decide_true by (Z.div_mod_to_equations; lia). f_equal. lia. }
  destruct (decide (x < 10)).
  - rewrite Hstep. f_equal. rewrite Z.mod_small by lia. lia.
  - rewrite IH, Hstep; [f_equal; Z.div_mod_to_equations; lia|].
    rewrite Nat2Z.inj_succ, Z.pow_succ_r in Hx by lia. Z.div_mod_to_equations; lia.
Qed.
Lemma decimal_digits_head n x acc : (0 < n)%nat → 0 <= x → ∃ c ds, decimal_digits n x acc = c :: ds ∧ 48 <= c <= 57.
Proof.
  revert x acc. induction n as [|n IH]; intros x acc Hn Hx; [lia|]. cbn [decimal_digits].
  assert (0 <= x `mod` 10 < 10) by (Z.div_mod_to_equations; lia).
  destruct (decide (x < 10)); [eexists _, _; split; [done|lia]|].
  destruct n as [|n]; [eexists _, _; split; [done|lia]|]. apply IH; [lia|]. Z.div_mod_to_equations; lia.
Qed.
