(* ===== verification/Json.v ===== *)
(** * Json: the parts of Go's [encoding/json] the program calls

    [json.Marshal] and [json.Unmarshal] as the state machines, the typed
    cluster, the replicated structure and the remote assignments use them: the
    scanner of the standard library (a push-down automaton over the bytes, so
    no fuel is needed), the unquoting of strings and the compact printer, with
    the proof that what is printed is read back.  A text is the list of its
    bytes. *)
From S2P Require Import Prelude Types GoNet.

(** ** Values *)

(** A number is kept as its literal; an object keeps the order and the
    duplicates of its members. *)
Inductive json :=
  | JNull
  | JBool (b : bool)
  | JNumber (lit : list Z)
  | JString (s : list Z)
  | JArray (l : list json)
  | JObject (ms : list (list Z * json)).

(** ** Strings: UTF-8, [unquoteBytes] and [appendString] *)

Definition between (a c b : Z) : bool := bool_decide (a <= c <= b).
Definition cont (c : Z) : bool := between 128 c 191.
(** The well-formed sequences of two, three and four bytes. *)
Definition utf8_2 (c0 c1 : Z) : bool := between 194 c0 223 && cont c1.
Definition utf8_3 (c0 c1 c2 : Z) : bool :=
  ((between 224 c0 224 && between 160 c1 191) || ((between 225 c0 236 || between 238 c0 239) && cont c1)
   || (between 237 c0 237 && between 128 c1 159)) && cont c2.
Definition utf8_4 (c0 c1 c2 c3 : Z) : bool :=
  ((between 240 c0 240 && between 144 c1 191) || (between 241 c0 243 && cont c1)
   || (between 244 c0 244 && between 128 c1 143)) && cont c2 && cont c3.

Definition RuneError : Z := 65533.
Definition is_surrogate (r : Z) : bool := between 55296 r 57343.
(** [utf8.AppendRune]; a surrogate or a rune out of range becomes U+FFFD. *)
Definition append_rune (r : Z) : list Z :=
  let r := if is_surrogate r || bool_decide (r > 1114111) then RuneError else r in
  if decide (r <= 127) then [r]
  else if decide (r <= 2047) then [192 + r `div` 64; 128 + r `mod` 64]
  else if decide (r <= 65535) then [224 + r `div` 4096; 128 + (r `div` 64) `mod` 64; 128 + r `mod` 64]
  else [240 + r `div` 262144; 128 + (r `div` 4096) `mod` 64; 128 + (r `div` 64) `mod` 64; 128 + r `mod` 64].
(** [utf16.DecodeRune] of two code units. *)
Definition decode_pair (r1 r2 : Z) : Z :=
  if between 55296 r1 56319 && between 56320 r2 57343 then (r1 - 55296) * 1024 + (r2 - 56320) + 65536
  else RuneError.

Definition hexv (c : Z) : Z := default 0 (hex_val c).
Definition getu4 (a b c d : Z) : Z := hexv a * 4096 + hexv b * 256 + hexv c * 16 + hexv d.

Definition unescape (c : Z) : Z :=
  if decide (c = 98) then 8 else if decide (c = 102) then 12 else if decide (c = 110) then 10
  else if decide (c = 114) then 13 else if decide (c = 116) then 9 else c.

(** The bytes between the quotes of a scanned string literal: escapes are
    resolved, invalid UTF-8 becomes U+FFFD byte by byte. *)
Fixpoint unquote (s : list Z) : list Z :=
  match s with
  | [] => []
  | c :: r =>
      if decide (c = 92) then
        match r with
        | [] => []
        | e :: r1 =>
            if decide (e = 117) then
              match r1 with
              | h1 :: h2 :: h3 :: h4 :: r2 =>
                  let u := getu4 h1 h2 h3 h4 in
                  if is_surrogate u then
                    match r2 with
                    | b :: v :: g1 :: g2 :: g3 :: g4 :: r3 =>
                        let p := decode_pair u (getu4 g1 g2 g3 g4) in
                        if decide (b = 92 ∧ v = 117 ∧ p ≠ RuneError) then append_rune p ++ unquote r3
                        else append_rune RuneError ++ unquote r2
                    | _ => append_rune RuneError ++ unquote r2
                    end
                  else append_rune u ++ unquote r2
              | _ => []
              end
            else unescape e :: unquote r1
        end
      else if decide (c < 128) then c :: unquote r
      else
        match r with
        | c1 :: r1 =>
            if utf8_2 c c1 then c :: c1 :: unquote r1
            else match r1 with
                 | c2 :: r2 =>
                     if utf8_3 c c1 c2 then c :: c1 :: c2 :: unquote r2
                     else match r2 with
                          | c3 :: r3 =>
                              if utf8_4 c c1 c2 c3 then c :: c1 :: c2 :: c3 :: unquote r3
                              else append_rune RuneError ++ unquote r
                          | [] => append_rune RuneError ++ unquote r
                          end
                 | [] => append_rune RuneError ++ unquote r
                 end
        | [] => append_rune RuneError ++ unquote r
        end
  end.

Definition hex_digit (x : Z) : Z := if decide (x < 10) then 48 + x else 87 + x.
(** A byte below 128 as [appendString] writes it, HTML characters escaped. *)
Definition quote_ascii (c : Z) : list Z :=
  if decide (c = 34 ∨ c = 92) then [92; c]
  else if decide (c = 8) then [92; 98] else if decide (c = 12) then [92; 102]
  else if decide (c = 10) then [92; 110] else if decide (c = 13) then [92; 114]
  else if decide (c = 9) then [92; 116]
  else if decide (c < 32 ∨ c = 60 ∨ c = 62 ∨ c = 38)
       then [92; 117; 48; 48; hex_digit (c `div` 16); hex_digit (c `mod` 16)]
  else [c].
Definition escaped_rune_error : list Z := [92; 117; 102; 102; 102; 100].

Fixpoint quote (s : list Z) : list Z :=
  match s with
  | [] => []
  | c :: r =>
      if decide (c < 128) then quote_ascii c ++ quote r
      else
        match r with
        | c1 :: r1 =>
            if utf8_2 c c1 then c :: c1 :: quote r1
            else match r1 with
                 | c2 :: r2 =>
                     if utf8_3 c c1 c2 then
                       (if decide (c = 226 ∧ c1 = 128 ∧ (c2 = 168 ∨ c2 = 169))
                        then [92; 117; 50; 48; 50; hex_digit (c2 - 160)]
                        else [c; c1; c2]) ++ quote r2
                     else match r2 with
                          | c3 :: r3 =>
                              if utf8_4 c c1 c2 c3 then c :: c1 :: c2 :: c3 :: quote r3
                              else escaped_rune_error ++ quote r
                          | [] => escaped_rune_error ++ quote r
                          end
                 | [] => escaped_rune_error ++ quote r
                 end
        | [] => escaped_rune_error ++ quote r
        end
  end.

(** ** The scanner (scanner.go) *)

(** The containers that are open, innermost first, with what was read of
    them in reverse; an object also with the key of its current member. *)
Inductive frame :=
  | FArray (l : list json)
  | FObject (ms : list (list Z * json)) (key : list Z).

(** The states of a number: [stateNeg], [state0], [state1], [stateDot],
    [stateDot0], [stateE], [stateESign], [stateE0]. *)
Inductive num_state := NNeg | N0 | N1 | NDot | NDot0 | NE | NESign | NE0.
(** Inside a string: plain, after a backslash, or with [n] digits of a [\u]
    escape still to come. *)
Inductive str_state := SPlain | SEsc | SHex (n : nat).

Inductive mode :=
  | BeginValue
  | BeginValueOrEmpty
  | BeginString
  | BeginStringOrEmpty
  | AfterKey (key : list Z)
  | EndValue
  | EndTop (v : json)
  | InString (is_key : bool) (st : str_state) (raw : list Z)
  | InNumber (st : num_state) (raw : list Z)
  | InLiteral (rest : list Z) (v : json).

Definition maxNestingDepth : Z := 10000.
Definition is_space (c : Z) : bool := bool_decide (c = 32 ∨ c = 9 ∨ c = 13 ∨ c = 10).

Definition num_step (n : num_state) (c : Z) : option num_state :=
  let dot_or_e := if decide (c = 46) then Some NDot else if decide (c = 101 ∨ c = 69) then Some NE else None in
  match n with
  | NNeg => if decide (c = 48) then Some N0 else if between 49 c 57 then Some N1 else None
  | N0 => dot_or_e
  | N1 => if is_digit c then Some N1 else dot_or_e
  | NDot => if is_digit c then Some NDot0 else None
  | NDot0 => if is_digit c then Some NDot0 else if decide (c = 101 ∨ c = 69) then Some NE else None
  | NE => if decide (c = 43 ∨ c = 45) then Some NESign else if is_digit c then Some NE0 else None
  | NESign | NE0 => if is_digit c then Some NE0 else None
  end.
Definition num_final (n : num_state) : bool :=
  match n with N0 | N1 | NDot0 | NE0 => true | _ => false end.
Definition num_start (c : Z) : option num_state :=
  if decide (c = 45) then Some NNeg else num_step NNeg c.

(** A value is complete: it goes into the innermost container. *)
Definition finish (st : list frame) (v : json) : list frame * mode :=
  match st with
  | [] => ([], EndTop v)
  | FArray l :: st => (FArray (v :: l) :: st, EndValue)
  | FObject ms k :: st => (FObject ((k, v) :: ms) k :: st, EndValue)
  end.

(** [pushParseState]: too many open containers are an error. *)
Definition push (st : list frame) (f : frame) (m : mode) : option (list frame * mode) :=
  if decide (Z.of_nat (length st) + 1 <= maxNestingDepth) then Some (f :: st, m) else None.

Definition begin_value (st : list frame) (c : Z) : option (list frame * mode) :=
  if is_space c then Some (st, BeginValue)
  else if decide (c = 123) then push st (FObject [] []) BeginStringOrEmpty
  else if decide (c = 91) then push st (FArray []) BeginValueOrEmpty
  else if decide (c = 34) then Some (st, InString false SPlain [])
  else if decide (c = 116) then Some (st, InLiteral [114; 117; 101] (JBool true))
  else if decide (c = 102) then Some (st, InLiteral [97; 108; 115; 101] (JBool false))
  else if decide (c = 110) then Some (st, InLiteral [117; 108; 108] JNull)
  else n ← num_start c; Some (st, InNumber n [c]).

Definition begin_string (st : list frame) (c : Z) : option (list frame * mode) :=
  if decide (c = 34) then Some (st, InString true SPlain []) else None.

(** [stateEndValue] and [stateEndTop]. *)
Definition end_value (s : list frame * mode) (c : Z) : option (list frame * mode) :=
  if is_space c then Some s
  else match s with
  | (FArray l :: st, EndValue) =>
      if decide (c = 44) then Some (FArray l :: st, BeginValue)
      else if decide (c = 93) then Some (finish st (JArray (reverse l)))
      else None
  | (FObject ms k :: st, EndValue) =>
      if decide (c = 44) then Some (FObject ms k :: st, BeginString)
      else if decide (c = 125) then Some (finish st (JObject (reverse ms)))
      else None
  | _ => None
  end.

Definition in_string (st : list frame) (is_key : bool) (s : str_state) (raw : list Z) (c : Z)
    : option (list frame * mode) :=
  match s with
  | SPlain =>
      if decide (c = 34) then
        let v := unquote (reverse raw) in
        Some (if is_key then (st, AfterKey v) else finish st (JString v))
      else if decide (c = 92) then Some (st, InString is_key SEsc (c :: raw))
      else if decide (c < 32) then None
      else Some (st, InString is_key SPlain (c :: raw))
  | SEsc =>
      if decide (c ∈ [98; 102; 110; 114; 116; 92; 47; 34]) then Some (st, InString is_key SPlain (c :: raw))
      else if decide (c = 117) then Some (st, InString is_key (SHex 4) (c :: raw))
      else None
  | SHex n =>
      match hex_val c with
      | Some _ => Some (st, InString is_key (if decide (n <= 1)%nat then SPlain else SHex (n - 1)) (c :: raw))
      | None => None
      end
  end.

(** One byte of the scanner. *)
Definition step (s : list frame * mode) (c : Z) : option (list frame * mode) :=
  let '(st, m) := s in
  match m with
  | BeginValue => begin_value st c
  | BeginValueOrEmpty =>
      if is_space c then Some s
      else if decide (c = 93) then match st with _ :: st => Some (finish st (JArray [])) | [] => None end
      else begin_value st c
  | BeginString => if is_space c then Some s else begin_string st c
  | BeginStringOrEmpty =>
      if is_space c then Some s
      else if decide (c = 125) then match st with _ :: st => Some (finish st (JObject [])) | [] => None end
      else begin_string st c
  | AfterKey k =>
      if is_space c then Some s
      else if decide (c = 58) then
        match st with FObject ms _ :: st => Some (FObject ms k :: st, BeginValue) | _ => None end
      else None
  | EndValue | EndTop _ => end_value s c
  | InString is_key ss raw => in_string st is_key ss raw c
  | InNumber n raw =>
      match num_step n c with
      | Some n' => Some (st, InNumber n' (c :: raw))
      | None => if num_final n then end_value (finish st (JNumber (reverse raw))) c else None
      end
  | InLiteral rest v =>
      match rest with
      | [] => None
      | x :: rest =>
          if decide (c = x) then Some (if decide (rest = []) then finish st v else (st, InLiteral rest v))
          else None
      end
  end.

Fixpoint scan (s : list frame * mode) (text : list Z) : option (list frame * mode) :=
  match text with
  | [] => Some s
  | c :: text => s' ← step s c; scan s' text
  end.

(** The whole text; [eof] feeds a space to end a number. *)
Definition parse (text : list Z) : option json :=
  s ← scan ([], BeginValue) text;
  match step s 32 with Some (_, EndTop v) => Some v | _ => None end.

(** ** The compact printer *)

Fixpoint commas (l : list (list Z)) : list Z :=
  match l with
  | [] => []
  | [x] => x
  | x :: l => x ++ 44 :: commas l
  end.

Definition quoted (s : list Z) : list Z := 34 :: quote s ++ [34].

Fixpoint print (j : json) : list Z :=
  match j with
  | JNull => [110; 117; 108; 108]
  | JBool true => [116; 114; 117; 101]
  | JBool false => [102; 97; 108; 115; 101]
  | JNumber lit => lit
  | JString s => quoted s
  | JArray l => 91 :: commas (print <$> l) ++ [93]
  | JObject ms => 123 :: commas ((λ m, quoted m.1 ++ 58 :: print m.2) <$> ms) ++ [125]
  end.

Example scan_ex : parse (bytes " [ 1 , -2.5e+3, true,null, {}, [] ] ") =
  Some (JArray [JNumber (bytes "1"); JNumber (bytes "-2.5e+3"); JBool true; JNull; JObject []; JArray []]).
Proof. vm_compute. reflexivity. Qed.
Example scan_string_ex :
  parse (34 :: bytes "a\n\u0041\ud83d\ude00" ++ [195; 169; 255; 34]) =
  Some (JString (bytes "a" ++ [10] ++ bytes "A" ++ [240; 159; 152; 128; 195; 169; 239; 191; 189])).
Proof. vm_compute. reflexivity. Qed.
Example scan_refuses :
  parse (bytes "01") = None ∧ parse (bytes "[1,]") = None ∧ parse (bytes "1 2") = None ∧ parse (bytes "") = None ∧
  parse (bytes "-") = None ∧ parse (bytes "nul") = None ∧ parse (bytes "{1:2}") = None.
Proof. vm_compute. done. Qed.

(** * Lemmas *)

(** ** Strings *)

(** Well-formed UTF-8. *)
Inductive utf8 : list Z → Prop :=
  | utf8_nil : utf8 []
  | utf8_one c s : 0 <= c < 128 → utf8 s → utf8 (c :: s)
  | utf8_two c c1 s : utf8_2 c c1 = true → utf8 s → utf8 (c :: c1 :: s)
  | utf8_three c c1 c2 s : utf8_3 c c1 c2 = true → utf8 s → utf8 (c :: c1 :: c2 :: s)
  | utf8_four c c1 c2 c3 s : utf8_4 c c1 c2 c3 = true → utf8 s → utf8 (c :: c1 :: c2 :: c3 :: s).

Ltac utf8_ranges :=
  unfold utf8_2, utf8_3, utf8_4, cont, between in *;
  rewrite ?andb_true_iff, ?orb_true_iff, ?andb_true_iff, ?orb_true_iff, ?bool_decide_eq_true in *.

Lemma utf8_2_lead c c1 : utf8_2 c c1 = true → 194 <= c <= 223 ∧ 128 <= c1 <= 191.
Proof. intros H. utf8_ranges. lia. Qed.
Lemma utf8_3_lead c c1 c2 : utf8_3 c c1 c2 = true → 224 <= c <= 239 ∧ 128 <= c1 <= 191 ∧ 128 <= c2 <= 191.
Proof. intros H. utf8_ranges. lia. Qed.
Lemma utf8_4_lead c c1 c2 c3 :
  utf8_4 c c1 c2 c3 = true → 240 <= c <= 244 ∧ 128 <= c1 <= 191 ∧ 128 <= c2 <= 191 ∧ 128 <= c3 <= 191.
Proof. intros H. utf8_ranges. lia. Qed.
Lemma utf8_2_not c c1 : 224 <= c → utf8_2 c c1 = false.
Proof. intros H. apply not_true_iff_false. intros ?%utf8_2_lead. lia. Qed.
Lemma utf8_3_not c c1 c2 : 240 <= c → utf8_3 c c1 c2 = false.
Proof. intros H. apply not_true_iff_false. intros ?%utf8_3_lead. lia. Qed.

(** The 128 ASCII characters, one by one. *)
Lemma ascii_cases (P : Z → Prop) : Forall P (seqZ 0 128) → ∀ c, 0 <= c < 128 → P c.
Proof. intros HP c Hc. rewrite Forall_forall in HP. apply HP, elem_of_seqZ. lia. Qed.

Lemma unquote_ascii c r : 0 <= c < 128 → unquote (quote_ascii c ++ r) = c :: unquote r.
Proof.
  revert c. apply (ascii_cases (λ c, unquote (quote_ascii c ++ r) = c :: unquote r)).
  cbv [seqZ]. repeat constructor.
Qed.
Lemma unquote_quote s : utf8 s → unquote (quote s) = s.
Proof.
  induction 1 as [|c s Hc _ IH|c c1 s H _ IH|c c1 c2 s H _ IH|c c1 c2 c3 s H _ IH]; [done|..]; cbn [quote].
  - rewrite decide_True by lia. by rewrite unquote_ascii, IH by done.
  - pose proof (utf8_2_lead _ _ H). rewrite decide_False, H by lia. cbn [unquote].
    rewrite !decide_False by lia. by rewrite H, IH.
  - pose proof (utf8_3_lead _ _ _ H). rewrite decide_False by lia. rewrite utf8_2_not, H by lia.
    case_decide as Hsep.
    + destruct Hsep as (-> & -> & [-> | ->]); rewrite <-IH at 2; reflexivity.
    + cbn [app unquote]. rewrite !decide_False by lia. by rewrite utf8_2_not, H, IH by lia.
  - pose proof (utf8_4_lead _ _ _ _ H). rewrite decide_False by lia. rewrite utf8_2_not, utf8_3_not, H by lia.
    cbn [unquote]. rewrite !decide_False by lia. by rewrite utf8_2_not, utf8_3_not, H, IH by lia.
Qed.

(** ** Scanning what was printed *)

Lemma scan_app s a b : scan s (a ++ b) = (s' ← scan s a; scan s' b).
Proof. revert s. induction a as [|c a IH]; intros s; [done|]. simpl. destruct (step s c); [apply IH|done]. Qed.

Section strings.
Context (st : list frame) (k : bool).

Lemma scan_ascii c raw r : 0 <= c < 128 →
  scan (st, InString k SPlain raw) (quote_ascii c ++ r) =
  scan (st, InString k SPlain (reverse (quote_ascii c) ++ raw)) r.
Proof.
  revert c. apply (ascii_cases (λ c, scan (st, InString k SPlain raw) (quote_ascii c ++ r) =
    scan (st, InString k SPlain (reverse (quote_ascii c) ++ raw)) r)).
  cbv [seqZ]. repeat constructor.
Qed.
Lemma scan_high c raw r : 128 <= c →
  scan (st, InString k SPlain raw) (c :: r) = scan (st, InString k SPlain (c :: raw)) r.
Proof. intros Hc. cbn [scan step in_string]. by rewrite !decide_False by lia. Qed.

Lemma scan_quote s raw r : utf8 s →
  scan (st, InString k SPlain raw) (quote s ++ r) = scan (st, InString k SPlain (reverse (quote s) ++ raw)) r.
Proof.
  intros Hs. revert raw. induction Hs as [|c s Hc _ IH|c c1 s H _ IH|c c1 c2 s H _ IH|c c1 c2 c3 s H _ IH];
    intros raw; [done|..]; cbn [quote].
  - rewrite decide_True by lia. by rewrite <-app_assoc, scan_ascii, IH, reverse_app, <-app_assoc by done.
  - pose proof (utf8_2_lead _ _ H). rewrite decide_False, H by lia. cbn [app].
    rewrite !scan_high, IH by lia. f_equal. rewrite !reverse_cons, <-!app_assoc. done.
  - pose proof (utf8_3_lead _ _ _ H). rewrite decide_False by lia. rewrite utf8_2_not, H by lia.
    case_decide as Hsep.
    + destruct Hsep as (-> & -> & Hsep). rewrite <-app_assoc, reverse_app, <-app_assoc, <-IH.
      destruct Hsep as [-> | ->]; reflexivity.
    + cbn [app]. rewrite !scan_high, IH by lia. rewrite !reverse_cons, <-!app_assoc. done.
  - pose proof (utf8_4_lead _ _ _ _ H). rewrite decide_False by lia. rewrite utf8_2_not, utf8_3_not, H by lia.
    cbn [app]. rewrite !scan_high, IH by lia. rewrite !reverse_cons, <-!app_assoc. done.
Qed.

(** From the opening quote to past the closing one. *)
Lemma scan_quoted s r : utf8 s →
  scan (st, InString k SPlain []) (quote s ++ 34 :: r) =
  scan (if k then (st, AfterKey s) else finish st (JString s)) r.
Proof.
  intros Hs. rewrite scan_quote, app_nil_r by done. cbn [scan step in_string].
  rewrite decide_True by done. rewrite reverse_involutive, unquote_quote by done. by destruct k.
Qed.
End strings.

(** A literal the scanner accepts as a number. *)
Fixpoint num_run (n : num_state) (lit : list Z) : option num_state :=
  match lit with [] => Some n | c :: lit => n' ← num_step n c; num_run n' lit end.
Definition number_literal (lit : list Z) : bool :=
  match lit with
  | c :: lit => match num_start c ≫= λ n, num_run n lit with Some n => num_final n | None => false end
  | [] => false
  end.

(** What may follow a value. *)
Definition delimiter (c : Z) : Prop := c ∈ [44; 93; 125; 32].

Lemma delimiter_num n c : delimiter c → num_step n c = None.
Proof.
  unfold delimiter. intros Hc. repeat (apply elem_of_cons in Hc as [->|Hc]; [by destruct n|]). by apply not_elem_of_nil in Hc.
Qed.
Lemma finish_mode st v : ∃ st' m, finish st v = (st', m) ∧ ∀ c, step (st', m) c = end_value (st', m) c.
Proof. destruct st as [|[l|ms k] st]; simpl; by eexists _, _. Qed.
Lemma step_finish st v c : step (finish st v) c = end_value (finish st v) c.
Proof. destruct (finish_mode st v) as (st' & m & -> & H). apply H. Qed.

Lemma scan_num st n n' lit raw c r :
  num_run n lit = Some n' → num_final n' = true → delimiter c →
  scan (st, InNumber n raw) (lit ++ c :: r) =
  (s ← end_value (finish st (JNumber (reverse raw ++ lit))) c; scan s r).
Proof.
  revert n raw. induction lit as [|d lit IH]; intros n raw Hr Hf Hc.
  - injection Hr as ->. cbn [app scan step]. by rewrite delimiter_num, Hf, app_nil_r by done.
  - cbn [num_run] in Hr. destruct (num_step n d) as [n1|] eqn:E; [|done]. cbn [app scan step]. rewrite E.
    cbn [mbind option_bind]. rewrite IH by done. by rewrite reverse_cons, <-app_assoc.
Qed.

(** A value whose text the scanner reads back: literals are well formed and
    at most [d] containers are nested. *)
Fixpoint printable (d : Z) (j : json) : Prop :=
  match j with
  | JNull | JBool _ => True
  | JNumber lit => number_literal lit = true
  | JString s => utf8 s
  | JArray l => 0 < d ∧ foldr (λ x P, printable (d - 1) x ∧ P) True l
  | JObject ms => 0 < d ∧ foldr (λ m P, utf8 m.1 ∧ printable (d - 1) m.2 ∧ P) True ms
  end.

Lemma printable_array d l : printable d (JArray l) ↔ 0 < d ∧ Forall (printable (d - 1)) l.
Proof. simpl. apply and_iff_compat_l. induction l as [|x l IH]; simpl; [done|]. by rewrite Forall_cons, IH. Qed.
Lemma printable_object d ms :
  printable d (JObject ms) ↔ 0 < d ∧ Forall (λ m, utf8 m.1 ∧ printable (d - 1) m.2) ms.
Proof.
  simpl. apply and_iff_compat_l. induction ms as [|x l IH]; simpl; [done|]. rewrite Forall_cons, IH. naive_solver.
Qed.

(** Induction through the containers. *)
Fixpoint json_induction (P : json → Prop) (Hnull : P JNull) (Hbool : ∀ b, P (JBool b)) (Hnum : ∀ lit, P (JNumber lit))
    (Hstr : ∀ s, P (JString s)) (Harr : ∀ l, Forall P l → P (JArray l))
    (Hobj : ∀ ms, Forall (λ m, P m.2) ms → P (JObject ms)) (j : json) : P j :=
  let rec := json_induction P Hnull Hbool Hnum Hstr Harr Hobj in
  match j with
  | JNull => Hnull
  | JBool b => Hbool b
  | JNumber lit => Hnum lit
  | JString s => Hstr s
  | JArray l => Harr l ((fix go l := match l return Forall P l with [] => Forall_nil_2 _ | x :: l => Forall_cons_2 _ _ _ (rec x) (go l) end) l)
  | JObject ms => Hobj ms ((fix go l := match l return Forall (λ m, P m.2) l with [] => Forall_nil_2 _ | x :: l => Forall_cons_2 _ _ _ (rec x.2) (go l) end) ms)
  end.

Lemma scan_byte s s' c r : step s c = Some s' → scan s (c :: r) = scan s' r.
Proof. intros H. cbn [scan]. by rewrite H. Qed.

Lemma push_ok st f m : Z.of_nat (length st) + 1 <= maxNestingDepth → push st f m = Some (f :: st, m).
Proof. intros. unfold push. by rewrite decide_True. Qed.

(** [scan_print] for one value, as the induction provides it. *)
Definition scans_back (d : Z) (j : json) : Prop := ∀ st c r,
  Z.of_nat (length st) + d <= maxNestingDepth → delimiter c →
  scan (st, BeginValue) (print j ++ c :: r) = (s ← end_value (finish st j) c; scan s r).

Lemma scan_elements d st acc l r :
  Z.of_nat (length st) + 1 + d <= maxNestingDepth → Forall (scans_back d) l → l ≠ [] →
  scan (FArray acc :: st, BeginValue) (commas (print <$> l) ++ 93 :: r) = scan (finish st (JArray (reverse acc ++ l))) r.
Proof.
  intros Hd Hl. revert acc. induction Hl as [|x l Hx Hl IH]; intros acc Hne; [done|].
  destruct l as [|y l]; cbn [fmap list_fmap commas].
  - rewrite Hx by (by simpl; try lia; unfold delimiter; set_solver). simpl. by rewrite reverse_cons.
  - rewrite <-app_assoc. cbn [app]. rewrite Hx by (by simpl; try lia; unfold delimiter; set_solver).
    replace (end_value (finish (FArray acc :: st) x) 44) with (Some (FArray (x :: acc) :: st, BeginValue)) by done.
    cbn [mbind option_bind]. rewrite IH by done. by rewrite reverse_cons, <-app_assoc.
Qed.
Lemma scan_members d st acc k0 ms r :
  Z.of_nat (length st) + 1 + d <= maxNestingDepth → Forall (λ m, utf8 m.1 ∧ scans_back d m.2) ms → ms ≠ [] →
  scan (FObject acc k0 :: st, BeginString) (commas ((λ m, quoted m.1 ++ 58 :: print m.2) <$> ms) ++ 125 :: r) =
  scan (finish st (JObject (reverse acc ++ ms))) r.
Proof.
  intros Hd Hl. revert acc k0. induction Hl as [|[k x] l [Hk Hx] Hl IH]; intros acc k0 Hne; [done|]. simpl in Hk, Hx.
  assert (Hmember : ∀ c r, delimiter c →
    scan (FObject acc k0 :: st, BeginString) ((quoted k ++ 58 :: print x) ++ c :: r) =
    (s ← end_value (FObject ((k, x) :: acc) k :: st, EndValue) c; scan s r)).
  { intros c r' Hc. unfold quoted. rewrite <-!app_assoc. cbn [app]. erewrite scan_byte by done.
    rewrite <-!app_assoc. cbn [app]. rewrite scan_quoted by done. erewrite scan_byte by done.
    rewrite Hx; [done|simpl; lia|done]. }
  destruct l as [|y l]; cbn [fmap list_fmap commas fst snd].
  - rewrite Hmember by (unfold delimiter; set_solver). simpl. by rewrite reverse_cons.
  - rewrite <-app_assoc. cbn [app]. rewrite Hmember by (unfold delimiter; set_solver).
    replace (end_value (FObject ((k, x) :: acc) k :: st, EndValue) 44)
      with (Some (FObject ((k, x) :: acc) k :: st, BeginString)) by done.
    cbn [mbind option_bind]. cbn [fmap list_fmap] in IH. rewrite IH by done. by rewrite reverse_cons, <-app_assoc.
Qed.

(** The first byte of a printed value is neither a space nor a bracket that
    closes. *)
Lemma begin_or_empty d x st r : printable d x →
  scan (st, BeginValueOrEmpty) (print x ++ r) = scan (st, BeginValue) (print x ++ r).
Proof.
  assert (Hgo : ∀ c t, is_space c = false → c ≠ 93 → scan (st, BeginValueOrEmpty) (c :: t) = scan (st, BeginValue) (c :: t)).
  { intros c t Hs Hc. cbn [scan step]. by rewrite Hs, decide_False by done. }
  intros Hp. destruct x as [|[]|lit|s|l|ms]; cbn [print app]; try (by apply Hgo).
  destruct lit as [|c lit]; [done|]. simpl in Hp. cbn [app].
  unfold num_start, num_step, between in Hp.
  assert (45 <= c <= 57).
  { destruct (decide (c = 45)); [lia|]. destruct (decide (c = 48)); [lia|]. destruct (bool_decide_reflect (49 <= c <= 57)); [lia|done]. }
  apply Hgo; [unfold is_space; apply bool_decide_false|]; lia.
Qed.

Lemma scan_print j d : printable d j → scans_back d j.
Proof.
  revert d. induction j as [|b|lit|s|l IH|ms IH] using json_induction; intros d Hp st c r Hd Hc.
  - simpl. by rewrite step_finish.
  - destruct b; simpl; by rewrite step_finish.
  - destruct lit as [|x lit]; [done|]. simpl in Hp. destruct (num_start x) as [n|] eqn:E; [|done]. cbn [mbind option_bind] in Hp.
    destruct (num_run n lit) as [n'|] eqn:E'; [|done]. cbn [print app scan step].
    assert (Hb : begin_value st x = Some (st, InNumber n [x])).
    { unfold num_start, num_step, between in E. unfold begin_value, is_space.
      assert (45 <= x <= 57).
      { destruct (decide (x = 45)); [lia|]. destruct (decide (x = 48)); [lia|]. destruct (bool_decide_reflect (49 <= x <= 57)); [lia|done]. }
      rewrite bool_decide_false by lia. rewrite !decide_False by lia. unfold num_start, num_step, between. by rewrite E. }
    rewrite Hb. cbn [mbind option_bind]. by eapply scan_num.
  - cbn [print]. unfold quoted. cbn [app]. erewrite scan_byte by done. rewrite <-app_assoc. cbn [app].
    rewrite scan_quoted by done. cbn [scan]. by rewrite step_finish.
  - apply printable_array in Hp as [Hd0 Hp]. cbn [print app].
    rewrite (scan_byte _ (FArray [] :: st, BeginValueOrEmpty)) by (apply push_ok; lia).
    rewrite <-app_assoc. cbn [app]. destruct l as [|x l].
    + simpl. by rewrite step_finish.
    + assert (Hall : Forall (scans_back (d - 1)) (x :: l)).
      { rewrite Forall_forall in *. intros y Hy. by apply IH, Hp. }
      assert (Hfirst : ∀ t, scan (FArray [] :: st, BeginValueOrEmpty) (commas (print <$> x :: l) ++ t) =
                            scan (FArray [] :: st, BeginValue) (commas (print <$> x :: l) ++ t)).
      { apply Forall_cons in Hp as [Hx _]. intros t. cbn [fmap list_fmap commas].
        destruct (print <$> l); rewrite <-?app_assoc; by apply (begin_or_empty (d - 1)). }
      rewrite Hfirst, (scan_elements (d - 1)) by (done || lia). cbn [scan]. by rewrite step_finish.
  - apply printable_object in Hp as [Hd0 Hp]. cbn [print app].
    rewrite (scan_byte _ (FObject [] [] :: st, BeginStringOrEmpty)) by (apply push_ok; lia).
    rewrite <-app_assoc. cbn [app]. destruct ms as [|x l].
    + simpl. by rewrite step_finish.
    + assert (Hall : Forall (λ m, utf8 m.1 ∧ scans_back (d - 1) m.2) (x :: l)).
      { rewrite Forall_forall in *. intros y Hy. split; [by apply Hp|]. by apply IH, Hp. }
      assert (Hfirst : ∀ t, scan (FObject [] [] :: st, BeginStringOrEmpty) (commas ((λ m, quoted m.1 ++ 58 :: print m.2) <$> x :: l) ++ t) =
                            scan (FObject [] [] :: st, BeginString) (commas ((λ m, quoted m.1 ++ 58 :: print m.2) <$> x :: l) ++ t)).
      { intros t. cbn [fmap list_fmap commas]. by destruct (_ <$> l). }
      rewrite Hfirst, (scan_members (d - 1)) by (done || lia). cbn [scan]. by rewrite step_finish.
Qed.

Lemma parse_print j : printable maxNestingDepth j → parse (print j) = Some j.
Proof.
  intros Hp. pose proof (scan_print j _ Hp [] 32 []) as H.
  rewrite scan_app in H. unfold parse. destruct (scan ([], BeginValue) (print j)) as [s|] eqn:E; cbn [mbind option_bind] in *.
  - cbn [scan] in H. destruct (step s 32) as [[st m]|]; cbn [mbind option_bind] in H;
      specialize (H ltac:(simpl; lia) ltac:(unfold delimiter; set_solver)); by simplify_eq/=.
  - specialize (H ltac:(simpl; lia) ltac:(unfold delimiter; set_solver)). by simplify_eq/=.
Qed.
