(* ===== verification/Codec.v ===== *)
(** * Codec: how Go values are marshalled to JSON and stored from it

    [json.Marshal] and [json.Unmarshal] on the types the program encodes:
    integers, identifiers (google/uuid's text methods are a class), structs,
    slices and maps.  [Unmarshal] stores into an existing variable: an error
    may leave it partly written, and a map keeps the entries it had. *)
From S2P Require Import Prelude Types GoNet Json.

(** ** Storing a value into a Go variable (decode.go)

    An error is saved and decoding goes on ([saveError] keeps the first), or it
    ends the decoding at once, leaving what was stored so far. *)
Record stored (T : Type) := { val : T; saved : option error; failed : option error }.
Arguments val {T}.
Arguments saved {T}.
Arguments failed {T}.

Definition SyntaxError := Foreign (-1).
Definition UnmarshalTypeError := Foreign (-2).

Definition ok {T} (v : T) : stored T := {| val := v; saved := None; failed := None |}.
(** The JSON value does not fit the Go type: the variable is left alone. *)
Definition mismatch {T} (v : T) : stored T := {| val := v; saved := Some UnmarshalTypeError; failed := None |}.
Definition abort {T} (v : T) (err : error) : stored T := {| val := v; saved := None; failed := Some err |}.

(** Goes on with [k], giving its value to [f], unless decoding has ended. *)
Definition chain {A B} (o : stored A) (g : A → B) (k : A → stored B) : stored B :=
  match failed o with
  | Some err => {| val := g (val o); saved := saved o; failed := Some err |}
  | None => let o' := k (val o) in
            {| val := val o'; saved := match saved o with Some e => Some e | None => saved o' end; failed := failed o' |}
  end.

(** How the values of a type are written and stored. *)
Record codec (T : Type) := { zero : T; to_json : T → json; store : json → T → stored T }.
Arguments zero {T}.
Arguments to_json {T}.
Arguments store {T}.

Definition Marshal {T} (c : codec T) (v : T) : list Z := print (to_json c v).
Definition Unmarshal {T} (c : codec T) (data : list Z) (v : T) : T * option error :=
  match parse data with
  | None => (v, Some SyntaxError)
  | Some j => let o := store c j v in (val o, match failed o with Some e => Some e | None => saved o end)
  end.

(** [int64]: [strconv.ParseInt(lit, 10, 64)]. *)
Definition ParseInt64 (lit : list Z) : option Z :=
  v ← match lit with
      | c :: ds => if decide (c = ch_dash) then Z.opp <$> atoi_digits ds 0 else atoi_digits lit 0
      | [] => None
      end;
  if decide (min_i64 <= v <= max_i64) then Some v else None.
Definition int64_codec : codec Z := {|
  zero := 0;
  to_json z := JNumber (itoa z);
  store j z := match j with
               | JNumber lit => match ParseInt64 lit with Some n => ok n | None => mismatch z end
               | JNull => ok z
               | _ => mismatch z
               end
|}.

(** [struct{}]: the members of an object are skipped. *)
Definition unit_codec : codec unit := {|
  zero := tt;
  to_json _ := JObject [];
  store j _ := match j with JObject _ | JNull => ok tt | _ => mismatch tt end
|}.

(** A type with [MarshalText] and [UnmarshalText] methods. *)
Record text (T : Type) := { text_zero : T; marshal_text : T → list Z; unmarshal_text : list Z → T + error }.
Arguments text_zero {T}.
Arguments marshal_text {T}.
Arguments unmarshal_text {T}.

Definition text_codec {T} (t : text T) : codec T := {|
  zero := text_zero t;
  to_json v := JString (marshal_text t v);
  store j v := match j with
               | JString s => match unmarshal_text t s with inl v' => ok v' | inr err => abort v err end
               | JNull => ok v
               | _ => mismatch v
               end
|}.

(** A slice, [None] when it is nil.  An array is decoded into the cells of the
    backing array, [spare] those past the length, then zero values. *)
Section slices.
Context {T : Type} (c : codec T).

Fixpoint store_elems (l : list json) (cells : list T) (live : nat) : stored (list T) :=
  match l with
  | [] => ok []
  | j :: l =>
      let o := store c j (default (zero c) (head cells)) in
      match failed o with
      | Some err => {| val := val o :: take (live - 1) (tail cells); saved := saved o; failed := Some err |}
      | None => let o' := store_elems l (tail cells) (live - 1) in
                {| val := val o :: val o'; saved := match saved o with Some e => Some e | None => saved o' end;
                   failed := failed o' |}
      end
  end.

Definition slice_codec (spare : list T) : codec (option (list T)) := {|
  zero := None;
  to_json s := match s with None => JNull | Some l => JArray (to_json c <$> l) end;
  store j s := match j with
               | JArray l => let old := default [] s in
                             let o := store_elems l (old ++ spare) (length old) in
                             {| val := Some (val o); saved := saved o; failed := failed o |}
               | JNull => ok None
               | _ => mismatch s
               end
|}.
End slices.

(** A map with text keys, [None] when it is nil.  Its members are written in
    the order of their keys, [order] being the order the map is ranged over; an
    object is stored member by member into the map that is there. *)
Fixpoint lex_leb (a b : list Z) : bool :=
  match a, b with
  | [], _ => true
  | _ :: _, [] => false
  | x :: a, y :: b => bool_decide (x < y) || (bool_decide (x = y) && lex_leb a b)
  end.
Definition key_le (x y : list Z * json) : Prop := lex_leb x.1 y.1 = true.
#[export] Instance key_le_dec x y : Decision (key_le x y).
Proof. unfold key_le. apply _. Defined.

Section maps.
Context {K V : Type} `{Countable K} (order : gmap K V → list (K * V)) (t : text K) (c : codec V).

Definition store_member (m : gmap K V) (x : list Z * json) : stored (gmap K V) :=
  chain (store c x.2 (zero c)) (λ _, m) (λ v,
    match unmarshal_text t x.1 with inl k => ok (<[k := v]> m) | inr err => abort m err end).
Fixpoint store_members (ms : list (list Z * json)) (m : gmap K V) : stored (gmap K V) :=
  match ms with
  | [] => ok m
  | x :: ms => chain (store_member m x) id (store_members ms)
  end.

Definition map_codec : codec (option (gmap K V)) := {|
  zero := None;
  to_json m := match m with
               | None => JNull
               | Some m => JObject (merge_sort key_le ((λ x, (marshal_text t x.1, to_json c x.2)) <$> order m))
               end;
  store j m := match j with
               | JObject ms => let o := store_members ms (default ∅ m) in
                               {| val := Some (val o); saved := saved o; failed := failed o |}
               | JNull => ok None
               | _ => mismatch m
               end
|}.
End maps.

(** A struct.  A member goes to the field of its name, else to the first field
    whose name it matches when case is folded; others are skipped. *)
Fixpoint foldName (s : list Z) : list Z :=
  match s with
  | [] => []
  | c :: r =>
      if between 97 c 122 then c - 32 :: foldName r
      else match r with
           | c1 :: r1 =>
               if decide (c = 197 ∧ c1 = 191) then 83 :: foldName r1          (* long s *)
               else match r1 with
                    | c2 :: r2 => if decide (c = 226 ∧ c1 = 132 ∧ c2 = 170) then 75 :: foldName r2  (* Kelvin *)
                                  else c :: foldName r
                    | [] => c :: foldName r
                    end
           | [] => c :: foldName r
           end
  end.

Section structs.
Context {T : Type}.

Record field := { field_name : list Z; field_store : json → T → stored T }.
Definition field_of {F} (name : string) (c : codec F) (get : T → F) (set : T → F → T) : field := {|
  field_name := bytes name;
  field_store j v := let o := store c j (get v) in {| val := set v (val o); saved := saved o; failed := failed o |}
|}.

Definition find_field (fs : list field) (key : list Z) : option field :=
  match List.find (λ f, bool_decide (field_name f = key)) fs with
  | Some f => Some f
  | None => List.find (λ f, bool_decide (foldName (field_name f) = foldName key)) fs
  end.
Fixpoint store_fields (fs : list field) (ms : list (list Z * json)) (v : T) : stored T :=
  match ms with
  | [] => ok v
  | (k, j) :: ms =>
      chain (match find_field fs k with Some f => field_store f j v | None => ok v end) id (store_fields fs ms)
  end.
Definition struct_store (fs : list field) (j : json) (v : T) : stored T :=
  match j with JObject ms => store_fields fs ms v | JNull => ok v | _ => mismatch v end.
End structs.
Arguments field : clear implicits.

(** *** github.com/google/uuid *)

(** The text of an identifier is plain ASCII and parses back to it. *)
Class UuidText := {
  uuid_MarshalText : uuid → list Z;
  uuid_UnmarshalText : list Z → uuid + error;
  uuid_text_ascii : ∀ u, is_uuid u → Forall (λ b, 0 <= b < 128) (uuid_MarshalText u);
  uuid_text_back : ∀ u, is_uuid u → uuid_UnmarshalText (uuid_MarshalText u) = inl u
}.

Definition uuid_text `{!UuidText} : text uuid :=
  {| text_zero := replicate 16 0; marshal_text := uuid_MarshalText; unmarshal_text := uuid_UnmarshalText |}.
Definition uuid_codec `{!UuidText} : codec uuid := text_codec uuid_text.

(** *** types.Assignment *)

Definition assignment_fields `{!UuidText} : list (field Assignment) := [
  field_of "BackendId" uuid_codec BackendId (λ a u, {| BackendId := u; SessionId := SessionId a |});
  field_of "SessionId" uuid_codec SessionId (λ a u, {| BackendId := BackendId a; SessionId := u |})
].
Definition assignment_codec `{!UuidText} : codec Assignment := {|
  zero := {| BackendId := replicate 16 0; SessionId := replicate 16 0 |};
  to_json a := JObject [(bytes "BackendId", to_json uuid_codec (BackendId a));
                        (bytes "SessionId", to_json uuid_codec (SessionId a))];
  store := struct_store assignment_fields
|}.

(** The canonical form, 8-4-4-4-12 hexadecimal digits. *)
Definition hex_bytes (l : list Z) : list Z := l ≫= λ b, [hex_digit (b `div` 16); hex_digit (b `mod` 16)].
Fixpoint unhex (s : list Z) : option (list Z) :=
  match s with
  | [] => Some []
  | h :: l :: s => h ← hex_val h; l ← hex_val l; s ← unhex s; Some (h * 16 + l :: s)
  | [_] => None
  end.
Definition hex_text (u : uuid) : list Z :=
  hex_bytes (take 4 u) ++ ch_dash :: hex_bytes (take 2 (drop 4 u)) ++ ch_dash :: hex_bytes (take 2 (drop 6 u)) ++
  ch_dash :: hex_bytes (take 2 (drop 8 u)) ++ ch_dash :: hex_bytes (drop 10 u).
Definition parse_hex (s : list Z) : uuid + error :=
  match unhex (filter (λ c, c ≠ ch_dash) s) with
  | Some u => if decide (length u = 16%nat) then inl u else inr (Sentinel "invalid UUID length")
  | None => inr (Sentinel "invalid UUID format")
  end.

(** * Lemmas *)

Lemma hex_bytes_app a b : hex_bytes (a ++ b) = hex_bytes a ++ hex_bytes b.
Proof. apply bind_app. Qed.
Lemma hex_digit_val x : 0 <= x < 16 → hex_val (hex_digit x) = Some x ∧ 48 <= hex_digit x < 128.
Proof.
  intros Hx. assert (Hc : x ∈ seqZ 0 16) by (apply elem_of_seqZ; lia). revert x Hc Hx.
  apply (Forall_forall (λ x, 0 <= x < 16 → hex_val (hex_digit x) = Some x ∧ 48 <= hex_digit x < 128)).
  cbv [seqZ]. repeat constructor; try done; intros; split; done.
Qed.
Lemma hex_bytes_ok l : Forall is_byte l → unhex (hex_bytes l) = Some l ∧ Forall (λ c, 48 <= c < 128) (hex_bytes l).
Proof.
  induction 1 as [|b l Hb _ [IH IHd]]; [done|]. unfold is_byte in Hb.
  destruct (hex_digit_val (b `div` 16)) as [H1 R1]; [Z.div_mod_to_equations; lia|].
  destruct (hex_digit_val (b `mod` 16)) as [H2 R2]; [Z.div_mod_to_equations; lia|].
  change (hex_bytes (b :: l)) with (hex_digit (b `div` 16) :: hex_digit (b `mod` 16) :: hex_bytes l). split.
  - cbn [unhex]. rewrite H1, H2. cbn [mbind option_bind]. rewrite IH. cbn [mbind option_bind]. do 2 f_equal. Z.div_mod_to_equations; lia.
  - by do 2 (apply Forall_cons_2; [done|]).
Qed.
Lemma filter_hex l : Forall is_byte l → filter (λ c, c ≠ ch_dash) (hex_bytes l) = hex_bytes l.
Proof.
  intros Hl. apply hex_bytes_ok in Hl as [_ Hl]. induction Hl as [|c s Hc _ IH]; [done|].
  rewrite filter_cons_True by (unfold ch_dash; lia). by rewrite IH.
Qed.
Lemma hex_text_ascii u : is_uuid u → Forall (λ b, 0 <= b < 128) (hex_text u).
Proof.
  intros [_ Hu]. unfold hex_text, ch_dash.
  assert (Hh : ∀ l, Forall is_byte l → Forall (λ b, 0 <= b < 128) (hex_bytes l)).
  { intros l Hl. apply hex_bytes_ok in Hl as [_ Hl]. eapply Forall_impl; [exact Hl|]. intros; simpl in *; lia. }
  repeat first [apply Forall_app_2|apply Forall_cons_2; [lia|]]; apply Hh; try apply Forall_take; try apply Forall_drop; done.
Qed.
Lemma hex_text_back u : is_uuid u → parse_hex (hex_text u) = inl u.
Proof.
  intros [Hl Hu]. unfold parse_hex.
  assert (Hf : filter (λ c, c ≠ ch_dash) (hex_text u) = hex_bytes u).
  { unfold hex_text. repeat (rewrite filter_app, filter_hex by (try apply Forall_take; try apply Forall_drop; done);
      rewrite filter_cons_False by (by intros H; apply H)).
    rewrite filter_hex by (by apply Forall_drop). rewrite <-!hex_bytes_app. f_equal.
    do 16 (destruct u as [|? u]; [done|]). by destruct u. }
  rewrite Hf. destruct (hex_bytes_ok u Hu) as [-> _]. by rewrite decide_True.
Qed.
Definition hex_uuid : UuidText :=
  {| uuid_MarshalText := hex_text; uuid_UnmarshalText := parse_hex; uuid_text_ascii := hex_text_ascii;
     uuid_text_back := hex_text_back |}.

(** ** Codecs that read back what they write *)

(** For the values [valid] holds of: the text is printable with [d] levels of
    nesting, and storing it overwrites any value with the one written. *)
Record overwrites {T} (c : codec T) (valid : T → Prop) (d : Z) : Prop := {
  ow_print : ∀ v, valid v → printable d (to_json c v);
  ow_store : ∀ v v0, valid v → store c (to_json c v) v0 = ok v
}.

Lemma printable_mono d d' j : d <= d' → printable d j → printable d' j.
Proof.
  revert d d'. induction j as [|b|lit|s|l IH|ms IH] using json_induction; intros d d' Hd; [done..| |].
  - rewrite !printable_array. intros [Hp Hl]. split; [lia|]. rewrite Forall_forall in *.
    intros x Hx. apply (IH x Hx (d - 1)); [lia|auto].
  - rewrite !printable_object. intros [Hp Hl]. split; [lia|]. rewrite Forall_forall in *.
    intros x Hx. destruct (Hl x Hx). split; [done|]. apply (IH x Hx (d - 1)); [lia|auto].
Qed.

(** What was marshalled unmarshals to the same value, into any variable. *)
Lemma Unmarshal_Marshal {T} (c : codec T) valid d v v0 :
  overwrites c valid d → d <= maxNestingDepth → valid v → Unmarshal c (Marshal c v) v0 = (v, None).
Proof.
  intros [Hp Hs] Hd Hv. unfold Unmarshal, Marshal.
  rewrite parse_print by (eapply printable_mono; [exact Hd|by apply Hp]). by rewrite Hs.
Qed.

Lemma utf8_ascii s : Forall (λ b, 0 <= b < 128) s → utf8 s.
Proof. induction 1; by constructor. Qed.

(** *** Integers *)

Lemma num_run_digits ds n : Forall (λ c, is_digit c = true) ds → n = N1 → num_run n ds = Some N1.
Proof. intros Hd ->. induction Hd as [|c ds Hc _ IH]; [done|]. cbn [num_run num_step]. by rewrite Hc. Qed.
Lemma decimal_digits_digits n x acc :
  0 <= x → Forall (λ c, is_digit c = true) acc → Forall (λ c, is_digit c = true) (decimal_digits n x acc).
Proof.
  revert x acc. induction n as [|n IH]; intros x acc Hx Hacc; [done|]. cbn [decimal_digits].
  assert (Forall (λ c, is_digit c = true) ((48 + x `mod` 10) :: acc)).
  { constructor; [|done]. unfold is_digit. apply bool_decide_true. Z.div_mod_to_equations; lia. }
  destruct (decide (x < 10)); [done|]. apply IH; [Z.div_mod_to_equations; lia|done].
Qed.
(** No leading zero. *)
Lemma decimal_digits_lead n x acc :
  0 < x < 10 ^ Z.of_nat n → ∃ c ds, decimal_digits n x acc = c :: ds ∧ 49 <= c <= 57.
Proof.
  revert x acc. induction n as [|n IH]; intros x acc Hx; [simpl in *; lia|]. cbn [decimal_digits].
  destruct (decide (x < 10)).
  - eexists _, _. split; [done|]. rewrite Z.mod_small by lia. lia.
  - apply IH. rewrite Nat2Z.inj_succ, Z.pow_succ_r in Hx by lia. Z.div_mod_to_equations; lia.
Qed.

Lemma decimal_literal x : 0 < x < 10 ^ 20 →
  ∃ c ds, decimal_digits 20 x [] = c :: ds ∧ num_step NNeg c = Some N1 ∧ num_run N1 ds = Some N1 ∧ c ≠ 45.
Proof.
  intros Hx. destruct (decimal_digits_lead 20 x [] ltac:(lia)) as (c & ds & E & Hc).
  pose proof (decimal_digits_digits 20 x [] ltac:(lia) ltac:(constructor)) as Hds. rewrite E in Hds. apply Forall_cons in Hds as [_ Hds].
  exists c, ds. split_and!; [done| |by apply num_run_digits|lia].
  unfold num_step, between. rewrite decide_False by lia. by rewrite bool_decide_true.
Qed.
Lemma itoa_literal z : is_i64 z → number_literal (itoa z) = true.
Proof.
  unfold is_i64, min_i64, max_i64. intros Hz. unfold itoa. case_decide.
  - destruct (decimal_literal (- z) ltac:(lia)) as (c & ds & -> & Hc & Hds & _). cbn [number_literal].
    unfold num_start. rewrite decide_True by done. cbn [mbind option_bind num_run]. rewrite Hc. cbn [mbind option_bind].
    by rewrite Hds.
  - destruct (decide (z = 0)) as [->|Hne]; [done|].
    destruct (decimal_literal z ltac:(lia)) as (c & ds & -> & Hc & Hds & H45). cbn [number_literal].
    unfold num_start. rewrite decide_False, Hc by done. cbn [mbind option_bind]. by rewrite Hds.
Qed.
Lemma ParseInt64_itoa z : is_i64 z → ParseInt64 (itoa z) = Some z.
Proof.
  unfold is_i64. intros Hz. assert (Hz' := Hz). unfold min_i64, max_i64 in Hz'.
  unfold ParseInt64, itoa. case_decide.
  - rewrite decide_True, atoi_decimal by (done || lia). simpl. rewrite Z.opp_involutive. by rewrite decide_True.
  - destruct (decimal_digits_head 20 z [] ltac:(lia) ltac:(lia)) as (c & ds & Hd & Hc). rewrite Hd.
    unfold ch_dash. rewrite decide_False by lia. rewrite <-Hd, atoi_decimal by lia. simpl. by rewrite decide_True.
Qed.
Lemma int64_overwrites : overwrites int64_codec is_i64 0.
Proof. split; intros z; [apply itoa_literal|]. intros z0 Hz. simpl. by rewrite ParseInt64_itoa. Qed.

Lemma unit_overwrites : overwrites unit_codec (λ _, True) 1.
Proof. split; [simpl; lia|]. by intros [] []. Qed.

(** *** Text, slices *)

(** The texts of the values [valid] holds of parse back. *)
Record text_ok {T} (t : text T) (valid : T → Prop) : Prop := {
  to_utf8 : ∀ v, valid v → utf8 (marshal_text t v);
  to_back : ∀ v, valid v → unmarshal_text t (marshal_text t v) = inl v
}.
Lemma text_overwrites {T} (t : text T) valid : text_ok t valid → overwrites (text_codec t) valid 0.
Proof. intros [Hu Hb]. split; intros v; simpl; [apply Hu|]. intros v0 Hv. by rewrite Hb. Qed.
Lemma uuid_text_ok `{!UuidText} : text_ok uuid_text is_uuid.
Proof. split; intros u Hu; [by apply utf8_ascii, uuid_text_ascii|by apply uuid_text_back]. Qed.

Definition opt_valid {A} (P : A → Prop) (o : option A) : Prop := match o with Some a => P a | None => True end.

Lemma slice_overwrites {T} (c : codec T) valid d spare :
  0 <= d → overwrites c valid d → overwrites (slice_codec c spare) (opt_valid (Forall valid)) (d + 1).
Proof.
  intros Hd [Hp Hs]. split.
  - intros [l|] Hl; [|done]. apply printable_array. split; [lia|]. replace (d + 1 - 1) with d by lia.
    apply Forall_fmap. eapply Forall_impl; [exact Hl|]. intros x Hx. by apply Hp.
  - intros [l|] s0 Hl; [|done]. simpl.
    assert (Hrun : ∀ cells live, store_elems c (to_json c <$> l) cells live = ok l).
    { induction Hl as [|x l Hx _ IH]; intros cells live; [done|]. cbn [fmap list_fmap store_elems].
      rewrite Hs by done. simpl. cbn [fmap] in IH. by rewrite IH. }
    by rewrite Hrun.
Qed.

(** *** Maps *)

Lemma lex_refl a : lex_leb a a = true.
Proof. induction a as [|x a IH]; [done|]. simpl. rewrite (bool_decide_true (x = x)) by done. rewrite IH. by rewrite orb_true_r. Qed.
Lemma lex_total a b : lex_leb a b = true ∨ lex_leb b a = true.
Proof.
  revert b. induction a as [|x a IH]; intros [|y b]; simpl; auto.
  rewrite !orb_true_iff, !andb_true_iff, !bool_decide_eq_true. destruct (IH b); destruct (decide (x = y)); lia || auto 6.
Qed.
Lemma lex_trans a b c : lex_leb a b = true → lex_leb b c = true → lex_leb a c = true.
Proof.
  revert b c. induction a as [|x a IH]; intros [|y b] [|z c]; simpl; try done.
  rewrite !orb_true_iff, !andb_true_iff, !bool_decide_eq_true.
  intros [?|[-> Hab]] [?|[-> Hbc]]; [left; lia|left; lia|left; lia|right]. split; [done|]. by eapply IH.
Qed.
Lemma lex_antisym a b : lex_leb a b = true → lex_leb b a = true → a = b.
Proof.
  revert b. induction a as [|x a IH]; intros [|y b]; simpl; try done.
  rewrite !orb_true_iff, !andb_true_iff, !bool_decide_eq_true. intros [?|[-> Hab]] [?|[? Hba]]; try lia. f_equal. auto.
Qed.
#[export] Instance key_le_total : Total key_le.
Proof. intros x y. apply lex_total. Qed.
#[export] Instance key_le_trans : Transitive key_le.
Proof. intros x y z. apply lex_trans. Qed.

Section map_laws.
Context {K V : Type} `{Countable K} (order : gmap K V → list (K * V)) (t : text K) (c : codec V).
Context (validK : K → Prop) (validV : V → Prop) (d : Z).
Context (Horder : ∀ m, order m ≡ₚ map_to_list m) (Ht : text_ok t validK) (Hc : overwrites c validV d).

Abbreviation enc := (λ x : K * V, (marshal_text t x.1, to_json c x.2)).
Definition map_valid (m : gmap K V) : Prop := map_Forall (λ k v, validK k ∧ validV v) m.

Lemma map_valid_list m : map_valid m → Forall (λ x, validK x.1 ∧ validV x.2) (map_to_list m).
Proof. intros Hm. apply map_Forall_to_list in Hm. eapply Forall_impl; [exact Hm|]. by intros []. Qed.

Lemma foldl_insert (l : list (K * V)) (m0 : gmap K V) :
  NoDup l.*1 → foldl (λ m x, <[x.1 := x.2]> m) m0 l = list_to_map l ∪ m0.
Proof.
  revert m0. induction l as [|[k v] l IH]; intros m0 Hnd; simpl; [by rewrite (left_id ∅ (∪))|].
  apply NoDup_cons in Hnd as [Hk Hnd]. rewrite IH by done.
  rewrite <-insert_union_r by (by apply not_elem_of_list_to_map_1). by rewrite insert_union_l.
Qed.
Lemma store_members_run l m0 :
  Forall (λ x, validK x.1 ∧ validV x.2) l →
  store_members t c (enc <$> l) m0 = ok (foldl (λ m x, <[x.1 := x.2]> m) m0 l).
Proof using Ht Hc.
  intros Hl. revert m0. induction Hl as [|[k v] l [Hk Hv] _ IH]; intros m0; [done|].
  cbn [fmap list_fmap store_members foldl fst snd]. unfold store_member; simpl.
  rewrite (ow_store _ _ _ Hc) by done. unfold chain at 2; simpl. rewrite (to_back _ _ Ht) by done.
  unfold chain; simpl. cbn [fmap] in IH. unfold id. by rewrite IH.
Qed.

(** The sorted members are those of the map in some order. *)
Lemma sorted_members m : ∃ l, merge_sort key_le (enc <$> order m) = enc <$> l ∧ l ≡ₚ map_to_list m.
Proof using Horder.
  destruct (Permutation_map_inv enc (l1 := merge_sort key_le (enc <$> order m)) (order m)) as (l & Hl & Hp).
  { by rewrite merge_sort_Permutation. }
  exists l. split; [exact Hl|]. rewrite <-(Horder m). by symmetry.
Qed.

(** A map is stored into the one that is there: its entries win, the others
    stay. *)
Lemma map_store m m0 : map_valid m →
  store (map_codec order t c) (to_json (map_codec order t c) (Some m)) m0 = ok (Some (m ∪ default ∅ m0)).
Proof using Horder Ht Hc.
  intros Hm. destruct (sorted_members m) as (l & Hl & Hp). simpl. rewrite Hl, store_members_run.
  - simpl. unfold ok. repeat f_equal. rewrite foldl_insert.
    + f_equal. rewrite <-(list_to_map_to_list m). apply list_to_map_proper; [|done].
      rewrite Hp. apply NoDup_fst_map_to_list.
    + rewrite Hp. apply NoDup_fst_map_to_list.
  - rewrite Hp. by apply map_valid_list.
Qed.
Lemma map_printable m : 0 <= d → map_valid m → printable (d + 1) (to_json (map_codec order t c) (Some m)).
Proof using Horder Ht Hc.
  intros Hd Hm. destruct (sorted_members m) as (l & Hl & Hp). cbn [to_json map_codec]. rewrite Hl. apply printable_object.
  split; [lia|]. replace (d + 1 - 1) with d by lia. apply Forall_fmap.
  apply map_valid_list in Hm. rewrite <-Hp in Hm. eapply Forall_impl; [exact Hm|].
  intros [k v] [Hk Hv]. simpl. split; [by apply (to_utf8 _ _ Ht)|by apply (ow_print _ _ _ Hc)].
Qed.

(** The text does not depend on the order the map is ranged over. *)
Lemma map_order order' m : map_valid m → (∀ m, order' m ≡ₚ map_to_list m) →
  to_json (map_codec order t c) (Some m) = to_json (map_codec order' t c) (Some m).
Proof using Horder Ht.
  intros Hm Horder'. cbn [to_json map_codec]. f_equal.
  apply (StronglySorted_unique_strong key_le).
  - intros x y Hx Hy Hxy Hyx. pose proof (lex_antisym _ _ Hxy Hyx) as Hkey.
    rewrite merge_sort_Permutation in Hx, Hy. apply list_elem_of_fmap in Hx as ([k v] & -> & Hx).
    apply list_elem_of_fmap in Hy as ([k' v'] & -> & Hy). rewrite Horder in Hx. rewrite Horder' in Hy.
    apply elem_of_map_to_list in Hx, Hy. simpl in *.
    assert (k = k') as <-.
    { destruct (Hm _ _ Hx) as [Hk _], (Hm _ _ Hy) as [Hk' _].
      pose proof (to_back _ _ Ht k Hk) as E. rewrite Hkey, (to_back _ _ Ht) in E by done. by injection E. }
    by simplify_eq.
  - apply (StronglySorted_merge_sort key_le).
  - apply (StronglySorted_merge_sort key_le).
  - by rewrite !merge_sort_Permutation, Horder, Horder'.
Qed.
End map_laws.

(** *** Assignments *)

Definition assignment_valid (a : Assignment) : Prop := is_uuid (BackendId a) ∧ is_uuid (SessionId a).
Lemma assignment_overwrites `{!UuidText} : overwrites assignment_codec assignment_valid 1.
Proof.
  split.
  - intros a [Hb Hs]. apply printable_object. split; [lia|].
    apply Forall_cons; split; [|apply Forall_singleton]; (split; [|by apply utf8_ascii, uuid_text_ascii]);
      apply utf8_ascii; cbv; repeat (apply List.Forall_cons; [split; [discriminate|reflexivity]|]); apply List.Forall_nil.
  - intros [b s] [b0 s0] [Hb Hs]. simpl in *. unfold find_field; simpl. unfold id; simpl.
    by rewrite uuid_text_back, uuid_text_back by done.
Qed.
