(* ===== verification/WatcherMux.v ===== *)
(** * WatcherMux: internal/util/watchermux.go and internal/util/util.go

    A [watcher] is shared by the multiplexer's map, by the cancel closure
    returned from [Watch] and by the list a dispatch works on, so watchers
    live in a heap indexed by their id and are passed by id.  A channel is its
    buffer, the items its reader already took and whether it is closed. *)
From S2P Require Import Prelude Types.

Section mux.
Context {T : Type}.

Record watcher := {
  buf : list T;                    (* buffered in w.ch *)
  got : list T;                    (* taken from w.ch by its reader *)
  chClosed : bool;
  wDoneClosed : bool;              (* w.doneCh *)
  wfilter : option (T → bool);     (* nil is NoFilter *)
  closeOnce : bool                 (* w.closeOnce has run *)
}.

Record WatcherMux := {
  heap : gmap Z watcher;           (* every watcher ever allocated *)
  watchers : gset Z;               (* the keys of wm.watchers *)
  watcherIdCount : Z;
  watcherChCapacity : Z;
  doneClosed : bool                (* wm.doneCh *)
}.

Definition NewWatcherMux (channelBufferSize : Z) : WatcherMux :=
  {| heap := ∅; watchers := ∅; watcherIdCount := 0; watcherChCapacity := channelBufferSize;
     doneClosed := false |}.

Definition set_watcher (wm : WatcherMux) (id : Z) (w : watcher) : WatcherMux :=
  {| heap := <[id := w]> (heap wm); watchers := watchers wm; watcherIdCount := watcherIdCount wm;
     watcherChCapacity := watcherChCapacity wm; doneClosed := doneClosed wm |}.

(** The pointer of a watcher is never nil in the code; an unknown id is. *)
Definition deref (wm : WatcherMux) (id : Z) : go watcher :=
  match heap wm !! id with Some w => Done w | None => Panic NilDereference end.

(** [Watch]: the id stands for the channel and for the cancel function. *)
Definition Watch (wm : WatcherMux) (filter : option (T → bool)) : go (WatcherMux * Z) :=
  if decide (watcherChCapacity wm < 0) then Panic MakeLength
  else
    let w := {| buf := []; got := []; chClosed := false; wDoneClosed := false;
                wfilter := filter; closeOnce := false |} in
    let id := watcherIdCount wm in
    Done ({| heap := <[id := w]> (heap wm); watchers := {[id]} ∪ watchers wm;
             watcherIdCount := i64 (id + 1); watcherChCapacity := watcherChCapacity wm;
             doneClosed := doneClosed wm |}, id).

(** [w.closeOnce.Do(func() { close(w.ch) })]. *)
Definition close_once (w : watcher) : go watcher :=
  if closeOnce w then Done w
  else if chClosed w then Panic CloseOfClosedChannel
  else Done {| buf := buf w; got := got w; chClosed := true; wDoneClosed := wDoneClosed w;
               wfilter := wfilter w; closeOnce := true |}.

(** The cancel function of watcher [id]. *)
Definition cancel (wm : WatcherMux) (id : Z) : go WatcherMux :=
  w ← deref wm id;
  if wDoneClosed w then Panic CloseOfClosedChannel
  else
    w ← close_once {| buf := buf w; got := got w; chClosed := chClosed w; wDoneClosed := true;
                      wfilter := wfilter w; closeOnce := closeOnce w |};
    Done {| heap := <[id := w]> (heap wm); watchers := watchers wm ∖ {[id]};
            watcherIdCount := watcherIdCount wm; watcherChCapacity := watcherChCapacity wm;
            doneClosed := doneClosed wm |}.

(** [getWatcherList]: the registered watchers, in the order [iter] in which
    the map is ranged over. *)
Definition getWatcherList (iter : gset Z → list Z) (wm : WatcherMux) : list Z := iter (watchers wm).

Definition Close (iter : gset Z → list Z) (wm : WatcherMux) : go WatcherMux :=
  wm ← foldM (λ wm id, w ← deref wm id; w ← close_once w; Done (set_watcher wm id w))
        (getWatcherList iter wm) wm;
  if doneClosed wm then Panic CloseOfClosedChannel
  else Done {| heap := heap wm; watchers := watchers wm; watcherIdCount := watcherIdCount wm;
               watcherChCapacity := watcherChCapacity wm; doneClosed := true |}.

(** ** Dispatch *)

(** [w.ch <- v] once the runtime chose it: a send on a closed channel panics. *)
Definition send (w : watcher) (v : T) : go watcher :=
  if chClosed w then Panic SendOnClosedChannel
  else Done {| buf := buf w ++ [v]; got := got w; chClosed := false; wDoneClosed := wDoneClosed w;
               wfilter := wfilter w; closeOnce := closeOnce w |}.

(** A send can be chosen when the buffer has room, or the channel is closed. *)
Definition send_ready (cap : Z) (w : watcher) : bool :=
  chClosed w || bool_decide (Z.of_nat (length (buf w)) < cap).

(** The reader takes one item of the buffer; [None] when there is nothing. *)
Definition take_one (w : watcher) : option watcher :=
  match buf w with
  | [] => None
  | x :: b => Some {| buf := b; got := got w ++ [x]; chClosed := chClosed w;
                      wDoneClosed := wDoneClosed w; wfilter := wfilter w; closeOnce := closeOnce w |}
  end.

Definition filtered_out (w : watcher) (v : T) : bool :=
  match wfilter w with Some f => negb (f v) | None => false end.

(** The [select] of [NonBlockingDispatchFunc].  When both [w.doneCh] and the
    send are ready the runtime picks one: [pick_done] is its choice. *)
Definition select_nonblocking (cap : Z) (pick_done : bool) (w : watcher) (v : T) : go watcher :=
  if filtered_out w v then Done w
  else if wDoneClosed w && (pick_done || negb (send_ready cap w)) then Done w
  else if send_ready cap w then send w v
  else Done w.

(** [dispatchOne]: when nothing is ready it waits for the timeout; [reads]
    says whether the reader receives during that time.  A waiting sender hands
    its item to the channel as soon as the reader took one (to the reader
    itself when the channel is unbuffered). *)
Definition dispatchOne (cap : Z) (pick_done reads : bool) (w : watcher) (v : T) : go watcher :=
  if filtered_out w v then Done w
  else if wDoneClosed w && (pick_done || negb (send_ready cap w)) then Done w
  else if send_ready cap w then send w v
  else if reads then w ← send w v; Done (default w (take_one w))
  else Done w.

(** A dispatch works on the list it obtained first, one watcher at a time. *)
Definition dispatch_list (one : watcher → T → go watcher) (l : list Z) (wm : WatcherMux) (v : T)
    : go WatcherMux :=
  foldM (λ wm id, w ← deref wm id; w ← one w v; Done (set_watcher wm id w)) l wm.

Definition NonBlockingDispatchFunc (iter : gset Z → list Z) (pick_done : bool) (wm : WatcherMux) (v : T)
    : go WatcherMux :=
  dispatch_list (select_nonblocking (watcherChCapacity wm) pick_done) (getWatcherList iter wm) wm v.

Definition DispatchFuncWithTimeout (iter : gset Z → list Z) (pick_done reads : bool) (wm : WatcherMux)
    (v : T) : go WatcherMux :=
  dispatch_list (dispatchOne (watcherChCapacity wm) pick_done reads) (getWatcherList iter wm) wm v.

(** [<-w.ch] by the reader: an item, the end of the channel, or waiting. *)
Definition recv (wm : WatcherMux) (id : Z) : go (WatcherMux * option T) :=
  w ← deref wm id;
  match buf w, take_one w with
  | x :: _, Some w' => Done (set_watcher wm id w', Some x)
  | _, _ => if chClosed w then Done (wm, None) else Blocked
  end.

(** ** Runs

    Goroutines interleave at the granularity of the multiplexer's critical
    sections and channel operations: a dispatch is the snapshot of the watcher
    list followed by one [Send] per watcher. *)
Inductive step : WatcherMux → WatcherMux → Prop :=
  | step_watch wm f wm' id : Watch wm f = Done (wm', id) → step wm wm'
  | step_cancel wm id wm' : cancel wm id = Done wm' → step wm wm'
  | step_send wm id w w' v p r :
      heap wm !! id = Some w → dispatchOne (watcherChCapacity wm) p r w v = Done w' →
      step wm (set_watcher wm id w')
  | step_send_nb wm id w w' v p :
      heap wm !! id = Some w → select_nonblocking (watcherChCapacity wm) p w v = Done w' →
      step wm (set_watcher wm id w')
  | step_recv wm id wm' o : recv wm id = Done (wm', o) → step wm wm'
  | step_close wm iter wm' :
      (∀ X, iter X ≡ₚ elements X) → Close iter wm = Done wm' → step wm wm'.

End mux.
Arguments watcher : clear implicits.
Arguments WatcherMux : clear implicits.

(** ** internal/util/util.go *)

(** A Go value boxed in [any]: the nil interface, or a value with its dynamic
    type, which may itself be a nil slice or map. *)
Inductive any :=
  | NilInterface
  | Boxed (dyntype : string) (nil_inside : bool).

Definition AnyPtrIsNil (pointers : list any) : bool :=
  existsb (λ p, match p with NilInterface => true | Boxed _ _ => false end) pointers.

Definition IgnoreErr {T} (data : T) (_ : option error) : T := data.

(** * Lemmas *)

Section proofs.
Context {T : Type}.
Implicit Types (w : watcher T) (wm : WatcherMux T) (v : T).

(** What holds of every watcher of the heap. *)
Record watcher_ok (cap : Z) w : Prop := {
  wo_once : chClosed w = closeOnce w;
  wo_cap : Z.of_nat (length (buf w)) <= cap;
  wo_done : wDoneClosed w = true → chClosed w = true
}.
Record mux_inv wm : Prop := {
  mi_cap : 0 <= watcherChCapacity wm;
  mi_dom : ∀ id, id ∈ watchers wm → is_Some (heap wm !! id);
  mi_watcher : map_Forall (λ _, watcher_ok (watcherChCapacity wm)) (heap wm);
  mi_live : ∀ id w, id ∈ watchers wm → heap wm !! id = Some w → wDoneClosed w = false
}.

Lemma close_once_ok cap w :
  watcher_ok cap w →
  returns (close_once w) (λ w', watcher_ok cap w' ∧ chClosed w' = true ∧ wDoneClosed w' = wDoneClosed w).
Proof.
  intros [Ho Hc Hd]. unfold close_once. rewrite <-Ho.
  destruct (chClosed w) eqn:E; apply returns_done; repeat split; simpl; naive_solver.
Qed.

Lemma set_watcher_inv wm id w w' :
  mux_inv wm → heap wm !! id = Some w → watcher_ok (watcherChCapacity wm) w' →
  wDoneClosed w' = wDoneClosed w → mux_inv (set_watcher wm id w').
Proof.
  intros [Hcap Hdom Hall Hlive] Hw Hw' Hd. split; simpl; [done| | |].
  - intros i Hi. rewrite lookup_insert_is_Some. destruct (decide (id = i)); [by left|right; eauto].
  - by apply map_Forall_insert_2.
  - intros i x Hi [[<- <-]|[? Hx]]%lookup_insert_Some; [rewrite Hd|]; eauto.
Qed.

Lemma dispatchOne_ok cap p r w v w' :
  0 <= cap → watcher_ok cap w → dispatchOne cap p r w v = Done w' →
  watcher_ok cap w' ∧ wDoneClosed w' = wDoneClosed w.
Proof.
  intros Hcap Hok. destruct Hok as [Ho Hc Hd]. unfold dispatchOne, send, send_ready.
  assert (watcher_ok cap w) by done.
  destruct (filtered_out w v); [by intros [= <-]|].
  destruct (wDoneClosed w && _); [by intros [= <-]|].
  destruct (chClosed w) eqn:Ecl; simpl; [done|].
  case_bool_decide as Hroom.
  - intros [= <-]. repeat split; simpl; [congruence|rewrite length_app; simpl; lia|naive_solver].
  - destruct r; [|by intros [= <-]]. intros [= <-]. unfold take_one; simpl.
    destruct (buf w) as [|x b] eqn:Eb; repeat split; simpl in *; try congruence; try naive_solver; try lia.
    rewrite length_app; simpl; lia.
Qed.
Lemma select_nonblocking_eq cap p w v : select_nonblocking cap p w v = dispatchOne cap p false w v.
Proof. done. Qed.
Lemma take_one_ok cap w w' :
  watcher_ok cap w → take_one w = Some w' → watcher_ok cap w' ∧ wDoneClosed w' = wDoneClosed w.
Proof.
  intros [Ho Hc Hd]. unfold take_one. destruct (buf w) as [|x b] eqn:Eb; [done|].
  intros [= <-]. repeat split; simpl in *; [done|lia|done].
Qed.

Lemma Watch_inv wm f wm' id : mux_inv wm → Watch wm f = Done (wm', id) → mux_inv wm'.
Proof.
  intros [Hcap Hdom Hall Hlive]. unfold Watch. rewrite decide_False by lia. intros [= <- <-].
  split; simpl; [done| | |].
  - intros i Hi. rewrite lookup_insert_is_Some'. set_unfold. naive_solver.
  - apply map_Forall_insert_2; [|done]. repeat split; simpl; [lia|done].
  - intros i x Hi [[<- <-]|[? Hx]]%lookup_insert_Some; [done|]. apply (Hlive i); [set_solver|done].
Qed.
Lemma cancel_run wm id w :
  mux_inv wm → heap wm !! id = Some w → wDoneClosed w = false →
  returns (cancel wm id) (λ wm', mux_inv wm' ∧ id ∉ watchers wm').
Proof.
  intros [Hcap Hdom Hall Hlive] Hw Hd. unfold cancel, deref. rewrite Hw. cbn [mbind go_bind].
  rewrite Hd. pose proof (Hall id w Hw) as [Ho Hc Hdn].
  set (w1 := {| buf := buf w |}).
  assert (Hw1 : returns (close_once w1) (watcher_ok (watcherChCapacity wm))).
  { unfold close_once; simpl. rewrite <-Ho. destruct (chClosed w) eqn:E; by apply returns_done. }
  eapply returns_bind; [exact Hw1|]. intros w2 Hw2. apply returns_done. split; [|set_solver].
  split; simpl; [done| | |].
  - intros i Hi. rewrite lookup_insert_is_Some'. right. apply Hdom. set_solver.
  - by apply map_Forall_insert_2.
  - intros i x Hi [[<- <-]|[? Hx]]%lookup_insert_Some; [set_solver|].
    apply (Hlive i); [set_solver|done].
Qed.
Lemma cancel_inv wm id wm' : mux_inv wm → cancel wm id = Done wm' → mux_inv wm'.
Proof.
  intros Hinv Hc. pose proof Hc as Hc'. unfold cancel, deref in Hc'.
  destruct (heap wm !! id) as [w|] eqn:Hw; [|done]. cbn [mbind go_bind] in Hc'.
  destruct (wDoneClosed w) eqn:Hd; [done|].
  destruct (cancel_run wm id w Hinv Hw Hd) as (? & Heq & ? & _). congruence.
Qed.

(** What [Close] leaves: the same watchers, all of them closed. *)
Lemma Close_loop iter wm :
  (∀ X, iter X ≡ₚ elements X) → mux_inv wm →
  returns (foldM (λ wm id, w ← deref wm id; w ← close_once w; Done (set_watcher wm id w))
             (iter (watchers wm)) wm)
    (λ wm', mux_inv wm' ∧ watchers wm' = watchers wm ∧ doneClosed wm' = doneClosed wm ∧
            watcherChCapacity wm' = watcherChCapacity wm ∧
            ∀ id, id ∈ watchers wm → ∃ w, heap wm' !! id = Some w ∧ chClosed w = true).
Proof.
  intros Hiter Hinv.
  eapply returns_mono; [apply (returns_foldM_prefix _ (λ ids wm', mux_inv wm' ∧ watchers wm' = watchers wm ∧
     doneClosed wm' = doneClosed wm ∧ watcherChCapacity wm' = watcherChCapacity wm ∧
     ∀ id, id ∈ ids → ∃ w, heap wm' !! id = Some w ∧ chClosed w = true))|].
  - split_and!; try done. set_solver.
  - intros ids id rest wm' Hl (Hi & Hws & Hdc & Hcc & Hcl).
    assert (Hreg : id ∈ watchers wm').
    { rewrite Hws, <-elem_of_elements, <-(Hiter (watchers wm)), Hl. set_solver. }
    destruct (mi_dom _ Hi id Hreg) as [w Hw]. unfold deref. rewrite Hw. cbn [mbind go_bind].
    eapply returns_bind; [apply (close_once_ok (watcherChCapacity wm')); by apply (mi_watcher _ Hi id)|].
    intros w' (Hok & Hc' & Hd'). apply returns_done. split_and!; try done.
    + by eapply set_watcher_inv.
    + intros i [Hold| ->%list_elem_of_singleton]%elem_of_app; simpl.
      * destruct (decide (id = i)) as [<-|Hne]; [exists w'; by rewrite lookup_insert_eq|].
        rewrite lookup_insert_ne by done. auto.
      * exists w'. by rewrite lookup_insert_eq.
  - intros wm' (? & ? & ? & ? & Hcl). split_and!; try done. intros id Hid. apply Hcl.
    by rewrite (Hiter (watchers wm)), elem_of_elements.
Qed.
Lemma Close_run iter wm :
  (∀ X, iter X ≡ₚ elements X) → mux_inv wm → doneClosed wm = false →
  returns (Close iter wm) (λ wm', mux_inv wm' ∧ doneClosed wm' = true ∧ watchers wm' = watchers wm ∧
    ∀ id, id ∈ watchers wm → ∃ w, heap wm' !! id = Some w ∧ chClosed w = true).
Proof.
  intros Hiter Hinv Hd. unfold Close, getWatcherList.
  eapply returns_bind; [by apply Close_loop|]. intros wm' ([] & Hws & Hdc & Hcc & Hcl).
  rewrite Hdc, Hd. by apply returns_done.
Qed.
(** [Close] only touches registered watchers. *)
Lemma Close_keeps iter wm id :
  (∀ X, iter X ≡ₚ elements X) → mux_inv wm → doneClosed wm = false → id ∉ watchers wm →
  returns (Close iter wm) (λ wm', heap wm' !! id = heap wm !! id).
Proof.
  intros Hiter Hinv Hd Hid. destruct (Close_run iter wm Hiter Hinv Hd) as (wm' & HC & _).
  exists wm'. split; [done|]. unfold Close, getWatcherList in HC.
  destruct (foldM _ _ wm) as [x| | |] eqn:Hf; try done. cbn [mbind go_bind] in HC.
  destruct (doneClosed x); [done|]. injection HC as <-. simpl.
  revert Hf. apply (foldM_preserves _ (λ x, heap x !! id = heap wm !! id)); [|done].
  intros s i s' Hi Hs. unfold deref. destruct (heap s !! i) as [w|]; [|done]. cbn [mbind go_bind].
  destruct (close_once w); try done. cbn [mbind go_bind]. intros [= <-]. simpl.
  rewrite lookup_insert_ne; [done|]. intros ->.
  by rewrite (Hiter (watchers wm)), elem_of_elements in Hi.
Qed.
Lemma Close_inv iter wm wm' :
  (∀ X, iter X ≡ₚ elements X) → mux_inv wm → Close iter wm = Done wm' → mux_inv wm'.
Proof.
  intros Hiter Hinv HC. destruct (doneClosed wm) eqn:Hd.
  - exfalso. unfold Close, getWatcherList in HC.
    destruct (Close_loop iter wm Hiter Hinv) as (x & Heq & _ & _ & Hdc & _).
    rewrite Heq in HC. cbn [mbind go_bind] in HC. by rewrite Hdc, Hd in HC.
  - destruct (Close_run iter wm Hiter Hinv Hd) as (? & Heq & ? & _). congruence.
Qed.
Lemma recv_inv wm id wm' o : mux_inv wm → recv wm id = Done (wm', o) → mux_inv wm'.
Proof.
  intros Hinv. unfold recv, deref. destruct (heap wm !! id) as [w|] eqn:Hw; [|done].
  cbn [mbind go_bind]. destruct (buf w) as [|x b] eqn:Eb.
  - destruct (chClosed w); [by intros [= <- <-]|done].
  - destruct (take_one w) as [w'|] eqn:Et; [|by destruct (chClosed w); [intros [= <- <-]|]].
    intros [= <- <-].
    destruct (take_one_ok _ _ _ (mi_watcher _ Hinv id w Hw) Et) as [? ?].
    by eapply set_watcher_inv.
Qed.

Lemma step_inv wm wm' : step wm wm' → mux_inv wm → mux_inv wm'.
Proof.
  intros Hs Hinv. destruct Hs.
  - by eapply Watch_inv.
  - by eapply cancel_inv.
  - destruct (dispatchOne_ok _ _ _ _ _ _ (mi_cap _ Hinv) (mi_watcher _ Hinv id w ltac:(done)) ltac:(done)).
    by eapply set_watcher_inv.
  - rewrite select_nonblocking_eq in *.
    destruct (dispatchOne_ok _ _ _ _ _ _ (mi_cap _ Hinv) (mi_watcher _ Hinv id w ltac:(done)) ltac:(done)).
    by eapply set_watcher_inv.
  - by eapply recv_inv.
  - by eapply Close_inv.
Qed.

Lemma new_inv cap : 0 <= cap → mux_inv (NewWatcherMux cap).
Proof. intros. split; simpl; [done|set_solver|by apply map_Forall_empty|set_solver]. Qed.
Lemma reachable_inv cap wm : 0 <= cap → rtc step (NewWatcherMux cap) wm → mux_inv wm.
Proof.
  intros Hcap. apply (rtc_ind_r (λ wm, mux_inv wm)); [by apply new_inv|].
  intros y z _ Hs. by apply step_inv.
Qed.
End proofs.

(** ** One watcher over a run of sends and reads *)

Section fifo.
Context {T : Type}.
Implicit Types (w : watcher T) (v : T).

(** A send with the runtime's choice and whether the reader reads while it
    waits, or a read that finds an item or not. *)
Inductive wop := OpSend (v : T) (pick_done reads : bool) | OpRead.
Definition run_op (cap : Z) w (o : wop) : go (watcher T) :=
  match o with
  | OpSend v p r => dispatchOne cap p r w v
  | OpRead => Done (default w (take_one w))
  end.
Definition run_ops (cap : Z) w (os : list wop) : go (watcher T) := foldM (run_op cap) os w.
Definition sent (w : watcher T) (os : list wop) : list T :=
  filter (λ v, filtered_out w v = false) (omap (λ o, match o with OpSend v _ _ => Some v | OpRead => None end) os).

Record fifo_at (cap : Z) w0 (os : list wop) w : Prop := {
  fa_open : chClosed w = false ∧ wDoneClosed w = false;
  fa_filter : wfilter w = wfilter w0;
  fa_cap : Z.of_nat (length (buf w)) <= cap;
  fa_sub : (got w ++ buf w) `sublist_of` (got w0 ++ buf w0 ++ sent w0 os);
  fa_all : Z.of_nat (length (buf w0) + length (sent w0 os)) <= cap → got w ++ buf w = got w0 ++ buf w0 ++ sent w0 os;
  fa_grow : (length (buf w) <= length (buf w0) + length (sent w0 os))%nat
}.

Lemma filtered_out_ext w w' v : wfilter w = wfilter w' → filtered_out w v = filtered_out w' v.
Proof. unfold filtered_out. by intros ->. Qed.
Lemma sent_snoc w os o :
  sent w (os ++ [o]) = sent w os ++
    match o with OpSend v _ _ => if filtered_out w v then [] else [v] | OpRead => [] end.
Proof.
  unfold sent. rewrite omap_app, filter_app. f_equal. destruct o as [v ? ?|]; [|done]. simpl.
  rewrite filter_cons, filter_nil. by destruct (filtered_out w v).
Qed.
Lemma take_one_queue w w' : take_one w = Some w' → got w' ++ buf w' = got w ++ buf w.
Proof.
  unfold take_one. destruct (buf w) as [|x b] eqn:E; [done|]. intros [= <-]. simpl.
  by rewrite <-app_assoc.
Qed.

Lemma fifo_read cap w0 os w : fifo_at cap w0 os w → fifo_at cap w0 (os ++ [OpRead]) (default w (take_one w)).
Proof.
  intros [[Hc Hd] Hf Hcap Hsub Hall Hg]. unfold take_one. destruct (buf w) as [|x b] eqn:E; simpl.
  - split; rewrite ?sent_snoc, ?app_nil_r, ?E; try done; rewrite ?E in *; by rewrite ?app_nil_r in *.
  - rewrite (cons_middle x (got w) b), app_assoc in Hsub, Hall. simpl in *.
    split; simpl; rewrite ?sent_snoc, ?app_nil_r; try done; lia.
Qed.
Lemma fifo_send cap w0 os w v p r :
  fifo_at cap w0 os w → returns (dispatchOne cap p r w v) (fifo_at cap w0 (os ++ [OpSend v p r])).
Proof.
  intros Hat. pose proof Hat as [[Hc Hd] Hf Hcap Hsub Hall Hg]. unfold dispatchOne, send, send_ready.
  rewrite Hc, Hd. simpl. rewrite (filtered_out_ext w w0) by done.
  destruct (filtered_out w0 v) eqn:Hfo.
  { apply returns_done. split; rewrite ?sent_snoc, ?Hfo, ?app_nil_r; done. }
  assert (Hsub' : (got w ++ buf w ++ [v]) `sublist_of` (got w0 ++ buf w0 ++ sent w0 os ++ [v])).
  { rewrite !app_assoc. apply sublist_app; [by rewrite <-app_assoc|done]. }
  case_bool_decide as Hroom.
  - apply returns_done. split; simpl; rewrite ?sent_snoc, ?Hfo; try done.
    + rewrite length_app; simpl; lia.
    + rewrite !length_app; simpl. intros Hle. rewrite !app_assoc, Hall, !app_assoc by lia. done.
    + rewrite !length_app; simpl; lia.
  - destruct r; apply returns_done; simpl.
    + unfold take_one; simpl. destruct (buf w) as [|x b] eqn:E; simpl in *; split; simpl;
        rewrite ?sent_snoc, ?Hfo, ?app_nil_r in *; rewrite ?length_app in *; simpl in *; try done; try lia.
      by rewrite <-app_assoc.
    + split; simpl; rewrite ?sent_snoc, ?Hfo; try done.
      * etrans; [exact Hsub|]. rewrite !app_assoc. by apply sublist_inserts_r.
      * rewrite !length_app; simpl. lia.
      * rewrite !length_app; simpl. lia.
Qed.
Lemma fifo_run cap w0 os :
  chClosed w0 = false → wDoneClosed w0 = false → Z.of_nat (length (buf w0)) <= cap →
  returns (run_ops cap w0 os) (fifo_at cap w0 os).
Proof.
  intros Hc Hd Hcap. apply (returns_foldM_prefix _ (fifo_at cap w0)).
  - split; try done; unfold sent; simpl; rewrite ?app_nil_r; done || lia.
  - intros done o rest w _ Hat. destruct o; simpl; [by apply fifo_send|]. by apply returns_done, fifo_read.
Qed.
End fifo.

(** ** A whole dispatch *)

Section dispatch.
Context {T : Type}.
Implicit Types (w : watcher T) (wm : WatcherMux T) (v : T).

(** What a non-blocking dispatch does to an open watcher. *)
Definition offer (cap : Z) w v : watcher T :=
  if filtered_out w v then w
  else if decide (Z.of_nat (length (buf w)) < cap)
       then {| buf := buf w ++ [v]; got := got w; chClosed := chClosed w; wDoneClosed := wDoneClosed w;
               wfilter := wfilter w; closeOnce := closeOnce w |}
       else w.
Definition all_open wm : Prop := ∀ id w, id ∈ watchers wm → heap wm !! id = Some w → chClosed w = false.

Lemma select_open cap p w v :
  chClosed w = false → wDoneClosed w = false → select_nonblocking cap p w v = Done (offer cap w v).
Proof.
  intros Hc Hd. unfold select_nonblocking, offer, send, send_ready. rewrite Hc, Hd. simpl.
  destruct (filtered_out w v); [done|]. by case_bool_decide; [rewrite decide_True|rewrite decide_False].
Qed.

Lemma dispatch_list_spec (one : watcher T → T → go (watcher T)) (f : watcher T → watcher T) l wm v :
  NoDup l → (∀ id, id ∈ l → ∃ w, heap wm !! id = Some w ∧ one w v = Done (f w)) →
  returns (dispatch_list one l wm v) (λ wm',
    watchers wm' = watchers wm ∧ doneClosed wm' = doneClosed wm ∧
    (∀ id, id ∈ l → heap wm' !! id = f <$> heap wm !! id) ∧
    (∀ id, id ∉ l → heap wm' !! id = heap wm !! id)).
Proof.
  intros Hnd Hone.
  apply (returns_foldM_prefix _ (λ ids wm', watchers wm' = watchers wm ∧ doneClosed wm' = doneClosed wm ∧
    (∀ id, id ∈ ids → heap wm' !! id = f <$> heap wm !! id) ∧
    (∀ id, id ∉ ids → heap wm' !! id = heap wm !! id))).
  - split_and!; try done. set_solver.
  - intros ids id rest wm' -> (Hw & Hdc & Hin & Hout).
    destruct (Hone id ltac:(set_solver)) as (w & Hid & H1).
    apply NoDup_app in Hnd as (_ & Hdis & _).
    assert (Hnotin : id ∉ ids) by (intros Hi; apply (Hdis id Hi); set_solver).
    unfold deref. rewrite Hout, Hid by done. cbn [mbind go_bind]. rewrite H1. cbn [mbind go_bind].
    apply returns_done. split_and!; try done; simpl; intros i Hi.
    + apply elem_of_app in Hi as [Hi| ->%list_elem_of_singleton].
      * rewrite lookup_insert_ne by set_solver. auto.
      * by rewrite lookup_insert_eq, Hid.
    + rewrite lookup_insert_ne by set_solver. apply Hout. set_solver.
Qed.
End dispatch.

Lemma dispatch_list_inv {T} cap p r l (wm wm' : WatcherMux T) v :
  cap = watcherChCapacity wm → mux_inv wm →
  dispatch_list (dispatchOne cap p r) l wm v = Done wm' → mux_inv wm' ∧ doneClosed wm' = doneClosed wm.
Proof.
  intros -> Hinv Hd.
  assert (mux_inv wm' ∧ doneClosed wm' = doneClosed wm ∧ watcherChCapacity wm' = watcherChCapacity wm) as (?&?&?).
  2: done.
  revert Hd. apply (foldM_preserves _ (λ s, mux_inv s ∧ doneClosed s = doneClosed wm ∧
    watcherChCapacity s = watcherChCapacity wm)); [|done]. intros s id s' _ (Hi & Hdc & Hc). unfold deref.
  destruct (heap s !! id) as [w|] eqn:Hw; [|done]. cbn [mbind go_bind].
  destruct (dispatchOne _ p r w v) as [w'| | |] eqn:Ho; try done. cbn [mbind go_bind]. intros [= <-].
  rewrite <-Hc in Ho.
  destruct (dispatchOne_ok _ _ _ _ _ _ (mi_cap _ Hi) (mi_watcher _ Hi id w Hw) Ho).
  split; [by eapply set_watcher_inv|done].
Qed.

(** The watcher a cancel leaves behind. *)
Lemma cancelled_watcher {T} (wm : WatcherMux T) id w wm' :
  mux_inv wm → heap wm !! id = Some w → cancel wm id = Done wm' →
  ∃ w', heap wm' !! id = Some w' ∧ chClosed w' = true ∧ wDoneClosed w' = true ∧ wfilter w' = wfilter w.
Proof.
  intros Hinv Hw. unfold cancel, deref. rewrite Hw. cbn [mbind go_bind].
  pose proof (wo_once _ _ (mi_watcher _ Hinv id w Hw)) as Ho.
  destruct (wDoneClosed w); [done|]. unfold close_once; simpl. rewrite <-Ho.
  destruct (chClosed w) eqn:E; cbn [mbind go_bind]; intros [= <-]; eexists; simpl;
    rewrite lookup_insert_eq; by split_and!.
Qed.
Lemma Close_twice {T} iter (wm : WatcherMux T) :
  (∀ X, iter X ≡ₚ elements X) → mux_inv wm → doneClosed wm = true →
  Close iter wm = Panic CloseOfClosedChannel.
Proof.
  intros Hiter Hinv Hd. unfold Close, getWatcherList.
  destruct (Close_loop iter wm Hiter Hinv) as (x & Heq & _ & _ & Hdc & _).
  rewrite Heq. cbn [mbind go_bind]. by rewrite Hdc, Hd.
Qed.

(** * Properties *)

(** In every state reachable by any interleaving of Watch, cancel, sends,
    reads and Close, no buffer exceeds the channel capacity, a registered
    watcher has not been cancelled, cancelling it succeeds and unregisters it,
    and a first Close succeeds and closes the channel of every registered
    watcher. *)
Theorem mux_reachable {T} (cap : Z) (wm : WatcherMux T) :
  0 <= cap → rtc step (NewWatcherMux cap) wm →
  map_Forall (λ _ w, Z.of_nat (length (buf w)) <= watcherChCapacity wm) (heap wm) ∧
  (∀ id, id ∈ watchers wm → returns (cancel wm id) (λ wm', id ∉ watchers wm')) ∧
  (∀ iter, (∀ X, iter X ≡ₚ elements X) → doneClosed wm = false →
     returns (Close iter wm) (λ wm', doneClosed wm' = true ∧
       ∀ id, id ∈ watchers wm → ∃ w, heap wm' !! id = Some w ∧ chClosed w = true)).
Proof.
  intros Hcap Hr. pose proof (reachable_inv cap wm Hcap Hr) as Hinv. split_and!.
  - intros id w Hw. by apply (wo_cap _ _ (mi_watcher _ Hinv id w Hw)).
  - intros id Hid. destruct (mi_dom _ Hinv id Hid) as [w Hw].
    eapply returns_mono; [by eapply cancel_run; [| |eapply mi_live]|]. naive_solver.
  - intros iter Hiter Hd. eapply returns_mono; [by apply Close_run|]. naive_solver.
Qed.

Definition mux_example : WatcherMux Z :=
  match Watch (NewWatcherMux 2) None with Done (wm, _) => wm | _ => NewWatcherMux 2 end.
Lemma mux_example_reachable : rtc step (NewWatcherMux 2) mux_example.
Proof. apply rtc_once. by eapply (step_watch _ None _ 0). Qed.

Lemma mux_reachable_witness :
  map_Forall (λ _ w, Z.of_nat (length (buf w)) <= watcherChCapacity mux_example) (heap mux_example) ∧
  (∀ id, id ∈ watchers mux_example → returns (cancel mux_example id) (λ wm', id ∉ watchers wm')) ∧
  (∀ iter, (∀ X, iter X ≡ₚ elements X) → doneClosed mux_example = false →
     returns (Close iter mux_example) (λ wm', doneClosed wm' = true ∧
       ∀ id, id ∈ watchers mux_example → ∃ w, heap wm' !! id = Some w ∧ chClosed w = true)).
Proof. apply (mux_reachable 2); [lia|apply mux_example_reachable]. Defined.

(** A dispatch on a reachable multiplexer whose registered channels are
    open never panics, whatever the order the map is ranged over: every
    registered watcher whose filter accepts the item and whose buffer has room
    gets it at the end of its buffer, every other watcher is untouched. *)
Theorem dispatch_delivers {T} (cap : Z) (wm : WatcherMux T) (v : T) iter (p : bool) :
  0 <= cap → rtc step (NewWatcherMux cap) wm → (∀ X, iter X ≡ₚ elements X) → all_open wm →
  returns (NonBlockingDispatchFunc iter p wm v) (λ wm',
    watchers wm' = watchers wm ∧
    (∀ id, id ∈ watchers wm → heap wm' !! id = (λ w, offer (watcherChCapacity wm) w v) <$> heap wm !! id) ∧
    (∀ id, id ∉ watchers wm → heap wm' !! id = heap wm !! id)).
Proof.
  intros Hcap Hr Hiter Hopen. pose proof (reachable_inv cap wm Hcap Hr) as Hinv.
  assert (Hel : ∀ id, id ∈ iter (watchers wm) ↔ id ∈ watchers wm).
  { intros id. by rewrite (Hiter (watchers wm)), elem_of_elements. }
  eapply returns_mono; [apply (dispatch_list_spec _ (λ w, offer (watcherChCapacity wm) w v))|].
  - unfold getWatcherList. rewrite (Hiter (watchers wm)). apply NoDup_elements.
  - intros id Hid%Hel. destruct (mi_dom _ Hinv id Hid) as [w Hw]. exists w. split; [done|].
    by apply select_open; [eapply Hopen|eapply mi_live].
  - intros wm' (? & ? & Hin & Hout). split_and!; [done| |]; intros id Hid.
    + by apply Hin, Hel.
    + apply Hout. unfold getWatcherList. by rewrite Hel.
Qed.

Lemma dispatch_delivers_witness :
  returns (NonBlockingDispatchFunc elements true mux_example 7) (λ wm',
    watchers wm' = watchers mux_example ∧
    (∀ id, id ∈ watchers mux_example →
       heap wm' !! id = (λ w, offer (watcherChCapacity mux_example) w 7) <$> heap mux_example !! id) ∧
    (∀ id, id ∉ watchers mux_example → heap wm' !! id = heap mux_example !! id)).
Proof.
  apply (dispatch_delivers 2); [lia|apply mux_example_reachable|done|].
  intros id w Hid. unfold mux_example in *. simpl in *. assert (id = 0) as -> by set_solver.
  by intros [= <-].
Defined.

(** What one watcher receives. Over any run of sends (with or without a
    reader that catches up during the dispatch timeout) and reads, an open
    watcher's received and buffered items are a subsequence, in order, of what
    it had and of the items sent that pass its filter, its buffer never
    exceeds the capacity, no send panics, and nothing is lost when the items
    fit in the buffer. *)
Theorem watcher_fifo {T} (cap : Z) (w0 : watcher T) (os : list wop) :
  chClosed w0 = false → wDoneClosed w0 = false → Z.of_nat (length (buf w0)) <= cap →
  returns (run_ops cap w0 os) (λ w,
    Z.of_nat (length (buf w)) <= cap ∧
    (got w ++ buf w) `sublist_of` (got w0 ++ buf w0 ++ sent w0 os) ∧
    (Z.of_nat (length (buf w0) + length (sent w0 os)) <= cap →
       got w ++ buf w = got w0 ++ buf w0 ++ sent w0 os)).
Proof.
  intros Hc Hd Hcap. eapply returns_mono; [by apply fifo_run|]. by intros w [].
Qed.

Definition open_watcher : watcher Z :=
  {| buf := []; got := []; chClosed := false; wDoneClosed := false; wfilter := None; closeOnce := false |}.
Lemma watcher_fifo_witness :
  returns (run_ops 1 open_watcher [OpSend 4 false false; OpSend 5 false false; OpRead; OpSend 6 false true]) (λ w,
    Z.of_nat (length (buf w)) <= 1 ∧
    (got w ++ buf w) `sublist_of` (got open_watcher ++ buf open_watcher ++
       sent open_watcher [OpSend 4 false false; OpSend 5 false false; OpRead; OpSend 6 false true]) ∧
    (Z.of_nat (length (buf open_watcher) +
       length (sent open_watcher [OpSend 4 false false; OpSend 5 false false; OpRead; OpSend 6 false true])) <= 1 →
       got w ++ buf w = got open_watcher ++ buf open_watcher ++
         sent open_watcher [OpSend 4 false false; OpSend 5 false false; OpRead; OpSend 6 false true])).
Proof. apply watcher_fifo; [done|done|simpl; lia]. Defined.

(** The shutdown hazards of the multiplexer. Once a watcher has been
    cancelled, cancelling it again panics; once the multiplexer is closed,
    closing it again panics; and a dispatch that took its list before a
    watcher of it was cancelled may send on the closed channel: the runtime
    may pick the send although the watcher's done channel is ready. *)
Theorem mux_hazards {T} (wm wm' : WatcherMux T) (v : T) iter (id : Z) (w : watcher T) :
  mux_inv wm → heap wm !! id = Some w → filtered_out w v = false →
  (∀ X, iter X ≡ₚ elements X) → cancel wm id = Done wm' →
  cancel wm' id = Panic CloseOfClosedChannel ∧
  dispatch_list (select_nonblocking (watcherChCapacity wm') false) [id] wm' v = Panic SendOnClosedChannel ∧
  (∀ wm'', Close iter wm' = Done wm'' → Close iter wm'' = Panic CloseOfClosedChannel).
Proof.
  intros Hinv Hw Hf Hiter Hc. pose proof (cancel_inv _ _ _ Hinv Hc) as Hinv'.
  destruct (cancelled_watcher wm id w wm' Hinv Hw Hc) as (w' & Hw' & Hcl & Hd & Hf').
  split_and!.
  - unfold cancel, deref. rewrite Hw'. cbn [mbind go_bind]. by rewrite Hd.
  - unfold dispatch_list, deref, select_nonblocking, send_ready, send. simpl. rewrite Hw'. cbn [mbind go_bind].
    rewrite (filtered_out_ext w' w), Hf, Hcl, Hd by done. done.
  - intros wm'' HC. pose proof (Close_inv _ _ _ Hiter Hinv' HC) as Hinv''.
    assert (Hdc : doneClosed wm'' = true).
    { destruct (doneClosed wm') eqn:E.
      - by rewrite Close_twice in HC.
      - destruct (Close_run iter wm' Hiter Hinv' E) as (? & Heq & _ & ? & _). congruence. }
    by apply Close_twice.
Qed.

Lemma mux_hazards_witness : ∃ wm',
  cancel mux_example 0 = Done wm' ∧
  cancel wm' 0 = Panic CloseOfClosedChannel ∧
  dispatch_list (select_nonblocking (watcherChCapacity wm') false) [0] wm' 7 = Panic SendOnClosedChannel ∧
  (∀ wm'', Close elements wm' = Done wm'' → Close elements wm'' = Panic CloseOfClosedChannel).
Proof.
  eexists. split; [reflexivity|].
  apply (mux_hazards mux_example _ 7 elements 0 open_watcher); try done.
  apply (reachable_inv 2); [lia|apply mux_example_reachable].
Defined.

(** [AnyPtrIsNil] only sees nil interfaces: a nil slice or map passed to
    it is boxed with its type and goes unnoticed, so the nil check of
    [SetObjects] never fires. *)
Theorem AnyPtrIsNil_boxed (ts : list (string * bool)) :
  AnyPtrIsNil ((λ t, Boxed t.1 t.2) <$> ts) = false ∧
  ∀ l1 l2, AnyPtrIsNil (l1 ++ NilInterface :: l2) = true.
Proof.
  split; [by induction ts|]. intros l1 l2. unfold AnyPtrIsNil.
  rewrite existsb_app. simpl. apply orb_true_r.
Qed.
