(* ===== verification/MuxStreams.v ===== *)
(** * MuxStreams: what the watchers of a multiplexer have been sent

    Shared by the components that own a [WatcherMux] and run a loop over it:
    the stream of a watcher (what its reader took and what is buffered) is an
    ordered selection of the dispatched items, whatever registrations,
    cancels, reads and closes happen in between. *)
From S2P Require Import Prelude Types WatcherMux.

Section streams.
Context {T : Type}.
Implicit Types (w : watcher T) (wm : WatcherMux T) (L : list T).

Definition hist w : list T := got w ++ buf w.

(** Every watcher was sent an ordered selection of [L]. *)
Definition logged wm L : Prop := map_Forall (λ _ w, hist w `sublist_of` L) (heap wm).

(** Properly built, every registered channel open. *)
Definition mux_ready wm : Prop := mux_inv wm ∧ all_open wm.

(** * Lemmas *)

Lemma dispatchOne_hist cap p r w v w' :
  dispatchOne cap p r w v = Done w' → hist w' = hist w ∨ hist w' = hist w ++ [v].
Proof.
  unfold dispatchOne, send, hist. destruct (filtered_out w v); [intros [= <-]; by left|].
  destruct (wDoneClosed w && _); [intros [= <-]; by left|].
  destruct (send_ready cap w).
  - destruct (chClosed w); [done|]. intros [= <-]. right. simpl. by rewrite app_assoc.
  - destruct r; [|intros [= <-]; by left]. destruct (chClosed w); [done|]. intros [= <-]. right.
    unfold take_one; simpl. destruct (buf w ++ [v]) as [|x b] eqn:E; [by apply app_nil in E as [_ ?]|]. simpl.
    rewrite <-!app_assoc. simpl. by rewrite E.
Qed.

Lemma logged_mono wm L L' : L `sublist_of` L' → logged wm L → logged wm L'.
Proof. intros HL H id w Hw. etrans; [by eapply H|done]. Qed.
Lemma logged_new cap L : logged (NewWatcherMux cap) L.
Proof. apply map_Forall_empty. Qed.

(** A dispatch sends its item to every watcher of the list once, and leaves
    the others alone. *)
Lemma dispatch_list_each (one : watcher T → T → go (watcher T)) l wm v wm' :
  NoDup l → dispatch_list one l wm v = Done wm' →
  ∀ id w', heap wm' !! id = Some w' → ∃ w, heap wm !! id = Some w ∧ ((id ∉ l) ∧ w' = w ∨ (one w v = Done w')).
Proof.
  unfold dispatch_list. intros Hnd. revert wm. induction l as [|i l IH]; intros wm Hd.
  { injection Hd as <-. intros id w' Hw. exists w'. split; [done|]. left. split; [set_solver|done]. }
  apply NoDup_cons in Hnd as [Hi Hnd]. cbn [foldM] in Hd. unfold deref in Hd.
  destruct (heap wm !! i) as [w|] eqn:Ew; [|done]. cbn [mbind go_bind] in Hd.
  destruct (one w v) as [w1| | |] eqn:E1; try done. cbn [mbind go_bind] in Hd.
  intros id w' Hw'. destruct (decide (id = i)) as [->|Hne].
  - assert (Hkeep : heap wm' !! i = Some w1).
    { revert Hd. apply (foldM_preserves _ (λ x, heap x !! i = Some w1)); [|simpl; apply lookup_insert_eq].
      intros x j x' Hj Hx. unfold deref. destruct (heap x !! j) as [w0|]; [|done]. cbn [mbind go_bind].
      destruct (one w0 v); try done. cbn [mbind go_bind]. intros [= <-]. simpl.
      rewrite lookup_insert_ne; [done|]. by intros ->. }
    assert (w' = w1) as -> by congruence. exists w. split; [done|]. by right.
  - destruct (IH Hnd _ Hd id w' Hw') as (w0 & Hw0 & Hh). simpl in Hw0. rewrite lookup_insert_ne in Hw0 by done.
    exists w0. split; [done|]. destruct Hh as [[Hn ->]|Hone]; [left; split; [set_solver|done]|by right].
Qed.
Lemma dispatch_list_dom (one : watcher T → T → go (watcher T)) l wm v wm' id :
  dispatch_list one l wm v = Done wm' → is_Some (heap wm !! id) → is_Some (heap wm' !! id).
Proof.
  unfold dispatch_list. intros Hd Hs. revert Hd. apply (foldM_preserves _ (λ x, is_Some (heap x !! id))); [|done].
  intros x j x' _ Hx. unfold deref. destruct (heap x !! j) as [w0|]; [|done]. cbn [mbind go_bind].
  destruct (one w0 v); try done. cbn [mbind go_bind]. intros [= <-]. simpl. apply lookup_insert_is_Some'. auto.
Qed.
(** Its readers staying away, a channel got the item at its end or did not. *)
Lemma dispatch_stream iter p wm v wm' id w :
  (∀ X, iter X ≡ₚ elements X) → DispatchFuncWithTimeout iter p false wm v = Done wm' → heap wm !! id = Some w →
  ∃ w', heap wm' !! id = Some w' ∧ got w' = got w ∧ (buf w' = buf w ∨ buf w' = buf w ++ [v]).
Proof.
  intros Hiter Hd Hw.
  destruct (dispatch_list_dom _ _ _ _ _ id Hd ltac:(eauto)) as [w' Hw'].
  assert (Hnd : NoDup (getWatcherList iter wm)) by (unfold getWatcherList; rewrite (Hiter (watchers wm)); apply NoDup_elements).
  destruct (dispatch_list_each _ _ _ _ _ Hnd Hd id w' Hw') as (w0 & Hw0 & Hor).
  assert (w0 = w) as -> by congruence. exists w'. split; [done|]. destruct Hor as [[_ ->]|Hone]; [auto|].
  revert Hone. unfold dispatchOne, send. destruct (filtered_out w v); [intros [= <-]; auto|].
  destruct (wDoneClosed w && _); [intros [= <-]; auto|]. destruct (send_ready _ w); [|intros [= <-]; auto].
  destruct (chClosed w); [done|]. intros [= <-]. simpl. auto.
Qed.

(** A dispatch appends its item to some streams, each at most once. *)
Lemma logged_dispatch_list cap p r l wm v wm' L :
  NoDup l → logged wm L → dispatch_list (dispatchOne cap p r) l wm v = Done wm' → logged wm' (L ++ [v]).
Proof.
  intros Hnd Hlog Hd id w' Hw'. destruct (dispatch_list_each _ _ _ _ _ Hnd Hd id w' Hw') as (w & Hw & Hor).
  destruct Hor as [[_ ->]|Hone]; [|apply dispatchOne_hist in Hone as [-> | ->]].
  1,2: (etrans; [by eapply Hlog|]; by apply sublist_inserts_r).
  apply sublist_app; [by eapply Hlog|done].
Qed.
Lemma logged_dispatch iter p r wm v wm' L :
  (∀ X, iter X ≡ₚ elements X) → logged wm L → DispatchFuncWithTimeout iter p r wm v = Done wm' → logged wm' (L ++ [v]).
Proof.
  intros Hiter. apply logged_dispatch_list. unfold getWatcherList. rewrite (Hiter (watchers wm)). apply NoDup_elements.
Qed.

Lemma logged_insert wm id w L : logged wm L → hist w `sublist_of` L → map_Forall (λ _ w, hist w `sublist_of` L) (<[id := w]> (heap wm)).
Proof. intros H Hw. by apply map_Forall_insert_2. Qed.
Lemma logged_watch wm f wm' id L : logged wm L → Watch wm f = Done (wm', id) → logged wm' L.
Proof.
  intros H. unfold Watch. case_decide; [done|]. intros [= <- _]. apply logged_insert; [done|]. apply sublist_nil_l.
Qed.
Lemma close_once_hist w w' : close_once w = Done w' → hist w' = hist w.
Proof. unfold close_once. destruct (closeOnce w); [by intros [= <-]|]. destruct (chClosed w); [done|]. by intros [= <-]. Qed.
Lemma logged_cancel wm id wm' L : logged wm L → cancel wm id = Done wm' → logged wm' L.
Proof.
  intros H. unfold cancel, deref. destruct (heap wm !! id) as [w|] eqn:E; [|done]. cbn [mbind go_bind].
  destruct (wDoneClosed w); [done|]. destruct (close_once _) as [w'| | |] eqn:E'; try done. cbn [mbind go_bind]. intros [= <-].
  apply logged_insert; [done|]. rewrite (close_once_hist _ _ E'). exact (H id w E).
Qed.
Lemma logged_close iter wm wm' L : logged wm L → Close iter wm = Done wm' → logged wm' L.
Proof.
  intros H. unfold Close. destruct (foldM _ _ wm) as [x| | |] eqn:E; try done. cbn [mbind go_bind].
  destruct (doneClosed x); [done|]. intros [= <-]. unfold logged; simpl. change (logged x L). revert E.
  apply (foldM_preserves _ (λ x, logged x L)); [|done]. intros y i y' _ Hy. unfold deref.
  destruct (heap y !! i) as [w|] eqn:Ew; [|done]. cbn [mbind go_bind].
  destruct (close_once w) as [w'| | |] eqn:Ec; try done. cbn [mbind go_bind]. intros [= <-].
  apply logged_insert; [done|]. rewrite (close_once_hist _ _ Ec). exact (Hy i w Ew).
Qed.

(** What the other operations leave of a channel. *)
Definition same_stream w w' : Prop := got w' = got w ∧ buf w' = buf w.
Lemma close_once_same w w' : close_once w = Done w' → same_stream w w'.
Proof. unfold close_once. destruct (closeOnce w); [by intros [= <-]|]. destruct (chClosed w); [done|]. by intros [= <-]. Qed.
Lemma watch_stream wm f wm' j id w :
  Watch wm f = Done (wm', j) → watcherIdCount wm ≠ id → heap wm !! id = Some w →
  ∃ w', heap wm' !! id = Some w' ∧ same_stream w w'.
Proof.
  unfold Watch. case_decide; [done|]. intros [= <- _] Hne Hw. exists w. split; [|done]. simpl. by rewrite lookup_insert_ne.
Qed.
Lemma cancel_stream wm j wm' id w :
  cancel wm j = Done wm' → heap wm !! id = Some w → ∃ w', heap wm' !! id = Some w' ∧ same_stream w w'.
Proof.
  unfold cancel, deref. destruct (heap wm !! j) as [w0|] eqn:E; [|done]. cbn [mbind go_bind].
  destruct (wDoneClosed w0); [done|]. destruct (close_once _) as [w1| | |] eqn:E1; try done. cbn [mbind go_bind]. intros [= <-] Hw.
  apply close_once_same in E1. simpl. destruct (decide (j = id)) as [->|Hne].
  - rewrite lookup_insert_eq. exists w1. by simplify_eq.
  - rewrite lookup_insert_ne by done. by exists w.
Qed.
Lemma close_stream iter wm wm' id w :
  Close iter wm = Done wm' → heap wm !! id = Some w → ∃ w', heap wm' !! id = Some w' ∧ same_stream w w'.
Proof.
  unfold Close. destruct (foldM _ _ wm) as [x| | |] eqn:E; try done. cbn [mbind go_bind].
  destruct (doneClosed x); [done|]. intros [= <-] Hw. simpl. revert E.
  apply (foldM_preserves _ (λ x, ∃ w', heap x !! id = Some w' ∧ same_stream w w')); [|by exists w].
  intros y j y' _ (w1 & Hw1 & Hs). unfold deref. destruct (heap y !! j) as [w0|] eqn:E0; [|done]. cbn [mbind go_bind].
  destruct (close_once w0) as [w2| | |] eqn:E2; try done. cbn [mbind go_bind]. intros [= <-]. simpl.
  destruct (decide (j = id)) as [->|Hne].
  - rewrite lookup_insert_eq. exists w2. apply close_once_same in E2. simplify_eq. split; [done|].
    destruct Hs, E2. by split; etrans.
  - rewrite lookup_insert_ne by done. by exists w1.
Qed.

(** What one read does to the channel. *)
Lemma recv_some wm id wm' v :
  recv wm id = Done (wm', Some v) →
  ∃ w w', heap wm !! id = Some w ∧ wm' = set_watcher wm id w' ∧ buf w = v :: buf w' ∧ got w' = got w ++ [v] ∧
    hist w' = hist w ∧ chClosed w' = chClosed w ∧ wDoneClosed w' = wDoneClosed w.
Proof.
  unfold recv, deref, take_one. destruct (heap wm !! id) as [w|] eqn:E; [|done]. cbn [mbind go_bind].
  destruct (buf w) as [|x b] eqn:Eb; [by destruct (chClosed w)|]. intros [= <- <-].
  eexists _, _. split_and!; try done. unfold hist; simpl. by rewrite Eb, <-app_assoc.
Qed.
Lemma logged_recv wm id wm' v L : logged wm L → recv wm id = Done (wm', Some v) → logged wm' L.
Proof.
  intros H (w & w' & Hw & -> & _ & _ & Hh & _)%recv_some. apply logged_insert; [done|]. rewrite Hh. exact (H id w Hw).
Qed.

(** ** Flags and the ready multiplexer *)

Lemma dispatch_inv iter p r wm wm' v :
  mux_inv wm → DispatchFuncWithTimeout iter p r wm v = Done wm' → mux_inv wm' ∧ doneClosed wm' = doneClosed wm.
Proof.
  intros Hi Hd. unfold DispatchFuncWithTimeout, dispatch_list in Hd.
  assert (H : mux_inv wm' ∧ watcherChCapacity wm' = watcherChCapacity wm ∧ doneClosed wm' = doneClosed wm); [|naive_solver].
  revert Hd. apply (foldM_preserves _ (λ x, mux_inv x ∧ watcherChCapacity x = watcherChCapacity wm ∧ doneClosed x = doneClosed wm));
    [|done]. intros x id x' _ (Hx & Hc & Hdo). unfold deref.
  destruct (heap x !! id) as [w|] eqn:Hw; [|done]. cbn [mbind go_bind].
  destruct (dispatchOne _ _ _ w v) as [w'| | |] eqn:E; try done. cbn [mbind go_bind]. intros [= <-]. rewrite <-Hc in E.
  destruct (dispatchOne_ok _ _ _ _ _ _ (mi_cap _ Hx) (mi_watcher _ Hx id w Hw) E) as [Hok Hdn].
  split; [by eapply set_watcher_inv|done].
Qed.
Lemma cancel_done wm wm' id : cancel wm id = Done wm' → doneClosed wm' = doneClosed wm.
Proof.
  unfold cancel. destruct (deref wm id) as [w| | |]; try done. cbn [mbind go_bind]. destruct (wDoneClosed w); [done|].
  destruct (close_once _); try done. by intros [= <-].
Qed.
Lemma Watch_done wm wm' f id : Watch wm f = Done (wm', id) → doneClosed wm' = doneClosed wm.
Proof. unfold Watch. case_decide; [done|]. by intros [= <- _]. Qed.
Lemma Close_done iter wm wm' : Close iter wm = Done wm' → doneClosed wm' = true.
Proof.
  unfold Close. destruct (foldM _ _ _) as [x| | |]; try done. cbn [mbind go_bind].
  destruct (doneClosed x); [done|]. by intros [= <-].
Qed.

Lemma dispatchOne_open cap p r w v :
  chClosed w = false → wDoneClosed w = false →
  ∃ w', dispatchOne cap p r w v = Done w' ∧ chClosed w' = false.
Proof.
  intros Hc Hd. unfold dispatchOne, send, send_ready. rewrite Hc, Hd. simpl.
  destruct (filtered_out w v); [by eexists|]. case_bool_decide; [by eexists|].
  destruct r; [|by eexists]. eexists. split; [done|]. unfold take_one; simpl.
  by destruct (WatcherMux.buf w ++ [v]) eqn:E.
Qed.
Lemma dispatch_ready iter p r wm v :
  (∀ X, iter X ≡ₚ elements X) → mux_ready wm →
  returns (DispatchFuncWithTimeout iter p r wm v) (λ wm', mux_ready wm' ∧ watchers wm' = watchers wm).
Proof.
  intros Hiter [Hinv Hopen].
  set (f := λ w, match dispatchOne (watcherChCapacity wm) p r w v with Done w' => w' | _ => w end).
  assert (Hel : ∀ id, id ∈ iter (watchers wm) ↔ id ∈ watchers wm).
  { intros id. by rewrite (Hiter (watchers wm)), elem_of_elements. }
  assert (Hf : ∀ id w, id ∈ watchers wm → heap wm !! id = Some w →
            dispatchOne (watcherChCapacity wm) p r w v = Done (f w) ∧ chClosed (f w) = false).
  { intros id w Hid Hw. unfold f.
    destruct (dispatchOne_open (watcherChCapacity wm) p r w v) as (w' & -> & Hc); [by eapply Hopen|by eapply mi_live|done]. }
  destruct (dispatch_list_spec (dispatchOne (watcherChCapacity wm) p r) f (iter (watchers wm)) wm v)
    as (wm' & Heq & Hws & Hd & Hin & Hout).
  - rewrite (Hiter (watchers wm)). apply NoDup_elements.
  - intros id Hid%Hel. destruct (mi_dom _ Hinv id Hid) as [w Hw]. exists w. split; [done|]. by eapply Hf.
  - exists wm'. split; [done|]. destruct (dispatch_list_inv _ _ _ _ _ _ _ eq_refl Hinv Heq) as [Hinv' _].
    split; [|done]. split; [done|]. intros id w Hid Hw. rewrite Hws in Hid.
    destruct (mi_dom _ Hinv id Hid) as [w0 Hw0]. rewrite Hin, Hw0 in Hw by by apply Hel.
    injection Hw as <-. by eapply Hf.
Qed.
Lemma new_mux_ready cap : 0 <= cap → mux_ready (NewWatcherMux (T := T) cap).
Proof. intros. split; [by apply new_inv|]. intros id w Hid. simpl in Hid. set_solver. Qed.
Lemma watch_ready wm f wm' id : mux_ready wm → Watch wm f = Done (wm', id) → mux_ready wm'.
Proof.
  intros [Hi Ho] Hw. split; [by eapply Watch_inv|]. revert Hw. unfold Watch. case_decide; [done|]. intros [= <- _].
  intros j x Hj Hx. simpl in *. apply lookup_insert_Some in Hx as [[_ <-]|[Hne Hx]]; [done|].
  apply (Ho j x); [|done]. set_solver.
Qed.
Lemma cancel_ready wm id wm' : mux_ready wm → cancel wm id = Done wm' → mux_ready wm'.
Proof.
  intros [Hi Ho] Hc. split; [by eapply cancel_inv|]. revert Hc. unfold cancel, deref.
  destruct (heap wm !! id) as [w|]; [|done]. cbn [mbind go_bind]. destruct (wDoneClosed w); [done|].
  destruct (close_once _); try done. cbn [mbind go_bind]. intros [= <-]. intros j x Hj Hx. simpl in *.
  rewrite lookup_insert_ne in Hx by set_solver. apply (Ho j x); [set_solver|done].
Qed.
Lemma recv_ready wm id wm' v : mux_ready wm → recv wm id = Done (wm', Some v) → mux_ready wm'.
Proof.
  intros [Hi Ho] Hr. split; [by eapply recv_inv|]. apply recv_some in Hr as (w & w' & Hw & -> & _ & _ & _ & Hc & _).
  intros j x Hj Hx. simpl in *. apply lookup_insert_Some in Hx as [[<- <-]|[Hne Hx]]; [rewrite Hc|]; by eapply Ho.
Qed.

(** What subscribing, unsubscribing and reading keep. *)
Record quiet wm wm' : Prop := {
  qu_inv : mux_inv wm → mux_inv wm';
  qu_done : doneClosed wm' = doneClosed wm;
  qu_ready : mux_ready wm → mux_ready wm';
  qu_logged : ∀ L, logged wm L → logged wm' L
}.
Lemma watch_quiet wm f wm' id : Watch wm f = Done (wm', id) → quiet wm wm'.
Proof.
  intros H. split; intros; [by eapply Watch_inv|by eapply Watch_done|by eapply watch_ready|by eapply logged_watch].
Qed.
Lemma cancel_quiet wm id wm' : cancel wm id = Done wm' → quiet wm wm'.
Proof.
  intros H. split; intros; [by eapply cancel_inv|by eapply cancel_done|by eapply cancel_ready|by eapply logged_cancel].
Qed.
Lemma recv_quiet wm id wm' v : recv wm id = Done (wm', Some v) → quiet wm wm'.
Proof.
  intros H. split; intros; [by eapply recv_inv| |by eapply recv_ready|by eapply logged_recv].
  by apply recv_some in H as (w & w' & _ & -> & _).
Qed.

(** A cancel function called for the first time does not panic. *)
Lemma cancel_once wm id w :
  mux_inv wm → heap wm !! id = Some w → wDoneClosed w = false → ∃ wm', cancel wm id = Done wm'.
Proof.
  intros Hi Hw Hd. unfold cancel, deref. rewrite Hw. cbn [mbind go_bind]. rewrite Hd. unfold close_once; simpl.
  pose proof (wo_once _ _ (mi_watcher _ Hi id w Hw)) as Ho. destruct (closeOnce w); [eauto|]. rewrite Ho. eauto.
Qed.
Lemma watch_run wm f : mux_inv wm → ∃ wm' id, Watch wm f = Done (wm', id).
Proof. intros Hi. pose proof (mi_cap _ Hi). unfold Watch. rewrite decide_False by lia. eauto. Qed.

(** ** Who is registered *)

Lemma dispatch_watchers iter p r wm v wm' : DispatchFuncWithTimeout iter p r wm v = Done wm' → watchers wm' = watchers wm.
Proof.
  unfold DispatchFuncWithTimeout, dispatch_list. apply (foldM_preserves _ (λ x, watchers x = watchers wm)); [|done].
  intros x j x' _ Hx. unfold deref. destruct (heap x !! j) as [w0|]; [|done]. cbn [mbind go_bind].
  destruct (dispatchOne _ _ _ _ _) as [w1| | |]; try done. cbn [mbind go_bind]. by intros [= <-].
Qed.
Lemma close_watchers iter wm wm' : Close iter wm = Done wm' → watchers wm' = watchers wm.
Proof.
  unfold Close. destruct (foldM _ _ wm) as [x| | |] eqn:E; try done. cbn [mbind go_bind].
  destruct (doneClosed x); [done|]. intros [= <-]. simpl. revert E. apply (foldM_preserves _ (λ x, watchers x = watchers wm)); [|done].
  intros y j y' _ Hy. unfold deref. destruct (heap y !! j) as [w0|]; [|done]. cbn [mbind go_bind].
  destruct (close_once w0); try done. cbn [mbind go_bind]. by intros [= <-].
Qed.
Lemma recv_watchers wm id wm' v : recv wm id = Done (wm', Some v) → watchers wm' = watchers wm.
Proof. by intros (w & w' & _ & -> & _)%recv_some. Qed.
Lemma watch_watchers wm f wm' j id : Watch wm f = Done (wm', j) → watcherIdCount wm ≠ id → id ∈ watchers wm' ↔ id ∈ watchers wm.
Proof. unfold Watch. case_decide; [done|]. intros [= <- _] Hne. simpl. set_solver. Qed.
Lemma cancel_watchers wm j wm' id : cancel wm j = Done wm' → j ≠ id → id ∈ watchers wm' ↔ id ∈ watchers wm.
Proof.
  unfold cancel, deref. destruct (heap wm !! j) as [w0|]; [|done]. cbn [mbind go_bind]. destruct (wDoneClosed w0); [done|].
  destruct (close_once _) as [w1| | |]; try done. cbn [mbind go_bind]. intros [= <-] Hne. simpl. set_solver.
Qed.
Lemma registered_cancel wm id : mux_inv wm → id ∈ watchers wm → returns (cancel wm id) (λ wm', id ∉ watchers wm').
Proof.
  intros Hi Hid. destruct (mi_dom _ Hi id Hid) as [w Hw].
  destruct (cancel_run wm id w Hi Hw (mi_live _ Hi id w Hid Hw)) as (m & Hm & _ & Hn). by exists m.
Qed.

(** ** A subscription somebody else reads

    The channel [id]: registered, unfiltered, of capacity [cap], sent [L]. *)

Definition got_kept wm wm' (id : Z) : Prop :=
  ∀ w, heap wm !! id = Some w → ∃ w', heap wm' !! id = Some w' ∧ got w' = got w.
Record listening (cap : Z) wm (id : Z) L : Prop := {
  ls_cap : watcherChCapacity wm = cap;
  ls_reg : id ∈ watchers wm;
  ls_all : ∃ w, heap wm !! id = Some w ∧ wfilter w = None ∧ hist w = L
}.

Lemma watch_new wm wm' id : Watch wm None = Done (wm', id) → listening (watcherChCapacity wm) wm' id [] ∧
  ∃ w, heap wm' !! id = Some w ∧ got w = [].
Proof.
  unfold Watch. case_decide; [done|]. intros [= <- <-]. split; [split; simpl; [done|set_solver|]|];
    simpl; rewrite lookup_insert_eq; eauto.
Qed.
Lemma listening_drained cap wm id L w :
  listening cap wm id L → heap wm !! id = Some w → recv wm id = Blocked → got w = L.
Proof.
  intros [_ _ (w' & Hw' & _ & <-)] Hw Hb. assert (w' = w) as -> by congruence. unfold recv, deref in Hb.
  rewrite Hw in Hb. cbn [mbind go_bind] in Hb. unfold hist, take_one in *. destruct (buf w); [by rewrite app_nil_r|done].
Qed.
Lemma cancel_live wm id wm' : cancel wm id = Done wm' → ∃ w, heap wm !! id = Some w ∧ wDoneClosed w = false.
Proof.
  unfold cancel, deref. destruct (heap wm !! id) as [w|]; [|done]. cbn [mbind go_bind]. destruct (wDoneClosed w) eqn:E; [done|]. eauto.
Qed.
Lemma got_kept_refl wm id : got_kept wm wm id.
Proof. intros w. eauto. Qed.
Lemma watch_got wm f wm' j id : Watch wm f = Done (wm', j) → watcherIdCount wm ≠ id → got_kept wm wm' id.
Proof. intros H1 H2 w Hw. destruct (watch_stream _ _ _ _ _ _ H1 H2 Hw) as (w' & Hw' & Hg & _). eauto. Qed.
Lemma cancel_got wm j wm' id : cancel wm j = Done wm' → got_kept wm wm' id.
Proof. intros H1 w Hw. destruct (cancel_stream _ _ _ _ _ H1 Hw) as (w' & Hw' & Hg & _). eauto. Qed.
Lemma close_got iter wm wm' id : Close iter wm = Done wm' → got_kept wm wm' id.
Proof. intros H1 w Hw. destruct (close_stream _ _ _ _ _ H1 Hw) as (w' & Hw' & Hg & _). eauto. Qed.
Lemma recv_got wm j wm' v id : recv wm j = Done (wm', Some v) → j ≠ id → got_kept wm wm' id.
Proof.
  intros (w0 & w' & _ & -> & _)%recv_some Hne w Hw. exists w. split; [|done]. simpl. by rewrite lookup_insert_ne.
Qed.
Lemma dispatch_got iter p wm v wm' id :
  (∀ X, iter X ≡ₚ elements X) → DispatchFuncWithTimeout iter p false wm v = Done wm' → got_kept wm wm' id.
Proof. intros Hi H1 w Hw. destruct (dispatch_stream _ _ _ _ _ _ _ Hi H1 Hw) as (w' & Hw' & Hg & _). eauto. Qed.

Lemma watch_listening cap wm f wm' j id L : Watch wm f = Done (wm', j) → watcherIdCount wm ≠ id → listening cap wm id L → listening cap wm' id L.
Proof.
  unfold Watch. case_decide; [done|]. intros [= <- _] Hne [Hc Hr (w & Hw & Hf & Hh)]. split; simpl; [done|set_solver|].
  exists w. by rewrite lookup_insert_ne.
Qed.
Lemma cancel_listening cap wm j wm' id L : cancel wm j = Done wm' → j ≠ id → listening cap wm id L → listening cap wm' id L.
Proof.
  unfold cancel, deref. destruct (heap wm !! j) as [w0|]; [|done]. cbn [mbind go_bind]. destruct (wDoneClosed w0); [done|].
  destruct (close_once _) as [w1| | |]; try done. cbn [mbind go_bind]. intros [= <-] Hne [Hc Hr (w & Hw & Hf & Hh)].
  split; simpl; [done|set_solver|]. exists w. by rewrite lookup_insert_ne.
Qed.
Lemma recv_listening cap wm j wm' v id L : recv wm j = Done (wm', Some v) → listening cap wm id L → listening cap wm' id L.
Proof.
  intros Hr [Hc Hreg (w & Hw & Hf & Hh)]. assert (Hh' := Hr). apply recv_some in Hh' as (w0 & w' & Hw0 & -> & Hb & Hg & Hh' & _).
  split; [done..|]. simpl. destruct (decide (j = id)) as [->|Hne]; [|exists w; by rewrite lookup_insert_ne].
  rewrite lookup_insert_eq. exists w'. split; [done|]. assert (w0 = w) as -> by congruence. split; [|congruence].
  unfold recv, deref, take_one in Hr. rewrite Hw in Hr. cbn [mbind go_bind] in Hr. destruct (buf w) as [|x b]; [by destruct (chClosed w)|].
  injection Hr as Heq _. apply (f_equal (.!! id)) in Heq. rewrite !lookup_insert_eq in Heq.
  by injection Heq as <-.
Qed.
(** A dispatch reaches it while there is room. *)
Lemma dispatch_room cap iter p wm v wm' id L :
  (∀ X, iter X ≡ₚ elements X) → mux_ready wm → (∀ w, heap wm !! id = Some w → Z.of_nat (length (buf w)) < cap) →
  DispatchFuncWithTimeout iter p false wm v = Done wm' → listening cap wm id L → listening cap wm' id (L ++ [v]).
Proof.
  intros Hiter [Hinv Hopen] Hroom Hd [Hcap Hreg (w & Hw & Hf & Hh)]. rewrite <-Hcap in Hroom.
  pose proof (Hroom w Hw) as Hlen.
  assert (Hone : dispatchOne (watcherChCapacity wm) p false w v = send w v).
  { unfold dispatchOne, filtered_out, send_ready. rewrite Hf, (mi_live _ Hinv id w Hreg Hw). simpl.
    rewrite (Hopen id w Hreg Hw). simpl. by rewrite bool_decide_true. }
  assert (Hws : watchers wm' = watchers wm).
  { destruct (dispatch_ready iter p false wm v Hiter) as (m & Hm & _ & Hws); [by split|]. congruence. }
  assert (Hnd : NoDup (getWatcherList iter wm)) by (unfold getWatcherList; rewrite (Hiter (watchers wm)); apply NoDup_elements).
  assert (Hc' : watcherChCapacity wm' = cap).
  { revert Hd. apply (foldM_preserves _ (λ x, watcherChCapacity x = cap)); [|done]. intros x j x' _ Hx.
    unfold deref. destruct (heap x !! j) as [w0|]; [|done]. cbn [mbind go_bind].
    destruct (dispatchOne _ p false w0 v) as [w1| | |]; try done. cbn [mbind go_bind]. by intros [= <-]. }
  split; [done|by rewrite Hws|]. unfold DispatchFuncWithTimeout in Hd.
  destruct (dispatch_list_dom _ _ _ _ _ id Hd ltac:(eauto)) as [w' Hw'].
  destruct (dispatch_list_each _ _ _ _ _ Hnd Hd id w' Hw') as (w0 & Hw0 & Hor). assert (w0 = w) as -> by congruence.
  exists w'. split; [done|]. destruct Hor as [[Hn _]|Hs].
  { destruct Hn. unfold getWatcherList. by rewrite (Hiter (watchers wm)), elem_of_elements. }
  rewrite Hone in Hs. unfold send in Hs. rewrite (Hopen id w Hreg Hw) in Hs. injection Hs as <-. split; [done|].
  unfold hist in *; simpl. by rewrite app_assoc, Hh.
Qed.
Lemma dispatch_listening cap iter p wm v wm' id L :
  (∀ X, iter X ≡ₚ elements X) → mux_ready wm → Z.of_nat (length L) < cap →
  DispatchFuncWithTimeout iter p false wm v = Done wm' → listening cap wm id L → listening cap wm' id (L ++ [v]).
Proof.
  intros Hiter Hr Hroom Hd Hl. eapply dispatch_room; eauto. intros w Hw.
  destruct Hl as [_ _ (w' & Hw' & _ & <-)]. unfold hist in Hroom. rewrite length_app in Hroom. simplify_eq. lia.
Qed.
End streams.
