(* ===== verification/Packet.v ===== *)
(** * Packet: the UDPLB datagram at its two ends

    [BuildPacket] of cmd/udplb-traffic-gen, [ParsePacket] and the statistics
    of cmd/udplb-echo-backend, and the health probe of
    internal/adapter/monitor/backend_state.go that the echo backend answers. *)
From S2P Require Import Prelude Types.

Definition PacketPrefix : Z := 0x55554944.
Definition MinPacketSize : Z := 20.

(** [binary.LittleEndian.PutUint32] into a four byte slice. *)
Definition PutUint32LE (v : Z) : list Z :=
  [v `mod` 2 ^ 8; (v `div` 2 ^ 8) `mod` 2 ^ 8; (v `div` 2 ^ 16) `mod` 2 ^ 8; (v `div` 2 ^ 24) `mod` 2 ^ 8].

(** [copy(l[a:b], src)]. *)
Definition copy_into (l : list Z) (a b : Z) (src : list Z) : go (list Z) :=
  dst ← slice_range l a b;
  let k := Nat.min (length dst) (length src) in
  Done (take (Z.to_nat a) l ++ take k src ++ drop (Z.to_nat a + k) l).

(** ** Traffic generator *)

Definition BuildPacket (sessionID : uuid) (payloadSize : Z) : go (list Z) :=
  let len := i64 (4 + 16 + payloadSize) in
  if decide (len < 0) then Panic MakeLength
  else
    let buf := replicate (Z.to_nat len) 0 in
    buf ← copy_into buf 0 4 (PutUint32LE PacketPrefix);
    copy_into buf 4 20 sessionID.

(** ** Echo backend *)

Definition uuid_Nil : uuid := replicate 16 0.

Definition ParsePacket (data : list Z) : go (uuid * bool) :=
  if decide (Z.of_nat (length data) < MinPacketSize) then Done (uuid_Nil, false)
  else
    p ← slice_range data 0 4;
    prefix ← Uint32 LittleEndian p;
    if decide (prefix ≠ PacketPrefix) then Done (uuid_Nil, false)
    else
      src ← slice_range data 4 20;
      sid ← copy_into uuid_Nil 0 16 src;
      Done (sid, true).

Record Stats := { TotalReceived : Z; Sessions : gmap uuid Z; SourceIPs : gset (list Z) }.

Definition NewStats : Stats := {| TotalReceived := 0; Sessions := ∅; SourceIPs := ∅ |}.

(** The source set is keyed by the text of the address; [IPString] stands for
    [IP.String]. *)
Definition Record_ (IPString : list Z → list Z) (s : Stats) (sessionID : uuid)
    (sourceAddr : option (list Z)) : Stats :=
  {| TotalReceived := i64 (TotalReceived s + 1);
     Sessions := <[sessionID := i64 (map_get (Sessions s) sessionID + 1)]> (Sessions s);
     SourceIPs := match sourceAddr with
                  | Some ip => {[IPString ip]} ∪ SourceIPs s
                  | None => SourceIPs s
                  end |}.

Record StatsReport := {
  rTimestamp : list Z; rTotalReceived : Z; rUniqueSessions : Z; rSessions : gmap (list Z) Z
}.

(** The report keys the counts by the text of the session ([uuid.UUID.String]);
    [now] is the formatted time. *)
Definition Snapshot (UUIDString : uuid → list Z) (now : list Z) (s : Stats) : StatsReport :=
  {| rTimestamp := now; rTotalReceived := TotalReceived s;
     rUniqueSessions := Z.of_nat (size (Sessions s));
     rSessions := list_to_map (prod_map UUIDString id <$> map_to_list (Sessions s)) |}.

(** One datagram of the receive loop: a valid one is counted and sent back
    unchanged to its sender, anything else is skipped. *)
Definition echo_step (IPString : list Z → list Z) (s : Stats) (data : list Z)
    (remoteAddr : option (list Z)) : go (Stats * option (list Z * list Z)) :=
  '(sid, ok) ← ParsePacket data;
  if ok : bool then
    Done (Record_ IPString s sid remoteAddr,
          match remoteAddr with Some a => Some (data, a) | None => None end)
  else Done (s, None).

(** The receive goroutine over the datagrams it reads, with their senders; a
    read error reports and goes on, and leaves no datagram.  The second part
    of the state is what was written back. *)
Definition echo_run (IPString : list Z → list Z) (ds : list (list Z * option (list Z)))
    : go (Stats * list (list Z * list Z)) :=
  foldM (λ '(s, sent) '(data, a),
      '(s', r) ← echo_step IPString s data a;
      Done (s', sent ++ match r with Some x => [x] | None => [] end))
    ds (NewStats, []).

(** ** The monitor's probe *)

Definition probePayload : list Z := [0x44; 0x49; 0x55; 0x55] ++ replicate 16 0.

(** What the network did with a probe. *)
Record probe_net := {
  dial_ok : bool; deadline_ok : bool; write_ok : bool;
  reply : option (list Z)  (* the datagram read before the deadline *)
}.

Definition probe (net : probe_net) : State :=
  if negb (dial_ok net) then StateUnavailable
  else if negb (deadline_ok net) then StateUnavailable
  else if negb (write_ok net) then StateUnavailable
  else match reply net with
       | None => StateUnavailable
       | Some _ => StateAvailable
       end.

(** * Lemmas *)

Definition prefix_bytes : list Z := [0x44; 0x49; 0x55; 0x55].

Lemma copy_into_prefix l a b src :
  0 <= a <= b → b <= Z.of_nat (length l) → Z.of_nat (length src) = b - a →
  copy_into l a b src = Done (take (Z.to_nat a) l ++ src ++ drop (Z.to_nat b) l).
Proof.
  intros Ha Hb Hs. unfold copy_into. rewrite slice_range_Done by done. cbn [mbind go_bind].
  rewrite length_take, length_drop.
  replace (Nat.min (Nat.min (Z.to_nat (b - a)) (length l - Z.to_nat a)) (length src))
    with (length src) by lia.
  rewrite firstn_all. do 3 f_equal. f_equal. lia.
Qed.

Lemma ParsePacket_run data :
  20 <= Z.of_nat (length data) → Forall is_byte data →
  ParsePacket data =
    if decide (take 4 data = prefix_bytes) then Done (take 16 (drop 4 data), true)
    else Done (uuid_Nil, false).
Proof.
  intros Hl Hb. unfold ParsePacket, MinPacketSize. rewrite decide_False by lia.
  rewrite (slice_range_Done data 0 4), (slice_range_Done data 4 20) by lia.
  destruct data as [|b0 [|b1 [|b2 [|b3 rest]]]]; simpl in Hl; try lia.
  rewrite !Forall_cons in Hb. destruct Hb as (H0 & H1 & H2 & H3 & _). unfold is_byte in *.
  change (take (Z.to_nat (4 - 0)) (drop (Z.to_nat 0) (b0 :: b1 :: b2 :: b3 :: rest)))
    with [b0; b1; b2; b3].
  change (take 4 (b0 :: b1 :: b2 :: b3 :: rest)) with [b0; b1; b2; b3].
  cbn [take Uint32 mbind go_bind].
  case_decide as Hp; unfold PacketPrefix in Hp.
  - rewrite (decide_False (P := [b0; b1; b2; b3] = prefix_bytes)); [done|].
    intros [= -> -> -> ->]. by apply Hp.
  - rewrite (decide_True (P := [b0; b1; b2; b3] = prefix_bytes)).
    2: { unfold prefix_bytes.
         assert (b0 = 0x44 ∧ b1 = 0x49 ∧ b2 = 0x55 ∧ b3 = 0x55) as (->&->&->&->) by lia. done. }
    rewrite copy_into_prefix; [|unfold uuid_Nil; rewrite ?length_replicate, ?length_take, ?length_drop; simpl length; lia..].
    cbn [mbind go_bind]. simpl. by rewrite app_nil_r.
Qed.

Lemma BuildPacket_run sid payloadSize :
  is_uuid sid → 0 <= payloadSize <= max_i64 - 20 →
  BuildPacket sid payloadSize = Done (prefix_bytes ++ sid ++ replicate (Z.to_nat payloadSize) 0).
Proof.
  intros [Hlen _] Hp. unfold BuildPacket.
  rewrite i64_small by (unfold is_i64, min_i64, max_i64 in *; lia).
  rewrite decide_False by lia.
  replace (Z.to_nat (4 + 16 + payloadSize)) with (4 + (16 + Z.to_nat payloadSize))%nat by lia.
  rewrite replicate_add, replicate_add.
  rewrite copy_into_prefix by (rewrite ?length_app, ?length_replicate; simpl; lia).
  cbn [mbind go_bind].
  rewrite copy_into_prefix by (rewrite ?length_app, ?length_replicate; simpl; lia).
  f_equal.
Qed.

(** Datagrams the echo backend accepts, and the session each carries. *)
Definition valid_packet (data : list Z) : bool :=
  bool_decide (20 <= length data)%nat && bool_decide (take 4 data = prefix_bytes).
Definition packet_session (data : list Z) : uuid := take 16 (drop 4 data).

Lemma valid_packet_intro (sid payload : list Z) :
  length sid = 16%nat →
  valid_packet (prefix_bytes ++ sid ++ payload) = true ∧
  packet_session (prefix_bytes ++ sid ++ payload) = sid.
Proof.
  intros Hlen. unfold valid_packet, packet_session.
  change (drop 4 (prefix_bytes ++ sid ++ payload)) with (sid ++ payload).
  change (take 4 (prefix_bytes ++ sid ++ payload)) with prefix_bytes.
  rewrite !length_app, Hlen, !bool_decide_true by (done || simpl; lia).
  by rewrite take_app_length'.
Qed.

Lemma ParsePacket_spec data :
  Forall is_byte data →
  ParsePacket data = Done (if valid_packet data then (packet_session data, true) else (uuid_Nil, false)).
Proof.
  intros Hb. unfold valid_packet, packet_session.
  destruct (decide (20 <= length data)%nat) as [Hl|Hl].
  - rewrite ParsePacket_run by (lia || done). rewrite bool_decide_true by done. simpl.
    by case_decide; [rewrite bool_decide_true|rewrite bool_decide_false].
  - unfold ParsePacket, MinPacketSize. rewrite decide_True by lia. by rewrite bool_decide_false.
Qed.

(** What a run over [ds] should count and answer. *)
Definition accepted (ds : list (list Z * option (list Z))) := filter (λ d, valid_packet d.1) ds.
Definition session_count (ds : list (list Z * option (list Z))) (sid : uuid) : Z :=
  Z.of_nat (length (filter (λ d, packet_session d.1 = sid) (accepted ds))).
Definition answers (ds : list (list Z * option (list Z))) : list (list Z * list Z) :=
  omap (λ d, pair d.1 <$> d.2) (accepted ds).

Record echo_at (ds : list (list Z * option (list Z))) (r : Stats * list (list Z * list Z)) : Prop := {
  ea_total : TotalReceived r.1 = Z.of_nat (length (accepted ds));
  ea_count : ∀ sid, map_get (Sessions r.1) sid = session_count ds sid;
  ea_dom : ∀ sid, is_Some (Sessions r.1 !! sid) ↔ 0 < session_count ds sid;
  ea_sent : r.2 = answers ds
}.

Lemma accepted_snoc ds d :
  accepted (ds ++ [d]) = accepted ds ++ if valid_packet d.1 then [d] else [].
Proof.
  unfold accepted. rewrite filter_app, filter_cons, filter_nil.
  destruct (valid_packet d.1) eqn:E; [rewrite decide_True|rewrite decide_False]; naive_solver.
Qed.
Lemma session_count_snoc ds d sid :
  session_count (ds ++ [d]) sid =
    session_count ds sid + if valid_packet d.1 then (if decide (packet_session d.1 = sid) then 1 else 0) else 0.
Proof.
  unfold session_count. rewrite accepted_snoc, filter_app, length_app.
  destruct (valid_packet d.1); [|simpl; lia].
  rewrite filter_cons, filter_nil. case_decide; simpl; lia.
Qed.
Lemma answers_snoc ds d :
  answers (ds ++ [d]) =
    answers ds ++ if valid_packet d.1 then (match d.2 with Some a => [(d.1, a)] | None => [] end) else [].
Proof.
  unfold answers. rewrite accepted_snoc, omap_app.
  destruct (valid_packet d.1); [|done]. simpl. by destruct d.2.
Qed.
Lemma accepted_length ds : (length (accepted ds) <= length ds)%nat.
Proof. apply length_filter. Qed.
Lemma session_count_bounds ds sid : 0 <= session_count ds sid <= Z.of_nat (length ds).
Proof.
  unfold session_count. pose proof (accepted_length ds).
  pose proof (length_filter (λ d, packet_session d.1 = sid) (accepted ds)). lia.
Qed.

Lemma echo_at_step IPString ds d r :
  Forall is_byte d.1 → Z.of_nat (length ds) < max_i64 → echo_at ds r →
  returns ('(s', r') ← echo_step IPString r.1 d.1 d.2;
           Done (s', r.2 ++ match r' with Some x => [x] | None => [] end))
    (echo_at (ds ++ [d])).
Proof.
  intros Hb Hl [Ht Hc Hd Hs]. destruct r as [s sent]; simpl in *.
  unfold echo_step. rewrite ParsePacket_spec by done. cbn [mbind go_bind].
  destruct (valid_packet d.1) eqn:Hv; apply returns_done.
  - set (sid := packet_session d.1). pose proof (session_count_bounds ds sid).
    pose proof (accepted_length ds).
    assert (Hi : i64 (map_get (Sessions s) sid + 1) = session_count ds sid + 1).
    { rewrite Hc. apply i64_small. unfold is_i64, min_i64, max_i64 in *. lia. }
    split; simpl.
    + rewrite accepted_snoc, Hv, length_app, Ht. simpl. rewrite i64_small; [lia|].
      unfold is_i64, min_i64, max_i64 in *. lia.
    + intros sid'. rewrite session_count_snoc, Hv. case_decide as Heq.
      * rewrite <-Heq, map_get_insert. done.
      * rewrite map_get_insert_ne by done. rewrite Hc. lia.
    + intros sid'. rewrite session_count_snoc, Hv. case_decide as Heq.
      * rewrite <-Heq, lookup_insert_eq. split; [unfold sid in *; lia|by eexists].
      * rewrite lookup_insert_ne, Hd by done. by rewrite Z.add_0_r.
    + rewrite answers_snoc, Hv, <-Hs. by destruct d.2.
  - split; simpl.
    + rewrite accepted_snoc, Hv, app_nil_r. done.
    + intros sid'. rewrite session_count_snoc, Hv, Z.add_0_r. done.
    + intros sid'. rewrite session_count_snoc, Hv, Z.add_0_r. done.
    + rewrite answers_snoc, Hv, <-Hs. done.
Qed.

Lemma echo_run_at (IPString : list Z → list Z) (ds : list (list Z * option (list Z))) :
  Forall (λ d, Forall is_byte d.1) ds → Z.of_nat (length ds) <= max_i64 →
  returns (echo_run IPString ds) (echo_at ds).
Proof.
  intros Hb Hl. unfold echo_run.
  apply (returns_foldM_prefix _ echo_at).
  - split; simpl; [done|done| |done]. intros sid. rewrite lookup_empty.
    split; [by intros []|]. unfold session_count. simpl. lia.
  - intros done d rest r -> Hat. rewrite Forall_app, Forall_cons in Hb. destruct Hb as (_ & Hd & _).
    pose proof (echo_at_step IPString done d r Hd) as Hstep.
    destruct r as [s sent], d as [data a]. apply Hstep; [|done].
    rewrite length_app in Hl. simpl in Hl. lia.
Qed.

(** * Properties *)

(** A packet built by the traffic generator for a session is parsed back
    to that session by the echo backend, whatever the payload size, and is
    exactly the prefix, the sixteen bytes of the session and zeroes. *)
Theorem packet_roundtrip (sid : uuid) (payloadSize : Z) :
  is_uuid sid → 0 <= payloadSize <= max_i64 - 20 →
  returns (BuildPacket sid payloadSize) (λ data,
    Z.of_nat (length data) = 20 + payloadSize ∧ ParsePacket data = Done (sid, true)).
Proof.
  intros Hs Hp. rewrite BuildPacket_run by done. apply returns_done.
  destruct Hs as [Hlen Hb]. split.
  { rewrite !length_app, length_replicate, Hlen. simpl. lia. }
  rewrite ParsePacket_spec.
  2: { rewrite !Forall_app. split_and!; [|done|].
       - unfold prefix_bytes, is_byte. repeat constructor; lia.
       - apply Forall_replicate. unfold is_byte. lia. }
  by destruct (valid_packet_intro sid (replicate (Z.to_nat payloadSize) 0) Hlen) as [-> ->].
Qed.

Lemma packet_roundtrip_witness :
  is_uuid (replicate 16 7) ∧ returns (BuildPacket (replicate 16 7) 3) (λ data,
    Z.of_nat (length data) = 20 + 3 ∧ ParsePacket data = Done (replicate 16 7, true)).
Proof.
  assert (is_uuid (replicate 16 7)).
  { split; [done|]. repeat constructor; unfold is_byte; lia. }
  split; [done|]. apply packet_roundtrip; [done|]. unfold max_i64. lia.
Defined.

(** [ParsePacket] never panics, and it accepts exactly the datagrams that
    start with the bytes 44 49 55 55 (the prefix in little-endian order)
    followed by sixteen bytes, which are the session it returns. *)
Theorem ParsePacket_accepts (data : list Z) (sid : uuid) :
  Forall is_byte data →
  (ParsePacket data = Done (sid, true) ↔
     length sid = 16%nat ∧ ∃ payload, data = prefix_bytes ++ sid ++ payload) ∧
  (ParsePacket data = Done (uuid_Nil, false) ↔ valid_packet data = false).
Proof.
  intros Hb. rewrite ParsePacket_spec by done. split.
  - split.
    + destruct (valid_packet data) eqn:Hv; [|done]. unfold valid_packet, packet_session in *.
      apply andb_true_iff in Hv as [Hl%bool_decide_eq_true Ht%bool_decide_eq_true].
      intros [= <-]. split; [rewrite length_take, length_drop; lia|].
      exists (drop 20 data). rewrite <-Ht.
      rewrite <-(take_drop 4 data) at 1. f_equal.
      rewrite <-(take_drop 16 (drop 4 data)) at 1. by rewrite drop_drop.
    + intros (Hlen & payload & ->).
      by destruct (valid_packet_intro sid payload Hlen) as [-> ->].
  - destruct (valid_packet data); naive_solver.
Qed.

Lemma ParsePacket_accepts_witness :
  let data := prefix_bytes ++ replicate 16 9 in
  (ParsePacket data = Done (replicate 16 9, true) ↔
     length (replicate 16 9) = 16%nat ∧ ∃ payload, data = prefix_bytes ++ replicate 16 9 ++ payload) ∧
  (ParsePacket data = Done (uuid_Nil, false) ↔ valid_packet data = false).
Proof.
  intros data. apply (ParsePacket_accepts data (replicate 16 9)).
  repeat constructor; unfold is_byte; lia.
Defined.

(** Over any stream of datagrams the echo backend's receive loop never
    panics; its total is the number of valid datagrams, each session is
    counted once per valid datagram that carries it and is present only if it
    was seen, and what it sends back is exactly the valid datagrams, in order,
    unchanged, each to its sender. *)
Theorem echo_counts (IPString : list Z → list Z) (ds : list (list Z * option (list Z))) :
  Forall (λ d, Forall is_byte d.1) ds → Z.of_nat (length ds) <= max_i64 →
  returns (echo_run IPString ds) (echo_at ds).
Proof. apply echo_run_at. Qed.

Lemma echo_counts_witness :
  returns (echo_run (λ ip, ip) [(probePayload, Some [10; 0; 0; 1]); ([0x55; 0x55], None)])
    (echo_at [(probePayload, Some [10; 0; 0; 1]); ([0x55; 0x55], None)]).
Proof.
  apply echo_counts.
  - repeat constructor; unfold is_byte; lia.
  - unfold max_i64. simpl. lia.
Defined.

(** The echo backend answers the health monitor's probe, and that answer
    makes the probed backend available; the same probe written with the bytes
    of the prefix in the order the README prints them (55 55 49 44) is
    dropped, and a backend that does not answer is unavailable. *)
Theorem probe_answered (IPString : list Z → list Z) (s : Stats) (a : list Z) :
  (∃ s', echo_step IPString s probePayload (Some a) = Done (s', Some (probePayload, a))) ∧
  probe {| dial_ok := true; deadline_ok := true; write_ok := true; reply := Some probePayload |} = StateAvailable ∧
  echo_step IPString s (reverse prefix_bytes ++ replicate 16 0) (Some a) = Done (s, None) ∧
  (∀ net, reply net = None → probe net = StateUnavailable).
Proof.
  split_and!; [by eexists|done|done|].
  intros net Hr. unfold probe. rewrite Hr. by destruct (dial_ok net), (deadline_ok net), (write_ok net).
Qed.
