(* ===== verification/EchoServer.v ===== *)
(** * EchoServer: the process of cmd/udplb-echo-backend/main.go

    [main] starts a goroutine that reads, counts and echoes datagrams and one
    that prints a report at every tick, waits for a signal, closes [doneCh]
    and the socket and prints a last report.  A schedule interleaves the
    three; the counts are guarded by a mutex, so recording a datagram and
    taking a snapshot are single steps.  The reports are printed as JSON. *)
From S2P Require Import Prelude Types GoNet Json Codec Packet.

(** ** The report as JSON *)

(** A Go string whose bytes are valid UTF-8. *)
Definition string_codec : codec (list Z) := {|
  zero := [];
  to_json s := JString s;
  store j z := match j with JString s => ok s | JNull => ok z | _ => mismatch z end
|}.
Definition string_text : text (list Z) := {| text_zero := []; marshal_text s := s; unmarshal_text s := inl s |}.

Section report.
Context (order : gmap (list Z) Z → list (list Z * Z)).

Definition sessions_codec : codec (option (gmap (list Z) Z)) := map_codec order string_text int64_codec.
Definition report_fields : list (field StatsReport) := [
  field_of "timestamp" string_codec rTimestamp
    (λ r x, {| rTimestamp := x; rTotalReceived := rTotalReceived r; rUniqueSessions := rUniqueSessions r; rSessions := rSessions r |});
  field_of "totalReceived" int64_codec rTotalReceived
    (λ r x, {| rTimestamp := rTimestamp r; rTotalReceived := x; rUniqueSessions := rUniqueSessions r; rSessions := rSessions r |});
  field_of "uniqueSessions" int64_codec rUniqueSessions
    (λ r x, {| rTimestamp := rTimestamp r; rTotalReceived := rTotalReceived r; rUniqueSessions := x; rSessions := rSessions r |});
  field_of "sessions" sessions_codec (λ r, Some (rSessions r))
    (λ r x, {| rTimestamp := rTimestamp r; rTotalReceived := rTotalReceived r; rUniqueSessions := rUniqueSessions r; rSessions := default ∅ x |})
].
Definition report_codec : codec StatsReport := {|
  zero := {| rTimestamp := []; rTotalReceived := 0; rUniqueSessions := 0; rSessions := ∅ |};
  to_json r := JObject [(bytes "timestamp", to_json string_codec (rTimestamp r));
                        (bytes "totalReceived", to_json int64_codec (rTotalReceived r));
                        (bytes "uniqueSessions", to_json int64_codec (rUniqueSessions r));
                        (bytes "sessions", to_json sessions_codec (Some (rSessions r)))];
  store := struct_store report_fields
|}.

(** The line [printReport] writes, without its newline. *)
Definition printReport (r : StatsReport) : list Z := Marshal report_codec r.
End report.

(** ** The process *)

Definition echoBufSize : nat := Z.to_nat 65535.

(** The receive goroutine: in [ReadFromUDP], past it, about to write back, or
    gone. *)
Inductive rx_at := XRead | XHave (data : list Z) (addr : option (list Z)) | XSend (data addr : list Z) | XGone.
(** The report goroutine: in its select, about to print a snapshot of [n]
    datagrams, or gone. *)
Inductive rep_at := PSelect | PSnap (n : nat) (r : StatsReport) | PGone.
(** [main]: waiting for a signal, past [close(doneCh)], past [conn.Close],
    about to print the last report, or returned (the process is gone). *)
Inductive main_at := MWait | MDone | MShut | MSnap (n : nat) (r : StatsReport) | MExit.

Record server := {
  stats : Stats;
  rx : rx_at;
  rep : rep_at;
  mn : main_at;
  handled : list (list Z * option (list Z));   (* past [ParsePacket] *)
  echoed : list (list Z * list Z);
  printed : list (nat * list Z)                (* datagrams handled at the snapshot, line *)
}.
Definition start_server : server :=
  {| stats := NewStats; rx := XRead; rep := PSelect; mn := MWait; handled := []; echoed := []; printed := [] |}.

(** [main] up to its goroutines, which exits with status 1 or serves: the
    answers of [ResolveUDPAddr] and [ListenUDP], and the report interval, on
    which [NewTicker] panics unless it is positive. *)
Definition echo_main (resolved : list Z + error) (listen : list Z → option error) (reportInterval : Z) : go (Z + server) :=
  match resolved with
  | inr _ => Done (inl 1)
  | inl addr =>
      match listen addr with
      | Some _ => Done (inl 1)
      | None => if decide (reportInterval <= 0) then Panic ExplicitPanic else Done (inr start_server)
      end
  end.

Definition with_rx (s : server) (x : rx_at) (e : list (list Z * list Z)) : server :=
  {| stats := stats s; rx := x; rep := rep s; mn := mn s; handled := handled s; echoed := echoed s ++ e; printed := printed s |}.
Definition with_rep (s : server) (x : rep_at) (l : list (nat * list Z)) : server :=
  {| stats := stats s; rx := rx s; rep := x; mn := mn s; handled := handled s; echoed := echoed s; printed := printed s ++ l |}.
Definition with_mn (s : server) (x : main_at) (l : list (nat * list Z)) : server :=
  {| stats := stats s; rx := rx s; rep := rep s; mn := x; handled := handled s; echoed := echoed s; printed := printed s ++ l |}.

Inductive eact :=
  | Datagram (data : list Z) (addr : option (list Z))
  | ReadFails
  | Handle
  | Echo
  | Tick (now : list Z)
  | PrintTick
  | TickDone
  | Signal
  | CloseConn
  | FinalSnap (now : list Z)
  | FinalPrint.

Section server.
Context `{!UuidText} (order : gmap (list Z) Z → list (list Z * Z)) (IPString : list Z → list Z).

(** [UUID.String] writes the text [MarshalText] gives. *)
Definition snapshot (now : list Z) (st : Stats) : StatsReport := Snapshot uuid_MarshalText now st.

(** What [main] has done: closed [doneCh], closed the socket, returned. *)
Definition done_closed (s : server) : bool := match mn s with MWait => false | _ => true end.
Definition conn_open (s : server) : bool := match mn s with MWait | MDone => true | _ => false end.
Definition exited (s : server) : bool := match mn s with MExit => true | _ => false end.

Definition estep (s : server) (a : eact) : option server :=
  if exited s then None else
  match a with
  | Datagram d addr =>
      match rx s with
      | XRead => if conn_open s then Some (with_rx s (XHave (take echoBufSize d) addr) []) else None
      | _ => None
      end
  | ReadFails =>      (* a warning, unless doneCh is closed *)
      match rx s with XRead => Some (with_rx s (if done_closed s then XGone else XRead) []) | _ => None end
  | Handle =>
      match rx s with
      | XHave d addr =>
          match echo_step IPString (stats s) d addr with
          | Done (st, r) =>
              Some {| stats := st; rx := match r with Some (d, a) => XSend d a | None => XRead end; rep := rep s;
                      mn := mn s; handled := handled s ++ [(d, addr)]; echoed := echoed s; printed := printed s |}
          | _ => None
          end
      | _ => None
      end
  | Echo =>           (* the error of a write to the closed socket is dropped *)
      match rx s with XSend d a => Some (with_rx s XRead (if conn_open s then [(d, a)] else [])) | _ => None end
  | Tick now =>
      match rep s with PSelect => Some (with_rep s (PSnap (length (handled s)) (snapshot now (stats s))) []) | _ => None end
  | PrintTick =>
      match rep s with PSnap n r => Some (with_rep s PSelect [(n, printReport order r)]) | _ => None end
  | TickDone =>
      match rep s with PSelect => if done_closed s then Some (with_rep s PGone []) else None | _ => None end
  | Signal => match mn s with MWait => Some (with_mn s MDone []) | _ => None end
  | CloseConn => match mn s with MDone => Some (with_mn s MShut []) | _ => None end
  | FinalSnap now =>
      match mn s with MShut => Some (with_mn s (MSnap (length (handled s)) (snapshot now (stats s))) []) | _ => None end
  | FinalPrint =>
      match mn s with MSnap n r => Some (with_mn s MExit [(n, printReport order r)]) | _ => None end
  end.
End server.

(** * Lemmas *)

(** ** The report reads back *)

Section report_laws.
Context (order : gmap (list Z) Z → list (list Z * Z)) (Horder : ∀ m, order m ≡ₚ map_to_list m).

Definition report_valid (r : StatsReport) : Prop :=
  utf8 (rTimestamp r) ∧ is_i64 (rTotalReceived r) ∧ is_i64 (rUniqueSessions r) ∧
  map_Forall (λ k v, utf8 k ∧ is_i64 v) (rSessions r).

Lemma string_text_ok : text_ok string_text utf8.
Proof. by split. Qed.
Lemma report_back r : report_valid r → Unmarshal (report_codec order) (printReport order r) (zero (report_codec order)) = (r, None).
Proof using Horder.
  intros (Ht & Hn & Hu & Hm). unfold Unmarshal, printReport, Marshal.
  assert (Hname : ∀ s, Forall (λ b, 0 <= b < 128) (bytes s) → utf8 (bytes s)) by (intros; by apply utf8_ascii).
  rewrite parse_print.
  - pose proof (map_store order string_text int64_codec utf8 is_i64 0 Horder string_text_ok int64_overwrites (rSessions r) (Some ∅) Hm) as Hs.
    destruct r as [tm n u ss]. cbn [report_codec store to_json struct_store rTimestamp rTotalReceived rUniqueSessions rSessions] in *.
    cbn [store_fields report_fields field_of find_field].
    unfold find_field; simpl. unfold id. rewrite !ParseInt64_itoa by done. simpl. unfold sessions_codec in *.
    simpl in Hs. destruct (store_members _ _ _ _) as [v sv fl]. simpl in *. injection Hs as -> -> ->. by rewrite (right_id ∅ (∪)).
  - eapply (printable_mono 2); [by unfold maxNestingDepth|]. apply printable_object. split; [lia|].
    repeat (apply Forall_cons; split); [..|apply Forall_nil; done]; simpl; (split;
      [apply utf8_ascii; cbv; repeat (apply List.Forall_cons; [split; [discriminate|reflexivity]|]); apply List.Forall_nil|]).
    + done.
    + by apply itoa_literal.
    + by apply itoa_literal.
    + by apply (map_printable order string_text int64_codec utf8 is_i64 0 Horder string_text_ok int64_overwrites).
Qed.
End report_laws.

(** ** The process *)

Section server_laws.
Context `{!UuidText} (order : gmap (list Z) Z → list (list Z * Z)) (IPString : list Z → list Z).
Implicit Types s : server.

Definition ascii (l : list Z) : Prop := Forall (λ b, 0 <= b < 128) l.
(** Datagrams are bytes and times are plain text. *)
Definition fair_eact (a : eact) : Prop :=
  match a with
  | Datagram d _ => Forall is_byte d
  | Tick now | FinalSnap now => ascii now
  | _ => True
  end.

Definition tally (ds : list (list Z * option (list Z))) : Stats :=
  match echo_run IPString ds with Done (st, _) => st | _ => NewStats end.
(** A snapshot taken when [n] datagrams had been handled. *)
Definition report_of s (n : nat) (r : StatsReport) : Prop :=
  (n <= length (handled s))%nat ∧ ∃ now, ascii now ∧ r = snapshot now (tally (take n (handled s))).

Definition waiting (x : rx_at) : list (list Z * list Z) := match x with XSend d a => [(d, a)] | _ => [] end.
Definition in_buffer (x : rx_at) : list (list Z) := match x with XHave d _ => [d] | _ => [] end.

Record server_ok s : Prop := {
  so_run : ∃ sent, echo_run IPString (handled s) = Done (stats s, sent);
  so_bytes : Forall (λ d, Forall is_byte d.1) (handled s) ∧ Forall (Forall is_byte) (in_buffer (rx s));
  so_echoed : echoed s ++ waiting (rx s) `sublist_of` answers (handled s);
  so_tick : match rep s with PSnap n r => report_of s n r | _ => True end;
  so_final : match mn s with MSnap n r => report_of s n r | _ => True end;
  so_printed : Forall (λ x, ∃ r, x.2 = printReport order r ∧ report_of s x.1 r) (printed s);
  so_sorted : ∃ ls fin, printed s = ls ++ fin ∧ StronglySorted le (fst <$> ls) ∧
    match rep s with PSnap n _ => Forall (λ k, (k <= n)%nat) (fst <$> ls) | _ => True end ∧
    match mn s with MExit => length fin = 1%nat | _ => fin = [] end
}.

Lemma echo_run_snoc ds d st sent r :
  echo_run IPString ds = Done (st, sent) → echo_step IPString st d.1 d.2 = Done r →
  ∃ sent', echo_run IPString (ds ++ [d]) = Done (r.1, sent').
Proof.
  intros H1 H2. unfold echo_run in *.
  assert (Happ : ∀ {S A} (f : S → A → go S) l1 l2 x, foldM f (l1 ++ l2) x = (y ← foldM f l1 x; foldM f l2 y)).
  { intros S A f l1. induction l1 as [|a l1 IH]; intros l2 x; simpl; [done|]. destruct (f x a); simpl; [apply IH|done..]. }
  rewrite Happ, H1. destruct d as [d a]; simpl in *. rewrite H2. destruct r as [st' o]. simpl. eauto.
Qed.
Lemma tally_run ds st sent : echo_run IPString ds = Done (st, sent) → tally ds = st.
Proof. intros E. unfold tally. by rewrite E. Qed.
Lemma report_now s now : server_ok s → ascii now → report_of s (length (handled s)) (snapshot now (stats s)).
Proof.
  intros [[sent Hr] _ _ _ _ _ _] Hn. split; [done|]. exists now. split; [done|]. by rewrite firstn_all, (tally_run _ _ _ Hr).
Qed.
Lemma report_mono s s' n r ds : handled s' = handled s ++ ds → report_of s n r → report_of s' n r.
Proof.
  intros Hh [Hn (now & Ha & ->)]. split; [rewrite Hh, length_app; lia|]. exists now. split; [done|].
  by rewrite Hh, take_app_le.
Qed.
Lemma report_bound s k : server_ok s → k ∈ fst <$> printed s → (k <= length (handled s))%nat.
Proof.
  intros Hok (x & -> & Hx)%list_elem_of_fmap. pose proof (so_printed _ Hok) as Hp. rewrite Forall_forall in Hp.
  by destruct (Hp x Hx) as (r & _ & Hn & _).
Qed.

Lemma answers_valid ds d a : valid_packet d = true → answers (ds ++ [(d, Some a)]) = answers ds ++ [(d, a)].
Proof. intros Hv. rewrite answers_snoc. simpl. by rewrite Hv. Qed.
Lemma handle_answers ds d addr st st' o :
  Forall is_byte d → echo_step IPString st d addr = Done (st', o) →
  answers (ds ++ [(d, addr)]) = answers ds ++ match o with Some x => [x] | None => [] end.
Proof.
  intros Hb. unfold echo_step. rewrite ParsePacket_spec by done. rewrite answers_snoc. simpl. cbn [mbind go_bind].
  destruct (valid_packet d); intros [= _ <-]; [by destruct addr|done].
Qed.

Ltac estep_cases H :=
  repeat match type of H with
  | match ?x with _ => _ end = Some _ => destruct x eqn:?; try discriminate H
  | context [match ?x with (_, _) => _ end] => destruct x; cbn beta iota in H
  end; try discriminate H; try injection H as <-.

Lemma server_same s s' :
  stats s' = stats s → handled s' = handled s → printed s' = printed s →
  Forall (Forall is_byte) (in_buffer (rx s')) → echoed s' ++ waiting (rx s') `sublist_of` answers (handled s) →
  rep s' = rep s → mn s' = mn s → server_ok s → server_ok s'.
Proof.
  intros H1 H2 H3 H4 H5 H6 H7 [Hr [Hb Hx] He Ht Hf Hp Hs]. unfold report_of in *.
  split; unfold report_of; rewrite ?H1, ?H2, ?H3, ?H6, ?H7; done.
Qed.

Lemma estep_ok s a s' : fair_eact a → server_ok s → estep order IPString s a = Some s' → server_ok s'.
Proof.
  intros Ha Hok Hs. unfold estep in Hs. destruct (exited s) eqn:Hex; [done|]. destruct a; simpl in Ha; estep_cases Hs; try (exact Hok).
  - eapply server_same; [..|exact Hok]; try done; simpl; [by apply Forall_singleton, Forall_take|].
    pose proof (so_echoed _ Hok) as He. rewrite Heqr in He. by rewrite !app_nil_r in *.
  - eapply server_same; [..|exact Hok]; try done; simpl; [by destruct (done_closed s)|].
    pose proof (so_echoed _ Hok) as He. rewrite Heqr in He. by destruct (done_closed s); rewrite !app_nil_r in *.
  - (* Handle *)
    assert (Hm := λ n r, report_mono s {| stats := s0; rx := match o with Some (d, a0) => XSend d a0 | None => XRead end;
      rep := rep s; mn := mn s; handled := handled s ++ [(data, addr)]; echoed := echoed s; printed := printed s |} n r _ eq_refl).
    destruct Hok as [[sent Hr] [Hb Hx] He Ht Hf Hp Hs]. rewrite Heqr in Hx, He. cbn [in_buffer] in Hx. rewrite Forall_singleton in Hx. split; simpl.
    + destruct (echo_run_snoc _ (data, addr) _ _ _ Hr Heqg) as [sent' Hr']. by exists sent'.
    + split; [apply Forall_app_2; [done|apply Forall_singleton; exact Hx]|destruct o as [[]|]; apply Forall_nil_2].
    + rewrite app_nil_r in He. rewrite (handle_answers _ _ _ _ _ _ Hx Heqg).
      assert (waiting match o with Some (d, a0) => XSend d a0 | None => XRead end = match o with Some x => [x] | None => [] end) as ->
        by by destruct o as [[]|]. by apply sublist_app.
    + destruct (rep s); auto.
    + destruct (mn s); auto.
    + eapply Forall_impl; [exact Hp|]. intros x (r & Hx1 & Hx2). exists r. auto.
    + done.
  - eapply server_same; [..|exact Hok]; try done. simpl. rewrite app_nil_r.
    pose proof (so_echoed _ Hok) as He. rewrite Heqr in He. destruct (conn_open s); [done|].
    etrans; [|exact He]. rewrite app_nil_r. by apply sublist_inserts_r.
  - (* Tick *)
    pose proof (report_now s now Hok Ha) as Hn. pose proof (λ k, report_bound s k Hok) as Hbd.
    destruct Hok as [Hr Hb He Ht Hf Hp (ls & fin & Hl & Hs & _ & Hfin)].
    split; simpl; rewrite ?app_nil_r; try done. exists ls, fin. split_and!; try done.
    apply Forall_forall. intros k Hk. apply Hbd. rewrite Hl, fmap_app. set_solver.
  - (* PrintTick *)
    destruct Hok as [Hr Hb He Ht Hf Hp (ls & fin & Hl & Hs & Hle & Hfin)]. rewrite Heqr in Ht, Hle. split; simpl; try done.
    + apply Forall_app_2; [done|]. apply Forall_singleton. by exists r.
    + assert (fin = []) as -> by (unfold exited in Hex; by destruct (mn s)). exists (ls ++ [(n, printReport order r)]), [].
      rewrite Hl, !app_nil_r. split_and!; [done| |done|by unfold exited in Hex; destruct (mn s)].
      rewrite fmap_app. apply StronglySorted_app_2; [|done|by repeat constructor].
      intros x y Hx Hy. rewrite Forall_forall in Hle. apply list_elem_of_singleton in Hy as ->. by apply Hle.
  - destruct Hok as [Hr Hb He Ht Hf Hp (ls & fin & Hl & Hs & Hle & Hfin)]. split; simpl; rewrite ?app_nil_r; try done.
    by exists ls, fin.
  - destruct Hok as [Hr Hb He Ht Hf Hp (ls & fin & Hl & Hs & Hle & Hfin)]. rewrite Heqm in Hfin. split; simpl; rewrite ?app_nil_r; try done.
    by exists ls, fin.
  - destruct Hok as [Hr Hb He Ht Hf Hp (ls & fin & Hl & Hs & Hle & Hfin)]. rewrite Heqm in Hfin. split; simpl; rewrite ?app_nil_r; try done.
    by exists ls, fin.
  - pose proof (report_now s now Hok Ha) as Hn.
    destruct Hok as [Hr Hb He Ht Hf Hp (ls & fin & Hl & Hs & Hle & Hfin)]. rewrite Heqm in Hfin. split; simpl; rewrite ?app_nil_r; try done.
    by exists ls, fin.
  - destruct Hok as [Hr Hb He Ht Hf Hp (ls & fin & Hl & Hs & Hle & Hfin)]. rewrite Heqm in Hfin, Hf. subst fin. split; simpl; try done.
    + apply Forall_app_2; [done|]. apply Forall_singleton. by exists r.
    + exists ls, [(n, printReport order r)]. by rewrite Hl, app_nil_r.
Qed.

(** A report interval of zero or less is not refused: the process panics once
    its socket is open. *)
Lemma echo_main_panics resolved listen interval :
  echo_main resolved listen interval = Panic ExplicitPanic ↔
  ∃ addr, resolved = inl addr ∧ listen addr = None ∧ interval <= 0.
Proof.
  unfold echo_main. split.
  - destruct resolved as [addr|]; [|done]. destruct (listen addr) eqn:E; [done|]. case_decide; [|done]. eauto.
  - intros (addr & -> & -> & Hi). by rewrite decide_True.
Qed.

(** ** What a report says *)

Lemma tally_at ds : Forall (λ d, Forall is_byte d.1) ds → Z.of_nat (length ds) <= max_i64 →
  ∃ sent, echo_at ds (tally ds, sent).
Proof.
  intros Hb Hl. destruct (echo_run_at IPString ds Hb Hl) as ([st sent] & Hr & Hat).
  exists sent. by rewrite (tally_run _ _ _ Hr).
Qed.
Lemma counted_session ds sid : Forall (λ d, Forall is_byte d.1) ds → 0 < session_count ds sid →
  is_uuid sid ∧ sid ∈ (packet_session ∘ fst <$> accepted ds).
Proof.
  intros Hb Hc. unfold session_count in Hc.
  destruct (filter (λ d, packet_session d.1 = sid) (accepted ds)) as [|d l] eqn:E; [simpl in Hc; lia|].
  assert (Hd : d ∈ filter (λ d, packet_session d.1 = sid) (accepted ds)) by (rewrite E; set_solver).
  apply list_elem_of_filter in Hd as [<- Hd]. split; [|apply list_elem_of_fmap; by exists d].
  unfold accepted in Hd. apply list_elem_of_filter in Hd as [Hv Hd]. rewrite Forall_forall in Hb. specialize (Hb d Hd).
  unfold valid_packet in Hv. apply Is_true_true, andb_true_iff in Hv as [Hl%bool_decide_eq_true _]. unfold packet_session. split.
  - rewrite length_take, length_drop. lia.
  - by apply Forall_take, Forall_drop.
Qed.
Lemma size_list_le (l : list uuid) : (size (list_to_set l : gset uuid) <= length l)%nat.
Proof.
  induction l as [|x l IH]; [done|]. simpl. rewrite size_union_alt, size_singleton.
  pose proof (subseteq_size ((list_to_set l : gset uuid) ∖ {[x]}) (list_to_set l) ltac:(set_solver)). lia.
Qed.

Lemma snapshot_says now ds : ascii now → Forall (λ d, Forall is_byte d.1) ds → Z.of_nat (length ds) <= max_i64 →
  let r := snapshot now (tally ds) in
  report_valid r ∧ rTotalReceived r = Z.of_nat (length (accepted ds)) ∧
  ∀ sid, is_uuid sid →
    rSessions r !! uuid_MarshalText sid = if decide (0 < session_count ds sid) then Some (session_count ds sid) else None.
Proof.
  intros Hn Hb Hl r. destruct (tally_at ds Hb Hl) as (sent & [Ht Hc Hd _]). simpl in *.
  assert (Hval : ∀ sid v, Sessions (tally ds) !! sid = Some v → is_uuid sid ∧ v = session_count ds sid).
  { intros sid v Hv. split; [apply (counted_session ds sid Hb), Hd; eauto|]. rewrite <-Hc. unfold map_get. by rewrite Hv. }
  assert (Hnd : NoDup (prod_map uuid_MarshalText id <$> map_to_list (Sessions (tally ds))).*1).
  { rewrite <-list_fmap_compose. apply (NoDup_fmap_2_strong); [|apply NoDup_map_to_list].
    intros [k v] [k' v'] Hk Hk' Heq. apply elem_of_map_to_list in Hk, Hk'. simpl in Heq.
    destruct (Hval _ _ Hk) as [Hu _], (Hval _ _ Hk') as [Hu' _].
    pose proof (uuid_text_back k Hu) as E. rewrite Heq, (uuid_text_back k' Hu') in E. simplify_eq. congruence. }
  assert (Hin : ∀ k v, rSessions r !! k = Some v → ∃ sid, k = uuid_MarshalText sid ∧ Sessions (tally ds) !! sid = Some v).
  { intros k v Hk. simpl in Hk. apply elem_of_list_to_map in Hk; [|done].
    apply list_elem_of_fmap in Hk as ([sid v'] & [= -> ->] & Hk). apply elem_of_map_to_list in Hk. by exists sid. }
  pose proof (accepted_length ds). split_and!.
  - split_and!.
    + by apply utf8_ascii.
    + simpl. rewrite Ht. unfold is_i64, min_i64. unfold max_i64 in *. lia.
    + assert (Hsz : (size (Sessions (tally ds)) <= length (accepted ds))%nat).
      { rewrite <-size_dom. etrans; [apply (subseteq_size _ (list_to_set (packet_session ∘ fst <$> accepted ds)))|].
        - intros sid Hsid. apply elem_of_dom in Hsid. apply elem_of_list_to_set. apply (counted_session ds sid Hb). by apply Hd.
        - etrans; [apply size_list_le|]. by rewrite length_fmap. }
      simpl. unfold is_i64, min_i64. unfold max_i64 in *. lia.
    + intros k v Hk. destruct (Hin k v Hk) as (sid & -> & Hs). destruct (Hval _ _ Hs) as [Hu ->]. split.
      * by apply utf8_ascii, uuid_text_ascii.
      * pose proof (session_count_bounds ds sid). unfold is_i64, min_i64. unfold max_i64 in *. lia.
  - done.
  - intros sid Hu. case_decide as Hp.
    + simpl. apply elem_of_list_to_map; [done|]. apply list_elem_of_fmap. exists (sid, session_count ds sid). split; [done|].
      apply elem_of_map_to_list. apply Hd in Hp as [v Hv]. by destruct (Hval _ _ Hv) as [_ <-].
    + destruct (rSessions r !! uuid_MarshalText sid) as [v|] eqn:E; [|done]. exfalso. apply Hp.
      destruct (Hin _ _ E) as (sid' & Heq & Hs). destruct (Hval _ _ Hs) as [Hu' _].
      pose proof (uuid_text_back sid Hu) as E1. rewrite Heq, (uuid_text_back sid' Hu') in E1. injection E1 as ->. apply Hd. eauto.
Qed.
End server_laws.

(** * Properties *)


(** A probe is counted, reported and echoed, then a signal arrives. *)
Definition echo_acts : list eact :=
  [Datagram probePayload (Some [10; 0; 0; 1]); Tick (bytes "t0"); Handle; PrintTick; Echo; ReadFails; Tick (bytes "t1"); Signal;
   PrintTick; CloseConn; ReadFails; FinalSnap (bytes "t2"); TickDone; FinalPrint].
Lemma echo_acts_run : is_Some (run_acts (@estep hex_uuid map_to_list id) start_server echo_acts) ∧
  ∀ s, run_acts (@estep hex_uuid map_to_list id) start_server echo_acts = Some s → length (handled s) = 1%nat.
Proof.
  assert (H : match run_acts (@estep hex_uuid map_to_list id) start_server echo_acts with
              | Some s => (length (handled s) =? 1)%nat | None => false end = true) by (vm_compute; reflexivity).
  destruct (run_acts _ _ _) as [s|]; [|discriminate H]. split; [by exists s|]. intros ? [= <-]. by apply Nat.eqb_eq.
Qed.
