(* ===== verification/WorkerPool.v ===== *)
(** * WorkerPool: internal/util/workerpool.go

    [n] workers receive functions from one channel and run them; closing the
    channel stops them, closing [terminateCh] makes each of them drain the
    channel before it exits.  A schedule interleaves the senders, the closing
    of either channel and the workers; each worker is at one of the points
    where it can block or be preempted.  Functions are tasks of an arbitrary
    type; the logs [sent], [started] and [executed] record the order in which
    tasks entered the channel, left it and returned. *)
From S2P Require Import Prelude.

(** Where a worker is: at the outer [select], running a function it took
    there, at the [select] of the draining loop, running a function it took
    there, or after its return. *)
Inductive worker (T : Type) :=
  | Selecting
  | Working (t : T)
  | Draining
  | DrainWorking (t : T)
  | Exited.
Arguments Selecting {T}.
Arguments Working {T} t.
Arguments Draining {T}.
Arguments DrainWorking {T} t.
Arguments Exited {T}.

Record pool (T : Type) := {
  queue : list T;           (* the buffer of q *)
  qcap : nat;
  qclosed : bool;
  terminated : bool;        (* terminateCh is closed *)
  workers : list (worker T);
  done_closed : bool;       (* doneCh *)
  sent : list T;
  started : list T;
  executed : list T
}.
Arguments queue {T} _.
Arguments qcap {T} _.
Arguments qclosed {T} _.
Arguments terminated {T} _.
Arguments workers {T} _.
Arguments done_closed {T} _.
Arguments sent {T} _.
Arguments started {T} _.
Arguments executed {T} _.

Section pool.
Context {T : Type}.
Implicit Types (p : pool T) (t : T).

(** [NewFunctionalWorkerPool] and [NewWorkerPool]: the workers are started. *)
Definition NewFunctionalWorkerPool (n cap : nat) : pool T :=
  {| queue := []; qcap := cap; qclosed := false; terminated := false; workers := replicate n Selecting;
     done_closed := false; sent := []; started := []; executed := [] |}.

(** [Close] of a [WorkerPool]: a second one closes a closed channel. *)
Definition pool_Close p : go (pool T) :=
  if terminated p then Panic CloseOfClosedChannel
  else Done {| queue := queue p; qcap := qcap p; qclosed := qclosed p; terminated := true; workers := workers p;
               done_closed := done_closed p; sent := sent p; started := started p; executed := executed p |}.

Definition enqueue p t : pool T :=
  {| queue := queue p ++ [t]; qcap := qcap p; qclosed := qclosed p; terminated := terminated p; workers := workers p;
     done_closed := done_closed p; sent := sent p ++ [t]; started := started p; executed := executed p |}.
Definition close_queue p : pool T :=
  {| queue := queue p; qcap := qcap p; qclosed := true; terminated := terminated p; workers := workers p;
     done_closed := done_closed p; sent := sent p; started := started p; executed := executed p |}.
(** Worker [i] moves to [w] leaving the queue [q]; [st] and [ex] are the tasks
    it starts and completes. *)
Definition move p (i : nat) (w : worker T) (q st ex : list T) : pool T :=
  {| queue := q; qcap := qcap p; qclosed := qclosed p; terminated := terminated p; workers := <[i := w]> (workers p);
     done_closed := done_closed p; sent := sent p; started := started p ++ st; executed := executed p ++ ex |}.
(** A sender hands its task to a worker at a receive: the channel is empty. *)
Definition handoff p (i : nat) (w : worker T) t : pool T :=
  {| queue := queue p; qcap := qcap p; qclosed := qclosed p; terminated := terminated p; workers := <[i := w]> (workers p);
     done_closed := done_closed p; sent := sent p ++ [t]; started := started p ++ [t]; executed := executed p |}.
Definition close_done p : pool T :=
  {| queue := queue p; qcap := qcap p; qclosed := qclosed p; terminated := terminated p; workers := workers p;
     done_closed := true; sent := sent p; started := started p; executed := executed p |}.

Inductive act :=
  | Send (t : T)              (* q <- t, into the buffer *)
  | SendTo (i : nat) (t : T)  (* q <- t, received by worker i at once *)
  | CloseQueue                (* close(q) *)
  | Terminate                 (* close(terminateCh) *)
  | Receive (i : nat)         (* worker i receives from q *)
  | ReceiveClosed (i : nat)   (* worker i finds q closed and empty *)
  | SeeTerminate (i : nat)    (* worker i finds terminateCh closed *)
  | DrainEmpty (i : nat)      (* draining worker i finds q empty *)
  | Return (i : nat)          (* the function worker i runs returns *)
  | AllDone.                  (* wg.Wait() returns, close(doneCh) *)

Definition is_exited (w : worker T) : bool := match w with Exited => true | _ => false end.

Definition pool_step p (a : act) : option (pool T) :=
  match a with
  | Send t => if decide (qclosed p = false ∧ (length (queue p) < qcap p)%nat) then Some (enqueue p t) else None
  | SendTo i t =>
      if decide (qclosed p = false ∧ queue p = []) then
        match workers p !! i with
        | Some Selecting => Some (handoff p i (Working t) t)
        | Some Draining => Some (handoff p i (DrainWorking t) t)
        | _ => None
        end
      else None
  | CloseQueue => if qclosed p then None else Some (close_queue p)
  | Terminate => match pool_Close p with Done p' => Some p' | _ => None end
  | Receive i =>
      match workers p !! i, queue p with
      | Some Selecting, t :: q => Some (move p i (Working t) q [t] [])
      | Some Draining, t :: q => Some (move p i (DrainWorking t) q [t] [])
      | _, _ => None
      end
  | ReceiveClosed i =>
      match workers p !! i with
      | Some Selecting | Some Draining =>
          if decide (qclosed p = true ∧ queue p = []) then Some (move p i Exited [] [] []) else None
      | _ => None
      end
  | SeeTerminate i =>
      match workers p !! i with
      | Some Selecting => if terminated p then Some (move p i Draining (queue p) [] []) else None
      | _ => None
      end
  | DrainEmpty i =>
      match workers p !! i with
      | Some Draining => if decide (queue p = []) then Some (move p i Exited [] [] []) else None
      | _ => None
      end
  | Return i =>
      match workers p !! i with
      | Some (Working t) => Some (move p i Selecting (queue p) [] [t])
      | Some (DrainWorking t) => Some (move p i Draining (queue p) [] [t])
      | _ => None
      end
  | AllDone =>
      if decide (Forall (λ w, is_exited w = true) (workers p) ∧ done_closed p = false) then Some (close_done p) else None
  end.
End pool.
Arguments act : clear implicits.

(** * Lemmas *)

Section invariants.
Context {T : Type}.
Implicit Types (p : pool T) (t : T).

Definition task_of (w : worker T) : option T :=
  match w with Working t | DrainWorking t => Some t | _ => None end.
Definition is_draining (w : worker T) : bool := match w with Draining | DrainWorking _ => true | _ => false end.
(** The tasks that were started and have not returned. *)
Definition running p : list T := omap task_of (workers p).

Record pool_inv (n : nat) p : Prop := {
  pi_size : length (workers p) = n;
  pi_fifo : started p ++ queue p = sent p;
  pi_once : executed p ++ running p ≡ₚ started p;
  pi_seq : n = 1%nat → executed p ++ running p = started p;
  pi_cap : (length (queue p) <= qcap p)%nat;
  pi_drain : terminated p = false → Forall (λ w, is_draining w = false) (workers p);
  pi_done : done_closed p = true → Forall (λ w, is_exited w = true) (workers p)
}.

Lemma omap_cons_list (w : worker T) l : omap task_of (w :: l) = option_list (task_of w) ++ omap task_of l.
Proof. by destruct w. Qed.
(** Worker [i] is the only one that changes. *)
Lemma running_at p i w :
  workers p !! i = Some w →
  ∃ l1 l2, workers p = l1 ++ w :: l2 ∧ ∀ w', <[i := w']> (workers p) = l1 ++ w' :: l2.
Proof.
  intros Hi. exists (take i (workers p)), (drop (S i) (workers p)). split; [by rewrite take_drop_middle|].
  intros w'. apply insert_take_drop. by eapply lookup_lt_Some.
Qed.
Lemma not_done p i w n :
  pool_inv n p → workers p !! i = Some w → is_exited w = false → done_closed p = false.
Proof.
  intros Hp Hi Hw. destruct (done_closed p) eqn:Hd; [|done]. pose proof (pi_done _ _ Hp Hd) as Ha.
  pose proof (Forall_lookup_1 _ _ _ _ Ha Hi). congruence.
Qed.
(** A worker moving between two points: what has to be shown of the move. *)
Lemma move_inv n p i w w' q st ex :
  pool_inv n p → workers p !! i = Some w → is_exited w = false →
  st ++ q = queue p → (option_list (task_of w)) ++ st ≡ₚ ex ++ option_list (task_of w') →
  (n = 1%nat → option_list (task_of w) ++ st = ex ++ option_list (task_of w')) →
  (terminated p = false → is_draining w' = false) →
  pool_inv n (move p i w' q st ex).
Proof.
  intros Hp Hi Hne Hq Hperm Hseq Hdr. pose proof (not_done _ _ _ _ Hp Hi Hne) as Hnd.
  destruct (running_at p i w Hi) as (l1 & l2 & Hw & Hins). destruct Hp as [Hs Hf Ho H1 Hc Hd _].
  unfold running in *. rewrite Hw in Ho, H1, Hd.
  split; simpl; rewrite ?Hins.
  - rewrite <-Hs, Hw, !length_app. done.
  - by rewrite <-app_assoc, Hq.
  - unfold running. simpl. rewrite Hins, omap_app, omap_cons_list. rewrite omap_app, omap_cons_list in Ho. rewrite <-Ho.
    transitivity (executed p ++ omap task_of l1 ++ (ex ++ option_list (task_of w')) ++ omap task_of l2);
      [solve_Permutation|rewrite <-Hperm; solve_Permutation].
  - intros Hn. unfold running. simpl. rewrite Hins. specialize (H1 Hn).
    assert (l1 = [] ∧ l2 = []) as [-> ->].
    { rewrite Hn, Hw, length_app in Hs. simpl in Hs.
      split; apply nil_length_inv; lia. }
    rewrite <-H1. simpl. rewrite <-!app_assoc. f_equal. specialize (Hseq Hn).
    destruct w, w'; simpl in *; by rewrite ?Hseq, ?app_nil_r in *.
  - rewrite <-Hq, length_app in Hc. lia.
  - intros Ht. specialize (Hd Ht). rewrite Forall_app, Forall_cons in *. naive_solver.
  - by rewrite Hnd.
Qed.

Lemma running_length p : (length (running p) <= length (workers p))%nat.
Proof. unfold running. induction (workers p) as [|w l IH]; [done|]. rewrite omap_cons_list, length_app. destruct w; simpl; lia. Qed.

Lemma new_pool_inv n cap : pool_inv n (NewFunctionalWorkerPool n cap : pool T).
Proof.
  split; simpl; try done.
  - apply length_replicate.
  - unfold running. simpl. induction n; done.
  - intros ->. done.
  - lia.
  - intros _. by apply Forall_replicate.
Qed.

Lemma handoff_inv n p i w w' t :
  pool_inv n p → workers p !! i = Some w → is_exited w = false → task_of w = None → task_of w' = Some t →
  (terminated p = false → is_draining w' = false) → queue p = [] → pool_inv n (handoff p i w' t).
Proof.
  intros Hp Hi Hne Hw Hw' Hdr Hq. pose proof Hp as [Hs Hf Ho H1 Hc Hd Hdn].
  assert (Hm : pool_inv n (move {| queue := [t]; qcap := 1; qclosed := qclosed p; terminated := terminated p;
      workers := workers p; done_closed := done_closed p; sent := sent p ++ [t]; started := started p;
      executed := executed p |} i w' [] [t] [])).
  { apply (move_inv n _ i w); try done; [|by rewrite Hw, Hw'..].
    split; simpl; try done. by rewrite Hq, app_nil_r in Hf; rewrite Hf. }
  destruct Hm as [A1 A2 A3 A4 A5 A6 A7]. unfold running in *. simpl in *.
  rewrite app_nil_r in *. split; unfold running; simpl; try done; rewrite ?Hq, ?app_nil_r; done.
Qed.

Lemma pool_step_inv n p a p' : pool_inv n p → pool_step p a = Some p' → pool_inv n p'.
Proof.
  intros Hp. destruct a as [t|i t| | |i|i|i|i|i|]; simpl.
  - case_decide as Hd; [|done]. intros [= <-]. destruct Hp as [Hs Hf Ho H1 Hc Hdr Hdn]. split; simpl; try done.
    + by rewrite app_assoc, Hf.
    + rewrite length_app. simpl. lia.
  - case_decide as Hd; [|done]. destruct (workers p !! i) as [[]|] eqn:Hi; try done; intros [= <-].
    + eapply (handoff_inv n p i Selecting); try done. apply Hd.
    + eapply (handoff_inv n p i Draining); try done; [|apply Hd].
      intros Ht. pose proof (Forall_lookup_1 _ _ _ _ (pi_drain _ _ Hp Ht) Hi). done.
  - destruct (qclosed p); [done|]. intros [= <-]. by destruct Hp.
  - unfold pool_Close. destruct (terminated p); [done|]. intros [= <-]. by destruct Hp.
  - destruct (workers p !! i) as [[]|] eqn:Hi; try done; destruct (queue p) as [|t q] eqn:Hq; try done; intros [= <-].
    + by eapply (move_inv n p i Selecting).
    + eapply (move_inv n p i Draining); try done.
      intros Ht. pose proof (Forall_lookup_1 _ _ _ _ (pi_drain _ _ Hp Ht) Hi). done.
  - destruct (workers p !! i) as [[]|] eqn:Hi; try done; (case_decide as Hd; [|done]); intros [= <-];
      (eapply (move_inv n p i); [done|exact Hi|done|by destruct Hd|done..]).
  - destruct (workers p !! i) as [[]|] eqn:Hi; try done. destruct (terminated p) eqn:Ht; [|done]. intros [= <-].
    eapply (move_inv n p i Selecting); try done. by rewrite Ht.
  - destruct (workers p !! i) as [[]|] eqn:Hi; try done. case_decide as Hd; [|done]. intros [= <-].
    eapply (move_inv n p i Draining); done.
  - destruct (workers p !! i) as [[]|] eqn:Hi; try done; intros [= <-].
    + by eapply (move_inv n p i (Working _)).
    + eapply (move_inv n p i (DrainWorking _)); try done.
      intros Ht. pose proof (Forall_lookup_1 _ _ _ _ (pi_drain _ _ Hp Ht) Hi). done.
  - case_decide as Hd; [|done]. intros [= <-]. destruct Hp. split; try done. intros _. apply Hd.
Qed.
Lemma pool_run_inv n cap acts p :
  run_acts pool_step (NewFunctionalWorkerPool n cap) acts = Some p → pool_inv n p.
Proof. apply run_acts_inv; [|apply new_pool_inv]. intros p1 a p2. apply pool_step_inv. Qed.

(** ** Shutting down *)

(** Senders that stop once [terminateCh] is closed. *)
Definition quiet_step p (a : act T) : option (pool T) :=
  match a with
  | Send _ | SendTo _ _ => if terminated p then None else pool_step p a
  | _ => pool_step p a
  end.
(** What the workers do on their own. *)
Definition worker_step p (a : act T) : option (pool T) :=
  match a with
  | Send _ | SendTo _ _ | CloseQueue | Terminate => None
  | _ => pool_step p a
  end.

(** A worker only exits from an empty channel that stays empty. *)
Definition quiet_inv n p : Prop :=
  pool_inv n p ∧ (Exists (λ w, is_exited w = true) (workers p) →
    queue p = [] ∧ (terminated p = true ∨ qclosed p = true)).

Lemma exited_insert p i w w' :
  workers p !! i = Some w → is_exited w' = false →
  Exists (λ w, is_exited w = true) (<[i := w']> (workers p)) → Exists (λ w, is_exited w = true) (workers p).
Proof.
  intros Hi Hw'. destruct (running_at p i w Hi) as (l1 & l2 & -> & ->). rewrite !Exists_app, !Exists_cons.
  rewrite Hw'. naive_solver.
Qed.
Lemma quiet_step_inv n p a p' : quiet_inv n p → quiet_step p a = Some p' → quiet_inv n p'.
Proof.
  intros [Hp Hx] Hs.
  assert (Hs' : pool_step p a = Some p').
  { destruct a; try done; simpl in *; by destruct (terminated p). }
  split; [by eapply pool_step_inv|].
  destruct a as [t|i t| | |i|i|i|i|i|]; simpl in Hs, Hs'.
  - destruct (terminated p) eqn:Ht; [done|]. case_decide as Hd; [|done]. injection Hs as <-. simpl.
    intros He. destruct (Hx He) as [_ [?|?]]; destruct Hd; congruence.
  - destruct (terminated p) eqn:Ht; [done|]. case_decide as Hd; [|done].
    destruct (workers p !! i) as [[]|] eqn:Hi; try done; injection Hs as <-; simpl; intros He;
      (apply (exited_insert p i _ _ Hi) in He; [|done]); destruct (Hx He) as [_ [?|?]]; destruct Hd; congruence.
  - destruct (qclosed p); [done|]. injection Hs as <-. simpl. intros He. destruct (Hx He). auto.
  - unfold pool_Close in Hs. destruct (terminated p); [done|]. injection Hs as <-. simpl.
    intros He. destruct (Hx He). auto.
  - destruct (workers p !! i) as [[]|] eqn:Hi; try done; destruct (queue p) as [|t q] eqn:Hq; try done;
      injection Hs as <-; simpl; intros He; (apply (exited_insert p i _ _ Hi) in He; [|done]);
      by destruct (Hx He) as [? _].
  - destruct (workers p !! i) as [[]|] eqn:Hi; try done; (case_decide as Hd; [|done]); injection Hs as <-; simpl;
      intros _; destruct Hd; auto.
  - destruct (workers p !! i) as [[]|] eqn:Hi; try done. destruct (terminated p) eqn:Ht; [|done].
    injection Hs as <-. simpl. intros He. apply (exited_insert p i _ _ Hi) in He; [|done]. destruct (Hx He). auto.
  - destruct (workers p !! i) as [[]|] eqn:Hi; try done. case_decide as Hd; [|done]. injection Hs as <-. simpl.
    intros _. split; [done|]. left. destruct (terminated p) eqn:Ht; [done|].
    pose proof (Forall_lookup_1 _ _ _ _ (pi_drain _ _ Hp Ht) Hi). done.
  - destruct (workers p !! i) as [[]|] eqn:Hi; try done; injection Hs as <-; simpl; intros He;
      (apply (exited_insert p i _ _ Hi) in He; [|done]); destruct (Hx He); auto.
  - case_decide; [|done]. injection Hs as <-. done.
Qed.

Definition weight (w : worker T) : nat :=
  match w with Exited => 0 | Draining => 1 | DrainWorking _ | Selecting => 2 | Working _ => 3 end.
Definition measure p : nat :=
  (3 * length (queue p) + sum_list_with weight (workers p) + if done_closed p then 0 else 1)%nat.

Lemma worker_move_measure p i w w' q st ex :
  workers p !! i = Some w → (3 * length q + weight w' < 3 * length (queue p) + weight w)%nat →
  (measure (move p i w' q st ex) < measure p)%nat.
Proof.
  intros Hi Hlt. destruct (running_at p i w Hi) as (l1 & l2 & Hw & Hins). unfold measure. simpl.
  rewrite Hins, Hw, !sum_list_with_app. simpl. lia.
Qed.
Lemma worker_step_measure p a p' : worker_step p a = Some p' → (measure p' < measure p)%nat.
Proof.
  destruct a as [t|i t| | |i|i|i|i|i|]; simpl; try done.
  - destruct (workers p !! i) as [[]|] eqn:Hi; try done; destruct (queue p) as [|t q] eqn:Hq; try done; intros [= <-];
      eapply worker_move_measure; try done; rewrite Hq; simpl; lia.
  - destruct (workers p !! i) as [[]|] eqn:Hi; try done; (case_decide; [|done]); intros [= <-];
      eapply worker_move_measure; try done; simpl; lia.
  - destruct (workers p !! i) as [[]|] eqn:Hi; try done. destruct (terminated p); [|done]. intros [= <-].
    eapply worker_move_measure; try done; simpl; lia.
  - destruct (workers p !! i) as [[]|] eqn:Hi; try done. case_decide; [|done]. intros [= <-].
    eapply worker_move_measure; try done; simpl; lia.
  - destruct (workers p !! i) as [[]|] eqn:Hi; try done; intros [= <-]; eapply worker_move_measure; try done; simpl; lia.
  - case_decide as Hd; [|done]. intros [= <-]. unfold measure. simpl. destruct Hd as [_ ->]. lia.
Qed.

(** Until the pool is done some worker can go on. *)
Lemma worker_progress p :
  terminated p = true ∨ qclosed p = true → done_closed p = true ∨ ∃ a p', worker_step p a = Some p'.
Proof.
  intros Hstop. destruct (decide (Forall (λ w, is_exited w = true) (workers p))) as [Ha|Hn].
  { destruct (done_closed p) eqn:Hd; [by left|]. right. exists AllDone. simpl. rewrite decide_True by done. eauto. }
  apply not_Forall_Exists in Hn; [|apply _]. apply Exists_exists in Hn as (w & [i Hi]%list_elem_of_lookup & Hw).
  right. destruct w as [|t| |t|]; try by destruct Hw.
  - destruct Hstop as [Ht|Hc].
    + exists (SeeTerminate i). simpl. rewrite Hi, Ht. eauto.
    + destruct (queue p) as [|t q] eqn:Hq.
      * exists (ReceiveClosed i). simpl. rewrite Hi, decide_True by done. eauto.
      * exists (Receive i). simpl. rewrite Hi, Hq. eauto.
  - exists (Return i). simpl. rewrite Hi. eauto.
  - destruct (queue p) as [|t q] eqn:Hq.
    + exists (DrainEmpty i). simpl. rewrite Hi, decide_True by done. eauto.
    + exists (Receive i). simpl. rewrite Hi, Hq. eauto.
  - exists (Return i). simpl. rewrite Hi. eauto.
Qed.

(** What the workers leave alone. *)
Lemma worker_step_frame p a p' :
  worker_step p a = Some p' → quiet_step p a = Some p' ∧ sent p' = sent p ∧
  (terminated p = true ∨ qclosed p = true → terminated p' = true ∨ qclosed p' = true).
Proof.
  intros Hs. split; [by destruct a|]. destruct a as [t|i t| | |i|i|i|i|i|]; simpl in Hs; try done;
    repeat match type of Hs with
    | context [match workers p !! i with _ => _ end] => destruct (workers p !! i) as [[]|]; try done
    | context [match queue p with _ => _ end] => destruct (queue p); try done
    | context [if decide ?P then _ else _] => case_decide; try done
    | context [if terminated p then _ else _] => destruct (terminated p) eqn:?; try done
    end; injection Hs as <-; simpl; by rewrite ?Heqb.
Qed.
End invariants.

(** * Properties *)

(** A pool of [n] workers, under every schedule: tasks leave the channel in
    the order they were sent, each is run once and only once started, and with
    a single worker, as the manager's event pool has, they also complete one
    after the other in that order. *)
Theorem pool_runs_in_order {T} (n cap : nat) acts (p : pool T) :
  run_acts pool_step (NewFunctionalWorkerPool n cap) acts = Some p →
  started p ++ queue p = sent p ∧ executed p ++ running p ≡ₚ started p ∧
  (n = 1%nat → executed p ++ running p = started p) ∧ (length (running p) <= n)%nat.
Proof.
  intros Hr. destruct (pool_run_inv n cap acts p Hr). split_and!; try done.
  rewrite <-pi_size0. apply running_length.
Qed.

Lemma pool_runs_in_order_witness : ∃ p : pool Z,
  run_acts pool_step (NewFunctionalWorkerPool 1 10) [Send 1; Send 2; Receive 0; Return 0; Receive 0] = Some p ∧
  started p ++ queue p = sent p ∧ executed p ++ running p ≡ₚ started p ∧
  (1%nat = 1%nat → executed p ++ running p = started p) ∧ (length (running p) <= 1)%nat.
Proof. eexists. split; [reflexivity|]. apply (pool_runs_in_order 1 10 [Send 1; Send 2; Receive 0; Return 0; Receive 0]). reflexivity. Defined.

(** C29: graceful shutdown. If nobody sends after the pool was told to
    terminate, then once it was told so, or its channel was closed, whatever
    the scheduler does the workers come to an end, [doneCh] is closed, and
    every task that was ever sent has been run. *)
Theorem pool_shuts_down {T} (n cap : nat) acts (p : pool T) :
  (0 < n)%nat → run_acts quiet_step (NewFunctionalWorkerPool n cap) acts = Some p →
  terminated p = true ∨ qclosed p = true →
  inevitable worker_step (λ p', done_closed p' = true ∧ sent p' = sent p ∧ executed p' ≡ₚ sent p) p.
Proof.
  intros Hn Hr Hstop.
  assert (Hq : quiet_inv n p).
  { revert Hr. apply run_acts_inv; [intros p1 a p2; apply quiet_step_inv|].
    split; [apply new_pool_inv|]. intros He. apply Exists_exists in He as (w & Hw & Hx).
    simpl in Hw. apply elem_of_replicate in Hw as [-> _]. done. }
  apply (inevitable_measure _ (λ p', quiet_inv n p' ∧ sent p' = sent p ∧ (terminated p' = true ∨ qclosed p' = true)) _ measure).
  - done.
  - intros p1 ([Hp1 Hx1] & Hs1 & Hst1). destruct (worker_progress p1 Hst1) as [Hd|Hex]; [left|by right].
    pose proof (pi_done _ _ Hp1 Hd) as Hall. split_and!; [done|done|]. rewrite <-Hs1.
    assert (Hrun : running p1 = []).
    { unfold running. clear -Hall. induction Hall as [|w l Hw _ IH]; [done|]. by destruct w. }
    assert (Hempty : queue p1 = []).
    { apply Hx1. destruct (workers p1) as [|w l] eqn:Hw.
      - pose proof (pi_size _ _ Hp1) as Hsz. rewrite Hw in Hsz. simpl in Hsz. lia.
      - rewrite Forall_cons in Hall. left. apply Hall. }
    pose proof (pi_once _ _ Hp1) as Ho. rewrite Hrun, app_nil_r in Ho. rewrite Ho.
    by rewrite <-(pi_fifo _ _ Hp1), Hempty, app_nil_r.
  - intros p1 a p2 (Hq1 & Hs1 & Hst1) Hs. split; [|by eapply worker_step_measure].
    destruct (worker_step_frame _ _ _ Hs) as (Hqs & Hse & Hst). split_and!; [by eapply quiet_step_inv|congruence|auto].
Qed.

Lemma pool_shuts_down_witness : ∃ p : pool Z,
  run_acts quiet_step (NewFunctionalWorkerPool 3 10) [Send 1; Send 2; Receive 0; Terminate] = Some p ∧
  inevitable worker_step (λ p', done_closed p' = true ∧ sent p' = sent p ∧ executed p' ≡ₚ sent p) p.
Proof.
  eexists. split; [reflexivity|].
  apply (pool_shuts_down 3 10 [Send 1; Send 2; Receive 0; Terminate]); [lia|reflexivity|by left].
Defined.

(** Two hazards. A pool of three workers, as the manager dispatches
    assignments with, may complete two tasks in the opposite order; and a task
    sent after the workers have drained the channel is accepted, and under no
    continuation is it ever run. *)
Theorem pool_hazards {T} (t1 t2 : T) :
  (∃ acts p, run_acts pool_step (NewFunctionalWorkerPool 3 10) acts = Some p ∧
     sent p = [t1; t2] ∧ executed p = [t2; t1] ∧ done_closed p = true) ∧
  (∃ acts p, run_acts pool_step (NewFunctionalWorkerPool 1 10) acts = Some p ∧ sent p = [t1] ∧
     ∀ acts' p', run_acts pool_step p acts' = Some p' → executed p' = []).
Proof.
  split.
  - exists [Send t1; Send t2; Receive 0; Receive 1; Return 1; Return 0; Terminate; SeeTerminate 0; SeeTerminate 1;
            SeeTerminate 2; DrainEmpty 0; DrainEmpty 1; DrainEmpty 2; AllDone].
    eexists. split; [vm_compute; reflexivity|]. by vm_compute.
  - exists [Terminate; SeeTerminate 0; DrainEmpty 0; Send t1]. eexists. split; [vm_compute; reflexivity|]. split; [done|].
    intros acts' p' Hr.
    assert (Hinv : workers p' = [Exited] ∧ executed p' = []); [|apply Hinv].
    revert Hr. apply (run_acts_inv _ (λ p', workers p' = [Exited] ∧ executed p' = [])); [|done]. intros p1 a p2 [Hw He] Hs.
    destruct a as [t|i t| | |i|i|i|i|i|]; simpl in Hs; rewrite ?Hw in Hs; try (destruct i as [|[]]; simpl in Hs; try done).
    + case_decide; [|done]. by injection Hs as <-.
    + by case_decide.
    + by case_decide.
    + by case_decide.
    + destruct (qclosed p1); [done|]. by injection Hs as <-.
    + unfold pool_Close in Hs. destruct (terminated p1); [done|]. by injection Hs as <-.
    + case_decide; [|done]. by injection Hs as <-.
Qed.
