(* ===== verification/PoolDispatch.v ===== *)
(** * PoolDispatch: dispatching through a worker pool (internal/util/watchermux.go)

    NewDispatchFuncWithTimeoutAndWorkerPool hands one closure per registered
    watcher to the queue of a worker pool instead of sending itself.  The
    closures are the tasks of [WorkerPool]; running one is [dispatchOne] on
    its watcher. *)
From S2P Require Import Prelude Types WatcherMux WorkerPool.

Section pool_dispatch.
Context {T : Type}.
Implicit Types (wm : WatcherMux T) (v : T).

(** The closures one dispatch sends to the queue, in order: the watcher each
    captured, and the item. *)
Definition dispatch_tasks (iter : gset Z → list Z) wm v : list (Z * T) := (λ id, (id, v)) <$> getWatcherList iter wm.

(** A worker runs a closure.  [choice] is what the runtime picks at that
    watcher's select, and whether its reader reads meanwhile. *)
Definition run_task (cap : Z) (choice : Z → bool * bool) wm (t : Z * T) : go (WatcherMux T) :=
  w ← deref wm t.1;
  w' ← dispatchOne cap (choice t.1).1 (choice t.1).2 w t.2;
  Done (set_watcher wm t.1 w').
Definition run_tasks (cap : Z) (choice : Z → bool * bool) wm (ts : list (Z * T)) : go (WatcherMux T) :=
  foldM (run_task cap choice) ts wm.

(** * Lemmas *)

Lemma foldM_fmap {S A B} (f : S → B → go S) (g : A → B) l s : foldM f (g <$> l) s = foldM (λ s x, f s (g x)) l s.
Proof. revert s. induction l as [|x l IH]; intros s; [done|]. rewrite fmap_cons. simpl. destruct (f s (g x)); [apply IH|done..]. Qed.
Lemma run_tasks_sequential iter p r wm v :
  run_tasks (watcherChCapacity wm) (λ _, (p, r)) wm (dispatch_tasks iter wm v) = DispatchFuncWithTimeout iter p r wm v.
Proof.
  unfold run_tasks, dispatch_tasks, DispatchFuncWithTimeout, dispatch_list. by rewrite foldM_fmap.
Qed.

(** Tasks for different watchers can change places. *)
Lemma run_task_frame cap choice wm t wm' id :
  run_task cap choice wm t = Done wm' → id ≠ t.1 → heap wm' !! id = heap wm !! id.
Proof.
  unfold run_task. destruct (deref wm t.1); try done. simpl. destruct (dispatchOne _ _ _ _ _); try done. simpl.
  intros [= <-] Hne. simpl. by rewrite lookup_insert_ne.
Qed.
Lemma run_task_swap cap choice wm t1 t2 x :
  t1.1 ≠ t2.1 → (run_task cap choice wm t1 ≫= λ wm1, run_task cap choice wm1 t2) = Done x →
  (run_task cap choice wm t2 ≫= λ wm1, run_task cap choice wm1 t1) = Done x.
Proof.
  intros Hne. unfold run_task, deref.
  destruct (heap wm !! t1.1) as [w1|] eqn:H1; [|done]. cbn [mbind go_bind].
  destruct (dispatchOne cap (choice t1.1).1 (choice t1.1).2 w1 t1.2) as [w1'| | |] eqn:D1; try done. cbn [mbind go_bind set_watcher heap].
  rewrite lookup_insert_ne by done. destruct (heap wm !! t2.1) as [w2|] eqn:H2; [|done]. cbn [mbind go_bind].
  destruct (dispatchOne cap (choice t2.1).1 (choice t2.1).2 w2 t2.2) as [w2'| | |] eqn:D2; try done. cbn [mbind go_bind set_watcher heap].
  rewrite lookup_insert_ne, H1 by done. cbn [mbind go_bind]. rewrite D1. cbn [mbind go_bind]. intros [= <-].
  unfold set_watcher. simpl. by rewrite (insert_insert_ne (heap wm)).
Qed.
Lemma run_tasks_perm cap choice ts ts' :
  ts ≡ₚ ts' → NoDup (fst <$> ts) → ∀ wm x, run_tasks cap choice wm ts = Done x → run_tasks cap choice wm ts' = Done x.
Proof.
  unfold run_tasks. induction 1 as [|t l l' _ IH|t1 t2 l|l1 l2 l3 H12 IH12 _ IH23]; intros Hnd wm x.
  - done.
  - rewrite fmap_cons, NoDup_cons in Hnd. simpl. destruct (run_task _ _ wm t); try done. apply IH, Hnd.
  - rewrite !fmap_cons, !NoDup_cons in Hnd. destruct Hnd as [Hn _]. simpl. intros Hr.
    destruct (run_task cap choice wm t2) as [wa| | |] eqn:Ea; try done. simpl in Hr.
    destruct (run_task cap choice wa t1) as [wb| | |] eqn:Eb; try done. simpl in Hr.
    pose proof (run_task_swap cap choice wm t2 t1 wb) as Hs. rewrite Ea in Hs. simpl in Hs.
    specialize (Hs ltac:(set_solver) Eb). destruct (run_task cap choice wm t1) as [wc| | |]; try done. simpl in *. by rewrite Hs.
  - intros Hr. apply IH23; [|by apply IH12]. by rewrite <-H12.
Qed.
End pool_dispatch.

(** * Properties *)


(** Two watchers and two workers that complete in the opposite order. *)
Definition two_watchers : WatcherMux Z :=
  match Watch (NewWatcherMux 4) None with
  | Done (m, _) => match Watch m None with Done (m, _) => m | _ => NewWatcherMux 4 end
  | _ => NewWatcherMux 4
  end.
Definition crossed : list (act (Z * Z)) :=
  (Send <$> dispatch_tasks elements two_watchers 7) ++ [Receive 0; Receive 1; Return 1; Return 0].
