(* ===== verification/BpfManager.v ===== *)
(** * BpfManager: internal/adapter/bpf/manager.go, objects.go and udplb_user.go

    The data-structure manager serialises every write to the three
    double-buffered BPF structures through one event loop.  The structures
    themselves belong to the ebpfstruct module and are a parameter: the class
    [EbpfObjects] has their operations, [EbpfObjectsLaws] what DESIGN.md
    documents of them. *)
From S2P Require Import Prelude Types GoNet WatcherMux.

Definition ErrObjectsMustNotBeNil := Sentinel "object must not be nil".
Definition ErrInvalidArguments := Sentinel "invalid arguments".
Definition ErrSettingObjectsDSManager := Sentinel "setting objects with dsManager".
Definition ErrUnknownEventKind := Sentinel "unknown event kind".
Definition ErrOperationAborted := Sentinel "operation aborted".
Definition ErrDSManagerIsShuttingDown := Sentinel "dsManager is shutting down".
Definition ErrInvalidObjectType := Sentinel "invalid object type".
Definition ErrCreatingInternalEvent := Sentinel "creating internal event".

(** ** Data *)

(** The value of the backend list: [backend_spec_t] of the BPF program. *)
Record udplbBackendSpecT := { bId : uuid; bIp : Z; bPort : Z; bMac : list Z }.

Record eventObjects := {
  BackendList : list udplbBackendSpecT;
  LookupTable : list Z;
  SessionMap : gmap uuid Z
}.

Definition eventKindUnknown : string := "UNKNOWN".
Definition eventKindSet : string := "Set".
Definition eventKindSessionBatchUpdate : string := "SessionBatchUpdate".
Definition eventKindSessionBatchDelete : string := "SessionBatchDelete".

Record event := {
  kind : string;
  set : eventObjects;
  sessionBatchUpdate : gmap uuid Z;
  sessionBatchDelete : list uuid
}.

Definition no_objects : eventObjects := {| BackendList := []; LookupTable := []; SessionMap := ∅ |}.

(** The dynamic types [newEvent] is given in its [any] argument. *)
Inductive payload :=
  | VObjects (o : eventObjects)
  | VSessions (m : gmap uuid Z)
  | VIds (l : list uuid)
  | VOther.

(** ** ebpfstruct: the double-buffered structures

    A deferred switchover is the function returned by
    [SetAndDeferSwitchover], acting on the kernel's state [K]. *)
Class EbpfObjects (K : Type) := {
  active : K → eventObjects;     (* what the BPF program reads *)
  standby : K → eventObjects;    (* the variants the BPF program does not read *)
  pending : K → eventObjects;    (* what the last deferred switchovers lead to *)
  BackendList_SetAndDeferSwitchover : K → list udplbBackendSpecT → K * ((K → K) + error);
  LookupTable_SetAndDeferSwitchover : K → list Z → K * ((K → K) + error);
  SessionMap_SetAndDeferSwitchover : K → gmap uuid Z → K * ((K → K) + error);
  SessionMap_BatchUpdate : K → gmap uuid Z → K * option error;
  SessionMap_BatchDelete : K → list uuid → K * option error;
  AssignmentFIFO_Subscribe : K → K * option error
}.

Definition with_BackendList (o : eventObjects) b :=
  {| BackendList := b; LookupTable := LookupTable o; SessionMap := SessionMap o |}.
Definition with_LookupTable (o : eventObjects) l :=
  {| BackendList := BackendList o; LookupTable := l; SessionMap := SessionMap o |}.
Definition with_SessionMap (o : eventObjects) s :=
  {| BackendList := BackendList o; LookupTable := LookupTable o; SessionMap := s |}.

(** Every structure of [o] is the one of [o1] or the one of [o2]. *)
Definition each_of (o1 o2 o : eventObjects) : Prop :=
  (BackendList o = BackendList o1 ∨ BackendList o = BackendList o2) ∧
  (LookupTable o = LookupTable o1 ∨ LookupTable o = LookupTable o2) ∧
  (SessionMap o = SessionMap o1 ∨ SessionMap o = SessionMap o2).

(** A set writes the inactive variant of its structure and leaves what the
    program reads; its switchover makes the program read that variant.  Since
    the three structures share one active pointer, a set may also make the
    inactive variants of the others the pending ones, and a switchover may
    switch the others to their pending variant. *)
Class EbpfObjectsLaws (K : Type) `{!EbpfObjects K} := {
  set_backends_ok : ∀ k v k' sw, BackendList_SetAndDeferSwitchover k v = (k', inl sw) →
    active k' = active k ∧ standby k' = with_BackendList (standby k) v ∧
    BackendList (pending k') = v ∧ each_of (pending k) (standby k') (pending k') ∧
    ∀ k2, BackendList (pending k2) = v →
      pending (sw k2) = pending k2 ∧ BackendList (active (sw k2)) = v ∧
      each_of (active k2) (pending k2) (active (sw k2));
  set_backends_err : ∀ k v k' e, BackendList_SetAndDeferSwitchover k v = (k', inr e) → active k' = active k;
  set_lookup_ok : ∀ k v k' sw, LookupTable_SetAndDeferSwitchover k v = (k', inl sw) →
    active k' = active k ∧ standby k' = with_LookupTable (standby k) v ∧
    LookupTable (pending k') = v ∧ each_of (pending k) (standby k') (pending k') ∧
    ∀ k2, LookupTable (pending k2) = v →
      pending (sw k2) = pending k2 ∧ LookupTable (active (sw k2)) = v ∧
      each_of (active k2) (pending k2) (active (sw k2));
  set_lookup_err : ∀ k v k' e, LookupTable_SetAndDeferSwitchover k v = (k', inr e) → active k' = active k;
  set_sessions_ok : ∀ k v k' sw, SessionMap_SetAndDeferSwitchover k v = (k', inl sw) →
    active k' = active k ∧ standby k' = with_SessionMap (standby k) v ∧
    SessionMap (pending k') = v ∧ each_of (pending k) (standby k') (pending k') ∧
    ∀ k2, SessionMap (pending k2) = v →
      pending (sw k2) = pending k2 ∧ SessionMap (active (sw k2)) = v ∧
      each_of (active k2) (pending k2) (active (sw k2));
  set_sessions_err : ∀ k v k' e, SessionMap_SetAndDeferSwitchover k v = (k', inr e) → active k' = active k;
  batch_update_ok : ∀ k m k', SessionMap_BatchUpdate k m = (k', None) →
    active k' = with_SessionMap (active k) (m ∪ SessionMap (active k));
  batch_delete_ok : ∀ k l k', SessionMap_BatchDelete k l = (k', None) →
    active k' = with_SessionMap (active k) (foldr delete (SessionMap (active k)) l);
  subscribe_active : ∀ k, active (AssignmentFIFO_Subscribe k).1 = active k
}.

(** ** Building an event *)

Definition newEvent `{FlatErrors} (k : string) (v : payload) : event + error :=
  if decide (k = eventKindSet) then
    match v with
    | VObjects o => inl {| kind := k; set := o; sessionBatchUpdate := ∅; sessionBatchDelete := [] |}
    | _ => inr (Join [ErrInvalidObjectType; ErrCreatingInternalEvent])
    end
  else if decide (k = eventKindSessionBatchUpdate) then
    match v with
    | VSessions m => inl {| kind := k; set := no_objects; sessionBatchUpdate := m; sessionBatchDelete := [] |}
    | _ => inr (Join [ErrInvalidObjectType; ErrCreatingInternalEvent])
    end
  else if decide (k = eventKindSessionBatchDelete) then
    match v with
    | VIds l => inl {| kind := k; set := no_objects; sessionBatchUpdate := ∅; sessionBatchDelete := l |}
    | _ => inr (Join [ErrInvalidObjectType; ErrCreatingInternalEvent])
    end
  else inr (Join [ErrUnknownEventKind; ErrCreatingInternalEvent]).

(** [[6]uint8(s)] panics when the slice is shorter than the array and drops
    what is beyond it. *)
Definition to_array6 (s : list Z) : go (list Z) :=
  if decide (length s < 6)%nat then Panic SliceToArray else Done (take 6 s).

Definition transformBackend (e : endian) (b : Backend) : go udplbBackendSpecT :=
  ip ← NetIPv4ToUint32 e (IP (Spec b));
  mac ← to_array6 (MacAddr (Spec b));
  Done {| bId := Id b; bIp := ip; bPort := u16 (Port (Spec b)); bMac := mac |}.

Definition transformBackendList (e : endian) (l : list Backend) : go (list udplbBackendSpecT) :=
  mapM (transformBackend e) l.

(** ** The manager *)

Section manager.
Context {K : Type} `{!EbpfObjects K, !FlatErrors}.

(** [setObjects]: the three writes, then the three switchovers in order. *)
Definition setObjects (k : K) (o : eventObjects) : K * option error :=
  match BackendList_SetAndDeferSwitchover k (BackendList o) with
  | (k, inr err) => (k, Some err)
  | (k, inl bSwitchover) =>
      match LookupTable_SetAndDeferSwitchover k (LookupTable o) with
      | (k, inr err) => (k, Some err)
      | (k, inl lupSwitchover) =>
          match SessionMap_SetAndDeferSwitchover k (SessionMap o) with
          | (k, inr err) => (k, Some err)
          | (k, inl sSwitchover) => (sSwitchover (lupSwitchover (bSwitchover k)), None)
          end
      end
  end.

Definition assignmentBatchUpdate (k : K) (m : gmap uuid Z) : K * option error := SessionMap_BatchUpdate k m.
Definition assignmentBatchDelete (k : K) (l : list uuid) : K * option error := SessionMap_BatchDelete k l.

(** [handleEvent], run by the only worker of the event pool; the error is what
    it sends on [errCh], none is the closing of the channel. *)
Definition handleEvent (k : K) (e : event) : K * option error :=
  if decide (kind e = eventKindSet) then setObjects k (set e)
  else if decide (kind e = eventKindSessionBatchUpdate) then assignmentBatchUpdate k (sessionBatchUpdate e)
  else if decide (kind e = eventKindSessionBatchDelete) then assignmentBatchDelete k (sessionBatchDelete e)
  else (k, Some ErrUnknownEventKind).

Record dsManager := {
  objs : K;
  assignmentWatcherMux : WatcherMux Assignment;
  eventChClosed : bool;
  running : bool;
  closed : bool;
  doneChClosed : bool;
  terminateChClosed : bool;
  muLocked : bool;        (* mgr.mu, between calls *)
  loopLive : bool         (* the event loop receives from eventCh *)
}.

Definition NewDataStructureManager (k : K) (mux : WatcherMux Assignment) : dsManager :=
  {| objs := k; assignmentWatcherMux := mux; eventChClosed := false; running := false; closed := false;
     doneChClosed := false; terminateChClosed := false; muLocked := false; loopLive := false |}.

Definition with_objs (m : dsManager) (k : K) : dsManager :=
  {| objs := k; assignmentWatcherMux := assignmentWatcherMux m; eventChClosed := eventChClosed m;
     running := running m; closed := closed m; doneChClosed := doneChClosed m;
     terminateChClosed := terminateChClosed m; muLocked := muLocked m; loopLive := loopLive m |}.
Definition with_mu (m : dsManager) (b : bool) : dsManager :=
  {| objs := objs m; assignmentWatcherMux := assignmentWatcherMux m; eventChClosed := eventChClosed m;
     running := running m; closed := closed m; doneChClosed := doneChClosed m;
     terminateChClosed := terminateChClosed m; muLocked := b; loopLive := loopLive m |}.

(** [Run]: both early returns leave with the mutex held. *)
Definition mgr_Run (m : dsManager) : go (dsManager * option error) :=
  if muLocked m then Blocked
  else if running m then Done (with_mu m true, Some ErrAlreadyRunning)
  else if closed m then Done (with_mu m true, Some ErrCannotRunClosedRunnable)
  else
    let (k, err) := AssignmentFIFO_Subscribe (objs m) in
    match err with
    | Some err => Done (with_objs m k, Some err)
    | None => Done ({| objs := k; assignmentWatcherMux := assignmentWatcherMux m;
                       eventChClosed := eventChClosed m; running := true; closed := closed m;
                       doneChClosed := doneChClosed m; terminateChClosed := terminateChClosed m;
                       muLocked := false; loopLive := true |}, None)
    end.

(** The event loop after [terminate:]: both pools are drained, the watchers'
    channels are closed, then [doneCh]. *)
Definition loop_terminate (iter : gset Z → list Z) (m : dsManager) : go dsManager :=
  mux ← Close iter (assignmentWatcherMux m);
  if doneChClosed m then Panic CloseOfClosedChannel
  else Done {| objs := objs m; assignmentWatcherMux := mux; eventChClosed := eventChClosed m;
               running := running m; closed := closed m; doneChClosed := true;
               terminateChClosed := terminateChClosed m; muLocked := muLocked m; loopLive := false |}.

(** [Close]; the event loop terminates within the five seconds it is given. *)
Definition mgr_Close (iter : gset Z → list Z) (m : dsManager) : go (dsManager * option error) :=
  if muLocked m then Blocked
  else if negb (running m) then Done (m, Some ErrRunnableMustBeRunningToBeClosed)
  else if closed m then Done (m, Some ErrAlreadyClosed)
  else if terminateChClosed m then Panic CloseOfClosedChannel
  else
    m ← loop_terminate iter
          {| objs := objs m; assignmentWatcherMux := assignmentWatcherMux m; eventChClosed := eventChClosed m;
             running := running m; closed := closed m; doneChClosed := doneChClosed m;
             terminateChClosed := true; muLocked := true; loopLive := loopLive m |};
    if eventChClosed m then Panic CloseOfClosedChannel
    else Done ({| objs := objs m; assignmentWatcherMux := assignmentWatcherMux m; eventChClosed := true;
                  running := false; closed := true; doneChClosed := doneChClosed m;
                  terminateChClosed := terminateChClosed m; muLocked := false; loopLive := loopLive m |}, None).

(** The loop's own shutdown when a channel it reads is closed; the error is
    logged. *)
Definition triggerCloseInternally (iter : gset Z → list Z) (m : dsManager) : go dsManager :=
  '(m, _) ← mgr_Close iter m; Done m.

(** [mgr.eventCh <- e] followed by [await]: the channel is unbuffered, so the
    send completes only when the loop receives; the loop hands the event to
    the worker, whose result [await] returns. *)
Definition submit (m : dsManager) (e : event) : go (dsManager * option error) :=
  if eventChClosed m then Panic SendOnClosedChannel
  else if loopLive m then
    let (k, err) := handleEvent (objs m) e in Done (with_objs m k, err)
  else Blocked.

Definition BatchDeleteSession (m : dsManager) (batch : list uuid) : go (dsManager * option error) :=
  match newEvent eventKindSessionBatchDelete (VIds batch) with
  | inr err => Done (m, Some err)
  | inl e => submit m e
  end.

Definition BatchUpdateSession (m : dsManager) (batch : gmap uuid Z) : go (dsManager * option error) :=
  match newEvent eventKindSessionBatchUpdate (VSessions batch) with
  | inr err => Done (m, Some err)
  | inl e => submit m e
  end.

(** A slice or map argument is never a nil interface once boxed in [any]. *)
Definition SetObjects (e : endian) (m : dsManager) (backendList : list Backend) (lookupTable : list Z)
    (sessionMap : gmap uuid Z) : go (dsManager * option error) :=
  if AnyPtrIsNil [Boxed "[]types.Backend" false; Boxed "[]uint32" false; Boxed "map[uuid.UUID]uint32" false]
  then Done (m, Some (Join [ErrObjectsMustNotBeNil; ErrInvalidArguments; ErrSettingObjectsDSManager]))
  else
    bl ← transformBackendList e backendList;
    match newEvent eventKindSet (VObjects {| BackendList := bl; LookupTable := lookupTable; SessionMap := sessionMap |}) with
    | inr err => Done (m, Some (Join [err; ErrSettingObjectsDSManager]))
    | inl ev =>
        '(m, err) ← submit m ev;
        Done (m, match err with Some err => Some (Join [err; ErrSettingObjectsDSManager]) | None => None end)
    end.

(** [WatchAssignment]. *)
Definition WatchAssignment (m : dsManager) : go (dsManager * Z) :=
  '(mux, id) ← Watch (assignmentWatcherMux m) None;
  Done ({| objs := objs m; assignmentWatcherMux := mux; eventChClosed := eventChClosed m;
           running := running m; closed := closed m; doneChClosed := doneChClosed m;
           terminateChClosed := terminateChClosed m; muLocked := muLocked m; loopLive := loopLive m |}, id).

(** One assignment read from the FIFO by the loop and dispatched by a watch worker. *)
Definition loop_assignment (iter : gset Z → list Z) (pick_done reads : bool) (m : dsManager) (a : Assignment)
    : go dsManager :=
  mux ← DispatchFuncWithTimeout iter pick_done reads (assignmentWatcherMux m)
          {| BackendId := BackendId a; SessionId := SessionId a |};
  Done {| objs := objs m; assignmentWatcherMux := mux; eventChClosed := eventChClosed m;
          running := running m; closed := closed m; doneChClosed := doneChClosed m;
          terminateChClosed := terminateChClosed m; muLocked := muLocked m; loopLive := loopLive m |}.

(** ** The calls of a client, one after the other *)

Inductive mgr_step (iter : gset Z → list Z) : dsManager → dsManager → Prop :=
  | step_Run m m' err : mgr_Run m = Done (m', err) → mgr_step iter m m'
  | step_Close m m' err : mgr_Close iter m = Done (m', err) → mgr_step iter m m'
  | step_SetObjects m m' e bl lt sm err : SetObjects e m bl lt sm = Done (m', err) → mgr_step iter m m'
  | step_BatchUpdate m m' b err : BatchUpdateSession m b = Done (m', err) → mgr_step iter m m'
  | step_BatchDelete m m' b err : BatchDeleteSession m b = Done (m', err) → mgr_step iter m m'
  | step_Watch m m' id : WatchAssignment m = Done (m', id) → mgr_step iter m m'
  | step_Assignment m m' p r a : loopLive m = true → loop_assignment iter p r m a = Done m' → mgr_step iter m m'.

(** ** udplb_user.go: the runnable that attaches the XDP program *)

Record runnable := {
  rRunning : bool;
  rDoneClosed : bool;
  attached : bool;      (* r.link is open *)
  loaded : bool         (* r.objs is open *)
}.

(** [AttachXDP] and the two [Close]s are calls into cilium/ebpf; their errors
    are inputs.  [Run] is idempotent. *)
Definition prog_Run (attach_err : option error) (r : runnable) : runnable * option error :=
  if rRunning r then (r, None)
  else match attach_err with
       | Some err => (r, Some (Join [err; Sentinel "running udplb userland program"]))
       | None => ({| rRunning := true; rDoneClosed := rDoneClosed r; attached := true; loaded := loaded r |}, None)
       end.

Definition join_err (errs : option error) (err : option error) : option error :=
  match err with
  | None => errs
  | Some e => Some (Join (match errs with Some es => [es; e] | None => [e] end))
  end.

(** [Close] propagates to the manager, then closes the link and the objects. *)
Definition prog_Close (iter : gset Z → list Z) (link_err objs_err : option error) (r : runnable) (m : dsManager)
    : go (runnable * dsManager * option error) :=
  if negb (rRunning r) then Done (r, m, None)
  else
    '(m, err) ← mgr_Close iter m;
    let errs := join_err (join_err (join_err None err) link_err) objs_err in
    if rDoneClosed r then Panic CloseOfClosedChannel
    else Done ({| rRunning := rRunning r; rDoneClosed := true; attached := false; loaded := false |}, m, errs).

End manager.
Arguments dsManager : clear implicits.

(** ** What the manager promises its client *)

(** The controller sees a manager [M] through [SetObjects]. *)
Class ObjectsManager (M : Type) := {
  installed : M → eventObjects;
  accepting : M → Prop;
  set_objects : M → list Backend → list Z → gmap uuid Z → go (M * option error)
}.

(** An accepting manager installs the three objects together, or reports an
    error and installs nothing; it keeps accepting. *)
Class ObjectsManagerLaws (e : endian) (M : Type) `{!ObjectsManager M} := {
  set_objects_spec : ∀ m bl lt sm out, accepting m → transformBackendList e bl = Done out →
    returns (set_objects m bl lt sm) (λ '(m', err), accepting m' ∧
      match err with
      | None => installed m' = {| BackendList := out; LookupTable := lt; SessionMap := sm |}
      | Some _ => installed m' = installed m
      end);
  set_objects_panics : ∀ m bl lt sm p, transformBackendList e bl = Panic p →
    set_objects m bl lt sm = Panic p
}.

#[export] Instance dsManager_manager {K} `{!EbpfObjects K, !FlatErrors} (e : endian) : ObjectsManager (dsManager K) := {
  installed m := active (objs m);
  accepting m := eventChClosed m = false ∧ loopLive m = true;
  set_objects m bl lt sm := SetObjects e m bl lt sm
}.

(** * Lemmas *)

(** ** transformBackendList *)

(** The backends the manager can install: an IPv4 address and at least six
    bytes of hardware address. *)
Definition installable (b : Backend) : Prop :=
  is_Some (To4 (IP (Spec b))) ∧ (6 <= length (MacAddr (Spec b)))%nat.
#[export] Instance installable_dec b : Decision (installable b).
Proof. unfold installable. apply _. Defined.

Lemma To4_length ip v4 : To4 ip = Some v4 → length v4 = 4%nat.
Proof.
  unfold To4. repeat case_decide; try done; intros [= <-]; [done|]. rewrite length_drop. lia.
Qed.
Lemma Uint32_done e v : (4 <= length v)%nat → ∃ x, Uint32 e v = Done x.
Proof. intros Hl. destruct v as [|a [|b [|c [|d v]]]]; simpl in *; try lia. by eexists. Qed.

Lemma transformBackend_installable e b :
  installable b → returns (transformBackend e b) (λ s, bId s = Id b ∧ bPort s = u16 (Port (Spec b)) ∧
    NetIPv4ToUint32 e (IP (Spec b)) = Done (bIp s) ∧ bMac s = take 6 (MacAddr (Spec b))).
Proof.
  intros [[v4 H4] Hm]. unfold transformBackend, NetIPv4ToUint32. rewrite H4. simpl.
  destruct (Uint32_done e v4) as [x ->]; [by rewrite (To4_length _ _ H4)|]. cbn [mbind go_bind].
  unfold to_array6. rewrite decide_False by lia. by apply returns_done.
Qed.
Lemma transformBackend_panics e b :
  ¬ installable b → transformBackend e b = Panic IndexOutOfRange ∨ transformBackend e b = Panic SliceToArray.
Proof.
  intros Hn. unfold transformBackend, NetIPv4ToUint32. destruct (To4 (IP (Spec b))) as [v4|] eqn:H4.
  - right. simpl. destruct (Uint32_done e v4) as [x ->]; [by rewrite (To4_length _ _ H4)|].
    cbn [mbind go_bind]. unfold to_array6. rewrite decide_True; [done|].
    destruct (decide (length (MacAddr (Spec b)) < 6)%nat); [done|].
    exfalso. apply Hn. split; [by rewrite H4|lia].
  - by left.
Qed.

Lemma mapM_go_cons {A B} (f : A → go B) x l :
  mapM f (x :: l) = (y ← f x; k ← mapM f l; Done (y :: k)).
Proof. done. Qed.
Lemma transformBackendList_returns e l :
  Forall installable l →
  returns (transformBackendList e l) (λ out, length out = length l ∧
    Forall2 (λ b s, bId s = Id b ∧ bPort s = u16 (Port (Spec b)) ∧
      NetIPv4ToUint32 e (IP (Spec b)) = Done (bIp s) ∧ bMac s = take 6 (MacAddr (Spec b))) l out).
Proof.
  unfold transformBackendList. induction 1 as [|b l Hb Hl IH]; [by apply returns_done|].
  rewrite mapM_go_cons. eapply returns_bind; [by apply transformBackend_installable|]. intros s Hs.
  eapply returns_bind; [exact IH|]. intros out [Hlen Hout]. apply returns_done.
  split; [by simpl; rewrite Hlen|by constructor].
Qed.
Lemma transformBackendList_panics e l :
  ¬ Forall installable l → ∃ p, transformBackendList e l = Panic p ∧ (p = IndexOutOfRange ∨ p = SliceToArray).
Proof.
  unfold transformBackendList. induction l as [|b l IH]; intros Hn; [by destruct Hn|].
  rewrite mapM_go_cons. destruct (decide (installable b)) as [Hb|Hb].
  - destruct (transformBackend_installable e b Hb) as (s & -> & _). cbn [mbind go_bind].
    destruct IH as (p & -> & Hp); [|by exists p]. intros Hl. apply Hn. by constructor.
  - destruct (transformBackend_panics e b Hb) as [-> | ->]; eauto.
Qed.

(** ** setObjects *)

Section set_objects.
Context {K : Type} `{!EbpfObjects K, !EbpfObjectsLaws K, !FlatErrors}.
Implicit Types (k : K) (m : dsManager K).

Lemma setObjects_installs k o k' : setObjects k o = (k', None) → active k' = o.
Proof.
  unfold setObjects.
  destruct (BackendList_SetAndDeferSwitchover k (BackendList o)) as [k1 [sb|]] eqn:E1; [|done].
  destruct (LookupTable_SetAndDeferSwitchover k1 (LookupTable o)) as [k2 [sl|]] eqn:E2; [|done].
  destruct (SessionMap_SetAndDeferSwitchover k2 (SessionMap o)) as [k3 [ss|]] eqn:E3; [|done].
  intros [= <-].
  destruct (set_backends_ok _ _ _ _ E1) as (_ & B1 & P1 & _ & S1).
  destruct (set_lookup_ok _ _ _ _ E2) as (_ & B2 & P2 & (Q2 & _ & _) & S2).
  destruct (set_sessions_ok _ _ _ _ E3) as (_ & B3 & P3 & (Q3 & R3 & _) & S3).
  rewrite B3, B2, B1 in Q3, R3. rewrite B2, B1 in Q2. simpl in *.
  assert (Ht : pending k3 = o).
  { destruct (pending k3), o; simpl in *. destruct Q2, Q3, R3; f_equal; congruence. }
  destruct (S1 k3) as (Tb & Ab & _); [by rewrite Ht|].
  destruct (S2 (sb k3)) as (Tl & Al & El); [by rewrite Tb, Ht|].
  destruct (S3 (sl (sb k3))) as (Ts & As & Es); [by rewrite Tl, Tb, Ht|].
  rewrite Tl, Tb, Ht in Es. rewrite Tb, Ht in El.
  destruct Es as (Hb & Hl & _), El as (Hb' & _ & _). rewrite Al in Hl. rewrite Ab in Hb'.
  destruct (active (ss (sl (sb k3)))), o; simpl in *. destruct Hb, Hl, Hb'; f_equal; congruence.
Qed.
Lemma setObjects_error k o k' err : setObjects k o = (k', Some err) → active k' = active k.
Proof.
  unfold setObjects.
  destruct (BackendList_SetAndDeferSwitchover k (BackendList o)) as [k1 [sb|]] eqn:E1.
  2: { intros [= <- <-]. by eapply set_backends_err. }
  destruct (LookupTable_SetAndDeferSwitchover k1 (LookupTable o)) as [k2 [sl|]] eqn:E2.
  2: { intros [= <- <-]. rewrite (set_lookup_err _ _ _ _ E2). by destruct (set_backends_ok _ _ _ _ E1). }
  destruct (SessionMap_SetAndDeferSwitchover k2 (SessionMap o)) as [k3 [ss|]] eqn:E3; [done|].
  intros [= <- <-]. rewrite (set_sessions_err _ _ _ _ E3).
  destruct (set_lookup_ok _ _ _ _ E2) as (-> & _). by destruct (set_backends_ok _ _ _ _ E1).
Qed.

Lemma newEvent_set o :
  newEvent eventKindSet (VObjects o) =
    inl {| kind := eventKindSet; set := o; sessionBatchUpdate := ∅; sessionBatchDelete := [] |}.
Proof. done. Qed.

Lemma BatchUpdate_submit m b :
  BatchUpdateSession m b = submit m
    {| kind := eventKindSessionBatchUpdate; set := no_objects; sessionBatchUpdate := b; sessionBatchDelete := [] |}.
Proof. done. Qed.
Lemma BatchDelete_submit m b :
  BatchDeleteSession m b = submit m
    {| kind := eventKindSessionBatchDelete; set := no_objects; sessionBatchUpdate := ∅; sessionBatchDelete := b |}.
Proof. done. Qed.

(** [SetObjects] on a manager whose loop runs: the effect of [setObjects]. *)
Lemma SetObjects_run e m bl lt sm out :
  eventChClosed m = false → loopLive m = true → transformBackendList e bl = Done out →
  let r := setObjects (objs m) {| BackendList := out; LookupTable := lt; SessionMap := sm |} in
  SetObjects e m bl lt sm = Done (with_objs m r.1,
    (λ err, Join [err; ErrSettingObjectsDSManager]) <$> r.2).
Proof.
  intros He Hl Ht. unfold SetObjects. rewrite Ht. cbn [AnyPtrIsNil existsb orb mbind go_bind].
  rewrite newEvent_set. unfold submit. rewrite He, Hl.
  change (handleEvent (objs m) _) with
    (setObjects (objs m) {| BackendList := out; LookupTable := lt; SessionMap := sm |}).
  destruct (setObjects _ _) as [k' [err|]]; done.
Qed.

#[export] Instance dsManager_laws (e : endian) : @ObjectsManagerLaws e (dsManager K) (dsManager_manager e).
Proof.
  split.
  - intros m bl lt sm out [He Hl] Ht. simpl. rewrite (SetObjects_run e m bl lt sm out He Hl Ht).
    set (o := {| BackendList := out; LookupTable := lt; SessionMap := sm |}).
    destruct (setObjects (objs m) o) as [k' [err|]] eqn:Es; apply returns_done; simpl.
    + split; [done|]. by eapply setObjects_error.
    + split; [done|]. by eapply setObjects_installs.
  - intros m bl lt sm p Hp. simpl. unfold SetObjects. rewrite Hp. done.
Qed.
End set_objects.

(** ** An instance: one pointer for the three structures *)

(** Two variants, the pointer that selects the active one, the pointer the
    deferred switchovers lead to, and at most 64 backends. *)
Record shared_kernel := { ptr : bool; dest : bool; variant_a : eventObjects; variant_b : eventObjects }.
Definition variant (k : shared_kernel) (p : bool) : eventObjects := if p then variant_b k else variant_a k.
Definition write_standby (k : shared_kernel) (f : eventObjects → eventObjects) : shared_kernel :=
  if ptr k
  then {| ptr := ptr k; dest := false; variant_a := f (variant_a k); variant_b := variant_b k |}
  else {| ptr := ptr k; dest := true; variant_a := variant_a k; variant_b := f (variant_b k) |}.
Definition write_active (k : shared_kernel) (f : eventObjects → eventObjects) : shared_kernel :=
  if ptr k
  then {| ptr := ptr k; dest := dest k; variant_a := variant_a k; variant_b := f (variant_b k) |}
  else {| ptr := ptr k; dest := dest k; variant_a := f (variant_a k); variant_b := variant_b k |}.
Definition switch_ptr (k : shared_kernel) : shared_kernel :=
  {| ptr := dest k; dest := dest k; variant_a := variant_a k; variant_b := variant_b k |}.
Definition fresh_kernel : shared_kernel :=
  {| ptr := false; dest := false; variant_a := no_objects; variant_b := no_objects |}.

#[export] Instance shared_objects : EbpfObjects shared_kernel := {
  active k := variant k (ptr k);
  standby k := variant k (negb (ptr k));
  pending k := variant k (dest k);
  BackendList_SetAndDeferSwitchover k v :=
    if decide (64 < length v)%nat then (k, inr (Foreign 7))
    else (write_standby k (λ o, with_BackendList o v), inl switch_ptr);
  LookupTable_SetAndDeferSwitchover k v := (write_standby k (λ o, with_LookupTable o v), inl switch_ptr);
  SessionMap_SetAndDeferSwitchover k v := (write_standby k (λ o, with_SessionMap o v), inl switch_ptr);
  SessionMap_BatchUpdate k m := (write_active k (λ o, with_SessionMap o (m ∪ SessionMap o)), None);
  SessionMap_BatchDelete k l := (write_active k (λ o, with_SessionMap o (foldr delete (SessionMap o) l)), None);
  AssignmentFIFO_Subscribe k := (k, None)
}.
#[export] Instance shared_laws : EbpfObjectsLaws shared_kernel.
Proof.
  split; [..|done]; intros [[] d va vb] v k'; simpl; unfold each_of;
    try case_decide; intros; simplify_eq; simpl; repeat split; try done; auto;
    destruct k2 as [[] [] va' vb']; simpl in *; auto.
Qed.

(** ** Lifecycle *)

Section lifecycle.
Context {K : Type} `{!EbpfObjects K, !FlatErrors} (iter : gset Z → list Z) (Hiter : ∀ X, iter X ≡ₚ elements X).
Implicit Types (m : dsManager K).

(** A manager is fresh, running or closed; nothing else is reachable. *)
Inductive phase m : Prop :=
  | phase_fresh : running m = false → closed m = false → eventChClosed m = false → doneChClosed m = false →
      terminateChClosed m = false → loopLive m = false → doneClosed (assignmentWatcherMux m) = false → phase m
  | phase_running : running m = true → closed m = false → eventChClosed m = false → doneChClosed m = false →
      terminateChClosed m = false → loopLive m = true → doneClosed (assignmentWatcherMux m) = false → phase m
  | phase_closed : running m = false → closed m = true → eventChClosed m = true → doneChClosed m = true →
      terminateChClosed m = true → loopLive m = false → doneClosed (assignmentWatcherMux m) = true → phase m.
Definition mgr_inv m : Prop := phase m ∧ mux_inv (assignmentWatcherMux m).

Lemma with_objs_inv m k : mgr_inv m → mgr_inv (with_objs m k).
Proof. intros [[] ?]; (split; [|done]); [constructor 1|constructor 2|constructor 3]; done. Qed.
Lemma with_mu_inv m b : mgr_inv m → mgr_inv (with_mu m b).
Proof. intros [[] ?]; (split; [|done]); [constructor 1|constructor 2|constructor 3]; done. Qed.

Lemma Close_running m :
  mgr_inv m → running m = true → muLocked m = false →
  returns (mgr_Close iter m) (λ '(m', err), err = None ∧ mgr_inv m' ∧ closed m' = true ∧ muLocked m' = false).
Proof.
  intros [[Hr' ? ? ? ? ? ?|_ Hc He Hdn Ht Hlp Hmd|Hr' ? ? ? ? ? ?] Hmux] Hr Hl; try congruence.
  unfold mgr_Close, loop_terminate. rewrite Hl, Hr. simpl. rewrite Hc, Ht; simpl.
  destruct (Close_run iter _ Hiter Hmux Hmd) as (mux & -> & Hinv & Hd & _). cbn [mbind go_bind].
  rewrite Hdn. cbn [mbind go_bind]. simpl. rewrite He.
  apply returns_done. split_and!; try done. split; [by apply phase_closed|done].
Qed.
Lemma Close_not_running m :
  mgr_inv m → running m = false → muLocked m = false →
  mgr_Close iter m = Done (m, Some ErrRunnableMustBeRunningToBeClosed).
Proof. intros _ Hr Hl. unfold mgr_Close. by rewrite Hl, Hr. Qed.

Lemma submit_inv m e m' err : mgr_inv m → submit m e = Done (m', err) → mgr_inv m'.
Proof.
  unfold submit. destruct (eventChClosed m), (loopLive m); try done.
  destruct (handleEvent _ _). intros Hm [= <- <-]. by apply with_objs_inv.
Qed.
Lemma Run_inv m m' err : mgr_inv m → mgr_Run m = Done (m', err) → mgr_inv m'.
Proof.
  intros Hm. unfold mgr_Run. destruct (muLocked m); [done|].
  destruct (running m) eqn:Hr; [intros [= <- <-]; by apply with_mu_inv|].
  destruct (closed m) eqn:Hc; [intros [= <- <-]; by apply with_mu_inv|].
  destruct (AssignmentFIFO_Subscribe (objs m)) as [k [err'|]]; intros [= <- <-]; [by apply with_objs_inv|].
  destruct Hm as [[] Hmux]; try congruence. split; [|done]. by apply phase_running.
Qed.
Lemma SetObjects_inv e m bl lt sm m' err : mgr_inv m → SetObjects e m bl lt sm = Done (m', err) → mgr_inv m'.
Proof.
  intros Hm. unfold SetObjects. cbn [AnyPtrIsNil existsb orb].
  destruct (transformBackendList e bl); try done. cbn [mbind go_bind]. rewrite newEvent_set.
  destruct (submit m _) as [[m1 err1]| | |] eqn:Hs; try done. cbn [mbind go_bind]. intros [= <- _].
  by eapply submit_inv.
Qed.
Lemma Watch_mgr_inv m m' id : mgr_inv m → WatchAssignment m = Done (m', id) → mgr_inv m'.
Proof.
  intros [Hp Hmux]. unfold WatchAssignment.
  destruct (Watch _ _) as [[mux i]| | |] eqn:Hw; try done. cbn [mbind go_bind]. intros [= <- <-].
  split; simpl; [|by eapply Watch_inv].
  assert (Hd : doneClosed mux = doneClosed (assignmentWatcherMux m)).
  { unfold Watch in Hw. case_decide; [done|]. by injection Hw as <- <-. }
  destruct Hp; [constructor 1|constructor 2|constructor 3]; simpl; congruence.
Qed.
Lemma Assignment_inv p r m a m' : mgr_inv m → loop_assignment iter p r m a = Done m' → mgr_inv m'.
Proof.
  intros [Hp Hmux]. unfold loop_assignment.
  destruct (DispatchFuncWithTimeout _ _ _ _ _) as [mux| | |] eqn:Hd; try done. cbn [mbind go_bind].
  intros [= <-].
  destruct (dispatch_list_inv _ _ _ _ _ _ _ eq_refl Hmux Hd) as [Hi Hdc].
  split; [|done]. destruct Hp; [constructor 1|constructor 2|constructor 3]; simpl; congruence.
Qed.
Lemma Close_mgr_inv m m' err : mgr_inv m → mgr_Close iter m = Done (m', err) → mgr_inv m'.
Proof using Hiter.
  intros Hm HC. pose proof HC as HC'. unfold mgr_Close in HC'.
  destruct (muLocked m) eqn:Hl; [done|]. destruct (running m) eqn:Hr; simpl in HC'.
  - destruct (Close_running m Hm Hr Hl) as ([m1 e1] & Heq & _ & ? & _). congruence.
  - by injection HC' as <- <-.
Qed.

Lemma mgr_step_inv m m' : mgr_step iter m m' → mgr_inv m → mgr_inv m'.
Proof using Hiter.
  intros [] Hm.
  - by eapply Run_inv.
  - by eapply Close_mgr_inv.
  - by eapply SetObjects_inv.
  - rewrite BatchUpdate_submit in *. by eapply submit_inv.
  - rewrite BatchDelete_submit in *. by eapply submit_inv.
  - by eapply Watch_mgr_inv.
  - by eapply Assignment_inv.
Qed.
Lemma mgr_reachable_inv k mux m :
  mux_inv mux → doneClosed mux = false → rtc (mgr_step iter) (NewDataStructureManager k mux) m → mgr_inv m.
Proof using Hiter.
  intros Hmux Hd. apply (rtc_ind_r (λ m, mgr_inv m)).
  - split; [by apply phase_fresh|done].
  - intros y z _ Hs. by apply mgr_step_inv.
Qed.

(** Nothing but [Close] and [Run] touches the mutex between two calls. *)
Lemma mgr_step_locked m m' : mgr_step iter m m' → muLocked m = true → muLocked m' = true.
Proof.
  assert (Hsub : ∀ m e m' err, submit m e = Done (m', err) → muLocked m' = muLocked m).
  { intros m1 e m2 err. unfold submit. destruct (eventChClosed m1), (loopLive m1); try done.
    destruct (handleEvent _ _). by intros [= <- <-]. }
  intros [m1 m2 err HR|m1 m2 err HC|m1 m2 e bl lt sm err HS|m1 m2 b err HU|m1 m2 b err HD|m1 m2 id HW|m1 m2 p r a _ HA] Hl.
  - unfold mgr_Run in HR. by rewrite Hl in HR.
  - unfold mgr_Close in HC. by rewrite Hl in HC.
  - unfold SetObjects in HS. cbn [AnyPtrIsNil existsb orb] in HS.
    destruct (transformBackendList e bl); try done. cbn [mbind go_bind] in HS. rewrite newEvent_set in HS.
    destruct (submit m1 _) as [[m3 err3]| | |] eqn:Es; try done. injection HS as <- _.
    by rewrite (Hsub _ _ _ _ Es).
  - rewrite BatchUpdate_submit in HU. by rewrite (Hsub _ _ _ _ HU).
  - rewrite BatchDelete_submit in HD. by rewrite (Hsub _ _ _ _ HD).
  - unfold WatchAssignment in HW. destruct (Watch _ _) as [[]| | |]; try done. by injection HW as <- _.
  - unfold loop_assignment in HA. destruct (DispatchFuncWithTimeout _ _ _ _ _); try done. by injection HA as <-.
Qed.
End lifecycle.

(** * Properties *)


Definition example_backend : Backend := {|
  Id := replicate 16 1;
  Spec := {| IP := [10; 0; 0; 1]; Port := 8080; MacAddr := [2; 0; 0; 0; 0; 1]; SpecState := StateAvailable |};
  Status := {| StatusState := StateAvailable |}; coordinates := [0; 0; 0; 0] |}.
Definition example_manager : dsManager shared_kernel :=
  {| objs := fresh_kernel; assignmentWatcherMux := NewWatcherMux 2; eventChClosed := false; running := true;
     closed := false; doneChClosed := false; terminateChClosed := false; muLocked := false; loopLive := true |}.


(** In whatever state the manager is, [SetObjects] with a backend whose
    address is not IPv4, or whose hardware address is shorter than six bytes,
    panics instead of returning an error. *)
Theorem SetObjects_panics {K} `{!EbpfObjects K, !FlatErrors} (e : endian) (m : dsManager K)
    (bl : list Backend) (lt : list Z) (sm : gmap uuid Z) :
  ¬ Forall installable bl →
  SetObjects e m bl lt sm = Panic IndexOutOfRange ∨ SetObjects e m bl lt sm = Panic SliceToArray.
Proof.
  intros Hn. destruct (transformBackendList_panics e bl Hn) as (p & Hp & Hcase).
  unfold SetObjects. rewrite Hp. destruct Hcase as [-> | ->]; auto.
Qed.

Definition ipv6_backend : Backend := {|
  Id := replicate 16 1;
  Spec := {| IP := replicate 15 0 ++ [1]; Port := 8080; MacAddr := [2; 0; 0; 0; 0; 1]; SpecState := StateAvailable |};
  Status := {| StatusState := StateAvailable |}; coordinates := [0; 0; 0; 0] |}.
Lemma SetObjects_panics_witness :
  @SetObjects _ shared_objects flaterrors_wraps LittleEndian example_manager [ipv6_backend] [0; 0] ∅ = Panic IndexOutOfRange ∨
  @SetObjects _ shared_objects flaterrors_wraps LittleEndian example_manager [ipv6_backend] [0; 0] ∅ = Panic SliceToArray.
Proof.
  apply SetObjects_panics. intros [[v4 H4] _]%Forall_singleton. by vm_compute in H4.
Defined.

(** The session batches. On a running manager an update makes the active
    session map read the batch where it has the session and the old map
    elsewhere, a deletion removes the listed sessions and no other, and
    neither touches the backend list nor the lookup table. *)
Theorem session_batches {K} `{!EbpfObjects K, !EbpfObjectsLaws K, !FlatErrors} (m m1 m2 : dsManager K)
    (upd : gmap uuid Z) (del : list uuid) :
  BatchUpdateSession m upd = Done (m1, None) → BatchDeleteSession m1 del = Done (m2, None) →
  BackendList (active (objs m2)) = BackendList (active (objs m)) ∧
  LookupTable (active (objs m2)) = LookupTable (active (objs m)) ∧
  ∀ sid, SessionMap (active (objs m2)) !! sid =
    if decide (sid ∈ del) then None else (upd ∪ SessionMap (active (objs m))) !! sid.
Proof.
  rewrite BatchUpdate_submit, BatchDelete_submit. unfold submit.
  destruct (eventChClosed m); [done|]. destruct (loopLive m); [|done].
  change (handleEvent (objs m) _) with (SessionMap_BatchUpdate (objs m) upd).
  destruct (SessionMap_BatchUpdate _ _) as [k1 e1] eqn:E1. intros [= <- ->]. simpl.
  destruct (eventChClosed m); [done|]. destruct (loopLive m); [|done].
  change (handleEvent k1 _) with (SessionMap_BatchDelete k1 del).
  destruct (SessionMap_BatchDelete _ _) as [k2 e2] eqn:E2. intros [= <- ->]. simpl.
  rewrite (batch_delete_ok _ _ _ E2), (batch_update_ok _ _ _ E1). simpl.
  split_and!; try done. intros sid. case_decide as Hin.
  - by apply lookup_foldr_delete.
  - by apply lookup_foldr_delete_not_elem_of.
Qed.

Lemma session_batches_witness : ∃ m1 m2 : dsManager shared_kernel,
  @BatchUpdateSession _ shared_objects flaterrors_wraps example_manager {[ [1] := 4; [2] := 5 ]} = Done (m1, None) ∧
  @BatchDeleteSession _ shared_objects flaterrors_wraps m1 [[2]] = Done (m2, None) ∧
  BackendList (active (objs m2)) = BackendList (active (objs example_manager)) ∧
  LookupTable (active (objs m2)) = LookupTable (active (objs example_manager)) ∧
  ∀ sid, SessionMap (active (objs m2)) !! sid =
    if decide (sid ∈ [[2]]) then None
    else (({[ [1] := 4; [2] := 5 ]} : gmap uuid Z) ∪ SessionMap (active (objs example_manager))) !! sid.
Proof.
  eexists. eexists. split; [reflexivity|]. split; [reflexivity|].
  eapply (session_batches (H := flaterrors_wraps)); reflexivity.
Defined.

Section lifecycle_properties.
Context {K : Type} `{!EbpfObjects K, !FlatErrors} (iter : gset Z → list Z).
Implicit Types (m : dsManager K).


(** A second Run is refused with [ErrAlreadyRunning] but keeps the
    manager's mutex: whatever is called after it, no Run and no Close ever
    returns, so the manager can no longer be shut down. *)
Theorem Run_twice_deadlocks m :
  muLocked m = false → running m = true →
  ∃ m', mgr_Run m = Done (m', Some ErrAlreadyRunning) ∧
    ∀ m'', rtc (mgr_step iter) m' m'' → mgr_Run m'' = Blocked ∧ mgr_Close iter m'' = Blocked.
Proof.
  intros Hl Hr. exists (with_mu m true). split; [unfold mgr_Run; by rewrite Hl, Hr|].
  intros m'' Hs. assert (Hl'' : muLocked m'' = true).
  { revert Hs. apply (rtc_ind_r (λ m, muLocked m = true)); [done|].
    intros y z _ Hyz Hy. by eapply mgr_step_locked. }
  unfold mgr_Run, mgr_Close. by rewrite Hl''.
Qed.

(** Closing the program after its manager always reports an error, because
    it closes the manager a second time; and closing the program twice panics
    on its done channel. *)
Theorem prog_Close_after_manager r m link_err objs_err :
  running m = false → muLocked m = false → rRunning r = true → rDoneClosed r = false →
  ∃ r' er, prog_Close iter link_err objs_err r m = Done (r', m, Some er) ∧
    errors_is er "runnable must be running to be closed" = true ∧ attached r' = false ∧
    prog_Close iter link_err objs_err r' m = Panic CloseOfClosedChannel.
Proof.
  intros Hr Hl Hrr Hd. unfold prog_Close, mgr_Close. rewrite Hl, Hr, Hrr. cbn [negb mbind go_bind].
  rewrite Hd.
  destruct link_err, objs_err; unfold join_err; do 2 eexists; (split; [reflexivity|]); split_and!; try done;
    repeat (rewrite ?Join_is; simpl); done.
Qed.
End lifecycle_properties.

Lemma example_manager_reachable :
  rtc (@mgr_step _ shared_objects flaterrors_wraps elements)
    (NewDataStructureManager fresh_kernel (NewWatcherMux 2)) example_manager.
Proof. apply rtc_once. by eapply (step_Run _ _ _ None). Qed.


Lemma Run_twice_deadlocks_witness :
  ∃ m', mgr_Run example_manager = Done (m', Some ErrAlreadyRunning) ∧
    ∀ m'', rtc (@mgr_step _ shared_objects flaterrors_wraps elements) m' m'' →
      mgr_Run m'' = Blocked ∧ mgr_Close elements m'' = Blocked.
Proof. apply (@Run_twice_deadlocks _ shared_objects flaterrors_wraps elements example_manager); done. Defined.

Definition running_program : runnable := {| rRunning := true; rDoneClosed := false; attached := true; loaded := true |}.
Lemma prog_Close_after_manager_witness :
  let m := NewDataStructureManager fresh_kernel (NewWatcherMux 2) in
  ∃ r' er, @prog_Close _ flaterrors_wraps elements None None running_program m = Done (r', m, Some er) ∧
    errors_is er "runnable must be running to be closed" = true ∧ attached r' = false ∧
    @prog_Close _ flaterrors_wraps elements None None r' m = Panic CloseOfClosedChannel.
Proof. intros m. apply (@prog_Close_after_manager _ flaterrors_wraps elements running_program m); done. Defined.
