(* ===== verification/ManagerLoop.v ===== *)
(** * ManagerLoop: the manager's calls in flight

    [BpfManager] runs the calls of the data-structure manager one at a time.
    Here they overlap: goroutines block in [SetObjects] and the batch methods,
    the event loop of internal/adapter/bpf/manager.go receives their events
    and queues them for the only worker of the event pool
    (internal/util/workerpool.go), the worker runs [handleEvent] and answers on
    the channel of the event, and a shutdown may come at any time.  A schedule
    is a list of [mact]; the theorems hold for all of them. *)
From S2P Require Import Prelude Types GoNet WatcherMux BpfManager WorkerPool.

(** A goroutine inside a call that writes: before the loop received its event,
    in [await], or after its return.  [CAborted] is the return of
    [ErrOperationAborted], [CPanicked] the panic of a send on the closed
    [eventCh]. *)
Inductive client :=
  | CSend (e : event)
  | CAwait (e : event)
  | CReturned (e : event) (err : option error)
  | CAborted (e : event)
  | CPanicked (e : event).

(** The event loop: before the first [select], at the second one, holding an
    event it will put on [eventQ], waiting for the pools after [terminate:],
    or after [close(mgr.doneCh)]. *)
Inductive loop_at := LTop | LSelect | LHave (id : nat) | LAwait | LEnded.

(** The worker: at a [select] ([drain] says which), inside the function for
    event [id], blocked in [e.errCh <- err], or after its return. *)
Inductive worker_at :=
  | WSelect (drain : bool)
  | WExec (drain : bool) (id : nat)
  | WReply (drain : bool) (id : nat) (err : error)
  | WExit.

#[export] Instance worker_at_exit_dec (w : worker_at) : Decision (w = WExit).
Proof. destruct w; [right; done..|left; done]. Defined.

Section loop.
Context {K : Type} `{!EbpfObjects K, !FlatErrors}.

Record mstate := {
  kern : K;
  clients : list client;              (* by call *)
  lp : loop_at;
  evq : list nat;                     (* eventQ *)
  wk : worker_at;
  errClosed : gset nat;               (* events whose errCh is closed *)
  term : bool;                        (* terminateCh is closed *)
  doneCh : bool;                      (* doneCh is closed *)
  eventChC : bool;                    (* eventCh is closed *)
  elog : list (nat * event * option error)   (* the events handled, in order *)
}.

Definition qSize : nat := 10.

Definition start_loop (k : K) : mstate :=
  {| kern := k; clients := []; lp := LTop; evq := []; wk := WSelect false; errClosed := ∅; term := false;
     doneCh := false; eventChC := false; elog := [] |}.

Definition set_client (s : mstate) (i : nat) (c : client) : mstate :=
  {| kern := kern s; clients := <[i := c]> (clients s); lp := lp s; evq := evq s; wk := wk s;
     errClosed := errClosed s; term := term s; doneCh := doneCh s; eventChC := eventChC s; elog := elog s |}.
Definition set_loop (s : mstate) (l : loop_at) (q : list nat) (d : bool) : mstate :=
  {| kern := kern s; clients := clients s; lp := l; evq := q; wk := wk s;
     errClosed := errClosed s; term := term s; doneCh := d; eventChC := eventChC s; elog := elog s |}.
Definition set_worker (s : mstate) (w : worker_at) (q : list nat) (closed : gset nat) : mstate :=
  {| kern := kern s; clients := clients s; lp := lp s; evq := q; wk := w;
     errClosed := closed ∪ errClosed s; term := term s; doneCh := doneCh s; eventChC := eventChC s; elog := elog s |}.

Definition event_of (c : client) : event :=
  match c with CSend e | CAwait e | CReturned e _ | CAborted e | CPanicked e => e end.

Inductive mact :=
  | Call (e : event)          (* a goroutine reaches mgr.eventCh <- e *)
  | CloseTerminate            (* Close closes terminateCh *)
  | CloseEventCh              (* Close, after doneCh or its timeout, closes eventCh *)
  | SendPanics (i : nat)
  | AwaitErr (i : nat)        (* await receives the error the worker sends *)
  | AwaitClosed (i : nat)     (* await finds errCh closed *)
  | AwaitDone (i : nat)       (* await finds doneCh closed *)
  | LoopTop                   (* the first select takes its default *)
  | LoopReceive (i : nat)     (* the second select receives the event of call i *)
  | LoopAssignment            (* the second select takes an assignment *)
  | LoopPut                   (* eventQ <- func() *)
  | LoopTerminate             (* either select finds terminateCh closed *)
  | LoopClosed                (* the second select finds eventCh or the FIFO closed *)
  | LoopDone                  (* both pools are done: close(mgr.doneCh) *)
  | WorkTake
  | WorkTerminate
  | WorkEmpty
  | WorkExec.                 (* handleEvent up to its send, or its end *)

Definition mstep (s : mstate) (a : mact) : option mstate :=
  match a with
  | Call e =>
      let c := if eventChC s then CPanicked e else CSend e in
      Some {| kern := kern s; clients := clients s ++ [c]; lp := lp s; evq := evq s; wk := wk s;
              errClosed := errClosed s; term := term s; doneCh := doneCh s; eventChC := eventChC s; elog := elog s |}
  | CloseTerminate =>
      if term s then None
      else Some {| kern := kern s; clients := clients s; lp := lp s; evq := evq s; wk := wk s;
                   errClosed := errClosed s; term := true; doneCh := doneCh s; eventChC := eventChC s; elog := elog s |}
  | CloseEventCh =>
      if term s then
        if eventChC s then None
        else Some {| kern := kern s; clients := clients s; lp := lp s; evq := evq s; wk := wk s;
                     errClosed := errClosed s; term := term s; doneCh := doneCh s; eventChC := true; elog := elog s |}
      else None
  | SendPanics i =>
      match clients s !! i with
      | Some (CSend e) => if eventChC s then Some (set_client s i (CPanicked e)) else None
      | _ => None
      end
  | AwaitErr i =>
      match clients s !! i, wk s with
      | Some (CAwait e), WReply d j err =>
          if decide (i = j) then Some (set_worker (set_client s i (CReturned e (Some err))) (WSelect d) (evq s) {[j]})
          else None
      | _, _ => None
      end
  | AwaitClosed i =>
      match clients s !! i with
      | Some (CAwait e) => if decide (i ∈ errClosed s) then Some (set_client s i (CReturned e None)) else None
      | _ => None
      end
  | AwaitDone i =>
      match clients s !! i with
      | Some (CAwait e) => if doneCh s then Some (set_client s i (CAborted e)) else None
      | _ => None
      end
  | LoopTop => match lp s with LTop => if term s then None else Some (set_loop s LSelect (evq s) (doneCh s)) | _ => None end
  | LoopReceive i =>
      match lp s, clients s !! i with
      | LSelect, Some (CSend e) =>
          if eventChC s then None else Some (set_loop (set_client s i (CAwait e)) (LHave i) (evq s) (doneCh s))
      | _, _ => None
      end
  | LoopAssignment => match lp s with LSelect => Some (set_loop s LTop (evq s) (doneCh s)) | _ => None end
  | LoopPut =>
      match lp s with
      | LHave i => if decide (length (evq s) < qSize)%nat then Some (set_loop s LTop (evq s ++ [i]) (doneCh s)) else None
      | _ => None
      end
  | LoopTerminate =>
      match lp s with
      | LTop | LSelect => if term s then Some (set_loop s LAwait (evq s) (doneCh s)) else None
      | _ => None
      end
  | LoopClosed => match lp s with LSelect => Some (set_loop s LAwait (evq s) (doneCh s)) | _ => None end
  | LoopDone => match lp s, wk s with LAwait, WExit => Some (set_loop s LEnded (evq s) true) | _, _ => None end
  | WorkTake => match wk s, evq s with WSelect d, i :: q => Some (set_worker s (WExec d i) q ∅) | _, _ => None end
  | WorkTerminate =>
      match wk s with WSelect false => if term s then Some (set_worker s (WSelect true) (evq s) ∅) else None | _ => None end
  | WorkEmpty =>
      match wk s, evq s with WSelect true, [] => Some (set_worker s WExit [] ∅) | _, _ => None end
  | WorkExec =>
      match wk s with
      | WExec d i =>
          match clients s !! i with
          | None => None
          | Some c =>
              let (k', err) := handleEvent (kern s) (event_of c) in
              Some {| kern := k'; clients := clients s; lp := lp s; evq := evq s;
                      wk := match err with Some er => WReply d i er | None => WSelect d end;
                      errClosed := match err with Some _ => errClosed s | None => {[i]} ∪ errClosed s end;
                      term := term s; doneCh := doneCh s; eventChC := eventChC s;
                      elog := elog s ++ [(i, event_of c, err)] |}
          end
      | _ => None
      end
  end.

(** The sequential manager: handling the events of a log one after the other
    from [k] gives the logged results and ends in [k']. *)
Fixpoint replay (k : K) (l : list (nat * event * option error)) (k' : K) : Prop :=
  match l with
  | [] => k' = k
  | (_, e, r) :: l => (handleEvent k e).2 = r ∧ replay (handleEvent k e).1 l k'
  end.
End loop.
Arguments mstate : clear implicits.

(** * Lemmas *)

Section invariants.
Context {K : Type} `{!EbpfObjects K, !FlatErrors}.
Implicit Types (s : mstate K).

Lemma replay_snoc k l k' i e :
  replay k l k' → replay k (l ++ [(i, e, (handleEvent k' e).2)]) (handleEvent k' e).1.
Proof.
  revert k. induction l as [|[[j e'] r] l IH]; intros k; simpl; [by intros ->|].
  intros [? ?]. split; [done|by apply IH].
Qed.

(** ** Control *)

Definition draining (w : worker_at) : bool :=
  match w with WSelect d | WExec d _ | WReply d _ _ => d | WExit => true end.

Record control s : Prop := {
  ct_drain : draining (wk s) = true → term s = true;
  ct_done : doneCh s = true → wk s = WExit ∧ lp s = LEnded;
  ct_ended : lp s = LEnded → doneCh s = true;
  ct_exit : wk s = WExit → match lp s with LSelect | LHave _ => evq s = [] | _ => (length (evq s) <= 1)%nat end;
  ct_cap : (length (evq s) <= qSize)%nat;
  ct_eventCh : eventChC s = true → term s = true
}.

(** Unfolds one enabled action into the cases it is enabled in. *)
Ltac mstep_cases Hs :=
  simpl in Hs;
  repeat match type of Hs with
  | context [match ?x with _ => _ end] =>
      lazymatch x with
      | handleEvent _ _ => fail
      | _ => destruct x eqn:?; try done
      end
  | context [if decide _ then _ else _] => case_decide; try done
  end.

Lemma mstep_control s a s' : control s → mstep s a = Some s' → control s'.
Proof.
  intros [H1 H2 H3 H4 H5 H6] Hs.
  destruct a; mstep_cases Hs;
    try (destruct (handleEvent _ _) as [k' [er|]]; [|]); injection Hs as <-;
    split; simpl in *; unfold qSize in *; rewrite ?length_app; simpl; intros; try done; try naive_solver lia.
  all: try congruence.
  all: try (rewrite H4 by done; simpl; lia).
  - by rewrite H0 in H1; specialize (H1 eq_refl).
  - by destruct (lp s); auto with lia.
Qed.

(** ** Data *)

Definition worker_ids (w : worker_at) : list nat := match w with WExec _ i => [i] | _ => [] end.
Definition loop_ids (l : loop_at) : list nat := match l with LHave i => [i] | _ => [] end.
(** The events received by the loop and not handled yet, oldest first. *)
Definition inflight s : list nat := worker_ids (wk s) ++ evq s ++ loop_ids (lp s).
Definition log_ids s : list nat := (λ x, x.1.1) <$> elog s.
(** All events received by the loop, in the order it received them. *)
Definition received s : list nat := log_ids s ++ inflight s.

Definition client_ok s (i : nat) (c : client) : Prop :=
  match c with
  | CSend _ | CPanicked _ => i ∉ received s
  | CAwait e => i ∈ inflight s ∨ ((i, e, None) ∈ elog s ∧ i ∈ errClosed s) ∨
      (∃ d err, (i, e, Some err) ∈ elog s ∧ wk s = WReply d i err)
  | CReturned e r => (i, e, r) ∈ elog s
  | CAborted _ => doneCh s = true
  end.

Record data (k0 : K) s : Prop := {
  dt_replay : replay k0 (elog s) (kern s);
  dt_nodup : NoDup (received s);
  dt_bound : ∀ i, i ∈ received s → (i < length (clients s))%nat;
  dt_client : ∀ i c, clients s !! i = Some c → client_ok s i c;
  dt_log : ∀ i e r, (i, e, r) ∈ elog s → (event_of <$> clients s !! i) = Some e;
  dt_closed : ∀ i, i ∈ errClosed s → i ∈ log_ids s;
  dt_reply : ∀ d i err, wk s = WReply d i err →
    (i ∉ errClosed s) ∧ ∃ e, clients s !! i = Some (CAwait e) ∧ (i, e, Some err) ∈ elog s
}.

Lemma in_log_received s i e r : (i, e, r) ∈ elog s → i ∈ log_ids s.
Proof. intros H1. apply list_elem_of_fmap. by exists (i, e, r). Qed.
Lemma log_not_inflight k0 s i : data k0 s → i ∈ log_ids s → i ∈ inflight s → False.
Proof. intros [_ Hnd _ _ _ _ _] Hl Hi. apply NoDup_app in Hnd as (_ & Hd & _). by eapply Hd. Qed.

(** A client that moves, with the log, the queue and the worker untouched. *)
Lemma set_client_data k0 s i c c' :
  data k0 s → clients s !! i = Some c → event_of c' = event_of c → client_ok s i c' →
  (∀ d err, wk s ≠ WReply d i err) → data k0 (set_client s i c').
Proof.
  intros [H1 H2 H3 H4 H5 H6 H7] Hi He Hc Hw. pose proof (lookup_lt_Some _ _ _ Hi) as Hlt.
  split; simpl; try done.
  - intros j Hj. rewrite length_insert. by apply H3.
  - intros j cj. destruct (decide (i = j)) as [<-|Hne].
    + rewrite list_lookup_insert_eq by done. by intros [= <-].
    + rewrite list_lookup_insert_ne by done. apply H4.
  - intros j e r Hj. destruct (decide (i = j)) as [<-|Hne].
    + rewrite list_lookup_insert_eq by done. simpl. rewrite He. specialize (H5 _ _ _ Hj). by rewrite Hi in H5.
    + rewrite list_lookup_insert_ne by done. by eapply H5.
  - intros d j err Hwk. destruct (H7 d j err Hwk) as (Hn & e & Hcl & Hin). split; [done|].
    destruct (decide (i = j)) as [<-|Hne]; [by destruct (Hw d err)|].
    exists e. by rewrite list_lookup_insert_ne.
Qed.
(** The loop or the worker moves without handling an event or answering. *)
Lemma received_same_data k0 s s' :
  data k0 s → kern s' = kern s → clients s' = clients s → elog s' = elog s → errClosed s' = errClosed s →
  inflight s' = inflight s → (doneCh s = true → doneCh s' = true) →
  (∀ d i err, wk s = WReply d i err ↔ wk s' = WReply d i err) → data k0 s'.
Proof.
  intros [H1 H2 H3 H4 H5 H6 H7] Ek Ec El Ee Ei Ed Ew.
  assert (Eg : log_ids s' = log_ids s) by (unfold log_ids; by rewrite El).
  assert (Er : received s' = received s) by (unfold received; by rewrite Eg, Ei).
  split; rewrite ?Er, ?Eg, ?El, ?Ec, ?Ek, ?Ee; try done.
  - intros i c Hi. specialize (H4 i c Hi). destruct c; simpl in *; rewrite ?Er, ?El, ?Ei, ?Ee; auto.
    destruct H4 as [?|[?|(d & err & Hl & Hw)]]; [auto..|]. right. right. exists d, err. by rewrite <-Ew.
  - intros d i err Hw. apply Ew in Hw. by eapply H7.
Qed.
(** The client of the event the worker is about to handle is waiting. *)
Lemma exec_client k0 s d i c :
  control s → data k0 s → wk s = WExec d i → clients s !! i = Some c → ∃ e, c = CAwait e.
Proof.
  intros Hct Hd Hw Hi.
  assert (Hin : i ∈ inflight s) by (unfold inflight; rewrite Hw; set_solver).
  pose proof (dt_client _ _ Hd i c Hi) as Hc.
  destruct c as [e|e|e r|e|e]; simpl in Hc; eauto; exfalso.
  - apply Hc. unfold received. set_solver.
  - eapply log_not_inflight; [done|by eapply in_log_received|done].
  - apply (ct_done _ Hct) in Hc as [Hc _]. congruence.
  - apply Hc. unfold received. set_solver.
Qed.

Lemma call_data k0 s e s' : data k0 s → mstep s (Call e) = Some s' → data k0 s'.
Proof.
  intros [H1 H2 H3 H4 H5 H6 H7] [= <-]. set (c := if eventChC s then CPanicked e else CSend e).
  split; simpl; try done.
  - intros i Hi. rewrite length_app. specialize (H3 i Hi). lia.
  - intros i ci [Hi|[Hge Hi]]%lookup_app_Some; [by specialize (H4 i ci Hi)|].
    apply list_lookup_singleton_Some in Hi as [Hz <-].
    assert (i ∉ received s) by (intros ?%H3; lia). unfold c. by destruct (eventChC s).
  - intros i e' r Hl. specialize (H5 _ _ _ Hl). apply fmap_Some in H5 as (ci & Hi & ->).
    by rewrite (lookup_app_l_Some _ _ _ _ Hi).
  - intros d i err Hw. destruct (H7 d i err Hw) as (Hn & e' & Hi & Hl). split; [done|].
    exists e'. split; [by apply lookup_app_l_Some|done].
Qed.

Lemma receive_data k0 s i s' : data k0 s → mstep s (LoopReceive i) = Some s' → data k0 s'.
Proof.
  intros [H1 H2 H3 H4 H5 H6 H7] Hs. simpl in Hs. destruct (lp s) eqn:Hlp; try done.
  destruct (clients s !! i) as [[e|e|e r|e|e]|] eqn:Hi; try done. destruct (eventChC s); [done|]. injection Hs as <-.
  pose proof (lookup_lt_Some _ _ _ Hi) as Hlt. pose proof (H4 i _ Hi) as Hnew. simpl in Hnew.
  set (s' := set_loop _ _ _ _).
  assert (Ef : inflight s' = inflight s ++ [i]) by (unfold inflight; simpl; by rewrite Hlp, app_nil_r, app_assoc).
  assert (Er : received s' = received s ++ [i]) by (unfold received; by rewrite Ef, app_assoc).
  split; rewrite ?Er; try done.
  - apply NoDup_app. split; [done|]. split; [|apply NoDup_singleton]. intros j Hj ->%list_elem_of_singleton. done.
  - intros j [Hj| ->%list_elem_of_singleton]%elem_of_app; simpl; rewrite length_insert; [by apply H3|done].
  - intros j c. simpl. destruct (decide (i = j)) as [<-|Hne].
    + rewrite list_lookup_insert_eq by done. intros [= <-]. left. rewrite Ef. set_solver.
    + rewrite list_lookup_insert_ne by done. intros Hj. specialize (H4 j c Hj).
      destruct c; simpl in *; rewrite ?Er, ?Ef; set_solver.
  - intros j e' r Hl. simpl. specialize (H5 _ _ _ Hl). destruct (decide (i = j)) as [<-|Hne].
    + rewrite list_lookup_insert_eq by done. by rewrite Hi in H5.
    + by rewrite list_lookup_insert_ne.
  - intros d j err Hw. destruct (H7 d j err Hw) as (Hn & e' & Hj & Hl). split; [done|].
    exists e'. split; [|done]. simpl. rewrite list_lookup_insert_ne; [done|]. intros <-. congruence.
Qed.

Lemma exec_data k0 s s' : control s → data k0 s → mstep s WorkExec = Some s' → data k0 s'.
Proof.
  intros Hct Hd Hs. simpl in Hs. destruct (wk s) as [|d i| |] eqn:Hw; try done.
  destruct (clients s !! i) as [c|] eqn:Hi; [|done].
  destruct (exec_client k0 s d i c Hct Hd Hw Hi) as [e ->]. simpl in Hs.
  pose proof (replay_snoc _ _ _ i e (dt_replay _ _ Hd)) as Hrep.
  destruct (handleEvent (kern s) e) as [k' err]. simpl in Hrep. injection Hs as <-.
  destruct Hd as [H1 H2 H3 H4 H5 H6 H7]. set (s' := {| kern := k' |}).
  assert (Ef : inflight s = i :: inflight s').
  { unfold inflight. simpl. rewrite Hw. by destruct err. }
  assert (Er : received s' = received s).
  { unfold received, log_ids. rewrite Ef. simpl. rewrite fmap_app, <-app_assoc. done. }
  assert (Hlog : ∀ x, x ∈ elog s → x ∈ elog s') by (intros x; simpl; set_solver).
  split; rewrite ?Er; try done.
  - intros j c Hj. specialize (H4 j c Hj). destruct c as [ej|ej|ej r|ej|ej]; simpl in H4 |- *; rewrite ?Er; auto.
    destruct (decide (i = j)) as [<-|Hne].
    + right. simpl in Hj. rewrite Hi in Hj. injection Hj as <-. destruct err as [er|].
      * right. exists d, er. split; [set_solver|done].
      * left. set_solver.
    + destruct H4 as [Hf|[[Hl Hcl]|(d' & er & _ & Hw')]]; [|right; left; split; [set_solver|by destruct err; set_solver]|congruence].
      left. rewrite Ef in Hf. set_solver.
  - intros j e' r. simpl. rewrite elem_of_app, list_elem_of_singleton. intros [Hl|[= -> -> ->]]; [by eapply H5|].
    by rewrite Hi.
  - intros j Hj. unfold log_ids. simpl in *. rewrite fmap_app. apply elem_of_app. destruct err; [left; by apply H6|].
    apply elem_of_union in Hj as [->%elem_of_singleton|Hj]; [right; set_solver|left; by apply H6].
  - intros d' j er Hw'. simpl in Hw'. destruct err as [er'|]; [|done]. injection Hw' as -> -> ->. split.
    + simpl. intros Hj%H6. unfold received in H2. rewrite Ef in H2. apply NoDup_app in H2 as (_ & Hdis & _).
      apply (Hdis _ Hj). set_solver.
    + exists e. split; [done|]. simpl. set_solver.
Qed.

Lemma await_err_data k0 s i s' : data k0 s → mstep s (AwaitErr i) = Some s' → data k0 s'.
Proof.
  intros Hd Hs. simpl in Hs. destruct (clients s !! i) as [[]|] eqn:Hi; try done.
  destruct (wk s) as [| |d j err|] eqn:Hw; try done. case_decide as Hij; [|done]. subst j. injection Hs as <-.
  destruct (dt_reply _ _ Hd d i err Hw) as (_ & e' & Hi' & Hl). rewrite Hi in Hi'. injection Hi' as <-.
  pose proof (lookup_lt_Some _ _ _ Hi) as Hlt. destruct Hd as [H1 H2 H3 H4 H5 H6 H7].
  set (s' := set_worker _ _ _ _). assert (Ef : inflight s' = inflight s) by (unfold inflight; simpl; by rewrite Hw).
  assert (Er : received s' = received s) by (unfold received; by rewrite Ef).
  split; rewrite ?Er; try done.
  - intros j Hj. simpl. rewrite length_insert. by apply H3.
  - intros j c. simpl. destruct (decide (i = j)) as [<-|Hne].
    + rewrite list_lookup_insert_eq by done. by intros [= <-].
    + rewrite list_lookup_insert_ne by done. intros Hj. specialize (H4 j c Hj).
      destruct c; simpl in *; rewrite ?Er, ?Ef; auto.
      destruct H4 as [?|[[? ?]|(d2 & er & _ & Hn)]]; [auto|right; left; set_solver|congruence].
  - intros j e' r Hl'. simpl. specialize (H5 _ _ _ Hl'). destruct (decide (i = j)) as [<-|Hne].
    + rewrite list_lookup_insert_eq by done. by rewrite Hi in H5.
    + by rewrite list_lookup_insert_ne.
  - simpl. intros j [->%elem_of_singleton|Hj]%elem_of_union; [by eapply in_log_received|by apply H6].
Qed.

(** The loop or the worker moved: the events received are the same. *)
Ltac same_received :=
  eapply received_same_data; [eassumption|try done..]; simpl; try (by rewrite (left_id_L ∅ _));
  unfold inflight; simpl;
  repeat match goal with
  | E : lp _ = _ |- _ => rewrite E; clear E
  | E : wk _ = _ |- _ => rewrite E; clear E
  | E : evq _ = _ |- _ => rewrite E; clear E
  end; simpl; rewrite ?app_nil_r; naive_solver.

Lemma mstep_data k0 s a s' : control s → data k0 s → mstep s a = Some s' → data k0 s'.
Proof.
  intros Hct Hd Hs.
  destruct a as [e| | |i|i|i|i| |i| | | | | | | | |];
    [by eapply call_data| | | |by eapply await_err_data| | | |by eapply receive_data|..|by eapply exec_data].
  all: pose proof Hs as Hs'; mstep_cases Hs'; injection Hs' as <-.
  all: try solve [same_received].
  - eapply set_client_data; [done|done|done| |].
    + exact (dt_client _ _ Hd i _ Heqo).
    + intros d err Hw. destruct (dt_reply _ _ Hd _ _ _ Hw) as (_ & e' & He & _). congruence.
  - eapply set_client_data; [done|done|done| |].
    + pose proof (dt_client _ _ Hd i _ Heqo) as [Hf|[[Hl _]|(d & err & _ & Hw)]]; [|done|].
      * exfalso. eapply log_not_inflight; [done|by apply (dt_closed _ _ Hd)|done].
      * destruct (dt_reply _ _ Hd _ _ _ Hw). done.
    + intros d err Hw. by destruct (dt_reply _ _ Hd _ _ _ Hw).
  - eapply set_client_data; [done|done|done|done|].
    intros d err Hw. apply (ct_done _ Hct) in Heqb as [Hx _]. congruence.
Qed.

Lemma start_control k : control (start_loop k).
Proof. split; simpl; (done || lia). Qed.
Lemma start_data k : data k (start_loop k).
Proof. split; simpl; try done; try set_solver. apply NoDup_nil_2. Qed.

Lemma mrun_inv k acts s : run_acts mstep (start_loop k) acts = Some s → control s ∧ data k s.
Proof.
  apply (run_acts_inv _ (λ s, control s ∧ data k s)); [|split; [apply start_control|apply start_data]].
  intros s1 a s2 [Hc Hd] Hs. split; [by eapply mstep_control|by eapply mstep_data].
Qed.

(** ** Shutting down *)

(** Everything but new calls and the closing of [terminateCh]. *)
Definition internal_step s (a : mact) : option (mstate K) :=
  match a with Call _ | CloseTerminate => None | _ => mstep s a end.
Definition settled (c : client) : bool :=
  match c with CReturned _ _ | CAborted _ | CPanicked _ => true | _ => false end.

Definition client_weight (c : client) : nat := match c with CSend _ => 20 | CAwait _ => 1 | _ => 0 end.
Definition loop_weight (l : loop_at) : nat :=
  match l with LTop => 2 | LSelect => 3 | LHave _ => 15 | LAwait => 1 | LEnded => 0 end.
Definition worker_weight (w : worker_at) : nat :=
  match w with WSelect false => 2 | WSelect true => 1 | WExec _ _ => 8 | WReply _ _ _ => 7 | WExit => 0 end.
Definition mmeasure s : nat :=
  (sum_list_with client_weight (clients s) + loop_weight (lp s) + 10 * length (evq s) + worker_weight (wk s) +
   if eventChC s then 0 else 1)%nat.

Lemma clients_weight_insert l i c c' :
  l !! i = Some c →
  (sum_list_with client_weight (<[i := c']> l) + client_weight c = sum_list_with client_weight l + client_weight c')%nat.
Proof.
  intros Hi. rewrite insert_take_drop by by eapply lookup_lt_Some.
  rewrite <-(take_drop_middle l i c Hi) at 3. rewrite !sum_list_with_app. simpl. lia.
Qed.
Lemma internal_measure s a s' :
  term s = true → internal_step s a = Some s' → (mmeasure s' < mmeasure s)%nat ∧ term s' = true.
Proof.
  intros Ht Hs. destruct a; simpl in Hs; try done; mstep_cases Hs;
    try (destruct (handleEvent _ _) as [k' [er|]]); injection Hs as <-; (split; [|done]);
    unfold mmeasure; simpl;
    repeat match goal with
    | E : lp _ = _ |- _ => rewrite E; clear E
    | E : wk _ = _ |- _ => rewrite E; clear E
    | E : evq _ = _ |- _ => rewrite E; clear E
    | E : eventChC _ = _ |- _ => rewrite E; clear E
    | E : clients _ !! ?i = Some ?c |- context [<[?i := ?c']> (clients _)] =>
        pose proof (clients_weight_insert _ i c c' E); clear E
    end; rewrite ?length_app; simpl in *;
    repeat match goal with b : bool |- _ => destruct b end; simpl in *; try congruence; try lia.
Qed.

(** While the worker is not gone, it or the client it answers can go on. *)
Lemma worker_can_move k0 s :
  control s → data k0 s → term s = true → wk s ≠ WExit → ∃ a s', internal_step s a = Some s'.
Proof.
  intros Hc Hd Ht Hw. destruct (wk s) as [[]|d i|d i err|] eqn:Ew; try done.
  - destruct (evq s) eqn:Eq; [exists WorkEmpty|exists WorkTake]; simpl; rewrite Ew, Eq; eauto.
  - exists WorkTerminate. simpl. rewrite Ew, Ht. eauto.
  - exists WorkExec. simpl. rewrite Ew.
    assert (Hi : i ∈ received s) by (unfold received, inflight; rewrite Ew; set_solver).
    apply (dt_bound _ _ Hd) in Hi. apply lookup_lt_is_Some_2 in Hi as [c ->]. destruct (handleEvent _ _). eauto.
  - exists (AwaitErr i). simpl. destruct (dt_reply _ _ Hd _ _ _ Ew) as (_ & e & -> & _).
    rewrite Ew, decide_True by done. eauto.
Qed.
Lemma internal_progress k0 s :
  control s → data k0 s → term s = true →
  Forall (λ c, settled c = true) (clients s) ∨ ∃ a s', internal_step s a = Some s'.
Proof.
  intros Hc Hd Ht. destruct (decide (wk s = WExit)) as [Hw|Hw].
  2: { right. by eapply worker_can_move. }
  pose proof (ct_exit _ Hc Hw) as Hq. destruct (lp s) eqn:El.
  - right. exists LoopTerminate. simpl. rewrite El, Ht. eauto.
  - right. exists LoopTerminate. simpl. rewrite El, Ht. eauto.
  - right. exists LoopPut. simpl. rewrite El, Hq, decide_True by (unfold qSize; simpl; lia). eauto.
  - right. exists LoopDone. simpl. rewrite El, Hw. eauto.
  - destruct (decide (Forall (λ c, settled c = true) (clients s))) as [|Hn]; [by left|right].
    apply not_Forall_Exists in Hn; [|apply _]. apply Exists_exists in Hn as (c & [i Hi]%list_elem_of_lookup & Hns).
    destruct c as [e|e|e r|e|e]; try by destruct Hns.
    + destruct (eventChC s) eqn:Ec.
      * exists (SendPanics i). simpl. rewrite Hi, Ec. eauto.
      * exists CloseEventCh. simpl. rewrite Ht, Ec. eauto.
    + exists (AwaitDone i). simpl. rewrite Hi, (ct_ended _ Hc El). eauto.
Qed.
End invariants.

(** The objects the log of a run leaves active when every event sets objects. *)
Definition last_set (o : eventObjects) (l : list (nat * event * option error)) : eventObjects :=
  foldl (λ o x, match x.2 with None => set x.1.2 | Some _ => o end) o l.
Lemma replay_last_set {K} `{!EbpfObjects K, !EbpfObjectsLaws K, !FlatErrors} (k k' : K) l :
  Forall (λ x, kind x.1.2 = eventKindSet) l → replay k l k' → active k' = last_set (active k) l.
Proof.
  intros Hl. revert k. induction Hl as [|[[i e] r] l He _ IH]; intros k; simpl; [by intros ->|].
  simpl in He. assert (Hh : handleEvent k e = setObjects k (set e)).
  { unfold handleEvent. by rewrite decide_True. }
  rewrite Hh. destruct (setObjects k (set e)) as [k1 r1] eqn:Es. simpl. intros [-> Hr]. rewrite (IH _ Hr).
  destruct r as [er|]; [by rewrite (setObjects_error _ _ _ _ Es)|by rewrite (setObjects_installs _ _ _ Es)].
Qed.

(** * Properties *)

Section properties.
Context {K : Type} `{!EbpfObjects K, !FlatErrors}.

(** C7: overlapping calls refine the sequential manager. Under every schedule
    of callers, event loop, worker and shutdown, the kernel's state is that of
    handling some of the submitted events one after the other, each at most
    once; a call that returns without being aborted returns exactly the result
    its event had in that sequence, and no event is handled that was not
    submitted. *)
Theorem calls_linearize (k : K) acts s :
  run_acts mstep (start_loop k) acts = Some s →
  replay k (elog s) (kern s) ∧ NoDup (log_ids s) ∧
  (∀ i e r, clients s !! i = Some (CReturned e r) → (i, e, r) ∈ elog s) ∧
  (∀ i e r, (i, e, r) ∈ elog s → event_of <$> (clients s !! i) = Some e).
Proof.
  intros Hr. destruct (mrun_inv k acts s Hr) as [_ Hd]. split_and!.
  - apply Hd.
  - pose proof (dt_nodup _ _ Hd) as Hn. by apply NoDup_app in Hn as [? _].
  - intros i e r Hi. exact (dt_client _ _ Hd i _ Hi).
  - apply Hd.
Qed.

(** C23: no call hangs through a shutdown. Once [terminateCh] is closed,
    whatever the scheduler does, every call in flight comes to an end: it
    returns the result of its event, or [ErrOperationAborted], or panics
    because it was still sending when [eventCh] was closed. *)
Theorem calls_settle (k : K) acts s :
  run_acts mstep (start_loop k) acts = Some s → term s = true →
  inevitable internal_step (λ s', Forall (λ c, settled c = true) (clients s')) s.
Proof.
  intros Hr Ht. destruct (mrun_inv k acts s Hr) as [Hc Hd].
  apply (inevitable_measure _ (λ s, control s ∧ data k s ∧ term s = true) _ mmeasure); [done| |].
  - intros s1 (Hc1 & Hd1 & Ht1). by eapply internal_progress.
  - intros s1 a s2 (Hc1 & Hd1 & Ht1) Hs. destruct (internal_measure s1 a s2 Ht1 Hs) as [Hm Ht2].
    assert (Hs' : mstep s1 a = Some s2) by by destruct a.
    split_and!; [by eapply mstep_control|by eapply mstep_data|done|done].
Qed.

(** When the events set objects, the program always reads the objects of
    the last call whose event was handled without an error. *)
Theorem last_set_active `{!EbpfObjectsLaws K} (k : K) acts s :
  run_acts mstep (start_loop k) acts = Some s → Forall (λ x, kind x.1.2 = eventKindSet) (elog s) →
  active (kern s) = last_set (active k) (elog s).
Proof.
  intros Hr Hl. destruct (mrun_inv k acts s Hr) as [_ Hd]. apply replay_last_set; [done|apply Hd].
Qed.

(** The shutdown may tell a caller that its operation was aborted although
    the kernel was written, and a caller that has not been received when
    [Close] gives up panics. *)
Theorem shutdown_misreports (k : K) (e : event) :
  (handleEvent k e).2 = None →
  (∃ acts s, run_acts mstep (start_loop k) acts = Some s ∧ clients s = [CAborted e] ∧
     kern s = (handleEvent k e).1) ∧
  (∃ acts s, run_acts mstep (start_loop k) acts = Some s ∧ clients s = [CPanicked e] ∧ kern s = k).
Proof.
  intros He. split.
  - exists [Call e; LoopTop; LoopReceive 0; LoopPut; WorkTake; WorkExec; CloseTerminate; LoopTerminate;
            WorkTerminate; WorkEmpty; LoopDone; AwaitDone 0].
    simpl. destruct (handleEvent k e) as [k' r] eqn:E. simpl in He. subst r. simpl. by eexists.
  - exists [Call e; CloseTerminate; CloseEventCh; SendPanics 0]. by eexists.
Qed.
End properties.

(** A sample event on the sample kernel. *)
Definition sample_event : event :=
  {| kind := eventKindSet; set := {| BackendList := []; LookupTable := [0; 0]; SessionMap := ∅ |};
     sessionBatchUpdate := ∅; sessionBatchDelete := [] |}.
Definition sample_acts : list mact :=
  [Call sample_event; Call sample_event; LoopTop; LoopReceive 1; LoopPut; WorkTake; WorkExec; AwaitClosed 1; CloseTerminate].
#[local] Existing Instance shared_objects.
#[local] Existing Instance flaterrors_wraps.
Lemma sample_schedule : ∃ s, run_acts mstep (start_loop fresh_kernel) sample_acts = Some s ∧
  term s = true ∧ elog s = [(1%nat, sample_event, None)].
Proof. eexists. split; [vm_compute; reflexivity|]. by vm_compute. Qed.

Lemma calls_linearize_witness : ∃ s, run_acts mstep (start_loop fresh_kernel) sample_acts = Some s ∧
  replay fresh_kernel (elog s) (kern s) ∧ NoDup (log_ids s) ∧
  (∀ i e r, clients s !! i = Some (CReturned e r) → (i, e, r) ∈ elog s) ∧
  (∀ i e r, (i, e, r) ∈ elog s → event_of <$> (clients s !! i) = Some e).
Proof. destruct sample_schedule as (s & Hr & _). exists s. split; [exact Hr|]. apply (calls_linearize _ _ _ Hr). Defined.
Lemma calls_settle_witness : ∃ s, run_acts mstep (start_loop fresh_kernel) sample_acts = Some s ∧
  inevitable internal_step (λ s', Forall (λ c, settled c = true) (clients s')) s.
Proof. destruct sample_schedule as (s & Hr & Ht & _). exists s. split; [exact Hr|]. apply (calls_settle _ _ _ Hr Ht). Defined.
Lemma last_set_active_witness : ∃ s, run_acts mstep (start_loop fresh_kernel) sample_acts = Some s ∧
  active (kern s) = last_set (active fresh_kernel) (elog s).
Proof.
  destruct sample_schedule as (s & Hr & _ & Hl). exists s. split; [exact Hr|]. apply (last_set_active _ _ _ Hr).
  rewrite Hl. by apply Forall_singleton.
Defined.
