(* ===== verification/Monitor.v ===== *)
(** * Monitor: internal/adapter/monitor

    The backend health monitor (backend_state.go), the receiver of remote
    assignments (remote_assignment.go) and the static backend list
    (backend_spec_map.go).  The network and the clock are inputs: what a probe
    met, what a read of the socket gave. *)
From S2P Require Import Prelude Types GoNet Json Codec WatcherMux MuxStreams Packet.

(** ** github.com/google/uuid *)

(** Name-based identifiers: [NewSHA1] returns a sixteen byte UUID. *)
Class UuidSHA1 := {
  NewSHA1 : uuid → list Z → uuid;
  NameSpaceDNS : uuid;
  NameSpaceURL : uuid;
  NewSHA1_uuid : ∀ ns data, is_uuid (NewSHA1 ns data)
}.

(** [[]byte(fmt.Sprintf("%s:%d", ip, port))]. *)
Definition host_port (ip : string) (port : Z) : list Z := bytes ip ++ [ch_colon] ++ itoa port.

(** ** A monitor's lifecycle state *)

Section monitor.
Context {T : Type}.

Record monitor := {
  watcherMux : WatcherMux T;
  mRunning : bool;
  mClosed : bool;
  mDone : bool;          (* doneCh is closed *)
  mTerminate : bool      (* terminateCh is closed *)
}.

(** The loop after [terminate:]; the error of the multiplexer is dropped. *)
Definition monitor_terminate (iter : gset Z → list Z) (m : monitor) : go monitor :=
  mux ← Close iter (watcherMux m);
  if mDone m then Panic CloseOfClosedChannel
  else Done {| watcherMux := mux; mRunning := mRunning m; mClosed := mClosed m; mDone := true;
               mTerminate := mTerminate m |}.

Definition monitor_Run (listen_err : option error) (m : monitor) : monitor * option error :=
  if mRunning m then (m, Some ErrAlreadyRunning)
  else if mClosed m then (m, Some ErrCannotRunClosedRunnable)
  else match listen_err with
       | Some err => (m, Some err)
       | None => ({| watcherMux := watcherMux m; mRunning := true; mClosed := mClosed m; mDone := mDone m;
                     mTerminate := mTerminate m |}, None)
       end.

(** The loop terminates within the five seconds it is given. *)
Definition monitor_Close (iter : gset Z → list Z) (m : monitor) : go (monitor * option error) :=
  if negb (mRunning m) then Done (m, Some ErrRunnableMustBeRunningToBeClosed)
  else if mClosed m then Done (m, Some ErrAlreadyClosed)
  else if mTerminate m then Panic CloseOfClosedChannel
  else
    m ← monitor_terminate iter
          {| watcherMux := watcherMux m; mRunning := mRunning m; mClosed := mClosed m; mDone := mDone m;
             mTerminate := true |};
    Done ({| watcherMux := watcherMux m; mRunning := false; mClosed := true; mDone := mDone m;
             mTerminate := mTerminate m |}, None).

Definition with_mux (m : monitor) (mux : WatcherMux T) : monitor :=
  {| watcherMux := mux; mRunning := mRunning m; mClosed := mClosed m; mDone := mDone m; mTerminate := mTerminate m |}.

Definition monitor_Watch (m : monitor) : go (monitor * Z) :=
  '(mux, id) ← Watch (watcherMux m) None; Done (with_mux m mux, id).

(** [watcherMux.Dispatch] with the timeout dispatch function. *)
Definition monitor_dispatch (iter : gset Z → list Z) (pick_done reads : bool) (m : monitor) (v : T) : go monitor :=
  mux ← DispatchFuncWithTimeout iter pick_done reads (watcherMux m) v; Done (with_mux m mux).

Definition new_monitor (mux : WatcherMux T) : monitor :=
  {| watcherMux := mux; mRunning := false; mClosed := false; mDone := false; mTerminate := false |}.
End monitor.
Arguments monitor : clear implicits.

(** ** backend_state.go *)

Record backendState := { bsBackends : gmap uuid BackendSpec; bsMonitor : monitor BackendStatusEntry }.

Definition NewBackendState (backends : gmap uuid BackendSpec) (mux : WatcherMux BackendStatusEntry) : backendState :=
  {| bsBackends := backends; bsMonitor := new_monitor mux |}.

(** One tick: every backend, in the order [order] the map is ranged over, is
    probed and its state dispatched. *)
Definition health_tick (iter : gset Z → list Z) (order : gmap uuid BackendSpec → list (uuid * BackendSpec))
    (net : BackendSpec → probe_net) (pick_done reads : bool) (b : backendState) : go backendState :=
  m ← foldM (λ m e, monitor_dispatch iter pick_done reads m
                      {| EntryBackendId := e.1; EntryState := probe (net e.2) |})
        (order (bsBackends b)) (bsMonitor b);
  Done {| bsBackends := bsBackends b; bsMonitor := m |}.

(** ** remote_assignment.go *)

Definition NewRemoteAssignment (mux : WatcherMux Assignment) : monitor Assignment := new_monitor mux.

(** [Run] opens the socket: [listen_err] is what [net.ListenPacket] returned. *)
Definition remote_Run (listen_err : option error) (m : monitor Assignment) : monitor Assignment * option error :=
  monitor_Run listen_err m.

(** [Close] also closes the socket, dropping its error, to wake the loop. *)
Definition remote_Close (iter : gset Z → list Z) (m : monitor Assignment) : go (monitor Assignment * option error) :=
  monitor_Close iter m.

(** The buffer [recvLoop] reads into. *)
Definition remoteBufSize : nat := Z.to_nat 65536.

(** What [ReadFrom] gave: an error (a timeout or another), or a datagram. *)
Inductive read_result := ReadError | ReadData (data : list Z).

(** One round of [recvLoop] that is not told to terminate. *)
Definition recv_step `{!UuidText} (iter : gset Z → list Z) (pick_done reads : bool) (m : monitor Assignment) (r : read_result)
    : go (monitor Assignment) :=
  match r with
  | ReadError => Done m
  | ReadData data =>
      let buf := take remoteBufSize data in
      if decide (length buf = 0%nat) then Done m
      else match Unmarshal assignment_codec buf (zero assignment_codec) with
           | (_, Some _) => Done m
           | (assignment, None) => monitor_dispatch iter pick_done reads m assignment
           end
  end.

(** ** backend_spec_map.go *)

Section spec_map.
Context `{!UuidSHA1}.

Definition spec_map_add (specMap : gmap uuid BackendSpec) (bc : BackendConfig) : gmap uuid BackendSpec :=
  if negb (Enabled bc) then specMap
  else match ParseIP (cfgIP bc) with
       | None => specMap
       | Some ip =>
           match ParseMAC (cfgMAC bc) with
           | None => specMap
           | Some mac =>
               <[NewSHA1 NameSpaceDNS (host_port (cfgIP bc) (cfgPort bc)) :=
                   {| IP := ip; Port := cfgPort bc; MacAddr := mac; SpecState := StateAvailable |}]> specMap
           end
       end.

Record backendSpecList := {
  specMap : gmap uuid BackendSpec;
  slMux : WatcherMux (gmap uuid BackendSpec);
  slDone : bool;
  slTerminate : bool;
  dispatched : bool
}.

Definition NewBackendSpecList (config : Config) (mux : WatcherMux (gmap uuid BackendSpec)) : backendSpecList :=
  {| specMap := foldl spec_map_add ∅ (Backends config); slMux := mux; slDone := false; slTerminate := false;
     dispatched := false |}.

(** The first [Watch] starts the only dispatch; the goroutine that does it is
    run at once. *)
Definition spec_Watch (iter : gset Z → list Z) (pick_done reads : bool) (b : backendSpecList)
    : go (backendSpecList * Z) :=
  '(mux, id) ← Watch (slMux b) None;
  if dispatched b then
    Done ({| specMap := specMap b; slMux := mux; slDone := slDone b; slTerminate := slTerminate b;
             dispatched := true |}, id)
  else
    mux ← DispatchFuncWithTimeout iter pick_done reads mux (specMap b);
    Done ({| specMap := specMap b; slMux := mux; slDone := slDone b; slTerminate := slTerminate b;
             dispatched := true |}, id).

Definition spec_Close (iter : gset Z → list Z) (b : backendSpecList) : go backendSpecList :=
  if slTerminate b then Panic CloseOfClosedChannel
  else
    mux ← Close iter (slMux b);
    if slDone b then Panic CloseOfClosedChannel
    else Done {| specMap := specMap b; slMux := mux; slDone := true; slTerminate := true;
                 dispatched := dispatched b |}.
End spec_map.

(** * Properties *)


