(* ===== verification/MonitorLoops.v ===== *)
(** * MonitorLoops: the goroutines of the monitors

    [healthCheckLoop] (monitor/backend_state.go) and [recvLoop]
    (monitor/remote_assignment.go), each under every schedule with the calls
    of its subscribers, [Run] and [Close].  Ticks, the answers of probes and
    what the socket gives are steps of the schedule. *)
From S2P Require Import Prelude Types GoNet Json Codec WatcherMux MuxStreams Packet Monitor.

(** ** The calls of a running monitor *)

Section managed.
Context {T : Type}.

Record managed := {
  mon : monitor T;
  mclosing : bool;                   (* a call of Close awaits the termination *)
  mcrashed : bool;                   (* a goroutine panicked, the process is gone *)
  manswers : list (option error)     (* what Run and Close returned *)
}.
Definition start_managed (m : monitor T) : managed := {| mon := m; mclosing := false; mcrashed := false; manswers := [] |}.
Definition with_mon (g : managed) (m : monitor T) : managed :=
  {| mon := m; mclosing := mclosing g; mcrashed := mcrashed g; manswers := manswers g |}.
Definition answer (g : managed) (m : monitor T) (cl : bool) (ans : list (option error)) : managed :=
  {| mon := m; mclosing := cl; mcrashed := mcrashed g; manswers := manswers g ++ ans |}.
Definition mcrash (g : managed) : managed :=
  {| mon := mon g; mclosing := mclosing g; mcrashed := true; manswers := manswers g |}.
Definition set_flags (m : monitor T) (run clo term : bool) : monitor T :=
  {| watcherMux := watcherMux m; mRunning := run; mClosed := clo; mDone := mDone m; mTerminate := term |}.

(** A panic of the code a goroutine runs ends the process. *)
Definition managed_go (g : managed) (c : go (monitor T)) : option managed :=
  match c with Done m => Some (with_mon g m) | Panic _ => Some (mcrash g) | _ => None end.

Inductive mcall :=
  | CWatch
  | CCancel (id : Z)
  | CReceive (id : Z)                (* a subscriber reads its channel *)
  | CRun (listen_err : option error)
  | CClose                           (* Close up to its select *)
  | CCloseReturn (timeout : bool).

(** [Run] and [Close] hold the mutex; the latter also while it waits. *)
Definition call_step (g : managed) (c : mcall) : option managed :=
  if mcrashed g then None else
  let m := mon g in
  match c with
  | CWatch => managed_go g ('(m, _) ← monitor_Watch m; Done m)
  | CCancel id => managed_go g (mux ← cancel (watcherMux m) id; Done (with_mux m mux))
  | CReceive id =>
      match recv (watcherMux m) id with Done (mux, Some _) => Some (with_mon g (with_mux m mux)) | _ => None end
  | CRun listen_err =>
      if mclosing g then None else let (m', err) := monitor_Run listen_err m in Some (answer g m' false [err])
  | CClose =>
      if mclosing g then None
      else if negb (mRunning m) then Some (answer g m false [Some ErrRunnableMustBeRunningToBeClosed])
      else if mClosed m then Some (answer g m false [Some ErrAlreadyClosed])
      else if mTerminate m then Some (mcrash g)
      else Some (answer g (set_flags m (mRunning m) (mClosed m) true) true [])
  | CCloseReturn timeout =>
      if mclosing g && (mDone m || timeout) then Some (answer g (set_flags m false true (mTerminate m)) false [None]) else None
  end.

(** A caller that calls each cancel function once. *)
Definition polite_call (g : managed) (c : mcall) : bool :=
  match c with
  | CCancel id => match heap (watcherMux (mon g)) !! id with Some w => negb (wDoneClosed w) | None => false end
  | _ => true
  end.
(** The calls that leave subscription [id] to its owner: no cancel and no read
    of it, and its identifier not given again (that takes 2^64
    subscriptions). *)
Definition call_spares (id : Z) (g : managed) (c : mcall) : bool :=
  match c with
  | CWatch => bool_decide (watcherIdCount (watcherMux (mon g)) ≠ id)
  | CCancel j | CReceive j => bool_decide (j ≠ id)
  | _ => true
  end.
End managed.
Arguments managed : clear implicits.

(** ** healthCheckLoop *)

Section health.
Context (iter : gset Z → list Z) (backends : gmap uuid BackendSpec).

(** In its select, in a round with these backends to probe, or past
    [terminate:]. *)
Inductive health_at := HSelect | HProbing (todo : list (uuid * BackendSpec)) | HEnded.
Record hstate := {
  health : managed BackendStatusEntry;
  hloop : health_at;
  rounds : list (list uuid);             (* the order of each round *)
  probed : list (uuid * probe_net)       (* the probes, and what they met *)
}.
(** After a successful [Run]. *)
Definition start_health (m : monitor BackendStatusEntry) : hstate :=
  {| health := start_managed (monitor_Run None m).1; hloop := HSelect; rounds := []; probed := [] |}.

Definition status_entry (p : uuid * probe_net) : BackendStatusEntry :=
  {| EntryBackendId := p.1; EntryState := Packet.probe p.2 |}.
Definition next_probe (todo : list (uuid * BackendSpec)) : health_at :=
  match todo with [] => HSelect | _ => HProbing todo end.
Definition with_health (s : hstate) (g : managed BackendStatusEntry) : hstate :=
  {| health := g; hloop := hloop s; rounds := rounds s; probed := probed s |}.

Inductive hact :=
  | HCall (c : mcall)
  | HTick (order : gmap uuid BackendSpec → list (uuid * BackendSpec))   (* <-ticker.C *)
  | HProbe (net : probe_net) (pick_done reads : bool)                   (* one turn of the range loop *)
  | HTerminate.                                                         (* <-b.terminateCh *)

Definition hstep (s : hstate) (a : hact) : option hstate :=
  let g := health s in
  if mcrashed g then None else
  match a with
  | HCall c => g' ← call_step g c; Some (with_health s g')
  | HTick order =>
      match hloop s with
      | HSelect =>
          Some {| health := g; hloop := next_probe (order backends); rounds := rounds s ++ [(order backends).*1]; probed := probed s |}
      | _ => None
      end
  | HProbe net p r =>
      match hloop s with
      | HProbing ((id, spec) :: todo) =>
          match monitor_dispatch iter p r (mon g) (status_entry (id, net)) with
          | Done m => Some {| health := with_mon g m; hloop := next_probe todo; rounds := rounds s; probed := probed s ++ [(id, net)] |}
          | Panic _ => Some (with_health s (mcrash g))
          | _ => None
          end
      | _ => None
      end
  | HTerminate =>
      match hloop s with
      | HSelect =>
          if mTerminate (mon g) then
            g' ← managed_go g (monitor_terminate iter (mon g));
            Some {| health := g'; hloop := if mcrashed g' then HSelect else HEnded; rounds := rounds s; probed := probed s |}
          else None
      | _ => None
      end
  end.
(** Schedules whose callers call each cancel function once. *)
Definition polite_hstep (s : hstate) (a : hact) : option hstate :=
  match a with HCall c => if polite_call (health s) c then hstep s a else None | _ => hstep s a end.
End health.

(** ** recvLoop *)

Section remote.
Context `{!UuidText} (iter : gset Z → list Z).

(** At the select of the loop, in [ReadFrom], past it with a datagram, past
    [goto terminate], or gone. *)
Inductive recv_at := RPoll | RRead | RHave (data : list Z) | RLeave | REnded.
Record rstate := {
  remote : managed Assignment;
  rloop : recv_at;
  datagrams : list (list Z)              (* handled *)
}.
Definition start_remote (m : monitor Assignment) : rstate :=
  {| remote := start_managed (remote_Run None m).1; rloop := RPoll; datagrams := [] |}.
Definition with_remote (s : rstate) (g : managed Assignment) (l : recv_at) : rstate :=
  {| remote := g; rloop := l; datagrams := datagrams s |}.

Inductive ract :=
  | RCall (c : mcall)
  | RSelect                              (* the select with a default *)
  | RTimeout                             (* the read deadline passes *)
  | RFail                                (* another error of the socket *)
  | RDatagram (data : list Z)
  | RHandle (pick_done reads : bool)
  | RTerminate.                          (* what follows terminate: *)

Definition rstep (s : rstate) (a : ract) : option rstate :=
  let g := remote s in
  if mcrashed g then None else
  match a, rloop s with
  | RCall c, l => g' ← call_step g c; Some (with_remote s g' l)
  | RSelect, RPoll => Some (with_remote s g (if mTerminate (mon g) then RLeave else RRead))
  | RTimeout, RRead => Some (with_remote s g RPoll)
  | RFail, RRead => Some (with_remote s g (if mTerminate (mon g) then RLeave else RPoll))
  | RDatagram data, RRead => Some (with_remote s g (RHave data))
  | RHandle p r, RHave data =>
      match recv_step iter p r (mon g) (ReadData data) with
      | Done m => Some {| remote := with_mon g m; rloop := RPoll; datagrams := datagrams s ++ [data] |}
      | Panic _ => Some (with_remote s (mcrash g) (RHave data))
      | _ => None
      end
  | RTerminate, RLeave =>
      g' ← managed_go g (monitor_terminate iter (mon g));
      Some (with_remote s g' (if mcrashed g' then RLeave else REnded))
  | _, _ => None
  end.
Definition polite_rstep (s : rstate) (a : ract) : option rstate :=
  match a with RCall c => if polite_call (remote s) c then rstep s a else None | _ => rstep s a end.
End remote.

(** * Lemmas *)

Ltac mstep_cases H :=
  repeat match type of H with
  | (_ ≫= _) = Some _ => apply bind_Some in H as (? & ? & H)
  | context [match ?x with (_, _) => _ end] => destruct x eqn:?; cbn beta iota in H
  | match ?x with _ => _ end = Some _ => destruct x eqn:?; try discriminate H
  | managed_go _ ?c = Some _ => destruct c eqn:?; cbn [managed_go] in H; try discriminate H
  end; try discriminate H; try injection H as <-.

Section managed_laws.
Context {T : Type} (iter : gset Z → list Z) (Hiter : ∀ X, iter X ≡ₚ elements X).
Implicit Types (g : managed T) (m : monitor T).

(** The management state of a monitor whose loop has [ended] or not. *)
Record managed_ok (ended : bool) g : Prop := {
  mo_inv : mux_inv (watcherMux (mon g));
  mo_open : ended = false → mux_ready (watcherMux (mon g)) ∧ doneClosed (watcherMux (mon g)) = false ∧ mDone (mon g) = false;
  mo_ended : ended = true → mDone (mon g) = true ∧ doneClosed (watcherMux (mon g)) = true;
  mo_flags : mRunning (mon g) = negb (mClosed (mon g));
  mo_term : mTerminate (mon g) = mclosing g || mClosed (mon g);
  mo_closing : mclosing g = true → mClosed (mon g) = false
}.

Lemma managed_mux b g mux : managed_ok b g → quiet (watcherMux (mon g)) mux → managed_ok b (with_mon g (with_mux (mon g) mux)).
Proof.
  intros [Hi Ho He Hf Ht Hc] [Qi Qd Qr _]. split; simpl; try done; [auto|..]; rewrite Qd; [|done].
  intros Hne. destruct (Ho Hne) as (H1 & H2 & H3). auto.
Qed.
Lemma with_mon_same g : with_mon g (mon g) = g.
Proof. by destruct g. Qed.
Lemma managed_crash b g : managed_ok b g → managed_ok b (mcrash g).
Proof. intros []. by split. Qed.

(** What a call leaves: the state as it was, and the streams of the channels. *)
Lemma call_step_ok b g c g' : managed_ok b g → call_step g c = Some g' →
  managed_ok b g' ∧ (∀ L, logged (watcherMux (mon g)) L → logged (watcherMux (mon g')) L) ∧
  (mTerminate (mon g) = true → mTerminate (mon g') = true).
Proof.
  intros Hok Hs. unfold call_step in Hs. destruct (mcrashed g) eqn:Hcr; [done|].
  destruct c; mstep_cases Hs; try (split_and!; [by apply managed_crash|done..]).
  - unfold monitor_Watch in Heqg0. destruct (Watch (watcherMux (mon g)) None) as [[m' id]| | |] eqn:Hw; try done.
    injection Heqg0 as <-. pose proof (watch_quiet _ _ _ _ Hw) as Hq. split_and!; [by apply (managed_mux b g)|apply Hq|done].
  - destruct (cancel _ id) as [m'| | |] eqn:Hw; try done. injection Heqg0 as <-.
    pose proof (cancel_quiet _ _ _ Hw) as Hq. split_and!; [by apply (managed_mux b g)|apply Hq|done].
  - pose proof (recv_quiet _ _ _ _ Heqg0) as Hq. split_and!; [by apply (managed_mux b g)|apply Hq|done].
  - destruct Hok as [Hi Ho He Hf Ht Hc]. unfold monitor_Run in Heqp. rewrite Hf in Heqp.
    destruct (mClosed (mon g)) eqn:Hcl; simpl in Heqp; [|injection Heqp as <- _].
    + destruct listen_err; injection Heqp as <- _; (split; [split; simpl; rewrite ?Hcl; try done; rewrite Ht; by destruct (mclosing g)|done]).
    + split; [split; simpl; rewrite ?Hcl; try done; rewrite Ht; by destruct (mclosing g)|done].
  - destruct Hok as [Hi Ho He Hf Ht Hc]. split; [|done]. split; simpl; try done. by rewrite Ht, Heqb0.
  - destruct Hok as [Hi Ho He Hf Ht Hc]. split; [|done]. split; simpl; try done. by rewrite Ht, Heqb0.
  - destruct Hok as [Hi Ho He Hf Ht Hc]. split; [|done]. split; simpl; try done.
    by apply negb_false_iff.
  - apply andb_true_iff in Heqb0 as [Hcl _]. destruct Hok as [Hi Ho He Hf Ht Hc]. split; [|done]. split; simpl; try done.
    by rewrite Ht, Hcl.
Qed.

Lemma dispatch_managed p r g v :
  managed_ok false g →
  returns (monitor_dispatch iter p r (mon g) v) (λ m, managed_ok false (with_mon g m) ∧
    (∀ L, logged (watcherMux (mon g)) L → logged (watcherMux m) (L ++ [v])) ∧ mTerminate m = mTerminate (mon g)).
Proof using Hiter.
  intros [Hi Ho He Hf Ht Hc]. destruct Ho as (H1 & H2 & H3); [done|]. unfold monitor_dispatch.
  destruct (dispatch_ready iter p r _ v Hiter H1) as (mux & Hd & Hr & _). rewrite Hd. apply returns_done.
  destruct (dispatch_inv _ _ _ _ _ _ Hi Hd) as [Hi' Hd']. split_and!; [|by intros L HL; eapply logged_dispatch|done].
  split; simpl; try done. intros _. by rewrite Hd'.
Qed.
Lemma terminate_managed g : managed_ok false g →
  returns (monitor_terminate iter (mon g)) (λ m, managed_ok true (with_mon g m) ∧
    (∀ L, logged (watcherMux (mon g)) L → logged (watcherMux m) L) ∧ mTerminate m = mTerminate (mon g)).
Proof using Hiter.
  intros [Hi Ho He Hf Ht Hc]. destruct Ho as (H1 & H2 & H3); [done|]. unfold monitor_terminate.
  destruct (Close_run iter _ Hiter Hi H2) as (mux & Hm & Hi' & Hd & _). rewrite Hm. cbn [mbind go_bind]. rewrite H3.
  apply returns_done. split_and!; [|by intros L HL; eapply logged_close|done]. by split.
Qed.
(** Calls of polite callers do not crash the process. *)
Lemma polite_call_alive b g c g' :
  managed_ok b g → polite_call g c = true → call_step g c = Some g' → mcrashed g' = false.
Proof.
  intros Hok Hp Hs. unfold call_step in Hs. destruct (mcrashed g) eqn:Hcr; [done|].
  destruct c; mstep_cases Hs; try done; simpl in Hp.
  - unfold monitor_Watch in Heqg0. destruct (watch_run (watcherMux (mon g)) None (mo_inv _ _ Hok)) as (m' & id & Hw).
    rewrite Hw in Heqg0. done.
  - destruct (heap _ !! id) as [w|] eqn:Hw; [|done]. apply negb_true_iff in Hp.
    destruct (cancel_once _ id w (mo_inv _ _ Hok) Hw Hp) as [m' Hm]. rewrite Hm in Heqg0. done.
  - pose proof (mo_term _ _ Hok) as Ht. by rewrite Heqb2, Heqb0, Heqb3 in Ht.
Qed.
(** What they leave of a subscription somebody else reads. *)
Lemma call_spared g c g' id : call_spares id g c = true → call_step g c = Some g' →
  got_kept (watcherMux (mon g)) (watcherMux (mon g')) id ∧
  ∀ cap L, listening cap (watcherMux (mon g)) id L → listening cap (watcherMux (mon g')) id L.
Proof.
  intros Hsp Hs. unfold call_step in Hs. destruct (mcrashed g) eqn:Hcr; [done|].
  destruct c; mstep_cases Hs; simpl in Hsp; try (split; [apply got_kept_refl|done]).
  - apply bool_decide_eq_true in Hsp. unfold monitor_Watch in Heqg0.
    destruct (Watch (watcherMux (mon g)) None) as [[m' j]| | |] eqn:Hw; try done. injection Heqg0 as <-.
    split; [by eapply watch_got|]. intros. by eapply watch_listening.
  - apply bool_decide_eq_true in Hsp. destruct (cancel _ id0) as [m'| | |] eqn:Hw; try done. injection Heqg0 as <-.
    split; [by eapply cancel_got|]. intros. by eapply cancel_listening.
  - apply bool_decide_eq_true in Hsp. split; [by eapply recv_got|]. intros. by eapply recv_listening.
  - unfold monitor_Run in Heqp. repeat case_match; simplify_eq/=; (split; [apply got_kept_refl|done]).
Qed.
Lemma start_managed_ok mux : mux_ready mux → doneClosed mux = false → managed_ok false (start_managed (monitor_Run None (new_monitor mux)).1).
Proof. intros Hm Hd. split; simpl; try done. apply Hm. Qed.
End managed_laws.

(** ** The rounds of the health monitor *)

Section health_laws.
Context (iter : gset Z → list Z) (Hiter : ∀ X, iter X ≡ₚ elements X) (backends : gmap uuid BackendSpec).
Implicit Types (s : hstate).

(** A range over the map visits every key once. *)
Definition fair_hact (a : hact) : Prop :=
  match a with HTick order => ∀ m, order m ≡ₚ map_to_list m | _ => True end.
Definition to_probe (l : health_at) : list (uuid * BackendSpec) := match l with HProbing todo => todo | _ => [] end.
Definition health_ended (l : health_at) : bool := match l with HEnded => true | _ => false end.

Record health_ok s : Prop := {
  ho_managed : managed_ok (health_ended (hloop s)) (health s);
  ho_rounds : (probed s).*1 ++ (to_probe (hloop s)).*1 = concat (rounds s);
  ho_fair : Forall (λ r, r ≡ₚ (map_to_list backends).*1) (rounds s);
  ho_probing : hloop s ≠ HProbing [];
  ho_logged : logged (watcherMux (mon (health s))) (status_entry <$> probed s)
}.

Lemma to_probe_next todo : to_probe (next_probe todo) = todo.
Proof. by destruct todo. Qed.
Lemma next_probe_open todo : health_ended (next_probe todo) = false ∧ next_probe todo ≠ HProbing [].
Proof. by destruct todo. Qed.

Lemma hstep_ok s a s' : fair_hact a → health_ok s → hstep iter backends s a = Some s' → health_ok s'.
Proof using Hiter.
  intros Ha Hok Hs. destruct (Hok) as [Hm Hr Hf Hp Hl]. unfold hstep in Hs. destruct (mcrashed (health s)) eqn:Hcr; [done|].
  destruct a; mstep_cases Hs; simpl in *.
  - match goal with H : call_step _ _ = Some _ |- _ => destruct (call_step_ok _ _ _ _ Hm H) as (H1 & H2 & _) end.
    split; simpl; auto.
  - destruct (next_probe_open (order backends)) as [He Hn]. split; simpl; try done.
    + by rewrite He.
    + rewrite app_nil_r in Hr. rewrite to_probe_next, concat_app, Hr. simpl. by rewrite app_nil_r.
    + apply Forall_app_2; [done|]. apply Forall_singleton. apply fmap_Permutation, Ha.
  - destruct (dispatch_managed iter Hiter pick_done reads _ (status_entry (l0, net)) Hm) as (m & Hd & H1 & H2 & _).
    rewrite Hd in Heqg. injection Heqg as <-. destruct (next_probe_open l) as [He Hn]. split; simpl; try done.
    + by rewrite He.
    + rewrite to_probe_next, fmap_app, <-Hr, <-app_assoc. done.
    + rewrite fmap_app. by apply H2.
  - split; simpl; rewrite ?Heqh; try done. by apply managed_crash.
  - destruct (terminate_managed iter Hiter _ Hm) as (m & Hd & H1 & H2 & _).
    rewrite Hd in H. simpl in H. injection H as <-. simpl. rewrite Hcr. split; simpl; auto.
Qed.
Lemma start_health_ok mux :
  mux_ready mux → doneClosed mux = false → logged mux [] → health_ok (start_health (new_monitor mux)).
Proof. intros Hm Hd Hl. split; simpl; try done. by apply start_managed_ok. Qed.
Lemma hstep_term s a s' : fair_hact a → health_ok s → hstep iter backends s a = Some s' →
  mTerminate (mon (health s)) = true → mTerminate (mon (health s')) = true.
Proof using Hiter.
  intros Ha [Hm _ _ _ _] Hs Ht. unfold hstep in Hs. destruct (mcrashed (health s)) eqn:Hcr; [done|].
  destruct a; mstep_cases Hs; simpl in *; try done.
  - match goal with H : call_step _ _ = Some _ |- _ => destruct (call_step_ok _ _ _ _ Hm H) as (_ & _ & H3) end. auto.
  - unfold monitor_dispatch in Heqg. destruct (DispatchFuncWithTimeout _ _ _ _ _) as [m| | |]; try done. by injection Heqg as <-.
  - destruct (terminate_managed iter Hiter _ Hm) as (m & Hd & _ & _ & H3).
    rewrite Hd in H. simpl in H. injection H as <-. simpl. congruence.
Qed.

Lemma polite_hstep_ok s a s' : fair_hact a → health_ok s → polite_hstep iter backends s a = Some s' →
  health_ok s' ∧ mcrashed (health s') = false.
Proof using Hiter.
  intros Ha Hok Hs. assert (Hh : hstep iter backends s a = Some s').
  { destruct a; simpl in Hs; [|done..]. by destruct (polite_call _ c). }
  split; [by eapply hstep_ok|]. destruct Hok as [Hm _ _ _ _]. unfold hstep in Hh. destruct (mcrashed (health s)) eqn:Hcr; [done|].
  destruct a; simpl in Hs; mstep_cases Hh; try done; simpl in *.
  - destruct (polite_call (health s) c) eqn:Hp; [|done]. eapply polite_call_alive; [exact Hm|exact Hp|done].
  - destruct (dispatch_managed iter Hiter pick_done reads _ (status_entry (l0, net)) Hm) as (m & Hd & _). by rewrite Hd in Heqg.
  - destruct (terminate_managed iter Hiter _ Hm) as (m & Hd & _). rewrite Hd in H. by injection H as <-.
Qed.

(** The steps of the loop's own goroutine once no further tick is taken. *)
Definition health_loop_step s (a : hact) : option hstate :=
  match a with HProbe _ _ _ | HTerminate => hstep iter backends s a | _ => None end.
Definition no_dial : probe_net := {| dial_ok := false; deadline_ok := false; write_ok := false; reply := None |}.
Definition health_down s : Prop :=
  hloop s = HEnded ∧ mDone (mon (health s)) = true ∧ doneClosed (watcherMux (mon (health s))) = true.
Definition health_measure s : nat :=
  match hloop s with HSelect => 1 | HProbing todo => 2 + length todo | HEnded => 0 end.

Lemma health_inevitable s : health_ok s → mcrashed (health s) = false → mTerminate (mon (health s)) = true →
  inevitable health_loop_step health_down s.
Proof using Hiter.
  intros Hok Hcr Ht.
  apply (inevitable_measure _ (λ s, health_ok s ∧ mcrashed (health s) = false ∧ mTerminate (mon (health s)) = true) _ health_measure); [done| |].
  - clear s Hok Hcr Ht. intros s ([Hm _ _ Hp _] & Hcr & Ht). destruct (hloop s) as [|[|[id spec] todo]|] eqn:El; simpl in Hm; [|done|..].
    + right. exists HTerminate. destruct (terminate_managed iter Hiter _ Hm) as (m & Hd & _).
      unfold health_loop_step, hstep. rewrite Hcr, El, Ht, Hd. by eexists.
    + right. exists (HProbe no_dial true true). unfold health_loop_step, hstep. rewrite Hcr, El.
      destruct (dispatch_managed iter Hiter true true _ (status_entry (id, no_dial)) Hm) as (m & Hd & _). rewrite Hd. by eexists.
    + left. split; [done|]. by apply (mo_ended _ _ Hm).
  - clear s Hok Hcr Ht. intros s a s' (Hok & Hcr & Ht) Hs.
    assert (Hs' : hstep iter backends s a = Some s' ∧ fair_hact a) by by destruct a. destruct Hs' as [Hs' Ha].
    split; [split; [by eapply hstep_ok|split; [|by eapply hstep_term]]|]; destruct Hok as [Hm _ _ _ _]; unfold hstep in Hs'; rewrite Hcr in Hs';
      destruct a; try done; mstep_cases Hs'; simpl in *; try done.
    + destruct (dispatch_managed iter Hiter pick_done reads _ (status_entry (l0, net)) Hm) as (m & Hd & _). by rewrite Hd in Heqg.
    + destruct (terminate_managed iter Hiter _ Hm) as (m & Hd & _). rewrite Hd in H. by injection H as <-.
    + unfold health_measure. rewrite Heqh. simpl. destruct l; simpl; lia.
    + destruct (dispatch_managed iter Hiter pick_done reads _ (status_entry (l0, net)) Hm) as (m & Hd & _). by rewrite Hd in Heqg.
    + destruct (terminate_managed iter Hiter _ Hm) as (m & Hd & _). rewrite Hd in H. injection H as <-.
      unfold health_measure. simpl. rewrite Hcr, Heqh. lia.
Qed.
End health_laws.

(** ** The datagrams of the receiver *)

Section remote_laws.
Context `{!UuidText} (iter : gset Z → list Z) (Hiter : ∀ X, iter X ≡ₚ elements X).
Implicit Types (s : rstate).

#[local] Arguments recv_step : simpl never.
(** The assignment a datagram is taken for. *)
Definition assignment_of (data : list Z) : option Assignment :=
  let buf := take remoteBufSize data in
  if decide (length buf = 0%nat) then None
  else match Unmarshal assignment_codec buf (zero assignment_codec) with (a, None) => Some a | _ => None end.
Lemma recv_step_data p r m data :
  recv_step iter p r m (ReadData data) =
  match assignment_of data with Some a => monitor_dispatch iter p r m a | None => Done m end.
Proof. unfold recv_step, assignment_of. case_decide; [done|]. by destruct (Unmarshal _ _ _) as [a [err|]]. Qed.

Definition remote_ended (l : recv_at) : bool := match l with REnded => true | _ => false end.
Record remote_ok s : Prop := {
  ro_managed : managed_ok (remote_ended (rloop s)) (remote s);
  ro_leave : rloop s = RLeave → mTerminate (mon (remote s)) = true;
  ro_logged : logged (watcherMux (mon (remote s))) (omap assignment_of (datagrams s))
}.

Lemma rstep_ok s a s' : remote_ok s → rstep iter s a = Some s' → remote_ok s'.
Proof using Hiter.
  intros [Hm Hle Hl] Hs. unfold rstep in Hs. destruct (mcrashed (remote s)) eqn:Hcr; [done|].
  destruct a; mstep_cases Hs; simpl in *; try (split; simpl; rewrite ?Heqr; done).
  all: try (match goal with H : call_step _ _ = Some _ |- _ => destruct (call_step_ok _ _ _ _ Hm H) as (H1 & H2 & H3) end;
            split; simpl; auto; done).
  - split; simpl; destruct (mTerminate _) eqn:Et; rewrite ?Et; done.
  - split; simpl; destruct (mTerminate _) eqn:Et; rewrite ?Et; done.
  - rewrite recv_step_data in Heqg. rewrite <-(app_nil_r (omap assignment_of (datagrams s))) in Hl.
    destruct (assignment_of data) as [x|] eqn:Ea; [|injection Heqg as <-; split; simpl; rewrite ?omap_app, ?with_mon_same; simpl; rewrite ?Ea; done].
    destruct (dispatch_managed iter Hiter pick_done reads _ x Hm) as (m & Hd & H1 & H2 & _).
    rewrite Hd in Heqg. injection Heqg as <-. split; simpl; [done..|]. rewrite app_nil_r in Hl.
    rewrite omap_app. simpl. rewrite Ea. by apply H2.
  - split; simpl; [by apply managed_crash|done..].
  - destruct (terminate_managed iter Hiter _ Hm) as (m & Hd & H1 & H2 & H3).
    match goal with H : managed_go _ _ = Some _ |- _ => rewrite Hd in H; injection H as <- end. simpl. rewrite Hcr.
    split; simpl; [done..|auto].
Qed.
Lemma start_remote_ok mux :
  mux_ready mux → doneClosed mux = false → logged mux [] → remote_ok (start_remote (new_monitor mux)).
Proof. intros Hm Hd Hl. split; simpl; try done. by apply start_managed_ok. Qed.

Lemma polite_rstep_ok s a s' : remote_ok s → polite_rstep iter s a = Some s' → remote_ok s' ∧ mcrashed (remote s') = false.
Proof using Hiter.
  intros Hok Hs. assert (Hh : rstep iter s a = Some s').
  { destruct a; simpl in Hs; [|done..]. by destruct (polite_call _ c). }
  split; [by eapply rstep_ok|]. destruct Hok as [Hm Hle _]. unfold rstep in Hh. destruct (mcrashed (remote s)) eqn:Hcr; [done|].
  destruct a; simpl in Hs; mstep_cases Hh; try done; simpl in *.
  - destruct (polite_call (remote s) c) eqn:Hp; [|done]. eapply polite_call_alive; [exact Hm|exact Hp|done].
  - exfalso. rewrite recv_step_data in Heqg. destruct (assignment_of data) as [x|]; [|done].
    destruct (dispatch_managed iter Hiter pick_done reads _ x Hm) as (m & Hd & _). by rewrite Hd in Heqg.
  - destruct (terminate_managed iter Hiter _ Hm) as (m & Hd & _).
    match goal with H : managed_go _ _ = Some _ |- _ => rewrite Hd in H; injection H as <- end. done.
Qed.

(** The steps of the loop's goroutine and of its socket. *)
Definition remote_loop_step s (a : ract) : option rstate := match a with RCall _ => None | _ => rstep iter s a end.
Definition remote_down s : Prop :=
  rloop s = REnded ∧ mDone (mon (remote s)) = true ∧ doneClosed (watcherMux (mon (remote s))) = true.
Definition remote_measure s : nat :=
  match rloop s with RRead => 4 | RHave _ => 3 | RPoll => 2 | RLeave => 1 | REnded => 0 end.

Lemma remote_inevitable s : remote_ok s → mcrashed (remote s) = false → mTerminate (mon (remote s)) = true →
  inevitable remote_loop_step remote_down s.
Proof using Hiter.
  intros Hok Hcr Ht.
  apply (inevitable_measure _ (λ s, remote_ok s ∧ mcrashed (remote s) = false ∧ mTerminate (mon (remote s)) = true) _ remote_measure); [done| |].
  - clear s Hok Hcr Ht. intros s ([Hm _ _] & Hcr & Ht). unfold remote_loop_step, rstep. destruct (rloop s) as [| |d| |] eqn:El; simpl in Hm.
    + right. exists RSelect. rewrite Hcr. by eexists.
    + right. exists RTimeout. rewrite Hcr. by eexists.
    + right. exists (RHandle true true). rewrite Hcr, recv_step_data. destruct (assignment_of d) as [x|]; [|by eexists].
      destruct (dispatch_managed iter Hiter true true _ x Hm) as (m & Hd & _). rewrite Hd. by eexists.
    + right. exists RTerminate. rewrite Hcr. destruct (terminate_managed iter Hiter _ Hm) as (m & Hd & _). rewrite Hd. by eexists.
    + left. split; [done|]. by apply (mo_ended _ _ Hm).
  - clear s Hok Hcr Ht. intros s a s' (Hok & Hcr & Ht) Hs.
    assert (Hs' : rstep iter s a = Some s') by by destruct a. assert (Hok' := rstep_ok _ _ _ Hok Hs').
    destruct Hok as [Hm _ _]. unfold remote_measure. unfold rstep in Hs'. rewrite Hcr in Hs'.
    destruct a; try done; mstep_cases Hs'; rewrite ?Ht in Hok'; simpl; rewrite ?Ht; try (split_and!; done || lia).
    + rewrite recv_step_data in Heqg. destruct (assignment_of data) as [x|]; [|injection Heqg as <-; simpl; split_and!; done || lia].
      unfold monitor_dispatch in Heqg. destruct (DispatchFuncWithTimeout _ _ _ _ _) as [m| | |]; try done. injection Heqg as <-.
      simpl. split_and!; done || lia.
    + exfalso. rewrite recv_step_data in Heqg. destruct (assignment_of data) as [x|]; [|done].
      destruct (dispatch_managed iter Hiter pick_done reads _ x Hm) as (m & Hd & _). by rewrite Hd in Heqg.
    + destruct (terminate_managed iter Hiter _ Hm) as (m & Hd & _ & _ & H3).
      match goal with H : managed_go _ _ = Some _ |- _ => rewrite Hd in H; injection H as <- end. simpl in *. rewrite Hcr in *.
      rewrite H3. split_and!; done || lia.
Qed.
End remote_laws.

(** * Properties *)

(** The health monitor under every schedule of its loop, of its subscribers
    and of [Run] and [Close]. Every tick starts a round that probes each
    configured backend exactly once, in some order; a round ends before the
    next begins; and what a subscriber receives is an ordered selection of the
    states probed. *)
Theorem health_rounds iter backends mux acts s :
  (∀ X, iter X ≡ₚ elements X) → mux_ready mux → doneClosed mux = false → logged mux [] → Forall fair_hact acts →
  run_acts (hstep iter backends) (start_health (new_monitor mux)) acts = Some s →
  (probed s).*1 ++ (to_probe (hloop s)).*1 = concat (rounds s) ∧
  Forall (λ r, r ≡ₚ (map_to_list backends).*1) (rounds s) ∧
  ∀ id w, heap (watcherMux (mon (health s))) !! id = Some w → hist w `sublist_of` (status_entry <$> probed s).
Proof.
  intros Hiter Hm Hd Hl Ha Hr.
  assert (Hok : health_ok backends s).
  { revert Hr. apply (run_acts_inv_in _ _ fair_hact); [|done|by apply start_health_ok]. intros s1 a s2 H1 H2. by apply hstep_ok. }
  destruct Hok as [_ H1 H2 _ H3]. split_and!; done.
Qed.

(** C21: The receiver of remote assignments under every schedule of its loop, of
    its socket, of its subscribers and of [Run] and [Close]: a subscriber
    receives an ordered selection of the assignments its datagrams decode to,
    and nothing else. *)
Theorem remote_stream `{!UuidText} iter mux acts s :
  (∀ X, iter X ≡ₚ elements X) → mux_ready mux → doneClosed mux = false → logged mux [] →
  run_acts (rstep iter) (start_remote (new_monitor mux)) acts = Some s →
  ∀ id w, heap (watcherMux (mon (remote s))) !! id = Some w → hist w `sublist_of` omap assignment_of (datagrams s).
Proof.
  intros Hiter Hm Hd Hl Hr.
  assert (Hok : remote_ok s).
  { revert Hr. apply run_acts_inv; [|by apply start_remote_ok]. intros s1 a s2. by apply rstep_ok. }
  apply Hok.
Qed.


(** Two backends, one of them probed after [Close]. *)
Definition sample_spec : BackendSpec := {| IP := []; Port := 1; MacAddr := []; SpecState := StateAvailable |}.
Definition sample_backends : gmap uuid BackendSpec := {[ replicate 16 1 := sample_spec; replicate 16 2 := sample_spec ]}.
Definition health_acts : list hact :=
  [HCall CWatch; HTick map_to_list; HProbe no_dial true false; HCall (CRun None); HCall CClose;
   HProbe {| dial_ok := true; deadline_ok := true; write_ok := true; reply := Some [0] |} true true; HCall (CReceive 0)].
Definition remote_acts : list ract :=
  [RCall CWatch; RSelect; RDatagram (Marshal (@assignment_codec hex_uuid) {| BackendId := replicate 16 1; SessionId := replicate 16 2 |});
   RHandle true false; RSelect; RDatagram [1]; RHandle true true; RCall CClose; RCall (CReceive 0)].
Definition health_start : hstate := start_health (new_monitor (NewWatcherMux 4)).
Definition remote_start : rstate := start_remote (new_monitor (NewWatcherMux 4)).
Lemma sample_health : ∃ s, run_acts (polite_hstep elements sample_backends) health_start health_acts = Some s ∧
  run_acts (hstep elements sample_backends) health_start health_acts = Some s ∧ mTerminate (mon (health s)) = true.
Proof. eexists. split_and!; vm_compute; reflexivity. Qed.
Lemma sample_remote : ∃ s, run_acts (@polite_rstep hex_uuid elements) remote_start remote_acts = Some s ∧
  run_acts (@rstep hex_uuid elements) remote_start remote_acts = Some s ∧ mTerminate (mon (remote s)) = true.
Proof. eexists. split_and!; vm_compute; reflexivity. Qed.
Lemma health_acts_fair : Forall fair_hact health_acts.
Proof. repeat (apply Forall_cons_2; [first [exact I|intros m; reflexivity]|]). apply Forall_nil_2. Qed.

Lemma health_rounds_witness : ∃ s,
  run_acts (hstep elements sample_backends) health_start health_acts = Some s ∧
  (probed s).*1 ++ (to_probe (hloop s)).*1 = concat (rounds s) ∧
  Forall (λ r, r ≡ₚ (map_to_list sample_backends).*1) (rounds s) ∧
  ∀ id w, heap (watcherMux (mon (health s))) !! id = Some w → hist w `sublist_of` (status_entry <$> probed s).
Proof.
  destruct sample_health as (s & _ & Hr & _). exists s. split; [exact Hr|].
  apply (health_rounds elements sample_backends (NewWatcherMux 4) health_acts s);
    [reflexivity|apply new_mux_ready; lia|reflexivity|apply logged_new|exact health_acts_fair|exact Hr].
Defined.
Lemma remote_stream_witness : ∃ s, run_acts (@rstep hex_uuid elements) remote_start remote_acts = Some s ∧
  ∀ id w, heap (watcherMux (mon (remote s))) !! id = Some w → hist w `sublist_of` omap (@assignment_of hex_uuid) (datagrams s).
Proof.
  destruct sample_remote as (s & _ & Hr & _). exists s. split; [exact Hr|].
  apply (@remote_stream hex_uuid elements (NewWatcherMux 4) remote_acts s);
    [reflexivity|apply new_mux_ready; lia|reflexivity|apply logged_new|exact Hr].
Defined.
