(* ===== verification/Controller.v ===== *)
(** * Controller: internal/controller/controller.go

    The controller keeps the configured backends, their health and the
    session map, recomputes the lookup table when a backend's state changes
    and hands the three objects to the data-structure manager, which it sees
    through the interface [ObjectsManager]. *)
From S2P Require Import Prelude Types Rlt RltReverse GoNet WatcherMux Packet BpfManager Monitor.

Definition ErrCreatingController := Sentinel "creating controller".
Definition ErrInvalidConfig := Sentinel "invalid config".

(** ** Helpers *)

(** [buildBackends]; the errors carry [ErrInvalidConfig] and the cause. *)
Definition buildBackend `{!UuidSHA1} (e : endian) (bc : BackendConfig) : go (Backend + error) :=
  match ParseIP (cfgIP bc) with
  | None => Done (inr (Wraps [ErrInvalidConfig]))
  | Some ip =>
      match ParseMAC (cfgMAC bc) with
      | None => Done (inr (Wraps [ErrInvalidConfig; Foreign 0]))
      | Some mac =>
          b ← NewBackend e (NewSHA1 NameSpaceURL (host_port (cfgIP bc) (cfgPort bc)))
                {| IP := ip; Port := cfgPort bc; MacAddr := mac; SpecState := StateAvailable |}
                {| StatusState := StateAvailable |};
          Done (inl b)
      end
  end.
Fixpoint buildBackends_loop `{!UuidSHA1} (e : endian) (bcs : list BackendConfig) (out : list Backend)
    : go (list Backend + error) :=
  match bcs with
  | [] => Done (inl out)
  | bc :: bcs =>
      if negb (Enabled bc) then buildBackends_loop e bcs out
      else
        r ← buildBackend e bc;
        match r with
        | inr err => Done (inr err)
        | inl b => buildBackends_loop e bcs (out ++ [b])
        end
  end.
Definition buildBackends `{!UuidSHA1} (e : endian) (config : Config) : go (list Backend + error) :=
  buildBackends_loop e (Backends config) [].

Definition lookupTablePrimes : list Z := [7; 13; 23; 47; 97; 197; 397; 797].

Definition computeLookupTableSize (n : Z) : Z :=
  let target := u32 (2 * n) in
  match list_find (λ p, target <= p) lookupTablePrimes with
  | Some (_, p) => p
  | None => List.last lookupTablePrimes 0
  end.

Definition is_available (b : Backend) : bool :=
  bool_decide (SpecState (Spec b) = StateAvailable) && bool_decide (StatusState (Status b) = StateAvailable).

Definition filterAvailable (backends : list Backend) : list Backend := filter (λ b, is_available b) backends.

(** ** The controller *)

Section controller.
Context {M : Type} `{!ObjectsManager M} (iter : gset Z → list Z).

Record Controller := {
  backends : list Backend;
  lookupTableSize : Z;
  sessionMap : gmap uuid Z;
  bpfMgr : M
}.

(** [newIndexByID]: a later backend with the same identifier wins. *)
Definition newIndexByID (available : list Backend) : gmap uuid Z :=
  foldl (λ acc p, <[Id p.2 := u32 p.1]> acc) ∅ (zip (Z.of_nat <$> seq 0 (length available)) available).

(** The new index of one session; the loop over the session map treats each
    session on its own. *)
Definition remap (bs : list Backend) (index : gmap uuid Z) (oldIdx : Z) : option Z :=
  if decide (oldIdx >= u32 (Z.of_nat (length bs))) then None
  else oldBackend ← bs !! Z.to_nat oldIdx; index !! Id oldBackend.

(** [recomputeAndApply]; the session map is replaced before [SetObjects]. *)
Definition recomputeAndApply (c : Controller) : go (Controller * option error) :=
  let available := filterAvailable (backends c) in
  if decide (length available = 0%nat) then Done (c, None)
  else
    lookupTable ← ReverseCoordinatesLookupTable iter available (lookupTableSize c);
    let remapped := omap (remap (backends c) (newIndexByID available)) (sessionMap c) in
    '(mgr, err) ← set_objects (bpfMgr c) available lookupTable remapped;
    Done ({| backends := backends c; lookupTableSize := lookupTableSize c; sessionMap := remapped;
             bpfMgr := mgr |}, err).

(** One assignment read by [assignmentLoop]: the first backend with its
    identifier; an unknown identifier is ignored. *)
Definition assignment_step (c : Controller) (a : Assignment) : Controller :=
  match list_find (λ b, Id b = BackendId a) (backends c) with
  | Some (i, _) =>
      {| backends := backends c; lookupTableSize := lookupTableSize c;
         sessionMap := <[SessionId a := u32 (Z.of_nat i)]> (sessionMap c); bpfMgr := bpfMgr c |}
  | None => c
  end.

Definition with_status (b : Backend) (s : State) : Backend :=
  {| Id := Id b; Spec := Spec b; Status := {| StatusState := s |}; coordinates := coordinates b |}.

(** One status entry read by [healthLoop]: the first backend with its
    identifier is updated, and the objects are recomputed when its state
    changed; an error of the recomputation is only logged. *)
Definition health_step (c : Controller) (entry : BackendStatusEntry) : go Controller :=
  match list_find (λ b, Id b = EntryBackendId entry) (backends c) with
  | None => Done c
  | Some (i, b) =>
      if decide (StatusState (Status b) = EntryState entry) then Done c
      else
        '(c, _) ← recomputeAndApply
          {| backends := <[i := with_status b (EntryState entry)]> (backends c);
             lookupTableSize := lookupTableSize c; sessionMap := sessionMap c; bpfMgr := bpfMgr c |};
        Done c
  end.

(** Both loops hold the controller's mutex around a whole step, so a run is a
    sequence of steps. *)
Inductive input := InAssignment (a : Assignment) | InStatus (entry : BackendStatusEntry).
Definition controller_step (c : Controller) (i : input) : go Controller :=
  match i with
  | InAssignment a => Done (assignment_step c a)
  | InStatus entry => health_step c entry
  end.
Definition controller_run (c : Controller) (ins : list input) : go Controller := foldM controller_step ins c.

(** [New] and the start of [Run]: the wired controller with its first
    recomputation; the session map is empty. *)
Definition new_controller `{!UuidSHA1} (e : endian) (config : Config) (mgr : M) : go (Controller + error) :=
  bs ← buildBackends e config;
  match bs with
  | inr err => Done (inr (Wraps [ErrCreatingController; err]))
  | inl bs => Done (inl {| backends := bs; lookupTableSize := computeLookupTableSize (Z.of_nat (length bs));
                           sessionMap := ∅; bpfMgr := mgr |})
  end.
End controller.
Arguments Controller : clear implicits.

(** * Lemmas *)

(** ** Availability and indices *)

Lemma elem_of_filterAvailable b bs : b ∈ filterAvailable bs ↔ is_available b = true ∧ b ∈ bs.
Proof. unfold filterAvailable. by rewrite list_elem_of_filter, Is_true_true. Qed.
Lemma filterAvailable_Forall (P : Backend → Prop) bs : Forall P bs → Forall P (filterAvailable bs).
Proof. intros H. apply Forall_forall. intros b [_ Hb]%elem_of_filterAvailable. by eapply Forall_forall. Qed.
Lemma filterAvailable_length bs : (length (filterAvailable bs) <= length bs)%nat.
Proof. apply length_filter. Qed.
Lemma filterAvailable_ids bs : NoDup (Id <$> bs) → NoDup (Id <$> filterAvailable bs).
Proof.
  intros H. eapply sublist_NoDup; [exact H|]. apply fmap_sublist, sublist_filter.
Qed.

Lemma newIndexByID_snoc l b : newIndexByID (l ++ [b]) = <[Id b := u32 (Z.of_nat (length l))]> (newIndexByID l).
Proof.
  unfold newIndexByID. rewrite length_app, seq_app, fmap_app, zip_with_app by by rewrite length_fmap, length_seq.
  by rewrite foldl_app.
Qed.
Lemma newIndexByID_spec l id i :
  NoDup (Id <$> l) → Z.of_nat (length l) < 2 ^ 32 →
  newIndexByID l !! id = Some i ↔ 0 <= i ∧ ∃ b, l !! Z.to_nat i = Some b ∧ Id b = id.
Proof.
  induction l as [|b l IH] using rev_ind; intros Hnd Hl.
  { split; [done|]. by intros (_ & b & ? & _). }
  rewrite length_app in Hl. simpl in Hl.
  rewrite fmap_app, NoDup_app in Hnd. destruct Hnd as (Hnd & Hdis & _).
  rewrite newIndexByID_snoc, u32_small by (unfold is_u32; lia).
  rewrite lookup_insert_Some, IH by (done || lia). split.
  - intros [[<- <-]|[Hne (Hi & b' & Hb' & <-)]].
    + split; [lia|]. exists b. by rewrite Nat2Z.id, list_lookup_middle.
    + split; [done|]. exists b'. split; [|done]. by apply lookup_app_l_Some.
  - intros (Hi & b' & [Hb'|[Hge Hb']]%lookup_app_Some & <-).
    + right. split; [|eauto]. intros Heq. apply (Hdis (Id b')); [|rewrite <-Heq; set_solver].
      apply list_elem_of_fmap. eauto using list_elem_of_lookup_2.
    + apply list_lookup_singleton_Some in Hb' as [Hz <-]. left. split; [done|lia].
Qed.

(** ** One recomputation *)

Section recompute.
Context {M : Type} `{!ObjectsManager M} (e : endian) `{!ObjectsManagerLaws e M}
        (iter : gset Z → list Z) (Hiter : map_iteration iter).
Implicit Types (c : Controller M).

(** What [New] establishes and no step changes. *)
Record ctl_ok c : Prop := {
  co_ids : NoDup (Id <$> backends c);
  co_wf : Forall wf_backend (backends c);
  co_inst : Forall installable (backends c);
  co_len : Z.of_nat (length (backends c)) < 2 ^ 32;
  co_size : 0 < lookupTableSize c < 2 ^ 32;
  co_mgr : accepting (bpfMgr c);
  co_idx : map_Forall (λ _ i, 0 <= i) (sessionMap c)
}.

(** Every index the BPF program can read is an index of the backend list. *)
Definition coherent (o : eventObjects) : Prop :=
  Forall (λ v, 0 <= v < Z.of_nat (length (BackendList o))) (LookupTable o) ∧
  map_Forall (λ _ v, 0 <= v < Z.of_nat (length (BackendList o))) (SessionMap o).

(** The backend a session map entry designates in a backend list. *)
Definition backend_of (bs : list Backend) (sm : gmap uuid Z) (sid : uuid) : option Backend :=
  i ← sm !! sid; bs !! Z.to_nat i.

(** The map installed for the sessions [sm] of the backends [bs]. *)
Definition remap_all (bs : list Backend) (sm : gmap uuid Z) : gmap uuid Z :=
  omap (remap bs (newIndexByID (filterAvailable bs))) sm.

Lemma remap_all_lookup c sid j :
  ctl_ok c →
  remap_all (backends c) (sessionMap c) !! sid = Some j ↔
    0 <= j ∧ ∃ b b', backend_of (backends c) (sessionMap c) sid = Some b ∧
      filterAvailable (backends c) !! Z.to_nat j = Some b' ∧ Id b' = Id b.
Proof.
  intros Hc. pose proof (filterAvailable_length (backends c)) as Hle. pose proof (co_len _ Hc).
  unfold remap_all, backend_of. rewrite lookup_omap.
  destruct (sessionMap c !! sid) as [i|] eqn:Hs; simpl.
  2: { split; [done|]. by intros (_ & ? & ? & ? & _). }
  pose proof (co_idx _ Hc sid i Hs) as Hi. simpl in Hi.
  unfold remap. rewrite u32_small by (unfold is_u32; lia). case_decide as Hr.
  - split; [done|]. intros (_ & b & b' & Hb & _).
    apply lookup_lt_Some in Hb. lia.
  - destruct (backends c !! Z.to_nat i) as [b|] eqn:Hb; simpl.
    2: { split; [done|]. by intros (_ & ? & ? & ? & _). }
    rewrite newIndexByID_spec; [|by apply filterAvailable_ids, co_ids|lia].
    naive_solver.
Qed.

(** Identifiers are distinct, so the backend found again is the same one. *)
Lemma id_unique c b b' :
  ctl_ok c → b ∈ backends c → b' ∈ backends c → Id b' = Id b → b' = b.
Proof.
  intros Hc Hb Hb' Hid. apply list_elem_of_lookup in Hb as [i Hi], Hb' as [j Hj].
  assert (i = j) as ->.
  { eapply (NoDup_lookup (Id <$> backends c)); [apply co_ids, Hc| |]; rewrite list_lookup_fmap.
    - by rewrite Hi.
    - by rewrite Hj, <-Hid. }
  congruence.
Qed.

Lemma recompute_run c :
  ctl_ok c → filterAvailable (backends c) ≠ [] →
  returns (recomputeAndApply iter c) (λ '(c', err),
    backends c' = backends c ∧ lookupTableSize c' = lookupTableSize c ∧ accepting (bpfMgr c') ∧
    sessionMap c' = remap_all (backends c) (sessionMap c) ∧
    match err with
    | Some _ => installed (bpfMgr c') = installed (bpfMgr c)
    | None => ∃ out t, transformBackendList e (filterAvailable (backends c)) = Done out ∧
        ReverseCoordinatesLookupTable iter (filterAvailable (backends c)) (lookupTableSize c) = Done t ∧
        installed (bpfMgr c') = {| BackendList := out; LookupTable := t; SessionMap := sessionMap c' |}
    end).
Proof using ObjectsManagerLaws0 Hiter.
  intros Hc Hne. pose proof (filterAvailable_length (backends c)). pose proof (co_len _ Hc).
  unfold recomputeAndApply. rewrite decide_False by by intros ?%nil_length_inv.
  assert (0 < length (filterAvailable (backends c)))%nat.
  { destruct (filterAvailable (backends c)); [done|simpl; lia]. }
  destruct (reverse_table_ok iter (filterAvailable (backends c)) (lookupTableSize c)) as (t & Ht & _);
    [done|by apply filterAvailable_Forall, co_wf|lia|by apply co_size|].
  rewrite Ht. cbn [mbind go_bind].
  destruct (transformBackendList_returns e (filterAvailable (backends c))) as (out & Hout & _);
    [by apply filterAvailable_Forall, co_inst|].
  fold (remap_all (backends c) (sessionMap c)).
  destruct (set_objects_spec _ _ t (remap_all (backends c) (sessionMap c)) out (co_mgr _ Hc) Hout)
    as ([mgr err] & -> & Hacc & Hinst).
  cbn [mbind go_bind]. apply returns_done. simpl. split_and!; try done.
  destruct err; [done|]. eauto.
Qed.

Lemma recompute_coherent c c' :
  ctl_ok c → filterAvailable (backends c) ≠ [] → recomputeAndApply iter c = Done (c', None) →
  coherent (installed (bpfMgr c')).
Proof using ObjectsManagerLaws0 Hiter.
  intros Hc Hne Hr. pose proof (co_len _ Hc). pose proof (filterAvailable_length (backends c)).
  destruct (recompute_run c Hc Hne) as ([c1 e1] & Heq & _ & _ & _ & Hsm & Hinst).
  rewrite Hr in Heq. injection Heq as <- <-. destruct Hinst as (out & t & Hout & Ht & ->).
  destruct (transformBackendList_returns e (filterAvailable (backends c))) as (out' & Hout' & Hlen & _);
    [by apply filterAvailable_Forall, co_inst|].
  assert (out' = out) as -> by congruence.
  destruct (reverse_table_ok iter (filterAvailable (backends c)) (lookupTableSize c)) as (t' & Ht' & _ & Hf);
    [done|by apply filterAvailable_Forall, co_wf| |by apply co_size|].
  { destruct (filterAvailable (backends c)); [done|simpl in *; lia]. }
  assert (t' = t) as -> by congruence.
  split; simpl; rewrite Hlen; [done|].
  intros sid j Hj. rewrite Hsm in Hj. apply remap_all_lookup in Hj as (Hj0 & b & b' & _ & Hb' & _); [|done].
  apply lookup_lt_Some in Hb'. lia.
Qed.
End recompute.

(** ** Runs *)

Section runs.
Context {M : Type} `{!ObjectsManager M} (e : endian) `{!ObjectsManagerLaws e M}
        (iter : gset Z → list Z) (Hiter : map_iteration iter).
Implicit Types (c : Controller M).

Lemma ctl_ok_sessions c sm mgr :
  ctl_ok c → map_Forall (λ _ i, 0 <= i) sm → accepting mgr →
  ctl_ok {| backends := backends c; lookupTableSize := lookupTableSize c; sessionMap := sm; bpfMgr := mgr |}.
Proof. by intros []. Qed.
Lemma assignment_step_ok c a : ctl_ok c → ctl_ok (assignment_step c a).
Proof.
  intros Hc. unfold assignment_step. destruct (list_find _ _) as [[i b]|]; [|done].
  apply ctl_ok_sessions; [done| |apply Hc]. apply map_Forall_insert_2; [|apply Hc].
  pose proof (u32_range (Z.of_nat i)) as []. lia.
Qed.
Lemma with_status_ok c i b s :
  ctl_ok c → backends c !! i = Some b →
  ctl_ok {| backends := <[i := with_status b s]> (backends c); lookupTableSize := lookupTableSize c;
            sessionMap := sessionMap c; bpfMgr := bpfMgr c |}.
Proof.
  intros [Hids Hwf Hin Hlen ? ? ?] Hb. split; simpl; try done.
  - rewrite list_fmap_insert, list_insert_id; [done|]. by rewrite list_lookup_fmap, Hb.
  - apply Forall_insert; [done|]. apply (Forall_lookup_1 _ _ _ _ Hwf Hb).
  - apply Forall_insert; [done|]. apply (Forall_lookup_1 _ _ _ _ Hin Hb).
  - by rewrite length_insert.
Qed.

Lemma remap_all_nonneg c : ctl_ok c → map_Forall (λ _ i, 0 <= i) (remap_all (backends c) (sessionMap c)).
Proof. intros Hc sid j Hj. by apply remap_all_lookup in Hj as [? _]. Qed.

(** A recomputation keeps the invariant and the coherence of what is installed. *)
Lemma recompute_ctl_ok c c' err : ctl_ok c → recomputeAndApply iter c = Done (c', err) → ctl_ok c'.
Proof using ObjectsManagerLaws0 Hiter.
  intros Hc Hr. destruct (decide (filterAvailable (backends c) = [])) as [He|Hne].
  { unfold recomputeAndApply in Hr. rewrite He, decide_True in Hr by done. by injection Hr as <- _. }
  destruct (recompute_run e iter Hiter c Hc Hne) as ([c1 e1] & Heq & Hb & Hsz & Hacc & Hsm & _).
  rewrite Hr in Heq. injection Heq as <- <-.
  pose proof (remap_all_nonneg c Hc) as Hnn. rewrite <-Hsm in Hnn. destruct c', Hc; simpl in *. subst. by split.
Qed.
Lemma recompute_ok c :
  ctl_ok c → coherent (installed (bpfMgr c)) →
  returns (recomputeAndApply iter c) (λ r, ctl_ok r.1 ∧ coherent (installed (bpfMgr r.1))).
Proof using ObjectsManagerLaws0 Hiter.
  intros Hc Hco. destruct (decide (filterAvailable (backends c) = [])) as [He|Hne].
  - unfold recomputeAndApply. rewrite He, decide_True by done. by apply returns_done.
  - destruct (recompute_run e iter Hiter c Hc Hne) as ([c' err] & Hr & Hb & Hsz & Hacc & Hsm & Hinst).
    exists (c', err). split; [done|]. simpl. split.
    + by eapply recompute_ctl_ok.
    + destruct err; [by rewrite Hinst|]. by eapply (recompute_coherent e).
Qed.

Lemma health_step_ok c entry :
  ctl_ok c → coherent (installed (bpfMgr c)) →
  returns (health_step iter c entry) (λ c', ctl_ok c' ∧ coherent (installed (bpfMgr c'))).
Proof using ObjectsManagerLaws0 Hiter.
  intros Hc Hco. unfold health_step.
  destruct (list_find _ _) as [[i b]|] eqn:Hf; [|by apply returns_done].
  apply list_find_Some in Hf as (Hb & _ & _).
  case_decide; [by apply returns_done|].
  eapply returns_bind; [apply recompute_ok; [by apply with_status_ok|done]|].
  intros [c' err] Hok. by apply returns_done.
Qed.

Lemma controller_run_ok c ins :
  ctl_ok c → coherent (installed (bpfMgr c)) →
  returns (controller_run iter c ins) (λ c', ctl_ok c' ∧ coherent (installed (bpfMgr c'))).
Proof using ObjectsManagerLaws0 Hiter.
  intros Hc Hco. apply (returns_foldM _ (λ c', ctl_ok c' ∧ coherent (installed (bpfMgr c')))); [done|].
  intros c' [a|entry] _ [Hc' Hco']; simpl; [|by apply health_step_ok].
  apply returns_done. split; [by apply assignment_step_ok|].
  unfold assignment_step. by destruct (list_find _ _) as [[]|].
Qed.
End runs.

(** ** What a recomputation installs *)

Section installs.
Context {M : Type} `{!ObjectsManager M}.
Implicit Types (c : Controller M).

Lemma backend_of_remap c sid b :
  ctl_ok c → filterAvailable (backends c) ≠ [] →
  backend_of (filterAvailable (backends c)) (remap_all (backends c) (sessionMap c)) sid = Some b ↔
    backend_of (backends c) (sessionMap c) sid = Some b ∧ is_available b = true.
Proof.
  intros Hc Hne. unfold backend_of at 1. rewrite bind_Some. split.
  - intros (j & Hj & Hb). apply remap_all_lookup in Hj as (_ & b1 & b2 & H1 & H2 & Hid); [|done].
    assert (b2 = b) as -> by congruence.
    pose proof (list_elem_of_lookup_2 _ _ _ Hb) as [Ha Hin]%elem_of_filterAvailable.
    assert (Hb1 : b1 ∈ backends c).
    { unfold backend_of in H1. apply bind_Some in H1 as (? & _ & ?). by eapply list_elem_of_lookup_2. }
    pose proof (id_unique c b1 b Hc Hb1 Hin Hid) as ->. done.
  - intros [Hb Ha].
    assert (Hin : b ∈ filterAvailable (backends c)).
    { apply elem_of_filterAvailable. split; [done|]. unfold backend_of in Hb.
      apply bind_Some in Hb as (? & _ & ?). by eapply list_elem_of_lookup_2. }
    apply list_elem_of_lookup in Hin as [j Hj]. exists (Z.of_nat j). rewrite Nat2Z.id. split; [|done].
    apply remap_all_lookup; [done|]. split; [lia|]. exists b, b. by rewrite Nat2Z.id.
Qed.
Lemma transformBackend_id e b s : transformBackend e b = Done s → bId s = Id b.
Proof.
  unfold transformBackend. destruct (NetIPv4ToUint32 e (IP (Spec b))); try done. cbn [mbind go_bind].
  destruct (to_array6 (MacAddr (Spec b))); try done. cbn [mbind go_bind]. by intros [= <-].
Qed.
Lemma transform_ids e l out : transformBackendList e l = Done out → bId <$> out = Id <$> l.
Proof.
  unfold transformBackendList. revert out. induction l as [|b l IH]; intros out; [by injection 1 as <-|].
  rewrite mapM_go_cons. destruct (transformBackend e b) as [x| | |] eqn:Eb; try done. cbn [mbind go_bind].
  destruct (mapM (transformBackend e) l) as [k| | |] eqn:E; try done. cbn [mbind go_bind].
  intros [= <-]. simpl. f_equal; [by eapply transformBackend_id|]. by apply IH.
Qed.
Lemma table_length iter c t :
  map_iteration iter → ctl_ok c → filterAvailable (backends c) ≠ [] →
  ReverseCoordinatesLookupTable iter (filterAvailable (backends c)) (lookupTableSize c) = Done t →
  Z.of_nat (length t) = lookupTableSize c.
Proof.
  intros Hiter Hc Hne Ht. pose proof (co_len _ Hc). pose proof (filterAvailable_length (backends c)).
  pose proof (co_size _ Hc).
  destruct (reverse_table_ok iter (filterAvailable (backends c)) (lookupTableSize c)) as (t' & Ht' & Hl & _);
    [done|by apply filterAvailable_Forall, co_wf| |done|].
  { destruct (filterAvailable (backends c)); [done|simpl in *; lia]. }
  assert (t' = t) as -> by congruence. rewrite Hl. lia.
Qed.
End installs.

(** ** buildBackends *)

Section build.
Context `{!UuidSHA1} (e : endian).

(** What [buildBackends] makes of an enabled backend. *)
Definition built (bc : BackendConfig) (b : Backend) : Prop :=
  ParseIP (cfgIP bc) = Some (IP (Spec b)) ∧ ParseMAC (cfgMAC bc) = Some (MacAddr (Spec b)) ∧
  Port (Spec b) = cfgPort bc ∧ is_available b = true ∧
  Id b = NewSHA1 NameSpaceURL (host_port (cfgIP bc) (cfgPort bc)) ∧ wf_backend b.
Definition parses (bc : BackendConfig) : Prop :=
  is_Some (ParseIP (cfgIP bc)) ∧ is_Some (ParseMAC (cfgMAC bc)).

Lemma buildBackend_run bc :
  returns (buildBackend e bc) (λ r,
    match r with
    | inl b => parses bc ∧ built bc b
    | inr err => ¬ parses bc ∧ errors_is err "invalid config" = true
    end).
Proof.
  unfold buildBackend, parses, built.
  destruct (ParseIP (cfgIP bc)) as [ip|]; [|apply returns_done; split; [|done]; by intros [[? ?] _]].
  destruct (ParseMAC (cfgMAC bc)) as [mac|]; [|apply returns_done; split; [|done]; by intros [_ [? ?]]].
  eapply returns_bind; [apply NewBackend_coordinates, NewSHA1_uuid|].
  intros b (Hid & Hs & Hst & Hl & Hf). apply returns_done. split; [split; by eexists|].
  unfold is_available. rewrite Hs, Hst. by split_and!.
Qed.

Lemma buildBackends_run bcs out :
  returns (buildBackends_loop e bcs out) (λ r,
    match r with
    | inl bs => Forall (λ bc, Enabled bc = true → parses bc) bcs ∧
        ∃ bs', bs = out ++ bs' ∧ Forall2 built (filter (λ bc, Enabled bc) bcs) bs'
    | inr err => ¬ Forall (λ bc, Enabled bc = true → parses bc) bcs ∧ errors_is err "invalid config" = true
    end).
Proof.
  revert out. induction bcs as [|bc bcs IH]; intros out; simpl.
  { apply returns_done. split; [done|]. exists []. by rewrite app_nil_r. }
  rewrite filter_cons. destruct (Enabled bc) eqn:He; simpl.
  - eapply returns_bind; [apply buildBackend_run|]. intros [b|err].
    + intros [Hp Hb]. eapply returns_mono; [apply IH|]. intros [bs|err].
      * intros (Hall & bs' & -> & Hf). split; [by constructor|].
        exists (b :: bs'). rewrite <-app_assoc. split; [done|by constructor].
      * intros [Hn Her]. split; [|done]. by intros [_ ?]%Forall_cons.
    + intros [Hp Her]. apply returns_done. split; [|done]. intros [Hp' _]%Forall_cons. by apply Hp, Hp'.
  - eapply returns_mono; [apply IH|]. intros [bs|err].
    + intros [Hall Hex]. split; [|done]. constructor; [by rewrite He|done].
    + intros [Hn Her]. split; [|done]. by intros [_ ?]%Forall_cons.
Qed.
End build.

(** ** A controller made from a configuration *)

(** What the controller needs of an enabled backend beyond [buildBackends]. *)
Definition ipv4 (bc : BackendConfig) : Prop := is_Some (ParseIP (cfgIP bc) ≫= To4).
Definition config_id `{!UuidSHA1} (bc : BackendConfig) : uuid :=
  NewSHA1 NameSpaceURL (host_port (cfgIP bc) (cfgPort bc)).

Lemma computeLookupTableSize_prime n : computeLookupTableSize n ∈ lookupTablePrimes.
Proof.
  unfold computeLookupTableSize. destruct (list_find _ _) as [[i p]|] eqn:Hf.
  - apply list_find_Some in Hf as (Hp & _). by eapply list_elem_of_lookup_2.
  - simpl. set_solver.
Qed.
Lemma lookupTablePrimes_range p : p ∈ lookupTablePrimes → 0 < p < 2 ^ 32.
Proof. unfold lookupTablePrimes. rewrite !elem_of_cons, elem_of_nil. lia. Qed.

Lemma built_list `{!UuidSHA1} bcs bs :
  Forall2 built bcs bs → Forall ipv4 bcs →
  Id <$> bs = config_id <$> bcs ∧ Forall wf_backend bs ∧ Forall installable bs.
Proof.
  induction 1 as [|bc b bcs bs (Hip & Hmac & _ & _ & Hid & Hwf) _ IH]; [done|].
  intros [[v4 H4] H6]%Forall_cons. destruct (IH H6) as (Hids & Hwfs & Hin). csimpl.
  split_and!; [by rewrite Hids, Hid|by constructor|]. constructor; [|done].
  rewrite Hip in H4. split; [by exists v4|].
  apply ParseMAC_length in Hmac. rewrite !elem_of_cons, elem_of_nil in Hmac. lia.
Qed.

Lemma new_controller_ok {M} `{!ObjectsManager M, !UuidSHA1} e config (mgr : M) c :
  new_controller e config mgr = Done (inl c) → accepting mgr →
  Forall ipv4 (filter (λ bc, Enabled bc) (Backends config)) →
  NoDup (config_id <$> filter (λ bc, Enabled bc) (Backends config)) →
  Z.of_nat (length (Backends config)) < 2 ^ 32 →
  ctl_ok c ∧ bpfMgr c = mgr.
Proof.
  intros Hnew Hacc Hip Hnd Hlen. unfold new_controller in Hnew.
  destruct (buildBackends_run e (Backends config) []) as (r & Hr & Hspec).
  unfold buildBackends in Hnew. rewrite Hr in Hnew. cbn [mbind go_bind] in Hnew.
  destruct r as [bs|err]; [|done]. injection Hnew as <-. split; [|done].
  destruct Hspec as (_ & bs' & -> & Hbuilt). simpl app in *.
  destruct (built_list _ _ Hbuilt Hip) as (Hids & Hwf & Hin).
  pose proof (Forall2_length _ _ _ Hbuilt) as Hl. pose proof (length_filter (λ bc, Enabled bc) (Backends config)).
  split; simpl; try done.
  - by rewrite Hids.
  - lia.
  - apply lookupTablePrimes_range, computeLookupTableSize_prime.
Qed.

(** ** Concrete controllers *)

Definition sample_backend (i : Z) : Backend := {|
  Id := replicate 16 i;
  Spec := {| IP := [10; 0; 0; i]; Port := 8080; MacAddr := [2; 0; 0; 0; 0; i]; SpecState := StateAvailable |};
  Status := {| StatusState := StateAvailable |}; coordinates := replicate 4 (i * 16843009) |}.
#[local] Instance sample_objects_manager : ObjectsManager (dsManager shared_kernel) :=
  @dsManager_manager _ shared_objects flaterrors_wraps LittleEndian.
#[local] Instance sample_objects_laws : ObjectsManagerLaws LittleEndian (dsManager shared_kernel) :=
  @dsManager_laws _ shared_objects _ flaterrors_wraps LittleEndian.
(** Three healthy backends and a session of the third one. *)
Definition sample_session : uuid := replicate 16 9.
Definition sample_controller : Controller (dsManager shared_kernel) :=
  {| backends := sample_backend <$> [0; 1; 2]; lookupTableSize := 7;
     sessionMap := {[ sample_session := 2 ]}; bpfMgr := example_manager |}.

Lemma sample_ok : ctl_ok sample_controller.
Proof.
  split; simpl.
  - repeat constructor; set_unfold; naive_solver.
  - repeat constructor; simpl; unfold is_u32; lia.
  - repeat constructor; simpl; (by eexists) || lia.
  - lia.
  - lia.
  - done.
  - apply map_Forall_singleton. lia.
Qed.
Lemma sample_coherent : coherent (installed (bpfMgr sample_controller)).
Proof. split; [by constructor|]. apply map_Forall_empty. Qed.

(** An illustrative name-based identifier. *)
Definition sample_sha1 : UuidSHA1.
Proof.
  refine {| NewSHA1 := λ ns data, (λ b, b `mod` 256) <$> take 16 (take 1 ns ++ reverse data ++ replicate 16 0);
            NameSpaceDNS := [16]; NameSpaceURL := [17] |}.
  intros ns data. split.
  - rewrite length_fmap, length_take, !length_app, length_replicate. lia.
  - apply Forall_fmap, Forall_forall. intros b _. simpl. apply Z.mod_pos_bound. lia.
Defined.

(** * Properties *)

Section properties.
Context {M : Type} `{!ObjectsManager M} (e : endian) `{!ObjectsManagerLaws e M} (iter : gset Z → list Z).
Implicit Types (c : Controller M).

(** No sequence of assignments and health changes makes the controller
    panic or leaves the data path incoherent: from a well-formed controller,
    every run returns, and after it every entry of the installed lookup table
    and of the installed session map is an index of the installed backend
    list. *)
Theorem controller_safe c (ins : list input) :
  map_iteration iter → ctl_ok c → coherent (installed (bpfMgr c)) →
  returns (controller_run iter c ins) (λ c', ctl_ok c' ∧ coherent (installed (bpfMgr c'))).
Proof. intros Hiter. by apply (controller_run_ok e). Qed.

(** C8: from configuration to data path. A controller [New] built from a
    configuration whose enabled backends have IPv4 addresses and distinct
    identifiers, over a manager that accepts writes and holds coherent objects,
    never panics, whatever assignments and health changes arrive, and leaves
    every index the BPF program can read within the installed backend list. *)
Theorem configured_controller_safe `{!UuidSHA1} (config : Config) (mgr : M) c (ins : list input) :
  map_iteration iter → new_controller e config mgr = Done (inl c) →
  accepting mgr → coherent (installed mgr) →
  Forall ipv4 (filter (λ bc, Enabled bc) (Backends config)) →
  NoDup (config_id <$> filter (λ bc, Enabled bc) (Backends config)) →
  Z.of_nat (length (Backends config)) < 2 ^ 32 →
  returns (controller_run iter c ins) (λ c', coherent (installed (bpfMgr c'))).
Proof.
  intros Hiter Hnew Hacc Hco Hip Hnd Hlen.
  destruct (new_controller_ok e config mgr c Hnew Hacc Hip Hnd Hlen) as [Hok Hm].
  eapply returns_mono; [apply (controller_run_ok e iter Hiter c ins Hok); by rewrite Hm|]. by intros c' [_ ?].
Qed.

(** C12: session affinity of one recomputation. While some backend is
    available, recomputing returns, and a session is mapped in the new list
    exactly to the backend it was mapped to, if that backend is available;
    sessions of other backends are dropped. Without an error the BPF program
    then reads that map, the backends of the list in order and a lookup table
    for them; with an error it reads what it read before. *)
Theorem recompute_affinity c :
  map_iteration iter → ctl_ok c → filterAvailable (backends c) ≠ [] →
  returns (recomputeAndApply iter c) (λ '(c', err),
    (∀ sid b, backend_of (filterAvailable (backends c)) (sessionMap c') sid = Some b ↔
       backend_of (backends c) (sessionMap c) sid = Some b ∧ is_available b = true) ∧
    match err with
    | Some _ => installed (bpfMgr c') = installed (bpfMgr c)
    | None => SessionMap (installed (bpfMgr c')) = sessionMap c' ∧
        bId <$> BackendList (installed (bpfMgr c')) = Id <$> filterAvailable (backends c) ∧
        Z.of_nat (length (LookupTable (installed (bpfMgr c')))) = lookupTableSize c
    end).
Proof.
  intros Hiter Hc Hne. eapply returns_mono; [by apply (recompute_run e)|].
  intros [c' err] (_ & _ & _ & Hsm & Hinst). split.
  - intros sid b. rewrite Hsm. apply backend_of_remap; done.
  - destruct err; [done|]. destruct Hinst as (out & t & Hout & Ht & ->). simpl. split_and!; [done| |].
    + by apply (transform_ids e).
    + eapply table_length; [exact Hiter|exact Hc|done|exact Ht].
Qed.

(** A status entry for an unknown backend, or one that does not change the
    backend's state, changes nothing; and when no backend is left available
    the objects the BPF program reads are left as they were, still naming the
    backends that are down. *)
Theorem health_step_idle c entry :
  (∀ b, b ∈ backends c → Id b = EntryBackendId entry → StatusState (Status b) = EntryState entry) →
  health_step iter c entry = Done c ∧
  (∀ c', filterAvailable (backends c') = [] → recomputeAndApply (M := M) iter c' = Done (c', None)).
Proof.
  intros Hsame. split.
  - unfold health_step. destruct (list_find _ _) as [[i b]|] eqn:Hf; [|done].
    apply list_find_Some in Hf as (Hb & Hid & _). rewrite decide_True; [done|].
    apply Hsame; [by eapply list_elem_of_lookup_2|done].
  - intros c' He. unfold recomputeAndApply. rewrite He. done.
Qed.
End properties.

Lemma controller_safe_witness :
  returns (controller_run elements sample_controller
     [InStatus {| EntryBackendId := replicate 16 0; EntryState := StateUnavailable |};
      InAssignment {| BackendId := replicate 16 1; SessionId := replicate 16 8 |}])
    (λ c', ctl_ok c' ∧ coherent (installed (bpfMgr c'))).
Proof.
  apply (controller_safe LittleEndian); [apply elements_iteration|apply sample_ok|apply sample_coherent].
Defined.

Definition two_backends : Config := {|
  Ifname := "eth0"; ConfigIP := "10.0.0.200"; ConfigPort := 12345;
  Backends := [{| Enabled := true; cfgIP := "10.0.0.1"; cfgMAC := "02:00:00:00:00:01"; cfgPort := 8080 |};
               {| Enabled := false; cfgIP := "none"; cfgMAC := ""; cfgPort := 0 |};
               {| Enabled := true; cfgIP := "10.0.0.2"; cfgMAC := "02:00:00:00:00:02"; cfgPort := 8080 |}] |}.
Lemma configured_controller_safe_witness : ∃ c,
  @new_controller (dsManager shared_kernel) sample_sha1 LittleEndian two_backends example_manager = Done (inl c) ∧
  returns (controller_run elements c [InAssignment {| BackendId := replicate 16 1; SessionId := replicate 16 8 |}])
    (λ c', coherent (installed (bpfMgr c'))).
Proof.
  destruct (@new_controller (dsManager shared_kernel) sample_sha1 LittleEndian two_backends example_manager)
    as [[c|err]| | |] eqn:Hnew; [|by vm_compute in Hnew..].
  exists c. split; [done|].
  apply (@configured_controller_safe _ _ LittleEndian _ elements sample_sha1 two_backends example_manager c).
  - apply elements_iteration.
  - exact Hnew.
  - done.
  - exact sample_coherent.
  - repeat constructor; by vm_compute; eexists.
  - apply (bool_decide_unpack _). by vm_compute.
  - simpl. lia.
Defined.

Lemma recompute_affinity_witness :
  returns (recomputeAndApply elements sample_controller) (λ '(c', err),
    (∀ sid b, backend_of (filterAvailable (backends sample_controller)) (sessionMap c') sid = Some b ↔
       backend_of (backends sample_controller) (sessionMap sample_controller) sid = Some b ∧ is_available b = true) ∧
    match err with
    | Some _ => installed (bpfMgr c') = installed (bpfMgr sample_controller)
    | None => SessionMap (installed (bpfMgr c')) = sessionMap c' ∧
        bId <$> BackendList (installed (bpfMgr c')) = Id <$> filterAvailable (backends sample_controller) ∧
        Z.of_nat (length (LookupTable (installed (bpfMgr c')))) = lookupTableSize sample_controller
    end).
Proof.
  apply (recompute_affinity LittleEndian); [apply elements_iteration|apply sample_ok|done].
Defined.

Lemma health_step_idle_witness :
  health_step elements sample_controller {| EntryBackendId := replicate 16 5; EntryState := StateUnavailable |}
    = Done sample_controller ∧
  (∀ c' : Controller (dsManager shared_kernel), filterAvailable (backends c') = [] →
     recomputeAndApply elements c' = Done (c', None)).
Proof.
  apply health_step_idle. intros b Hb Hid. exfalso. simpl in *. set_unfold. naive_solver.
Defined.

(** Affinity is lost over two recomputations. The controller stores the
    indices of the available backends but reads them back as indices of all
    backends: a session of the third backend, which stays healthy throughout,
    is moved to the second one when the first goes down and comes back. *)
Theorem session_moves_on_recovery :
  backend_of (backends sample_controller) (sessionMap sample_controller) sample_session = Some (sample_backend 2) ∧
  returns (controller_run elements sample_controller
     [InStatus {| EntryBackendId := replicate 16 0; EntryState := StateUnavailable |};
      InStatus {| EntryBackendId := replicate 16 0; EntryState := StateAvailable |}]) (λ c',
    backends c' = backends sample_controller ∧
    SessionMap (installed (bpfMgr c')) !! sample_session = Some 1 ∧
    bId <$> BackendList (installed (bpfMgr c')) = [replicate 16 0; replicate 16 1; replicate 16 2]).
Proof. split; [done|]. eexists. split; [vm_compute; reflexivity|]. by vm_compute. Qed.

(** [buildBackends] returns, for a configuration whose enabled backends all
    parse, one available backend per enabled entry, in order, with the parsed
    addresses, the name-based identifier of its address and port and four
    cached coordinates; otherwise it returns [ErrInvalidConfig]. Disabled
    entries are never looked at. *)
Theorem buildBackends_spec `{!UuidSHA1} (e : endian) (config : Config) :
  returns (buildBackends e config) (λ r,
    match r with
    | inl bs => Forall (λ bc, Enabled bc = true → parses bc) (Backends config) ∧
        Forall2 built (filter (λ bc, Enabled bc) (Backends config)) bs
    | inr err => ¬ Forall (λ bc, Enabled bc = true → parses bc) (Backends config) ∧
        errors_is err "invalid config" = true
    end).
Proof.
  eapply returns_mono; [apply buildBackends_run|]. intros [bs|err]; [|done].
  intros (Hall & bs' & -> & Hf). done.
Qed.

(** For up to 2^31 backends [computeLookupTableSize] is the smallest of the
    eight primes that is at least twice the number of backends, or the largest
    prime, 797, when there are more than 398 of them. *)
Theorem computeLookupTableSize_spec (n : Z) :
  0 <= n < 2 ^ 31 →
  computeLookupTableSize n ∈ lookupTablePrimes ∧
  (2 * n <= 797 → 2 * n <= computeLookupTableSize n ∧
     ∀ p, p ∈ lookupTablePrimes → 2 * n <= p → computeLookupTableSize n <= p) ∧
  (797 < 2 * n → computeLookupTableSize n = 797).
Proof.
  intros Hn. unfold computeLookupTableSize. rewrite u32_small by (unfold is_u32; lia).
  unfold lookupTablePrimes. cbn [list_find].
  repeat (case_decide; [cbn; split_and!; [set_solver|intros; split; [lia|intros p; rewrite !elem_of_cons; set_solver by lia]|lia]|]).
  cbn. split_and!; [set_solver|lia|done].
Qed.

Lemma computeLookupTableSize_spec_witness :
  computeLookupTableSize 3 ∈ lookupTablePrimes ∧
  (2 * 3 <= 797 → 2 * 3 <= computeLookupTableSize 3 ∧
     ∀ p, p ∈ lookupTablePrimes → 2 * 3 <= p → computeLookupTableSize 3 <= p) ∧
  (797 < 2 * 3 → computeLookupTableSize 3 = 797).
Proof. apply computeLookupTableSize_spec. lia. Defined.

(** A configuration with one IPv6 backend. *)
Definition ipv6_config : Config := {|
  Ifname := "eth0"; ConfigIP := "10.0.0.200"; ConfigPort := 12345;
  Backends := [{| Enabled := true; cfgIP := "fd00::1"; cfgMAC := "02:00:00:00:00:01"; cfgPort := 8080 |}] |}.

(** An IPv6 backend passes the configuration check: the controller is
    built without an error, and its first recomputation panics. *)
Theorem ipv6_backend_panics :
  ∃ c, @new_controller (dsManager shared_kernel) sample_sha1 LittleEndian ipv6_config example_manager = Done (inl c) ∧
    length (backends c) = 1%nat ∧ lookupTableSize c = 7 ∧
    recomputeAndApply elements c = Panic IndexOutOfRange.
Proof. eexists. split; [vm_compute; reflexivity|]. split_and!; by vm_compute. Qed.
