(* ===== verification/Wiring.v ===== *)
(** * Wiring: how the controller builds, starts and stops its parts

    [New], [Run] and [Close] of internal/controller/controller.go with [New]
    of internal/adapter/bpf/udplb_user.go and [newObjects] of objects.go.  The
    kernel, the network interface and cilium/ebpf are inputs: the errors of
    their calls, in the order the code makes them. *)
From S2P Require Import Prelude Types Rlt RltReverse GoNet WatcherMux Packet BpfManager Monitor Controller.

Definition ErrRemovingMemlock := Sentinel "removing memlock".
Definition ErrCreatingNewBPFProgram := Sentinel "creating new bpf program".

(** What the libraries answer while the BPF adapter is created. *)
Record bpf_env := {
  memlock_err : option error;      (* rlimit.RemoveMemlock *)
  load_err : option error;         (* loadUdplb *)
  variable_err : option error;     (* spec.Variables["config"].Set *)
  assign_err : option error;       (* spec.LoadAndAssign *)
  array_backend_err : option error;  (* ebpfstruct.NewArray for the backend list *)
  array_lookup_err : option error;
  map_session_err : option error;
  fifo_err : option error
}.

Record udplbConfigT := { cfgIp : Z; cfgPort_ : Z; LookupTableSize : Z; cfgMac : list Z }.

(** The first error of a sequence of calls. *)
Definition first_err (l : list (option error)) : option error := head (omap id l).

Definition newObjects (env : bpf_env) : option error :=
  first_err [array_backend_err env; array_lookup_err env; map_session_err env; fifo_err env].

(** ** TraceBPF (udplb_user.go)

    It opens the trace pipe, starts a goroutine that prints its lines, and
    closes the pipe when it returns. *)
Record tracer := { pipeOpen : bool; pipe : list (list Z); scanning : bool; shown : list (list Z); returned : option (option error) }.
Definition TraceBPF (open_err : option error) (lines : list (list Z)) : tracer :=
  match open_err with
  | Some err => {| pipeOpen := false; pipe := lines; scanning := false; shown := []; returned := Some (Some err) |}
  | None => {| pipeOpen := true; pipe := lines; scanning := true; shown := []; returned := None |}
  end.
Inductive trace_act := TraceScan | TraceReturn.
Definition trace_step (t : tracer) (a : trace_act) : option tracer :=
  match a with
  | TraceScan =>
      if scanning t then
        match pipe t with
        | line :: rest =>
            if pipeOpen t
            then Some {| pipeOpen := true; pipe := rest; scanning := true; shown := shown t ++ [line]; returned := returned t |}
            else Some {| pipeOpen := false; pipe := pipe t; scanning := false; shown := shown t; returned := returned t |}
        | [] => None
        end
      else None
  | TraceReturn =>
      match returned t with
      | None => Some {| pipeOpen := false; pipe := pipe t; scanning := scanning t; shown := shown t; returned := Some None |}
      | Some _ => None
      end
  end.

(** Nothing is printed once it has returned, whatever the pipe still holds. *)
Lemma trace_stops t acts t' :
  run_acts trace_step t acts = Some t' → pipeOpen t = false → returned t ≠ None → shown t' = shown t.
Proof.
  intros Hr Ho Hn.
  assert (H : pipeOpen t' = false ∧ returned t' ≠ None ∧ shown t' = shown t); [|apply H].
  revert Hr. apply (run_acts_inv _ (λ x, pipeOpen x = false ∧ returned x ≠ None ∧ shown x = shown t)); [|done].
  intros x a x' (H1 & H2 & H3) Hs. destruct a; simpl in Hs.
  - destruct (scanning x); [|done]. destruct (pipe x); [done|]. rewrite H1 in Hs. by injection Hs as <-.
  - by destruct (returned x).
Qed.

Section wiring.
Context {K : Type} `{!EbpfObjects K, !FlatErrors, !UuidSHA1} (e : endian) (iter : gset Z → list Z).

Definition bpf_New (env : bpf_env) (hardwareAddr : list Z) (ip : list Z) (port lookupTableSize : Z) (k : K)
    (mux : WatcherMux Assignment) : go ((udplbConfigT * runnable * dsManager K) + error) :=
  match memlock_err env with
  | Some err => Done (inr (Join [err; ErrRemovingMemlock; ErrCreatingNewBPFProgram]))
  | None =>
      ip4 ← NetIPv4ToUint32 e ip;
      mac ← to_array6 hardwareAddr;
      match first_err [load_err env; variable_err env; assign_err env; newObjects env] with
      | Some err => Done (inr (Join [err; ErrCreatingNewBPFProgram]))
      | None =>
          Done (inl ({| cfgIp := ip4; cfgPort_ := port; LookupTableSize := lookupTableSize; cfgMac := mac |},
                     {| rRunning := false; rDoneClosed := false; attached := false; loaded := true |},
                     NewDataStructureManager k mux))
      end
  end.

Record wired := {
  ctl : Controller (dsManager K);
  bpfProg : runnable;
  healthMonitor : backendState;
  healthCh : Z       (* the watcher behind healthCh and healthCancel *)
}.

#[local] Existing Instance dsManager_manager.

(** [New]; [iface] is what [net.InterfaceByName] found. *)
Definition New (env : bpf_env) (iface : list Z + error) (config : Config) (k : K) : go (wired + error) :=
  match iface with
  | inr err => Done (inr (Wraps [ErrCreatingController; err]))
  | inl hardwareAddr =>
      match ParseIP (ConfigIP config) with
      | None => Done (inr (Wraps [ErrCreatingController; ErrInvalidConfig]))
      | Some ip =>
          bs ← buildBackends e config;
          match bs with
          | inr err => Done (inr (Wraps [ErrCreatingController; err]))
          | inl bs =>
              let size := computeLookupTableSize (Z.of_nat (length bs)) in
              let specs := foldl (λ acc b, <[Id b := Spec b]> acc) ∅ bs in
              let monitor := NewBackendState specs (NewWatcherMux 100) in
              '(hm, id) ← monitor_Watch (bsMonitor monitor);
              r ← bpf_New env hardwareAddr ip (ConfigPort config) size k (NewWatcherMux 100);
              match r with
              | inr err => Done (inr (Wraps [ErrCreatingController; err]))
              | inl (_, prog, mgr) =>
                  Done (inl {| ctl := {| backends := bs; lookupTableSize := size; sessionMap := ∅; bpfMgr := mgr |};
                               bpfProg := prog;
                               healthMonitor := {| bsBackends := specs; bsMonitor := hm |};
                               healthCh := id |})
              end
          end
      end
  end.

Definition with_mgr (c : Controller (dsManager K)) (m : dsManager K) : Controller (dsManager K) :=
  {| backends := backends c; lookupTableSize := lookupTableSize c; sessionMap := sessionMap c; bpfMgr := m |}.

(** [Run]: program, manager, assignment watch, health monitor, then the first
    recomputation. *)
Definition Run (attach_err : option error) (w : wired) : go (wired * option error) :=
  let (prog, err) := prog_Run attach_err (bpfProg w) in
  match err with
  | Some err => Done (w, Some err)
  | None =>
      '(mgr, err) ← mgr_Run (bpfMgr (ctl w));
      match err with
      | Some err => Done ({| ctl := with_mgr (ctl w) mgr; bpfProg := prog; healthMonitor := healthMonitor w;
                             healthCh := healthCh w |}, Some err)
      | None =>
          '(mgr, _) ← WatchAssignment mgr;
          let (hm, err) := monitor_Run None (bsMonitor (healthMonitor w)) in
          let health := {| bsBackends := bsBackends (healthMonitor w); bsMonitor := hm |} in
          match err with
          | Some err => Done ({| ctl := with_mgr (ctl w) mgr; bpfProg := prog; healthMonitor := health;
                                 healthCh := healthCh w |}, Some err)
          | None =>
              '(c, err) ← @recomputeAndApply _ (dsManager_manager e) iter (with_mgr (ctl w) mgr);
              Done ({| ctl := c; bpfProg := prog; healthMonitor := health; healthCh := healthCh w |}, err)
          end
      end
  end.

(** [errors.Join] of the errors met, nil when there is none. *)
Definition errors_join (errs err : option error) : option error :=
  match err with
  | None => errs
  | Some er => Some (Wraps (match errs with Some es => [es; er] | None => [er] end))
  end.

(** [Close]: cancel the health watcher, then close monitor, manager, program. *)
Definition Close (link_err objs_err : option error) (w : wired) : go (wired * option error) :=
  mux ← cancel (watcherMux (bsMonitor (healthMonitor w))) (healthCh w);
  '(hm, err1) ← monitor_Close iter (with_mux (bsMonitor (healthMonitor w)) mux);
  '(mgr, err2) ← mgr_Close iter (bpfMgr (ctl w));
  '(prog, mgr, err3) ← prog_Close iter link_err objs_err (bpfProg w) mgr;
  Done ({| ctl := with_mgr (ctl w) mgr; bpfProg := prog;
           healthMonitor := {| bsBackends := bsBackends (healthMonitor w); bsMonitor := hm |};
           healthCh := healthCh w |},
        errors_join (errors_join (errors_join None err1) err2) err3).
End wiring.
Arguments wired : clear implicits.

(** * Lemmas *)

Section started.
Context {K : Type} `{!EbpfObjects K, !FlatErrors} (iter : gset Z → list Z) (Hiter : ∀ X, iter X ≡ₚ elements X).

(** A health monitor whose watcher is registered and whose loop runs. *)
Record monitor_ready {T} (m : monitor T) (id : Z) (run : bool) : Prop := {
  mr_run : mRunning m = run;
  mr_closed : mClosed m = false;
  mr_done : mDone m = false;
  mr_term : mTerminate m = false;
  mr_mux : mux_inv (watcherMux m);
  mr_open : doneClosed (watcherMux m) = false;
  mr_reg : id ∈ watchers (watcherMux m)
}.

Lemma new_monitor_ready {T} m id :
  monitor_Watch (new_monitor (T := T) (NewWatcherMux 100)) = Done (m, id) → monitor_ready m id false.
Proof.
  unfold monitor_Watch. destruct (Watch _ _) as [[mux i]| | |] eqn:Hw; try done. cbn [mbind go_bind].
  intros [= <- <-]. pose proof (Watch_inv _ _ _ _ (new_inv 100 ltac:(lia)) Hw) as Hinv.
  unfold Watch in Hw. rewrite decide_False in Hw by (simpl; lia). injection Hw as <- <-.
  by split.
Qed.

(** The cancel, then Close, of a running monitor. *)
Lemma monitor_stop {T} (m : monitor T) id :
  monitor_ready m id true →
  returns (cancel (watcherMux m) id) (λ mux,
    cancel mux id = Panic CloseOfClosedChannel ∧
    returns (monitor_Close iter (with_mux m mux)) (λ '(m', err),
      err = None ∧ cancel (watcherMux m') id = Panic CloseOfClosedChannel)).
Proof using Hiter.
  intros [Hr Hc Hd Ht Hmux Ho Hreg].
  destruct (mi_dom _ Hmux id Hreg) as [w Hw]. pose proof (mi_live _ Hmux id w Hreg Hw) as Hlive.
  destruct (cancel_run (watcherMux m) id w Hmux Hw Hlive) as (mux & Hcan & Hinv & Hnot).
  exists mux. split; [done|].
  destruct (cancelled_watcher _ _ _ _ Hmux Hw Hcan) as (w' & Hw' & _ & Hdn & _).
  assert (Hagain : ∀ mux', heap mux' !! id = Some w' → cancel mux' id = Panic CloseOfClosedChannel).
  { intros mux' Hm. unfold cancel, deref. rewrite Hm. cbn [mbind go_bind]. by rewrite Hdn. }
  split; [by apply Hagain|].
  assert (Hmd : doneClosed mux = false).
  { unfold cancel, deref in Hcan. rewrite Hw in Hcan. cbn [mbind go_bind] in Hcan. rewrite Hlive in Hcan.
    destruct (close_once _); try done. cbn [mbind go_bind] in Hcan. by injection Hcan as <-. }
  unfold monitor_Close, monitor_terminate. cbn [with_mux mRunning mClosed mDone mTerminate watcherMux].
  rewrite Hr, Hc, Ht. cbn [negb].
  destruct (Close_keeps iter mux id Hiter Hinv Hmd Hnot) as (mux' & -> & Hkeep). cbn [mbind go_bind].
  rewrite Hd. cbn [mbind go_bind]. apply returns_done. split; [done|]. apply Hagain. simpl. by rewrite Hkeep.
Qed.

(** What [Run] needs of a controller [New] made, and what it leaves. *)
Definition ready (run : bool) (w : wired K) : Prop :=
  monitor_ready (bsMonitor (healthMonitor w)) (healthCh w) run ∧
  mgr_inv (bpfMgr (ctl w)) ∧ running (bpfMgr (ctl w)) = run ∧ muLocked (bpfMgr (ctl w)) = false ∧
  rRunning (bpfProg w) = run ∧ rDoneClosed (bpfProg w) = false.

Context `{!UuidSHA1} (e : endian).

Lemma SetObjects_frame (m m' : dsManager K) bl lt sm err :
  SetObjects e m bl lt sm = Done (m', err) → m' = with_objs m (objs m').
Proof.
  unfold SetObjects. cbn [AnyPtrIsNil existsb orb]. destruct (transformBackendList e bl); try done.
  cbn [mbind go_bind]. rewrite newEvent_set. unfold submit.
  destruct (eventChClosed m), (loopLive m); try done. destruct (handleEvent _ _).
  cbn [mbind go_bind]. by intros [= <- _].
Qed.
Lemma recompute_frame (c c' : Controller (dsManager K)) err :
  @recomputeAndApply _ (dsManager_manager e) iter c = Done (c', err) →
  bpfMgr c' = with_objs (bpfMgr c) (objs (bpfMgr c')).
Proof.
  unfold recomputeAndApply. case_decide.
  { intros [= <- _]. by destruct (bpfMgr c). }
  destruct (ReverseCoordinatesLookupTable _ _ _); try done. cbn [mbind go_bind].
  destruct (set_objects _ _ _ _) as [[m er]| | |] eqn:Hs; try done. cbn [mbind go_bind].
  intros [= <- _]. eapply SetObjects_frame. exact Hs.
Qed.

Lemma New_ready env iface config k w : New e env iface config k = Done (inl w) → ready false w.
Proof.
  unfold New. destruct iface as [hw|]; [|done]. destruct (ParseIP _) as [ip|]; [|done].
  destruct (buildBackends e config) as [[bs|]| | |]; try done. cbn [mbind go_bind].
  destruct (monitor_Watch _) as [[hm id]| | |] eqn:Hw; try done. cbn [mbind go_bind].
  destruct (bpf_New _ _ _ _ _ _ _ _) as [[[[cfg prog] mgr]|]| | |] eqn:Hb; try done. cbn [mbind go_bind].
  intros [= <-]. unfold bpf_New in Hb. destruct (memlock_err env); [done|].
  destruct (NetIPv4ToUint32 e ip); try done. cbn [mbind go_bind] in Hb.
  destruct (to_array6 hw); try done. cbn [mbind go_bind] in Hb.
  destruct (first_err _); [done|]. injection Hb as <- <- <-.
  split; [by apply new_monitor_ready|]. split_and!; try done.
  split; [by apply phase_fresh|by apply new_inv].
Qed.

Lemma Run_ready w w' : ready false w → Run e iter None w = Done (w', None) → ready true w'.
Proof.
  intros (Hm & Hinv & Hr & Hl & Hpr & Hpd). unfold Run, prog_Run. rewrite Hpr.
  destruct (mgr_Run (bpfMgr (ctl w))) as [[mgr err]| | |] eqn:HR; try done. cbn [mbind go_bind].
  destruct err; [done|]. pose proof (Run_inv _ _ _ Hinv HR) as Hinv1.
  destruct (WatchAssignment mgr) as [[mgr2 id]| | |] eqn:HW; try done. cbn [mbind go_bind].
  pose proof (Watch_mgr_inv _ _ _ Hinv1 HW) as Hinv2.
  unfold monitor_Run. destruct Hm as [Hm1 Hm2 ? ? ? ? ?]. rewrite Hm1, Hm2.
  destruct (recomputeAndApply _ _) as [[c er]| | |] eqn:Hc; try done. cbn [mbind go_bind].
  intros [= <- ->]. pose proof (recompute_frame _ _ _ Hc) as Hf. simpl in Hf.
  assert (Hmgr : running mgr2 = true ∧ muLocked mgr2 = false).
  { unfold mgr_Run in HR. rewrite Hl, Hr in HR. destruct (closed _); [done|].
    destruct (AssignmentFIFO_Subscribe _) as [k1 [|]]; [done|]. injection HR as <-.
    unfold WatchAssignment in HW. destruct (Watch _ _) as [[]| | |]; try done. by injection HW as <- _. }
  split; [by split|]. simpl. rewrite Hf. split_and!; try done; try apply Hmgr. by apply with_objs_inv.
Qed.
(** [Close] of a started controller. *)
Lemma Close_ready w link_err objs_err :
  ready true w →
  returns (Close iter link_err objs_err w) (λ '(w', err),
    closed (bpfMgr (ctl w')) = true ∧ attached (bpfProg w') = false ∧
    (∃ er, err = Some er ∧ errors_is er "runnable must be running to be closed" = true) ∧
    Close iter link_err objs_err w' = Panic CloseOfClosedChannel).
Proof using Hiter.
  intros (Hm & Hinv & Hr & Hl & Hpr & Hpd).
  unfold Close. destruct (monitor_stop _ _ Hm) as (mux & -> & _ & Hmc). cbn [mbind go_bind].
  destruct Hmc as ([hm er1] & -> & -> & Hagain). cbn [mbind go_bind].
  destruct (Close_running iter Hiter _ Hinv Hr Hl) as ([mgr er2] & -> & -> & Hinv' & Hc' & Hl'). cbn [mbind go_bind].
  assert (Hr' : running mgr = false) by (destruct Hinv' as [[] _]; congruence).
  unfold prog_Close. rewrite Hpr. cbn [negb]. rewrite (Close_not_running iter mgr Hinv' Hr' Hl').
  cbn [mbind go_bind]. rewrite Hpd. cbn [mbind go_bind]. apply returns_done. simpl. split_and!; try done.
  - destruct link_err, objs_err; eexists; (split; [reflexivity|]); simpl;
      repeat (rewrite ?Join_is; simpl); done.
  - by rewrite Hagain.
Qed.
End started.

(** * Properties *)


Definition ipv4_config : Config := {|
  Ifname := "eth0"; ConfigIP := "10.0.0.200"; ConfigPort := 12345;
  Backends := [{| Enabled := true; cfgIP := "10.0.0.1"; cfgMAC := "02:00:00:00:00:01"; cfgPort := 8080 |};
               {| Enabled := true; cfgIP := "10.0.0.2"; cfgMAC := "02:00:00:00:00:02"; cfgPort := 8080 |}] |}.
Definition quiet_env : bpf_env := {|
  memlock_err := None; load_err := None; variable_err := None; assign_err := None; array_backend_err := None;
  array_lookup_err := None; map_session_err := None; fifo_err := None |}.

Lemma sample_start : ∃ w w' : wired shared_kernel,
  @New _ flaterrors_wraps sample_sha1 LittleEndian quiet_env (inl [2; 0; 0; 0; 0; 9]) ipv4_config fresh_kernel = Done (inl w) ∧
  @Run _ _ flaterrors_wraps LittleEndian elements None w = Done (w', None).
Proof. eexists. eexists. split; [vm_compute; reflexivity|]. vm_compute. reflexivity. Qed.

