(* ===== verification/Xdp.v ===== *)
(** * Xdp: the XDP program (internal/adapter/bpf/udplb_kern.c and its helpers)

    One run of [udplb] on one frame: which frames are load balanced, the
    choice of the backend from the session map or the lookup table, the
    persistence of a new session and the rewriting of the frame with its
    checksum.  A frame is the list of its bytes; an access outside of it is a
    panic, so that "returns" includes that the program never reads or writes
    past [data_end].  The program is the little-endian one (it includes
    linux/byteorder/little_endian.h).  Kernel helpers are inputs: whether the
    ring buffer had room, whether the map could be updated, and
    [bpf_csum_diff], whose value is only documented up to folding. *)
From S2P Require Import Prelude Types Packet BpfManager Wiring.

(** ** Frames *)

(** The bytes [off, off + n) of a frame, and the frame with [bs] there. *)
Definition field (p : list Z) (off n : nat) : list Z := take n (drop off p).
Definition store (p : list Z) (off : nat) (bs : list Z) : list Z :=
  take off p ++ bs ++ drop (off + length bs) p.

(** Accesses of the program. *)
Definition load (p : list Z) (off n : nat) : go (list Z) :=
  if decide (off + n <= length p)%nat then Done (field p off n) else Panic IndexOutOfRange.
Definition storeM (p : list Z) (off : nat) (bs : list Z) : go (list Z) :=
  if decide (off + length bs <= length p)%nat then Done (store p off bs) else Panic IndexOutOfRange.

(** Little-endian loads of 8, 16 and 32 bits; [le16] and [PutUint32LE] write. *)
Definition le_combine (bs : list Z) : Z := foldr (λ b acc, b + 256 * acc) 0 bs.
Definition load_le (p : list Z) (off n : nat) : go Z := bs ← load p off n; Done (le_combine bs).
Definition le16 (v : Z) : list Z := [v `mod` 256; (v `div` 256) `mod` 256].

(** [bpf_htons] on a little-endian machine. *)
Definition htons (v : Z) : Z := (v `mod` 256) * 256 + (v `div` 256) `mod` 256.

(** Offsets of the fields the program uses: struct ethhdr, struct iphdr (at
    14), struct udphdr (at 34), struct udpdata (at 42). *)
Definition off_h_dest : nat := 0.
Definition off_h_source : nat := 6.
Definition off_h_proto : nat := 12.
Definition off_iph : nat := 14.
Definition off_ttl : nat := 22.
Definition off_protocol : nat := 23.
Definition off_ip_check : nat := 24.
Definition off_daddr : nat := 30.
Definition off_udp_dest : nat := 36.
Definition off_udp_check : nat := 40.
Definition off_prefix : nat := 42.
Definition off_session : nat := 46.

Definition ETH_P_IP : Z := 0x0800.
Definition IPPROTO_UDP : Z := 17.
Definition UDPLB_PACKET_PREFIX : Z := 0x55 * 2 ^ 24 + 0x55 * 2 ^ 16 + 0x49 * 2 ^ 8 + 0x44.

(** ** udplb_kern_helpers.c *)

(** [ptr + 1 > data_end] for a header that ends at [n]. *)
Definition past (p : list Z) (n : nat) : bool := bool_decide (length p < n)%nat.

Definition must_loadbalance (p : list Z) (lb_addr lb_port : Z) : go bool :=
  if past p 14 then Done false else
  h_proto ← load_le p off_h_proto 2;
  if decide (h_proto ≠ htons ETH_P_IP) then Done false else
  if past p 34 then Done false else
  daddr ← load_le p off_daddr 4;
  if decide (daddr ≠ lb_addr) then Done false else
  protocol ← load_le p off_protocol 1;
  if decide (protocol ≠ IPPROTO_UDP) then Done false else
  if past p 42 then Done false else
  dest ← load_le p off_udp_dest 2;
  if decide (dest ≠ htons lb_port) then Done false else
  if past p 62 then Done false else
  prefix ← load_le p off_prefix 4;
  if decide (prefix ≠ UDPLB_PACKET_PREFIX) then Done false else
  Done true.

(** The 16-bit words of an even number of bytes, in memory order. *)
Fixpoint words16 (bs : list Z) : list Z :=
  match bs with
  | b0 :: b1 :: bs => (b0 + 256 * b1) :: words16 bs
  | _ => []
  end.
Definition zsum (l : list Z) : Z := foldr Z.add 0 l.

(** [bpf_csum_diff(0, 0, to, size, 0)]: a 32-bit partial checksum, the one's
    complement sum of the words folded to an unspecified extent.  It is zero
    only for zero bytes. *)
Class CsumDiff := {
  bpf_csum_diff : list Z → Z;
  csum_diff_range : ∀ bs, Forall is_byte bs → 0 <= bpf_csum_diff bs < 2 ^ 32;
  csum_diff_sum : ∀ bs, Forall is_byte bs →
    bpf_csum_diff bs `mod` 65535 = zsum (words16 bs) `mod` 65535;
  csum_diff_zero : ∀ bs, Forall is_byte bs → bpf_csum_diff bs = 0 → zsum (words16 bs) = 0
}.

(** One folding step of [csum], on a non-negative 64-bit value. *)
Definition csum_fold (c : Z) : Z := Z.land c 0xffff + Z.shiftr c 16.
Definition csum `{!CsumDiff} (hdr : list Z) : Z :=
  u16 (Z.lnot (Nat.iter 4 csum_fold (bpf_csum_diff hdr))).

(** [iphdr_csum]: clears the checksum field, then sums the header. *)
Definition iphdr_csum `{!CsumDiff} (p : list Z) : go (list Z * Z) :=
  p ← storeM p off_ip_check [0; 0];
  hdr ← load p off_iph 20;
  Done (p, csum hdr).

(** [char] is signed on the target; the sum is taken on 32 bits. *)
Definition schar (b : Z) : Z := if decide (b < 128) then b else b - 256.
Definition fast_hash (str : list Z) : Z :=
  foldl (λ hash c, u32 (schar c + Z.shiftl hash 6 + Z.shiftl hash 16 - hash)) 0 str.

(** The BPF instruction set leaves the dividend when the divisor is zero. *)
Definition bpf_mod (x y : Z) : Z := if decide (y = 0) then x else x `mod` y.

(** ** Maps of udplb_kern.c *)

(** A BPF array: every index below [max_entries] has a value, zero until set. *)
Record bpf_array (V : Type) := { max_entries : Z; zero_value : V; cells : gmap Z V }.
Arguments max_entries {V} _.
Arguments zero_value {V} _.
Arguments cells {V} _.
Definition array_lookup {V} (a : bpf_array V) (i : Z) : option V :=
  if decide (0 <= i < max_entries a) then Some (default (zero_value a) (cells a !! i)) else None.

Definition zero_backend : udplbBackendSpecT :=
  {| bId := replicate 16 0; bIp := 0; bPort := 0; bMac := replicate 6 0 |}.
Definition backend_list_t : bpf_array udplbBackendSpecT :=
  {| max_entries := 64; zero_value := zero_backend; cells := ∅ |}.
Definition lookup_table_t : bpf_array Z := {| max_entries := 2 ^ 16; zero_value := 0; cells := ∅ |}.

Record maps := {
  backend_list_a : bpf_array udplbBackendSpecT;
  backend_list_b : bpf_array udplbBackendSpecT;
  lookup_table_a : bpf_array Z;
  lookup_table_b : bpf_array Z;
  session_map_a : gmap uuid Z;
  session_map_b : gmap uuid Z;
  assignment_ringbuf : list Assignment   (* submitted records, oldest first *)
}.

(** Each of the three accessors reads the volatile [active_pointer]. *)
Definition get_active_backend_list (ap : Z) (k : maps) :=
  if decide (ap = 0) then backend_list_a k else backend_list_b k.
Definition get_active_lookup_table (ap : Z) (k : maps) :=
  if decide (ap = 0) then lookup_table_a k else lookup_table_b k.
Definition get_active_sessions (ap : Z) (k : maps) :=
  if decide (ap = 0) then session_map_a k else session_map_b k.

Definition with_sessions (ap : Z) (k : maps) (s : gmap uuid Z) : maps :=
  {| backend_list_a := backend_list_a k; backend_list_b := backend_list_b k;
     lookup_table_a := lookup_table_a k; lookup_table_b := lookup_table_b k;
     session_map_a := if decide (ap = 0) then s else session_map_a k;
     session_map_b := if decide (ap = 0) then session_map_b k else s;
     assignment_ringbuf := assignment_ringbuf k |}.
Definition submit_assignment (k : maps) (a : Assignment) : maps :=
  {| backend_list_a := backend_list_a k; backend_list_b := backend_list_b k;
     lookup_table_a := lookup_table_a k; lookup_table_b := lookup_table_b k;
     session_map_a := session_map_a k; session_map_b := session_map_b k;
     assignment_ringbuf := assignment_ringbuf k ++ [a] |}.

(** ** udplb *)

Inductive xdp_action := XDP_PASS | XDP_DROP | XDP_TX.
#[export] Instance xdp_action_eq_dec : EqDecision xdp_action.
Proof. solve_decision. Defined.

(** What the kernel answers during one run: the three reads of
    [active_pointer], in program order, and the outcomes of the helpers. *)
Record xdp_env := {
  ap_backends : Z;
  ap_lookup : Z;
  ap_sessions : Z;
  reserve_ok : bool;     (* bpf_ringbuf_reserve found room *)
  update_ok : bool       (* bpf_map_update_elem did not fail *)
}.

(** The two writes of a new session; a failure of either is only traced. *)
Definition persist (env : xdp_env) (k : maps) (session_id : uuid) (idx : Z) (backend : udplbBackendSpecT) : maps :=
  let k := if reserve_ok env
           then submit_assignment k {| BackendId := bId backend; SessionId := session_id |} else k in
  if update_ok env
  then with_sessions (ap_sessions env) k (<[session_id := idx]> (get_active_sessions (ap_sessions env) k))
  else k.

(** The rewriting of the frame for a backend: addresses, then checksums. *)
Definition rewrite_addresses (config : udplbConfigT) (backend : udplbBackendSpecT) (p : list Z) : go (list Z) :=
  p ← storeM p off_h_source (cfgMac config);
  p ← storeM p off_h_dest (bMac backend);
  p ← storeM p off_daddr (PutUint32LE (bIp backend));
  storeM p off_udp_dest (le16 (htons (bPort backend))).
Definition rewrite_checksums `{!CsumDiff} (p : list Z) : go (list Z) :=
  '(p, check) ← iphdr_csum p;
  p ← storeM p off_ip_check (le16 check);
  storeM p off_udp_check [0; 0].

Definition udplb `{!CsumDiff} (config : udplbConfigT) (env : xdp_env) (k : maps) (p : list Z)
    : go (xdp_action * maps * list Z) :=
  lb ← must_loadbalance p (cfgIp config) (cfgPort_ config);
  if negb lb then Done (XDP_PASS, k, p) else
  h_source ← load p off_h_source 6;
  if decide (h_source = cfgMac config) then Done (XDP_DROP, k, p) else
  ttl ← load_le p off_ttl 1;
  if decide (ttl <= 1) then Done (XDP_DROP, k, p) else
  p ← storeM p off_ttl [ttl - 1];
  let backends := get_active_backend_list (ap_backends env) k in
  let lup := get_active_lookup_table (ap_lookup env) k in
  let sess := get_active_sessions (ap_sessions env) k in
  session_id ← load p off_session 16;
  let lup_key := bpf_mod (fast_hash session_id) (LookupTableSize config) in
  let known := sess !! session_id in
  match match known with Some i => Some i | None => array_lookup lup lup_key end with
  | None => Done (XDP_PASS, k, p)
  | Some backend_idx =>
      match array_lookup backends backend_idx with
      | None => Done (XDP_PASS, k, p)
      | Some backend =>
          let k := match known with Some _ => k | None => persist env k session_id backend_idx backend end in
          p ← rewrite_addresses config backend p;
          p ← rewrite_checksums p;
          Done (XDP_TX, k, p)
      end
  end.

(** * Specification *)

(** The frames the load balancer at address [ip] and port [port] takes. *)
Definition balanced (ip port : Z) (p : list Z) : Prop :=
  (62 <= length p)%nat ∧
  field p off_h_proto 2 = [8; 0] ∧
  field p off_daddr 4 = PutUint32LE ip ∧
  field p off_protocol 1 = [IPPROTO_UDP] ∧
  field p off_udp_dest 2 = [port `div` 256; port `mod` 256] ∧
  field p off_prefix 4 = prefix_bytes.
#[export] Instance balanced_dec ip port p : Decision (balanced ip port p).
Proof. unfold balanced. apply _. Defined.

(** RFC 1071: a header is valid when the one's complement sum of its words is
    all ones. *)
Definition onec_add (a b : Z) : Z := csum_fold (a + b).
Definition valid_checksum (hdr : list Z) : Prop := foldl onec_add 0 (words16 hdr) = 0xffff.

Definition ttl_of (p : list Z) : Z := le_combine (field p off_ttl 1).
Definition session_of (p : list Z) : uuid := field p off_session 16.

(** A frame forwarded to backend [b]: the two hardware addresses, the
    destination address and port and the checksums are rewritten, the TTL is
    one less, and everything else is kept. *)
Record forwarded (config : udplbConfigT) (b : udplbBackendSpecT) (p p' : list Z) : Prop := {
  fw_bytes : Forall is_byte p';
  fw_length : length p' = length p;
  fw_h_dest : field p' off_h_dest 6 = bMac b;
  fw_h_source : field p' off_h_source 6 = cfgMac config;
  fw_kept1 : field p' off_h_proto 10 = field p off_h_proto 10;
  fw_ttl : field p' off_ttl 1 = [ttl_of p - 1];
  fw_protocol : field p' off_protocol 1 = field p off_protocol 1;
  fw_saddr : field p' 26 4 = field p 26 4;
  fw_daddr : field p' off_daddr 4 = PutUint32LE (bIp b);
  fw_sport : field p' 34 2 = field p 34 2;
  fw_dport : field p' off_udp_dest 2 = [bPort b `div` 256; bPort b `mod` 256];
  fw_ulen : field p' 38 2 = field p 38 2;
  fw_ucheck : field p' off_udp_check 2 = [0; 0];
  fw_payload : drop 42 p' = drop 42 p;
  fw_checksum : valid_checksum (field p' off_iph 20)
}.

(** The backend index a session is sent to. *)
Definition route (config : udplbConfigT) (env : xdp_env) (k : maps) (sid : uuid) : option Z :=
  match get_active_sessions (ap_sessions env) k !! sid with
  | Some i => Some i
  | None => array_lookup (get_active_lookup_table (ap_lookup env) k)
              (bpf_mod (fast_hash sid) (LookupTableSize config))
  end.

(** What the program makes of a frame. *)
Inductive verdict :=
  | NotOurs                   (* not addressed to the load balancer *)
  | Reflected                 (* carries the load balancer's own hardware address *)
  | Expired                   (* no hop left *)
  | Unroutable                (* the tables have no backend for it *)
  | Forward (idx : Z) (b : udplbBackendSpecT).
Definition verdict_of (config : udplbConfigT) (env : xdp_env) (k : maps) (p : list Z) : verdict :=
  if decide (balanced (cfgIp config) (cfgPort_ config) p) then
    if decide (field p off_h_source 6 = cfgMac config) then Reflected
    else if decide (ttl_of p <= 1) then Expired
    else match route config env k (session_of p) with
         | None => Unroutable
         | Some i => match array_lookup (get_active_backend_list (ap_backends env) k) i with
                     | None => Unroutable
                     | Some b => Forward i b
                     end
         end
  else NotOurs.

Definition outcome_of (config : udplbConfigT) (env : xdp_env) (k : maps) (p : list Z)
    (r : xdp_action * maps * list Z) : Prop :=
  let '(act, k', p') := r in
  match verdict_of config env k p with
  | NotOurs => act = XDP_PASS ∧ k' = k ∧ p' = p
  | Reflected | Expired => act = XDP_DROP ∧ k' = k ∧ p' = p
  | Unroutable => act = XDP_PASS ∧ k' = k ∧ p' = store p off_ttl [ttl_of p - 1]
  | Forward i b => act = XDP_TX ∧ forwarded config b p p' ∧
      k' = match get_active_sessions (ap_sessions env) k !! session_of p with
           | Some _ => k
           | None => persist env k (session_of p) i b
           end
  end.

(** ** Well-formed configurations and maps *)

Definition is_u16 (x : Z) : Prop := 0 <= x < 2 ^ 16.
Definition is_mac (m : list Z) : Prop := length m = 6%nat ∧ Forall is_byte m.
Definition backend_ok (b : udplbBackendSpecT) : Prop :=
  is_uuid (bId b) ∧ is_u32 (bIp b) ∧ is_u16 (bPort b) ∧ is_mac (bMac b).
Definition config_ok (c : udplbConfigT) : Prop :=
  is_u32 (cfgIp c) ∧ is_u16 (cfgPort_ c) ∧ is_mac (cfgMac c).
Definition array_ok {V} (P : V → Prop) (a : bpf_array V) : Prop :=
  P (zero_value a) ∧ map_Forall (λ _, P) (cells a).
Record maps_ok (k : maps) : Prop := {
  mk_list_a : array_ok backend_ok (backend_list_a k);
  mk_list_b : array_ok backend_ok (backend_list_b k);
  mk_table_a : array_ok is_u32 (lookup_table_a k);
  mk_table_b : array_ok is_u32 (lookup_table_b k);
  mk_sess_a : map_Forall (λ sid i, is_uuid sid ∧ is_u32 i) (session_map_a k);
  mk_sess_b : map_Forall (λ sid i, is_uuid sid ∧ is_u32 i) (session_map_b k);
  mk_ring : Forall (λ a, is_uuid (BackendId a) ∧ is_uuid (SessionId a)) (assignment_ringbuf k)
}.

(** * Lemmas *)

(** Bounds of the program's fields, and literal bytes. *)
Ltac frame_lia :=
  unfold off_h_dest, off_h_source, off_h_proto, off_iph, off_ttl, off_protocol, off_ip_check, off_daddr,
    off_udp_dest, off_udp_check, off_prefix, off_session in *; simpl length in *; lia.
Ltac bytes_lit := repeat constructor; unfold is_byte, IPPROTO_UDP; lia.

(** ** Fields of frames *)

Lemma length_store p off bs : (off + length bs <= length p)%nat → length (store p off bs) = length p.
Proof. intros. unfold store. rewrite !length_app, length_take, length_drop. lia. Qed.
Lemma lookup_field p off n i : field p off n !! i = if decide (i < n)%nat then p !! (off + i)%nat else None.
Proof.
  unfold field. case_decide.
  - by rewrite lookup_take_lt, lookup_drop by done.
  - by rewrite lookup_take_ge by lia.
Qed.
Lemma lookup_store p off bs i :
  (off + length bs <= length p)%nat →
  store p off bs !! i = if decide (off <= i < off + length bs)%nat then bs !! (i - off)%nat else p !! i.
Proof.
  intros Hl. unfold store. destruct (decide (i < off)%nat) as [Hi|Hi].
  - rewrite lookup_app_l by (rewrite length_take; lia). rewrite lookup_take_lt by done.
    by rewrite decide_False by lia.
  - rewrite lookup_app_r, length_take_le by (rewrite ?length_take; lia).
    case_decide.
    + by rewrite lookup_app_l by lia.
    + rewrite lookup_app_r, lookup_drop by lia. f_equal. lia.
Qed.
Lemma field_store_same p off bs n :
  length bs = n → (off + n <= length p)%nat → field (store p off bs) off n = bs.
Proof.
  intros <- Hl. apply list_eq. intros i. rewrite lookup_field. case_decide.
  - rewrite lookup_store, decide_True by lia. f_equal. lia.
  - by rewrite lookup_ge_None_2 by lia.
Qed.
Lemma field_store_other p off bs off' n :
  (off + length bs <= length p)%nat → (off' + n <= off ∨ off + length bs <= off')%nat →
  field (store p off bs) off' n = field p off' n.
Proof.
  intros Hl Hd. apply list_eq. intros i. rewrite !lookup_field. case_decide; [|done].
  rewrite lookup_store, decide_False by lia. done.
Qed.
Lemma drop_store p off bs n :
  (off + length bs <= n)%nat → (off + length bs <= length p)%nat → drop n (store p off bs) = drop n p.
Proof.
  intros Hn Hl. apply list_eq. intros i. rewrite !lookup_drop, lookup_store, decide_False by lia. done.
Qed.
(** A field of a field. *)
Lemma field_field p off n off' n' :
  (off' + n' <= n)%nat → field (field p off n) off' n' = field p (off + off') n'.
Proof.
  intros Hl. apply list_eq. intros i. rewrite !lookup_field. case_decide; [|done].
  rewrite decide_True by lia. f_equal. lia.
Qed.
Lemma length_field p off n : (off + n <= length p)%nat → length (field p off n) = n.
Proof. intros. unfold field. rewrite length_take, length_drop. lia. Qed.
Lemma Forall_field (P : Z → Prop) p off n : Forall P p → Forall P (field p off n).
Proof. intros. by apply Forall_take_drop. Qed.
Lemma Forall_store (P : Z → Prop) p off bs : Forall P p → Forall P bs → Forall P (store p off bs).
Proof. intros. unfold store. rewrite !Forall_app. split_and!; [by apply Forall_take|done|by apply Forall_drop]. Qed.
Lemma load_Done p off n : (off + n <= length p)%nat → load p off n = Done (field p off n).
Proof. intros. unfold load. by rewrite decide_True. Qed.
Lemma storeM_Done p off bs : (off + length bs <= length p)%nat → storeM p off bs = Done (store p off bs).
Proof. intros. unfold storeM. by rewrite decide_True. Qed.
#[export] Hint Resolve Forall_field Forall_store : udplb.

(** ** Little-endian values *)

Lemma le_combine_range bs : Forall is_byte bs → 0 <= le_combine bs < 256 ^ Z.of_nat (length bs).
Proof.
  induction 1 as [|b bs Hb _ IH]; simpl length; [simpl; lia|].
  rewrite Nat2Z.inj_succ, Z.pow_succ_r by lia. simpl. unfold is_byte in Hb. nia.
Qed.
Lemma le_combine_inj bs bs' :
  length bs = length bs' → Forall is_byte bs → Forall is_byte bs' →
  le_combine bs = le_combine bs' → bs = bs'.
Proof.
  revert bs'. induction bs as [|b bs IH]; intros [|b' bs'] Hl Hb Hb'; try done.
  apply Forall_cons in Hb as [Hb Hbs], Hb' as [Hb' Hbs']. simpl. intros He.
  unfold is_byte in *. assert (b = b' ∧ le_combine bs = le_combine bs') as [-> He'] by lia.
  f_equal. apply IH; [by injection Hl|done..].
Qed.
Lemma is_byte_mod x : is_byte (x `mod` 256).
Proof. apply Z.mod_pos_bound. lia. Qed.
Lemma PutUint32LE_bytes v : Forall is_byte (PutUint32LE v).
Proof. unfold PutUint32LE. repeat constructor; apply is_byte_mod. Qed.
Lemma le16_bytes v : Forall is_byte (le16 v).
Proof. unfold le16. repeat constructor; apply is_byte_mod. Qed.
Lemma le_combine_PutUint32LE v : is_u32 v → le_combine (PutUint32LE v) = v.
Proof.
  unfold is_u32, PutUint32LE, le_combine. simpl foldr. intros Hv.
  change (2 ^ 8) with 256. change (2 ^ 16) with (256 * 256). change (2 ^ 24) with (256 * 256 * 256).
  rewrite <-!Z.div_div by lia. change (2 ^ 32) with (256 * 256 * 256 * 256) in Hv.
  Z.div_mod_to_equations. lia.
Qed.
Lemma le_combine_le16 v : is_u16 v → le_combine (le16 v) = v.
Proof. unfold is_u16, le16, le_combine. simpl foldr. intros Hv. Z.div_mod_to_equations. lia. Qed.
Lemma htons_range v : is_u16 (htons v).
Proof. unfold htons, is_u16. pose proof (is_byte_mod v). pose proof (is_byte_mod (v `div` 256)). unfold is_byte in *. lia. Qed.
Lemma htons_involutive v : is_u16 v → htons (htons v) = v.
Proof. unfold htons, is_u16. intros Hv. Z.div_mod_to_equations. lia. Qed.
(** The port on the wire, most significant byte first. *)
Lemma le16_htons v : is_u16 v → le16 (htons v) = [v `div` 256; v `mod` 256].
Proof. unfold htons, is_u16, le16. intros Hv. f_equal; [|f_equal]; Z.div_mod_to_equations; lia. Qed.

(** Comparing a loaded value with a constant is comparing bytes. *)
Lemma field_is_value p off n bs v :
  length bs = n → (off + n <= length p)%nat → Forall is_byte p → Forall is_byte bs → le_combine bs = v →
  le_combine (field p off n) = v ↔ field p off n = bs.
Proof.
  intros Hlen Hl Hp Hbs <-. split; [|by intros ->].
  apply le_combine_inj; [by rewrite length_field|by apply Forall_field|done].
Qed.

(** ** Which frames are taken *)

Lemma must_loadbalance_run p ip port :
  Forall is_byte p → is_u32 ip → is_u16 port →
  must_loadbalance p ip port = Done (bool_decide (balanced ip port p)).
Proof.
  intros Hp Hip Hport. unfold must_loadbalance, load_le, past.
  destruct (decide (62 <= length p)%nat) as [Hl|Hl].
  - rewrite !(bool_decide_false (_ < _)%nat) by lia. rewrite !load_Done by frame_lia. cbn [mbind go_bind].
    pose proof (field_is_value p off_h_proto 2 [8; 0] (htons ETH_P_IP) eq_refl) as H1.
    pose proof (field_is_value p off_daddr 4 (PutUint32LE ip) ip eq_refl) as H2.
    pose proof (field_is_value p off_protocol 1 [IPPROTO_UDP] IPPROTO_UDP eq_refl) as H3.
    pose proof (field_is_value p off_udp_dest 2 (le16 (htons port)) (htons port) eq_refl) as H4.
    pose proof (field_is_value p off_prefix 4 prefix_bytes UDPLB_PACKET_PREFIX eq_refl) as H5.
    specialize (H1 ltac:(frame_lia) Hp ltac:(bytes_lit) eq_refl).
    specialize (H2 ltac:(frame_lia) Hp (PutUint32LE_bytes ip) (le_combine_PutUint32LE ip Hip)).
    specialize (H3 ltac:(frame_lia) Hp ltac:(bytes_lit) eq_refl).
    specialize (H4 ltac:(frame_lia) Hp (le16_bytes _) (le_combine_le16 _ (htons_range _))).
    specialize (H5 ltac:(frame_lia) Hp ltac:(bytes_lit) eq_refl).
    rewrite (le16_htons port) in H4 by done.
    repeat (case_decide; [rewrite bool_decide_false by (unfold balanced; naive_solver); done|]).
    rewrite bool_decide_true by (unfold balanced; split_and!; naive_solver). done.
  - rewrite (bool_decide_false (balanced ip port p)) by (intros [? _]; lia).
    repeat match goal with
    | |- (if bool_decide (length p < ?n)%nat then _ else _) = _ => case_bool_decide; [done|]
    | |- context [load p ?o ?n] => rewrite (load_Done p o n) by frame_lia; cbn [mbind go_bind]
    | |- (if decide _ then _ else _) = _ => case_decide; [done|]
    end. lia.
Qed.

(** ** Checksums *)

Lemma csum_fold_eq c : csum_fold c = c `mod` 65536 + c `div` 65536.
Proof. unfold csum_fold. change 0xffff with (Z.ones 16). by rewrite Z.land_ones, Z.shiftr_div_pow2 by lia. Qed.
Lemma csum_fold_congruent c : csum_fold c `mod` 65535 = c `mod` 65535.
Proof.
  rewrite csum_fold_eq.
  rewrite (Z.div_mod c 65536) at 3 by lia.
  replace (65536 * (c `div` 65536) + c `mod` 65536)
    with (c `mod` 65536 + c `div` 65536 + (c `div` 65536) * 65535) by lia.
  by rewrite Z.mod_add by lia.
Qed.
Lemma csum_fold_bounds c : 0 <= c → 0 <= csum_fold c ∧ (csum_fold c = 0 → c = 0).
Proof. intros Hc. rewrite csum_fold_eq. Z.div_mod_to_equations. lia. Qed.

(** Four foldings of a 32-bit sum leave sixteen bits, congruent to the sum,
    and not zero unless the sum was. *)
Lemma csum_folded c :
  0 <= c < 2 ^ 32 →
  let f := Nat.iter 4 csum_fold c in
  0 <= f <= 65535 ∧ f `mod` 65535 = c `mod` 65535 ∧ (f = 0 → c = 0).
Proof.
  intros Hc f. unfold f. simpl.
  split_and!; [| |by rewrite !csum_fold_congruent|].
  - repeat (apply csum_fold_bounds); lia.
  - rewrite !csum_fold_eq. Z.div_mod_to_equations. lia.
  - intros H0. repeat (apply csum_fold_bounds in H0; [|repeat (apply csum_fold_bounds); lia]). done.
Qed.

Lemma onec_sum_spec ws a :
  0 <= a <= 65535 → Forall is_u16 ws →
  let s := foldl onec_add a ws in
  0 <= s <= 65535 ∧ s `mod` 65535 = (a + zsum ws) `mod` 65535 ∧ (s = 0 → a + zsum ws = 0).
Proof.
  revert a. induction ws as [|w ws IH]; intros a Ha Hws; simpl; [by rewrite Z.add_0_r|].
  apply Forall_cons in Hws as [Hw Hws]. unfold is_u16 in Hw.
  assert (Hr : 0 <= onec_add a w <= 65535).
  { unfold onec_add. rewrite csum_fold_eq. Z.div_mod_to_equations. lia. }
  destruct (IH (onec_add a w) Hr Hws) as (Hs & Hm & Hz). split_and!; [lia..| |].
  - rewrite Hm, <-Z.add_mod_idemp_l by lia. unfold onec_add.
    rewrite csum_fold_congruent, Z.add_mod_idemp_l by lia. f_equal. unfold zsum. simpl. lia.
  - intros H0. specialize (Hz H0).
    assert (0 <= zsum ws).
    { clear -Hws. unfold zsum. induction Hws as [|x l Hx _ IHl]; simpl; [lia|]. unfold is_u16 in Hx. lia. }
    assert (Hoz : csum_fold (a + w) = 0) by (unfold onec_add in *; lia).
    apply csum_fold_bounds in Hoz; [|lia]. fold (zsum ws). lia.
Qed.
Lemma words16_range bs : Forall is_byte bs → Forall is_u16 (words16 bs).
Proof.
  revert bs. fix IH 1. intros [|b0 [|b1 bs]] Hb; simpl; [done..|].
  rewrite !Forall_cons in Hb. destruct Hb as (H0 & H1 & Hb). constructor; [|by apply IH].
  unfold is_byte, is_u16 in *. lia.
Qed.
(** A non-zero sum that is a multiple of 65535 is the all-ones word. *)
Lemma valid_checksum_sum hdr :
  Forall is_byte hdr → 0 < zsum (words16 hdr) → zsum (words16 hdr) `mod` 65535 = 0 → valid_checksum hdr.
Proof.
  intros Hb Hpos Hm. destruct (onec_sum_spec (words16 hdr) 0 ltac:(lia) (words16_range _ Hb)) as (Hr & Hs & Hz).
  unfold valid_checksum. rewrite Z.add_0_l in *. rewrite Hm in Hs.
  revert Hr Hs Hz. generalize (foldl onec_add 0 (words16 hdr)). intros s Hr Hs Hz.
  destruct (decide (s = 65535)) as [->|Hne]; [done|].
  rewrite Z.mod_small in Hs by lia. specialize (Hz Hs). lia.
Qed.

(** The twenty bytes of a header with its checksum field cleared and set. *)
Lemma zsum_header hdr a b :
  length hdr = 20%nat →
  zsum (words16 (store hdr 10 [a; b])) = zsum (words16 (store hdr 10 [0; 0])) + (a + 256 * b).
Proof.
  intros Hl. do 20 (destruct hdr as [|? hdr]; [done|]). destruct hdr; [|done].
  unfold store. simpl. unfold zsum. simpl. lia.
Qed.
Lemma csum_valid `{!CsumDiff} hdr :
  length hdr = 20%nat → Forall is_byte hdr →
  is_u16 (csum (store hdr 10 [0; 0])) ∧
  (0 < zsum (words16 (store hdr 10 [0; 0])) →
   valid_checksum (store hdr 10 (le16 (csum (store hdr 10 [0; 0]))))).
Proof.
  intros Hl Hb. set (h0 := store hdr 10 [0; 0]).
  assert (H0 : Forall is_byte h0).
  { apply Forall_store; [done|]. repeat constructor; unfold is_byte; lia. }
  destruct (csum_folded (bpf_csum_diff h0) (csum_diff_range h0 H0)) as (Hr & Hm & Hz).
  set (f := Nat.iter 4 csum_fold (bpf_csum_diff h0)) in *.
  assert (Hc : csum h0 = 65535 - f).
  { unfold csum, u16, wrap, Z.lnot. fold f. replace (Z.pred (- f)) with (65535 - f + (-1) * 2 ^ 16) by lia.
    rewrite Z.mod_add by lia. apply Z.mod_small. lia. }
  split; [rewrite Hc; unfold is_u16; lia|]. intros Hpos.
  set (c := csum h0) in *.
  pose proof (zsum_header hdr (c `mod` 256) ((c `div` 256) `mod` 256) Hl) as Hsum. fold h0 in Hsum.
  assert (Hle : c `mod` 256 + 256 * ((c `div` 256) `mod` 256) = c).
  { pose proof (le_combine_le16 c) as He. unfold le_combine, le16 in He. simpl in He.
    rewrite Z.add_0_r in He. apply He. unfold is_u16. lia. }
  rewrite Hle in Hsum. fold (le16 c) in Hsum.
  assert (Hbytes : Forall is_byte (store hdr 10 (le16 c))) by (apply Forall_store; [done|apply le16_bytes]).
  apply valid_checksum_sum; [done|rewrite Hsum; lia|]. rewrite Hsum.
  rewrite csum_diff_sum in Hm by done. rewrite Hc.
  replace (zsum (words16 h0) + (65535 - f)) with (zsum (words16 h0) - f + 1 * 65535) by lia.
  rewrite Z.mod_add by lia. rewrite Zminus_mod, Hm, Z.sub_diag. done.
Qed.

(** ** Rewriting a frame *)

(** What a write leaves. *)
Record stored (p : list Z) (off : nat) (bs p' : list Z) : Prop := {
  st_eq : p' = store p off bs;
  st_length : length p' = length p;
  st_bytes : Forall is_byte p → Forall is_byte bs → Forall is_byte p';
  st_same : field p' off (length bs) = bs;
  st_other : ∀ off' n, (off' + n <= off ∨ off + length bs <= off')%nat → field p' off' n = field p off' n;
  st_drop : ∀ n, (off + length bs <= n)%nat → drop n p' = drop n p
}.
Lemma storeM_stored p off bs : (off + length bs <= length p)%nat → returns (storeM p off bs) (stored p off bs).
Proof.
  intros Hl. rewrite storeM_Done by done. apply returns_done.
  split; [done|by apply length_store|by apply Forall_store|by apply field_store_same| |].
  - intros off' n Hd. by apply field_store_other.
  - intros n Hn. by apply drop_store.
Qed.
Lemma stored_field p off bs p' n : stored p off bs p' → length bs = n → field p' off n = bs.
Proof. intros [] <-. done. Qed.
Lemma field_store_inside p off n off' bs :
  (off + n <= length p)%nat → (off' + length bs <= n)%nat →
  field (store p (off + off') bs) off n = store (field p off n) off' bs.
Proof.
  intros Hl Hi. apply list_eq. intros i. rewrite lookup_field.
  rewrite !lookup_store by (rewrite ?length_field by done; lia). rewrite lookup_field.
  repeat case_decide; try lia; try done.
  f_equal. lia.
Qed.
Lemma store_store p off bs bs' :
  length bs = length bs' → (off + length bs <= length p)%nat → store (store p off bs) off bs' = store p off bs'.
Proof.
  intros He Hl. apply list_eq. intros i.
  rewrite !lookup_store by (rewrite ?length_store by done; lia). repeat case_decide; try lia; done.
Qed.

(** Follows a field back through the writes that leave it alone. *)
Ltac field_back :=
  repeat match goal with
  | H : stored _ _ _ ?p' |- context [field ?p' ?o ?n] =>
      rewrite (st_other _ _ _ _ H o n) by frame_lia
  | H : stored _ ?o ?bs ?p' |- context [field ?p' ?o ?n] =>
      rewrite (stored_field _ _ _ _ n H) by frame_lia
  end.

Lemma header_sum_positive hdr : length hdr = 20%nat → Forall is_byte hdr → field hdr 9 1 = [IPPROTO_UDP] →
  0 < zsum (words16 (store hdr 10 [0; 0])).
Proof.
  intros Hl Hb Hf. do 20 (destruct hdr as [|? hdr]; [done|]). destruct hdr; [|done].
  rewrite !Forall_cons in Hb. unfold is_byte in Hb. injection Hf as ->.
  unfold store. simpl. unfold zsum, IPPROTO_UDP. simpl. lia.
Qed.

(** The frame after the TTL and the addresses were written. *)
Record readdressed (config : udplbConfigT) (b : udplbBackendSpecT) (p p' : list Z) : Prop := {
  ra_bytes : Forall is_byte p';
  ra_length : length p' = length p;
  ra_h_dest : field p' off_h_dest 6 = bMac b;
  ra_h_source : field p' off_h_source 6 = cfgMac config;
  ra_kept : ∀ o n, (12 <= o ∧ o + n <= 22 ∨ 23 <= o ∧ o + n <= 30 ∨ 34 <= o ∧ o + n <= 36 ∨ 38 <= o)%nat →
    field p' o n = field p o n;
  ra_ttl : field p' off_ttl 1 = [ttl_of p - 1];
  ra_daddr : field p' off_daddr 4 = PutUint32LE (bIp b);
  ra_dport : field p' off_udp_dest 2 = [bPort b `div` 256; bPort b `mod` 256];
  ra_payload : drop 42 p' = drop 42 p
}.
Lemma rewrite_addresses_run config b p p1 :
  config_ok config → backend_ok b → Forall is_byte p → 1 < ttl_of p → (62 <= length p)%nat →
  stored p off_ttl [ttl_of p - 1] p1 →
  returns (rewrite_addresses config b p1) (readdressed config b p).
Proof.
  intros (_ & _ & Hml & Hmb) (_ & Hip & Hport & Hbl & Hbb) Hp Httl Hl H1.
  assert (Ht : Forall is_byte [ttl_of p - 1]).
  { pose proof (le_combine_range (field p off_ttl 1) (Forall_field _ _ _ _ Hp)) as Hr. fold (ttl_of p) in Hr.
    rewrite length_field in Hr by frame_lia. constructor; [|done]. unfold is_byte. lia. }
  pose proof (st_length _ _ _ _ H1) as L1. pose proof (st_bytes _ _ _ _ H1 Hp Ht) as B1.
  unfold rewrite_addresses.
  eapply returns_bind; [apply storeM_stored; rewrite Hml; frame_lia|]. intros p2 H2.
  pose proof (st_length _ _ _ _ H2) as L2. pose proof (st_bytes _ _ _ _ H2 B1 Hmb) as B2.
  eapply returns_bind; [apply storeM_stored; rewrite Hbl; frame_lia|]. intros p3 H3.
  pose proof (st_length _ _ _ _ H3) as L3. pose proof (st_bytes _ _ _ _ H3 B2 Hbb) as B3.
  eapply returns_bind; [apply storeM_stored; frame_lia|]. intros p4 H4.
  pose proof (st_length _ _ _ _ H4) as L4. pose proof (st_bytes _ _ _ _ H4 B3 (PutUint32LE_bytes _)) as B4.
  eapply returns_mono; [apply storeM_stored; frame_lia|]. intros p5 H5.
  split.
  - apply (st_bytes _ _ _ _ H5 B4), le16_bytes.
  - rewrite (st_length _ _ _ _ H5). congruence.
  - field_back. done.
  - field_back. done.
  - intros o n Ho. rewrite (st_other _ _ _ _ H5), (st_other _ _ _ _ H4), (st_other _ _ _ _ H3),
      (st_other _ _ _ _ H2), (st_other _ _ _ _ H1) by frame_lia. done.
  - field_back. done.
  - field_back. done.
  - field_back. by apply le16_htons.
  - rewrite (st_drop _ _ _ _ H5), (st_drop _ _ _ _ H4) by frame_lia.
    rewrite (st_drop _ _ _ _ H3), (st_drop _ _ _ _ H2) by (rewrite ?Hbl, ?Hml; frame_lia).
    by rewrite (st_drop _ _ _ _ H1) by frame_lia.
Qed.

Lemma rewrite_checksums_run `{!CsumDiff} p :
  Forall is_byte p → (62 <= length p)%nat → field p off_protocol 1 = [IPPROTO_UDP] →
  returns (rewrite_checksums p) (λ p', Forall is_byte p' ∧ length p' = length p ∧
    (∀ o n, (o + n <= 24 ∨ 26 <= o ∧ o + n <= 40 ∨ 42 <= o)%nat → field p' o n = field p o n) ∧
    field p' off_udp_check 2 = [0; 0] ∧ drop 42 p' = drop 42 p ∧ valid_checksum (field p' off_iph 20)).
Proof.
  intros Hb Hl Hproto. set (hdr := field p off_iph 20).
  assert (Hhl : length hdr = 20%nat) by (apply length_field; frame_lia).
  assert (Hhb : Forall is_byte hdr) by by apply Forall_field.
  unfold rewrite_checksums.
  eapply (returns_bind _ _ (λ r, stored p off_ip_check [0; 0] r.1 ∧ r.2 = csum (store hdr 10 [0; 0]))).
  { unfold iphdr_csum. eapply returns_bind; [apply storeM_stored; frame_lia|]. intros p6 H6.
    rewrite load_Done by (rewrite (st_length _ _ _ _ H6); frame_lia). cbn [mbind go_bind]. apply returns_done.
    split; [done|]. simpl. f_equal. rewrite (st_eq _ _ _ _ H6).
    apply (field_store_inside p off_iph 20 10); frame_lia. }
  intros [p6 check] [H6 Hc]. simpl in H6, Hc. subst check.
  pose proof (st_length _ _ _ _ H6) as L6. pose proof (st_bytes _ _ _ _ H6 Hb ltac:(bytes_lit)) as B6.
  eapply returns_bind; [apply storeM_stored; frame_lia|]. intros p7 H7.
  pose proof (st_length _ _ _ _ H7) as L7. pose proof (st_bytes _ _ _ _ H7 B6 (le16_bytes _)) as B7.
  eapply returns_mono; [apply storeM_stored; frame_lia|]. intros p8 H8. split_and!.
  - apply (st_bytes _ _ _ _ H8 B7). bytes_lit.
  - rewrite (st_length _ _ _ _ H8). congruence.
  - intros o n Ho. rewrite (st_other _ _ _ _ H8), (st_other _ _ _ _ H7), (st_other _ _ _ _ H6) by frame_lia. done.
  - field_back. done.
  - rewrite (st_drop _ _ _ _ H8), (st_drop _ _ _ _ H7), (st_drop _ _ _ _ H6) by frame_lia. done.
  - rewrite (st_other _ _ _ _ H8) by frame_lia.
    rewrite (st_eq _ _ _ _ H7), (st_eq _ _ _ _ H6), store_store by frame_lia.
    rewrite (field_store_inside p off_iph 20 10) by frame_lia. apply csum_valid; [done..|].
    apply header_sum_positive; [done..|]. unfold hdr. by rewrite field_field by lia.
Qed.

(** Both, on a frame whose TTL was already decremented. *)
Lemma rewrite_forwarded `{!CsumDiff} config b p p1 :
  config_ok config → backend_ok b → Forall is_byte p → 1 < ttl_of p → (62 <= length p)%nat →
  field p off_protocol 1 = [IPPROTO_UDP] → stored p off_ttl [ttl_of p - 1] p1 →
  returns (p2 ← rewrite_addresses config b p1; rewrite_checksums p2) (forwarded config b p).
Proof.
  intros Hc Hb Hp Ht Hl Hpr H1.
  eapply returns_bind; [by apply rewrite_addresses_run|]. intros p2 [].
  eapply returns_mono; [apply rewrite_checksums_run; [done|frame_lia|by rewrite ra_kept0 by frame_lia]|].
  intros p3 (Hb3 & Hl3 & Hk & Hu & Hd & Hv).
  split; rewrite ?Hk by frame_lia; try done; try congruence; by rewrite ra_kept0 by frame_lia.
Qed.

(** ** One run of the program *)

Lemma array_ok_lookup {V} (P : V → Prop) a i v : array_ok P a → array_lookup a i = Some v → P v.
Proof.
  intros [Hz Hc]. unfold array_lookup. case_decide; [|done]. intros [= <-].
  destruct (cells a !! i) as [v|] eqn:E; simpl; [by eapply Hc|done].
Qed.
Lemma active_list_ok ap k : maps_ok k → array_ok backend_ok (get_active_backend_list ap k).
Proof. intros []. unfold get_active_backend_list. by case_decide. Qed.
Lemma active_table_ok ap k : maps_ok k → array_ok is_u32 (get_active_lookup_table ap k).
Proof. intros []. unfold get_active_lookup_table. by case_decide. Qed.
Lemma active_sessions_ok ap k : maps_ok k → map_Forall (λ sid i, is_uuid sid ∧ is_u32 i) (get_active_sessions ap k).
Proof. intros []. unfold get_active_sessions. by case_decide. Qed.

Lemma udplb_run `{!CsumDiff} config env k p :
  config_ok config → maps_ok k → Forall is_byte p →
  returns (udplb config env k p) (outcome_of config env k p).
Proof.
  intros Hc Hk Hp. pose proof Hc as (Hip & Hport & _). unfold udplb, outcome_of, verdict_of, route.
  rewrite must_loadbalance_run by done. cbn [mbind go_bind].
  destruct (decide (balanced (cfgIp config) (cfgPort_ config) p)) as [Hb|Hb].
  2: { rewrite bool_decide_false by done. by apply returns_done. }
  rewrite bool_decide_true by done. cbn [negb]. destruct Hb as (Hl & _ & _ & Hpr & _).
  rewrite load_Done by frame_lia. cbn [mbind go_bind]. case_decide; [by apply returns_done|].
  unfold load_le. rewrite load_Done by frame_lia. cbn [mbind go_bind].
  change (le_combine (field p off_ttl 1)) with (ttl_of p). case_decide as Ht; [by apply returns_done|].
  eapply returns_bind; [apply storeM_stored; frame_lia|]. intros p1 H1.
  rewrite load_Done by (rewrite (st_length _ _ _ _ H1); frame_lia). cbn [mbind go_bind].
  rewrite (st_other _ _ _ _ H1) by frame_lia. fold (session_of p).
  destruct (match get_active_sessions _ _ !! _ with Some i => Some i | None => _ end) as [i|].
  2: { apply returns_done. by rewrite (st_eq _ _ _ _ H1). }
  destruct (array_lookup _ i) as [b|] eqn:Hlk.
  2: { apply returns_done. by rewrite (st_eq _ _ _ _ H1). }
  destruct (rewrite_forwarded config b p p1) as (p3 & Hrw & Hfw); try done; [|lia|].
  { eapply array_ok_lookup; [by apply (active_list_ok (ap_backends env))|done]. }
  destruct (rewrite_addresses config b p1) as [p2| | |]; try done. cbn [mbind go_bind] in *.
  rewrite Hrw. cbn [mbind go_bind]. by apply returns_done.
Qed.

(** The fields of the program's state keep their types. *)
Lemma session_of_uuid p : Forall is_byte p → (62 <= length p)%nat → is_uuid (session_of p).
Proof. intros. split; [apply length_field; frame_lia|by apply Forall_field]. Qed.
Lemma persist_ok env k sid i b :
  maps_ok k → is_uuid sid → is_u32 i → backend_ok b → maps_ok (persist env k sid i b).
Proof.
  intros Hk Hs Hi [Hid _]. unfold persist.
  assert (Hk1 : maps_ok (if reserve_ok env
      then submit_assignment k {| BackendId := bId b; SessionId := sid |} else k)).
  { destruct (reserve_ok env); [|done]. destruct Hk. split; try done. simpl. rewrite Forall_app. auto. }
  revert Hk1. generalize (if reserve_ok env
      then submit_assignment k {| BackendId := bId b; SessionId := sid |} else k). intros k1 Hk1.
  destruct (update_ok env); [|done].
  pose proof (active_sessions_ok (ap_sessions env) k1 Hk1) as Hact. destruct Hk1.
  split; simpl; try done; case_decide; try done; by apply map_Forall_insert_2.
Qed.
Lemma route_u32 config env k sid i : maps_ok k → route config env k sid = Some i → is_u32 i.
Proof.
  intros Hk. unfold route. destruct (get_active_sessions _ _ !! sid) as [j|] eqn:E.
  - intros [= <-]. eapply (active_sessions_ok (ap_sessions env)); [done|exact E].
  - intros H. eapply array_ok_lookup; [by apply (active_table_ok (ap_lookup env))|done].
Qed.

Lemma verdict_forward config env k p i b :
  verdict_of config env k p = Forward i b →
  balanced (cfgIp config) (cfgPort_ config) p ∧ field p off_h_source 6 ≠ cfgMac config ∧ 1 < ttl_of p ∧
  route config env k (session_of p) = Some i ∧
  array_lookup (get_active_backend_list (ap_backends env) k) i = Some b.
Proof.
  unfold verdict_of. do 3 (case_decide; try done).
  destruct (route _ _ _ _) as [j|]; [|done]. destruct (array_lookup _ j) as [b'|] eqn:E; [|done].
  intros [= <- <-]. split_and!; try done. lia.
Qed.

Lemma udplb_typed `{!CsumDiff} config env k p :
  config_ok config → maps_ok k → Forall is_byte p →
  returns (udplb config env k p) (λ '(_, k', p'), maps_ok k' ∧ Forall is_byte p' ∧ length p' = length p).
Proof.
  intros Hc Hk Hp. eapply returns_mono; [by apply udplb_run|]. intros [[act k'] p']. unfold outcome_of.
  destruct (verdict_of config env k p) as [| | | |i b] eqn:Hv; [naive_solver..| |].
  - intros (_ & -> & ->). unfold verdict_of in Hv. case_decide as Hb; [|done]. destruct Hb as (Hl & _).
    pose proof (le_combine_range (field p off_ttl 1) (Forall_field _ _ _ _ Hp)) as Hr. fold (ttl_of p) in Hr.
    rewrite length_field in Hr by frame_lia.
    case_decide; [done|]. case_decide as Ht; [done|]. split_and!; [done| |by rewrite length_store by frame_lia].
    apply Forall_store; [done|]. constructor; [|done]. unfold is_byte. lia.
  - intros (_ & Hf & ->). destruct (verdict_forward _ _ _ _ _ _ Hv) as ((Hl & _) & _ & _ & Hr & Hlk).
    split_and!; [|apply Hf..]. destruct (get_active_sessions _ _ !! _); [done|].
    apply persist_ok; [done|by apply session_of_uuid|by eapply route_u32|].
    eapply array_ok_lookup; [by apply (active_list_ok (ap_backends env))|done].
Qed.

(** ** Runs over many frames *)

(** The three reads of [active_pointer] agree on [ap]. *)
Definition steady (ap : Z) (env : xdp_env) : Prop :=
  ap_backends env = ap ∧ ap_lookup env = ap ∧ ap_sessions env = ap.

Definition xdp_step `{!CsumDiff} (config : udplbConfigT) (k : maps) (x : xdp_env * list Z) : go maps :=
  '(_, k', _) ← udplb config x.1 k x.2; Done k'.
Definition xdp_run `{!CsumDiff} (config : udplbConfigT) (k : maps) (l : list (xdp_env * list Z)) : go maps :=
  foldM (xdp_step config) l k.

(** Persisting the route of a session changes nobody's route. *)
Lemma persist_active env k sid i b ap :
  ap_sessions env = ap →
  get_active_backend_list ap (persist env k sid i b) = get_active_backend_list ap k ∧
  get_active_lookup_table ap (persist env k sid i b) = get_active_lookup_table ap k ∧
  get_active_sessions ap (persist env k sid i b) =
    if update_ok env then <[sid := i]> (get_active_sessions ap k) else get_active_sessions ap k.
Proof.
  intros <-. unfold persist, get_active_backend_list, get_active_lookup_table, get_active_sessions.
  destruct (reserve_ok env), (update_ok env); simpl; repeat case_decide; done.
Qed.

(** Two states that decide alike on every frame. *)
Definition same_verdicts (config : udplbConfigT) (ap : Z) (k k' : maps) : Prop :=
  ∀ env p, steady ap env → verdict_of config env k' p = verdict_of config env k p.
#[export] Instance same_verdicts_equiv config ap : Equivalence (same_verdicts config ap).
Proof.
  split; [done|by intros k k' H env p Hs; rewrite H|].
  intros k1 k2 k3 H12 H23 env p Hs. by rewrite H23, H12.
Qed.

Lemma persist_verdicts config env k p i b ap :
  steady ap env → get_active_sessions ap k !! session_of p = None →
  route config env k (session_of p) = Some i →
  same_verdicts config ap k (persist env k (session_of p) i b).
Proof.
  intros (_ & Hl & Hs) Hnew Hr env' p' (Hb' & Hl' & Hs').
  destruct (persist_active env k (session_of p) i b ap Hs) as (Eb & El & Es).
  unfold verdict_of. rewrite Hb', Eb.
  replace (route config env' (persist env k (session_of p) i b) (session_of p'))
    with (route config env' k (session_of p')); [done|].
  unfold route in *. rewrite Hl', Hs', El, Es. rewrite Hl, Hs, Hnew in Hr.
  destruct (update_ok env); [|done]. destruct (decide (session_of p = session_of p')) as [<-|Hne].
  - by rewrite lookup_insert_eq, Hnew, Hr.
  - by rewrite lookup_insert_ne.
Qed.

Lemma xdp_step_verdicts `{!CsumDiff} config k x ap :
  config_ok config → maps_ok k → Forall is_byte x.2 → steady ap x.1 →
  returns (xdp_step config k x) (λ k', maps_ok k' ∧ same_verdicts config ap k k').
Proof.
  intros Hc Hk Hp Hs. unfold xdp_step.
  eapply returns_bind; [apply returns_and; [by apply udplb_run|by apply udplb_typed]|].
  intros [[act k'] p'] [Ho (Hk' & _)]. apply returns_done. split; [done|]. unfold outcome_of in Ho.
  destruct (verdict_of config x.1 k x.2) as [| | | |i b] eqn:Hv;
    [destruct Ho as (_ & -> & _); reflexivity..|].
  destruct Ho as (_ & _ & ->). destruct (verdict_forward _ _ _ _ _ _ Hv) as (_ & _ & _ & Hr & _).
  pose proof Hs as (_ & _ & Hss). rewrite Hss.
  destruct (get_active_sessions ap k !! session_of x.2) eqn:E; [reflexivity|]. by apply persist_verdicts.
Qed.

Lemma xdp_run_verdicts `{!CsumDiff} config k l ap :
  config_ok config → maps_ok k → Forall (λ x, Forall is_byte x.2 ∧ steady ap x.1) l →
  returns (xdp_run config k l) (λ k', maps_ok k' ∧ same_verdicts config ap k k').
Proof.
  intros Hc Hk Hl. apply (returns_foldM _ (λ k', maps_ok k' ∧ same_verdicts config ap k k')); [by split|].
  intros k1 x Hx [Hk1 Hv1]. rewrite Forall_forall in Hl. destruct (Hl x Hx) as [Hp Hs].
  eapply returns_mono; [by apply (xdp_step_verdicts config k1 x ap)|].
  intros k2 [Hk2 Hv2]. split; [done|]. by etrans.
Qed.

(** ** A concrete kernel *)

(** The fully folded sum, as recent kernels return it. *)
Definition folded_sum (s : Z) : Z := if decide (s = 0) then 0 else (s - 1) `mod` 65535 + 1.
Lemma words16_nonneg bs : Forall is_byte bs → 0 <= zsum (words16 bs).
Proof.
  intros Hb. pose proof (words16_range bs Hb) as Hw. unfold zsum.
  induction Hw as [|w ws Hw _ IH]; simpl; [lia|]. unfold is_u16 in Hw. lia.
Qed.
Definition folded_csum : CsumDiff.
Proof.
  refine {| bpf_csum_diff := λ bs, folded_sum (zsum (words16 bs)) |}; intros bs Hb; unfold folded_sum.
  - case_decide; [lia|]. pose proof (Z.mod_pos_bound (zsum (words16 bs) - 1) 65535). lia.
  - case_decide as H0; [by rewrite H0|]. rewrite Z.add_mod_idemp_l by lia. f_equal. lia.
  - case_decide; [done|]. pose proof (Z.mod_pos_bound (zsum (words16 bs) - 1) 65535). lia.
Defined.

(** A UDP datagram in an IPv4 packet in an Ethernet frame; the fields the
    program does not look at are arguments or zero. *)
Definition udp_frame (dmac smac src dst : list Z) (ttl sport dport : Z) (payload : list Z) : list Z :=
  let ulen := 8 + Z.of_nat (length payload) in
  dmac ++ smac ++ [8; 0] ++
  [0x45; 0; (20 + ulen) `div` 256; (20 + ulen) `mod` 256; 0; 0; 0; 0; ttl; IPPROTO_UDP; 0; 0] ++ src ++ dst ++
  [sport `div` 256; sport `mod` 256; dport `div` 256; dport `mod` 256; ulen `div` 256; ulen `mod` 256; 0; 0] ++
  payload.

Definition sample_config : udplbConfigT :=
  {| cfgIp := 10 + 200 * 2 ^ 24; cfgPort_ := 12345; LookupTableSize := 7; cfgMac := [2; 0; 0; 0; 0; 9] |}.
Definition sample_frame (sid : uuid) : list Z :=
  udp_frame [2; 0; 0; 0; 0; 9] [2; 0; 0; 0; 0; 5] [10; 0; 0; 100] [10; 0; 0; 200] 64 4000 12345
    (prefix_bytes ++ sid ++ [1; 2; 3]).
Definition spec_of (i : Z) : udplbBackendSpecT :=
  {| bId := replicate 16 i; bIp := 10 + i * 2 ^ 24; bPort := 8080; bMac := [2; 0; 0; 0; 1; i] |}.
Definition array_of {V} (a : bpf_array V) (l : list V) : bpf_array V :=
  {| max_entries := max_entries a; zero_value := zero_value a;
     cells := list_to_map (zip (Z.of_nat <$> seq 0 (length l)) l) |}.
Definition fresh_maps : maps :=
  {| backend_list_a := backend_list_t; backend_list_b := backend_list_t; lookup_table_a := lookup_table_t;
     lookup_table_b := lookup_table_t; session_map_a := ∅; session_map_b := ∅; assignment_ringbuf := [] |}.
Definition sample_maps : maps :=
  {| backend_list_a := array_of backend_list_t [spec_of 1; spec_of 2]; backend_list_b := backend_list_t;
     lookup_table_a := array_of lookup_table_t [0; 1; 0; 1; 0; 1; 0]; lookup_table_b := lookup_table_t;
     session_map_a := ∅; session_map_b := ∅; assignment_ringbuf := [] |}.
Definition env_at (ap : Z) : xdp_env :=
  {| ap_backends := ap; ap_lookup := ap; ap_sessions := ap; reserve_ok := true; update_ok := true |}.

Lemma zero_backend_ok : backend_ok zero_backend.
Proof. split_and!; [split; [done|]; bytes_lit|unfold is_u32; simpl; lia|unfold is_u16; simpl; lia|split; [done|]; bytes_lit]. Qed.
Lemma backend_list_t_ok : array_ok backend_ok backend_list_t.
Proof. split; [apply zero_backend_ok|apply map_Forall_empty]. Qed.
Lemma lookup_table_t_ok : array_ok is_u32 lookup_table_t.
Proof. split; [unfold is_u32; simpl; lia|apply map_Forall_empty]. Qed.
Lemma fresh_maps_ok : maps_ok fresh_maps.
Proof. split; simpl; try apply map_Forall_empty; try done; apply backend_list_t_ok || apply lookup_table_t_ok. Qed.
Lemma array_of_ok {V} (P : V → Prop) a l : array_ok P a → Forall P l → array_ok P (array_of a l).
Proof.
  intros [Hz _] Hl. split; [done|]. simpl. intros i v Hv%elem_of_list_to_map_2.
  apply elem_of_zip_r in Hv. rewrite Forall_forall in Hl. by apply Hl.
Qed.
Lemma sample_maps_ok : maps_ok sample_maps.
Proof.
  split; simpl; try apply map_Forall_empty; try done; try apply backend_list_t_ok; try apply lookup_table_t_ok.
  - apply array_of_ok; [apply backend_list_t_ok|]. repeat constructor; simpl; unfold is_byte; lia.
  - apply array_of_ok; [apply lookup_table_t_ok|]. repeat constructor; simpl; unfold is_byte; lia.
Qed.
Lemma sample_config_ok : config_ok sample_config.
Proof. split_and!; [unfold is_u32; simpl; lia|unfold is_u16; simpl; lia|split; [done|]; bytes_lit]. Qed.

(** * Properties *)


Lemma sample_frame_bytes : Forall is_byte (sample_frame (replicate 16 7)).
Proof. apply (bool_decide_unpack _). by vm_compute. Qed.



(** C15: session affinity in the data path. While the control plane installs
    nothing, whatever frames are processed in between and whether or not the
    sessions could be recorded, the program decides on every frame as it would
    have at the start: frames of one session all go to one backend. *)
Theorem xdp_affinity `{!CsumDiff} config k l ap :
  config_ok config → maps_ok k → Forall (λ x, Forall is_byte x.2 ∧ steady ap x.1) l →
  returns (xdp_run config k l) (λ k', ∀ env p, steady ap env →
    verdict_of config env k' p = verdict_of config env k p).
Proof. intros. eapply returns_mono; [by apply xdp_run_verdicts|]. by intros k1 [_ ?]. Qed.

Lemma xdp_affinity_witness :
  let l := [(env_at 0, sample_frame (replicate 16 7)); (env_at 0, sample_frame (replicate 16 7))] in
  returns (@xdp_run folded_csum sample_config sample_maps l) (λ k', ∀ env p, steady 0 env →
    verdict_of sample_config env k' p = verdict_of sample_config env sample_maps p).
Proof.
  intros l. apply (@xdp_affinity folded_csum);
    [apply sample_config_ok|apply sample_maps_ok|].
  constructor; [|constructor; [|done]]; (split; [apply sample_frame_bytes|done]).
Defined.

(** C32: no forwarding loop. A frame the program transmitted is never
    transmitted again when it comes back, in whatever state the tables are by
    then, even if the backend has the load balancer's own address. *)
Theorem no_forwarding_loop `{!CsumDiff} config env k p k1 p1 env' k' :
  config_ok config → maps_ok k → Forall is_byte p → udplb config env k p = Done (XDP_TX, k1, p1) → maps_ok k' →
  returns (udplb config env' k' p1) (λ '(act, k2, p2), act ≠ XDP_TX ∧ k2 = k' ∧ p2 = p1).
Proof.
  intros Hc Hk Hp Hu Hk'. destruct (udplb_run config env k p Hc Hk Hp) as (r & Hr & Ho).
  rewrite Hu in Hr. injection Hr as <-. unfold outcome_of in Ho.
  destruct (verdict_of config env k p) as [| | | |i b]; [naive_solver..|].
  destruct Ho as (_ & [] & _). eapply returns_mono; [by apply udplb_run|].
  intros [[act k2] p2]. unfold outcome_of, verdict_of.
  case_decide; [rewrite decide_True by done|]; intros (-> & -> & ->); done.
Qed.

Lemma no_forwarding_loop_witness : ∃ k1 p1,
  @udplb folded_csum sample_config (env_at 0) sample_maps (sample_frame (replicate 16 7)) = Done (XDP_TX, k1, p1) ∧
  returns (@udplb folded_csum sample_config (env_at 0) k1 p1) (λ '(act, k2, p2), act ≠ XDP_TX ∧ k2 = k1 ∧ p2 = p1).
Proof.
  destruct (@udplb_typed folded_csum sample_config (env_at 0) sample_maps (sample_frame (replicate 16 7))
    sample_config_ok sample_maps_ok sample_frame_bytes) as ([[act k1] p1] & Hu & Hk1 & _).
  assert (act = XDP_TX) as ->.
  { apply (f_equal (λ r, match r with Done (a, _, _) => a | _ => XDP_DROP end)) in Hu. by vm_compute in Hu. }
  exists k1, p1. split; [exact Hu|].
  apply (@no_forwarding_loop folded_csum sample_config (env_at 0) sample_maps (sample_frame (replicate 16 7)) k1 p1);
    [apply sample_config_ok|apply sample_maps_ok|apply sample_frame_bytes|exact Hu|exact Hk1].
Defined.

(** Before anything was installed (the program is attached first) the
    tables are not empty but zero: a session datagram is not passed to the
    stack, it is sent to the address 0.0.0.0 and its session is recorded for
    backend zero. *)
Theorem fresh_tables_forward `{!CsumDiff} config ap p :
  config_ok config → 0 < LookupTableSize config <= 2 ^ 16 → Forall is_byte p →
  balanced (cfgIp config) (cfgPort_ config) p → field p off_h_source 6 ≠ cfgMac config → 1 < ttl_of p →
  returns (udplb config (env_at ap) fresh_maps p) (λ '(act, k', p'),
    act = XDP_TX ∧ field p' off_daddr 4 = [0; 0; 0; 0] ∧
    get_active_sessions ap k' !! session_of p = Some 0).
Proof.
  intros Hc Hs Hp Hb Hm Ht. eapply returns_mono; [by apply udplb_run, Hp; [|apply fresh_maps_ok]|].
  intros [[act k'] p']. unfold outcome_of.
  assert (Hact : get_active_sessions ap fresh_maps = ∅) by (unfold get_active_sessions; by case_decide).
  assert (Hr : route config (env_at ap) fresh_maps (session_of p) = Some 0).
  { unfold route. simpl ap_sessions. simpl ap_lookup. rewrite Hact, lookup_empty.
    assert (get_active_lookup_table ap fresh_maps = lookup_table_t) as ->
      by (unfold get_active_lookup_table; by case_decide).
    unfold array_lookup, bpf_mod. rewrite (decide_False (P := LookupTableSize config = 0)) by lia.
    rewrite decide_True; [done|]. simpl.
    pose proof (Z.mod_pos_bound (fast_hash (session_of p)) (LookupTableSize config)). lia. }
  assert (Hv : verdict_of config (env_at ap) fresh_maps p = Forward 0 zero_backend).
  { unfold verdict_of. rewrite decide_True by done. rewrite decide_False by done. rewrite decide_False by lia.
    rewrite Hr. unfold get_active_backend_list. by case_decide. }
  rewrite Hv. simpl ap_sessions. rewrite Hact, lookup_empty. intros (-> & [] & ->). split_and!; [done|done|].
  destruct (persist_active (env_at ap) fresh_maps (session_of p) 0 zero_backend ap eq_refl) as (_ & _ & ->).
  simpl. apply lookup_insert_eq.
Qed.

Lemma fresh_tables_forward_witness :
  returns (@udplb folded_csum sample_config (env_at 0) fresh_maps (sample_frame (replicate 16 7)))
    (λ '(act, k', p'), act = XDP_TX ∧ field p' off_daddr 4 = [0; 0; 0; 0] ∧
       get_active_sessions 0 k' !! session_of (sample_frame (replicate 16 7)) = Some 0).
Proof.
  apply (@fresh_tables_forward folded_csum); [apply sample_config_ok|simpl; lia|apply sample_frame_bytes|..].
  - apply (bool_decide_unpack _). by vm_compute.
  - by vm_compute.
  - vm_compute. done.
Defined.

(** Variant [a] lists backends 1 and 2, variant [b] backend 2 only; the
    session belongs to backend 2 in both. *)
Definition switching_maps : maps :=
  {| backend_list_a := array_of backend_list_t [spec_of 1; spec_of 2];
     backend_list_b := array_of backend_list_t [spec_of 2];
     lookup_table_a := array_of lookup_table_t [0; 1; 0; 1; 0; 1; 0];
     lookup_table_b := lookup_table_t;
     session_map_a := {[ replicate 16 7 := 1 ]}; session_map_b := {[ replicate 16 7 := 0 ]};
     assignment_ringbuf := [] |}.

(** The program reads [active_pointer] once per structure. With the pointer
    steady at either value a session goes to backend 2; a switchover between
    the first read and the third sends it to backend 1, which never had it. *)
Theorem torn_read_misroutes :
  let p := sample_frame (replicate 16 7) in
  let torn := {| ap_backends := 0; ap_lookup := 0; ap_sessions := 1; reserve_ok := true; update_ok := true |} in
  verdict_of sample_config (env_at 0) switching_maps p = Forward 1 (spec_of 2) ∧
  verdict_of sample_config (env_at 1) switching_maps p = Forward 0 (spec_of 2) ∧
  verdict_of sample_config torn switching_maps p = Forward 0 (spec_of 1) ∧
  returns (@udplb folded_csum sample_config torn switching_maps p) (λ '(act, _, p'),
    act = XDP_TX ∧ field p' off_daddr 4 = [10; 0; 0; 1]).
Proof. split_and!; [by vm_compute..|]. eexists. split; [vm_compute; reflexivity|]. by vm_compute. Qed.
