(* ===== verification/DataPath.v ===== *)
(** * DataPath: the controller and the XDP program together

    The controller of [Controller] installs objects through its manager; the
    program of [Xdp] reads them from the kernel's maps.  [reads] says that the
    active variants of the maps hold given objects, which is what ebpfstruct
    documents of an installed array or map.  [sys_step] interleaves frames with
    assignments, health changes and installations, and the theorems follow a
    datagram from the traffic generator to the backend it reaches. *)
From S2P Require Import Prelude Types Rlt RltReverse GoNet WatcherMux Packet BpfManager Monitor Controller Wiring Xdp.

(** ** Installed objects in the kernel's maps *)

Record reads (ap : Z) (k : maps) (o : eventObjects) : Prop := {
  rd_list : ∀ i s, BackendList o !! i = Some s →
    array_lookup (get_active_backend_list ap k) (Z.of_nat i) = Some s;
  rd_table : ∀ i v, LookupTable o !! i = Some v →
    array_lookup (get_active_lookup_table ap k) (Z.of_nat i) = Some v;
  rd_sessions : get_active_sessions ap k = SessionMap o
}.

(** A kernel entry made from backend [b]; it depends on its identifier and
    addresses only. *)
Definition entry_for (b : Backend) (s : udplbBackendSpecT) : Prop :=
  bId s = Id b ∧ bPort s = u16 (Port (Spec b)) ∧
  NetIPv4ToUint32 LittleEndian (IP (Spec b)) = Done (bIp s) ∧ bMac s = take 6 (MacAddr (Spec b)).

Section system.
Context {M : Type} `{!ObjectsManager M, !CsumDiff} (iter : gset Z → list Z) (config : udplbConfigT).

(** The controller, the maps and the value of [active_pointer]. *)
Definition system : Type := Controller M * maps * Z.

Inductive sys_step : system → system → Prop :=
  | sys_frame c k k' ap env p :
      steady ap env → Forall is_byte p → xdp_step config k (env, p) = Done k' →
      sys_step (c, k, ap) (c, k', ap)
  | sys_input c c' k ap i :
      controller_step iter c i = Done c' → installed (bpfMgr c') = installed (bpfMgr c) →
      sys_step (c, k, ap) (c', k, ap)
  | sys_install c c' k k' ap ap' i :
      controller_step iter c i = Done c' → reads ap' k' (installed (bpfMgr c')) → maps_ok k' →
      sys_step (c, k, ap) (c', k', ap').

(** A kernel entry of one of the backends [bs]. *)
Definition entry_of (bs : list Backend) (s : udplbBackendSpecT) : Prop := ∃ b, b ∈ bs ∧ entry_for b s.

(** Objects the program can serve every session from. *)
Record servable (c : Controller M) (o : eventObjects) : Prop := {
  sv_coherent : coherent o;
  sv_length : Z.of_nat (length (LookupTable o)) = lookupTableSize c;
  sv_entries : Forall (entry_of (backends c)) (BackendList o)
}.

(** The configured identifiers and addresses never change, only the states
    of the backends do. *)
Definition id_spec (b : Backend) : uuid * BackendSpec := (Id b, Spec b).
Definition same_config (c c' : Controller M) : Prop :=
  lookupTableSize c' = lookupTableSize c ∧ id_spec <$> backends c' = id_spec <$> backends c.

Record sys_ok (c0 : Controller M) (x : system) : Prop := {
  so_ctl : ctl_ok x.1.1;
  so_conf : same_config c0 x.1.1;
  so_maps : maps_ok x.1.2;
  so_serve : servable x.1.1 (installed (bpfMgr x.1.1));
  so_reads : ∃ k0, reads x.2 k0 (installed (bpfMgr x.1.1)) ∧ same_verdicts config x.2 k0 x.1.2
}.
End system.

(** * Lemmas *)

Lemma entry_of_mono bs bs' s : id_spec <$> bs' = id_spec <$> bs → entry_of bs s → entry_of bs' s.
Proof.
  intros Hm (b & Hb & Hid & Hport & Hip & Hmac).
  assert (Hin : id_spec b ∈ id_spec <$> bs') by (rewrite Hm; apply list_elem_of_fmap; eauto).
  apply list_elem_of_fmap in Hin as (b' & [= Hid' Hs'] & Hb'). exists b'. split; [done|]. unfold entry_for. by rewrite <-Hid', <-Hs'.
Qed.

Section system_invariant.
Context {M : Type} `{!ObjectsManager M, !ObjectsManagerLaws LittleEndian M, !CsumDiff}
        (iter : gset Z → list Z) (Hiter : map_iteration iter) (config : udplbConfigT) (Hconfig : config_ok config).
Implicit Types (c : Controller M).

#[export] Instance same_config_equiv : Equivalence (@same_config M).
Proof.
  split; [done|by intros c c' [? ?]|]. intros c1 c2 c3 [? ?] [? ?]. split; congruence.
Qed.
Lemma servable_mono c c' o : same_config c c' → servable c o → servable c' o.
Proof.
  intros [Hs Hm] []. split; [done|congruence|]. eapply Forall_impl; [done|]. intros s. by apply entry_of_mono.
Qed.

(** A recomputation that installs, installs servable objects. *)
Lemma recompute_servable c c' :
  ctl_ok c → filterAvailable (backends c) ≠ [] → recomputeAndApply iter c = Done (c', None) →
  servable c' (installed (bpfMgr c')).
Proof using ObjectsManagerLaws0 Hiter.
  intros Hc Hne Hr. pose proof (recompute_coherent LittleEndian iter Hiter c c' Hc Hne Hr) as Hco.
  destruct (recompute_run LittleEndian iter Hiter c Hc Hne) as ([c1 e1] & Heq & Hb & Hsz & _ & _ & Hinst).
  rewrite Hr in Heq. injection Heq as <- <-. destruct Hinst as (out & t & Hout & Ht & Hi). split; [done|..].
  - rewrite Hi, Hsz. simpl. eapply (table_length iter); done.
  - rewrite Hi, Hb. simpl.
    destruct (transformBackendList_returns LittleEndian (filterAvailable (backends c))) as (out' & Ho' & _ & Hf);
      [by apply filterAvailable_Forall, co_inst|].
    assert (out' = out) as -> by congruence.
    apply Forall_forall. intros s [j Hj]%list_elem_of_lookup.
    destruct (Forall2_lookup_r _ _ _ _ _ Hf Hj) as (b & Hbj & Hspec).
    exists b. split; [|done]. apply list_elem_of_lookup_2, elem_of_filterAvailable in Hbj. apply Hbj.
Qed.

Lemma recompute_keeps_servable c r :
  ctl_ok c → servable c (installed (bpfMgr c)) → recomputeAndApply iter c = Done r →
  ctl_ok r.1 ∧ same_config c r.1 ∧ servable r.1 (installed (bpfMgr r.1)).
Proof using ObjectsManagerLaws0 Hiter.
  intros Hc Hs Hr. destruct r as [c' err].
  destruct (recompute_ok LittleEndian iter Hiter c Hc (sv_coherent _ _ Hs)) as (r & Hr' & Hc' & _).
  rewrite Hr in Hr'. injection Hr' as <-. simpl in *. split; [done|].
  destruct (decide (filterAvailable (backends c) = [])) as [He|Hne].
  { unfold recomputeAndApply in Hr. rewrite He, decide_True in Hr by done. injection Hr as <- _.
    split; [reflexivity|done]. }
  destruct (recompute_run LittleEndian iter Hiter c Hc Hne) as ([c1 e1] & Heq & Hb & Hsz & _ & _ & Hinst).
  rewrite Hr in Heq. injection Heq as <- <-.
  assert (Hsc : same_config c c') by (split; [done|by rewrite Hb]). split; [done|].
  destruct err as [er|]; [|by apply recompute_servable with c].
  rewrite Hinst. by eapply servable_mono.
Qed.

Lemma controller_step_servable c c' i :
  ctl_ok c → servable c (installed (bpfMgr c)) → controller_step iter c i = Done c' →
  ctl_ok c' ∧ same_config c c' ∧ servable c' (installed (bpfMgr c')).
Proof using ObjectsManagerLaws0 Hiter.
  intros Hc Hs. destruct i as [a|entry]; simpl.
  - intros [= <-]. split; [by apply assignment_step_ok|]. unfold assignment_step.
    destruct (list_find _ _) as [[j b]|]; [|split; [reflexivity|done]].
    assert (same_config c {| backends := backends c; lookupTableSize := lookupTableSize c;
      sessionMap := <[SessionId a := u32 (Z.of_nat j)]> (sessionMap c); bpfMgr := bpfMgr c |}) by by split.
    split; [done|]. by eapply servable_mono.
  - unfold health_step. destruct (list_find _ _) as [[j b]|] eqn:Hf.
    2: { intros [= <-]. split_and!; [done|reflexivity|done]. }
    apply list_find_Some in Hf as (Hb & _ & _). case_decide.
    { intros [= <-]. split_and!; [done|reflexivity|done]. }
    set (c1 := {| backends := _ |}). destruct (recomputeAndApply iter c1) as [[c2 err]| | |] eqn:Hr; try done.
    cbn [mbind go_bind]. intros [= <-].
    assert (Hc1 : ctl_ok c1) by by apply with_status_ok.
    assert (Hsc : same_config c c1).
    { split; [done|]. simpl. rewrite list_fmap_insert. apply list_insert_id.
      rewrite list_lookup_fmap, Hb. done. }
    destruct (recompute_keeps_servable c1 (c2, err) Hc1 (servable_mono _ _ _ Hsc Hs) Hr) as (Hc2 & Hsc2 & Hs2).
    simpl in *. split_and!; [done|by etrans|done].
Qed.

Lemma sys_step_ok c0 x y : sys_step iter config x y → sys_ok config c0 x → sys_ok config c0 y.
Proof using ObjectsManagerLaws0 Hiter Hconfig.
  intros [c k k' ap env p Hst Hp Hx|c c' k ap i Hi Hsame|c c' k k' ap ap' i Hi Hrd Hk']
    [Hc Hsz Hk Hs (k0 & Hr0 & Hv0)]; simpl in *.
  - destruct (xdp_step_verdicts config k (env, p) ap Hconfig Hk Hp Hst) as (k1 & Hk1 & Hok & Hv).
    rewrite Hx in Hk1. injection Hk1 as <-. split; try done. exists k0. split; [done|]. by etrans.
  - destruct (controller_step_servable c c' i Hc Hs Hi) as (Hc' & Hl & Hs').
    split; try done; simpl; [by etrans|]. rewrite Hsame. eauto.
  - destruct (controller_step_servable c c' i Hc Hs Hi) as (Hc' & Hl & Hs').
    split; try done; simpl; [by etrans|]. exists k'. split; [done|reflexivity].
Qed.
Lemma sys_reachable_ok c0 x y : sys_ok config c0 x → rtc (sys_step iter config) x y → sys_ok config c0 y.
Proof using ObjectsManagerLaws0 Hiter Hconfig.
  intros Hx. induction 1 as [|x y z Hs _ IH]; [done|]. apply IH. by eapply sys_step_ok.
Qed.

(** From servable objects every session has a route to an installed backend. *)
Lemma servable_routes c o k ap env sid :
  servable c o → reads ap k o → LookupTableSize config = lookupTableSize c → 0 < lookupTableSize c →
  steady ap env →
  ∃ i s, route config env k sid = Some i ∧ s ∈ BackendList o ∧
    array_lookup (get_active_backend_list (ap_backends env) k) i = Some s.
Proof.
  intros [[Hlt Hsm] Hlen _] [Hrl Hrt Hrs] Hsz Hpos (Hab & Hal & Has). rewrite Hab.
  assert (Hin : ∀ i, 0 <= i < Z.of_nat (length (BackendList o)) →
    ∃ s, s ∈ BackendList o ∧ array_lookup (get_active_backend_list ap k) i = Some s).
  { intros i Hi. destruct (lookup_lt_is_Some_2 (BackendList o) (Z.to_nat i) ltac:(lia)) as [s Hs].
    exists s. split; [by eapply list_elem_of_lookup_2|]. rewrite <-(Z2Nat.id i) by lia. by apply Hrl. }
  unfold route. rewrite Has, Hal, Hrs. destruct (SessionMap o !! sid) as [i|] eqn:Es.
  - destruct (Hin i (Hsm _ _ Es)) as (s & ? & ?). eauto.
  - set (key := bpf_mod _ _). assert (Hkey : 0 <= key < Z.of_nat (length (LookupTable o))).
    { unfold key, bpf_mod. rewrite Hsz, decide_False, Hlen by lia. apply Z.mod_pos_bound. lia. }
    destruct (lookup_lt_is_Some_2 (LookupTable o) (Z.to_nat key) ltac:(lia)) as [v Hv].
    destruct (Hin v (Forall_lookup_1 _ _ _ _ Hlt Hv)) as (s & ? & ?).
    exists v, s. split; [|done]. rewrite <-(Z2Nat.id key) by lia. by apply Hrt.
Qed.

(** The verdict on a frame for the load balancer, in a good system. *)
Lemma sys_ok_forward c0 c k ap env p :
  sys_ok config c0 (c, k, ap) → LookupTableSize config = lookupTableSize c0 → steady ap env →
  balanced (cfgIp config) (cfgPort_ config) p → field p off_h_source 6 ≠ cfgMac config → 1 < ttl_of p →
  ∃ i s, verdict_of config env k p = Forward i s ∧ entry_of (backends c) s.
Proof.
  intros [Hc [Hl _] Hk Hs (k0 & Hr & Hv)] Hsz Hst Hb Hm Ht. simpl in *.
  destruct (servable_routes c _ k0 ap env (session_of p) Hs Hr) as (i & s & Hro & Hin & Hlk);
    [congruence|apply co_size; done|done|].
  exists i, s. split; [|by eapply Forall_forall; [apply sv_entries|]].
  rewrite (Hv env p Hst). unfold verdict_of. rewrite decide_True by done. rewrite decide_False by done.
  rewrite decide_False by lia. by rewrite Hro, Hlk.
Qed.
End system_invariant.

(** ** Addresses on the wire *)

Lemma PutUint32LE_Uint32 v x :
  length v = 4%nat → Forall is_byte v → Uint32 LittleEndian v = Done x → PutUint32LE x = v.
Proof.
  intros Hl Hb. destruct v as [|a [|b [|c [|d [|]]]]]; try done. rewrite !Forall_cons in Hb.
  unfold is_byte in Hb. injection 1 as <-. unfold PutUint32LE.
  repeat f_equal; Z.div_mod_to_equations; lia.
Qed.
Lemma wire_address ip x :
  Forall is_byte ip → is_Some (To4 ip) → NetIPv4ToUint32 LittleEndian ip = Done x → To4 ip = Some (PutUint32LE x).
Proof.
  intros Hb [v Hv]. unfold NetIPv4ToUint32. rewrite Hv. simpl.
  destruct (To4_bytes _ _ Hb Hv) as [Hvb Hvl]. intros Hx. by rewrite (PutUint32LE_Uint32 v x).
Qed.

(** The enabled entry of the configuration a kernel entry comes from. *)
Definition entry_of_config (cfg : Config) (s : udplbBackendSpecT) : Prop :=
  ∃ bc mac, bc ∈ filter (λ bc, Enabled bc) (Backends cfg) ∧
    ParseIP (cfgIP bc) ≫= To4 = Some (PutUint32LE (bIp s)) ∧
    ParseMAC (cfgMAC bc) = Some mac ∧ bMac s = take 6 mac ∧ bPort s = u16 (cfgPort bc).

Section configured.
Context {M : Type} `{!ObjectsManager M, !UuidSHA1}.
Lemma new_controller_entries cfg (mgr : M) c0 c s :
  new_controller LittleEndian cfg mgr = Done (inl c0) → same_config c0 c →
  Forall ipv4 (filter (λ bc, Enabled bc) (Backends cfg)) →
  entry_of (backends c) s → entry_of_config cfg s.
Proof.
  intros Hnew [_ Hconf] Hip Hs. symmetry in Hconf. apply (entry_of_mono _ (backends c0)) in Hs; [|done].
  unfold new_controller in Hnew. destruct (buildBackends_run LittleEndian (Backends cfg) []) as (r & Hr & Hspec).
  unfold buildBackends in Hnew. rewrite Hr in Hnew. cbn [mbind go_bind] in Hnew.
  destruct r as [bs|err]; [|done]. injection Hnew as <-. destruct Hspec as (_ & bs' & -> & Hf). simpl in Hs.
  destruct Hs as (b & [j Hj]%list_elem_of_lookup & _ & Hport & Hip4 & Hmac).
  destruct (Forall2_lookup_r _ _ _ _ _ Hf Hj) as (bc & Hbc & Pip & Pmac & Pport & _).
  pose proof (Forall_lookup_1 _ _ _ _ Hip Hbc) as Hv4. unfold ipv4 in Hv4. rewrite Pip in Hv4. simpl in Hv4.
  exists bc, (MacAddr (Spec b)). split_and!; [by eapply list_elem_of_lookup_2| |done|done|by rewrite <-Pport].
  rewrite Pip. simpl. apply wire_address; [by eapply ParseIP_bytes|done|done].
Qed.
Lemma new_controller_available cfg (mgr : M) c0 :
  new_controller LittleEndian cfg mgr = Done (inl c0) →
  filter (λ bc, Enabled bc) (Backends cfg) ≠ [] → filterAvailable (backends c0) ≠ [].
Proof.
  intros Hnew Hne. unfold new_controller in Hnew.
  destruct (buildBackends_run LittleEndian (Backends cfg) []) as (r & Hr & Hspec).
  unfold buildBackends in Hnew. rewrite Hr in Hnew. cbn [mbind go_bind] in Hnew.
  destruct r as [bs|err]; [|done]. injection Hnew as <-. destruct Hspec as (_ & bs' & -> & Hf). simpl.
  destruct Hf as [|bc b bcs k Hb _]; [done|]. intros Hnil.
  assert (Hin : b ∈ filterAvailable (b :: k)).
  { apply elem_of_filterAvailable. split; [apply Hb|]. by left. }
  rewrite Hnil in Hin. by apply elem_of_nil in Hin.
Qed.
End configured.

(** ** A session from the program to the controller and back *)

Lemma entry_for_unique b b' s s' : id_spec b = id_spec b' → entry_for b s → entry_for b' s' → s = s'.
Proof.
  intros [= Hi Hs] (A1 & A2 & A3 & A4) (B1 & B2 & B3 & B4). rewrite Hi in A1. rewrite Hs in A2, A3, A4.
  destruct s, s'; simpl in *. congruence.
Qed.

Section session.
Context {M : Type} `{!ObjectsManager M, !ObjectsManagerLaws LittleEndian M, !CsumDiff}
        (iter : gset Z → list Z) (Hiter : map_iteration iter) (config : udplbConfigT) (Hconfig : config_ok config).
Implicit Types (c : Controller M).

(** The assignment submitted with a transmitted frame names the backend the
    frame went to. *)
Lemma emitted_assignment c k ap env p k1 p1 a :
  LookupTableSize config = lookupTableSize c → sys_ok config c (c, k, ap) → steady ap env → Forall is_byte p →
  udplb config env k p = Done (XDP_TX, k1, p1) → assignment_ringbuf k1 = assignment_ringbuf k ++ [a] →
  ∃ s b, b ∈ backends c ∧ entry_for b s ∧ BackendId a = Id b ∧ SessionId a = session_of p ∧
    forwarded config s p p1.
Proof using Hconfig.
  intros Hsz Hok Hst Hp Hu Hring.
  destruct (udplb_run config env k p Hconfig (so_maps _ _ _ Hok) Hp) as (r & Hr & Ho).
  rewrite Hu in Hr. injection Hr as <-. unfold outcome_of in Ho.
  destruct (verdict_of config env k p) as [| | | |i s] eqn:Hv; [naive_solver..|]. destruct Ho as (_ & Hf & ->).
  destruct (verdict_forward _ _ _ _ _ _ Hv) as (Hb & Hm & Ht & _).
  destruct (sys_ok_forward config c c k ap env p Hok Hsz Hst Hb Hm Ht) as (i' & s' & Hv' & b & Hbc & Hid & Hrest).
  rewrite Hv in Hv'. injection Hv' as <- <-. exists s, b. split; [done|]. split; [by split|].
  assert (Hlast : ∀ l : list Assignment, l ≠ l ++ [a]).
  { intros l Hl%(f_equal length). rewrite length_app in Hl. simpl in Hl. lia. }
  destruct (get_active_sessions _ _ !! _); [by apply Hlast in Hring|].
  unfold persist in Hring. destruct (reserve_ok env), (update_ok env); simpl in Hring;
    try by apply Hlast in Hring.
  all: apply app_inj_2 in Hring as [_ [= <-]]; [by rewrite <-Hid|done].
Qed.

(** The controller records the backend the assignment names, at its index. *)
Lemma assignment_recorded c c2 a b :
  ctl_ok c → b ∈ backends c → BackendId a = Id b → same_config c c2 →
  sessionMap c2 = sessionMap (assignment_step c a) →
  ∃ b2, backend_of (backends c2) (sessionMap c2) (SessionId a) = Some b2 ∧ id_spec b2 = id_spec b.
Proof.
  intros Hc Hb Ha [_ Hconf] ->. unfold assignment_step.
  destruct (list_find (λ b, Id b = BackendId a) (backends c)) as [[j b']|] eqn:Hf.
  2: { apply list_find_None in Hf. rewrite Forall_forall in Hf. by destruct (Hf b Hb). }
  apply list_find_Some in Hf as (Hj & Hid & _).
  pose proof (id_unique c b b' Hc Hb (list_elem_of_lookup_2 _ _ _ Hj) ltac:(congruence)) as ->.
  assert (Hlk : (id_spec <$> backends c2) !! j = Some (id_spec b)) by (rewrite Hconf, list_lookup_fmap, Hj; done).
  rewrite list_lookup_fmap in Hlk. apply fmap_Some in Hlk as (b2 & Hb2 & Hs2).
  exists b2. split; [|done]. unfold backend_of. simpl. rewrite lookup_insert_eq. simpl.
  pose proof (lookup_lt_Some _ _ _ Hj). pose proof (co_len _ Hc).
  rewrite u32_small by (unfold is_u32; lia). by rewrite Nat2Z.id.
Qed.

(** After an installed recomputation the program routes the sessions of an
    available backend to it. *)
Lemma recomputed_route c c' k ap env sid b :
  ctl_ok c → backend_of (backends c) (sessionMap c) sid = Some b → is_available b = true →
  recomputeAndApply iter c = Done (c', None) → reads ap k (installed (bpfMgr c')) → steady ap env →
  ∃ i s, route config env k sid = Some i ∧ entry_for b s ∧
    array_lookup (get_active_backend_list (ap_backends env) k) i = Some s.
Proof using ObjectsManagerLaws0 Hiter.
  intros Hc Hb Ha Hrec Hrd (Eb & El & Es).
  assert (Hne : filterAvailable (backends c) ≠ []).
  { intros He. assert (Hin : b ∈ filterAvailable (backends c)); [|by rewrite He in Hin; apply elem_of_nil in Hin].
    apply elem_of_filterAvailable. split; [done|]. unfold backend_of in Hb.
    apply bind_Some in Hb as (? & _ & ?). by eapply list_elem_of_lookup_2. }
  destruct (recompute_run LittleEndian iter Hiter c Hc Hne) as ([c1 e1] & Heq & _ & _ & _ & Hsm & Hinst).
  rewrite Hrec in Heq. injection Heq as <- <-. destruct Hinst as (out & t & Hout & _ & Hi).
  destruct (backend_of_remap c sid b Hc Hne) as [_ Hback]. specialize (Hback (conj Hb Ha)).
  rewrite <-Hsm in Hback. unfold backend_of in Hback. apply bind_Some in Hback as (i & Hsi & Hbi).
  pose proof (remap_all_nonneg c Hc) as Hnn. rewrite <-Hsm in Hnn. pose proof (Hnn _ _ Hsi) as Hi0. simpl in Hi0.
  destruct (transformBackendList_returns LittleEndian (filterAvailable (backends c))) as (out' & Ho' & _ & Hf);
    [by apply filterAvailable_Forall, co_inst|].
  assert (out' = out) as -> by congruence.
  destruct (Forall2_lookup_l _ _ _ _ _ Hf Hbi) as (s & Hs & Hspec).
  rewrite Hi in Hrd. exists i, s. split_and!; [|done|].
  - unfold route. rewrite Es, (rd_sessions _ _ _ Hrd). simpl. by rewrite Hsi.
  - rewrite Eb, <-(Z2Nat.id i) by lia. by apply (rd_list _ _ _ Hrd).
Qed.
End session.

(** ** Frames made by the generator *)

Lemma udp_frame_spec dmac smac src dst ttl sport dport sid payload :
  length dmac = 6%nat → length smac = 6%nat → length src = 4%nat → length dst = 4%nat → length sid = 16%nat →
  let p := udp_frame dmac smac src dst ttl sport dport (prefix_bytes ++ sid ++ payload) in
  (62 <= length p)%nat ∧ field p off_h_proto 2 = [8; 0] ∧ field p off_daddr 4 = dst ∧
  field p off_protocol 1 = [IPPROTO_UDP] ∧ field p off_udp_dest 2 = [dport `div` 256; dport `mod` 256] ∧
  field p off_prefix 4 = prefix_bytes ∧ field p off_h_source 6 = smac ∧ ttl_of p = ttl ∧ session_of p = sid ∧
  drop 42 p = prefix_bytes ++ sid ++ payload.
Proof.
  intros H1 H2 H3 H4 H5 p.
  do 6 (destruct dmac as [|? dmac]; [done|]). destruct dmac; [|done].
  do 6 (destruct smac as [|? smac]; [done|]). destruct smac; [|done].
  do 4 (destruct src as [|? src]; [done|]). destruct src; [|done].
  do 4 (destruct dst as [|? dst]; [done|]). destruct dst; [|done].
  split; [unfold p, udp_frame; rewrite !length_app; simpl; lia|]. split_and!; try reflexivity.
  - unfold ttl_of, le_combine. simpl. lia.
  - unfold session_of, field. change (drop off_session p) with (sid ++ payload). by rewrite take_app_length'.
Qed.

(** ** A sample kernel holding given objects *)

Definition maps_of (o : eventObjects) : maps :=
  {| backend_list_a := array_of backend_list_t (BackendList o); backend_list_b := backend_list_t;
     lookup_table_a := array_of lookup_table_t (LookupTable o); lookup_table_b := lookup_table_t;
     session_map_a := SessionMap o; session_map_b := ∅; assignment_ringbuf := [] |}.
Lemma array_of_lookup {V} (a : bpf_array V) l i v :
  Z.of_nat (length l) <= max_entries a → l !! i = Some v → array_lookup (array_of a l) (Z.of_nat i) = Some v.
Proof.
  intros Hl Hi. pose proof (lookup_lt_Some _ _ _ Hi). unfold array_lookup. simpl.
  rewrite decide_True by lia. f_equal.
  rewrite (elem_of_list_to_map_1 _ (Z.of_nat i) v); [done| |].
  - rewrite fst_zip by by rewrite length_fmap, length_seq. apply NoDup_fmap_2; [apply _|apply NoDup_seq].
  - apply list_elem_of_lookup. exists i. apply lookup_zip_with_Some.
    exists (Z.of_nat i), v. split; [done|]. split; [|done]. rewrite list_lookup_fmap, lookup_seq_lt by lia. done.
Qed.
Lemma maps_of_reads o :
  (length (BackendList o) <= 64)%nat → Z.of_nat (length (LookupTable o)) <= 2 ^ 16 → reads 0 (maps_of o) o.
Proof. intros Hb Ht. split; [intros i v; apply array_of_lookup; simpl; lia..|done]. Qed.

Lemma maps_of_ok o :
  Forall backend_ok (BackendList o) → Forall is_u32 (LookupTable o) →
  map_Forall (λ sid i, is_uuid sid ∧ is_u32 i) (SessionMap o) → maps_ok (maps_of o).
Proof.
  intros Hb Ht Hs. split; simpl; try done; try apply backend_list_t_ok; try apply lookup_table_t_ok.
  - by apply array_of_ok; [apply backend_list_t_ok|].
  - by apply array_of_ok; [apply lookup_table_t_ok|].
Qed.
Ltac by_computing := apply (bool_decide_unpack _); vm_compute; exact I.

(** * Properties *)

Section properties.
Context {M : Type} `{!ObjectsManager M, !ObjectsManagerLaws LittleEndian M, !CsumDiff, !UuidSHA1}
        (iter : gset Z → list Z) (config : udplbConfigT).


(** C2: a session keeps its backend through a recomputation. In any good state
    of the system the program takes a frame of a new session, sends it to a
    backend and submits an assignment; the controller consumes that
    assignment, backends change state, and the controller recomputes and
    installs. If that backend is still available, later frames of the session
    are sent to the same address, hardware address and port. *)
Theorem session_survives_recompute (c c2 c3 : Controller M) k ap env p k1 p1 a k' ap' env' p2 :
  map_iteration iter → config_ok config → LookupTableSize config = lookupTableSize c →
  sys_ok config c (c, k, ap) → steady ap env → Forall is_byte p →
  udplb config env k p = Done (XDP_TX, k1, p1) → assignment_ringbuf k1 = assignment_ringbuf k ++ [a] →
  ctl_ok c2 → same_config c c2 → sessionMap c2 = sessionMap (assignment_step c a) →
  (∃ b, b ∈ backends c2 ∧ Id b = BackendId a ∧ is_available b = true) →
  recomputeAndApply iter c2 = Done (c3, None) → reads ap' k' (installed (bpfMgr c3)) → maps_ok k' →
  steady ap' env' → Forall is_byte p2 → session_of p2 = session_of p →
  balanced (cfgIp config) (cfgPort_ config) p2 → field p2 off_h_source 6 ≠ cfgMac config → 1 < ttl_of p2 →
  returns (udplb config env' k' p2) (λ '(act, _, p2'),
    act = XDP_TX ∧ field p2' off_daddr 4 = field p1 off_daddr 4 ∧
    field p2' off_h_dest 6 = field p1 off_h_dest 6 ∧ field p2' off_udp_dest 2 = field p1 off_udp_dest 2).
Proof.
  intros Hiter Hcfg Hsz Hok Hst Hp Hu Hring Hc2 Hconf Hsm (b' & Hb' & Hid' & Hav) Hrec Hrd Hk' Hst' Hp2 Hsess Hbal Hm Ht.
  destruct (emitted_assignment config Hcfg c k ap env p k1 p1 a Hsz Hok Hst Hp Hu Hring)
    as (s & b & Hb & Hs & Hab & Has & Hf1).
  destruct (assignment_recorded c c2 a b (so_ctl _ _ _ Hok) Hb Hab Hconf Hsm) as (b2 & Hb2 & Hid2).
  assert (Hb2in : b2 ∈ backends c2).
  { unfold backend_of in Hb2. apply bind_Some in Hb2 as (? & _ & ?). by eapply list_elem_of_lookup_2. }
  assert (b' = b2) as ->.
  { apply (id_unique c2); [done..|]. injection Hid2 as Hi _. congruence. }
  rewrite Has in Hb2.
  destruct (recomputed_route iter Hiter config c2 c3 k' ap' env' (session_of p) b2 Hc2 Hb2 Hav Hrec Hrd Hst')
    as (i & s2 & Hro & Hs2 & Hlk).
  pose proof (entry_for_unique _ _ _ _ Hid2 Hs2 Hs) as ->.
  eapply returns_mono; [by apply udplb_run|]. intros [[act k2] p2']. unfold outcome_of, verdict_of.
  rewrite decide_True by done. rewrite decide_False by done. rewrite decide_False by lia.
  rewrite Hsess, Hro, Hlk. intros (-> & [] & _). destruct Hf1. split_and!; congruence.
Qed.
End properties.

#[local] Existing Instance sample_objects_manager.
#[local] Existing Instance sample_objects_laws.
#[local] Existing Instance folded_csum.

(** The controller of the sample configuration, before and after its first
    recomputation. *)
Lemma delivered_start : ∃ c0 c1 : Controller (dsManager shared_kernel),
  @new_controller _ sample_sha1 LittleEndian two_backends example_manager = Done (inl c0) ∧
  lookupTableSize c0 = 7 ∧ recomputeAndApply elements c0 = Done (c1, None) ∧
  reads 0 (maps_of (installed (bpfMgr c1))) (installed (bpfMgr c1)) ∧ maps_ok (maps_of (installed (bpfMgr c1))).
Proof.
  eexists. eexists. split; [vm_compute; reflexivity|]. split; [reflexivity|]. split; [vm_compute; reflexivity|].
  split; [apply maps_of_reads; by_computing|]. apply maps_of_ok; by_computing.
Qed.

Lemma assignment_step_installed (c : Controller (dsManager shared_kernel)) a :
  installed (bpfMgr (assignment_step c a)) = installed (bpfMgr c).
Proof. unfold assignment_step. by destruct (list_find _ _) as [[]|]. Qed.


(** Three healthy backends, and the controller after its first recomputation. *)
Definition start_controller : Controller (dsManager shared_kernel) :=
  {| backends := sample_backend <$> [0; 1; 2]; lookupTableSize := 7; sessionMap := ∅; bpfMgr := example_manager |}.
Definition after_recompute (c : Controller (dsManager shared_kernel)) : Controller (dsManager shared_kernel) :=
  match recomputeAndApply elements c with Done (c', None) => c' | _ => c end.
Definition good_controller := after_recompute start_controller.
Definition good_maps : maps := maps_of (installed (bpfMgr good_controller)).
Lemma start_ok : ctl_ok start_controller.
Proof. destruct sample_ok. by split. Qed.
Lemma good_recompute : recomputeAndApply elements start_controller = Done (good_controller, None).
Proof. vm_compute. reflexivity. Qed.
Lemma good_maps_ok : maps_ok good_maps.
Proof. apply maps_of_ok; by_computing. Qed.
Lemma good_system : sys_ok sample_config good_controller (good_controller, good_maps, 0).
Proof.
  split; cbn [fst snd].
  - apply (recompute_ctl_ok LittleEndian elements elements_iteration _ _ None start_ok good_recompute).
  - reflexivity.
  - apply good_maps_ok.
  - apply (recompute_servable elements elements_iteration start_controller _ start_ok); [|apply good_recompute].
    intros Hn%(f_equal length). vm_compute in Hn. discriminate.
  - exists good_maps. split; [|reflexivity]. apply maps_of_reads; by_computing.
Qed.

(** A session of the third backend, learned, before the first one fails. *)
Definition learned : Assignment := {| BackendId := replicate 16 2; SessionId := replicate 16 8 |}.
Definition degraded_controller : Controller (dsManager shared_kernel) :=
  let c := assignment_step good_controller learned in
  {| backends := <[0%nat := with_status (sample_backend 0) StateUnavailable]> (backends c);
     lookupTableSize := lookupTableSize c; sessionMap := sessionMap c; bpfMgr := bpfMgr c |}.
Lemma degraded_ok : ctl_ok degraded_controller.
Proof. apply with_status_ok; [|done]. apply assignment_step_ok, good_system. Qed.

Lemma session_survives_recompute_witness :
  let c3 := after_recompute degraded_controller in
  let k3 := maps_of (installed (bpfMgr c3)) in
  let p := sample_frame (replicate 16 8) in
  ∃ k1 p1, udplb sample_config (env_at 0) good_maps p = Done (XDP_TX, k1, p1) ∧
  returns (udplb sample_config (env_at 0) k3 p) (λ '(act, _, p2'),
    act = XDP_TX ∧ field p2' off_daddr 4 = field p1 off_daddr 4 ∧
    field p2' off_h_dest 6 = field p1 off_h_dest 6 ∧ field p2' off_udp_dest 2 = field p1 off_udp_dest 2).
Proof.
  intros c3 k3 p.
  assert (Hp : Forall is_byte p) by (by_computing).
  assert (Hu : ∃ k1 p1, udplb sample_config (env_at 0) good_maps p = Done (XDP_TX, k1, p1) ∧
    assignment_ringbuf k1 = assignment_ringbuf good_maps ++ [learned]).
  { eexists. eexists. split; [vm_compute; reflexivity|]. by vm_compute. }
  destruct Hu as (k1 & p1 & Hu & Hring). exists k1, p1. split; [exact Hu|].
  apply (session_survives_recompute elements sample_config good_controller degraded_controller c3
    good_maps 0 (env_at 0) p k1 p1 learned k3 0 (env_at 0) p).
  - apply elements_iteration.
  - apply sample_config_ok.
  - vm_compute. reflexivity.
  - apply good_system.
  - repeat split.
  - exact Hp.
  - exact Hu.
  - exact Hring.
  - apply degraded_ok.
  - split; vm_compute; reflexivity.
  - vm_compute. reflexivity.
  - exists (sample_backend 2). split; [|split; reflexivity]. apply list_elem_of_lookup. exists 2%nat. vm_compute. reflexivity.
  - vm_compute. reflexivity.
  - apply maps_of_reads; by_computing.
  - apply maps_of_ok; by_computing.
  - repeat split.
  - exact Hp.
  - reflexivity.
  - by_computing.
  - apply (bool_decide_unpack _). vm_compute. exact I.
  - vm_compute. reflexivity.
Defined.

(** C34: a datagram of the traffic generator, sent to the load balancer in an
    IPv4 frame with hops left, reaches the backend the tables give its session,
    with the backend's address, and the echo backend parses the session out of
    what it receives; if the session was new it is recorded for that backend. *)
Theorem generator_reaches_echo `{!CsumDiff} config env k dmac smac src dst ttl sport (sid : uuid) payloadSize i b :
  config_ok config → maps_ok k → is_mac dmac → is_mac smac → smac ≠ cfgMac config →
  length src = 4%nat → Forall is_byte src → dst = PutUint32LE (cfgIp config) → 1 < ttl < 256 → is_u16 sport →
  is_uuid sid → 0 <= payloadSize <= 65507 - 20 →
  route config env k sid = Some i → array_lookup (get_active_backend_list (ap_backends env) k) i = Some b →
  returns (data ← BuildPacket sid payloadSize;
           udplb config env k (udp_frame dmac smac src dst ttl sport (cfgPort_ config) data))
    (λ '(act, k', p'), act = XDP_TX ∧ field p' off_daddr 4 = PutUint32LE (bIp b) ∧
       ParsePacket (drop 42 p') = Done (sid, true) ∧
       (update_ok env = true → get_active_sessions (ap_sessions env) k' !! sid = Some i)).
Proof.
  intros Hc Hk [Hd1 Hd2] [Hs1 Hs2] Hsm Hl Hsrc -> Ht Hsp Hsid Hpay Hr Hlk.
  rewrite BuildPacket_run by (done || unfold max_i64; lia). cbn [mbind go_bind].
  pose proof Hsid as [Hsl Hsb]. set (payload := replicate (Z.to_nat payloadSize) 0).
  destruct (udp_frame_spec dmac smac src (PutUint32LE (cfgIp config)) ttl sport (cfgPort_ config) sid payload
    Hd1 Hs1 Hl eq_refl Hsl) as (P1 & P2 & P3 & P4 & P5 & P6 & P7 & P8 & P9 & P10).
  set (p := udp_frame _ _ _ _ _ _ _ _) in *.
  assert (Hb : Forall is_byte (prefix_bytes ++ sid ++ payload)).
  { rewrite !Forall_app. split_and!; [bytes_lit|done|apply Forall_replicate; unfold is_byte; lia]. }
  assert (Hp : Forall is_byte p).
  { destruct Hc as (_ & Hport & _). unfold is_u16 in *. unfold p, udp_frame. rewrite !Forall_app.
    assert (Z.of_nat (length (prefix_bytes ++ sid ++ payload)) = 20 + payloadSize) as ->.
    { unfold payload. rewrite !length_app, length_replicate, Hsl. simpl. lia. }
    rewrite !Forall_app in Hb.
    split_and!; try done; try apply PutUint32LE_bytes; try apply Hb;
      repeat (apply Forall_cons; split); try apply Forall_nil_2; unfold is_byte, IPPROTO_UDP; try lia;
      Z.div_mod_to_equations; lia. }
  assert (Hv : verdict_of config env k p = Forward i b).
  { unfold verdict_of. rewrite decide_True by by split_and!. rewrite P7, decide_False, P8, decide_False by (done || lia).
    by rewrite P9, Hr, Hlk. }
  eapply returns_mono; [by apply udplb_run|]. intros [[act k'] p']. unfold outcome_of. rewrite Hv, P9.
  intros (-> & [] & ->). split_and!; try done.
  - rewrite fw_payload, P10, ParsePacket_spec by done. by destruct (valid_packet_intro sid payload Hsl) as [-> ->].
  - intros Hup. unfold route in Hr. destruct (get_active_sessions _ _ !! sid) as [j|] eqn:Ej.
    + by rewrite Ej.
    + destruct (persist_active env k sid i b _ eq_refl) as (_ & _ & ->). rewrite Hup. apply lookup_insert_eq.
Qed.

Lemma generator_reaches_echo_witness :
  returns (data ← BuildPacket (replicate 16 7) 3;
           udplb sample_config (env_at 0) sample_maps
             (udp_frame [2; 0; 0; 0; 0; 9] [2; 0; 0; 0; 0; 5] [10; 0; 0; 100] [10; 0; 0; 200] 64 4000 12345 data))
    (λ '(act, k', p'), act = XDP_TX ∧ field p' off_daddr 4 = PutUint32LE (bIp (spec_of 1)) ∧
       ParsePacket (drop 42 p') = Done (replicate 16 7, true) ∧
       (update_ok (env_at 0) = true → get_active_sessions 0 k' !! replicate 16 7 = Some 0)).
Proof.
  apply (generator_reaches_echo sample_config (env_at 0) sample_maps _ _ _ _ _ _ (replicate 16 7) 3 0 (spec_of 1));
    try done; try apply sample_config_ok; try apply sample_maps_ok;
    try (split; [done|bytes_lit]); try bytes_lit; unfold is_u16; lia.
Defined.

(** An address written in a configuration reaches the wire as written: the
    text of an IPv4 address parses to a word whose bytes in memory, which are
    the bytes the program stores in the packet, are the four numbers. *)
Theorem address_text_to_wire (s : string) a b c d :
  is_byte a → is_byte b → is_byte c → is_byte d → bytes s = dotted a b c d →
  returns (ParseIPV4ToUint32 LittleEndian s) (λ r, ∃ v, r = inl v ∧ PutUint32LE v = [a; b; c; d]).
Proof.
  intros Ha Hb Hc Hd Hs. unfold ParseIPV4ToUint32. rewrite (ParseIP_dotted s a b c d) by done.
  cbn [Uint32 mbind go_bind]. apply returns_done. eexists. split; [done|].
  apply PutUint32LE_Uint32; [done|by rewrite !Forall_cons|done].
Qed.
Lemma address_text_to_wire_witness :
  returns (ParseIPV4ToUint32 LittleEndian "10.100.0.200") (λ r, ∃ v, r = inl v ∧ PutUint32LE v = [10; 100; 0; 200]).
Proof. apply address_text_to_wire; unfold is_byte; try lia. by vm_compute. Defined.
