(* ===== verification/Main.v ===== *)
(** * Main: the udplb process (cmd/udplb/main.go)

    The command line, the configuration file ([GetConfig] of
    internal/types/types.go), then [New], [Run], the two loops until a signal
    arrives, and [Close].  Reading, YAML decoding, the network interface and
    the kernel are inputs, as in [Wiring]; the assignments and health changes
    the loops consume before the signal are the inputs [ins]. *)
From S2P Require Import Prelude Types Rlt RltReverse GoNet WatcherMux Packet BpfManager Monitor Controller Wiring.
#[local] Open Scope string_scope.

(** What the process asks of its environment. *)
Record os := {
  ReadAll : list Z + error;                   (* standard input *)
  ReadFile : string → list Z + error;
  Unmarshal : list Z → Config + error;        (* yaml.Unmarshal *)
  InterfaceByName : string → list Z + error;
  bpfEnv : bpf_env;
  attachErr : option error;                   (* AttachXDP *)
  linkErr : option error;                     (* link.Close *)
  objsErr : option error                      (* objs.Close *)
}.

Definition GetConfig (o : os) (filepath : string) : Config + error :=
  match (if decide (filepath = "-") then ReadAll o else ReadFile o filepath) with
  | inr err => inr err
  | inl b => Unmarshal o b
  end.

Section main.
Context {K : Type} `{!EbpfObjects K, !FlatErrors, !UuidSHA1} (e : endian) (iter : gset Z → list Z).
#[local] Existing Instance dsManager_manager.

(** The loops of a running controller. *)
Definition serve (w : wired K) (ins : list input) : go (wired K) :=
  c ← @controller_run _ (dsManager_manager e) iter (ctl w) ins;
  Done {| ctl := c; bpfProg := bpfProg w; healthMonitor := healthMonitor w; healthCh := healthCh w |}.

(** The exit status.  An error of [Close] is only logged. *)
Definition main (o : os) (k : K) (Args : list string) (ins : list input) : go Z :=
  match Args with
  | [] => Panic IndexOutOfRange
  | [_; path] =>
      match GetConfig o path with
      | inr _ => Done 1
      | inl config =>
          r ← New e (bpfEnv o) (InterfaceByName o (Ifname config)) config k;
          match r with
          | inr _ => Done 1
          | inl w =>
              '(w, err) ← Run e iter (attachErr o) w;
              match err with
              | Some _ => Done 1
              | None => w ← serve w ins; _ ← Close iter (linkErr o) (objsErr o) w; Done 0
              end
          end
      end
  | _ => Done 1
  end.
End main.

(** * Lemmas *)

Section process.
Context {K : Type} `{!EbpfObjects K, !EbpfObjectsLaws K, !FlatErrors, !UuidSHA1} (e : endian)
        (iter : gset Z → list Z) (Hiter : map_iteration iter).
#[local] Existing Instance dsManager_manager.

(** What a configuration must satisfy for the process not to panic: IPv4
    addresses, and backends with distinct identifiers. *)
Record sound_config (c : Config) : Prop := {
  sc_ip : ∀ ip, ParseIP (ConfigIP c) = Some ip → is_Some (To4 ip);
  sc_backends : Forall ipv4 (filter (λ bc, Enabled bc) (Backends c));
  sc_ids : NoDup (config_id <$> filter (λ bc, Enabled bc) (Backends c));
  sc_len : Z.of_nat (length (Backends c)) < 2 ^ 32
}.

(** What [New] built: a fresh manager over the kernel, and the controller of
    the configuration. *)
Definition built (config : Config) (k : K) (w : wired K) : Prop :=
  bpfMgr (ctl w) = NewDataStructureManager k (NewWatcherMux 100) ∧
  ∀ mgr, new_controller e config mgr = Done (inl (with_mgr (ctl w) mgr)).

Lemma New_run env iface config (k : K) :
  sound_config config → (∀ mac, iface = inl mac → (6 <= length mac)%nat) →
  returns (New e env iface config k) (λ r, ∀ w, r = inl w → built config k w).
Proof.
  intros [Hip _ _ _] Hmac. unfold New, built, new_controller. destruct iface as [mac|err]; [|by apply returns_done].
  destruct (ParseIP (ConfigIP config)) as [ip|]; [|by apply returns_done].
  destruct (buildBackends_run e (Backends config) []) as (r & Hr & _). unfold buildBackends. rewrite Hr. cbn [mbind go_bind].
  destruct r as [bs|err]; [|by apply returns_done].
  unfold monitor_Watch, Watch. cbn [NewBackendState bsMonitor new_monitor watcherMux NewWatcherMux watcherChCapacity].
  rewrite decide_False by lia. cbn [mbind go_bind]. unfold bpf_New. destruct (memlock_err env); [by apply returns_done|].
  destruct (Hip ip eq_refl) as [v4 Hv4]. unfold NetIPv4ToUint32. rewrite Hv4. simpl default.
  destruct (Uint32_done e v4) as [x ->]; [by rewrite (To4_length _ _ Hv4)|]. cbn [mbind go_bind].
  unfold to_array6. rewrite decide_False by (pose proof (Hmac mac eq_refl); lia). cbn [mbind go_bind].
  destruct (first_err _); cbn [mbind go_bind]; apply returns_done; [done|]. by intros w [= <-].
Qed.

(** The controller's invariant, and that of what is installed. *)
Definition healthy (w : wired K) : Prop :=
  @ctl_ok _ (dsManager_manager e) (ctl w) ∧ coherent (active (objs (bpfMgr (ctl w)))).

(** [Run] of such a system: it returns, and without an error everything runs
    and what is installed is coherent. *)
Lemma Run_healthy config k w attach_err :
  sound_config config → coherent (active k) → ready false w → built config k w →
  returns (Run e iter attach_err w) (λ r, r.2 = None → healthy r.1).
Proof.
  intros [_ Hip Hnd Hlen] Hco (Hm & _ & _ & _ & Hpr & _) [Hmgr Hctl]. unfold Run, prog_Run. rewrite Hpr.
  destruct attach_err as [err|]; [by apply returns_done|]. rewrite Hmgr.
  unfold mgr_Run, NewDataStructureManager. cbn [muLocked running closed objs].
  pose proof (subscribe_active k) as Hsub. destruct (AssignmentFIFO_Subscribe k) as [k1 [err|]]; [by apply returns_done|].
  cbn [mbind go_bind]. unfold WatchAssignment, Watch. cbn [assignmentWatcherMux NewWatcherMux watcherChCapacity].
  rewrite decide_False by lia. cbn [mbind go_bind]. simpl in Hsub.
  unfold monitor_Run. destruct Hm as [Hm1 Hm2 ? ? ? ? ?]. rewrite Hm1, Hm2.
  match goal with |- context [with_mgr (ctl w) ?m] => set (mgr := m) end.
  destruct (@new_controller_ok _ (dsManager_manager e) _ e config mgr (with_mgr (ctl w) mgr) (Hctl mgr)) as [Hc _]; [done..|].
  eapply returns_bind.
  - apply (@recompute_ok _ (dsManager_manager e) e (dsManager_laws e) iter Hiter (with_mgr (ctl w) mgr) Hc). simpl. by rewrite Hsub.
  - intros [c' err] Hc'. by apply returns_done.
Qed.
Lemma Run_run config k w attach_err :
  sound_config config → coherent (active k) → ready false w → built config k w →
  returns (Run e iter attach_err w) (λ '(w', err), err = None → ready true w' ∧ healthy w').
Proof.
  intros Hs Hco Hready Hb. destruct (Run_healthy config k w attach_err Hs Hco Hready Hb) as ([w' err] & Hr & Hh).
  exists (w', err). split; [done|]. intros ->. split; [|by apply Hh]. destruct attach_err; [|by eapply Run_ready].
  exfalso. unfold Run, prog_Run in Hr. destruct Hready as (_ & _ & _ & _ & Hpr & _). rewrite Hpr in Hr. by injection Hr.
Qed.

(** The loops change nothing of the manager but what it holds. *)
Lemma serve_frame c c' ins :
  @controller_run _ (dsManager_manager e) iter c ins = Done c' → bpfMgr c' = with_objs (bpfMgr c) (objs (bpfMgr c')).
Proof.
  assert (Hrefl : ∀ m : dsManager K, m = with_objs m (objs m)) by by intros [].
  apply (foldM_preserves _ (λ c', bpfMgr c' = with_objs (bpfMgr c) (objs (bpfMgr c')))); [|apply Hrefl].
  intros s i s' _ Hs. destruct i as [a|entry]; simpl.
  - intros [= <-]. unfold assignment_step. by destruct (list_find _ _) as [[]|].
  - unfold health_step. destruct (list_find _ _) as [[i b]|]; [|by intros [= <-]]. case_decide; [by intros [= <-]|].
    destruct (recomputeAndApply _ _) as [[c1 err]| | |] eqn:Hr; try done. cbn [mbind go_bind]. intros [= <-].
    apply recompute_frame in Hr. simpl in Hr. rewrite Hr, Hs. done.
Qed.
Lemma serve_run w ins : ready true w → healthy w → returns (serve e iter w ins) (ready true).
Proof.
  intros (Hm & Hinv & Hr & Hl & Hp) [Hc Hco]. unfold serve.
  destruct (@controller_run_ok _ (dsManager_manager e) e (dsManager_laws e) iter Hiter (ctl w) ins Hc Hco) as (c' & Hrun & _).
  rewrite Hrun. cbn [mbind go_bind]. apply returns_done. pose proof (serve_frame _ _ _ Hrun) as Hf.
  split; [done|]. simpl. rewrite Hf. split_and!; try done; [by apply with_objs_inv|apply Hp..].
Qed.
End process.

(** * Properties *)


Definition sample_os : os := {|
  ReadAll := inr (Foreign 5); ReadFile := λ _, inl []; Unmarshal := λ _, inl ipv4_config;
  InterfaceByName := λ _, inl [2; 0; 0; 0; 0; 9]; bpfEnv := quiet_env; attachErr := None; linkErr := None; objsErr := None |}.
Lemma ipv4_config_sound : @sound_config sample_sha1 ipv4_config.
Proof.
  split.
  - intros ip. vm_compute ParseIP. intros [= <-]. eexists. by vm_compute.
  - apply (bool_decide_unpack _). by vm_compute.
  - apply (bool_decide_unpack _). by vm_compute.
  - done.
Qed.
