(* ===== verification/HealthPath.v ===== *)
(** * HealthPath: from the probes of the health monitor to the data plane

    The health monitor of a started controller, its channel [healthCh] and
    [healthLoop] (controller.go) under every schedule, beside
    [assignmentLoop].  The two loops hold the controller's mutex around a
    step; what precedes the return of [Run] is not scheduled. *)
From S2P Require Import Prelude Types GoNet WatcherMux MuxStreams Packet Rlt RltReverse BpfManager Monitor MonitorLoops Controller Wiring Main.

Section health_path.
Context {M : Type} `{!ObjectsManager M} (iter : gset Z → list Z) (specs : gmap uuid BackendSpec).
(** The channel [healthCh]. *)
Context (ch : Z).

(** [healthLoop]: in its select, past it with an entry, or gone. *)
Inductive consumer_at := CSelect | CHave (entry : BackendStatusEntry) | CGone.
Record pstate := {
  source : hstate;
  ctl : Controller M;
  consumer : consumer_at;
  consumed : list BackendStatusEntry;     (* handled *)
  pcrashed : bool                         (* the controller panicked *)
}.
(** After [New] and [Run]: [m] is the running monitor. *)
Definition start_path (c : Controller M) (m : monitor BackendStatusEntry) : pstate :=
  {| source := {| health := start_managed m; hloop := HSelect; rounds := []; probed := [] |}; ctl := c; consumer := CSelect; consumed := []; pcrashed := false |}.
Definition with_source (s : pstate) (h : hstate) (p : consumer_at) : pstate :=
  {| source := h; ctl := ctl s; consumer := p; consumed := consumed s; pcrashed := pcrashed s |}.
(** The source with another multiplexer. *)
Definition source_mux (h : hstate) (mux : WatcherMux BackendStatusEntry) : hstate :=
  with_health h (with_mon (health h) (with_mux (mon (health h)) mux)).
Definition with_ctl (s : pstate) (c : Controller M) : pstate :=
  {| source := source s; ctl := c; consumer := consumer s; consumed := consumed s; pcrashed := pcrashed s |}.

Inductive pact :=
  | PHealth (a : hact)               (* the monitor, and its other subscribers *)
  | PTake                            (* entry, ok := <-c.healthCh *)
  | PClosed                          (* ok is false *)
  | PDone                            (* <-ctx.Done() *)
  | PHandle
  | PAssign (a : Assignment).        (* a step of assignmentLoop *)

(** A reader that catches up during a dispatch timeout is scheduled before
    the dispatch. *)
Definition spares (h : hstate) (a : hact) : bool :=
  match a with HCall c => call_spares ch (health h) c | HProbe _ _ reads => negb reads | _ => true end.

Definition pstep (s : pstate) (a : pact) : option pstate :=
  if mcrashed (health (source s)) || pcrashed s then None else
  match a with
  | PHealth a =>
      if spares (source s) a then h ← hstep iter specs (source s) a; Some (with_source s h (consumer s)) else None
  | PTake =>
      match consumer s, recv (watcherMux (mon (health (source s)))) ch with
      | CSelect, Done (mux, Some entry) => Some (with_source s (source_mux (source s) mux) (CHave entry))
      | _, _ => None
      end
  | PClosed =>
      match consumer s, recv (watcherMux (mon (health (source s)))) ch with
      | CSelect, Done (_, None) => Some (with_source s (source s) CGone)
      | _, _ => None
      end
  | PDone => match consumer s with CSelect => Some (with_source s (source s) CGone) | _ => None end
  | PHandle =>
      match consumer s with
      | CHave entry =>
          match health_step iter (ctl s) entry with
          | Done c => Some {| source := source s; ctl := c; consumer := CSelect; consumed := consumed s ++ [entry]; pcrashed := false |}
          | Panic _ => Some {| source := source s; ctl := ctl s; consumer := CSelect; consumed := consumed s; pcrashed := true |}
          | _ => None
          end
      | _ => None
      end
  | PAssign a => Some (with_ctl s (assignment_step (ctl s) a))
  end.

(** Schedules in which the channel has room when an entry is dispatched:
    [healthLoop] is less than a channel's capacity behind. *)
Definition has_room (s : pstate) : bool :=
  match heap (watcherMux (mon (health (source s)))) !! ch with
  | Some w => bool_decide (Z.of_nat (length (buf w)) < watcherChCapacity (watcherMux (mon (health (source s)))))
  | None => false
  end.
Definition prompt_step (s : pstate) (a : pact) : option pstate :=
  match a with
  | PHealth (HProbe _ _ _) => if has_room s then pstep s a else None
  | _ => pstep s a
  end.
End health_path.
Arguments pstate : clear implicits.

(** The outcome of the last probe of a backend. *)
Definition last_probe (ps : list (uuid * probe_net)) (id : uuid) : option State :=
  probe ∘ snd <$> last (filter (λ p, p.1 = id) ps).

(** * Lemmas *)

(** ** What status entries do to the backends *)

Definition observe (b : Backend) (e : BackendStatusEntry) : Backend :=
  if decide (Id b = EntryBackendId e) then with_status b (EntryState e) else b.

Lemma observe_id b e : Id (observe b e) = Id b.
Proof. unfold observe. by case_decide. Qed.
Lemma observe_all_id es b : Id (foldl observe b es) = Id b.
Proof. revert b. induction es as [|e es IH]; intros b; simpl; [done|]. by rewrite IH, observe_id. Qed.
Lemma observe_last es b :
  StatusState (Status (foldl observe b es)) =
  match last (filter (λ e, EntryBackendId e = Id b) es) with Some e => EntryState e | None => StatusState (Status b) end.
Proof.
  induction es as [|e es IH] using rev_ind; [done|]. rewrite foldl_snoc, filter_app, filter_cons, filter_nil.
  pose proof (observe_all_id es b) as Hid. destruct (foldl observe b es) as [i sp st co]. simpl in Hid, IH. subst i. unfold observe; simpl.
  case_decide as H1; case_decide as H2; simpl; try congruence.
  - by rewrite last_snoc.
  - by rewrite app_nil_r, IH.
Qed.

Section tracking.
Context {M : Type} `{!ObjectsManager M} (e : endian) `{!ObjectsManagerLaws e M}.
Context (iter : gset Z → list Z) (Hiter : ∀ X, iter X ≡ₚ elements X).
Implicit Types (c : Controller M).

(** What the kernel is given for a backend. *)
Definition entry_at (b : Backend) (s : udplbBackendSpecT) : Prop :=
  bId s = Id b ∧ bPort s = u16 (Port (Spec b)) ∧
  NetIPv4ToUint32 e (IP (Spec b)) = Done (bIp s) ∧ bMac s = take 6 (MacAddr (Spec b)).
(** The installed list is that of the available backends, and the table has
    its size. *)
Definition in_sync c : Prop :=
  filterAvailable (backends c) ≠ [] →
  Forall2 entry_at (filterAvailable (backends c)) (BackendList (installed (bpfMgr c))) ∧
  Z.of_nat (length (LookupTable (installed (bpfMgr c)))) = lookupTableSize c.
(** The kernel accepts the lists of at most [n] backends. *)
Definition writes_accepted (n : nat) : Prop :=
  ∀ (m : M) bl lt sm m' err, (length bl <= n)%nat → set_objects m bl lt sm = Done (m', err) → err = None.

Lemma recompute_backends c r : recomputeAndApply iter c = Done r → backends r.1 = backends c.
Proof.
  unfold recomputeAndApply. case_decide; [by intros [= <-]|]. destruct (ReverseCoordinatesLookupTable _ _ _); try done.
  cbn [mbind go_bind]. destruct (set_objects _ _ _ _) as [[]| | |]; try done. cbn [mbind go_bind]. by intros [= <-].
Qed.
Lemma recompute_size c r : recomputeAndApply iter c = Done r → lookupTableSize r.1 = lookupTableSize c.
Proof.
  unfold recomputeAndApply. case_decide; [by intros [= <-]|]. destruct (ReverseCoordinatesLookupTable _ _ _); try done.
  cbn [mbind go_bind]. destruct (set_objects _ _ _ _) as [[]| | |]; try done. cbn [mbind go_bind]. by intros [= <-].
Qed.
Lemma recompute_accepted n c r :
  writes_accepted n → (length (backends c) <= n)%nat → recomputeAndApply iter c = Done r → r.2 = None.
Proof.
  intros Hw Hl. unfold recomputeAndApply. case_decide; [by intros [= <-]|]. destruct (ReverseCoordinatesLookupTable _ _ _); try done.
  cbn [mbind go_bind]. destruct (set_objects _ _ _ _) as [[]| | |] eqn:Hs; try done. cbn [mbind go_bind]. intros [= <-]. simpl.
  eapply Hw; [|exact Hs]. pose proof (filterAvailable_length (backends c)). lia.
Qed.
Lemma recompute_sync c c' : ctl_ok c → recomputeAndApply iter c = Done (c', None) → in_sync c'.
Proof using Hiter ObjectsManagerLaws0.
  intros Hc Hr Hne. pose proof (recompute_backends _ _ Hr) as Hb. simpl in Hb. rewrite Hb in *.
  destruct (recompute_run e iter Hiter c Hc Hne) as ([c1 err] & Hr' & _ & Hsz & _ & _ & Hi).
  rewrite Hr in Hr'. injection Hr' as <- <-. destruct Hi as (out & t & Hout & Ht & ->). simpl.
  destruct (transformBackendList_returns e (filterAvailable (backends c))) as (out' & Hout' & _ & Hids);
    [by apply filterAvailable_Forall, co_inst|]. assert (out' = out) as -> by congruence.
  split; [exact Hids|]. rewrite Hsz. by eapply (table_length iter).
Qed.
(** The installed identifiers. *)
Lemma in_sync_ids c : in_sync c → filterAvailable (backends c) ≠ [] →
  bId <$> BackendList (installed (bpfMgr c)) = Id <$> filterAvailable (backends c).
Proof.
  intros Hs Hne. destruct (Hs Hne) as [Hf _]. clear -Hf. induction Hf as [|b x l l' (Hid & _) _ IH]; [done|].
  rewrite !fmap_cons, Hid. by f_equal.
Qed.

Lemma observe_others (l : list Backend) entry : (∀ b, b ∈ l → Id b ≠ EntryBackendId entry) → (λ b, observe b entry) <$> l = l.
Proof.
  induction l as [|b l IH]; intros Hn; [done|]. simpl. unfold observe at 1. rewrite decide_False by (apply Hn; set_solver).
  f_equal. apply IH. set_solver.
Qed.
Lemma observe_insert (l : list Backend) i b entry :
  NoDup (Id <$> l) → l !! i = Some b → Id b = EntryBackendId entry →
  (λ b, observe b entry) <$> l = <[i := with_status b (EntryState entry)]> l.
Proof.
  revert i. induction l as [|x l IH]; intros i Hnd Hi Hid; [done|]. rewrite fmap_cons in Hnd. apply NoDup_cons in Hnd as [Hx Hnd].
  rewrite fmap_cons. destruct i as [|i]; simpl in Hi; cbn [insert list_insert].
  - injection Hi as ->. unfold observe at 1. rewrite decide_True by done. f_equal. apply observe_others.
    intros y Hy Heq. apply Hx. rewrite Hid, <-Heq. by apply list_elem_of_fmap_2.
  - rewrite (IH i) by done. f_equal. unfold observe. rewrite decide_False; [done|].
    intros Heq. apply Hx. rewrite Heq, <-Hid. apply list_elem_of_fmap_2. by eapply list_elem_of_lookup_2.
Qed.
Lemma health_step_tracks n c entry :
  writes_accepted n → (length (backends c) <= n)%nat → ctl_ok c → coherent (installed (bpfMgr c)) → in_sync c →
  returns (health_step iter c entry) (λ c', ctl_ok c' ∧ coherent (installed (bpfMgr c')) ∧ in_sync c' ∧
    backends c' = (λ b, observe b entry) <$> backends c ∧ lookupTableSize c' = lookupTableSize c).
Proof using Hiter ObjectsManagerLaws0.
  intros Hw Hl Hc Hco Hsy. destruct (health_step_ok e iter Hiter c entry Hc Hco) as (c' & Hs & Hc' & Hco').
  exists c'. split; [exact Hs|]. split; [exact Hc'|]. split; [exact Hco'|].
  unfold health_step in Hs. destruct (list_find _ _) as [[i b]|] eqn:Hf.
  - apply list_find_Some in Hf as (Hb & Hid & _). rewrite (observe_insert _ i b) by (done || apply Hc). case_decide as Hst.
    + injection Hs as <-. split; [done|]. split; [|done]. rewrite list_insert_id; [done|]. rewrite Hb. destruct b as [? ? [] ?]. simpl in Hst. by subst.
    + pose proof (with_status_ok c i b (EntryState entry) Hc Hb) as Hok.
      destruct (recomputeAndApply _ _) as [[c1 err]| | |] eqn:Hr; try done. injection Hs as <-. split.
      * eapply recompute_sync; [exact Hok|]. assert (err = None) as <-; [|exact Hr].
        eapply (recompute_accepted n _ (c1, err) Hw); [|exact Hr]. simpl. by rewrite length_insert.
      * split; [apply (recompute_backends _ (c1, err) Hr)|apply (recompute_size _ (c1, err) Hr)].
  - injection Hs as <-. split; [done|]. split; [|done]. symmetry. apply observe_others. intros b Hb Hid.
    apply list_find_None in Hf. rewrite Forall_forall in Hf. by apply (Hf b).
Qed.
End tracking.

(** ** The channel between the two loops *)

Section channel.
Context (iter : gset Z → list Z) (Hiter : ∀ X, iter X ≡ₚ elements X) (specs : gmap uuid BackendSpec) (ch cap : Z).
Implicit Types (h : hstate).

Definition mux_of h : WatcherMux BackendStatusEntry := watcherMux (mon (health h)).
Definition roomy h (a : hact) : Prop :=
  match a with HProbe _ _ _ => ∀ w, heap (mux_of h) !! ch = Some w → Z.of_nat (length (buf w)) < cap | _ => True end.
(** Nothing the monitor does takes an entry out of the channel, and an entry
    is dropped only if there is no room. *)
Lemma hstep_spared h a h' :
  health_ok specs h → spares ch h a = true → hstep iter specs h a = Some h' →
  got_kept (mux_of h) (mux_of h') ch ∧
  (hloop h = HEnded → hloop h' = HEnded) ∧
  (roomy h a → hloop h' ≠ HEnded → listening cap (mux_of h) ch (status_entry <$> probed h) →
   listening cap (mux_of h') ch (status_entry <$> probed h')).
Proof using Hiter.
  intros [Hm _ _ _ _] Hsp Hs. unfold hstep in Hs. unfold mux_of. destruct (mcrashed (health h)) eqn:Hcr; [done|].
  destruct a; simpl in Hsp; mstep_cases Hs; simpl in *; try (split_and!; [apply got_kept_refl|done..]).
  - match goal with H : call_step _ _ = Some _ |- _ => destruct (call_spared _ _ _ _ Hsp H) as [H1 H2] end. auto.
  - apply negb_true_iff in Hsp as ->.
    destruct (dispatch_managed iter Hiter pick_done false _ (status_entry (l0, net)) Hm) as (m & Hd & _). rewrite Hd in Heqg.
    injection Heqg as <-. unfold monitor_dispatch in Hd. destruct (DispatchFuncWithTimeout _ _ _ _ _) as [mux| | |] eqn:Hx; try done.
    injection Hd as <-. split_and!; [by eapply dispatch_got|done|]. intros Hr _ HL. simpl. rewrite fmap_app.
    eapply dispatch_room; [done|by apply (mo_open _ _ Hm)|exact Hr|exact Hx|exact HL].
  - destruct (terminate_managed iter Hiter _ Hm) as (m & Hd & _). rewrite Hd in H. injection H as <-. simpl. rewrite Hcr.
    unfold monitor_terminate in Hd. destruct (WatcherMux.Close iter _) as [mux| | |] eqn:Hx; try done. cbn [mbind go_bind] in Hd.
    destruct (mDone _); [done|]. injection Hd as <-. split_and!; [by eapply close_got|done..].
Qed.
Lemma source_mux_ok h mux entry :
  health_ok specs h → recv (mux_of h) ch = Done (mux, Some entry) → health_ok specs (source_mux h mux).
Proof.
  intros [Hm Hr Hf Hp Hl] Hv. pose proof (recv_quiet _ _ _ _ Hv) as Hq.
  split; simpl; try done; [by apply managed_mux|by apply Hq].
Qed.
End channel.

Section path.
Context {M : Type} `{!ObjectsManager M} (e : endian) `{!ObjectsManagerLaws e M}.
Context (iter : gset Z → list Z) (Hiter : ∀ X, iter X ≡ₚ elements X) (specs : gmap uuid BackendSpec) (ch cap : Z).
Context (c0 : Controller M) (Hw : writes_accepted (M := M) (length (backends c0))).
Implicit Types (s : pstate M).

Definition in_hand (p : consumer_at) : list BackendStatusEntry := match p with CHave entry => [entry] | _ => [] end.
Definition fair_pact (a : pact) : Prop := match a with PHealth a => fair_hact a | _ => True end.

Record path_ok s : Prop := {
  po_health : health_ok specs (source s);
  po_ctl : ctl_ok (ctl s) ∧ coherent (installed (bpfMgr (ctl s)));
  po_sync : in_sync e (ctl s);
  po_size : lookupTableSize (ctl s) = lookupTableSize c0;
  po_backends : backends (ctl s) = (λ b, foldl observe b (consumed s)) <$> backends c0;
  po_took : ∃ w, heap (mux_of (source s)) !! ch = Some w ∧ got w = consumed s ++ in_hand (consumer s);
  po_alive : pcrashed s = false
}.
(** While [healthLoop] keeps up nothing is dropped. *)
Definition path_lossless s : Prop :=
  hloop (source s) ≠ HEnded → listening cap (mux_of (source s)) ch (status_entry <$> probed (source s)).

Lemma pstep_ok s a s' : fair_pact a → path_ok s → pstep iter specs ch s a = Some s' → path_ok s'.
Proof using Hiter Hw ObjectsManagerLaws0.
  intros Ha [Hh Hc Hsy Hsz Hb (w & Hg & Ht) Hal] Hs. unfold pstep in Hs. destruct (_ || pcrashed s); [done|].
  destruct a as [a| | | | |a]; simpl in Ha; mstep_cases Hs.
  - match goal with H : hstep _ _ _ _ = Some _ |- _ => rename H into Hst end.
    destruct (hstep_spared iter Hiter specs ch 0 _ _ _ Hh Heqb Hst) as (Hk & _). destruct (Hk w Hg) as (w' & Hg' & Hw').
    split; simpl; try done; [by eapply hstep_ok|]. exists w'. split; [done|congruence].
  - split; simpl; try done; [by eapply source_mux_ok|].
    apply recv_some in Heqg as (wa & w' & Hwa & -> & _ & Hg' & _). unfold mux_of in Hg. simplify_eq.
    exists w'. unfold mux_of; simpl. rewrite lookup_insert_eq. split; [done|]. rewrite Hg', Ht. simpl. by rewrite app_nil_r.
  - split; simpl; try done. exists w. split; [done|exact Ht].
  - split; simpl; try done. exists w. split; [done|exact Ht].
  - destruct (health_step_tracks e iter Hiter (length (backends c0)) (ctl s) entry) as (c' & Hs & H1 & H2 & H3 & H4 & H5);
      [done|by rewrite Hb, length_fmap|apply Hc|apply Hc|done|].
    rewrite Hs in Heqg. injection Heqg as <-. split; simpl; try done.
    + congruence.
    + rewrite H4, Hb, <-list_fmap_compose. apply list_fmap_ext. intros i b _. simpl. by rewrite foldl_snoc.
    + exists w. split; [done|]. rewrite Ht. simpl. by rewrite app_nil_r.
  - exfalso. destruct (health_step_tracks e iter Hiter (length (backends c0)) (ctl s) entry) as (c' & Hs & _);
      [done|by rewrite Hb, length_fmap|apply Hc|apply Hc|done|]. by rewrite Hs in Heqg.
  - destruct Hc as [Hc Hco]. assert (backends (assignment_step (ctl s) a) = backends (ctl s) ∧ bpfMgr (assignment_step (ctl s) a) = bpfMgr (ctl s) ∧
      lookupTableSize (assignment_step (ctl s) a) = lookupTableSize (ctl s)) as (H1 & H2 & H3).
    { unfold assignment_step. by destruct (list_find _ _) as [[]|]. }
    split; simpl; unfold in_sync; rewrite ?H1, ?H2, ?H3; try done; [|eauto]. split; [by apply assignment_step_ok|done].
Qed.
Lemma prompt_step_ok s a s' :
  fair_pact a → path_ok s ∧ path_lossless s → prompt_step iter specs ch s a = Some s' → path_ok s' ∧ path_lossless s'.
Proof using Hiter Hw ObjectsManagerLaws0.
  intros Ha [Hok Hl] Hs. assert (Hp : pstep iter specs ch s a = Some s').
  { unfold prompt_step in Hs. destruct a as [[]| | | | |]; try done. by destruct (has_room _ _). }
  split; [by eapply pstep_ok|]. unfold path_lossless in *. unfold pstep in Hp. destruct (_ || pcrashed s); [done|].
  destruct a as [a| | | | |a]; simpl in Ha; mstep_cases Hp; try done.
  - match goal with H : hstep _ _ _ _ = Some _ |- _ => rename H into Hst end. simpl.
    destruct (hstep_spared iter Hiter specs ch cap _ _ _ (po_health _ Hok) Heqb Hst) as (_ & He & HL). intros Hne.
    apply HL; [|done|apply Hl; auto]. destruct a; try done. simpl in Hs |- *. unfold has_room in Hs.
    destruct (hloop (source s)) eqn:Eh; try (by unfold hstep in Hst; rewrite Eh in Hst; destruct (mcrashed _)).
    rewrite <-(ls_cap _ _ _ _ (Hl ltac:(done))). unfold mux_of. intros w Hw'. rewrite Hw' in Hs.
    case_bool_decide; done.
  - simpl. intros Hne. unfold mux_of in *. simpl. eapply recv_listening; [exact Heqg|auto].
Qed.
End path.

(** ** The started process *)

Lemma specs_lookup (bs : list Backend) b : b ∈ bs → is_Some (foldl (λ acc b, <[Id b := Spec b]> acc) (∅ : gmap uuid BackendSpec) bs !! Id b).
Proof.
  induction bs as [|x bs IH] using rev_ind; [set_solver|]. rewrite foldl_snoc. intros [Hb| ->%list_elem_of_singleton]%elem_of_app.
  - apply lookup_insert_is_Some'. auto.
  - rewrite lookup_insert_eq. eauto.
Qed.

Section started.
Context {K : Type} `{!EbpfObjects K, !EbpfObjectsLaws K, !FlatErrors, !UuidSHA1} (e : endian)
        (iter : gset Z → list Z) (Hiter : map_iteration iter).
#[local] Existing Instance dsManager_manager.

Record path_start (specs : gmap uuid BackendSpec) (ch : Z) (c : Controller (dsManager K)) (m : monitor BackendStatusEntry) : Prop := {
  ps_monitor : ∃ mux, m = (monitor_Run None (new_monitor mux)).1 ∧ mux_ready mux ∧ doneClosed mux = false ∧ logged mux [] ∧
    listening 100 mux ch [] ∧ ∃ w, heap mux !! ch = Some w ∧ got w = [];
  ps_ctl : @ctl_ok _ (dsManager_manager e) c ∧ coherent (active (objs (bpfMgr c)));
  ps_sync : @in_sync _ (dsManager_manager e) e c;
  ps_specs : ∀ b, b ∈ backends c → is_Some (specs !! Id b)
}.

Lemma New_monitor env iface config (k : K) w : New e env iface config k = Done (inl w) →
  (∃ mux, bsMonitor (healthMonitor w) = new_monitor mux ∧ mux_ready mux ∧ doneClosed mux = false ∧ logged mux [] ∧
     listening 100 mux (healthCh w) [] ∧ ∃ x, heap mux !! healthCh w = Some x ∧ got x = []) ∧
  ∀ b, b ∈ backends (Wiring.ctl w) → is_Some (bsBackends (healthMonitor w) !! Id b).
Proof.
  unfold New. destruct iface as [hw|]; [|done]. destruct (ParseIP _) as [ip|]; [|done].
  destruct (buildBackends e config) as [[bs|]| | |]; try done. cbn [mbind go_bind].
  unfold monitor_Watch. simpl watcherMux. destruct (Watch (NewWatcherMux 100) None) as [[mux id]| | |] eqn:Hw; try done. cbn [mbind go_bind].
  destruct (bpf_New _ _ _ _ _ _ _ _) as [[[[cfg prog] mgr]|]| | |]; try done. cbn [mbind go_bind].
  intros [= <-]. simpl. split; [|apply specs_lookup]. exists mux. destruct (watch_new _ _ _ Hw) as [Hl Hg]. pose proof (watch_quiet _ _ _ _ Hw) as [_ Hd Hr Hlo].
  split_and!; [done|apply Hr, new_mux_ready; lia|by rewrite Hd|apply Hlo, logged_new|exact Hl|exact Hg].
Qed.
Lemma started_path env iface config k w w' :
  sound_config config → (∀ mac, iface = inl mac → (6 <= length mac)%nat) → coherent (active k) →
  New e env iface config k = Done (inl w) → Run e iter None w = Done (w', None) →
  path_start (bsBackends (healthMonitor w')) (healthCh w') (Wiring.ctl w') (bsMonitor (healthMonitor w')).
Proof using Hiter EbpfObjectsLaws0.
  intros Hs Hmac Hco HN HR. pose proof (New_ready e _ _ _ _ _ HN) as Hready.
  destruct (New_run e env iface config k Hs Hmac) as (r & HN' & Hb). rewrite HN in HN'. injection HN' as <-. specialize (Hb w eq_refl).
  destruct (Run_healthy e iter Hiter config k w None Hs Hco Hready Hb) as (r & HR' & Hh). rewrite HR in HR'. injection HR' as <-.
  specialize (Hh eq_refl). destruct (New_monitor _ _ _ _ _ HN) as [(mux & Hm & Hmr & Hmd & Hml & Hls & Hg) Hsp].
  destruct Hready as ([Hm1 Hm2 _ _ _ _ _] & _ & _ & _ & Hpr & _). unfold Run, prog_Run in HR. rewrite Hpr in HR.
  destruct (mgr_Run (bpfMgr (Wiring.ctl w))) as [[mgr er]| | |] eqn:HRm; try done. cbn [mbind go_bind] in HR. destruct er; [done|].
  destruct (WatchAssignment mgr) as [[mgr2 id]| | |] eqn:HW; try done. cbn [mbind go_bind] in HR.
  unfold monitor_Run in HR. rewrite Hm1, Hm2 in HR.
  destruct (recomputeAndApply _ _) as [[c er]| | |] eqn:Hc; try done. cbn [mbind go_bind] in HR. injection HR as <- ->.
  pose proof (recompute_backends iter _ _ Hc) as Hbk. simpl in Hbk. split; simpl.
  - exists mux. rewrite Hm. by split_and!.
  - exact Hh.
  - eapply (recompute_sync e iter Hiter); [|exact Hc].
    destruct Hb as [Hmgr Hctl]. destruct (@new_controller_ok _ (dsManager_manager e) _ e config mgr2 (with_mgr (Wiring.ctl w) mgr2) (Hctl mgr2)) as [Hok _];
      [|apply Hs|apply Hs|apply Hs|exact Hok].
    pose proof (recompute_frame _ _ _ _ _ Hc) as Hf. destruct Hh as [Hh _]. pose proof (co_mgr _ Hh) as Ha. simpl in Ha, Hf. by rewrite Hf in Ha.
  - intros b Hbb. apply Hsp. by rewrite Hbk in Hbb.
Qed.
End started.

(** ** What a caught-up controller knows *)

Section caught_up.
Context {M : Type} `{!ObjectsManager M} (e : endian) (iter : gset Z → list Z) (specs : gmap uuid BackendSpec) (ch cap : Z) (c0 : Controller M).
Implicit Types (s : pstate M).

Lemma last_entry (ps : list (uuid * probe_net)) id :
  EntryState <$> last (filter (λ x, EntryBackendId x = id) (status_entry <$> ps)) = last_probe ps id.
Proof.
  assert (filter (λ x, EntryBackendId x = id) (status_entry <$> ps) = status_entry <$> filter (λ p : uuid * probe_net, p.1 = id) ps) as ->.
  { induction ps as [|p ps IH]; [done|]. rewrite fmap_cons, !filter_cons. simpl. case_decide; [|done]. rewrite fmap_cons. by f_equal. }
  unfold last_probe. rewrite fmap_last. by destruct (last _).
Qed.
Lemma probed_once s id :
  health_ok specs (source s) → hloop (source s) = HSelect → rounds (source s) ≠ [] → is_Some (specs !! id) →
  is_Some (last_probe (probed (source s)) id).
Proof.
  intros [_ Hr Hf _ _] Hsel Hne [spec Hs]. rewrite Hsel in Hr. simpl in Hr. rewrite app_nil_r in Hr.
  assert (Hin : id ∈ (probed (source s)).*1).
  { rewrite Hr. destruct (rounds (source s)) as [|r rs]; [done|]. apply Forall_cons in Hf as [Hp _]. simpl. apply elem_of_app. left.
    rewrite Hp. apply list_elem_of_fmap. exists (id, spec). by rewrite elem_of_map_to_list. }
  apply list_elem_of_fmap in Hin as ([i net] & -> & Hin). unfold last_probe. apply fmap_is_Some, last_is_Some.
  intros Hnil. apply (not_elem_of_nil (A := uuid * probe_net) (i, net)). rewrite <-Hnil. by apply list_elem_of_filter.
Qed.
Lemma consumed_prefix s : path_ok e specs ch c0 s → path_lossless ch cap s → hloop (source s) ≠ HEnded →
  consumed s ++ in_hand (consumer s) `prefix_of` status_entry <$> probed (source s).
Proof.
  intros Hok Hl Hne. destruct (po_took _ _ _ _ _ Hok) as (w & Hw & <-). destruct (Hl Hne) as [_ _ (w' & Hw' & _ & <-)].
  assert (w' = w) as -> by congruence. by exists (buf w).
Qed.
Lemma states_tracked s :
  path_ok e specs ch c0 s → path_lossless ch cap s → (∀ b, b ∈ backends c0 → is_Some (specs !! Id b)) →
  hloop (source s) = HSelect → rounds (source s) ≠ [] → consumer s = CSelect → recv (mux_of (source s)) ch = Blocked →
  ∀ b, b ∈ backends (ctl s) → last_probe (probed (source s)) (Id b) = Some (StatusState (Status b)).
Proof.
  intros Hok Hl Hsp Hsel Hne Hc Hb b Hin. destruct (po_took _ _ _ _ _ Hok) as (w & Hw & Hg). rewrite Hc, app_nil_r in Hg.
  assert (Hcons : consumed s = status_entry <$> probed (source s)).
  { rewrite <-Hg. eapply listening_drained; [apply Hl; congruence|exact Hw|exact Hb]. }
  rewrite (po_backends _ _ _ _ _ Hok) in Hin. apply list_elem_of_fmap in Hin as (b0 & -> & Hin0).
  rewrite observe_all_id, observe_last, Hcons.
  destruct (probed_once s (Id b0) (po_health _ _ _ _ _ Hok) Hsel Hne (Hsp b0 Hin0)) as [st Hst]. rewrite <-last_entry in *.
  destruct (last _) as [x|]; [done|discriminate Hst].
Qed.
End caught_up.

(** Every state a started process reaches. *)
Section reached.
Context {K : Type} `{!EbpfObjects K, !EbpfObjectsLaws K, !FlatErrors, !UuidSHA1} (e : endian)
        (iter : gset Z → list Z) (Hiter : map_iteration iter).
Lemma prompt_path_ok specs ch (c : Controller (dsManager K)) m acts s :
  path_start e specs ch c m → @writes_accepted _ (dsManager_manager e) (length (backends c)) → Forall fair_pact acts →
  run_acts (@prompt_step _ (dsManager_manager e) iter specs ch) (start_path c m) acts = Some s →
  @path_ok _ (dsManager_manager e) e specs ch c s ∧ path_lossless ch 100 s.
Proof using Hiter EbpfObjectsLaws0.
  intros [(mux & Hm & Hmr & Hmd & Hml & Hls & Hg) Hctl Hsy Hsp] Hw Ha.
  apply (run_acts_inv_in _ (λ s, @path_ok _ (dsManager_manager e) e specs ch c s ∧ path_lossless ch 100 s) fair_pact); [|done|].
  - intros s1 a s2 H1 H2 H3. eapply (@prompt_step_ok _ (dsManager_manager e) e (dsManager_laws e)); eauto.
  - rewrite Hm. split; [|by intros _]. split; simpl; try done; [by apply start_health_ok|].
    symmetry. by apply list_fmap_id.
Qed.
End reached.

(** * Properties *)

(** C4: From the probes to the data plane. A process started from a sound
    configuration whose kernel accepts the lists, under every schedule of the
    health monitor, its other subscribers, [Close] of the monitor and both
    loops of the controller in which [healthLoop] stays less than a channel
    (100 entries) behind: the controller does not panic and handles the
    entries in the order of the probes, losing none. Between two rounds, once
    it has caught up, it holds for each backend the outcome of the last probe
    of that backend, and the list the program reads is that of the available
    backends, in order, unless there is none. *)
Theorem probes_reach_dataplane {K} `{!EbpfObjects K, !EbpfObjectsLaws K, !FlatErrors, !UuidSHA1} (e : endian) iter env iface
    config (k : K) (w w' : wired K) acts s :
  map_iteration iter → sound_config config → (∀ mac, iface = inl mac → (6 <= length mac)%nat) → coherent (active k) →
  @writes_accepted _ (dsManager_manager e) (length (backends (Wiring.ctl w'))) →
  New e env iface config k = Done (inl w) → Run e iter None w = Done (w', None) → Forall fair_pact acts →
  run_acts (@prompt_step _ (dsManager_manager e) iter (bsBackends (healthMonitor w')) (healthCh w'))
    (start_path (Wiring.ctl w') (bsMonitor (healthMonitor w'))) acts = Some s →
  pcrashed s = false ∧
  (hloop (source s) ≠ HEnded → consumed s ++ in_hand (consumer s) `prefix_of` status_entry <$> probed (source s)) ∧
  (hloop (source s) = HSelect → rounds (source s) ≠ [] → consumer s = CSelect →
   recv (mux_of (source s)) (healthCh w') = Blocked →
   (∀ b, b ∈ backends (ctl s) → last_probe (probed (source s)) (Id b) = Some (StatusState (Status b))) ∧
   (filterAvailable (backends (ctl s)) ≠ [] →
    bId <$> BackendList (active (objs (bpfMgr (ctl s)))) = Id <$> filterAvailable (backends (ctl s)))).
Proof.
  intros Hiter Hs Hmac Hco Hw HN HR Ha Hrun.
  pose proof (started_path e iter Hiter _ _ _ _ _ _ Hs Hmac Hco HN HR) as Hst.
  destruct (prompt_path_ok e iter Hiter _ _ _ _ _ _ Hst Hw Ha Hrun) as [Hok Hl].
  split; [apply Hok|]. split; [by eapply consumed_prefix|]. intros H1 H2 H3 H4.
  split; [by eapply states_tracked; try done; apply Hst|]. intros Hne. by apply (@in_sync_ids _ (dsManager_manager e) e), Hne; apply Hok.
Qed.

Lemma mapM_go_length {A B} (f : A → go B) l out : mapM f l = Done out → length out = length l.
Proof.
  revert out. induction l as [|x l IH]; intros out; [by intros [= <-]|]. rewrite mapM_go_cons.
  destruct (f x); try done. cbn [mbind go_bind]. destruct (mapM f l) as [o| | |]; try done. cbn [mbind go_bind].
  intros [= <-]. simpl. by rewrite (IH o).
Qed.
(** The kernel of the example takes 64 backends. *)
Lemma shared_accepts (n : nat) : (n <= 64)%nat →
  @writes_accepted _ (@dsManager_manager shared_kernel _ flaterrors_wraps LittleEndian) n.
Proof.
  intros Hn m bl lt sm m' err Hl. simpl. unfold SetObjects. cbn [AnyPtrIsNil existsb orb].
  destruct (transformBackendList LittleEndian bl) as [out| | |] eqn:Ht; try done. apply mapM_go_length in Ht.
  cbn [mbind go_bind]. rewrite newEvent_set. unfold submit.
  destruct (eventChClosed m), (loopLive m); try done. simpl. unfold handleEvent. rewrite decide_True by done.
  unfold setObjects. simpl. case_decide; [lia|]. by intros [= _ <-].
Qed.

(** One round: the first backend does not answer, the second does; the
    controller handles both entries. *)
Definition path_acts : list pact :=
  [PHealth (HTick map_to_list); PHealth (HProbe no_dial true false); PTake;
   PHealth (HProbe {| dial_ok := true; deadline_ok := true; write_ok := true; reply := Some [0] |} true false); PHandle; PTake; PHandle].
Lemma sample_path : ∃ w w' : wired shared_kernel, ∃ s,
  @New _ flaterrors_wraps sample_sha1 LittleEndian quiet_env (inl [2; 0; 0; 0; 0; 9]) ipv4_config fresh_kernel = Done (inl w) ∧
  @Run _ _ flaterrors_wraps LittleEndian elements None w = Done (w', None) ∧ (length (backends (Wiring.ctl w')) <= 64)%nat ∧
  run_acts (@prompt_step _ (@dsManager_manager _ _ flaterrors_wraps LittleEndian) elements (bsBackends (healthMonitor w')) (healthCh w'))
    (start_path (Wiring.ctl w') (bsMonitor (healthMonitor w'))) path_acts = Some s.
Proof.
  eexists. eexists. eexists. split; [vm_compute; reflexivity|]. split; [vm_compute; reflexivity|].
  split; [apply Nat.leb_le; vm_compute; reflexivity|]. vm_compute. reflexivity.
Qed.

Lemma path_acts_fair : Forall fair_pact path_acts.
Proof. repeat (apply Forall_cons_2; [first [exact I|intros m; reflexivity]|]). apply Forall_nil_2. Qed.
Lemma probes_reach_dataplane_witness : ∃ w w' : wired shared_kernel, ∃ s,
  @New _ flaterrors_wraps sample_sha1 LittleEndian quiet_env (inl [2; 0; 0; 0; 0; 9]) ipv4_config fresh_kernel = Done (inl w) ∧
  @Run _ _ flaterrors_wraps LittleEndian elements None w = Done (w', None) ∧
  pcrashed s = false ∧
  (hloop (source s) ≠ HEnded → consumed s ++ in_hand (consumer s) `prefix_of` status_entry <$> probed (source s)) ∧
  (hloop (source s) = HSelect → rounds (source s) ≠ [] → consumer s = CSelect →
   recv (mux_of (source s)) (healthCh w') = Blocked →
   (∀ b, b ∈ backends (ctl s) → last_probe (probed (source s)) (Id b) = Some (StatusState (Status b))) ∧
   (filterAvailable (backends (ctl s)) ≠ [] →
    bId <$> BackendList (active (objs (bpfMgr (ctl s)))) = Id <$> filterAvailable (backends (ctl s)))).
Proof.
  destruct sample_path as (w & w' & s & HN & HR & Hl & Hr). exists w, w', s. split; [exact HN|]. split; [exact HR|].
  apply (@probes_reach_dataplane _ _ _ flaterrors_wraps sample_sha1 LittleEndian elements quiet_env (inl [2; 0; 0; 0; 0; 9])
           ipv4_config fresh_kernel w w' path_acts s).
  - intros X. reflexivity.
  - exact ipv4_config_sound.
  - intros mac [= <-]. simpl. lia.
  - apply (bool_decide_unpack _). by vm_compute.
  - exact (shared_accepts _ Hl).
  - exact HN.
  - exact HR.
  - exact path_acts_fair.
  - exact Hr.
Defined.
