(* ===== verification/Failover.v ===== *)
(** * Failover: from the probes of the health monitor to the frames

    [HealthPath] and [DataPath] together: the controller of a started process
    under every schedule of its health path, and the XDP program on the maps
    that hold what the controller installed.  Traffic goes only to the
    configured backends whose last probe was answered. *)
From S2P Require Import Prelude Types Rlt RltReverse GoNet WatcherMux MuxStreams Packet BpfManager Monitor MonitorLoops Controller Wiring Xdp DataPath Main HealthPath.

(** The backend a configuration entry became: its addresses and its
    identifier, enabled. *)
Definition configured `{!UuidSHA1} (bc : BackendConfig) (b : Backend) : Prop :=
  Id b = config_id bc ∧ SpecState (Spec b) = StateAvailable ∧
  ParseIP (cfgIP bc) = Some (IP (Spec b)) ∧ ParseMAC (cfgMAC bc) = Some (MacAddr (Spec b)) ∧ Port (Spec b) = cfgPort bc.

(** The enabled entries of the configuration whose backend answered its last
    probe. *)
Definition answering `{!UuidSHA1} (config : Config) (ps : list (uuid * probe_net)) (bc : BackendConfig) : Prop :=
  bc ∈ filter (λ bc, Enabled bc) (Backends config) ∧ last_probe ps (config_id bc) = Some StateAvailable.

(** The frame [p'] is addressed to the backend of the entry [bc]. *)
Definition addressed (bc : BackendConfig) (p' : list Z) : Prop :=
  ∃ mac, ParseIP (cfgIP bc) ≫= To4 = Some (field p' off_daddr 4) ∧
    ParseMAC (cfgMAC bc) = Some mac ∧ field p' off_h_dest 6 = take 6 mac ∧
    field p' off_udp_dest 2 = [u16 (cfgPort bc) `div` 256; u16 (cfgPort bc) `mod` 256].

(** * Lemmas *)

(** ** Backends and configuration *)

Lemma observe_configured `{!UuidSHA1} bc b es : configured bc b → configured bc (foldl observe b es).
Proof.
  intros (H1 & H2 & H3 & H4 & H5). assert (Spec (foldl observe b es) = Spec b) as Hsp.
  { clear. revert b. induction es as [|x es IH]; intros b; simpl; [done|]. rewrite IH. unfold observe. by case_decide. }
  unfold configured. by rewrite Hsp, observe_all_id.
Qed.
Lemma built_configured `{!UuidSHA1} bc b : Controller.built bc b → configured bc b.
Proof.
  intros (H1 & H2 & H3 & [Ha%bool_decide_eq_true _]%andb_true_iff & H5 & _). by split_and!.
Qed.

Section started.
Context {K : Type} `{!EbpfObjects K, !EbpfObjectsLaws K, !FlatErrors, !UuidSHA1} (e : endian)
        (iter : gset Z → list Z) (Hiter : map_iteration iter).

Lemma Run_backends att (w w' : wired K) : Run e iter att w = Done (w', None) → backends (Wiring.ctl w') = backends (Wiring.ctl w).
Proof.
  unfold Run. destruct (prog_Run _ _) as [pr [er|]]; [done|].
  destruct (mgr_Run _) as [[m [er|]]| | |]; try done. cbn [mbind go_bind].
  destruct (WatchAssignment _) as [[m' id]| | |]; try done. cbn [mbind go_bind].
  destruct (monitor_Run _ _) as [hm [er|]]; [done|].
  destruct (recomputeAndApply _ _) as [[c er]| | |] eqn:Hc; try done. cbn [mbind go_bind]. intros [= <- _].
  apply (recompute_backends iter _ _ Hc).
Qed.
Lemma started_configured env iface config (k : K) w w' att :
  sound_config config → (∀ mac, iface = inl mac → (6 <= length mac)%nat) →
  New e env iface config k = Done (inl w) → Run e iter att w = Done (w', None) →
  Forall2 configured (filter (λ bc, Enabled bc) (Backends config)) (backends (Wiring.ctl w')).
Proof.
  intros Hs Hmac HN HR. rewrite (Run_backends _ _ _ HR).
  destruct (New_run e env iface config k Hs Hmac) as (r & HN' & Hb). rewrite HN in HN'. injection HN' as <-.
  destruct (Hb w eq_refl) as [_ Hctl]. specialize (Hctl (bpfMgr (Wiring.ctl w))). unfold new_controller, buildBackends in Hctl.
  destruct (buildBackends_run e (Backends config) []) as (r & Hr & Hspec). rewrite Hr in Hctl. cbn [mbind go_bind] in Hctl.
  destruct r as [bs|err]; [|done]. destruct Hspec as (_ & bs' & -> & Hf). injection Hctl as Hbs _.
  rewrite <-Hbs. simpl. eapply Forall2_impl; [exact Hf|]. apply built_configured.
Qed.
End started.

(** ** The verdict on a frame *)

Section forward.
Context {M : Type} `{!ObjectsManager M, !ObjectsManagerLaws LittleEndian M, !CsumDiff}
        (pcfg : udplbConfigT) (Hcfg : config_ok pcfg).
Implicit Types (c : Controller M).

(** From a controller in step with the data plane a frame goes to an
    available backend. *)
Lemma in_sync_forward c ap k env p :
  ctl_ok c → coherent (installed (bpfMgr c)) → in_sync LittleEndian c → filterAvailable (backends c) ≠ [] →
  LookupTableSize pcfg = lookupTableSize c → reads ap k (installed (bpfMgr c)) → steady ap env →
  balanced (cfgIp pcfg) (cfgPort_ pcfg) p → field p off_h_source 6 ≠ cfgMac pcfg → 1 < ttl_of p →
  ∃ i s b, verdict_of pcfg env k p = Forward i s ∧ b ∈ backends c ∧ is_available b = true ∧ entry_for b s.
Proof using ObjectsManagerLaws0.
  intros Hc Hco Hsy Hne Hsz Hr Hst Hb Hm Ht. destruct (Hsy Hne) as [Hf Hlen].
  assert (Hsv : servable c (installed (bpfMgr c))).
  { split; [done|done|]. apply Forall_forall. intros s [j Hj]%list_elem_of_lookup.
    destruct (Forall2_lookup_r _ _ _ _ _ Hf Hj) as (b & Hbj & He). exists b. split; [|exact He].
    apply list_elem_of_lookup_2, elem_of_filterAvailable in Hbj. apply Hbj. }
  destruct (servable_routes pcfg c _ k ap env (session_of p) Hsv Hr Hsz) as (i & s & Hro & Hin & Hlk); [by apply co_size|done|].
  apply list_elem_of_lookup in Hin as [j Hj]. destruct (Forall2_lookup_r _ _ _ _ _ Hf Hj) as (b & Hbj & He).
  apply list_elem_of_lookup_2, elem_of_filterAvailable in Hbj as [Ha Hin].
  exists i, s, b. split_and!; try done. unfold verdict_of. rewrite decide_True by done. rewrite decide_False by done.
  rewrite decide_False by lia. by rewrite Hro, Hlk.
Qed.

(** A frame forwarded to the kernel entry of a configured IPv4 backend. *)
Lemma forwarded_addressed `{!UuidSHA1} bc b s p p' :
  configured bc b → ipv4 bc → entry_for b s → forwarded pcfg s p p' → addressed bc p'.
Proof.
  intros (Hid & _ & Hip & Hmac & Hpo) Hv4 (_ & Eport & Eip & Emac) Hf. exists (MacAddr (Spec b)).
  rewrite (fw_daddr _ _ _ _ Hf), (fw_h_dest _ _ _ _ Hf), (fw_dport _ _ _ _ Hf), Emac, Eport, Hpo.
  split_and!; try done. rewrite Hip. simpl. unfold ipv4 in Hv4. rewrite Hip in Hv4.
  apply wire_address; [by eapply ParseIP_bytes|done|done].
Qed.

(** The program after any frames it has taken from these maps. *)
Lemma in_sync_delivers `{!UuidSHA1} config c ap k0 frames env p :
  ctl_ok c → coherent (installed (bpfMgr c)) → in_sync LittleEndian c → filterAvailable (backends c) ≠ [] →
  Forall ipv4 (filter (λ bc, Enabled bc) (Backends config)) →
  Forall2 configured (filter (λ bc, Enabled bc) (Backends config)) (backends c) →
  LookupTableSize pcfg = lookupTableSize c → reads ap k0 (installed (bpfMgr c)) → maps_ok k0 →
  Forall (λ x, Forall is_byte x.2 ∧ steady ap x.1) frames → steady ap env → Forall is_byte p →
  balanced (cfgIp pcfg) (cfgPort_ pcfg) p → field p off_h_source 6 ≠ cfgMac pcfg → 1 < ttl_of p →
  returns (k ← xdp_run pcfg k0 frames; udplb pcfg env k p) (λ '(act, _, p'),
    act = XDP_TX ∧ ∃ bc b, bc ∈ filter (λ bc, Enabled bc) (Backends config) ∧ configured bc b ∧
      b ∈ backends c ∧ is_available b = true ∧ addressed bc p').
Proof using ObjectsManagerLaws0 Hcfg.
  intros Hc Hco Hsy Hne Hv4 Hconf Hsz Hr Hk Hfr Hst Hp Hb Hm Ht.
  destruct (in_sync_forward c ap k0 env p Hc Hco Hsy Hne Hsz Hr Hst Hb Hm Ht) as (i & s & b & Hv & Hin & Hav & He).
  pose proof Hin as [j Hj]%list_elem_of_lookup. destruct (Forall2_lookup_r _ _ _ _ _ Hconf Hj) as (bc & Hbj & Hbc).
  eapply returns_bind; [by apply xdp_run_verdicts|]. intros k [Hk' Hs'].
  eapply returns_mono; [by apply udplb_run|]. intros [[act k1] p']. unfold outcome_of. rewrite (Hs' env p Hst), Hv.
  intros (-> & Hf & _). split; [done|]. exists bc, b. split; [by eapply list_elem_of_lookup_2|].
  split_and!; try done. eapply forwarded_addressed; try done. by eapply Forall_lookup_1.
Qed.
End forward.

(** ** What the probes say of the backends *)

Section caught_up.
Context {M : Type} `{!ObjectsManager M, !UuidSHA1} (e : endian) (specs : gmap uuid BackendSpec) (ch : Z) (c0 : Controller M).
Context (config : Config) (Hconf : Forall2 configured (filter (λ bc, Enabled bc) (Backends config)) (backends c0)).
Implicit Types (s : pstate M).

Lemma path_configured s : path_ok e specs ch c0 s → Forall2 configured (filter (λ bc, Enabled bc) (Backends config)) (backends (ctl s)).
Proof using Hconf.
  intros Hok. rewrite (po_backends _ _ _ _ _ Hok). clear -Hconf.
  induction Hconf as [|bc b bcs bs Hb Hf IH]; [constructor|]. rewrite fmap_cons. constructor; [by apply observe_configured|by apply IH].
Qed.
(** The available backends are those that answered their last probe. *)
Lemma available_iff_answered s bc b :
  (∀ b, b ∈ backends (ctl s) → last_probe (probed (source s)) (Id b) = Some (StatusState (Status b))) →
  configured bc b → b ∈ backends (ctl s) →
  is_available b = true ↔ last_probe (probed (source s)) (config_id bc) = Some StateAvailable.
Proof using.
  intros Htr (Hid & Hsp & _) Hb. rewrite <-Hid, (Htr b Hb). unfold is_available. rewrite Hsp.
  rewrite andb_true_iff, !bool_decide_eq_true. split; [by intros [_ ->]|by intros [= ->]].
Qed.
Lemma answering_available s :
  path_ok e specs ch c0 s →
  (∀ b, b ∈ backends (ctl s) → last_probe (probed (source s)) (Id b) = Some (StatusState (Status b))) →
  (∃ bc, answering config (probed (source s)) bc) → filterAvailable (backends (ctl s)) ≠ [].
Proof using Hconf.
  intros Hok Htr (bc & [j Hj]%list_elem_of_lookup & Hlast) Hnil.
  destruct (Forall2_lookup_l _ _ _ _ _ (path_configured s Hok) Hj) as (b & Hb & Hbc). apply list_elem_of_lookup_2 in Hb.
  apply (not_elem_of_nil b). rewrite <-Hnil. apply elem_of_filterAvailable. split; [|done]. by apply (available_iff_answered s bc b).
Qed.
End caught_up.

(** * Properties *)

(** C3: Failover, end to end. In a process started from a sound configuration
    on a little-endian machine, whose kernel accepts the lists, let
    [healthLoop] be caught up between two rounds of the health monitor, after
    any schedule in which it kept less than a channel behind.  If the maps
    held what the controller installed, and the program then took any frames,
    every further frame for the load balancer is sent, whatever its session,
    to the configured address, hardware address and port of an enabled
    backend that answered its last probe, provided that one did: a backend
    that stopped answering gets no traffic. *)
Theorem dead_backends_get_nothing {K} `{!EbpfObjects K, !EbpfObjectsLaws K, !FlatErrors, !UuidSHA1, !CsumDiff} iter env iface
    config (k : K) (w w' : wired K) acts s pcfg ap k0 frames xenv p :
  map_iteration iter → sound_config config → (∀ mac, iface = inl mac → (6 <= length mac)%nat) → coherent (active k) →
  @writes_accepted _ (dsManager_manager LittleEndian) (length (backends (Wiring.ctl w'))) →
  New LittleEndian env iface config k = Done (inl w) → Run LittleEndian iter None w = Done (w', None) → Forall fair_pact acts →
  run_acts (@prompt_step _ (dsManager_manager LittleEndian) iter (bsBackends (healthMonitor w')) (healthCh w'))
    (start_path (Wiring.ctl w') (bsMonitor (healthMonitor w'))) acts = Some s →
  hloop (source s) = HSelect → rounds (source s) ≠ [] → consumer s = CSelect → recv (mux_of (source s)) (healthCh w') = Blocked →
  (∃ bc, answering config (probed (source s)) bc) →
  config_ok pcfg → LookupTableSize pcfg = lookupTableSize (Wiring.ctl w') →
  reads ap k0 (active (objs (bpfMgr (ctl s)))) → maps_ok k0 →
  Forall (λ x, Forall is_byte x.2 ∧ steady ap x.1) frames → steady ap xenv → Forall is_byte p →
  balanced (cfgIp pcfg) (cfgPort_ pcfg) p → field p off_h_source 6 ≠ cfgMac pcfg → 1 < ttl_of p →
  returns (k1 ← xdp_run pcfg k0 frames; udplb pcfg xenv k1 p) (λ '(act, _, p'),
    act = XDP_TX ∧ ∃ bc, answering config (probed (source s)) bc ∧ addressed bc p').
Proof.
  intros Hiter Hs Hmac Hco Hw HN HR Ha Hrun Hsel Hrnd Hcon Hblk Hans Hcfg Hsz Hr Hk Hfr Hst Hp Hb Hm Ht.
  pose proof (started_path LittleEndian iter Hiter _ _ _ _ _ _ Hs Hmac Hco HN HR) as Hstart.
  pose proof (started_configured LittleEndian iter _ _ _ _ _ _ _ Hs Hmac HN HR) as Hconf.
  destruct (prompt_path_ok LittleEndian iter Hiter _ _ _ _ _ _ Hstart Hw Ha Hrun) as [Hok Hl].
  assert (Htr : ∀ b, b ∈ backends (ctl s) → last_probe (probed (source s)) (Id b) = Some (StatusState (Status b)))
    by (eapply states_tracked; try done; apply Hstart).
  destruct (po_ctl _ _ _ _ _ Hok) as [Hc Hci].
  eapply returns_mono; [eapply (@in_sync_delivers _ (dsManager_manager LittleEndian) (dsManager_laws LittleEndian) _ pcfg Hcfg _ config (ctl s) ap k0)|];
    try done.
  - apply Hok.
  - by eapply answering_available.
  - apply Hs.
  - by eapply path_configured.
  - by rewrite (po_size _ _ _ _ _ Hok).
  - intros [[act k1] p'] (-> & bc & b & Hin & Hbc & Hbin & Hav & Hadr). split; [done|]. exists bc. split; [|done]. split; [done|].
    by apply (available_iff_answered s bc b).
Qed.

#[local] Existing Instance folded_csum.

(** The process of [HealthPath]'s example: one of the two backends does not
    answer its probe. *)
Lemma sample_failover : ∃ w w' : wired shared_kernel, ∃ s,
  @New _ flaterrors_wraps sample_sha1 LittleEndian quiet_env (inl [2; 0; 0; 0; 0; 9]) ipv4_config fresh_kernel = Done (inl w) ∧
  @Run _ _ flaterrors_wraps LittleEndian elements None w = Done (w', None) ∧
  run_acts (@prompt_step _ (@dsManager_manager _ _ flaterrors_wraps LittleEndian) elements (bsBackends (healthMonitor w')) (healthCh w'))
    (start_path (Wiring.ctl w') (bsMonitor (healthMonitor w'))) path_acts = Some s ∧
  ((length (backends (Wiring.ctl w')) <= 64)%nat ∧ lookupTableSize (Wiring.ctl w') = 7) ∧
  (hloop (source s) = HSelect ∧ consumer s = CSelect ∧ recv (mux_of (source s)) (healthCh w') = Blocked ∧ rounds (source s) ≠ []) ∧
  (∃ bc, @answering sample_sha1 ipv4_config (probed (source s)) bc) ∧
  let o := active (objs (bpfMgr (ctl s))) in reads 0 (maps_of o) o ∧ maps_ok (maps_of o).
Proof.
  eexists. eexists. eexists. split; [vm_compute; reflexivity|]. split; [vm_compute; reflexivity|].
  split; [vm_compute; reflexivity|]. split; [split; [apply Nat.leb_le|]; vm_compute; reflexivity|].
  split; [split_and!; [vm_compute; reflexivity..|discriminate]|]. split.
  - eexists. split; [apply list_elem_of_lookup; exists 0%nat; vm_compute; reflexivity|]. vm_compute. reflexivity.
  - split; [apply maps_of_reads|apply maps_of_ok]; by_computing.
Qed.

Lemma dead_backends_get_nothing_witness : ∃ s : pstate (dsManager shared_kernel),
  returns (k1 ← xdp_run sample_config (maps_of (active (objs (bpfMgr (ctl s))))) [(env_at 0, sample_frame (replicate 16 8))];
           udplb sample_config (env_at 0) k1 (sample_frame (replicate 16 7))) (λ '(act, _, p'),
    act = XDP_TX ∧ ∃ bc, @answering sample_sha1 ipv4_config (probed (source s)) bc ∧ addressed bc p').
Proof.
  destruct sample_failover as (w & w' & s & HN & HR & Hr & [Hl Hsz] & (H1 & H2 & H3 & H4) & Hans & Hrd & Hk). exists s.
  apply (@dead_backends_get_nothing _ _ _ flaterrors_wraps sample_sha1 folded_csum elements quiet_env (inl [2; 0; 0; 0; 0; 9])
           ipv4_config fresh_kernel w w' path_acts s sample_config 0 (maps_of (active (objs (bpfMgr (ctl s)))))
           [(env_at 0, sample_frame (replicate 16 8))] (env_at 0) (sample_frame (replicate 16 7)));
    try assumption; try apply sample_config_ok; try apply sample_frame_bytes.
  - intros X. reflexivity.
  - exact ipv4_config_sound.
  - intros mac [= <-]. simpl. lia.
  - by_computing.
  - exact (shared_accepts _ Hl).
  - exact path_acts_fair.
  - rewrite Hsz. reflexivity.
  - apply Forall_cons_2; [|by apply Forall_nil_2]. split; [by_computing|repeat split].
  - repeat split.
  - by_computing.
  - by_computing.
Defined.
