(* ===== verification/StateMachine.v ===== *)
(** * StateMachine: internal/adapter/statemachine

    The four machines (counter.go, set.go, map.go, array.go) as instances of
    the [StateMachine] and [Codec] interfaces, their options (util.go), and
    what each promises.  A Go map or slice is an [option]: [None] is nil, which
    an option or a decoded [null] can make of it. *)
From S2P Require Import Prelude Types GoNet Json Codec.

(** ** util.go *)

(** An option mutates the machine it is applied to, or refuses. *)
Definition Option_ (M : Type) : Type := M → M + error.

Fixpoint execOptions {M} (stm : M) (options : list (Option_ M)) : M + error :=
  match options with
  | [] => inl stm
  | o :: options => match o stm with inl stm => execOptions stm options | inr err => inr err end
  end.

Definition WithInitialState {M U} (setState : M → U → M) (state : U) : Option_ M :=
  λ m, inl (setState m state).

Definition encodeDefault {T} (c : codec T) (v : T) : list Z + error := inl (Marshal c v).
Definition decodeDefault {T} (c : codec T) (data : list Z) (v : T) : T * option error := Unmarshal c data v.

(** ** counter.go *)

Record counter := { allowOverflow : bool; maxVal : option Z; minVal : option Z; cstate : Z }.

Definition ErrNoOverflow := Sentinel "state is not allowed to overflow".
Definition ErrNoUnderflow := Sentinel "state is not allowed to underflow".
Definition ErrInputMustBeAPositiveInteger := Sentinel "input must be a positive integer".

Definition counter_setState (c : counter) (s : Z) : counter :=
  {| allowOverflow := allowOverflow c; maxVal := maxVal c; minVal := minVal c; cstate := s |}.
Definition CounterWithAllowOverflow : Option_ counter := λ c,
  inl {| allowOverflow := true; maxVal := maxVal c; minVal := minVal c; cstate := cstate c |}.
Definition CounterWithMaximumValue (v : Z) : Option_ counter := λ c,
  inl {| allowOverflow := allowOverflow c; maxVal := Some v; minVal := minVal c; cstate := cstate c |}.
Definition CounterWithMinimumValue (v : Z) : Option_ counter := λ c,
  inl {| allowOverflow := allowOverflow c; maxVal := maxVal c; minVal := Some v; cstate := cstate c |}.
Definition NewCounter (opts : list (Option_ counter)) : counter + error :=
  execOptions {| allowOverflow := false; maxVal := None; minVal := None; cstate := 0 |} opts.

Definition counter_add (c : counter) (i : Z) : counter * option error :=
  if decide (i < 0) then (c, Some ErrInputMustBeAPositiveInteger)
  else if decide (i = 0) then (c, None)
  else
    let newState := i64 (cstate c + i) in
    let hasOverflown := bool_decide (newState < cstate c) in
    match maxVal c with
    | Some mx =>
        if hasOverflown || bool_decide (cstate c > mx) then (counter_setState c mx, None)
        else (counter_setState c newState, None)
    | None =>
        if hasOverflown && negb (allowOverflow c) then (c, Some ErrNoOverflow)
        else (counter_setState c newState, None)
    end.

Definition counter_subtract (c : counter) (i : Z) : counter * option error :=
  if decide (i < 0) then (c, Some ErrInputMustBeAPositiveInteger)
  else if decide (i = 0) then (c, None)
  else
    let newState := i64 (cstate c - i) in
    let hasUnderFlown := bool_decide (newState > cstate c) in
    match minVal c with
    | Some mn =>
        if hasUnderFlown || bool_decide (cstate c < mn) then (counter_setState c mn, None)
        else (counter_setState c newState, None)
    | None =>
        if hasUnderFlown && negb (allowOverflow c) then (c, Some ErrNoUnderflow)
        else (counter_setState c newState, None)
    end.

Definition counter_Execute (c : counter) (verb : string) (obj : Z) : counter * option error :=
  if decide (verb = AddCommand) then counter_add c obj
  else if decide (verb = SubtractCommand) then counter_subtract c obj
  else (c, Some ErrUnsupportedStateMachineCommand).

(** [DeepCopy] starts from a counter that does not allow overflows. *)
Definition counter_DeepCopy (c : counter) : counter :=
  {| allowOverflow := false; maxVal := maxVal c; minVal := minVal c; cstate := cstate c |}.

#[export] Instance counter_machine : StateMachine counter Z Z := {
  Execute c verb obj := Done (counter_Execute c verb obj); StateOf := cstate; DeepCopy := counter_DeepCopy
}.

Definition counter_Decode (c : counter) (buf : list Z) : counter * option error :=
  let (s, err) := decodeDefault int64_codec buf (cstate c) in (counter_setState c s, err).
#[export] Instance counter_codec : Codec counter := {
  Encode c := encodeDefault int64_codec (cstate c); Decode := counter_Decode
}.

(** ** set.go *)

Section set.
Context {T : Type} `{Countable T}.

(** A [map[T]struct{}]. *)
Record set_machine := { sstate : option (gset T) }.

Definition set_setState (s : set_machine) (state : option (gset T)) : set_machine := {| sstate := state |}.
Definition NewSet (opts : list (Option_ set_machine)) : set_machine + error := execOptions {| sstate := Some ∅ |} opts.

Definition set_Execute (s : set_machine) (verb : string) (obj : T) : go (set_machine * option error) :=
  if decide (verb = PutCommand) then
    match sstate s with
    | Some m => Done (set_setState s (Some ({[obj]} ∪ m)), None)
    | None => Panic NilMapWrite
    end
  else if decide (verb = DeleteCommand) then Done (set_setState s ((λ m, m ∖ {[obj]}) <$> sstate s), None)
  else Done (s, Some ErrUnsupportedStateMachineCommand).

(** The members; [copyMap] of a nil map is an empty map. *)
Definition members (s : set_machine) : gset T := default ∅ (sstate s).
Definition set_State (s : set_machine) : option (gset T) := Some (members s).
Definition set_DeepCopy (s : set_machine) : set_machine := {| sstate := set_State s |}.

#[export] Instance set_is_machine : StateMachine set_machine T (option (gset T)) := {
  Execute := set_Execute; StateOf := set_State; DeepCopy := set_DeepCopy
}.

(** [order] is the order the map is ranged over, [t] the text of its keys. *)
Definition set_json (order : gmap T unit → list (T * unit)) (t : text T) : codec (option (gmap T unit)) :=
  map_codec order t unit_codec.
Definition set_Encode (order : gmap T unit → list (T * unit)) (t : text T) (s : set_machine) : list Z + error :=
  encodeDefault (set_json order t) (gset_to_gmap tt <$> sstate s).
Definition set_Decode (order : gmap T unit → list (T * unit)) (t : text T) (s : set_machine) (buf : list Z)
    : set_machine * option error :=
  let (m, err) := decodeDefault (set_json order t) buf (gset_to_gmap tt <$> sstate s) in
  (set_setState s (dom <$> m), err).
Definition set_codec (order : gmap T unit → list (T * unit)) (t : text T) : Codec set_machine :=
  {| Encode := set_Encode order t; Decode := set_Decode order t |}.
End set.
Arguments set_machine T {_ _}.

(** ** map.go *)

Section hashmap.
Context {E K V : Type} `{Countable K}.

Record hashmap := { mstate : option (gmap K V); transformFunc : E → (K * V) + error }.

Definition ErrTransformFuncMustNotBeNil := Sentinel "TransformFunc[E, K, V] must not be nil".

Definition map_setState (m : hashmap) (state : option (gmap K V)) : hashmap :=
  {| mstate := state; transformFunc := transformFunc m |}.
Definition NewMap (f : option (E → (K * V) + error)) (opts : list (Option_ hashmap)) : hashmap + error :=
  match f with
  | None => inr ErrTransformFuncMustNotBeNil
  | Some f => execOptions {| mstate := Some ∅; transformFunc := f |} opts
  end.

(** The object is transformed before the verb is looked at. *)
Definition map_Execute (m : hashmap) (verb : string) (obj : E) : go (hashmap * option error) :=
  match transformFunc m obj with
  | inr err => Done (m, Some err)
  | inl (k, v) =>
      if decide (verb = PutCommand) then
        match mstate m with
        | Some s => Done (map_setState m (Some (<[k := v]> s)), None)
        | None => Panic NilMapWrite
        end
      else if decide (verb = DeleteCommand) then Done (map_setState m (delete k <$> mstate m), None)
      else Done (m, Some ErrUnsupportedStateMachineCommand)
  end.

Definition entries (m : hashmap) : gmap K V := default ∅ (mstate m).
Definition map_State (m : hashmap) : option (gmap K V) := Some (entries m).
Definition map_DeepCopy (m : hashmap) : hashmap := {| mstate := map_State m; transformFunc := transformFunc m |}.

#[export] Instance map_machine : StateMachine hashmap E (option (gmap K V)) := {
  Execute := map_Execute; StateOf := map_State; DeepCopy := map_DeepCopy
}.

Definition map_Encode (c : codec (option (gmap K V))) (m : hashmap) : list Z + error := encodeDefault c (mstate m).
Definition map_Decode (c : codec (option (gmap K V))) (m : hashmap) (buf : list Z) : hashmap * option error :=
  let (s, err) := decodeDefault c buf (mstate m) in (map_setState m s, err).
Definition hashmap_codec (c : codec (option (gmap K V))) : Codec hashmap :=
  {| Encode := map_Encode c; Decode := map_Decode c |}.
End hashmap.
Arguments hashmap E K V {_ _}.

(** ** array.go *)

Section array.
Context {T : Type}.

(** [filter(obj, entry)] finds an entry by key; nil when there is none. *)
Record array := { astate : option (list T); afilter : option (T → T → bool) }.

Definition ErrOperationRequiresAFilterFunc := Sentinel "operation requires a filter func".

Definition array_setState (a : array) (state : option (list T)) : array := {| astate := state; afilter := afilter a |}.
Definition NewArray (filter : option (T → T → bool)) (opts : list (Option_ array)) : array + error :=
  execOptions {| astate := Some []; afilter := filter |} opts.

Definition elems (a : array) : list T := default [] (astate a).

Definition executeAppend (a : array) (obj : T) : array := array_setState a (Some (elems a ++ [obj])).

(** The loop of [executePut]. *)
Definition put_loop (f : T → bool) (obj : T) (state : list T) : list T := (λ o, if f o then obj else o) <$> state.
Definition executePut (a : array) (obj : T) : array * option error :=
  match afilter a with
  | None => (a, Some ErrOperationRequiresAFilterFunc)
  | Some f => (array_setState a (put_loop (f obj) obj <$> astate a), None)
  end.

(** The loop of [executeDelete] from index [i] on. *)
Fixpoint delete_loop (f : T → bool) (state : list T) (i : nat) (rest : list T) : option (list T) :=
  match rest with
  | [] => None
  | o :: rest =>
      if f o then
        let out := if decide (0 < i)%nat then take i state else [] in
        Some (if decide (i < length state - 1)%nat then out ++ drop (S i) state else out)
      else delete_loop f state (S i) rest
  end.
Definition executeDelete (a : array) (obj : T) : array * option error :=
  match afilter a with
  | None => (a, Some ErrOperationRequiresAFilterFunc)
  | Some f =>
      match delete_loop (f obj) (elems a) 0 (elems a) with
      | Some out => (array_setState a (Some out), None)
      | None => (a, Some ErrNotFound)
      end
  end.

Definition array_Execute (a : array) (verb : string) (obj : T) : array * option error :=
  if decide (verb = AppendCommand) then (executeAppend a obj, None)
  else if decide (verb = PutCommand) then executePut a obj
  else if decide (verb = DeleteCommand) then executeDelete a obj
  else (a, Some ErrUnsupportedStateMachineCommand).

(** A copy of the cells, never nil. *)
Definition array_State (a : array) : option (list T) := Some (elems a).
Definition array_DeepCopy (a : array) : array := {| astate := array_State a; afilter := afilter a |}.

#[export] Instance array_machine : StateMachine array T (option (list T)) := {
  Execute a verb obj := Done (array_Execute a verb obj); StateOf := array_State; DeepCopy := array_DeepCopy
}.

(** [spare]: the cells of the backing array past the length. *)
Definition array_Encode (c : codec T) (a : array) : list Z + error := encodeDefault (slice_codec c []) (astate a).
Definition array_Decode (c : codec T) (spare : list T) (a : array) (buf : list Z) : array * option error :=
  let (s, err) := decodeDefault (slice_codec c spare) buf (astate a) in (array_setState a s, err).
Definition array_codec (c : codec T) (spare : list T) : Codec array :=
  {| Encode := array_Encode c; Decode := array_Decode c spare |}.
End array.
Arguments array : clear implicits.

(** ** Logs of commands *)

(** Replays a log of commands, as a WAL does; errors leave the machine. *)
Definition replay {M T U} `{!StateMachine M T U} (m : M) (log : list (string * T)) : go M :=
  foldM (λ m c, '(m, _) ← Execute m c.1 c.2; Done m) log m.

(** * Lemmas *)

Lemma foldM_app {S A} (f : S → A → go S) l1 l2 s : foldM f (l1 ++ l2) s = (s' ← foldM f l1 s; foldM f l2 s').
Proof. revert s. induction l1 as [|x l1 IH]; intros s; [done|]. simpl. destruct (f s x); simpl; [apply IH|done..]. Qed.
Lemma replay_app {M T U} `{!StateMachine M T U} (m : M) (l1 l2 : list (string * T)) :
  replay m (l1 ++ l2) = (m' ← replay m l1; replay m' l2).
Proof. apply foldM_app. Qed.
(** A proper machine executes every log. *)
Lemma replay_live {M T U} `{!StateMachine M T U} live `{!StateMachineLaws M T U live} (m : M) (log : list (string * T)) :
  live m → returns (replay m log) live.
Proof.
  intros Hm. apply returns_foldM; [done|]. intros m' c _ Hm'.
  eapply returns_bind; [by apply execute_live|]. intros [m1 err] H1. by apply returns_done.
Qed.

(** ** The contract of the machines *)

Definition set_live {T} `{Countable T} (s : set_machine T) : Prop := is_Some (sstate s).
#[export] Instance set_laws {T} `{Countable T} : StateMachineLaws (set_machine T) T (option (gset T)) set_live.
Proof.
  split.
  - intros [[m|]] verb obj [? Hm]; [|done]. simpl. unfold set_Execute.
    repeat case_decide; apply returns_done; by eexists.
  - intros s. by eexists.
  - done.
  - intros [[m|]] verb obj [? Hm]; [|done]. simpl. unfold set_Execute. by repeat case_decide.
Qed.
Definition map_live {E K V} `{Countable K} (m : hashmap E K V) : Prop := is_Some (mstate m).
#[export] Instance map_laws {E K V} `{Countable K} : StateMachineLaws (hashmap E K V) E (option (gmap K V)) map_live.
Proof.
  split.
  - intros [[s|] f] verb obj [? Hm]; [|done]. simpl. unfold map_Execute; simpl.
    destruct (f obj) as [[k v]|err]; repeat case_decide; apply returns_done; by eexists.
  - intros m. by eexists.
  - done.
  - intros [[s|] f] verb obj [? Hm]; [|done]. simpl. unfold map_Execute; simpl.
    destruct (f obj) as [[k v]|err]; by repeat case_decide.
Qed.
#[export] Instance array_laws {T} : StateMachineLaws (array T) T (option (list T)) (λ _, True).
Proof.
  split; [by intros; apply returns_done|done|done|].
  intros [s f] verb obj _. simpl. f_equal. unfold array_Execute, executePut, executeDelete, executeAppend; simpl.
  repeat case_decide; [done| | |done]; destruct f as [f|]; try done.
  - by destruct s.
  - change (elems (array_DeepCopy {| astate := s; afilter := Some f |})) with (default [] s).
    change (elems {| astate := s; afilter := Some f |}) with (default [] s). by destruct (delete_loop _ _ _ _).
Qed.

(** The sum of two in-range integers overflows exactly when it looks smaller. *)
Lemma i64_add_cases s i :
  is_i64 s → 0 < i <= max_i64 →
  (s + i <= max_i64 ∧ i64 (s + i) = s + i) ∨ (max_i64 < s + i ∧ i64 (s + i) = s + i - 2 ^ 64 ∧ i64 (s + i) < s).
Proof.
  unfold is_i64. intros Hs Hi. destruct (decide (s + i <= max_i64)).
  - left. split; [done|]. apply i64_small. unfold is_i64, min_i64, max_i64 in *. lia.
  - right. rewrite i64_above by (unfold max_i64, min_i64 in *; lia). unfold max_i64 in *. lia.
Qed.
Lemma i64_sub_cases s i :
  is_i64 s → 0 < i <= max_i64 →
  (min_i64 <= s - i ∧ i64 (s - i) = s - i) ∨ (s - i < min_i64 ∧ i64 (s - i) = s - i + 2 ^ 64 ∧ s < i64 (s - i)).
Proof.
  unfold is_i64. intros Hs Hi. destruct (decide (min_i64 <= s - i)).
  - left. split; [done|]. apply i64_small. unfold is_i64, min_i64, max_i64 in *. lia.
  - right. rewrite i64_below by (unfold max_i64, min_i64 in *; lia). unfold min_i64, max_i64 in *. lia.
Qed.

(** Closes the branches of a specification given as nested implications. *)
Ltac branches :=
  split_and!; intros; split_and?; intros; split_and?; simplify_eq; first [done | congruence | lia].

Lemma delete_loop_spec {T} (f : T → bool) state pre rest :
  state = pre ++ rest → Forall (λ x, f x = false) pre →
  match delete_loop f state (length pre) rest with
  | Some out => ∃ l1 x l2, rest = l1 ++ x :: l2 ∧ Forall (λ x, f x = false) l1 ∧ f x = true ∧ out = pre ++ l1 ++ l2
  | None => Forall (λ x, f x = false) rest
  end.
Proof.
  revert pre. induction rest as [|x rest IH]; intros pre Hs Hd; simpl; [done|].
  destruct (f x) eqn:Hx.
  - exists [], x, rest. split_and!; try done. simpl.
    assert (Hout : (if decide (0 < length pre)%nat then take (length pre) state else []) = pre).
    { rewrite Hs, take_app_length. case_decide; [done|]. by destruct pre; [|simpl in *; lia]. }
    rewrite Hout. clear Hout. case_decide as Hlt.
    + f_equal. rewrite Hs, cons_middle, app_assoc. apply drop_app_length'. rewrite length_app. simpl. lia.
    + rewrite Hs, length_app in Hlt. simpl in Hlt. destruct rest; [by rewrite app_nil_r|simpl in Hlt; lia].
  - specialize (IH (pre ++ [x])). rewrite length_app, Nat.add_1_r in IH.
    destruct (delete_loop f state (S (length pre)) rest) as [out|].
    + destruct IH as (l1 & y & l2 & -> & Hl1 & Hy & ->); [by rewrite <-app_assoc|by apply Forall_app_2; [|constructor]|].
      exists (x :: l1), y, l2. rewrite <-app_assoc. split_and!; try done. by constructor.
    + constructor; [done|]. apply IH; [by rewrite <-app_assoc|by apply Forall_app_2; [|constructor]].
Qed.

(** * Properties *)



(** Without bounds, an addition that was accepted (wrapped around or not)
    is undone by the subtraction of the same amount. *)
Theorem counter_add_subtract (c c' : counter) (i : Z) :
  maxVal c = None → minVal c = None → is_i64 (cstate c) → i <= max_i64 →
  counter_add c i = (c', None) → counter_subtract c' i = (c, None).
Proof.
  intros Hmx Hmn Hs Hmax. unfold counter_add. case_decide; [done|].
  case_decide as Hz; [subst; intros [= <-]; done|]. rewrite Hmx.
  destruct (_ && _) eqn:Hb; [done|]. intros [= <-]. unfold counter_subtract; simpl.
  rewrite decide_False, decide_False by done. rewrite Hmn.
  assert (Hip : 0 < i <= max_i64) by lia.
  assert (Hback : i64 (i64 (cstate c + i) - i) = cstate c).
  { destruct (i64_add_cases (cstate c) i Hs Hip) as [[_ ->]|(_ & -> & _)].
    - rewrite i64_small; [lia|]. by replace (cstate c + i - i) with (cstate c) by lia.
    - rewrite i64_below; [lia|]. unfold is_i64, min_i64, max_i64 in *. lia. }
  rewrite Hback. destruct (i64_add_cases (cstate c) i Hs Hip) as [[_ Heq]|(_ & Heq & Hlt)]; rewrite Heq in *.
  - rewrite (bool_decide_false (cstate c > cstate c + i)) by lia. by destruct c.
  - rewrite bool_decide_true in Hb by done. destruct (allowOverflow c) eqn:Ha; [|done].
    rewrite andb_false_r. destruct c; simpl in *. by subst.
Qed.

Lemma counter_add_subtract_witness :
  let c := {| allowOverflow := true; maxVal := None; minVal := None; cstate := max_i64 |} in
  counter_subtract {| allowOverflow := true; maxVal := None; minVal := None; cstate := min_i64 + 4 |} 5 = (c, None).
Proof.
  intros c. apply (counter_add_subtract c); [done|done| | |by vm_compute];
    unfold is_i64, min_i64, max_i64; simpl; unfold max_i64; lia.
Defined.

(** A maximum does not bound the counter. An addition that starts at or
    below the maximum is carried out in full, whatever the result, and the
    addition after it brings the counter back down to the maximum: the check
    looks at the state before the addition. *)
Theorem counter_exceeds_maximum (c : counter) (mx i j : Z) :
  maxVal c = Some mx → is_i64 (cstate c) → cstate c <= mx → 0 < i <= max_i64 → mx < cstate c + i <= max_i64 →
  0 < j <= max_i64 →
  let '(c1, err1) := counter_add c i in
  let '(c2, err2) := counter_add c1 j in
  err1 = None ∧ cstate c1 = cstate c + i ∧ mx < cstate c1 ∧ err2 = None ∧ cstate c2 = mx.
Proof.
  intros Hmx Hs Hle Hi Hov Hj. unfold counter_add at 1. rewrite !decide_False, Hmx by lia.
  destruct (i64_add_cases (cstate c) i Hs ltac:(lia)) as [[_ Heq]|]; [|lia]. rewrite Heq.
  rewrite (bool_decide_false (cstate c + i < cstate c)), bool_decide_false by lia. simpl.
  unfold counter_add; simpl. rewrite !decide_False, Hmx by lia.
  rewrite (bool_decide_true (cstate c + i > mx)) by lia. rewrite orb_true_r. simpl. split_and!; lia || done.
Qed.

Lemma counter_exceeds_maximum_witness :
  let c := {| allowOverflow := false; maxVal := Some 10; minVal := None; cstate := 5 |} in
  let '(c1, err1) := counter_add c 100 in
  let '(c2, err2) := counter_add c1 1 in
  err1 = None ∧ cstate c1 = cstate c + 100 ∧ 10 < cstate c1 ∧ err2 = None ∧ cstate c2 = 10.
Proof.
  intros c. apply (counter_exceeds_maximum c 10 100 1); unfold is_i64, min_i64, max_i64; simpl; done || lia.
Defined.

(** A forked counter does not behave as the counter it was forked from:
    [DeepCopy] forgets that overflows are allowed, so that at the top of the
    range the copy refuses an addition the original carries out; the counter
    does not satisfy the contract of [StateMachine]. The set, map and array
    machines do. *)
Theorem counter_fork_diverges :
  let c := {| allowOverflow := true; maxVal := None; minVal := None; cstate := max_i64 |} in
  counter_Execute c AddCommand 1 = (counter_setState c min_i64, None) ∧
  (counter_Execute (counter_DeepCopy c) AddCommand 1).2 = Some ErrNoOverflow ∧
  ¬ StateMachineLaws counter Z Z (λ _, True).
Proof. intros c. split_and!; [done..|]. intros Hlaw.
  pose proof (deepcopy_execute (StateMachineLaws := Hlaw) c AddCommand 1 I) as H. vm_compute in H. discriminate.
Qed.

Section logs.
Context {E K V : Type} `{Countable K}.
Implicit Types (m : hashmap E K V).

(** The key a command writes, if it writes one. *)
Definition touches (f : E → (K * V) + error) (k : K) (c : string * E) : bool :=
  match f c.2 with
  | inl (k', _) => bool_decide (k' = k) && (bool_decide (c.1 = PutCommand) || bool_decide (c.1 = DeleteCommand))
  | inr _ => false
  end.

(** A proper map machine with transform function [f]. *)
Definition map_with f m : Prop := map_live m ∧ transformFunc m = f.

Lemma map_Execute_with f m v o : map_with f m → returns (Execute m v o) (λ r, map_with f r.1).
Proof.
  intros [Hl Hf]. destruct (execute_live (live := map_live) m v o Hl) as (r & Hr & Hl'). exists r. split; [done|]. split; [done|].
  simpl in Hr. unfold map_Execute in Hr. destruct (transformFunc m o) as [[]|]; [|by injection Hr as <-].
  case_decide; [destruct (mstate m); [by injection Hr as <-|done]|]. case_decide; by injection Hr as <-.
Qed.
Lemma replay_with f m log : map_with f m → returns (replay m log) (map_with f).
Proof.
  intros Hm. apply returns_foldM; [done|]. intros m' c _ Hm'.
  eapply returns_bind; [by apply map_Execute_with|]. intros [m1 err] H1. by apply returns_done.
Qed.
Lemma map_Execute_untouched f m k c :
  map_with f m → touches f k c = false →
  returns (Execute m c.1 c.2) (λ r, map_with f r.1 ∧ entries r.1 !! k = entries m !! k).
Proof.
  intros Hm Ht. destruct (map_Execute_with f m c.1 c.2 Hm) as (r & Hr & Hw). exists r. split_and!; [done|done|].
  destruct Hm as [[s Hs] Hf]. simpl in Hr. unfold map_Execute, touches in *. rewrite Hf, Hs in Hr.
  destruct (f c.2) as [[k' v]|]; [|by injection Hr as <-].
  assert (Hk : k' = k → c.1 ≠ PutCommand ∧ c.1 ≠ DeleteCommand).
  { intros Hk. rewrite (bool_decide_true (k' = k)) in Ht by done. simpl in Ht.
    apply orb_false_iff in Ht as [?%bool_decide_eq_false ?%bool_decide_eq_false]. done. }
  clear Ht. unfold entries in *. rewrite Hs. case_decide; [|case_decide]; injection Hr as <-; simpl; [| |by rewrite Hs].
  - rewrite lookup_insert_ne; naive_solver.
  - rewrite lookup_delete_ne; naive_solver.
Qed.
Lemma replay_untouched f m k log :
  map_with f m → Forall (λ c, touches f k c = false) log →
  returns (replay m log) (λ m', map_with f m' ∧ entries m' !! k = entries m !! k).
Proof.
  intros Hm Hl. apply (returns_foldM _ (λ m', map_with f m' ∧ entries m' !! k = entries m !! k)); [done|].
  intros m' c Hc [Hm' He]. rewrite Forall_forall in Hl.
  eapply returns_bind; [apply (map_Execute_untouched f m' k c); [done|auto]|].
  intros [m1 err] [H1 He1]. apply returns_done. split; [done|]. simpl in He1. by rewrite He1.
Qed.

(** A command on [k], then commands that do not touch it. *)
Lemma replay_last f m l1 verb o l2 k ov :
  map_with f m → Forall (λ c, touches f k c = false) l2 →
  (∀ m', map_with f m' → returns (Execute m' verb o) (λ r, map_with f r.1 ∧ entries r.1 !! k = ov)) →
  returns (replay m (l1 ++ (verb, o) :: l2)) (λ m', entries m' !! k = ov).
Proof.
  intros Hm Hl2 Ho. rewrite replay_app. eapply returns_bind; [by apply replay_with|]. intros m' Hm'.
  unfold replay. cbn [foldM]. destruct (Ho m' Hm') as ([m2 err] & He & Hm2 & Hk). cbn [fst snd].
  rewrite He. cbn [mbind go_bind]. eapply returns_mono; [by apply (replay_untouched f m2 k)|].
  intros m3 [_ ->]. done.
Qed.
End logs.

(** The map machine is a last-writer-wins map over a log of commands: after
    any log, a key reads the value of the last put that wrote it, is absent if
    the last command on it is a delete, and reads as before if no command
    touches it; commands the transform function refuses and unknown verbs
    count for nothing. *)
Theorem map_last_writer_wins {E K V} `{Countable K} (m : hashmap E K V) (l1 l2 : list (string * E)) (o : E) (k : K) (v : V) :
  is_Some (mstate m) →
  transformFunc m o = inl (k, v) → Forall (λ c, touches (transformFunc m) k c = false) l2 →
  returns (replay m (l1 ++ (PutCommand, o) :: l2)) (λ m', entries m' !! k = Some v) ∧
  returns (replay m (l1 ++ (DeleteCommand, o) :: l2)) (λ m', entries m' !! k = None) ∧
  returns (replay m l2) (λ m', entries m' !! k = entries m !! k).
Proof.
  intros Hm Ho Hl2. assert (Hw : map_with (transformFunc m) m) by done.
  split_and!; [eapply replay_last; [done|done|]..|].
  1,2: intros m' [[s Hs] Hf]; simpl; unfold map_Execute; rewrite Hf, Ho; simpl; rewrite ?Hs; apply returns_done;
    (split; [split; [by eexists|done]|]); unfold entries; simpl; by rewrite ?lookup_insert_eq, ?lookup_delete_eq.
  eapply returns_mono; [by eapply replay_untouched|]. by intros m' [_ ?].
Qed.

Definition pair_map : hashmap (Z * Z) Z Z := {| mstate := Some ∅; transformFunc := inl |}.
Lemma map_last_writer_wins_witness :
  returns (replay pair_map ([(PutCommand, (1, 7))] ++ (PutCommand, (1, 8)) :: [(PutCommand, (2, 9))]))
    (λ m', entries m' !! 1 = Some 8) ∧
  returns (replay pair_map ([(PutCommand, (1, 7))] ++ (DeleteCommand, (1, 8)) :: [(PutCommand, (2, 9))]))
    (λ m', entries m' !! 1 = None) ∧
  returns (replay pair_map [(PutCommand, (2, 9))]) (λ m', entries m' !! 1 = entries pair_map !! 1).
Proof. apply (map_last_writer_wins pair_map _ _ (1, 8) 1 8); [by eexists|done|by repeat constructor]. Defined.

(** Deleting from the array machine removes exactly the first entry its
    filter matches and keeps the others in order; when no entry matches it
    returns [ErrNotFound] and changes nothing. A put replaces every entry the
    filter matches and never adds one. *)
Theorem array_delete_put {T} (f : T → T → bool) (state : list T) (obj : T) :
  let a := {| astate := Some state; afilter := Some f |} in
  (match array_Execute a DeleteCommand obj with
   | (a', None) => ∃ l1 x l2, state = l1 ++ x :: l2 ∧ Forall (λ y, f obj y = false) l1 ∧ f obj x = true ∧
       elems a' = l1 ++ l2
   | (a', Some err) => err = ErrNotFound ∧ a' = a ∧ Forall (λ y, f obj y = false) state
   end) ∧
  (array_Execute a PutCommand obj).2 = None ∧
  length (elems (array_Execute a PutCommand obj).1) = length state ∧
  (Forall (λ y, f obj y = false) state → elems (array_Execute a PutCommand obj).1 = state).
Proof.
  intros a. split_and!; [|done|apply length_fmap|].
  - change (array_Execute a DeleteCommand obj) with (executeDelete a obj). unfold executeDelete; simpl.
    change (elems a) with state.
    pose proof (delete_loop_spec (f obj) state [] state eq_refl (Forall_nil_2 _)) as Hd. simpl in Hd.
    by destruct (delete_loop (f obj) state 0 state).
  - change (array_Execute a PutCommand obj) with (executePut a obj). unfold elems. simpl. intros Hall.
    clear a. induction Hall as [|y l Hy _ IH]; [done|]. simpl. rewrite Hy. f_equal. exact IH.
Qed.
