(* ===== verification/StateCodec.v ===== *)
(** * StateCodec: Encode and Decode of the state machines

    What [Encode] writes and [Decode] makes of it in another machine of the
    same type, as a replica does with a snapshot: the codecs of [Codec] on the
    states of [StateMachine]. *)
From S2P Require Import Prelude Types GoNet Json Codec StateMachine.

(** * Lemmas *)

Lemma decode_encode {T} (c : codec T) valid d v v0 :
  overwrites c valid d → d <= maxNestingDepth → valid v → decodeDefault c (Marshal c v) v0 = (v, None).
Proof. intros. by eapply Unmarshal_Marshal. Qed.

(** A map stored over a map. *)
Lemma decode_map {K V} `{Countable K} order (t : text K) (c : codec V) validK validV d (m : gmap K V) m0 :
  (∀ m, order m ≡ₚ map_to_list m) → text_ok t validK → overwrites c validV d → 0 <= d < maxNestingDepth →
  map_valid validK validV m →
  decodeDefault (map_codec order t c) (Marshal (map_codec order t c) (Some m)) m0 = (Some (m ∪ default ∅ m0), None).
Proof.
  intros Ho Ht Hc Hd Hm. unfold decodeDefault, Unmarshal, Marshal. rewrite parse_print.
  - by rewrite (map_store order t c validK validV d Ho Ht Hc).
  - eapply printable_mono; [|apply (map_printable order t c validK validV d Ho Ht Hc m); [lia|done]]. lia.
Qed.

(** * Properties *)

(** C20: A snapshot of a map machine, decoded into another one, is merged into it.
    What [Encode] writes does not depend on the order the map is ranged over;
    [Decode] of it returns no error, and afterwards every key of the snapshot
    reads as in the snapshot, while every other key reads as it did before:
    entries the snapshot does not have survive. On a machine without entries
    the snapshot is restored exactly. *)
Theorem map_snapshot_merges {E K V} `{Countable K} order order' (t : text K) (c : codec V) validK validV d
    (m m0 : hashmap E K V) :
  (∀ m, order m ≡ₚ map_to_list m) → (∀ m, order' m ≡ₚ map_to_list m) → text_ok t validK → overwrites c validV d →
  0 <= d < maxNestingDepth → is_Some (mstate m) → map_Forall (λ k v, validK k ∧ validV v) (entries m) →
  ∃ buf m', map_Encode (map_codec order t c) m = inl buf ∧ map_Encode (map_codec order' t c) m = inl buf ∧
    map_Decode (map_codec order t c) m0 buf = (m', None) ∧ transformFunc m' = transformFunc m0 ∧
    (∀ k, entries m' !! k = match entries m !! k with Some v => Some v | None => entries m0 !! k end) ∧
    (entries m0 = ∅ → entries m' = entries m).
Proof.
  intros Ho Ho' Ht Hc Hd [s Hs] Hv. unfold entries in *. rewrite Hs in *. simpl in *.
  exists (Marshal (map_codec order t c) (Some s)), (map_setState m0 (Some (s ∪ default ∅ (mstate m0)))).
  unfold map_Encode, map_Decode, encodeDefault. rewrite Hs.
  split_and!; [done| | |done|..].
  - unfold Marshal. by rewrite (map_order order t c validK validV Ho Ht order' s Hv Ho').
  - rewrite (decode_map order t c validK validV d s _ Ho Ht Hc Hd Hv). reflexivity.
  - intros k. simpl. destruct (s !! k) as [v|] eqn:Hsk; [by apply lookup_union_Some_l|].
    by rewrite lookup_union_r.
  - intros E0. simpl. rewrite E0. apply (right_id ∅ (∪)).
Qed.

(** The text of identifiers, two maps over them and how they are ranged over. *)
Definition id_map (l : list (uuid * Z)) : hashmap (uuid * Z) uuid Z :=
  {| mstate := Some (list_to_map l); transformFunc := inl |}.
Definition id_codec : codec (option (gmap uuid Z)) := map_codec map_to_list (@uuid_text hex_uuid) int64_codec.
Definition id_codec' : codec (option (gmap uuid Z)) :=
  map_codec (λ m, reverse (map_to_list m)) (@uuid_text hex_uuid) int64_codec.

Lemma map_snapshot_merges_witness :
  let m := id_map [(replicate 16 1, 7); (replicate 16 2, 8)] in
  let m0 := id_map [(replicate 16 2, 5); (replicate 16 3, 6)] in
  ∃ buf m', map_Encode id_codec m = inl buf ∧ map_Encode id_codec' m = inl buf ∧
    map_Decode id_codec m0 buf = (m', None) ∧ transformFunc m' = transformFunc m0 ∧
    (∀ k, entries m' !! k = match entries m !! k with Some v => Some v | None => entries m0 !! k end) ∧
    (entries m0 = ∅ → entries m' = entries m).
Proof.
  intros m m0.
  apply (map_snapshot_merges map_to_list (λ m, reverse (map_to_list m)) (@uuid_text hex_uuid) int64_codec is_uuid is_i64 0 m m0).
  - done.
  - intros x. apply reverse_Permutation.
  - apply uuid_text_ok.
  - apply int64_overwrites.
  - by unfold maxNestingDepth.
  - by eexists.
  - assert (Hid : ∀ b, is_byte b → is_uuid (replicate 16 b)) by (intros b Hb; split; [done|by apply Forall_replicate]).
    apply map_Forall_insert_2; [|apply map_Forall_insert_2; [|apply map_Forall_empty]];
      (split; [by apply Hid|by unfold is_i64, min_i64, max_i64]).
Defined.

(** C31: A counter, an array and a set read back what they encode. A counter or an
    array takes the encoded state whatever it held before (an array also
    whatever its spare cells hold); a set takes the union. *)
Theorem machine_codecs {T} `{Countable T} (cT : codec T) validT d (spare : list T) order (t : text T) :
  overwrites cT validT d → 0 <= d < maxNestingDepth → (∀ m, order m ≡ₚ map_to_list m) → text_ok t validT →
  (∀ c c0 : counter, is_i64 (cstate c) →
     ∃ buf, Encode c = inl buf ∧ Decode c0 buf = (counter_setState c0 (cstate c), None)) ∧
  (∀ a a0 : array T, Forall validT (elems a) →
     ∃ buf, array_Encode cT a = inl buf ∧ array_Decode cT spare a0 buf = (array_setState a0 (astate a), None)) ∧
  (∀ s s0 : set_machine T, is_Some (sstate s) → set_Forall validT (members s) →
     ∃ buf s', set_Encode order t s = inl buf ∧ set_Decode order t s0 buf = (s', None) ∧
       members s' = members s ∪ members s0).
Proof.
  intros HcT Hd Ho Ht. split_and!.
  - intros c c0 Hc. exists (Marshal int64_codec (cstate c)). split; [done|]. simpl. unfold counter_Decode.
    by rewrite (decode_encode int64_codec is_i64 0) by (done || apply int64_overwrites || (unfold maxNestingDepth; lia)).
  - intros a a0 Ha. eexists. split; [done|]. unfold array_Decode.
    change (Marshal (slice_codec cT []) (astate a)) with (Marshal (slice_codec cT spare) (astate a)).
    rewrite (decode_encode (slice_codec cT spare) (opt_valid (Forall validT)) (d + 1)); [done| |lia|].
    + apply slice_overwrites; [lia|done].
    + unfold elems in Ha. by destruct (astate a).
  - intros s s0 [m Hm] Hv. unfold set_Encode, set_Decode, encodeDefault, members in *. rewrite Hm in *. simpl in *.
    eexists _, _. split; [done|]. unfold set_json.
    rewrite (decode_map order t unit_codec validT (λ _, True) 1); [|done|done|apply unit_overwrites|by unfold maxNestingDepth|].
    + simpl. split; [done|]. rewrite dom_union_L, dom_gset_to_gmap. f_equal.
      destruct (sstate s0); simpl; [by rewrite dom_gset_to_gmap|by rewrite dom_empty_L].
    + intros k [] Hk. apply lookup_gset_to_gmap_Some in Hk as [Hk _]. by split; [apply Hv|].
Qed.

(** Two ways a snapshot spoils a machine. Malformed text is refused with a
    syntax error and changes nothing; but the text [null], which is what a nil
    map encodes to, is accepted by a map machine and leaves it with a nil map:
    it reads as empty, and the next put panics. A fork of it would not. *)
Theorem null_snapshot_panics {E K V} `{Countable K} order (t : text K) (c : codec V) (m nilm : hashmap E K V) (obj : E) k v buf :
  transformFunc m obj = inl (k, v) → mstate nilm = None → parse buf = None →
  map_Decode (map_codec order t c) m buf = (m, Some SyntaxError) ∧
  ∃ text m', map_Encode (map_codec order t c) nilm = inl text ∧
    map_Decode (map_codec order t c) m text = (m', None) ∧ map_State m' = Some ∅ ∧
    map_Execute m' PutCommand obj = Panic NilMapWrite ∧
    returns (map_Execute (map_DeepCopy m') PutCommand obj) (λ r, entries r.1 !! k = Some v).
Proof.
  intros Hk Hn Hbuf. split.
  - unfold map_Decode, decodeDefault, Unmarshal. rewrite Hbuf. by destruct m.
  - eexists _, _. split; [done|]. unfold encodeDefault. rewrite Hn.
    change (decodeDefault (map_codec order t c) (Marshal (map_codec order t c) None) (mstate m))
      with (@None (gmap K V), @None error).
    split_and!; [by unfold map_Decode|done| |].
    + unfold map_Execute; simpl. by rewrite Hk.
    + unfold map_Execute; simpl. rewrite Hk. simpl. apply returns_done. apply lookup_insert_eq.
Qed.

Lemma null_snapshot_panics_witness :
  let m := id_map [(replicate 16 1, 7)] in
  let nilm : hashmap (uuid * Z) uuid Z := {| mstate := None; transformFunc := inl |} in
  map_Decode id_codec m (bytes "{") = (m, Some SyntaxError) ∧
  ∃ text m', map_Encode id_codec nilm = inl text ∧ map_Decode id_codec m text = (m', None) ∧ map_State m' = Some ∅ ∧
    map_Execute m' PutCommand (replicate 16 1, 9) = Panic NilMapWrite ∧
    returns (map_Execute (map_DeepCopy m') PutCommand (replicate 16 1, 9)) (λ r, entries r.1 !! replicate 16 1 = Some 9).
Proof.
  intros m nilm. apply (null_snapshot_panics map_to_list (@uuid_text hex_uuid) int64_codec m nilm (replicate 16 1, 9)); [done|done|].
  by vm_compute.
Defined.

Lemma machine_codecs_witness :
  (∀ c c0 : counter, is_i64 (cstate c) →
     ∃ buf, Encode c = inl buf ∧ Decode c0 buf = (counter_setState c0 (cstate c), None)) ∧
  (∀ a a0 : array uuid, Forall is_uuid (elems a) →
     ∃ buf, array_Encode (@uuid_codec hex_uuid) a = inl buf ∧
       array_Decode (@uuid_codec hex_uuid) [replicate 16 9] a0 buf = (array_setState a0 (astate a), None)) ∧
  (∀ s s0 : set_machine uuid, is_Some (sstate s) → set_Forall is_uuid (members s) →
     ∃ buf s', set_Encode map_to_list (@uuid_text hex_uuid) s = inl buf ∧
       set_Decode map_to_list (@uuid_text hex_uuid) s0 buf = (s', None) ∧ members s' = members s ∪ members s0).
Proof.
  apply (machine_codecs (@uuid_codec hex_uuid) is_uuid 0 [replicate 16 9] map_to_list (@uuid_text hex_uuid)).
  - apply text_overwrites, uuid_text_ok.
  - by unfold maxNestingDepth.
  - done.
  - apply uuid_text_ok.
Defined.
