(* ===== verification/RingBuffer.v ===== *)
(** * RingBuffer: internal/util/ringbuffer.go

    The ring buffer refines a bounded queue that drops its oldest element
    when it is full.  [Next] takes a token from [safeNext] before it locks, so
    it is two steps; the refinement holds when no writer comes in between, and
    fails when one does. *)
From S2P Require Import Prelude Types.

Section ring.
Context {T : Type}.

Record RingBuffer := {
  buf : list (option T);   (* []*T; None is nil *)
  size : Z;
  readIdx : Z;
  writeIdx : Z;
  safeNext : Z             (* tokens in the channel, whose capacity is size *)
}.

Definition NewRingBuffer (n : Z) : go RingBuffer :=
  if decide (n < 0) then Panic MakeLength
  else Done {| buf := replicate (Z.to_nat n) None; size := n; readIdx := 0; writeIdx := 0; safeNext := 0 |}.

Definition inc (size i : Z) : Z := let i := i64 (i + 1) in if decide (i > size - 1) then 0 else i.
Definition incReadIdx (rb : RingBuffer) : RingBuffer :=
  {| buf := buf rb; size := size rb; readIdx := inc (size rb) (readIdx rb); writeIdx := writeIdx rb;
     safeNext := safeNext rb |}.
Definition incWriteIdx (rb : RingBuffer) : RingBuffer :=
  {| buf := buf rb; size := size rb; readIdx := readIdx rb; writeIdx := inc (size rb) (writeIdx rb);
     safeNext := safeNext rb |}.
Definition set_buf (rb : RingBuffer) (b : list (option T)) : RingBuffer :=
  {| buf := b; size := size rb; readIdx := readIdx rb; writeIdx := writeIdx rb; safeNext := safeNext rb |}.
Definition set_tokens (rb : RingBuffer) (n : Z) : RingBuffer :=
  {| buf := buf rb; size := size rb; readIdx := readIdx rb; writeIdx := writeIdx rb; safeNext := n |}.

Definition Write (rb : RingBuffer) (v : T) : go RingBuffer :=
  rb ← (if decide (writeIdx rb = readIdx rb) then
          x ← slice_get (buf rb) (writeIdx rb);
          Done (match x with Some _ => incReadIdx rb | None => rb end)
        else Done rb);
  b ← slice_set (buf rb) (writeIdx rb) (Some v);
  let rb := incWriteIdx (set_buf rb b) in
  Done (if decide (safeNext rb < size rb) then set_tokens rb (safeNext rb + 1) else rb).

(** [<-rb.safeNext]. *)
Definition next_token (rb : RingBuffer) : go RingBuffer :=
  if decide (0 < safeNext rb) then Done (set_tokens rb (safeNext rb - 1)) else Blocked.
(** The critical section of [Next]. *)
Definition next_read (rb : RingBuffer) : go (RingBuffer * T) :=
  x ← slice_get (buf rb) (readIdx rb);
  b ← slice_set (buf rb) (readIdx rb) None;
  let rb := incReadIdx (set_buf rb b) in
  match x with Some v => Done (rb, v) | None => Panic NilDereference end.

Definition Next (rb : RingBuffer) : go (RingBuffer * T) := rb ← next_token rb; next_read rb.

(** ** The abstract queue *)

(** A full queue of capacity [n] forgets its oldest element. *)
Definition enqueue (n : Z) (q : list T) (v : T) : list T :=
  (if decide (Z.of_nat (length q) = n) then tail q else q) ++ [v].

(** The buffer holds [q] from the read index on, wrapping around, and nothing
    else; there is one token per element. *)
Record rep (rb : RingBuffer) (q : list T) : Prop := {
  rep_size : 0 < size rb < 2 ^ 62;
  rep_len : Z.of_nat (length (buf rb)) = size rb;
  rep_read : 0 <= readIdx rb < size rb;
  rep_fits : Z.of_nat (length q) <= size rb;
  rep_write : writeIdx rb = (readIdx rb + Z.of_nat (length q)) `mod` size rb;
  rep_tokens : safeNext rb = Z.of_nat (length q);
  rep_slots : ∀ k, 0 <= k < size rb →
    buf rb !! Z.to_nat ((readIdx rb + k) `mod` size rb) = Some (q !! Z.to_nat k)
}.

(** * Lemmas *)

Lemma inc_mod n i : 0 < n < 2 ^ 62 → 0 <= i < n → inc n i = (i + 1) `mod` n.
Proof.
  intros Hn Hi. unfold inc. rewrite i64_small by (unfold is_i64, min_i64, max_i64; lia).
  case_decide.
  - replace (i + 1) with n by lia. by rewrite Z.mod_same by lia.
  - by rewrite Z.mod_small by lia.
Qed.

Lemma mod_slot_ne n a j k : 0 < n → 0 <= j < n → 0 <= k < n → j ≠ k → (a + j) `mod` n ≠ (a + k) `mod` n.
Proof.
  intros Hn Hj Hk Hne Heq. apply Hne.
  assert (Hj' : (a + j - (a + k)) `mod` n = 0) by (rewrite Zminus_mod, Heq, Z.sub_diag; apply Z.mod_0_l; lia).
  apply Z.mod_divide in Hj' as [d Hd]; [|lia].
  assert (d = 0) by nia. lia.
Qed.
Lemma mod_shift n a k : 0 < n → ((a + 1) `mod` n + k) `mod` n = (a + (k + 1)) `mod` n.
Proof. intros. rewrite Z.add_mod_idemp_l by lia. f_equal. lia. Qed.

Section refines.
Context (rb : RingBuffer) (q : list T) (Hrep : rep rb q).

Lemma rep_head : buf rb !! Z.to_nat (readIdx rb) = Some (head q).
Proof.
  destruct Hrep as [Hs Hl Hr Hf Hw Ht Hslot]. specialize (Hslot 0 ltac:(lia)).
  rewrite Z.add_0_r, Z.mod_small in Hslot by done. rewrite Hslot. by destruct q.
Qed.

(** Reading: the head leaves, the other elements move one place. *)
Lemma rep_dequeue x q' :
  q = x :: q' →
  rep (incReadIdx (set_buf (set_tokens rb (safeNext rb - 1)) (<[Z.to_nat (readIdx rb) := None]> (buf rb)))) q'.
Proof.
  destruct Hrep as [Hs Hl Hr Hf Hw Ht Hslot]. intros ->. simpl in *.
  unfold incReadIdx, set_buf, set_tokens; split; simpl; try done.
  - by rewrite length_insert.
  - rewrite inc_mod by done. apply Z.mod_pos_bound. lia.
  - lia.
  - rewrite inc_mod, mod_shift, Hw by lia. f_equal. lia.
  - lia.
  - intros k Hk. rewrite inc_mod, mod_shift by lia.
    assert (Hb : 0 <= (readIdx rb + (k + 1)) `mod` size rb < size rb) by (apply Z.mod_pos_bound; lia).
    destruct (decide (k = size rb - 1)) as [->|Hne].
    + replace (readIdx rb + (size rb - 1 + 1)) with (readIdx rb + 1 * size rb) by lia.
      rewrite Z.mod_add, Z.mod_small by lia. rewrite list_lookup_insert_eq by lia.
      symmetry. f_equal. apply lookup_ge_None. lia.
    + rewrite list_lookup_insert_ne.
      * rewrite Hslot by lia. f_equal. replace (Z.to_nat (k + 1)) with (S (Z.to_nat k)) by lia. done.
      * pose proof (mod_slot_ne (size rb) (readIdx rb) 0 (k + 1) ltac:(lia) ltac:(lia) ltac:(lia) ltac:(lia)) as Hm.
        rewrite Z.add_0_r, (Z.mod_small (readIdx rb)) in Hm by done. lia.
Qed.

(** Writing where there is room. *)
Lemma rep_enqueue v :
  Z.of_nat (length q) < size rb →
  rep (set_tokens (incWriteIdx (set_buf rb (<[Z.to_nat (writeIdx rb) := Some v]> (buf rb)))) (safeNext rb + 1)) (q ++ [v]).
Proof.
  destruct Hrep as [Hs Hl Hr Hf Hw Ht Hslot]. intros Hroom.
  assert (Hwb : 0 <= writeIdx rb < size rb) by (rewrite Hw; apply Z.mod_pos_bound; lia).
  unfold incWriteIdx, set_buf, set_tokens; split; simpl; rewrite ?length_app; simpl; try done.
  - by rewrite length_insert.
  - lia.
  - rewrite inc_mod, Hw, Z.add_mod_idemp_l by lia. f_equal. lia.
  - lia.
  - intros k Hk. destruct (decide (k = Z.of_nat (length q))) as [->|Hne].
    + rewrite <-Hw, list_lookup_insert_eq by lia. by rewrite Nat2Z.id, list_lookup_middle.
    + rewrite list_lookup_insert_ne.
      * rewrite Hslot by done. f_equal. destruct (decide (k < Z.of_nat (length q))).
        -- rewrite lookup_app_l by lia. done.
        -- rewrite !lookup_ge_None_2; [done|rewrite length_app; simpl; lia|lia].
      * rewrite Hw. pose proof (mod_slot_ne (size rb) (readIdx rb) (Z.of_nat (length q)) k
          ltac:(lia) ltac:(lia) ltac:(lia) ltac:(lia)).
        pose proof (Z.mod_pos_bound (readIdx rb + Z.of_nat (length q)) (size rb)).
        pose proof (Z.mod_pos_bound (readIdx rb + k) (size rb)). lia.
Qed.
End refines.

Lemma rep_writeIdx rb q : rep rb q → 0 <= writeIdx rb < size rb.
Proof. intros Hrep. rewrite (rep_write _ _ Hrep). apply Z.mod_pos_bound. pose proof (rep_size _ _ Hrep). lia. Qed.

(** The buffer is full when the indices meet on a value. *)
Lemma rep_meet rb q :
  rep rb q →
  writeIdx rb = readIdx rb ↔ Z.of_nat (length q) = 0 ∨ Z.of_nat (length q) = size rb.
Proof.
  intros [Hs Hl Hr Hf Hw Ht Hslot]. rewrite Hw.
  split; [|intros [-> | ->]].
  - intros Hm. destruct (decide (Z.of_nat (length q) = 0)); [by left|right].
    destruct (decide (Z.of_nat (length q) < size rb)); [|lia].
    exfalso. apply (mod_slot_ne (size rb) (readIdx rb) (Z.of_nat (length q)) 0); [lia..|].
    by rewrite Z.add_0_r, (Z.mod_small (readIdx rb)).
  - by rewrite Z.add_0_r, Z.mod_small.
  - replace (readIdx rb + size rb) with (readIdx rb + 1 * size rb) by lia.
    by rewrite Z.mod_add, Z.mod_small by lia.
Qed.

Lemma Write_refines rb q v :
  rep rb q → returns (Write rb v) (λ rb', rep rb' (enqueue (size rb) q v) ∧ size rb' = size rb).
Proof.
  intros Hrep. pose proof Hrep as [Hs Hl Hr Hf Hw Ht Hslot]. pose proof (rep_writeIdx rb q Hrep) as Hwb.
  pose proof (rep_head rb q Hrep) as Hhd. pose proof (rep_meet rb q Hrep) as Hmt.
  unfold Write, enqueue. destruct (decide (Z.of_nat (length q) = size rb)) as [Hfull|Hroom].
  - assert (Hmeet : writeIdx rb = readIdx rb) by (apply Hmt; by right).
    destruct q as [|x q']; [simpl in Hfull; lia|].
    rewrite decide_True by done. unfold slice_get. rewrite decide_True, Hmeet, Hhd by lia.
    cbn [mbind go_bind head]. simpl buf. simpl writeIdx. unfold slice_set. rewrite decide_True by lia.
    cbn [mbind go_bind]. apply returns_done. simpl safeNext. simpl size. rewrite decide_False by lia.
    split; [|done]. pose proof (rep_dequeue rb _ Hrep x q' eq_refl) as Hd. rewrite <-Hmeet in Hd.
    set (rd := incReadIdx _) in Hd.
    enough (He : rep (set_tokens (incWriteIdx (set_buf rd (<[Z.to_nat (writeIdx rb) := Some v]> (buf rd))))
                       (safeNext rd + 1)) (q' ++ [v])).
    { simpl in He. rewrite list_insert_insert_eq in He. simpl tail. rewrite <-?Hmeet.
      unfold set_tokens, incWriteIdx, set_buf, incReadIdx in *. simpl in *.
      by rewrite Z.sub_add in He. }
    apply (rep_enqueue rd q' Hd v). simpl in *. lia.
  - assert (Hnotfull : (x ← (if decide (writeIdx rb = readIdx rb) then
          x ← slice_get (buf rb) (writeIdx rb);
          Done (match x with Some _ => incReadIdx rb | None => rb end)
        else Done rb); Done x) = Done rb).
    { case_decide as Hm; [|done]. pose proof Hm as Hm'. apply Hmt in Hm' as [Hz|]; [|done].
      unfold slice_get. rewrite decide_True, Hm, Hhd by lia. by destruct q. }
    destruct (if decide (writeIdx rb = readIdx rb) then _ else _) as [x| | |]; try done.
    injection Hnotfull as ->. cbn [mbind go_bind]. unfold slice_set. rewrite decide_True by lia.
    cbn [mbind go_bind]. apply returns_done. simpl safeNext. simpl size. rewrite decide_True by lia.
    split; [|done]. apply rep_enqueue; [done|lia].
Qed.

Lemma Next_refines rb q :
  rep rb q →
  match q with
  | [] => Next rb = Blocked
  | x :: q' => returns (Next rb) (λ '(rb', v), v = x ∧ rep rb' q' ∧ size rb' = size rb)
  end.
Proof.
  intros Hrep. pose proof Hrep as [Hs Hl Hr Hf Hw Ht Hslot]. pose proof (rep_head rb q Hrep) as Hhd.
  unfold Next, next_token. destruct q as [|x q'].
  - by rewrite decide_False by (simpl in Ht; lia).
  - rewrite decide_True by (simpl in Ht; lia). cbn [mbind go_bind]. unfold next_read, slice_get. simpl buf.
    simpl readIdx. rewrite decide_True, Hhd by lia. cbn [mbind go_bind head].
    unfold slice_set. rewrite decide_True by lia. cbn [mbind go_bind].
    apply returns_done. split_and!; [done| |done]. by apply (rep_dequeue rb _ Hrep x q').
Qed.

(** ** The queue whatever the tokens

    A client that interleaves with the two steps of [Next] sees the same
    queue; only the number of tokens differs. *)

Definition holds (rb : RingBuffer) (q : list T) : Prop := rep (set_tokens rb (Z.of_nat (length q))) q.

Lemma rep_holds rb t q : rep (set_tokens rb t) q → holds rb q.
Proof. intros H. pose proof (rep_tokens _ _ H) as Ht. simpl in Ht. by subst t. Qed.
Lemma Write_tokens rb t v :
  Write (set_tokens rb t) v = rb' ← Write rb v; Done (set_tokens rb' (if decide (t < size rb) then t + 1 else t)).
Proof.
  unfold Write, set_tokens, incWriteIdx, incReadIdx, set_buf; simpl.
  destruct (decide (writeIdx rb = readIdx rb)); simpl; [destruct (slice_get (buf rb) _) as [[x|]| | |]; simpl; try done|].
  all: destruct (slice_set _ _ _); simpl; try done; by repeat case_decide.
Qed.
Lemma next_read_tokens rb t :
  next_read (set_tokens rb t) = '(rb', v) ← next_read rb; Done (set_tokens rb' t, v).
Proof.
  unfold next_read, set_tokens, incReadIdx, set_buf; simpl.
  destruct (slice_get _ _) as [[x|]| | |]; simpl; try done; by destruct (slice_set _ _ _).
Qed.

Lemma Write_holds rb q v :
  holds rb q →
  returns (Write rb v) (λ rb', holds rb' (enqueue (size rb) q v) ∧ size rb' = size rb ∧
    safeNext rb' = if decide (safeNext rb < size rb) then safeNext rb + 1 else safeNext rb).
Proof.
  intros Hh. destruct (Write_refines _ q v Hh) as (rb0 & Heq & Hrep & Hsz). rewrite Write_tokens in Heq.
  assert (Heta : rb = set_tokens rb (safeNext rb)) by by destruct rb. rewrite Heta at 1. rewrite Write_tokens.
  destruct (Write rb v) as [rb1| | |]; try done. cbn [mbind go_bind] in *. injection Heq as <-. simpl in Hsz.
  apply returns_done. split_and!; [|done|done]. by eapply rep_holds.
Qed.
Lemma next_read_holds rb q :
  holds rb q →
  match q with
  | [] => next_read rb = Panic NilDereference
  | x :: q' => returns (next_read rb) (λ '(rb', v), v = x ∧ holds rb' q' ∧ size rb' = size rb ∧ safeNext rb' = safeNext rb)
  end.
Proof.
  intros Hh. pose proof (rep_head _ _ Hh) as Hhd. pose proof (rep_read _ _ Hh) as Hr. pose proof (rep_len _ _ Hh) as Hl.
  simpl in *. unfold next_read, slice_get, slice_set. rewrite !decide_True, Hhd by lia. cbn [mbind go_bind].
  destruct q as [|x q']; [done|]. simpl. apply returns_done. split_and!; try done.
  pose proof (rep_dequeue _ _ Hh x q' eq_refl) as Hd. by eapply rep_holds.
Qed.
End ring.
Arguments RingBuffer : clear implicits.

(** ** Runs of a client that writes and reads *)

Section runs.
Context {T : Type}.

Inductive rop := RWrite (v : T) | RNext.

(** The buffer and the values read so far; a run stops at a read that blocks. *)
Definition ring_op (st : RingBuffer T * list T) (o : rop) : go (RingBuffer T * list T) :=
  match o with
  | RWrite v => rb ← Write st.1 v; Done (rb, st.2)
  | RNext => '(rb, v) ← Next st.1; Done (rb, st.2 ++ [v])
  end.
Definition ring_run (n : Z) (os : list rop) : go (RingBuffer T * list T) :=
  rb ← NewRingBuffer n; foldM ring_op os (rb, []).

(** The same on the abstract queue; a read of the empty queue blocks. *)
Definition queue_op (n : Z) (st : list T * list T) (o : rop) : go (list T * list T) :=
  match o with
  | RWrite v => Done (enqueue n st.1 v, st.2)
  | RNext => match st.1 with [] => Blocked | x :: q => Done (q, st.2 ++ [x]) end
  end.
Definition queue_run (n : Z) (os : list rop) : go (list T * list T) := foldM (queue_op n) os ([], []).

Lemma rep_new n : 0 < n < 2 ^ 62 →
  returns (NewRingBuffer n) (λ rb : RingBuffer T, rep rb [] ∧ size rb = n).
Proof.
  intros Hn. unfold NewRingBuffer. rewrite decide_False by lia. apply returns_done. split; [|done].
  split; simpl; try done; try lia.
  - rewrite length_replicate. lia.
  - intros k Hk. rewrite lookup_nil. apply lookup_replicate_2.
    rewrite Z.add_0_l. pose proof (Z.mod_pos_bound k n). lia.
Qed.

Lemma ring_simulation n os rb q rd :
  rep rb q → size rb = n →
  match foldM (queue_op n) os (q, rd) with
  | Done (q', rd') => ∃ rb', foldM ring_op os (rb, rd) = Done (rb', rd') ∧ rep rb' q'
  | Blocked => foldM ring_op os (rb, rd) = Blocked
  | _ => False
  end.
Proof.
  revert rb q rd. induction os as [|o os IH]; intros rb q rd Hrep Hn; [simpl; eauto|].
  cbn [foldM]. destruct o as [v|]; cbn [queue_op ring_op fst snd].
  - cbn [mbind go_bind]. destruct (Write_refines rb q v Hrep) as (rb' & -> & Hrep' & Hs).
    cbn [mbind go_bind]. rewrite Hn in Hrep'. apply IH; [done|lia].
  - pose proof (Next_refines rb q Hrep) as Hnx. destruct q as [|x q'].
    + rewrite Hnx. done.
    + destruct Hnx as ([rb' v] & -> & -> & Hrep' & Hs). cbn [mbind go_bind]. apply IH; [done|lia].
Qed.
End runs.

(** * Properties *)

(** C39: the ring buffer is a bounded queue that drops its oldest element. For
    every positive size and every sequence of writes and reads by one client,
    it returns exactly the values the abstract queue returns, in the same
    order, blocks exactly where the queue is empty, and never panics. *)
Theorem ring_refines_queue {T} (n : Z) (os : list (rop (T := T))) :
  0 < n < 2 ^ 62 →
  match queue_run n os with
  | Done (q, rd) => ∃ rb, ring_run n os = Done (rb, rd) ∧ rep rb q
  | Blocked => ring_run n os = Blocked
  | _ => False
  end.
Proof.
  intros Hn. destruct (rep_new (T := T) n Hn) as (rb & Heq & Hrep & Hs).
  unfold ring_run. rewrite Heq. cbn [mbind go_bind]. by apply ring_simulation.
Qed.

Lemma ring_refines_queue_witness :
  match queue_run 2 [RWrite 1; RWrite 2; RWrite 3; RNext; RNext] with
  | Done (q, rd) => ∃ rb, ring_run 2 [RWrite 1; RWrite 2; RWrite 3; RNext; RNext] = Done (rb, rd) ∧ rep rb q
  | Blocked => ring_run 2 [RWrite 1; RWrite 2; RWrite 3; RNext; RNext] = Blocked
  | _ => False
  end.
Proof. apply (ring_refines_queue 2). lia. Defined.

(** A write between the two steps of [Next] breaks the buffer. When a
    reader has taken its token but not yet the lock, a write into a full
    buffer adds a token for a value that replaces another: the reader returns,
    and the next call of [Next] finds a token, reads an empty slot and
    dereferences nil instead of blocking. *)
Theorem ring_race {T} (rb : RingBuffer T) (a b : T) :
  NewRingBuffer 1 = Done rb →
  ∃ rb1 rb2 rb3 rb4,
    Write rb a = Done rb1 ∧ next_token rb1 = Done rb2 ∧ Write rb2 b = Done rb3 ∧
    next_read rb3 = Done (rb4, b) ∧ Next rb4 = Panic NilDereference.
Proof. intros [= <-]. do 4 eexists. split_and!; reflexivity. Qed.

Lemma ring_race_witness : ∃ rb : RingBuffer Z, NewRingBuffer 1 = Done rb ∧ ∃ rb1 rb2 rb3 rb4,
    Write rb 5 = Done rb1 ∧ next_token rb1 = Done rb2 ∧ Write rb2 6 = Done rb3 ∧
    next_read rb3 = Done (rb4, 6) ∧ Next rb4 = Panic NilDereference.
Proof. eexists. split; [reflexivity|]. apply ring_race. reflexivity. Defined.
