(* ===== verification/LinkedList.v ===== *)
(** * LinkedList: internal/util/linkedlist.go

    Nodes are heap objects shared through their [previous] and [next]
    pointers; the list is its head, its tail, its length and its capacity
    (0 for none).  [Append] refines "append, then keep the last capacity
    elements". *)
From S2P Require Import Prelude Types.

Section linkedlist.
Context {T : Type}.

Record LLNode := { previous : option Z; next : option Z; data : T }.

Record LinkedList := {
  nodes : gmap Z LLNode;    (* the heap *)
  fresh : Z;                (* the next address *)
  lhead : option Z;
  ltail : option Z;
  llength : Z;              (* uint *)
  lcapacity : Z             (* uint *)
}.

Definition u64 (x : Z) : Z := wrap 64 x.

Definition NewLinkedList (capacity : Z) : LinkedList :=
  {| nodes := ∅; fresh := 0; lhead := None; ltail := None; llength := 0; lcapacity := capacity |}.

Definition Head (l : LinkedList) : option Z := lhead l.
Definition Tail (l : LinkedList) : option Z := ltail l.
Definition Length (l : LinkedList) : Z := i64 (llength l).
Definition Capacity (l : LinkedList) : Z := i64 (lcapacity l).

Definition deref (l : LinkedList) (p : option Z) : go LLNode :=
  match p with
  | None => Panic NilDereference
  | Some a => match nodes l !! a with Some n => Done n | None => Panic NilDereference end
  end.
Definition Previous (l : LinkedList) (p : option Z) : go (option Z) := n ← deref l p; Done (previous n).
Definition Next (l : LinkedList) (p : option Z) : go (option Z) := n ← deref l p; Done (next n).
Definition Data (l : LinkedList) (p : option Z) : go T := n ← deref l p; Done (data n).

(** The removal of the head when the capacity is reached; [None] is the early
    return of the empty list. *)
Definition evict (l : LinkedList) : go (option LinkedList) :=
  if decide (lcapacity l ≠ 0 ∧ llength l = lcapacity l) then
    if decide (llength l = 0) then Done None
    else
      '(h, t) ← (if decide (llength l = 1) then Done (None, None)
                 else h ← Next l (lhead l); Done (h, ltail l));
      Done (Some {| nodes := nodes l; fresh := fresh l; lhead := h; ltail := t;
                    llength := u64 (llength l - 1); lcapacity := lcapacity l |})
  else Done (Some l).

(** The insertion at the tail. *)
Definition push (l : LinkedList) (d : T) : go LinkedList :=
  match ltail l with
  | None =>
      Done {| nodes := <[fresh l := {| previous := None; next := None; data := d |}]> (nodes l);
              fresh := fresh l + 1; lhead := Some (fresh l); ltail := Some (fresh l);
              llength := u64 (llength l + 1); lcapacity := lcapacity l |}
  | Some oldTail =>
      n ← deref l (Some oldTail);
      Done {| nodes := <[oldTail := {| previous := previous n; next := Some (fresh l); data := data n |}]>
                         (<[fresh l := {| previous := Some oldTail; next := None; data := d |}]> (nodes l));
              fresh := fresh l + 1; lhead := lhead l; ltail := Some (fresh l);
              llength := u64 (llength l + 1); lcapacity := lcapacity l |}
  end.

Definition Append (l : LinkedList) (d : T) : go LinkedList :=
  r ← evict l;
  match r with None => Done l | Some l => push l d end.

(** Following [Next] from a node, at most [fuel] nodes. *)
Fixpoint walk (fuel : nat) (l : LinkedList) (p : option Z) : go (list T) :=
  match fuel, p with
  | O, Some _ => NoFuel
  | _, None => Done []
  | S fuel, Some _ => d ← Data l p; p' ← Next l p; ds ← walk fuel l p'; Done (d :: ds)
  end.

(** ** The abstract list *)

Definition keep (c : Z) (xs : list T) (d : T) : list T :=
  (if decide (c ≠ 0 ∧ Z.of_nat (length xs) = c) then tail xs else xs) ++ [d].

(** The addresses [ids] form a chain from [p] carrying [xs]. *)
Fixpoint chain (h : gmap Z LLNode) (p : option Z) (ids : list Z) (xs : list T) : Prop :=
  match ids, xs with
  | [], [] => p = None
  | a :: ids, x :: xs => p = Some a ∧ ∃ n, h !! a = Some n ∧ data n = x ∧ chain h (next n) ids xs
  | _, _ => False
  end.
Record rep (l : LinkedList) (ids : list Z) (xs : list T) : Prop := {
  rep_chain : chain (nodes l) (lhead l) ids xs;
  rep_tail : ltail l = last ids;
  rep_nodup : NoDup ids;
  rep_fresh : Forall (λ a, a < fresh l) ids;
  rep_length : llength l = Z.of_nat (length xs);
  rep_cap : 0 <= lcapacity l < 2 ^ 64;
  rep_fits : lcapacity l ≠ 0 → Z.of_nat (length xs) <= lcapacity l
}.

(** * Lemmas *)

Lemma chain_length h p ids xs : chain h p ids xs → length ids = length xs.
Proof.
  revert p xs. induction ids as [|a ids IH]; intros p [|x xs]; simpl; try done.
  intros (_ & n & _ & _ & Hc). f_equal. by eapply IH.
Qed.
Lemma chain_insert h p ids xs a n : a ∉ ids → chain h p ids xs → chain (<[a := n]> h) p ids xs.
Proof.
  revert p xs. induction ids as [|b ids IH]; intros p [|x xs]; simpl; try done.
  intros Ha (-> & m & Hm & Hd & Hc). split; [done|]. exists m.
  rewrite lookup_insert_ne by set_solver. split_and!; [done..|]. apply IH; [set_solver|done].
Qed.

(** Linking a new last node. *)
Lemma chain_snoc h p ids xs old a d n :
  chain h p (ids ++ [old]) xs → NoDup (ids ++ [old]) → a ∉ ids ++ [old] → h !! old = Some n →
  chain (<[old := {| previous := previous n; next := Some a; data := data n |}]>
           (<[a := {| previous := Some old; next := None; data := d |}]> h)) p ((ids ++ [old]) ++ [a]) (xs ++ [d]).
Proof.
  revert p xs. induction ids as [|b ids IH]; intros p [|x xs]; simpl; try done.
  - intros (-> & m & Hm & Hd & Hc) _ Ha Hn. destruct xs; [|done]. split; [done|].
    eexists. rewrite lookup_insert_eq. split_and!; [done|simpl; congruence|]. simpl. split; [done|].
    eexists. rewrite lookup_insert_ne by set_solver. rewrite lookup_insert_eq. done.
  - intros (-> & m & Hm & Hd & Hc) [Hb Hnd]%NoDup_cons Ha Hn. split; [done|]. exists m.
    rewrite lookup_insert_ne by set_solver. rewrite lookup_insert_ne by set_solver.
    split_and!; [done..|]. apply IH; [done..|set_solver|done].
Qed.
Lemma chain_mem h p ids xs a : chain h p ids xs → a ∈ ids → is_Some (h !! a).
Proof.
  revert p xs. induction ids as [|b ids IH]; intros p [|x xs]; simpl; try done.
  - intros _ ?. set_solver.
  - intros (-> & m & Hm & Hd & Hc) [->|Ha]%elem_of_cons; [by eexists|]. by eapply IH.
Qed.

Lemma rep_push l ids xs d :
  rep l ids xs → Z.of_nat (length xs) < 2 ^ 64 - 1 →
  (lcapacity l ≠ 0 → Z.of_nat (length xs) < lcapacity l) →
  returns (push l d) (λ l', rep l' (ids ++ [fresh l]) (xs ++ [d]) ∧ lcapacity l' = lcapacity l).
Proof.
  intros [Hc Ht Hnd Hfr Hl Hcap Hfit] Hb Hroom. unfold push.
  assert (Hnew : fresh l ∉ ids). { intros Hin. eapply Forall_forall in Hfr; [|done]. lia. }
  assert (Hlen : u64 (llength l + 1) = Z.of_nat (length (xs ++ [d]))).
  { unfold u64, wrap. rewrite Hl, length_app. simpl. rewrite Z.mod_small; lia. }
  assert (Hfr' : Forall (λ a, a < fresh l + 1) (ids ++ [fresh l])).
  { apply Forall_app. split; [|constructor; [lia|done]]. eapply Forall_impl; [done|]. simpl. lia. }
  assert (Hnd' : NoDup (ids ++ [fresh l])).
  { apply NoDup_app. split_and!; [done| |apply NoDup_singleton]. set_solver. }
  destruct ids as [|old ids _] using rev_ind.
  - simpl in Ht. rewrite Ht. apply returns_done. split; [|done]. destruct xs; [|done].
    split; simpl; [|try done..|].
    + split; [done|]. eexists. rewrite lookup_insert_eq. done.
    + intros Hne. specialize (Hroom Hne). simpl in Hroom. lia.
  - rewrite last_snoc in Ht. rewrite Ht.
    destruct (chain_mem _ _ _ _ old Hc) as [n Hn]; [set_solver|].
    unfold deref. rewrite Hn. cbn [mbind go_bind]. apply returns_done. split; [|done].
    split; simpl; try done.
    + by apply chain_snoc.
    + by rewrite last_snoc.
    + intros Hne. specialize (Hroom Hne). rewrite length_app. simpl. lia.
Qed.

Lemma rep_evict l ids xs :
  rep l ids xs → Z.of_nat (length xs) < 2 ^ 64 →
  returns (evict l) (λ r, ∃ l' ids' , r = Some l' ∧
    rep l' ids' (if decide (lcapacity l ≠ 0 ∧ Z.of_nat (length xs) = lcapacity l) then tail xs else xs) ∧
    lcapacity l' = lcapacity l ∧ (lcapacity l ≠ 0 → llength l' < lcapacity l)).
Proof.
  intros Hrep Hb. pose proof Hrep as [Hc Ht Hnd Hfr Hl Hcap Hfit]. unfold evict. rewrite Hl.
  case_decide as Hfull.
  - rewrite decide_False by lia. destruct xs as [|x xs]; [simpl in *; lia|].
    destruct ids as [|a ids]; [done|]. destruct Hc as (Hh & n & Hn & Hd & Hc).
    assert (Hlen : ∀ z, z = Z.of_nat (length xs) → u64 z = Z.of_nat (length xs)).
    { intros z ->. unfold u64, wrap. rewrite Z.mod_small; simpl in *; lia. }
    apply NoDup_cons in Hnd as [_ Hnd]. apply Forall_cons in Hfr as [_ Hfr].
    pose proof (chain_length _ _ _ _ Hc) as Hcl. simpl length in *.
    case_decide as H1.
    + cbn [mbind go_bind]. apply returns_done. destruct xs; [|simpl in *; lia]. destruct ids; [|done].
      eexists _, []. split; [done|]. split; [split; simpl; try done; lia|]. split; [done|].
      intros _. cbn [llength]. rewrite Hlen by done. simpl in *. lia.
    + unfold Next, deref. rewrite Hh, Hn. cbn [mbind go_bind]. apply returns_done.
      eexists _, ids. split; [done|]. split.
      * split; simpl; try done.
        -- rewrite Ht. destruct ids; [simpl in *; lia|done].
        -- apply Hlen. lia.
        -- lia.
      * split; [done|]. simpl. rewrite Hlen by lia. lia.
  - apply returns_done. exists l, ids. split; [done|]. split; [done|]. split; [done|].
    intros Hne. specialize (Hfit Hne). lia.
Qed.

Lemma Append_refines l ids xs d :
  rep l ids xs → Z.of_nat (length xs) < 2 ^ 64 - 1 →
  returns (Append l d) (λ l', ∃ ids', rep l' ids' (keep (lcapacity l) xs d) ∧ lcapacity l' = lcapacity l).
Proof.
  intros Hrep Hb. unfold Append, keep. eapply returns_bind; [eapply rep_evict; [done|lia]|].
  intros ? (l' & ids' & -> & Hrep' & Hcap' & Hroom).
  set (ys := if decide _ then tail xs else xs) in *.
  assert (Hys : (length ys <= length xs)%nat).
  { unfold ys. case_decide; [|done]. destruct xs; simpl; lia. }
  rewrite <-Hcap' in *. eapply returns_mono; [apply (rep_push l' ids' ys d); [done|lia|]|].
  - intros Hne. rewrite <-(rep_length _ _ _ Hrep'). by apply Hroom.
  - intros l'' [Hr Hc]. eauto.
Qed.

Lemma walk_chain l p ids xs fuel :
  chain (nodes l) p ids xs → (length xs < fuel)%nat → walk fuel l p = Done xs.
Proof.
  revert p xs fuel. induction ids as [|a ids IH]; intros p [|x xs] [|fuel]; simpl; try done; try lia.
  - by intros ->.
  - intros (-> & n & Hn & Hd & Hc) Hf. unfold Data, Next, deref. rewrite Hn. cbn [mbind go_bind].
    rewrite (IH _ xs) by (done || lia). cbn [mbind go_bind]. by rewrite Hd.
Qed.
End linkedlist.
Arguments LinkedList : clear implicits.
Arguments LLNode : clear implicits.

(** * Properties *)

(** The elements a list of capacity [c] keeps of [xs]. *)
Definition kept {T} (c : Z) (xs : list T) : list T := if decide (c = 0) then xs else drop (length xs - Z.to_nat c) xs.

Lemma keep_kept {T} c (xs : list T) d : 0 <= c → keep c (kept c xs) d = kept c (xs ++ [d]).
Proof.
  intros Hc. unfold keep, kept. destruct (decide (c = 0)) as [->|Hne].
  - by rewrite decide_False by naive_solver.
  - rewrite length_drop, length_app. simpl. case_decide as Hfull.
    + rewrite drop_app_le by lia. f_equal.
      assert (Htl : ∀ l : list T, tail l = drop 1 l) by by intros [].
      rewrite Htl, drop_drop. f_equal. lia.
    + rewrite drop_app_le by lia. f_equal. f_equal. lia.
Qed.

(** A linked list keeps the last elements appended. For every capacity and
    every sequence of appends the list never panics; following [Next] from
    [Head] visits exactly the last [capacity] elements in the order they were
    appended (all of them when the capacity is 0), ends at nil, and [Length]
    is their number. *)
Theorem linkedlist_keeps_last {T} (c : Z) (xs : list T) :
  0 <= c < 2 ^ 64 → Z.of_nat (length xs) < 2 ^ 63 →
  returns (foldM Append xs (NewLinkedList c)) (λ l,
    (∀ fuel, (length xs < fuel)%nat → walk fuel l (Head l) = Done (kept c xs)) ∧
    Length l = Z.of_nat (length (kept c xs))).
Proof.
  intros Hc Hl.
  assert (Hk : ∀ ys : list T, (length (kept c ys) <= length ys)%nat).
  { intros ys. unfold kept. case_decide; [done|]. rewrite length_drop. lia. }
  eapply returns_mono; [apply (returns_foldM_prefix _ (λ ys l, (∃ ids, rep l ids (kept c ys)) ∧ lcapacity l = c))|].
  - split; [|done]. exists []. unfold kept. rewrite drop_nil. assert ((if decide (c = 0) then [] else []) = @nil T) as ->.
    { by case_decide. }
    split; simpl; try done; [apply NoDup_nil_2|lia].
  - intros ys x rest l -> ([ids Hrep] & Hcap).
    eapply returns_mono; [eapply Append_refines; [exact Hrep|]|].
    + specialize (Hk ys). rewrite length_app in Hl. lia.
    + intros l' (ids' & Hrep' & Hcap'). rewrite Hcap in Hrep', Hcap'. split; [|done].
      exists ids'. by rewrite <-keep_kept by lia.
  - intros l ([ids Hrep] & Hcap). specialize (Hk xs). split.
    + intros fuel Hf. eapply walk_chain; [apply (rep_chain _ _ _ Hrep)|lia].
    + unfold Length. rewrite (rep_length _ _ _ Hrep). apply i64_small. unfold is_i64, min_i64, max_i64. lia.
Qed.

Lemma linkedlist_keeps_last_witness :
  returns (foldM Append [1; 2; 3; 4] (NewLinkedList 3)) (λ l,
    (∀ fuel, (length [1; 2; 3; 4]%Z < fuel)%nat → walk fuel l (Head l) = Done (kept 3 [1; 2; 3; 4])) ∧
    Length l = Z.of_nat (length (kept 3 [1; 2; 3; 4]))).
Proof. apply (linkedlist_keeps_last 3); simpl; lia. Defined.

(** An evicted node is never unlinked: once a full list has dropped its
    head, [Previous] of the new head still leads to the dropped element, so
    that walking backwards leaves the list and no dropped node is ever
    released. *)
Theorem evicted_node_reachable {T} (a b c : T) :
  returns (foldM Append [a; b; c] (NewLinkedList 2)) (λ l,
    walk 3 l (Head l) = Done [b; c] ∧
    returns (Previous l (Head l)) (λ p, p ≠ None ∧ Data l p = Done a)).
Proof. eexists. split; [reflexivity|]. split; [done|]. by eexists. Qed.
