(* ===== verification/Wal.v ===== *)
(** * Wal: internal/adapter/wal/wal.go and internal/types/wal.go

    The write-ahead log in its single-node form: proposals go through a ring
    buffer of 32 entries, are appended to a bounded linked list and dispatched
    to the watchers.  Time, JSON, SHA-256 and the binary decoder are inputs. *)
From S2P Require Import Prelude Types WatcherMux MuxStreams RingBuffer LinkedList Packet Monitor.

(** ** types/wal.go *)

Section entry.
Context {T : Type}.

Record WALEntry := {
  Key : string;
  EntryData : T;
  Verb : string;
  Timestamp : Z;
  WALName : string;
  ProposalHash : list Z;
  PreviousHash : list Z;
  Hash : list Z
}.

Record Suggestion := { SKey : string; SData : T; SVerb : string }.

Definition NewProposal (key : string) (data : T) (verb : string) : Suggestion :=
  {| SKey := key; SData := data; SVerb := verb |}.

Definition zero_hash : list Z := replicate 32 0.

(** [marshal] is [json.Marshal] of the entry, [sum256] is [sha256.Sum256]. *)
Definition TransformProposalIntoWALEntry (marshal : WALEntry → list Z + error) (sum256 : list Z → list Z) (now : Z)
    (walName : string) (previousHash : list Z) (proposal : Suggestion) (verb : string) : WALEntry + error :=
  let out := {| Key := SKey proposal; EntryData := SData proposal; Verb := verb; Timestamp := now;
                WALName := walName; ProposalHash := zero_hash; PreviousHash := previousHash; Hash := zero_hash |} in
  match marshal out with
  | inr err => inr err
  | inl b => inl {| Key := Key out; EntryData := EntryData out; Verb := Verb out; Timestamp := Timestamp out;
                    WALName := WALName out; ProposalHash := ProposalHash out; PreviousHash := PreviousHash out;
                    Hash := sum256 b |}
  end.
End entry.
Arguments WALEntry : clear implicits.
Arguments Suggestion : clear implicits.

(** [decode] is [binary.Decode] into a zero value of the target type. *)
Definition RawWALEntryInto {T} (decode : list Z → T + error) (e : WALEntry (list Z)) : WALEntry T + error :=
  match decode (EntryData e) with
  | inr err => inr err
  | inl d => inl {| Key := Key e; EntryData := d; Verb := Verb e; Timestamp := Timestamp e; WALName := WALName e;
                    ProposalHash := ProposalHash e; PreviousHash := PreviousHash e; Hash := Hash e |}
  end.

(** ** wal.go *)

Section wal.
Context {T : Type}.

Definition proposingRingBufferSize : Z := 32.

Record wal := {
  name : string;
  linkedList : LinkedList (WALEntry T);
  proposalBuffer : RingBuffer (WALEntry T);
  mgmt : monitor (list T)    (* running, closed, doneCh, terminateCh, watcherMux *)
}.

Definition New (n : string) (capacity : Z) (mux : WatcherMux (list T)) : go wal :=
  rb ← NewRingBuffer proposingRingBufferSize;
  Done {| name := n; linkedList := NewLinkedList capacity; proposalBuffer := rb; mgmt := new_monitor mux |}.

Definition with_name (e : WALEntry T) (n : string) : WALEntry T :=
  {| Key := Key e; EntryData := EntryData e; Verb := Verb e; Timestamp := Timestamp e; WALName := n;
     ProposalHash := ProposalHash e; PreviousHash := PreviousHash e; Hash := Hash e |}.

Definition Propose (w : wal) (proposal : WALEntry T) : go wal :=
  rb ← Write (proposalBuffer w) (with_name proposal (name w));
  Done {| name := name w; linkedList := linkedList w; proposalBuffer := rb; mgmt := mgmt w |}.

(** One round of the reader goroutine and of the event loop: the next
    proposal is appended to the log and its data dispatched. *)
Definition wal_step (iter : gset Z → list Z) (pick_done reads : bool) (w : wal) : go wal :=
  '(rb, proposal) ← RingBuffer.Next (proposalBuffer w);
  ll ← Append (linkedList w) proposal;
  m ← monitor_dispatch iter pick_done reads (mgmt w) [EntryData proposal];
  Done {| name := name w; linkedList := ll; proposalBuffer := rb; mgmt := m |}.

Definition wal_Watch (w : wal) : go (wal * Z) :=
  '(m, id) ← monitor_Watch (mgmt w);
  Done ({| name := name w; linkedList := linkedList w; proposalBuffer := proposalBuffer w; mgmt := m |}, id).

Definition wal_Run (w : wal) : wal * option error :=
  let (m, err) := monitor_Run None (mgmt w) in
  ({| name := name w; linkedList := linkedList w; proposalBuffer := proposalBuffer w; mgmt := m |}, err).

Definition wal_Close (iter : gset Z → list Z) (w : wal) : go (wal * option error) :=
  '(m, err) ← monitor_Close iter (mgmt w);
  Done ({| name := name w; linkedList := linkedList w; proposalBuffer := proposalBuffer w; mgmt := m |}, err).

(** The event loop over [n] proposals. *)
Definition wal_steps (iter : gset Z → list Z) (pick_done reads : bool) (n : nat) (w : wal) : go wal :=
  foldM (λ w _, wal_step iter pick_done reads w) (replicate n tt) w.
End wal.
Arguments wal : clear implicits.

(** * Lemmas *)

Section log.
Context {T : Type} (iter : gset Z → list Z) (Hiter : ∀ X, iter X ≡ₚ elements X).
Implicit Types (w : wal T) (xs : list (WALEntry T)).

(** The log holds [log] and the proposal buffer [pending]. *)
Record wal_at (c : Z) w (log pending : list (WALEntry T)) : Prop := {
  wa_ring : RingBuffer.rep (proposalBuffer w) pending;
  wa_size : RingBuffer.size (proposalBuffer w) = 32;
  wa_list : ∃ ids, LinkedList.rep (linkedList w) ids (kept c log);
  wa_cap : lcapacity (linkedList w) = c;
  wa_mux : mux_ready (watcherMux (mgmt w))
}.

Lemma wal_new n c mux :
  0 <= c < 2 ^ 64 → mux_ready mux → returns (New n c mux) (λ w, wal_at c w [] [] ∧ name w = n).
Proof.
  intros Hc Hmux. unfold New. eapply returns_bind; [apply rep_new; unfold proposingRingBufferSize; lia|].
  intros rb [Hrep Hs]. apply returns_done. split; [|done]. split; simpl; try done.
  exists []. replace (kept c []) with (@nil (WALEntry T)) by (unfold kept; rewrite drop_nil; by case_decide).
  split; simpl; try done; [apply NoDup_nil_2|lia].
Qed.

(** A proposal is stamped with the log's name and queued; when 32 proposals
    wait the oldest is dropped. *)
Lemma wal_propose c w log pending e :
  wal_at c w log pending →
  returns (Propose w e) (λ w', wal_at c w' log (enqueue 32 pending (with_name e (name w))) ∧ name w' = name w).
Proof.
  intros [Hr Hs Hl Hc Hm]. unfold Propose.
  eapply returns_bind; [apply Write_refines; exact Hr|]. intros rb [Hr' Hs']. apply returns_done.
  split; [|done]. rewrite Hs in *. by split.
Qed.

Lemma kept_length c xs : (length (kept c xs) <= length xs)%nat.
Proof. unfold kept. case_decide; [done|]. rewrite length_drop. lia. Qed.

Lemma wal_step_at p r c w log x pending :
  0 <= c → wal_at c w log (x :: pending) → Z.of_nat (length log) < 2 ^ 63 →
  returns (wal_step iter p r w) (λ w', wal_at c w' (log ++ [x]) pending).
Proof using Hiter.
  intros Hc0 [Hr Hs [ids Hl] Hc Hm] Hlen. unfold wal_step.
  pose proof (Next_refines _ _ Hr) as ([rb v] & -> & -> & Hr' & Hs'). cbn [mbind go_bind].
  pose proof (kept_length c log).
  destruct (Append_refines _ ids _ x Hl ltac:(lia)) as (ll & -> & ids' & Hl' & Hc'). cbn [mbind go_bind].
  unfold monitor_dispatch.
  destruct (dispatch_ready iter p r _ [EntryData x] Hiter Hm) as (mux & -> & Hm' & _). cbn [mbind go_bind].
  apply returns_done. rewrite Hc in *. split; simpl; [done|lia| |done|done].
  exists ids'. by rewrite <-keep_kept.
Qed.

Lemma wal_steps_at p r c w log pending :
  0 <= c → wal_at c w log pending → Z.of_nat (length log + length pending) < 2 ^ 63 →
  returns (wal_steps iter p r (length pending) w) (λ w', wal_at c w' (log ++ pending) []).
Proof using Hiter.
  intros Hc. revert w log. induction pending as [|x pending IH]; intros w log Hat Hlen.
  - apply returns_done. by rewrite app_nil_r.
  - unfold wal_steps. simpl. eapply returns_bind; [apply (wal_step_at p r c w log x pending); [done..|simpl in Hlen; lia]|].
    intros w' Hat'. rewrite cons_middle, app_assoc. apply IH; [done|]. rewrite length_app. simpl in *. lia.
Qed.

(** What a queue of 32 keeps of a sequence of proposals. *)
Lemma enqueue_all (xs : list (WALEntry T)) : foldl (enqueue 32) [] xs = drop (length xs - 32) xs.
Proof.
  induction xs as [|x xs IH] using rev_ind; [done|].
  rewrite foldl_snoc, IH, length_app. unfold enqueue. simpl. rewrite length_drop.
  case_decide as Hfull.
  - rewrite drop_app_le by lia. f_equal.
    assert (Htl : ∀ l : list (WALEntry T), tail l = drop 1 l) by by intros [].
    rewrite Htl, drop_drop. f_equal. lia.
  - rewrite drop_app_le by lia. f_equal. f_equal. lia.
Qed.
Lemma wal_proposals c w log pending es :
  wal_at c w log pending →
  returns (foldM Propose es w) (λ w',
    wal_at c w' log (foldl (enqueue 32) pending ((λ e, with_name e (name w)) <$> es)) ∧ name w' = name w).
Proof.
  revert w pending. induction es as [|e es IH]; intros w pending Hat; simpl; [by apply returns_done|].
  eapply returns_bind; [by apply wal_propose|]. intros w' [Hat' Hn].
  eapply returns_mono; [by apply IH|]. rewrite Hn. done.
Qed.
End log.

(** * Properties *)

(** The life of proposals in a log. Whatever is proposed before the event
    loop catches up, the loop then returns after one round per waiting
    proposal without panicking, and the log holds, in the order of the
    proposals, exactly the last 32 of them (all of them when there are no
    more), cut to the last [capacity] entries, each carrying the name of the
    log and otherwise as proposed. *)
Theorem wal_keeps_proposals {T} iter (p r : bool) (n : string) (c : Z) (mux : WatcherMux (list T)) (es : list (WALEntry T)) :
  (∀ X, iter X ≡ₚ elements X) → 0 <= c < 2 ^ 64 → mux_ready mux →
  let named := (λ e, with_name e n) <$> drop (length es - 32) es in
  returns (w ← New n c mux; w ← foldM Propose es w; wal_steps iter p r (length named) w) (λ w,
    (∀ fuel, (length named < fuel)%nat → walk fuel (linkedList w) (Head (linkedList w)) = Done (kept c named)) ∧
    RingBuffer.Next (proposalBuffer w) = Blocked).
Proof.
  intros Hiter Hc Hmux named.
  eapply returns_bind; [by apply wal_new|]. intros w0 [Hat0 Hn0].
  eapply returns_bind; [by apply wal_proposals|]. intros w1 [Hat1 _]. rewrite Hn0, enqueue_all in Hat1.
  rewrite length_fmap, <-fmap_drop in Hat1. fold named in Hat1.
  assert (Hlen : (length named <= 32)%nat).
  { unfold named. rewrite length_fmap, length_drop. lia. }
  eapply returns_mono; [apply (wal_steps_at iter Hiter p r c w1 [] named); [lia|done|simpl; lia]|].
  intros w [Hr Hs [ids Hl] Hcap Hm]. split.
  - intros fuel Hf. pose proof (kept_length c named).
    eapply walk_chain; [apply (LinkedList.rep_chain _ _ _ Hl)|simpl; lia].
  - exact (Next_refines _ _ Hr).
Qed.

Definition sample_entry (v : Z) : WALEntry Z :=
  {| Key := "k"; EntryData := v; Verb := PutCommand; Timestamp := v; WALName := ""; ProposalHash := zero_hash;
     PreviousHash := zero_hash; Hash := zero_hash |}.
Lemma wal_keeps_proposals_witness :
  let es := sample_entry <$> [1; 2; 3] in
  let named := (λ e, with_name e "log") <$> drop (length es - 32) es in
  returns (w ← New "log" 2 (NewWatcherMux 4); w ← foldM Propose es w; wal_steps elements true true (length named) w) (λ w,
    (∀ fuel, (length named < fuel)%nat → walk fuel (linkedList w) (Head (linkedList w)) = Done (kept 2 named)) ∧
    RingBuffer.Next (proposalBuffer w) = Blocked).
Proof.
  intros es. apply (wal_keeps_proposals elements true true "log" 2 (NewWatcherMux 4) es); [done|lia|apply new_mux_ready; lia].
Defined.
