(* ===== verification/WalLoops.v ===== *)
(** * WalLoops: the goroutines of a running log (wal/wal.go)

    [eventLoop] starts a goroutine that reads the proposal buffer and offers
    what it read on an unbuffered channel; the loop itself appends what it
    receives and dispatches it.  A schedule interleaves both with proposers,
    subscribers and [Close].  [Next] is its two steps (the token, then the
    critical section), so that a proposal can come in between. *)
From S2P Require Import Prelude Types WatcherMux MuxStreams RingBuffer LinkedList Packet Monitor Wal.

Section wal_loops.
Context {T : Type} (iter : gset Z → list Z).

(** The reader: calling [Next], past the token, offering an entry on
    [proposalCh], or gone. *)
Inductive reader_at := WNext | WToken | WOffer (e : WALEntry T) | WGone.
(** [eventLoop]: in its select, handling a proposal, or past [terminate:]. *)
Inductive event_at := ESelect | EHave (e : WALEntry T) | EEnded.

Record lstate := {
  log : wal T;
  reader : reader_at;
  event : event_at;
  closing : bool;                 (* a call of Close awaits the termination *)
  crashed : bool;                 (* a goroutine panicked, the process is gone *)
  proposed : list (WALEntry T);   (* what Propose wrote *)
  taken : list (WALEntry T);      (* what the reader read *)
  accepted : list (WALEntry T);   (* what the event loop appended *)
  answers : list (option error)   (* what Run and Close returned *)
}.

(** After a successful [Run]. *)
Definition start_log (w : wal T) : lstate :=
  {| log := (wal_Run w).1; reader := WNext; event := ESelect; closing := false; crashed := false;
     proposed := []; taken := []; accepted := []; answers := [] |}.

Definition with_log (s : lstate) (w : wal T) (r : reader_at) (ev : event_at) : lstate :=
  {| log := w; reader := r; event := ev; closing := closing s; crashed := crashed s; proposed := proposed s;
     taken := taken s; accepted := accepted s; answers := answers s |}.
Definition with_calls (s : lstate) (w : wal T) (cl : bool) (ans : list (option error)) : lstate :=
  {| log := w; reader := reader s; event := event s; closing := cl; crashed := crashed s; proposed := proposed s;
     taken := taken s; accepted := accepted s; answers := answers s ++ ans |}.
Definition crash (s : lstate) : lstate :=
  {| log := log s; reader := reader s; event := event s; closing := closing s; crashed := true; proposed := proposed s;
     taken := taken s; accepted := accepted s; answers := answers s |}.

(** The log with another buffer or other management state. *)
Definition wal_buffer (w : wal T) (rb : RingBuffer (WALEntry T)) : wal T :=
  {| name := name w; linkedList := linkedList w; proposalBuffer := rb; mgmt := mgmt w |}.
Definition wal_mgmt (w : wal T) (m : monitor (list T)) : wal T :=
  {| name := name w; linkedList := linkedList w; proposalBuffer := proposalBuffer w; mgmt := m |}.
Definition set_life (m : monitor (list T)) (run clo term : bool) : monitor (list T) :=
  {| watcherMux := watcherMux m; mRunning := run; mClosed := clo; mDone := mDone m; mTerminate := term |}.

Inductive lact :=
  | LPropose (e : WALEntry T)
  | LWatch
  | LCancel (id : Z)
  | LReceive (id : Z)             (* a subscriber reads its channel *)
  | LRun
  | LClose                        (* Close up to its select *)
  | LCloseReturn (timeout : bool)
  | LToken                        (* <-rb.safeNext *)
  | LRead                         (* the critical section of Next *)
  | LHand                         (* proposalCh <- entry *)
  | LExit                         (* the reader sees terminateCh *)
  | LAppend (pick_done reads : bool)
  | LStop.                        (* the event loop sees terminateCh *)

(** What a goroutine does when the code it runs panics. *)
Definition or_crash {A} (s : lstate) (c : go A) (k : A → lstate) : option lstate :=
  match c with Done a => Some (k a) | Panic _ => Some (crash s) | _ => None end.

Definition lstep (s : lstate) (a : lact) : option lstate :=
  let w := log s in
  if crashed s then None else
  match a with
  | LPropose e =>
      or_crash s (Propose w e) (λ w',
        {| log := w'; reader := reader s; event := event s; closing := closing s; crashed := false;
           proposed := proposed s ++ [with_name e (name w)]; taken := taken s; accepted := accepted s;
           answers := answers s |})
  | LWatch => or_crash s (wal_Watch w) (λ '(w', _), with_log s w' (reader s) (event s))
  | LCancel id =>
      or_crash s (cancel (watcherMux (mgmt w)) id) (λ m,
        with_log s (wal_mgmt w (with_mux (mgmt w) m)) (reader s) (event s))
  | LReceive id =>
      match recv (watcherMux (mgmt w)) id with
      | Done (m, Some _) => Some (with_log s (wal_mgmt w (with_mux (mgmt w) m)) (reader s) (event s))
      | _ => None
      end
  | LRun => if closing s then None else let (w', err) := wal_Run w in Some (with_calls s w' false [err])
  | LClose =>
      let m := mgmt w in
      if closing s then None
      else if negb (mRunning m) then Some (with_calls s w false [Some ErrRunnableMustBeRunningToBeClosed])
      else if mClosed m then Some (with_calls s w false [Some ErrAlreadyClosed])
      else if mTerminate m then Some (crash s)
      else Some (with_calls s (wal_mgmt w (set_life m (mRunning m) (mClosed m) true)) true [])
  | LCloseReturn timeout =>
      let m := mgmt w in
      if closing s && (mDone m || timeout)
      then Some (with_calls s (wal_mgmt w (set_life m false true (mTerminate m))) false [None])
      else None
  | LToken =>
      match reader s, next_token (proposalBuffer w) with
      | WNext, Done rb => Some (with_log s (wal_buffer w rb) WToken (event s))
      | _, _ => None
      end
  | LRead =>
      match reader s with
      | WToken =>
          or_crash s (next_read (proposalBuffer w)) (λ '(rb, e),
            {| log := wal_buffer w rb; reader := WOffer e; event := event s; closing := closing s; crashed := false;
               proposed := proposed s; taken := taken s ++ [e]; accepted := accepted s; answers := answers s |})
      | _ => None
      end
  | LHand =>
      match reader s, event s with
      | WOffer e, ESelect => Some (with_log s w WNext (EHave e))
      | _, _ => None
      end
  | LExit =>
      match reader s with
      | WOffer _ => if mTerminate (mgmt w) then Some (with_log s w WGone (event s)) else None
      | _ => None
      end
  | LAppend p r =>
      match event s with
      | EHave e =>
          or_crash s
            (ll ← Append (linkedList w) e;
             m ← monitor_dispatch iter p r (mgmt w) [EntryData e];
             Done {| name := name w; linkedList := ll; proposalBuffer := proposalBuffer w; mgmt := m |})
            (λ w', {| log := w'; reader := reader s; event := ESelect; closing := closing s; crashed := false;
                      proposed := proposed s; taken := taken s; accepted := accepted s ++ [e]; answers := answers s |})
      | _ => None
      end
  | LStop =>
      match event s with
      | ESelect =>
          if mTerminate (mgmt w)
          then or_crash s (monitor_terminate iter (mgmt w)) (λ m, with_log s (wal_mgmt w m) (reader s) EEnded)
          else None
      | _ => None
      end
  end.

(** Schedules of callers that wait while 32 proposals are unread, and call
    every cancel function once. *)
Definition polite (s : lstate) (a : lact) : bool :=
  match a with
  | LPropose _ => bool_decide (Z.of_nat (length (proposed s)) < Z.of_nat (length (taken s)) + 32)
  | LCancel id => match heap (watcherMux (mgmt (log s))) !! id with Some w => negb (wDoneClosed w) | None => false end
  | _ => true
  end.
Definition polite_step (s : lstate) (a : lact) : option lstate := if polite s a then lstep s a else None.
End wal_loops.
Arguments lstate : clear implicits.
Arguments lact : clear implicits.

(** * Lemmas *)

Ltac lstep_cases H :=
  repeat match type of H with
  | context [match ?x with (_, _) => _ end] => destruct x eqn:?; cbn beta iota in H
  | match ?x with _ => _ end = Some _ => destruct x eqn:?; try discriminate H
  | or_crash _ ?c _ = Some _ => destruct c eqn:?; cbn [or_crash] in H; try discriminate H
  end; try discriminate H; try injection H as <-.

Section logs.
Context {T : Type} (iter : gset Z → list Z) (Hiter : ∀ X, iter X ≡ₚ elements X).
Implicit Types (s : lstate T) (w : wal T).

(** What a goroutine holds between the buffer and the log. *)
Definition handing (r : reader_at (T := T)) : list (WALEntry T) := match r with WOffer e => [e] | _ => [] end.
Definition appending (ev : event_at (T := T)) : list (WALEntry T) := match ev with EHave e => [e] | _ => [] end.
Definition batches (es : list (WALEntry T)) : list (list T) := (λ e, [EntryData e]) <$> es.

(** The management state. *)
Record life_ok s : Prop := {
  lf_inv : mux_inv (watcherMux (mgmt (log s)));
  lf_open : event s ≠ EEnded → mux_ready (watcherMux (mgmt (log s))) ∧ doneClosed (watcherMux (mgmt (log s))) = false ∧
    mDone (mgmt (log s)) = false;
  lf_ended : event s = EEnded → mDone (mgmt (log s)) = true ∧ doneClosed (watcherMux (mgmt (log s))) = true ∧
    mTerminate (mgmt (log s)) = true;
  lf_flags : mRunning (mgmt (log s)) = negb (mClosed (mgmt (log s)));
  lf_term : mTerminate (mgmt (log s)) = closing s || mClosed (mgmt (log s));
  lf_closing : closing s = true → mClosed (mgmt (log s)) = false;
  lf_reader : reader s = WGone → mTerminate (mgmt (log s)) = true
}.

(** The log of capacity [c] holds the last accepted entries, the buffer [q];
    what was read is what was accepted, in hand, or (once the reader is gone)
    dropped; what was read and what waits are proposals in their order. *)
Record data_ok (c : Z) s (q : list (WALEntry T)) : Prop := {
  da_queue : holds (proposalBuffer (log s)) q;
  da_size : RingBuffer.size (proposalBuffer (log s)) = 32;
  da_list : ∃ ids, LinkedList.rep (linkedList (log s)) ids (kept c (accepted s));
  da_cap : lcapacity (linkedList (log s)) = c;
  da_taken : ∃ dropped, taken s = accepted s ++ appending (event s) ++ handing (reader s) ++ dropped ∧
    (reader s ≠ WGone → dropped = []);
  da_proposed : taken s ++ q `sublist_of` proposed s;
  da_mux : logged (watcherMux (mgmt (log s))) (batches (accepted s))
}.

Lemma or_crash_inv {A} s (c : go A) (k : A → lstate T) s' (P : lstate T → Prop) :
  or_crash s c k = Some s' → P (crash s) → (∀ a, c = Done a → P (k a)) → P s'.
Proof. unfold or_crash. destruct c; try done; intros [= <-]; auto. Qed.

(** ** The management state *)

Lemma life_frame s s' :
  watcherMux (mgmt (log s')) = watcherMux (mgmt (log s)) → mDone (mgmt (log s')) = mDone (mgmt (log s)) →
  mTerminate (mgmt (log s')) = mTerminate (mgmt (log s)) → mRunning (mgmt (log s')) = mRunning (mgmt (log s)) →
  mClosed (mgmt (log s')) = mClosed (mgmt (log s)) → closing s' = closing s →
  (event s' = EEnded ↔ event s = EEnded) → (reader s' = WGone → mTerminate (mgmt (log s)) = true) → life_ok s → life_ok s'.
Proof.
  intros Hm Hd Ht Hr Hc Hcl He Hrd [Hi Ho Hen Hf Hte Hclo Hre].
  split; rewrite ?Hm, ?Hd, ?Ht, ?Hr, ?Hc, ?Hcl; try done; rewrite He; done.
Qed.
Lemma life_mux s m :
  life_ok s → quiet (watcherMux (mgmt (log s))) m →
  life_ok (with_log s (wal_mgmt (log s) (with_mux (mgmt (log s)) m)) (reader s) (event s)).
Proof.
  intros [Hi Ho He Hf Ht Hc Hr] [Qi Qd Qr _]. split; simpl; try done; [auto|..]; rewrite Qd; [|done].
  intros Hne. destruct (Ho Hne) as (H1 & H2 & H3). auto.
Qed.
Lemma life_crash s : life_ok s → life_ok (crash s).
Proof. intros H. eapply life_frame; [..|exact H]; try done. apply (lf_reader _ H). Qed.

Lemma propose_frame w e w' : Propose w e = Done w' →
  name w' = name w ∧ linkedList w' = linkedList w ∧ mgmt w' = mgmt w ∧
  Write (proposalBuffer w) (with_name e (name w)) = Done (proposalBuffer w').
Proof. unfold Propose. destruct (Write _ _) as [rb| | |]; try done. cbn [mbind go_bind]. by intros [= <-]. Qed.

Lemma lstep_life s a s' : life_ok s → lstep iter s a = Some s' → life_ok s'.
Proof using Hiter.
  intros Hok Hs. unfold lstep in Hs. destruct (crashed s) eqn:Hcr; [done|].
  destruct a; lstep_cases Hs; try by apply life_crash.
  all: try (eapply life_frame; [..|exact Hok]; done).
  - apply propose_frame in Heqg as (_ & _ & Hm & _). eapply life_frame; [..|exact Hok]; simpl; rewrite ?Hm; try done.
    apply (lf_reader _ Hok).
  - unfold wal_Watch, monitor_Watch in Heqg.
    destruct (Watch (watcherMux (mgmt (log s))) None) as [[m id]| | |] eqn:Hw; try done. injection Heqg as <- _.
    exact (life_mux s m Hok (watch_quiet _ _ _ _ Hw)).
  - exact (life_mux s a Hok (cancel_quiet _ _ _ Heqg)).
  - exact (life_mux s w Hok (recv_quiet _ _ _ _ Heqg)).
  - destruct Hok as [Hi Ho He Hf Ht Hc Hr]. unfold wal_Run, monitor_Run in Heqp. rewrite Hf in Heqp.
    destruct (mClosed (mgmt (log s))) eqn:Hcl; simpl in Heqp; injection Heqp as <- _.
    all: split; simpl; rewrite ?Hcl; try done; rewrite Ht; destruct (closing s); done.
  - destruct Hok as [Hi Ho He Hf Ht Hc Hr]. split; simpl; try done. by rewrite Ht, Heqb.
  - destruct Hok as [Hi Ho He Hf Ht Hc Hr]. split; simpl; try done. by rewrite Ht, Heqb.
  - destruct Hok as [Hi Ho He Hf Ht Hc Hr]. split; simpl; try done.
    + intros ?%He. naive_solver.
    + by apply negb_false_iff.
  - apply andb_true_iff in Heqb as [Hcl _]. destruct Hok as [Hi Ho He Hf Ht Hc Hr]. split; simpl; try done.
    by rewrite Ht, Hcl.
  - eapply life_frame; [..|exact Hok]; simpl; try done. by rewrite Heqe0.
  - unfold monitor_dispatch in Heqg. destruct (Append _ _) as [ll| | |]; try done. cbn [mbind go_bind] in Heqg.
    destruct (DispatchFuncWithTimeout _ _ _ _ _) as [m| | |] eqn:Hd; try done. injection Heqg as <-.
    destruct Hok as [Hi Ho He Hf Ht Hc Hr]. destruct Ho as (H1 & H2 & H3); [congruence|].
    destruct (dispatch_ready iter pick_done reads _ [EntryData e] Hiter H1) as (m' & Hm & Hr' & _).
    destruct (dispatch_inv _ _ _ _ _ _ Hi Hd) as [Hi' Hd']. split; simpl; try done.
    intros _. rewrite Hd'. split_and!; try done. congruence.
  - destruct Hok as [Hi Ho He Hf Ht Hc Hr]. destruct Ho as (H1 & H2 & H3); [congruence|].
    unfold monitor_terminate in Heqg. destruct (Close_run iter _ Hiter Hi H2) as (m & Hm & Hi' & Hd & _).
    rewrite Hm in Heqg. cbn [mbind go_bind] in Heqg. rewrite H3 in Heqg. injection Heqg as <-. by split.
Qed.

(** ** The entries *)

(** One token for each waiting entry, the one the reader holds included, and
    nothing lost: what callers that are polite keep. *)
Definition held_token (r : reader_at (T := T)) : Z := match r with WToken => 1 | _ => 0 end.
Record tidy s (q : list (WALEntry T)) : Prop := {
  td_alive : crashed s = false;
  td_nonneg : 0 <= safeNext (proposalBuffer (log s));
  td_tokens : safeNext (proposalBuffer (log s)) + held_token (reader s) = Z.of_nat (length q);
  td_all : proposed s = taken s ++ q
}.

Lemma data_frame c s s' q :
  proposalBuffer (log s') = proposalBuffer (log s) → linkedList (log s') = linkedList (log s) →
  (∀ L, logged (watcherMux (mgmt (log s))) L → logged (watcherMux (mgmt (log s'))) L) →
  reader s' = reader s → event s' = event s → proposed s' = proposed s → taken s' = taken s → accepted s' = accepted s →
  data_ok c s q → data_ok c s' q ∧ (crashed s' = crashed s → tidy s q → tidy s' q).
Proof.
  intros Hb Hl Hm Hr He Hp Ht Ha [Hq Hs Hli Hc Hta Hpr Hmu]. split.
  - split; rewrite ?Hb, ?Hl, ?Hr, ?He, ?Hp, ?Ht, ?Ha; auto.
  - intros Hcr [H1 H2 H3 H4]. split; rewrite ?Hb, ?Hr, ?Hp, ?Ht; congruence.
Qed.

Lemma enqueue_sublist (q : list (WALEntry T)) e : enqueue 32 q e `sublist_of` q ++ [e].
Proof. unfold enqueue. apply sublist_app; [|done]. case_decide; [|done]. destruct q; [done|]. by apply sublist_cons. Qed.
Lemma kept_bound {A} c (xs : list A) : 0 < c → Z.of_nat (length (kept c xs)) <= c.
Proof. intros. unfold kept. rewrite decide_False by lia. rewrite length_drop. lia. Qed.

Lemma data_crash c s q (P : Prop) :
  data_ok c s q → (P → tidy s q → False) → ∃ q', data_ok c (crash s) q' ∧ (P → tidy s q → tidy (crash s) q').
Proof. intros [] HP. exists q. split; [by split|]. intros H1 H2. by destruct (HP H1 H2). Qed.

Lemma append_run c s q e p r :
  0 < c < 2 ^ 64 - 1 → data_ok c s q → mux_ready (watcherMux (mgmt (log s))) →
  ∃ ll m ids, Append (linkedList (log s)) e = Done ll ∧ monitor_dispatch iter p r (mgmt (log s)) [EntryData e] = Done m ∧
    LinkedList.rep ll ids (kept c (accepted s ++ [e])) ∧ lcapacity ll = c ∧
    logged (watcherMux m) (batches (accepted s ++ [e])).
Proof using Hiter.
  intros Hc [Hq Hs [ids Hl] Hca Hta Hpr Hmu] Hm. pose proof (kept_bound c (accepted s) ltac:(lia)).
  destruct (Append_refines _ ids _ e Hl ltac:(lia)) as (ll & -> & ids' & Hl' & Hc').
  destruct (dispatch_ready iter p r _ [EntryData e] Hiter Hm) as (mux & Hd & _ & _).
  exists ll, (with_mux (mgmt (log s)) mux), ids'. unfold monitor_dispatch. rewrite Hd. split_and!; try done.
  - rewrite <-keep_kept by lia. by rewrite Hca in Hl'.
  - congruence.
  - unfold batches. rewrite fmap_app. by eapply logged_dispatch.
Qed.

Lemma lstep_data c s a s' q :
  0 < c < 2 ^ 64 - 1 → life_ok s → data_ok c s q → lstep iter s a = Some s' →
  ∃ q', data_ok c s' q' ∧ (polite s a = true → tidy s q → tidy s' q').
Proof using Hiter.
  intros Hcap Hlf Hok Hs. unfold lstep in Hs. destruct (crashed s) eqn:Hcr; [done|].
  destruct a; lstep_cases Hs; try (apply data_crash; [exact Hok|intros Hpol Htd]).
  all: try (exists q; eapply data_frame in Hok as [H1 H2]; [split; [exact H1|intros _; apply H2; done]|..]; done).
  - (* LPropose *)
    apply propose_frame in Heqg as (_ & Hl & Hm & Hw). destruct Hok as [Hq Hs Hli Hc Hta Hpr Hmu].
    destruct (Write_holds _ _ (with_name e (name (log s))) Hq) as (rb & Hw' & Hq' & Hs' & Ht').
    rewrite Hs in Hq', Ht'. rewrite Hw in Hw'. injection Hw' as <-.
    exists (enqueue 32 q (with_name e (name (log s)))). split.
    + split; simpl; rewrite ?Hl, ?Hm; try done; [congruence|]. etrans; [apply sublist_app; [done|apply enqueue_sublist]|].
      rewrite app_assoc. by apply sublist_app.
    + intros Hpol%bool_decide_eq_true [_ H0 H1 H2]. rewrite H2, length_app in Hpol.
      split; simpl; try done; [rewrite Ht'; case_decide; lia| |].
      * unfold enqueue. rewrite decide_False by lia. rewrite length_app, Ht'. simpl.
        destruct (reader s); simpl in *; case_decide; lia.
      * unfold enqueue. rewrite decide_False by lia. by rewrite H2, app_assoc.
  - (* Propose does not panic *)
    destruct (Write_holds _ _ (with_name e (name (log s))) (da_queue _ _ _ Hok)) as (rb & Hw & _).
    unfold Propose in Heqg. by rewrite Hw in Heqg.
  - unfold wal_Watch, monitor_Watch in Heqg.
    destruct (Watch (watcherMux (mgmt (log s))) None) as [[m id]| | |] eqn:Hw; try done. injection Heqg as <- _.
    exists q. eapply data_frame in Hok as [H1 H2]; [split; [exact H1|intros _; apply H2; done]|..]; try done.
    intros L. apply (watch_quiet _ _ _ _ Hw).
  - destruct (watch_run (watcherMux (mgmt (log s))) None (lf_inv _ Hlf)) as (m & id & Hw).
    unfold wal_Watch, monitor_Watch in Heqg. by rewrite Hw in Heqg.
  - exists q. eapply data_frame in Hok as [H1 H2]; [split; [exact H1|intros _; apply H2; done]|..]; try done.
    intros L. apply (cancel_quiet _ _ _ Heqg).
  - simpl in Hpol. destruct (heap (watcherMux (mgmt (log s))) !! id) as [w|] eqn:Hw; [|done].
    apply negb_true_iff in Hpol. destruct (cancel_once _ _ _ (lf_inv _ Hlf) Hw Hpol) as [m Hm]. congruence.
  - exists q. eapply data_frame in Hok as [H1 H2]; [split; [exact H1|intros _; apply H2; done]|..]; try done.
    intros L. apply (recv_quiet _ _ _ _ Heqg).
  - exists q. unfold wal_Run, monitor_Run in Heqp.
    eapply data_frame in Hok as [H1 H2]; [split; [exact H1|intros _; apply H2; done]|..]; try done;
      repeat case_match; by simplify_eq/=.
  - rewrite (lf_term _ Hlf), Heqb, Heqb1 in Heqb2. done.
  - (* LToken *)
    unfold next_token in Heqg. case_decide as Htok; [|done]. injection Heqg as <-. exists q.
    destruct Hok as [Hq Hs Hli Hc Hta Hpr Hmu]. rewrite Heqr in Hta. split.
    + split; simpl; try done. destruct Hta as (dr & -> & Hdr). exists dr. split; [done|by intros _; apply Hdr].
    + intros _ [H1 H2 H3 H4]. rewrite Heqr in H3. simpl in H3. split; simpl; try done; lia.
  - (* LRead *)
    destruct Hok as [Hq Hs Hli Hc Hta Hpr Hmu]. pose proof (next_read_holds _ _ Hq) as Hn. rewrite Heqr in Hta.
    destruct q as [|x q]; [congruence|]. destruct Hn as ([rb v] & Hn & -> & Hq' & Hs' & Ht').
    rewrite Hn in Heqg. injection Heqg as <- <-. exists q. split.
    + split; simpl; try done; [congruence| |].
      * destruct Hta as (dr & -> & Hdr). rewrite (Hdr ltac:(done)) in *. exists []. split; [|done].
        simpl. by rewrite !app_nil_r, <-app_assoc.
      * by rewrite <-app_assoc.
    + intros _ [H1 H2 H3 H4]. rewrite Heqr in H3. simpl in H3. split; simpl; rewrite ?Ht'; try done; [lia|].
      by rewrite <-app_assoc.
  - pose proof (next_read_holds _ _ (da_queue _ _ _ Hok)) as Hn. destruct Htd as [H1 H2 H3 H4]. rewrite Heqr in H3.
    destruct q as [|x q]; [simpl in H3; lia|]. destruct Hn as (? & Hn & _). congruence.
  - (* LHand *)
    exists q. destruct Hok as [Hq Hs Hli Hc Hta Hpr Hmu]. rewrite Heqr, Heqe0 in Hta. split.
    + split; simpl; try done. destruct Hta as (dr & -> & Hdr). rewrite (Hdr ltac:(done)). exists []. by split.
    + intros _ [H1 H2 H3 H4]. rewrite Heqr in H3. by split.
  - (* LExit *)
    exists q. destruct Hok as [Hq Hs Hli Hc Hta Hpr Hmu]. rewrite Heqr in Hta. split.
    + split; simpl; try done. destruct Hta as (dr & -> & Hdr). exists (e :: dr). by split.
    + intros _ [H1 H2 H3 H4]. rewrite Heqr in H3. by split.
  - (* LAppend *)
    destruct (lf_open _ Hlf) as (Hr & _); [congruence|].
    destruct (append_run c s q e pick_done reads Hcap Hok Hr) as (ll & m & ids & Ha & Hd & Hl' & Hc' & Hlog).
    rewrite Ha in Heqg. cbn [mbind go_bind] in Heqg. rewrite Hd in Heqg. injection Heqg as <-.
    exists q. destruct Hok as [Hq Hs Hli Hc Hta Hpr Hmu]. rewrite Heqe in Hta. split.
    + split; simpl; try done; [by exists ids|]. destruct Hta as (dr & -> & Hdr). exists dr. by rewrite <-!app_assoc.
    + intros _ [H1 H2 H3 H4]. by split.
  - destruct (lf_open _ Hlf) as (Hr & _); [congruence|].
    destruct (append_run c s q e pick_done reads Hcap Hok Hr) as (ll & m & ids & Ha & Hd & _).
    rewrite Ha in Heqg. cbn [mbind go_bind] in Heqg. by rewrite Hd in Heqg.
  - (* LStop *)
    unfold monitor_terminate in Heqg. destruct (Close iter _) as [m| | |] eqn:Hcl; try done. cbn [mbind go_bind] in Heqg.
    destruct (mDone _); [done|]. injection Heqg as <-. exists q.
    destruct Hok as [Hq Hs Hli Hc Hta Hpr Hmu]. rewrite Heqe in Hta. split.
    + split; simpl; try done. by eapply logged_close.
    + intros _ [H1 H2 H3 H4]. by split.
  - destruct (lf_open _ Hlf) as (_ & H2 & H3); [congruence|].
    destruct (Close_run iter _ Hiter (lf_inv _ Hlf) H2) as (m & Hm & _).
    unfold monitor_terminate in Heqg. rewrite Hm in Heqg. cbn [mbind go_bind] in Heqg. by rewrite H3 in Heqg.
Qed.

(** ** Starting, resting, stopping *)

(** A log built on a multiplexer nobody was sent anything through. *)
Definition log_start (n : string) (c : Z) w : Prop :=
  ∃ mux, mux_ready mux ∧ doneClosed mux = false ∧ logged mux [] ∧ Wal.New n c mux = Done w.

Lemma start_log_ok n c w : 0 < c < 2 ^ 64 - 1 → log_start n c w →
  life_ok (start_log w) ∧ data_ok c (start_log w) [] ∧ tidy (start_log w) [].
Proof.
  intros Hc (mux & Hr & Hd & Hl & Hn).
  destruct (wal_new n c mux ltac:(lia) Hr) as (w' & Hn' & [Hri Hs [ids Hli] Hca Hm] & _).
  rewrite Hn in Hn'. injection Hn' as <-. unfold Wal.New in Hn. destruct (NewRingBuffer _) as [rb| | |]; try done.
  cbn [mbind go_bind] in Hn. injection Hn as <-. simpl in *. split_and!.
  - split; try done. by destruct Hr.
  - split; simpl; try done; [|by exists ids|by exists []].
    unfold holds. rewrite <-(rep_tokens _ _ Hri). by destruct rb.
  - split; simpl; try done; rewrite (rep_tokens _ _ Hri); done.
Qed.

Definition log_inv (c : Z) s : Prop := life_ok s ∧ ∃ q, data_ok c s q.
Definition tidy_inv (c : Z) s : Prop := life_ok s ∧ ∃ q, data_ok c s q ∧ tidy s q.
Lemma lstep_inv c s a s' : 0 < c < 2 ^ 64 - 1 → log_inv c s → lstep iter s a = Some s' → log_inv c s'.
Proof using Hiter.
  intros Hc (Hl & q & Hd) Hs. split; [by eapply lstep_life|].
  destruct (lstep_data c s a s' q Hc Hl Hd Hs) as (q' & Hd' & _). eauto.
Qed.
Lemma polite_inv c s a s' : 0 < c < 2 ^ 64 - 1 → tidy_inv c s → polite_step iter s a = Some s' → tidy_inv c s'.
Proof using Hiter.
  intros Hc (Hl & q & Hd & Ht) Hs. unfold polite_step in Hs. destruct (polite s a) eqn:Hp; [|done].
  split; [by eapply lstep_life|]. destruct (lstep_data c s a s' q Hc Hl Hd Hs) as (q' & Hd' & Ht'). eauto.
Qed.

(** The steps of the two goroutines. *)
Definition log_loop_step s (a : lact T) : option (lstate T) :=
  match a with LToken | LRead | LHand | LExit | LAppend _ _ | LStop => lstep iter s a | _ => None end.
(** The event loop has closed everything; the reader is gone, or waits in
    [Next] for a proposal. *)
Definition log_down s : Prop :=
  event s = EEnded ∧ mDone (mgmt (log s)) = true ∧ doneClosed (watcherMux (mgmt (log s))) = true ∧
  (reader s = WGone ∨ reader s = WNext ∧ next_token (proposalBuffer (log s)) = Blocked).

Definition reader_weight (r : reader_at (T := T)) : nat := match r with WNext => 1 | WOffer _ => 3 | _ => 0 end.
Definition event_weight (ev : event_at (T := T)) : nat := match ev with ESelect => 1 | EHave _ => 2 | EEnded => 0 end.
Definition log_measure s : nat :=
  4 * Z.to_nat (safeNext (proposalBuffer (log s)) + held_token (reader s)) + reader_weight (reader s) + event_weight (event s).

Lemma log_progress c s : 0 < c < 2 ^ 64 - 1 → tidy_inv c s → mTerminate (mgmt (log s)) = true →
  log_down s ∨ ∃ a s', log_loop_step s a = Some s'.
Proof using Hiter.
  intros Hc (Hl & q & Hd & [Hcr Hnn Htok _]) Ht. destruct (event s) as [|e|] eqn:He.
  - right. exists LStop. unfold log_loop_step, lstep. rewrite Hcr, He, Ht. unfold monitor_terminate.
    destruct (lf_open _ Hl) as (_ & H2 & H3); [congruence|].
    destruct (Close_run iter _ Hiter (lf_inv _ Hl) H2) as (m & -> & _). cbn [mbind go_bind]. rewrite H3. by eexists.
  - right. exists (LAppend true true). unfold log_loop_step, lstep. rewrite Hcr, He.
    destruct (lf_open _ Hl) as (Hr & _); [congruence|].
    destruct (append_run c s q e true true Hc Hd Hr) as (ll & m & ids & -> & Hdm & _). cbn [mbind go_bind]. rewrite Hdm. by eexists.
  - destruct (lf_ended _ Hl He) as (H1 & H2 & _). destruct (reader s) as [| |e|] eqn:Hr.
    + destruct (next_token (proposalBuffer (log s))) as [rb| | |] eqn:Hn.
      * right. exists LToken. unfold log_loop_step, lstep. rewrite Hcr, Hr, Hn. by eexists.
      * unfold next_token in Hn. by case_decide.
      * left. split_and!; auto.
      * unfold next_token in Hn. by case_decide.
    + right. exists LRead. unfold log_loop_step, lstep. rewrite Hcr, Hr. pose proof (next_read_holds _ _ (da_queue _ _ _ Hd)) as Hn.
      destruct q as [|x q]; [simpl in Htok; lia|]. destruct Hn as ([rb v] & -> & _). by eexists.
    + right. exists LExit. unfold log_loop_step, lstep. rewrite Hcr, Hr, Ht. by eexists.
    + left. split_and!; auto.
Qed.
Lemma log_loop_measure c s a s' :
  0 < c < 2 ^ 64 - 1 → tidy_inv c s → log_loop_step s a = Some s' →
  (log_measure s' < log_measure s)%nat ∧ mTerminate (mgmt (log s')) = mTerminate (mgmt (log s)).
Proof using Hiter.
  intros Hc Hti Hs. assert (Hal : crashed s' = false).
  { destruct (polite_inv c s a s' Hc Hti) as (_ & q' & _ & []); [|done]. by destruct a. }
  destruct Hti as (Hl & q & Hd & [Hcr Hnn Htok _]). destruct a; try done; cbn [log_loop_step] in Hs; unfold lstep in Hs;
    rewrite Hcr in Hs; lstep_cases Hs; try done; unfold log_measure; simpl.
  - unfold next_token in Heqg. case_decide; [|done]. injection Heqg as <-. rewrite Heqr. simpl. split; [lia|done].
  - pose proof (next_read_holds _ _ (da_queue _ _ _ Hd)) as Hn. destruct q as [|x q]; [congruence|].
    destruct Hn as ([rb v] & Hn & _ & _ & _ & Ht). rewrite Hn in Heqg. injection Heqg as <- _. rewrite Heqr, Ht. simpl. split; [lia|done].
  - rewrite Heqr, Heqe0. simpl. split; [lia|done].
  - rewrite Heqr, Heqb. simpl. split; [lia|done].
  - unfold monitor_dispatch in Heqg. destruct (Append _ _) as [ll| | |]; try done. cbn [mbind go_bind] in Heqg.
    destruct (DispatchFuncWithTimeout _ _ _ _ _) as [m| | |]; try done. injection Heqg as <-. rewrite Heqe. simpl. split; [lia|done].
  - unfold monitor_terminate in Heqg. destruct (Close iter _) as [m| | |]; try done. cbn [mbind go_bind] in Heqg.
    destruct (mDone _); [done|]. injection Heqg as <-. rewrite Heqe. simpl. split; [lia|congruence].
Qed.

(** ** A subscription somebody else reads *)

(** The steps that leave subscription [id] to its owner: no cancel and no read
    of it, and its identifier not given again (that takes 2^64 subscriptions).
    A reader that catches up during a dispatch timeout is scheduled before the
    dispatch. *)
Definition sub_allowed (id : Z) s (a : lact T) : bool :=
  match a with
  | LWatch => bool_decide (watcherIdCount (watcherMux (mgmt (log s))) ≠ id)
  | LCancel j | LReceive j => bool_decide (j ≠ id)
  | LAppend _ reads => negb reads
  | _ => true
  end.
Lemma lstep_got id s a s' :
  sub_allowed id s a = true → lstep iter s a = Some s' → got_kept (watcherMux (mgmt (log s))) (watcherMux (mgmt (log s'))) id.
Proof using Hiter.
  intros Ha Hs. unfold lstep in Hs. destruct (crashed s) eqn:Hcr; [done|].
  destruct a; simpl in Ha; lstep_cases Hs; simpl; try apply got_kept_refl.
  - apply propose_frame in Heqg as (_ & _ & -> & _). apply got_kept_refl.
  - unfold wal_Watch, monitor_Watch in Heqg. apply bool_decide_eq_true in Ha.
    destruct (Watch (watcherMux (mgmt (log s))) None) as [[m j]| | |] eqn:Hw; try done. injection Heqg as <- _. by eapply watch_got.
  - by eapply cancel_got.
  - apply bool_decide_eq_true in Ha. by eapply recv_got.
  - unfold wal_Run, monitor_Run in Heqp. repeat case_match; simplify_eq/=; apply got_kept_refl.
  - apply negb_true_iff in Ha as ->. unfold monitor_dispatch in Heqg. destruct (Append _ _) as [ll| | |]; try done.
    cbn [mbind go_bind] in Heqg. destruct (DispatchFuncWithTimeout _ _ _ _ _) as [m| | |] eqn:Hd; try done. injection Heqg as <-.
    by eapply dispatch_got.
  - unfold monitor_terminate in Heqg. destruct (Close iter _) as [m| | |] eqn:Hcl; try done. cbn [mbind go_bind] in Heqg.
    destruct (mDone _); [done|]. injection Heqg as <-. by eapply close_got.
Qed.

Lemma lstep_registered id s a s' :
  sub_allowed id s a = true → lstep iter s a = Some s' →
  id ∈ watchers (watcherMux (mgmt (log s'))) ↔ id ∈ watchers (watcherMux (mgmt (log s))).
Proof using.
  intros Ha Hs. unfold lstep in Hs. destruct (crashed s) eqn:Hcr; [done|].
  destruct a; simpl in Ha; lstep_cases Hs; simpl; try done.
  - by apply propose_frame in Heqg as (_ & _ & -> & _).
  - unfold wal_Watch, monitor_Watch in Heqg. apply bool_decide_eq_true in Ha.
    destruct (Watch (watcherMux (mgmt (log s))) None) as [[m j]| | |] eqn:Hw; try done. injection Heqg as <- _. by eapply watch_watchers.
  - apply bool_decide_eq_true in Ha. by eapply cancel_watchers.
  - by rewrite (recv_watchers _ _ _ _ Heqg).
  - unfold wal_Run, monitor_Run in Heqp. by repeat case_match; simplify_eq/=.
  - unfold monitor_dispatch in Heqg. destruct (Append _ _) as [ll| | |]; try done.
    cbn [mbind go_bind] in Heqg. destruct (DispatchFuncWithTimeout _ _ _ _ _) as [m| | |] eqn:Hd; try done. injection Heqg as <-.
    simpl. by rewrite (dispatch_watchers _ _ _ _ _ _ Hd).
  - unfold monitor_terminate in Heqg. destruct (Close iter _) as [m| | |] eqn:Hcl; try done. cbn [mbind go_bind] in Heqg.
    destruct (mDone _); [done|]. injection Heqg as <-. simpl. by rewrite (close_watchers _ _ _ Hcl).
Qed.

(** While the subscription has had room, it was sent every accepted entry. *)
Definition fed (cap id : Z) s : Prop :=
  Z.of_nat (length (accepted s)) <= cap → event s ≠ EEnded →
  listening cap (watcherMux (mgmt (log s))) id (batches (accepted s)).
Lemma lstep_fed cap id s a s' :
  sub_allowed id s a = true → life_ok s → fed cap id s → lstep iter s a = Some s' → fed cap id s'.
Proof using Hiter.
  intros Ha Hl Hf Hs. unfold lstep in Hs. destruct (crashed s) eqn:Hcr; [done|]. unfold fed in *.
  destruct a; simpl in Ha; lstep_cases Hs; simpl; try done; try (by intros Hle Hne; apply Hf; [|congruence]).
  - apply propose_frame in Heqg as (_ & _ & -> & _). done.
  - unfold wal_Watch, monitor_Watch in Heqg. apply bool_decide_eq_true in Ha.
    destruct (Watch (watcherMux (mgmt (log s))) None) as [[m j]| | |] eqn:Hw; try done. injection Heqg as <- _.
    intros Hle He. eapply watch_listening; eauto.
  - apply bool_decide_eq_true in Ha. intros Hle He. eapply cancel_listening; eauto.
  - intros Hle He. eapply recv_listening; eauto.
  - unfold wal_Run, monitor_Run in Heqp. repeat case_match; simplify_eq/=; done.
  - apply negb_true_iff in Ha as ->. unfold monitor_dispatch in Heqg. destruct (Append _ _) as [ll| | |]; try done.
    cbn [mbind go_bind] in Heqg. destruct (DispatchFuncWithTimeout _ _ _ _ _) as [m| | |] eqn:Hd; try done. injection Heqg as <-.
    intros Hle _. rewrite length_app in Hle. simpl in *. destruct (lf_open _ Hl) as (Hr & _); [congruence|].
    unfold batches. rewrite fmap_app. eapply dispatch_listening; [done|done| |exact Hd|apply Hf; [lia|congruence]].
    rewrite length_fmap. lia.
Qed.
End logs.

(** * Properties *)

(** C17: The log under every schedule of its two goroutines, of proposers, of
    subscribers and of [Run] and [Close], bursts included: what the event loop
    accepts is an ordered selection of what was proposed; the list holds the
    last [capacity] entries it accepted; every subscriber receives one batch
    for each of some of them, in the order of acceptance. *)
Theorem log_under_schedules {T} (iter : gset Z → list Z) n c (w : wal T) acts s :
  (∀ X, iter X ≡ₚ elements X) → 0 < c < 2 ^ 64 - 1 → log_start n c w →
  run_acts (lstep iter) (start_log w) acts = Some s →
  accepted s `sublist_of` proposed s ∧
  (∀ fuel, (Z.to_nat c < fuel)%nat → walk fuel (linkedList (log s)) (Head (linkedList (log s))) = Done (kept c (accepted s))) ∧
  ∀ id wt, heap (watcherMux (mgmt (log s))) !! id = Some wt → hist wt `sublist_of` batches (accepted s).
Proof.
  intros Hiter Hc Hw Hr. destruct (start_log_ok n c w Hc Hw) as (Hl0 & Hd0 & _).
  assert (Hinv : log_inv c s).
  { revert Hr. apply run_acts_inv; [|split; eauto]. intros s1 a s2. by apply lstep_inv. }
  destruct Hinv as (_ & q & [Hq Hs [ids Hl] Hca (dr & Ht & _) Hp Hm]). split_and!; [|intros fuel Hf|exact Hm].
  - etrans; [|exact Hp]. rewrite Ht, <-!app_assoc. by apply sublist_inserts_r.
  - pose proof (kept_bound c (accepted s) ltac:(lia)). eapply walk_chain; [apply (LinkedList.rep_chain _ _ _ Hl)|lia].
Qed.


(** C28: Shutdown of a log with polite callers. Once [Close] has closed
    [terminateCh], whatever the scheduler does, whatever still waits in the
    buffer and however slow the subscribers are, the event loop ends, the
    multiplexer and [doneCh] are closed, and the reader is gone or waits in
    [Next] for a proposal, where it does not see [terminateCh]. *)
Theorem log_shuts_down {T} (iter : gset Z → list Z) n c (w : wal T) acts s :
  (∀ X, iter X ≡ₚ elements X) → 0 < c < 2 ^ 64 - 1 → log_start n c w →
  run_acts (polite_step iter) (start_log w) acts = Some s → mTerminate (mgmt (log s)) = true →
  inevitable (log_loop_step iter) log_down s.
Proof.
  intros Hiter Hc Hw Hr Hterm. destruct (start_log_ok n c w Hc Hw) as (Hl0 & Hd0 & Ht0).
  assert (Hinv : tidy_inv c s).
  { revert Hr. apply run_acts_inv; [|split; eauto]. intros s1 a s2. by apply polite_inv. }
  apply (inevitable_measure _ (λ s, tidy_inv c s ∧ mTerminate (mgmt (log s)) = true) _ log_measure); [done| |].
  - intros s1 [H1 H2]. by eapply log_progress.
  - intros s1 a s2 [H1 H2] Hs. destruct (log_loop_measure iter Hiter c s1 a s2 Hc H1 Hs) as [Hlt Heq].
    split; [|done]. split; [|congruence]. apply (polite_inv iter Hiter c s1 a s2 Hc H1).
    by destruct a; try done; unfold polite_step; simpl.
Qed.

(** A burst of proposals kills the process. There is a schedule of 33
    proposals of any entry, of which the last comes between the two steps of
    [Next], after which the reader dereferences nil. *)
Theorem burst_crashes_log {T} (e : WALEntry T) :
  ∃ w acts (s : lstate T), log_start "log" 8 w ∧ run_acts (lstep elements) (start_log w) acts = Some s ∧
    length (proposed s) = 33%nat ∧ crashed s = true.
Proof.
  destruct (wal_new "log" 8 (NewWatcherMux (T := list T) 4)) as (w & Hw & _); [lia|apply new_mux_ready; lia|].
  exists w, (replicate 32 (LPropose e) ++ [LToken; LPropose e] ++
             concat (replicate 32 [LRead; LHand; LAppend true true; LToken]) ++ [LRead]).
  injection Hw as <-. eexists. split; [|split; [vm_compute; reflexivity|done]].
  exists (NewWatcherMux 4). split_and!; [apply new_mux_ready; lia|done|apply logged_new|done].
Qed.

(** Three proposals, two of which are accepted before [Close]. *)
Definition log_acts : list (lact Z) :=
  [LWatch; LPropose (sample_entry 1); LToken; LPropose (sample_entry 2); LRead; LHand; LPropose (sample_entry 3);
   LToken; LAppend true false; LRead; LReceive 0; LHand; LAppend true false; LClose; LToken].
Lemma sample_log_start : ∃ w : wal Z, log_start "log" 2 w ∧ ∃ s, run_acts (polite_step elements) (start_log w) log_acts = Some s ∧
  run_acts (lstep elements) (start_log w) log_acts = Some s ∧ mTerminate (mgmt (log s)) = true.
Proof.
  destruct (wal_new "log" 2 (NewWatcherMux (T := list Z) 4)) as (w & Hw & _); [lia|apply new_mux_ready; lia|].
  exists w. split.
  - exists (NewWatcherMux 4). split_and!; [apply new_mux_ready; lia|done|apply logged_new|done].
  - injection Hw as <-. eexists. split_and!; vm_compute; reflexivity.
Qed.

Lemma log_under_schedules_witness : ∃ (w : wal Z) s,
  run_acts (lstep elements) (start_log w) log_acts = Some s ∧ accepted s `sublist_of` proposed s ∧
  (∀ fuel, (2 < fuel)%nat → walk fuel (linkedList (log s)) (Head (linkedList (log s))) = Done (kept 2 (accepted s))) ∧
  ∀ id wt, heap (watcherMux (mgmt (log s))) !! id = Some wt → hist wt `sublist_of` batches (accepted s).
Proof.
  destruct sample_log_start as (w & Hw & s & _ & Hr & _). exists w, s. split; [exact Hr|].
  apply (log_under_schedules elements "log" 2 w log_acts s); [reflexivity|lia|exact Hw|exact Hr].
Defined.
Lemma log_shuts_down_witness : ∃ (w : wal Z) s,
  run_acts (polite_step elements) (start_log w) log_acts = Some s ∧ inevitable (log_loop_step elements) log_down s.
Proof.
  destruct sample_log_start as (w & Hw & s & Hr & _ & Ht). exists w, s. split; [exact Hr|].
  apply (log_shuts_down elements "log" 2 w log_acts s); [reflexivity|lia|exact Hw|exact Hr|exact Ht].
Defined.
