(* ===== verification/Dvds.v ===== *)
(** * Dvds: internal/controller/dvds/dvds.go

    The distributed volatile data structure: a state machine fed by a command
    log and a snapshot log.  It works on any machine of the [StateMachine] and
    [Codec] interfaces; [marshal] is [json.Marshal] at the type of the state. *)
From S2P Require Import Prelude Types GoNet Json Codec WatcherMux MuxStreams RingBuffer LinkedList Packet Monitor StateMachine StateCodec Wal.

Section dvds.
Context {M T U : Type} `{!StateMachine M T U}.

Record dvds := {
  stateMachine : M;
  cmdWAL : wal T;
  snapshotWAL : wal U;
  dmgmt : monitor U
}.

Definition New (stm : M) (cmd : wal T) (snap : wal U) (mux : WatcherMux U) : dvds :=
  {| stateMachine := stm; cmdWAL := cmd; snapshotWAL := snap; dmgmt := new_monitor mux |}.

Definition with_machine (ds : dvds) (m : M) (mg : monitor U) : dvds :=
  {| stateMachine := m; cmdWAL := cmdWAL ds; snapshotWAL := snapshotWAL ds; dmgmt := mg |}.

Definition put_entry (now : Z) (proposal : T) : WALEntry T :=
  {| Key := ""; EntryData := proposal; Verb := PutCommand; Timestamp := now; WALName := "";
     ProposalHash := zero_hash; PreviousHash := zero_hash; Hash := zero_hash |}.
Definition dvds_Propose (now : Z) (ds : dvds) (proposal : T) : go dvds :=
  w ← Propose (cmdWAL ds) (put_entry now proposal);
  Done {| stateMachine := stateMachine ds; cmdWAL := w; snapshotWAL := snapshotWAL ds; dmgmt := dmgmt ds |}.

Definition dvds_Watch (ds : dvds) : go (dvds * Z) :=
  '(m, id) ← monitor_Watch (dmgmt ds); Done (with_machine ds (stateMachine ds) m, id).

(** [Run] subscribes to both logs before it starts the loop. *)
Definition dvds_Run (ds : dvds) : go (dvds * option (Z * Z) * option error) :=
  if mRunning (dmgmt ds) then Done (ds, None, Some ErrAlreadyRunning)
  else if mClosed (dmgmt ds) then Done (ds, None, Some ErrCannotRunClosedRunnable)
  else
    '(cmd, cid) ← wal_Watch (cmdWAL ds);
    '(snap, sid) ← wal_Watch (snapshotWAL ds);
    let (m, _) := monitor_Run None (dmgmt ds) in
    Done ({| stateMachine := stateMachine ds; cmdWAL := cmd; snapshotWAL := snap; dmgmt := m |},
          Some (cid, sid), None).

(** A batch of the command log: every entry is executed as a put, its error
    dropped, then the state is dispatched. *)
Definition cmd_step (iter : gset Z → list Z) (pick_done reads : bool) (ds : dvds) (entries : list T) : go dvds :=
  m ← foldM (λ m entry, '(m, _) ← Execute m PutCommand entry; Done m) entries (stateMachine ds);
  mg ← monitor_dispatch iter pick_done reads (dmgmt ds) (StateOf m);
  Done (with_machine ds m mg).

(** A batch of the snapshot log: the last snapshot is marshalled and decoded
    into the machine, the error of [Decode] dropped; one that cannot be
    marshalled is skipped. *)
Definition snap_step `{!Codec M} (marshal : U → list Z + error) (iter : gset Z → list Z) (pick_done reads : bool) (ds : dvds)
    (snapshots : list U) : go dvds :=
  match last snapshots with
  | None => Done ds
  | Some lastSnap =>
      match marshal lastSnap with
      | inr _ => Done ds
      | inl buf =>
          let m := (Decode (stateMachine ds) buf).1 in
          mg ← monitor_dispatch iter pick_done reads (dmgmt ds) (StateOf m);
          Done (with_machine ds m mg)
      end
  end.

(** After [terminate:]: both subscriptions are cancelled. *)
Definition dvds_terminate (iter : gset Z → list Z) (cid sid : Z) (ds : dvds) : go dvds :=
  cmux ← cancel (watcherMux (mgmt (cmdWAL ds))) cid;
  smux ← cancel (watcherMux (mgmt (snapshotWAL ds))) sid;
  mg ← monitor_terminate iter (dmgmt ds);
  Done {| stateMachine := stateMachine ds;
          cmdWAL := {| name := name (cmdWAL ds); linkedList := linkedList (cmdWAL ds);
                       proposalBuffer := proposalBuffer (cmdWAL ds); mgmt := with_mux (mgmt (cmdWAL ds)) cmux |};
          snapshotWAL := {| name := name (snapshotWAL ds); linkedList := linkedList (snapshotWAL ds);
                            proposalBuffer := proposalBuffer (snapshotWAL ds);
                            mgmt := with_mux (mgmt (snapshotWAL ds)) smux |};
          dmgmt := mg |}.

(** [Close]; the loop terminates within the five seconds it is given. *)
Definition dvds_Close (iter : gset Z → list Z) (cid sid : Z) (ds : dvds) : go (dvds * option error) :=
  let mg := dmgmt ds in
  if negb (mRunning mg) then Done (ds, Some ErrRunnableMustBeRunningToBeClosed)
  else if mClosed mg then Done (ds, Some ErrAlreadyClosed)
  else if mTerminate mg then Panic CloseOfClosedChannel
  else
    ds ← dvds_terminate iter cid sid (with_machine ds (stateMachine ds)
           {| watcherMux := watcherMux mg; mRunning := mRunning mg; mClosed := mClosed mg; mDone := mDone mg;
              mTerminate := true |});
    Done (with_machine ds (stateMachine ds)
            {| watcherMux := watcherMux (dmgmt ds); mRunning := false; mClosed := true; mDone := mDone (dmgmt ds);
               mTerminate := true |}, None).
End dvds.
Arguments dvds : clear implicits.

(** * Lemmas *)

Section proofs.
Context {M T U : Type} `{!StateMachine M T U} (iter : gset Z → list Z) (Hiter : ∀ X, iter X ≡ₚ elements X).

Lemma replay_puts (m : M) (entries : list T) :
  foldM (λ m entry, '(m, _) ← Execute m PutCommand entry; Done m) entries m = replay m ((λ o, (PutCommand, o)) <$> entries).
Proof.
  unfold replay. revert m. induction entries as [|o es IH]; intros m; simpl; [done|].
  destruct (Execute m PutCommand o) as [[m' err]| | |]; simpl; [apply IH|done..].
Qed.

(** A batch is the replay of its puts, panics included. *)
Lemma cmd_step_run p r (ds : dvds M T U) entries m' :
  mux_ready (watcherMux (dmgmt ds)) → replay (stateMachine ds) ((λ o, (PutCommand, o)) <$> entries) = Done m' →
  returns (cmd_step iter p r ds entries) (λ ds', stateMachine ds' = m' ∧ mux_ready (watcherMux (dmgmt ds'))).
Proof using Hiter.
  intros Hm Hr. unfold cmd_step, monitor_dispatch. rewrite replay_puts, Hr. cbn [mbind go_bind].
  destruct (dispatch_ready iter p r _ (StateOf m') Hiter Hm) as (mux & -> & Hm' & _).
  cbn [mbind go_bind]. by apply returns_done.
Qed.

(** The command loop over a sequence of batches. *)
Lemma cmd_steps_run p r (ds : dvds M T U) (batches : list (list T)) m' :
  mux_ready (watcherMux (dmgmt ds)) → replay (stateMachine ds) ((λ o, (PutCommand, o)) <$> concat batches) = Done m' →
  returns (foldM (cmd_step iter p r) batches ds) (λ ds', stateMachine ds' = m' ∧ mux_ready (watcherMux (dmgmt ds'))).
Proof using Hiter.
  revert ds. induction batches as [|b bs IH]; intros ds Hm Hr; simpl; [apply returns_done; by injection Hr|].
  cbn [concat] in Hr. rewrite fmap_app, replay_app in Hr.
  destruct (replay (stateMachine ds) ((λ o, (PutCommand, o)) <$> b)) as [m1| | |] eqn:E1; try done. cbn [mbind go_bind] in Hr.
  eapply returns_bind; [by apply cmd_step_run|]. intros ds' [Hst Hm']. apply IH; [done|]. by rewrite Hst.
Qed.
End proofs.

(** * Properties *)

(** Over a map machine the command loop is a last-writer-wins store: for
    every sequence of batches it never panics, and afterwards a key reads the
    value of the last entry that carries it; keys no entry carries read as
    before. *)
Theorem dvds_map_last_writer {E K V} `{Countable K} iter (p r : bool) (ds : dvds (hashmap E K V) E (option (gmap K V)))
    (batches : list (list E)) (l1 l2 : list E) (o : E) (k : K) (v : V) :
  (∀ X, iter X ≡ₚ elements X) → mux_ready (watcherMux (dmgmt ds)) → is_Some (mstate (stateMachine ds)) →
  concat batches = l1 ++ o :: l2 → transformFunc (stateMachine ds) o = inl (k, v) →
  Forall (λ o', ∀ v', transformFunc (stateMachine ds) o' ≠ inl (k, v')) l2 →
  returns (foldM (cmd_step iter p r) batches ds) (λ ds', entries (stateMachine ds') !! k = Some v).
Proof.
  intros Hiter Hm Hs Hc Ho Hl2.
  destruct (replay_last (transformFunc (stateMachine ds)) (stateMachine ds) ((λ o, (PutCommand, o)) <$> l1) PutCommand o
              ((λ o, (PutCommand, o)) <$> l2) k (Some v)) as (m' & Hr & Hk); [done|..].
  - apply Forall_fmap. eapply Forall_impl; [exact Hl2|].
    intros o' Ho'. unfold touches; simpl. destruct (transformFunc (stateMachine ds) o') as [[k' v']|] eqn:E1; [|done].
    rewrite bool_decide_false; [done|]. intros ->. by eapply Ho'.
  - intros m' [[s Hs'] Hf]. simpl. unfold map_Execute. rewrite Hf, Ho, Hs'. simpl. apply returns_done.
    split; [split; [by eexists|done]|]. apply lookup_insert_eq.
  - eapply returns_mono; [apply (cmd_steps_run iter Hiter p r ds batches m'); [done|]|].
    + by rewrite Hc, fmap_app, fmap_cons.
    + by intros ds' [-> _].
Qed.

Definition sample_wal {T} : wal T :=
  {| name := "log"; linkedList := NewLinkedList 8;
     proposalBuffer := {| RingBuffer.buf := replicate 32 None; RingBuffer.size := 32; readIdx := 0; writeIdx := 0; safeNext := 0 |};
     mgmt := new_monitor (NewWatcherMux 4) |}.
Definition sample_dvds : dvds (hashmap (Z * Z) Z Z) (Z * Z) (option (gmap Z Z)) :=
  {| stateMachine := pair_map; cmdWAL := sample_wal; snapshotWAL := sample_wal; dmgmt := new_monitor (NewWatcherMux 4) |}.
Lemma dvds_map_last_writer_witness :
  returns (foldM (cmd_step elements true true) [[(1, 7)]; [(1, 8); (2, 9)]] sample_dvds)
    (λ ds', entries (stateMachine ds') !! 1 = Some 8).
Proof.
  apply (dvds_map_last_writer elements true true sample_dvds _ [(1, 7)] [(2, 9)] (1, 8) 1 8);
    [done|apply new_mux_ready; lia|by eexists|done|done|].
  by repeat constructor.
Defined.

(** The command loop executes every entry as a put, whatever verb it was
    proposed with. A machine that does not know puts is therefore frozen: no
    sequence of batches changes a counter, and an array that starts empty
    stays empty. *)
Theorem dvds_freezes_other_machines {X} iter (p r : bool) (ds : dvds counter Z Z)
    (da : dvds (array X) X (option (list X))) (zs : list (list Z)) (xs : list (list X)) :
  (∀ Y, iter Y ≡ₚ elements Y) → mux_ready (watcherMux (dmgmt ds)) → mux_ready (watcherMux (dmgmt da)) →
  elems (stateMachine da) = [] →
  returns (foldM (cmd_step iter p r) zs ds) (λ ds', stateMachine ds' = stateMachine ds) ∧
  returns (foldM (cmd_step iter p r) xs da) (λ da', elems (stateMachine da') = []).
Proof.
  intros Hiter Hm Hma Hempty. split.
  - eapply returns_mono; [apply (cmd_steps_run iter Hiter p r ds zs (stateMachine ds)); [done|]|by intros ds' [-> _]].
    induction (concat zs) as [|z l IH]; [done|exact IH].
  - assert (Hr : ∃ a, replay (stateMachine da) ((λ o, (PutCommand, o)) <$> concat xs) = Done a ∧ elems a = []).
    { revert Hempty. generalize (stateMachine da). induction (concat xs) as [|x l IH]; intros a Ha; [by exists a|].
      assert (He : elems (array_Execute a PutCommand x).1 = []).
      { change (array_Execute a PutCommand x) with (executePut a x). unfold executePut. destruct (afilter a); [|done].
        unfold elems in *; simpl. by destruct (astate a) as [[]|]. }
      specialize (IH _ He). unfold replay in *. cbn [fmap list_fmap foldM Execute array_machine mbind go_bind fst snd].
      by destruct (array_Execute a PutCommand x). }
    destruct Hr as (a & Hr & Ha). eapply returns_mono; [by apply (cmd_steps_run iter Hiter p r da xs a)|].
    by intros da' [-> _].
Qed.

Lemma dvds_freezes_other_machines_witness :
  let ds : dvds counter Z Z :=
    {| stateMachine := {| allowOverflow := false; maxVal := None; minVal := None; cstate := 3 |};
       cmdWAL := sample_wal; snapshotWAL := sample_wal; dmgmt := new_monitor (NewWatcherMux 4) |} in
  let da : dvds (array Z) Z (option (list Z)) :=
    {| stateMachine := {| astate := Some []; afilter := None |};
       cmdWAL := sample_wal; snapshotWAL := sample_wal; dmgmt := new_monitor (NewWatcherMux 4) |} in
  returns (foldM (cmd_step elements true true) [[1; 2]] ds) (λ ds', stateMachine ds' = stateMachine ds) ∧
  returns (foldM (cmd_step elements true true) [[1; 2]] da) (λ da', elems (stateMachine da') = []).
Proof.
  intros ds da. apply (dvds_freezes_other_machines elements true true ds da);
    [done|apply new_mux_ready; lia|apply new_mux_ready; lia|done].
Defined.
