(* ===== verification/DvdsLoops.v ===== *)
(** * DvdsLoops: a replicated structure over its two running logs

    The event loop of dvds.go under every schedule: it reads the batches of
    the command log and of the snapshot log, whose own goroutines ([WalLoops])
    run beside it, applies them to the state machine and dispatches the
    states.  [marshal] is [json.Marshal] at the type of the state. *)
From S2P Require Import Prelude Types GoNet Json Codec WatcherMux MuxStreams RingBuffer LinkedList Packet Monitor.
From S2P Require Import StateMachine StateCodec Wal WalLoops Dvds.

Section dvds_loops.
Context {M T U : Type} `{!StateMachine M T U, !Codec M} (marshal : U → list Z + error) (iter : gset Z → list Z).
(** The subscriptions [Run] took. *)
Context (cid sid : Z).

(** The event loop: in its select, handling a batch of one of the logs, or
    past [terminate:]. *)
Inductive loop_at := DSelect | DCmd (es : list T) | DSnap (us : list U) | DEnded.
(** A batch it has handled. *)
Definition batch : Type := list T + list U.

Record dstate := {
  cmd : lstate T;
  snap : lstate U;
  machine : M;
  dmon : monitor U;
  dloop : loop_at;
  dclosing : bool;                  (* a call of Close awaits the termination *)
  dcrashed : bool;                  (* the event loop panicked *)
  applied : list batch;
  states : list U;                  (* dispatched *)
  danswers : list (option error)    (* what Run and Close returned *)
}.

(** After [Run] on two logs that are running. *)
Definition start_dvds (ds : dvds M T U) (c0 : lstate T) (s0 : lstate U) : dstate :=
  {| cmd := with_log c0 (cmdWAL ds) (reader c0) (event c0); snap := with_log s0 (snapshotWAL ds) (reader s0) (event s0);
     machine := stateMachine ds; dmon := dmgmt ds; dloop := DSelect; dclosing := false; dcrashed := false;
     applied := []; states := []; danswers := [] |}.

Definition view (s : dstate) : dvds M T U :=
  {| stateMachine := machine s; cmdWAL := log (cmd s); snapshotWAL := log (snap s); dmgmt := dmon s |}.
Definition with_logs (s : dstate) (c : lstate T) (n : lstate U) (l : loop_at) : dstate :=
  {| cmd := c; snap := n; machine := machine s; dmon := dmon s; dloop := l; dclosing := dclosing s;
     dcrashed := dcrashed s; applied := applied s; states := states s; danswers := danswers s |}.
Definition with_dmon (s : dstate) (m : monitor U) (cl : bool) (ans : list (option error)) : dstate :=
  {| cmd := cmd s; snap := snap s; machine := machine s; dmon := m; dloop := dloop s; dclosing := cl;
     dcrashed := dcrashed s; applied := applied s; states := states s; danswers := danswers s ++ ans |}.
Definition dcrash (s : dstate) : dstate :=
  {| cmd := cmd s; snap := snap s; machine := machine s; dmon := dmon s; dloop := dloop s; dclosing := dclosing s;
     dcrashed := true; applied := applied s; states := states s; danswers := danswers s |}.
(** A log with another multiplexer. *)
Definition log_mux {A} (l : lstate A) (m : WatcherMux (list A)) : lstate A :=
  with_log l (wal_mgmt (log l) (with_mux (mgmt (log l)) m)) (reader l) (event l).
Definition dlife (m : monitor U) (run clo term : bool) : monitor U :=
  {| watcherMux := watcherMux m; mRunning := run; mClosed := clo; mDone := mDone m; mTerminate := term |}.

(** Whether the batch made the loop dispatch the state. *)
Definition announces (b : batch) : bool :=
  match b with
  | inl _ => true
  | inr us => match last us with None => false | Some u => match marshal u with inl _ => true | inr _ => false end end
  end.
(** The loop after a batch, in the state [ds']. *)
Definition handled (s : dstate) (b : batch) (ds' : dvds M T U) : dstate :=
  {| cmd := cmd s; snap := snap s; machine := stateMachine ds'; dmon := dmgmt ds'; dloop := DSelect;
     dclosing := dclosing s; dcrashed := dcrashed s; applied := applied s ++ [b];
     states := states s ++ (if announces b then [StateOf (stateMachine ds')] else []); danswers := danswers s |}.
Definition or_dcrash {A} (s : dstate) (c : go A) (k : A → dstate) : option dstate :=
  match c with Done a => Some (k a) | Panic _ => Some (dcrash s) | _ => None end.

(** [terminate:]. *)
Definition dvds_exit (s : dstate) : option dstate :=
  or_dcrash s (dvds_terminate iter cid sid (view s)) (λ ds',
    {| cmd := with_log (cmd s) (cmdWAL ds') (reader (cmd s)) (event (cmd s));
       snap := with_log (snap s) (snapshotWAL ds') (reader (snap s)) (event (snap s));
       machine := machine s; dmon := dmgmt ds'; dloop := DEnded; dclosing := dclosing s; dcrashed := dcrashed s;
       applied := applied s; states := states s; danswers := danswers s |}).

Inductive dact :=
  | CmdAct (a : lact T)            (* the command log, its proposers and other subscribers *)
  | SnapAct (a : lact U)
  | DTakeCmd
  | DTakeSnap
  | DCmdClosed
  | DSnapClosed
  | DApply (pick_done reads : bool)
  | DTerminate
  | DPropose (now : Z) (v : T)
  | DWatch
  | DCancel (id : Z)
  | DReceive (id : Z)
  | DRun
  | DClose
  | DCloseReturn (timeout : bool).

Definition dstep (s : dstate) (a : dact) : option dstate :=
  if crashed (cmd s) || crashed (snap s) || dcrashed s then None else
  let cmux := watcherMux (mgmt (log (cmd s))) in
  let smux := watcherMux (mgmt (log (snap s))) in
  match a with
  | CmdAct a =>
      if sub_allowed cid (cmd s) a then c ← lstep iter (cmd s) a; Some (with_logs s c (snap s) (dloop s)) else None
  | SnapAct a =>
      if sub_allowed sid (snap s) a then n ← lstep iter (snap s) a; Some (with_logs s (cmd s) n (dloop s)) else None
  | DPropose now v => c ← lstep iter (cmd s) (LPropose (put_entry now v)); Some (with_logs s c (snap s) (dloop s))
  | DTakeCmd =>
      match dloop s, recv cmux cid with
      | DSelect, Done (m, Some es) => Some (with_logs s (log_mux (cmd s) m) (snap s) (DCmd es))
      | _, _ => None
      end
  | DTakeSnap =>
      match dloop s, recv smux sid with
      | DSelect, Done (m, Some us) => Some (with_logs s (cmd s) (log_mux (snap s) m) (DSnap us))
      | _, _ => None
      end
  | DCmdClosed => match dloop s, recv cmux cid with DSelect, Done (_, None) => dvds_exit s | _, _ => None end
  | DSnapClosed => match dloop s, recv smux sid with DSelect, Done (_, None) => dvds_exit s | _, _ => None end
  | DApply p r =>
      match dloop s with
      | DCmd es => or_dcrash s (cmd_step iter p r (view s) es) (handled s (inl es))
      | DSnap us => or_dcrash s (snap_step marshal iter p r (view s) us) (handled s (inr us))
      | _ => None
      end
  | DTerminate => match dloop s with DSelect => if mTerminate (dmon s) then dvds_exit s else None | _ => None end
  | DWatch => or_dcrash s (monitor_Watch (dmon s)) (λ '(m, _), with_dmon s m (dclosing s) [])
  | DCancel id => or_dcrash s (cancel (watcherMux (dmon s)) id) (λ m, with_dmon s (with_mux (dmon s) m) (dclosing s) [])
  | DReceive id =>
      match recv (watcherMux (dmon s)) id with
      | Done (m, Some _) => Some (with_dmon s (with_mux (dmon s) m) (dclosing s) [])
      | _ => None
      end
  | DRun =>
      if dclosing s then None
      else if mRunning (dmon s) then Some (with_dmon s (dmon s) false [Some ErrAlreadyRunning])
      else if mClosed (dmon s) then Some (with_dmon s (dmon s) false [Some ErrCannotRunClosedRunnable])
      else None    (* not started: see start_dvds *)
  | DClose =>
      let m := dmon s in
      if dclosing s then None
      else if negb (mRunning m) then Some (with_dmon s m false [Some ErrRunnableMustBeRunningToBeClosed])
      else if mClosed m then Some (with_dmon s m false [Some ErrAlreadyClosed])
      else if mTerminate m then Some (dcrash s)
      else Some (with_dmon s (dlife m (mRunning m) (mClosed m) true) true [])
  | DCloseReturn timeout =>
      let m := dmon s in
      if dclosing s && (mDone m || timeout) then Some (with_dmon s (dlife m false true (mTerminate m)) false [None]) else None
  end.

(** What the batches make of a machine, and the states they announce. *)
Definition apply_batch (x : M * list U) (b : batch) : go (M * list U) :=
  match b with
  | inl es =>
      m ← foldM (λ m entry, '(m, _) ← Execute m PutCommand entry; Done m) es x.1;
      Done (m, x.2 ++ [StateOf m])
  | inr us =>
      match last us with
      | None => Done x
      | Some u =>
          match marshal u with
          | inr _ => Done x
          | inl buf => let m := (Decode x.1 buf).1 in Done (m, x.2 ++ [StateOf m])
          end
      end
  end.
Definition commands (bs : list batch) : list (list T) := omap (λ b, match b with inl es => Some es | inr _ => None end) bs.
Definition snapshots (bs : list batch) : list (list U) := omap (λ b, match b with inr us => Some us | inl _ => None end) bs.
End dvds_loops.
Arguments dstate : clear implicits.
Arguments dact : clear implicits.

(** * Lemmas *)

Ltac dstep_cases H :=
  repeat match type of H with
  | (_ ≫= _) = Some _ => apply bind_Some in H as (? & ? & H)
  | context [match ?x with (_, _) => _ end] => destruct x eqn:?; cbn beta iota in H
  | match ?x with _ => _ end = Some _ => destruct x eqn:?; try discriminate H
  | or_dcrash _ ?c _ = Some _ => destruct c eqn:?; cbn [or_dcrash] in H; try discriminate H
  end; try discriminate H; try injection H as <-.

Lemma sublist_concat {A} (l1 l2 : list (list A)) : l1 `sublist_of` l2 → concat l1 `sublist_of` concat l2.
Proof.
  induction 1 as [|x l1 l2 _ IH|x l1 l2 _ IH]; simpl; [done|by apply sublist_app|by apply sublist_inserts_l].
Qed.
Lemma concat_batches {A} (es : list (WALEntry A)) : concat (batches es) = EntryData <$> es.
Proof. induction es as [|e es IH]; [done|]. simpl. f_equal. exact IH. Qed.

(** The two ways a log's multiplexer is touched by its subscriber are steps
    of the log. *)
Lemma log_mux_recv {A} (iter : gset Z → list Z) (l : lstate A) id m (x : list A) :
  crashed l = false → recv (watcherMux (mgmt (log l))) id = Done (m, Some x) → lstep iter l (LReceive id) = Some (log_mux l m).
Proof. intros Hc Hr. unfold lstep. by rewrite Hc, Hr. Qed.
Lemma log_mux_cancel {A} (iter : gset Z → list Z) (l : lstate A) id m :
  crashed l = false → cancel (watcherMux (mgmt (log l))) id = Done m → lstep iter l (LCancel id) = Some (log_mux l m).
Proof. intros Hc Hr. unfold lstep. by rewrite Hc, Hr. Qed.

Section dvds_proofs.
Context {M T U : Type} `{!StateMachine M T U, !Codec M} (marshal : U → list Z + error).
Context (iter : gset Z → list Z) (Hiter : ∀ X, iter X ≡ₚ elements X) (cid sid c sc : Z).
Context (Hcap : 0 < c < 2 ^ 64 - 1) (Hscap : 0 < sc < 2 ^ 64 - 1).
Implicit Types s : dstate M T U.

Definition cmd_in_hand (l : loop_at (T := T) (U := U)) : list (list T) := match l with DCmd es => [es] | _ => [] end.
Definition snap_in_hand (l : loop_at (T := T) (U := U)) : list (list U) := match l with DSnap us => [us] | _ => [] end.

(** The subscriber took [took] from channel [id] of a log. *)
Definition took {A} (l : lstate A) (id : Z) (xs : list (list A)) : Prop :=
  ∃ w, heap (watcherMux (mgmt (log l))) !! id = Some w ∧ got w = xs.
Record dinv (m0 : M) s : Prop := {
  di_cmd : log_inv c (cmd s);
  di_snap : log_inv sc (snap s);
  di_run : foldM (apply_batch marshal) (applied s) (m0, []) = Done (machine s, states s);
  di_commands : took (cmd s) cid (commands (applied s) ++ cmd_in_hand (dloop s));
  di_snapshots : took (snap s) sid (snapshots (applied s) ++ snap_in_hand (dloop s));
  di_mux : logged (watcherMux (dmon s)) (states s)
}.

Lemma took_kept {A} (l l' : lstate A) id xs :
  got_kept (watcherMux (mgmt (log l))) (watcherMux (mgmt (log l'))) id → took l id xs → took l' id xs.
Proof. intros Hk (w & Hw & Hg). destruct (Hk w Hw) as (w' & Hw' & Hg'). exists w'. split; [done|congruence]. Qed.
Lemma took_one {A} (l : lstate A) id m x xs :
  recv (watcherMux (mgmt (log l))) id = Done (m, Some x) → took l id xs → took (log_mux l m) id (xs ++ [x]).
Proof.
  intros (w & w' & Hw & -> & _ & Hg & _)%recv_some (w0 & Hw0 & <-). exists w'. simpl. rewrite lookup_insert_eq.
  split; [done|]. by simplify_eq.
Qed.
Lemma took_sublist {A} c' (l : lstate A) id xs :
  log_inv c' l → took l id xs → concat xs `sublist_of` (EntryData <$> proposed l).
Proof.
  intros (_ & q & [_ _ _ _ (dr & Ht & _) Hp Hm]) (w & Hw & <-).
  etrans; [apply sublist_concat|].
  - etrans; [|exact (Hm id w Hw)]. unfold hist. by apply sublist_inserts_r.
  - rewrite concat_batches. apply fmap_sublist. etrans; [|exact Hp]. rewrite Ht, <-!app_assoc. by apply sublist_inserts_r.
Qed.

Lemma apply_batch_snoc bs b m0 x : foldM (apply_batch marshal) bs (m0, []) = Done x →
  foldM (apply_batch marshal) (bs ++ [b]) (m0, []) = apply_batch marshal x b.
Proof. intros H. rewrite foldM_app, H. cbn [mbind go_bind foldM]. by destruct (apply_batch marshal x b). Qed.

(** The loop after [terminate:]: both logs lost a subscriber. *)
Lemma exit_frame s s' :
  crashed (cmd s) = false → crashed (snap s) = false → dvds_exit iter cid sid s = Some s' →
  s' = dcrash s ∨
  (lstep iter (cmd s) (LCancel cid) = Some (cmd s') ∧ lstep iter (snap s) (LCancel sid) = Some (snap s') ∧
   (∃ m m', cancel (watcherMux (mgmt (log (cmd s)))) cid = Done m ∧ cancel (watcherMux (mgmt (log (snap s)))) sid = Done m') ∧
   machine s' = machine s ∧ dloop s' = DEnded ∧ applied s' = applied s ∧ states s' = states s ∧
   Close iter (watcherMux (dmon s)) = Done (watcherMux (dmon s'))).
Proof.
  intros Hc1 Hc2. unfold dvds_exit, dvds_terminate. simpl.
  destruct (cancel _ cid) as [m1| | |] eqn:E1; cbn [mbind go_bind or_dcrash]; try done; [|by intros [= <-]; left].
  destruct (cancel _ sid) as [m2| | |] eqn:E2; cbn [mbind go_bind or_dcrash]; try done; [|by intros [= <-]; left].
  unfold monitor_terminate. destruct (Close iter _) as [m| | |] eqn:E3; cbn [mbind go_bind or_dcrash]; try done; [|by intros [= <-]; left].
  destruct (mDone (dmon s)); cbn [mbind go_bind or_dcrash]; [by intros [= <-]; left|]. intros [= <-]. right. simpl.
  split_and!; try done; [exact (log_mux_cancel iter _ _ _ Hc1 E1)|exact (log_mux_cancel iter _ _ _ Hc2 E2)|eauto].
Qed.

Lemma cmd_step_batch p r s es ds' :
  cmd_step iter p r (view s) es = Done ds' →
  apply_batch marshal (machine s, states s) (inl es) = Done (machine (handled marshal s (inl es) ds'), states (handled marshal s (inl es) ds')) ∧
  DispatchFuncWithTimeout iter p r (watcherMux (dmon s)) (StateOf (stateMachine ds')) = Done (watcherMux (dmgmt ds')).
Proof.
  unfold cmd_step, monitor_dispatch. simpl. destruct (foldM _ es (machine s)) as [m| | |]; try done. cbn [mbind go_bind].
  destruct (DispatchFuncWithTimeout _ _ _ _ _) as [mux| | |] eqn:Hd; try done. cbn [mbind go_bind]. by intros [= <-].
Qed.
Lemma snap_step_batch p r s us ds' :
  snap_step marshal iter p r (view s) us = Done ds' →
  apply_batch marshal (machine s, states s) (inr us) = Done (machine (handled marshal s (inr us) ds'), states (handled marshal s (inr us) ds')) ∧
  (announces (T := T) marshal (inr us) = false ∧ watcherMux (dmgmt ds') = watcherMux (dmon s) ∨
   announces (T := T) marshal (inr us) = true ∧
   DispatchFuncWithTimeout iter p r (watcherMux (dmon s)) (StateOf (stateMachine ds')) = Done (watcherMux (dmgmt ds'))).
Proof.
  unfold snap_step, monitor_dispatch, handled, announces. simpl.
  destruct (last us) as [u|]; [|intros [= <-]; simpl; rewrite app_nil_r; auto].
  destruct (marshal u) as [buf|]; [|intros [= <-]; simpl; rewrite app_nil_r; auto].
  destruct (DispatchFuncWithTimeout _ _ _ _ _) as [mux| | |] eqn:Hd; try done. cbn [mbind go_bind]. intros [= <-]. auto.
Qed.

Lemma dinv_frame m0 s s' :
  cmd s' = cmd s → snap s' = snap s → machine s' = machine s → applied s' = applied s → states s' = states s →
  dloop s' = dloop s → (∀ L, logged (watcherMux (dmon s)) L → logged (watcherMux (dmon s')) L) → dinv m0 s → dinv m0 s'.
Proof. intros H1 H2 H3 H4 H5 H6 H7 []. split; rewrite ?H1, ?H2, ?H3, ?H4, ?H5, ?H6; auto. Qed.

Lemma dstep_dinv m0 s a s' : dinv m0 s → dstep marshal iter cid sid s a = Some s' → dinv m0 s'.
Proof using Hiter Hcap Hscap.
  intros Hok Hs. destruct (Hok) as [Hc Hn Hr Hco Hsn Hm]. unfold dstep in Hs. destruct (_ || dcrashed s) eqn:Hcr; [done|].
  apply orb_false_iff in Hcr as [[Hcc Hcs]%orb_false_iff _].
  assert (Hexit : dloop s = DSelect → dvds_exit iter cid sid s = Some s' → dinv m0 s').
  { intros Hd Hx. destruct (exit_frame s s' Hcc Hcs Hx) as [->|(H1 & H2 & (m & m' & H3 & H4) & Hma & Hdl & Hap & Hst & Hcl)].
    { by eapply dinv_frame; [..|exact Hok]. }
    rewrite Hd in Hco, Hsn. split; rewrite ?Hma, ?Hdl, ?Hap, ?Hst; try done.
    - by eapply lstep_inv.
    - by eapply lstep_inv.
    - eapply took_kept; [|exact Hco]. rewrite (log_mux_cancel iter _ _ _ Hcc H3) in H1. injection H1 as <-. by eapply cancel_got.
    - eapply took_kept; [|exact Hsn]. rewrite (log_mux_cancel iter _ _ _ Hcs H4) in H2. injection H2 as <-. by eapply cancel_got.
    - by eapply logged_close. }
  destruct a; dstep_cases Hs; try (by eapply dinv_frame; [..|exact Hok]).
  all: try (apply Hexit; done).
  - split; simpl; try done; [by eapply lstep_inv|]. eapply took_kept; [|exact Hco]. by eapply lstep_got.
  - split; simpl; try done; [by eapply lstep_inv|]. eapply took_kept; [|exact Hsn]. by eapply lstep_got.
  - split; simpl; try done.
    + eapply lstep_inv; [exact Hiter|exact Hcap|exact Hc|by eapply log_mux_recv].
    + rewrite <-(app_nil_r (commands (applied s))). by apply took_one.
  - split; simpl; try done.
    + eapply lstep_inv; [exact Hiter|exact Hscap|exact Hn|by eapply log_mux_recv].
    + rewrite <-(app_nil_r (snapshots (applied s))). by apply took_one.
  - destruct (cmd_step_batch _ _ _ _ _ Heqg) as [Hb Hd]. simpl in Hco, Hsn. rewrite app_nil_r in Hsn. split; try done; simpl.
    + rewrite (apply_batch_snoc _ _ _ _ Hr). exact Hb.
    + unfold commands. by rewrite omap_app, app_nil_r.
    + unfold snapshots. by rewrite omap_app, !app_nil_r.
    + by eapply logged_dispatch.
  - destruct (snap_step_batch _ _ _ _ _ Heqg) as [Hb Hd]. simpl in Hco, Hsn. rewrite app_nil_r in Hco. split; try done; simpl.
    + rewrite (apply_batch_snoc _ _ _ _ Hr). exact Hb.
    + unfold commands. by rewrite omap_app, !app_nil_r.
    + unfold snapshots. by rewrite omap_app, app_nil_r.
    + destruct Hd as [[Ha Heq]|[Ha Hd]]; unfold announces in Ha; simpl in Ha; rewrite Ha.
      * by rewrite app_nil_r, Heq.
      * by eapply logged_dispatch.
  - split; simpl; try done; [by eapply lstep_inv|]. eapply took_kept; [|exact Hco]. by apply (lstep_got iter Hiter cid _ (LPropose (put_entry now v))).
  - unfold monitor_Watch in Heqg. destruct (Watch (watcherMux (dmon s)) None) as [[m' j]| | |] eqn:Hw; try done.
    injection Heqg as <- _. eapply dinv_frame; [..|exact Hok]; try done. apply (watch_quiet _ _ _ _ Hw).
  - eapply dinv_frame; [..|exact Hok]; try done. apply (cancel_quiet _ _ _ Heqg).
  - eapply dinv_frame; [..|exact Hok]; try done. apply (recv_quiet _ _ _ _ Heqg).
Qed.

(** ** The start, and callers that are polite *)

Definition machine_start (n1 : string) (w : wal T) (n2 : string) (sw : wal U) (m0 : M) (s : dstate M T U) : Prop :=
  log_start n1 c w ∧ log_start n2 sc sw ∧ ∃ mux ds,
    mux_ready mux ∧ logged mux [] ∧
    dvds_Run (Dvds.New m0 (log (start_log w)) (log (start_log sw)) mux) = Done (ds, Some (cid, sid), None) ∧
    s = start_dvds ds (start_log w) (start_log sw).

Definition dpolite s (a : dact T U) : bool :=
  match a with
  | CmdAct a => polite (cmd s) a
  | DPropose now v => polite (cmd s) (LPropose (put_entry now v))
  | _ => true
  end.
Definition dpolite_step s (a : dact T U) : option (dstate M T U) :=
  if dpolite s a then dstep marshal iter cid sid s a else None.

Lemma start_frame n1 w n2 sw m0 s : machine_start n1 w n2 sw m0 s →
  lstep iter (start_log w) LWatch = Some (cmd s) ∧ lstep iter (start_log sw) LWatch = Some (snap s) ∧
  (∃ m, Watch (watcherMux (mgmt (log (start_log w)))) None = Done (m, cid) ∧ watcherMux (mgmt (log (cmd s))) = m) ∧
  (∃ m, Watch (watcherMux (mgmt (log (start_log sw)))) None = Done (m, sid) ∧ watcherMux (mgmt (log (snap s))) = m) ∧
  machine s = m0 ∧ dloop s = DSelect ∧ applied s = [] ∧ states s = [] ∧ logged (watcherMux (dmon s)) [].
Proof.
  intros (Hw & Hsw & mux & ds & Hr & Hl & Hrun & ->). unfold dvds_Run in Hrun. simpl in Hrun.
  unfold wal_Watch, monitor_Watch in Hrun.
  destruct (Watch (watcherMux (mgmt (wal_Run w).1)) None) as [[m1 i1]| | |] eqn:E1; try done. cbn [mbind go_bind] in Hrun.
  destruct (Watch (watcherMux (mgmt (wal_Run sw).1)) None) as [[m2 i2]| | |] eqn:E2; try done. cbn [mbind go_bind] in Hrun.
  injection Hrun as <- <- <-. unfold lstep, wal_Watch, monitor_Watch. simpl. rewrite E1, E2. simpl.
  split_and!; try done; by eexists.
Qed.

Lemma start_dinv n1 w n2 sw m0 s : machine_start n1 w n2 sw m0 s →
  dinv m0 s ∧ tidy_inv c (cmd s) ∧ fed (watcherChCapacity (watcherMux (mgmt w))) cid (cmd s).
Proof using Hiter Hcap Hscap.
  intros Hst. destruct (start_frame _ _ _ _ _ _ Hst) as (H1 & H2 & (m1 & H3 & H3') & (m2 & H4 & H4') & H5 & H6 & H7 & H8 & H9).
  destruct Hst as (Hw & Hsw & _).
  destruct (start_log_ok n1 c w Hcap Hw) as (Hl & Hd & Ht). destruct (start_log_ok n2 sc sw Hscap Hsw) as (Hl' & Hd' & _).
  assert (Hti : tidy_inv c (cmd s)) by (eapply (polite_inv iter Hiter c _ LWatch); [done|split; eauto|exact H1]).
  destruct (watch_new _ _ _ H3) as [Hli (x & Hx & Hg)]. destruct (watch_new _ _ _ H4) as [_ (y & Hy & Hgy)].
  assert (Hwm : watcherMux (mgmt (log (start_log w))) = watcherMux (mgmt w)).
  { simpl. unfold wal_Run, monitor_Run. by repeat case_match; simplify_eq/=. }
  assert (Hac : accepted (cmd s) = []).
  { revert H1. unfold lstep. simpl. destruct (wal_Watch _) as [[]| | |]; simpl; try done; by intros [= <-]. }
  split; [|split; [done|]].
  - split; rewrite ?H5, ?H6, ?H7, ?H8; try done.
    + destruct Hti as (? & q & ? & _). split; eauto.
    + eapply (lstep_inv iter Hiter sc _ LWatch); [done|split; eauto|exact H2].
    + exists x. by rewrite H3'.
    + exists y. by rewrite H4'.
  - intros _ _. rewrite H3', Hac, <-Hwm. done.
Qed.

Record dtidy (cap : Z) (m0 : M) s : Prop := {
  dt_inv : dinv m0 s;
  dt_tidy : tidy_inv c (cmd s);
  dt_fed : dloop s ≠ DEnded → fed cap cid (cmd s)
}.
Lemma fed_log_mux cap (l : lstate T) m x :
  recv (watcherMux (mgmt (log l))) cid = Done (m, Some x) → fed cap cid l → fed cap cid (log_mux l m).
Proof. intros Hr Hf H1 H2. eapply recv_listening; [exact Hr|by apply Hf]. Qed.
Lemma dstep_dtidy cap m0 s a s' : dtidy cap m0 s → dpolite_step s a = Some s' → dtidy cap m0 s'.
Proof using Hiter Hcap Hscap.
  intros [Hi Ht Hf] Hs. unfold dpolite_step in Hs. destruct (dpolite s a) eqn:Hp; [|done].
  assert (Hi' := dstep_dinv m0 s a s' Hi Hs). unfold dstep in Hs. destruct (_ || dcrashed s) eqn:Hcr; [done|].
  apply orb_false_iff in Hcr as [[Hcc Hcs]%orb_false_iff _].
  assert (Hlog : ∀ b x, sub_allowed cid (cmd s) b = true → polite (cmd s) b = true → lstep iter (cmd s) b = Some x →
    tidy_inv c x ∧ (dloop s ≠ DEnded → fed cap cid x)).
  { intros b x Ha Hb Hx. split; [apply (polite_inv iter Hiter c (cmd s) b x Hcap Ht); unfold polite_step; by rewrite Hb|].
    intros Hne. eapply lstep_fed; [exact Hiter|exact Ha|apply Ht|by apply Hf|exact Hx]. }
  assert (Hexit : dvds_exit iter cid sid s = Some s' → dtidy cap m0 s').
  { intros Hx. split; [done|..]; destruct (exit_frame s s' Hcc Hcs Hx) as [->|(H1 & _ & (m & m' & H3 & H4) & _ & Hdl & _)]; try done.
    apply (polite_inv iter Hiter c (cmd s) (LCancel cid) (cmd s') Hcap Ht). unfold polite_step. simpl.
    destruct (cancel_live _ _ _ H3) as (w & Hw & Hd). by rewrite Hw, Hd. }
  destruct a; dstep_cases Hs; try (by split); try (apply Hexit; done); simpl in Hp.
  all: try (split; [done|done|by intros _; apply Hf; congruence]).
  - destruct (Hlog a x Heqb Hp H) as [H1 H2]. by split.
  - split; [done| |intros _; eapply fed_log_mux; [done|by apply Hf; congruence]].
    apply (polite_inv iter Hiter c (cmd s) (LReceive cid) _ Hcap Ht). by eapply log_mux_recv.
  - destruct (Hlog (LPropose (put_entry now v)) x eq_refl Hp H) as [H1 H2]. by split.
Qed.

(** Without snapshots the batches are the replay of their entries. *)
Lemma commands_replay bs m0 m out out' :
  snapshots bs = [] → foldM (apply_batch marshal) bs (m0, out) = Done (m, out') →
  replay m0 ((λ v, (PutCommand, v)) <$> concat (commands bs)) = Done m.
Proof.
  revert m0 out. induction bs as [|[es|us] bs IH]; intros m0 out Hsn Hr; [by injection Hr as <- _| |done].
  cbn [foldM apply_batch fst snd] in Hr. rewrite replay_puts in Hr. unfold commands; csimpl. rewrite fmap_app, replay_app.
  destruct (replay m0 _) as [m1| | |]; try done. cbn [mbind go_bind] in *. by eapply IH.
Qed.
End dvds_proofs.

(** * Properties *)

(** C11: A replicated structure over its two logs, under every schedule of the
    goroutines of all three, of proposers, subscribers, [Run] and [Close],
    bursts included: the machine is what the batches it handled make of the
    machine it started with; the commands it executed, one after the other,
    are an ordered selection of the proposals, and the snapshots it handled of
    those proposed; and every subscriber receives an ordered selection of the
    states the machine went through. *)
Theorem machine_follows_logs {M T U} `{!StateMachine M T U, !Codec M} (marshal : U → list Z + error) iter cid sid c sc
    n1 (w : wal T) n2 (sw : wal U) (m0 : M) s0 acts s :
  (∀ X, iter X ≡ₚ elements X) → 0 < c < 2 ^ 64 - 1 → 0 < sc < 2 ^ 64 - 1 →
  machine_start cid sid c sc n1 w n2 sw m0 s0 → run_acts (dstep marshal iter cid sid) s0 acts = Some s →
  foldM (apply_batch marshal) (applied s) (m0, []) = Done (machine s, states s) ∧
  concat (commands (applied s)) `sublist_of` (EntryData <$> proposed (cmd s)) ∧
  concat (snapshots (applied s)) `sublist_of` (EntryData <$> proposed (snap s)) ∧
  ∀ id wt, heap (watcherMux (dmon s)) !! id = Some wt → hist wt `sublist_of` states s.
Proof.
  intros Hiter Hc Hsc Hst Hr. destruct (start_dinv marshal iter Hiter cid sid c sc Hc Hsc _ _ _ _ _ _ Hst) as (H0 & _).
  assert (Hinv : dinv marshal cid sid c sc m0 s).
  { revert Hr. apply run_acts_inv; [|apply H0]. intros s1 a s2. by apply dstep_dinv. }
  destruct Hinv as [Hcm Hsn Hrun Hco Hss Hm]. split_and!; [done| | |exact Hm].
  - etrans; [|by eapply took_sublist]. rewrite concat_app. by apply sublist_inserts_r.
  - etrans; [|by eapply took_sublist]. rewrite concat_app. by apply sublist_inserts_r.
Qed.


(** Two proposals for one key, then a snapshot with another key. *)
Definition replica_acts : list (dact (uuid * Z) (option (gmap uuid Z))) :=
  let entry := [CmdAct LToken; CmdAct LRead; CmdAct LHand; CmdAct (LAppend true false); DTakeCmd; DApply true false] in
  [DWatch; DPropose 1 (replicate 16 1, 7)] ++ take 2 entry ++ [DPropose 2 (replicate 16 1, 8)] ++ drop 2 entry ++ entry.
Definition snapshot_acts : list (dact (uuid * Z) (option (gmap uuid Z))) :=
  [SnapAct (LPropose (put_entry 3 (Some {[ replicate 16 2 := 5 ]}))); SnapAct LToken; SnapAct LRead; SnapAct LHand;
   SnapAct (LAppend true false); DTakeSnap; DApply true false; DReceive 0; DClose; DTerminate; DCloseReturn false].
Definition replica_marshal (u : option (gmap uuid Z)) : list Z + error := inl (Marshal id_codec u).
#[local] Instance replica_codec : Codec (hashmap (uuid * Z) uuid Z) := hashmap_codec id_codec.

(** Two fresh logs of eight entries and a structure over them. *)
Definition replica_log {A} : wal A := match Wal.New "log" 8 (NewWatcherMux 4) with Done w => w | _ => sample_wal end.
Definition replica_start : dstate (hashmap (uuid * Z) uuid Z) (uuid * Z) (option (gmap uuid Z)) :=
  let ds := Dvds.New (id_map []) (log (start_log replica_log)) (log (start_log replica_log)) (NewWatcherMux 4) in
  match dvds_Run ds with
  | Done (ds', _, _) => start_dvds ds' (start_log replica_log) (start_log replica_log)
  | _ => start_dvds ds (start_log replica_log) (start_log replica_log)
  end.
Lemma replica_log_start {A} : log_start "log" 8 (replica_log (A := A)).
Proof. exists (NewWatcherMux 4). split_and!; [apply new_mux_ready; lia|done|apply logged_new|reflexivity]. Qed.
Lemma replica_machine_start : machine_start 0 0 8 8 "log" replica_log "log" replica_log (id_map []) replica_start.
Proof.
  split; [apply replica_log_start|]. split; [apply replica_log_start|]. exists (NewWatcherMux 4). eexists.
  split; [apply new_mux_ready; lia|]. split; [apply logged_new|]. split; [reflexivity|reflexivity].
Qed.

Definition is_blocked {A} (x : go A) : bool := match x with Blocked => true | _ => false end.
Lemma is_blocked_true {A} (x : go A) : is_blocked x = true → x = Blocked.
Proof. by destruct x. Qed.
(** The command log and the event loop have nothing left to do. *)
Definition at_rest (s : dstate (hashmap (uuid * Z) uuid Z) (uuid * Z) (option (gmap uuid Z))) : bool :=
  match dloop s, event (cmd s), reader (cmd s), snapshots (applied s) with
  | DSelect, ESelect, WNext, [] =>
      is_blocked (recv (watcherMux (mgmt (log (cmd s)))) 0) && is_blocked (next_token (proposalBuffer (log (cmd s)))) &&
      (length (proposed (cmd s)) =? 2)%nat
  | _, _, _, _ => false
  end.
Lemma replica_runs :
  is_Some (run_acts (dstep replica_marshal elements 0 0) replica_start (replica_acts ++ snapshot_acts)) ∧
  ∃ s, run_acts (dpolite_step replica_marshal elements 0 0) replica_start replica_acts = Some s ∧ at_rest s = true.
Proof.
  split.
  - assert (H : (if run_acts (dstep replica_marshal elements 0 0) replica_start (replica_acts ++ snapshot_acts) is Some _
                 then true else false) = true) by (vm_compute; reflexivity).
    destruct (run_acts _ _ _) as [s|]; [exists s; reflexivity|discriminate H].
  - assert (H : match run_acts (dpolite_step replica_marshal elements 0 0) replica_start replica_acts with
                | Some s => at_rest s | None => false end = true) by (vm_compute; reflexivity).
    destruct (run_acts _ _ _) as [s|]; [exists s; split; [reflexivity|exact H]|discriminate H].
Qed.

Lemma machine_follows_logs_witness : ∃ s,
  run_acts (dstep replica_marshal elements 0 0) replica_start (replica_acts ++ snapshot_acts) = Some s ∧
  foldM (apply_batch replica_marshal) (applied s) (id_map [], []) = Done (machine s, states s) ∧
  concat (commands (applied s)) `sublist_of` (EntryData <$> proposed (cmd s)) ∧
  concat (snapshots (applied s)) `sublist_of` (EntryData <$> proposed (snap s)) ∧
  ∀ id wt, heap (watcherMux (dmon s)) !! id = Some wt → hist wt `sublist_of` states s.
Proof.
  destruct replica_runs as [[s Hr] _]. exists s. split; [exact Hr|].
  apply (machine_follows_logs replica_marshal elements 0 0 8 8 "log" replica_log "log" replica_log (id_map []) replica_start
           (replica_acts ++ snapshot_acts) s); [reflexivity|lia|lia|apply replica_machine_start|exact Hr].
Defined.
