(* ===== verification/DvdsShutdown.v ===== *)
(** * DvdsShutdown: closing a replicated structure (dvds.go)

    The event loop of [DvdsLoops] with callers that are polite to all three
    components, for machines whose commands do not panic. *)
From S2P Require Import Prelude Types GoNet Json Codec WatcherMux MuxStreams RingBuffer LinkedList Packet Monitor MonitorLoops.
From S2P Require Import StateMachine StateCodec Wal WalLoops Dvds DvdsLoops.

Section dvds_shutdown.
Context {M T U : Type} `{!StateMachine M T U, !Codec M} (marshal : U → list Z + error) (live : M → Prop).
Context (Hexec : ∀ (m : M) (v : T), live m → returns (Execute m PutCommand v) (λ r, live r.1)).
Context (Hdecode : ∀ (m : M) u buf, marshal u = inl buf → live m → live (Decode m buf).1).
Context (iter : gset Z → list Z) (Hiter : ∀ X, iter X ≡ₚ elements X) (cid sid c sc : Z).
Context (Hcap : 0 < c < 2 ^ 64 - 1) (Hscap : 0 < sc < 2 ^ 64 - 1).
Implicit Types s : dstate M T U.

(** The schedules: at most 32 unread proposals in each log, no cancel function
    called twice. *)
Definition careful s (a : dact T U) : bool :=
  match a with
  | CmdAct a => polite (cmd s) a
  | SnapAct a => polite (snap s) a
  | DPropose now v => polite (cmd s) (LPropose (put_entry now v))
  | DCancel id => match heap (watcherMux (dmon s)) !! id with Some w => negb (wDoneClosed w) | None => false end
  | _ => true
  end.
Definition careful_step s (a : dact T U) : option (dstate M T U) :=
  if careful s a then dstep marshal iter cid sid s a else None.

(** The structure as a monitor of states. *)
Definition managed_of (s : dstate M T U) : managed U := {| mon := dmon s; mclosing := dclosing s; mcrashed := false; manswers := [] |}.
Definition dended (l : loop_at (T := T) (U := U)) : bool := match l with DEnded => true | _ => false end.

Record alive s : Prop := {
  al_cmd : tidy_inv c (cmd s);
  al_snap : tidy_inv sc (snap s);
  al_managed : managed_ok (dended (dloop s)) (managed_of s);
  al_live : live (machine s);
  al_subs : dended (dloop s) = false →
    (cid ∈ watchers (watcherMux (mgmt (log (cmd s))))) ∧ (sid ∈ watchers (watcherMux (mgmt (log (snap s)))));
  al_cancelled : dended (dloop s) = true →
    (cid ∉ watchers (watcherMux (mgmt (log (cmd s))))) ∧ (sid ∉ watchers (watcherMux (mgmt (log (snap s)))));
  al_running : dcrashed s = false
}.

Lemma tidy_inv_mux {A} c' (l : lstate A) : tidy_inv c' l → mux_inv (watcherMux (mgmt (log l))) ∧ crashed l = false.
Proof. intros (Hl & q & _ & Ht). split; [apply Hl|apply Ht]. Qed.

(** [terminate:] runs through. *)
Lemma exit_runs s : alive s → dended (dloop s) = false → ∃ s', dvds_exit iter cid sid s = Some s' ∧ alive s' ∧ dloop s' = DEnded ∧
  mTerminate (dmon s') = mTerminate (dmon s).
Proof using Hiter Hcap Hscap.
  intros [Hc Hs Hm Hl Hsub _ Hr] Hne. destruct (Hsub Hne) as [H1 H2].
  destruct (tidy_inv_mux _ _ Hc) as [Hic Hcc], (tidy_inv_mux _ _ Hs) as [His Hcs].
  destruct (registered_cancel _ _ Hic H1) as (m1 & E1 & N1), (registered_cancel _ _ His H2) as (m2 & E2 & N2).
  rewrite Hne in Hm.
  destruct (terminate_managed iter Hiter _ Hm) as (m3 & E3 & Hok & _ & Ht). simpl in E3.
  unfold dvds_exit, dvds_terminate. simpl. rewrite E1. cbn [mbind go_bind]. rewrite E2. cbn [mbind go_bind]. rewrite E3.
  cbn [mbind go_bind or_dcrash]. eexists. split; [reflexivity|]. split; [|done]. split; simpl; try done.
  - apply (polite_inv iter Hiter c (cmd s) (LCancel cid) _ Hcap Hc). unfold polite_step. simpl.
    destruct (cancel_live _ _ _ E1) as (w & -> & ->). simpl. exact (log_mux_cancel iter _ _ _ Hcc E1).
  - apply (polite_inv iter Hiter sc (snap s) (LCancel sid) _ Hscap Hs). unfold polite_step. simpl.
    destruct (cancel_live _ _ _ E2) as (w & -> & ->). simpl. exact (log_mux_cancel iter _ _ _ Hcs E2).
Qed.

Lemma execute_all es m : live m →
  returns (foldM (λ m entry, '(m, _) ← Execute m PutCommand entry; Done m) es m) live.
Proof using Hexec.
  intros Hm. apply (returns_foldM _ live); [done|]. intros m1 v _ Hm1. eapply returns_bind; [by apply Hexec|].
  intros [m2 err] Hm2. by apply returns_done.
Qed.
Lemma apply_runs p r s : alive s → dended (dloop s) = false →
  (∀ es, returns (cmd_step iter p r (view s) es) (λ ds, live (stateMachine ds) ∧
     managed_ok false (with_mon (managed_of s) (dmgmt ds)) ∧ mTerminate (dmgmt ds) = mTerminate (dmon s))) ∧
  (∀ us, returns (snap_step marshal iter p r (view s) us) (λ ds, live (stateMachine ds) ∧
     managed_ok false (with_mon (managed_of s) (dmgmt ds)) ∧ mTerminate (dmgmt ds) = mTerminate (dmon s))).
Proof using Hexec Hdecode Hiter.
  intros [_ _ Hm Hl _ _ _] Hne. rewrite Hne in Hm.
  assert (Hd := λ v, dispatch_managed iter Hiter p r _ v Hm). split.
  - intros es. unfold cmd_step. eapply returns_bind; [by apply execute_all|]. intros m Hlm.
    destruct (Hd (StateOf m)) as (mg & E & Hok & _ & Ht). simpl in E. simpl. rewrite E. cbn [mbind go_bind]. by apply returns_done.
  - intros us. unfold snap_step. destruct (last us) as [u|]; [|by apply returns_done].
    destruct (marshal u) as [buf|] eqn:Eb; [|by apply returns_done]. simpl.
    destruct (Hd (StateOf (Decode (machine s) buf).1)) as (mg & E & Hok & _ & Ht). simpl in E. rewrite E. cbn [mbind go_bind].
    apply returns_done. split; [by eapply Hdecode|done].
Qed.

(** [Watch], [Run] and [Close] are those of a monitor. *)
Definition dcall (a : dact T U) : option mcall :=
  match a with
  | DWatch => Some CWatch
  | DCancel id => Some (CCancel id)
  | DReceive id => Some (CReceive id)
  | DRun => Some (CRun None)
  | DClose => Some CClose
  | DCloseReturn t => Some (CCloseReturn t)
  | _ => None
  end.
Lemma dcall_frame s a d s' : dcrashed s = false → dcall a = Some d → dstep marshal iter cid sid s a = Some s' →
  ∃ g, call_step (managed_of s) d = Some g ∧ mon g = dmon s' ∧ mclosing g = dclosing s' ∧ mcrashed g = dcrashed s' ∧
    cmd s' = cmd s ∧ snap s' = snap s ∧ machine s' = machine s ∧ dloop s' = dloop s.
Proof.
  intros Hr Hd Hs. unfold dstep in Hs. destruct (_ || dcrashed s); [done|]. unfold call_step. cbn [managed_of mcrashed mon mclosing].
  destruct a; simpl in Hd; injection Hd as <- || discriminate Hd; cbn beta iota in Hs |- *.
  - destruct (monitor_Watch (dmon s)) as [[m id]| | |]; cbn [or_dcrash] in Hs; try discriminate Hs; injection Hs as <-;
      cbn [mbind go_bind managed_go]; eexists; split_and!; done.
  - destruct (cancel _ id) as [m| | |]; cbn [or_dcrash] in Hs; try discriminate Hs; injection Hs as <-;
      cbn [mbind go_bind managed_go]; eexists; split_and!; done.
  - destruct (recv _ id) as [[m [v|]]| | |]; try discriminate Hs. injection Hs as <-. eexists; split_and!; done.
  - destruct (dclosing s); [discriminate Hs|]. unfold monitor_Run.
    destruct (mRunning (dmon s)); [injection Hs as <-; eexists; split_and!; done|].
    destruct (mClosed (dmon s)); [injection Hs as <-; eexists; split_and!; done|discriminate Hs].
  - destruct (dclosing s); [discriminate Hs|]. destruct (negb _); [injection Hs as <-; eexists; split_and!; done|].
    destruct (mClosed (dmon s)) eqn:Hc; [injection Hs as <-; eexists; split_and!; done|].
    destruct (mTerminate (dmon s)); injection Hs as <-; eexists; split_and!; try done.
  - destruct (_ && _); [|discriminate Hs]. injection Hs as <-. eexists; split_and!; done.
Qed.

(** The logs keep what the loop needs of them. *)
Lemma alive_logs s s' :
  tidy_inv c (cmd s') → tidy_inv sc (snap s') → dmon s' = dmon s → dclosing s' = dclosing s → machine s' = machine s →
  dcrashed s' = dcrashed s → dended (dloop s') = dended (dloop s) →
  (cid ∈ watchers (watcherMux (mgmt (log (cmd s')))) ↔ cid ∈ watchers (watcherMux (mgmt (log (cmd s))))) →
  (sid ∈ watchers (watcherMux (mgmt (log (snap s')))) ↔ sid ∈ watchers (watcherMux (mgmt (log (snap s))))) → alive s → alive s'.
Proof.
  intros H1 H2 H3 H4 H5 H6 H7 H8 H9 [Hc Hs Hm Hl Ha Hca Hr].
  split; rewrite ?H5, ?H6, ?H7, ?H8, ?H9; try done. unfold managed_of. by rewrite H3, H4.
Qed.
(** So does everything that only touches the management state. *)
Lemma alive_calls s s' :
  cmd s' = cmd s → snap s' = snap s → machine s' = machine s → dloop s' = dloop s → dcrashed s' = dcrashed s →
  managed_ok (dended (dloop s)) (managed_of s') → alive s → alive s'.
Proof. intros H1 H2 H3 H4 H5 H6 [Hc Hs Hm Hl Ha Hca Hr]. split; rewrite ?H1, ?H2, ?H3, ?H4, ?H5; done. Qed.

(** After a batch. *)
Lemma alive_handled s b ds :
  alive s → dcrashed s = false → dended (dloop s) = false →
  live (stateMachine ds) ∧ managed_ok false (with_mon (managed_of s) (dmgmt ds)) ∧ mTerminate (dmgmt ds) = mTerminate (dmon s) →
  alive (handled marshal s b ds) ∧ (mTerminate (dmon s) = true → mTerminate (dmon (handled marshal s b ds)) = true).
Proof.
  intros [Hc Hs Hm Hl Ha Hca Hr] _ He (H1 & [M1 M2 M3 M4 M5 M6] & H3). split; [|simpl; congruence]. split; simpl; try done.
  intros _. by apply Ha.
Qed.

Lemma careful_alive s a s' : alive s → careful_step s a = Some s' →
  alive s' ∧ (mTerminate (dmon s) = true → mTerminate (dmon s') = true).
Proof using Hexec Hdecode Hiter Hcap Hscap.
  intros Hal Hs. unfold careful_step in Hs. destruct (careful s a) eqn:Hp; [|done]. unfold dstep in Hs.
  destruct (_ || dcrashed s) eqn:Hcr; [done|]. apply orb_false_iff in Hcr as [[Hcc Hcs]%orb_false_iff _].
  destruct (Hal) as [Hc Hsn Hm Hl Ha Hca Hr].
  assert (Hexit : dended (dloop s) = false → dvds_exit iter cid sid s = Some s' → alive s' ∧ (mTerminate (dmon s) = true → mTerminate (dmon s') = true)).
  { intros Hne Hx. destruct (exit_runs s Hal Hne) as (s1 & H1 & H2 & _ & H3). rewrite Hx in H1. injection H1 as <-.
    split; [done|congruence]. }
  assert (Hpol : ∀ {A} (l : lstate A) b, polite l b = true → polite_step iter l b = lstep iter l b).
  { intros A l b E. unfold polite_step. by rewrite E. }
  assert (Hcall : ∀ d, dcall a = Some d → polite_call (managed_of s) d = true →
    alive s' ∧ (mTerminate (dmon s) = true → mTerminate (dmon s') = true)).
  { intros d Hd Hpd. assert (Hst : dstep marshal iter cid sid s a = Some s') by (unfold dstep; rewrite Hcc, Hcs, Hr; exact Hs).
    destruct (dcall_frame s a d s' Hr Hd Hst) as (g & Hg & H1 & H2 & H3 & H4 & H5 & H6 & H7).
    destruct (call_step_ok _ _ _ _ Hm Hg) as ([M1 M2 M3 M4 M5 M6] & _ & Ht). rewrite H1 in Ht. split; [|exact Ht].
    pose proof (polite_call_alive _ _ _ _ Hm Hpd Hg) as Hcr. rewrite H3 in Hcr.
    eapply alive_calls; [exact H4|exact H5|exact H6|exact H7|congruence| |exact Hal]. split; simpl; rewrite <-?H1, <-?H2; done. }
  destruct a; try (by eapply Hcall); clear Hcall; dstep_cases Hs; simpl in Hp; try (by apply Hexit).
  - split; [|done]. eapply alive_logs; [..|exact Hal]; simpl; try done; [|by eapply lstep_registered].
    by apply (polite_inv iter Hiter c (cmd s) a); [..|rewrite Hpol].
  - split; [|done]. eapply alive_logs; [..|exact Hal]; simpl; try done; [|by eapply lstep_registered].
    by apply (polite_inv iter Hiter sc (snap s) a); [..|rewrite Hpol].
  - (* DTakeCmd *)
    split; [|done]. eapply alive_logs; [..|exact Hal]; simpl; try done; [|by match goal with H : dloop s = _ |- _ => rewrite H end|by rewrite (recv_watchers _ _ _ _ Heqg)].
    apply (polite_inv iter Hiter c (cmd s) (LReceive cid) _ Hcap Hc). by eapply log_mux_recv.
  - (* DTakeSnap *)
    split; [|done]. eapply alive_logs; [..|exact Hal]; simpl; try done; [|by match goal with H : dloop s = _ |- _ => rewrite H end|by rewrite (recv_watchers _ _ _ _ Heqg)].
    apply (polite_inv iter Hiter sc (snap s) (LReceive sid) _ Hscap Hsn). by eapply log_mux_recv.
  - destruct (apply_runs pick_done reads s Hal ltac:(by match goal with H : dloop s = _ |- _ => rewrite H end)) as [H1 _].
    apply (alive_handled s (inl es) a Hal Hr); [by match goal with H : dloop s = _ |- _ => rewrite H end|]. destruct (H1 es) as (ds & E & H). rewrite E in Heqg. injection Heqg as <-. exact H.
  - destruct (apply_runs pick_done reads s Hal ltac:(by match goal with H : dloop s = _ |- _ => rewrite H end)) as [H1 _].
    destruct (H1 es) as (ds & E & _). by rewrite E in Heqg.
  - destruct (apply_runs pick_done reads s Hal ltac:(by match goal with H : dloop s = _ |- _ => rewrite H end)) as [_ H1].
    apply (alive_handled s (inr us) a Hal Hr); [by match goal with H : dloop s = _ |- _ => rewrite H end|]. destruct (H1 us) as (ds & E & H). rewrite E in Heqg. injection Heqg as <-. exact H.
  - destruct (apply_runs pick_done reads s Hal ltac:(by match goal with H : dloop s = _ |- _ => rewrite H end)) as [_ H1].
    destruct (H1 us) as (ds & E & _). by rewrite E in Heqg.
  - split; [|done]. eapply alive_logs; [..|exact Hal]; simpl; try done.
    + by apply (polite_inv iter Hiter c (cmd s) (LPropose (put_entry now v))); [..|rewrite Hpol].
    + by eapply (lstep_registered iter cid _ (LPropose (put_entry now v))).
Qed.

(** The steps of the event loop's goroutine. *)
Definition dvds_loop_step s (a : dact T U) : option (dstate M T U) :=
  match a with
  | DTakeCmd | DTakeSnap | DCmdClosed | DSnapClosed | DApply _ _ | DTerminate => dstep marshal iter cid sid s a
  | _ => None
  end.
Definition dvds_down s : Prop :=
  dloop s = DEnded ∧ mDone (dmon s) = true ∧ doneClosed (watcherMux (dmon s)) = true ∧
  (cid ∉ watchers (watcherMux (mgmt (log (cmd s))))) ∧ (sid ∉ watchers (watcherMux (mgmt (log (snap s))))).
(** What waits in a subscription. *)
Definition backlog {A} (l : lstate A) (id : Z) : nat :=
  match WatcherMux.heap (watcherMux (mgmt (log l))) !! id with Some w => length (WatcherMux.buf w) | None => 0 end.
Definition dvds_measure s : nat :=
  match dloop s with
  | DEnded => 0
  | DSelect => 1 + 2 * (backlog (cmd s) cid + backlog (snap s) sid)
  | _ => 2 + 2 * (backlog (cmd s) cid + backlog (snap s) sid)
  end.
Lemma waiting_take {A} (l : lstate A) id m x :
  recv (watcherMux (mgmt (log l))) id = Done (m, Some x) → backlog l id = S (backlog (log_mux l m) id).
Proof.
  intros (w & w' & Hw & -> & Hb & _)%recv_some. unfold backlog. rewrite Hw. simpl. by rewrite lookup_insert_eq, Hb.
Qed.

Lemma dvds_inevitable s : alive s → mTerminate (dmon s) = true → inevitable dvds_loop_step dvds_down s.
Proof using Hexec Hdecode Hiter Hcap Hscap.
  intros Hal Ht. apply (inevitable_measure _ (λ s, alive s ∧ mTerminate (dmon s) = true) _ dvds_measure); [done| |].
  - clear s Hal Ht. intros s [Hal Ht]. pose proof (tidy_inv_mux _ _ (al_cmd _ Hal)) as [_ Hcc].
    pose proof (tidy_inv_mux _ _ (al_snap _ Hal)) as [_ Hcs]. pose proof (al_running _ Hal) as Hr.
    unfold dvds_loop_step, dstep. rewrite Hcc, Hcs, Hr. simpl. destruct (dloop s) as [|es|us|] eqn:El.
    + right. exists DTerminate. simpl. rewrite Ht. destruct (exit_runs s Hal) as (s' & Hx & _); [by rewrite El|]. by exists s'.
    + right. exists (DApply true true). simpl. destruct (apply_runs true true s Hal) as [H1 _]; [by rewrite El|].
      destruct (H1 es) as (ds & E & _). rewrite E. by eexists.
    + right. exists (DApply true true). simpl. destruct (apply_runs true true s Hal) as [_ H1]; [by rewrite El|].
      destruct (H1 us) as (ds & E & _). rewrite E. by eexists.
    + left. destruct Hal as [_ _ Hm _ _ Hca _]. rewrite El in *. destruct (mo_ended _ _ Hm) as [H1 H2]; [done|].
      destruct (Hca eq_refl) as [H3 H4]. done.
  - clear s Hal Ht. intros s a s' [Hal Ht] Hs.
    assert (Hst : dstep marshal iter cid sid s a = Some s' ∧ careful s a = true) by by destruct a. destruct Hst as [Hst Hca].
    destruct (careful_alive s a s' Hal) as [Hal' Ht']; [by unfold careful_step; rewrite Hca|]. split; [by auto|].
    unfold dstep in Hst. destruct (_ || dcrashed s) eqn:Hcr; [done|]. pose proof (al_running _ Hal') as Hr'.
    assert (Hexit : dloop s = DSelect → dvds_exit iter cid sid s = Some s' → (dvds_measure s' < dvds_measure s)%nat).
    { intros El Hx. destruct (exit_runs s Hal) as (s1 & H1 & _ & H2 & _); [by rewrite El|]. rewrite Hx in H1. injection H1 as <-.
      unfold dvds_measure. rewrite El, H2. lia. }
    destruct a; try done; dstep_cases Hst; try (by apply Hexit); try discriminate Hr';
      unfold dvds_measure; simpl; match goal with H : dloop s = _ |- _ => rewrite H end.
    + rewrite (waiting_take _ _ _ _ Heqg). lia.
    + rewrite (waiting_take _ _ _ _ Heqg). lia.
    + lia.
    + lia.
Qed.

Lemma start_alive n1 w n2 sw m0 s :
  live m0 → machine_start cid sid c sc n1 w n2 sw m0 s → managed_ok false (managed_of s) → alive s.
Proof using Hiter Hcap Hscap.
  intros Hlive Hst Hm. destruct (start_frame iter cid sid c sc _ _ _ _ _ _ Hst) as
    (H1 & H2 & (m1 & H3 & H3') & (m2 & H4 & H4') & H5 & H6 & _).
  assert (Hcr : dcrashed s = false) by by destruct Hst as (_ & _ & mux & ds & _ & _ & _ & ->). destruct Hst as (Hw & Hsw & _).
  destruct (start_log_ok n1 c w Hcap Hw) as (L1 & D1 & T1). destruct (start_log_ok n2 sc sw Hscap Hsw) as (L2 & D2 & T2).
  destruct (watch_new _ _ _ H3) as [Hr1 _]. destruct (watch_new _ _ _ H4) as [Hr2 _].
  split; rewrite ?H5, ?H6; try done.
  - eapply (polite_inv iter Hiter c _ LWatch); [done|split; eauto|exact H1].
  - eapply (polite_inv iter Hiter sc _ LWatch); [done|split; eauto|exact H2].
  - intros _. rewrite H3', H4'. split; [apply Hr1|apply Hr2].
Qed.
Lemma start_managed_of n1 w n2 sw m0 s :
  machine_start cid sid c sc n1 w n2 sw m0 s → doneClosed (watcherMux (dmon s)) = false → managed_ok false (managed_of s).
Proof.
  intros (_ & _ & mux & ds & Hr & _ & Hrun & ->) Hd. unfold dvds_Run in Hrun. simpl in Hrun.
  unfold wal_Watch, monitor_Watch in Hrun.
  destruct (Watch (watcherMux (mgmt (wal_Run w).1)) None) as [[m1 i1]| | |]; try done. cbn [mbind go_bind] in Hrun.
  destruct (Watch (watcherMux (mgmt (wal_Run sw).1)) None) as [[m2 i2]| | |]; try done. cbn [mbind go_bind] in Hrun.
  injection Hrun as <- _ _.
  split; simpl in *; [apply Hr|intros _; split_and!; [exact Hr|exact Hd|reflexivity]|done..].
Qed.
End dvds_shutdown.

(** * Properties *)


(** An array of two elements over fresh logs: a put and a snapshot wait when
    [Close] is called. *)
Definition array_marshal (u : option (list Z)) : list Z + error := inl (Marshal (slice_codec int64_codec []) u).
#[local] Instance shutdown_codec : Codec (array Z) := array_codec int64_codec [].
Definition shutdown_array : array Z := {| astate := Some [1; 2]; afilter := None |}.
Definition shutdown_start : dstate (array Z) Z (option (list Z)) :=
  let ds := Dvds.New shutdown_array (log (start_log replica_log)) (log (start_log replica_log)) (NewWatcherMux 4) in
  match dvds_Run ds with
  | Done (ds', _, _) => start_dvds ds' (start_log replica_log) (start_log replica_log)
  | _ => start_dvds ds (start_log replica_log) (start_log replica_log)
  end.
Definition shutdown_acts : list (dact Z (option (list Z))) :=
  [DWatch; DPropose 1 7; CmdAct LToken; CmdAct LRead; CmdAct LHand; CmdAct (LAppend true false);
   SnapAct (LPropose (put_entry 3 (Some [5]))); SnapAct LToken; SnapAct LRead; SnapAct LHand; SnapAct (LAppend true false); DClose].
Lemma shutdown_machine_start : machine_start 0 0 8 8 "log" replica_log "log" replica_log shutdown_array shutdown_start.
Proof.
  split; [apply replica_log_start|]. split; [apply replica_log_start|]. exists (NewWatcherMux 4). eexists.
  split; [apply new_mux_ready; lia|]. split; [apply logged_new|]. split; [reflexivity|reflexivity].
Qed.
Lemma shutdown_runs : ∃ s, run_acts (careful_step array_marshal elements 0 0) shutdown_start shutdown_acts = Some s ∧
  mTerminate (dmon s) = true.
Proof.
  assert (H : match run_acts (careful_step array_marshal elements 0 0) shutdown_start shutdown_acts with
              | Some s => mTerminate (dmon s) | None => false end = true) by (vm_compute; reflexivity).
  destruct (run_acts _ _ _) as [s|]; [exists s; split; [reflexivity|exact H]|discriminate H].
Qed.
