(* ===== verification/Cluster.v ===== *)
(** * Cluster: internal/adapter/cluster (mux.go, topology.go, protocol.go, typed.go)

    The raw cluster sends each message of its sources to the peers its
    topology names and hands what it receives to a multiplexer; the typed
    cluster encodes and decodes around it.  The transport is the [Protocol]
    argument: what listening and dialling gave; JSON is an argument too.  What
    was written to the network is recorded in [written]. *)
From S2P Require Import Prelude Types WatcherMux.

(** ** topology.go *)

Record Node := { NodeID : uuid; Addr : list Z }.

(** The order a Go map is ranged over. *)
Definition node_order (order : gmap uuid Node → list (uuid * Node)) : Prop :=
  ∀ m, order m ≡ₚ map_to_list m.

(** [fullyConnectedTopology.NextPeers]. *)
Definition NextPeers (order : gmap uuid Node → list (uuid * Node)) (self : uuid) (nodes : gmap uuid Node) : list Node :=
  snd <$> filter (λ p, p.1 ≠ self) (order nodes).

Definition NewLeaderTopology : go unit := Panic Unimplemented.
Definition NewRingTopology : go unit := Panic Unimplemented.

(** ** protocol.go *)

(** The transport; a listener and a connection are their handles. *)
Record Protocol := { Listen : string → Z + error; Dial : list Z → Z + error }.
(** [net.ListenPacket] and [net.Dial]. *)
Record network := { ListenPacket : string → string → Z + error; net_Dial : string → list Z → Z + error }.
Definition NewUDPProtocol (n : network) : Protocol :=
  {| Listen addr := ListenPacket n "udp" addr; Dial addr := net_Dial n "udp" addr |}.
(** What [Run] and [getOrDialConn] ask of it. *)
Definition listen_error (p : Protocol) (listenAddr : string) : option error :=
  match Listen p listenAddr with inl _ => None | inr err => Some err end.
Definition dial_peer (p : Protocol) (peer : Node) : Z + error := Dial p (Addr peer).

(** ** mux.go *)

Record clusterMux := {
  nodeId : uuid;
  nodes : gmap uuid Node;
  conns : gmap uuid Z;              (* a connection is its handle *)
  sendSources : list Z;             (* channels, by handle *)
  recvMux : WatcherMux (list Z);
  listening : bool;
  cmRunning : bool;
  cmClosed : bool;
  cmDone : bool;
  cmTerminate : bool;
  written : list (Z * list Z)       (* connection and data of every conn.Write *)
}.

Definition NewMux (id : uuid) (mux : WatcherMux (list Z)) : clusterMux :=
  {| nodeId := id; nodes := ∅; conns := ∅; sendSources := []; recvMux := mux; listening := false;
     cmRunning := false; cmClosed := false; cmDone := false; cmTerminate := false; written := [] |}.

Definition cm_with (cm : clusterMux) (mux : WatcherMux (list Z)) (cs : gmap uuid Z) (src : list Z)
    (wr : list (Z * list Z)) : clusterMux :=
  {| nodeId := nodeId cm; nodes := nodes cm; conns := cs; sendSources := src; recvMux := mux;
     listening := listening cm; cmRunning := cmRunning cm; cmClosed := cmClosed cm; cmDone := cmDone cm;
     cmTerminate := cmTerminate cm; written := wr |}.

(** [listen_err] is the [listen_error] of the cluster's protocol. *)
Definition cm_Run (listen_err : option error) (cm : clusterMux) : clusterMux * option error :=
  if cmRunning cm then (cm, Some ErrAlreadyRunning)
  else if cmClosed cm then (cm, Some ErrCannotRunClosedRunnable)
  else match listen_err with
       | Some err => (cm, Some err)
       | None =>
           ({| nodeId := nodeId cm; nodes := nodes cm; conns := conns cm; sendSources := sendSources cm;
               recvMux := recvMux cm; listening := true; cmRunning := true; cmClosed := cmClosed cm;
               cmDone := cmDone cm; cmTerminate := cmTerminate cm; written := written cm |}, None)
       end.

Definition Send (cm : clusterMux) (ch : Z) : clusterMux * option error :=
  if cmRunning cm then (cm, Some ErrAlreadyRunning)
  else (cm_with cm (recvMux cm) (conns cm) (sendSources cm ++ [ch]) (written cm), None).

Definition Recv (cm : clusterMux) : go (clusterMux * Z) :=
  '(mux, id) ← Watch (recvMux cm) None;
  Done (cm_with cm mux (conns cm) (sendSources cm) (written cm), id).

Definition Join (cm : clusterMux) : clusterMux * option error := (cm, None).
Definition Leave (cm : clusterMux) : clusterMux * option error := (cm, None).
Definition ListNodes (order : gmap uuid Node → list (uuid * Node)) (cm : clusterMux) : list uuid :=
  fst <$> order (nodes cm).

(** One datagram read by [recvLoop]: a copy of its bytes is dispatched. *)
Definition recv_data (iter : gset Z → list Z) (pick_done reads : bool) (cm : clusterMux) (data : list Z) : go clusterMux :=
  mux ← DispatchFuncWithTimeout iter pick_done reads (recvMux cm) data;
  Done (cm_with cm mux (conns cm) (sendSources cm) (written cm)).

(** [getOrDialConn]: [dial] is the [dial_peer] of the cluster's protocol. *)
Definition getOrDialConn (dial : Node → Z + error) (cm : clusterMux) (peer : Node) : clusterMux * (Z + error) :=
  match conns cm !! NodeID peer with
  | Some conn => (cm, inl conn)
  | None =>
      match dial peer with
      | inr err => (cm, inr err)
      | inl conn => (cm_with cm (recvMux cm) (<[NodeID peer := conn]> (conns cm)) (sendSources cm) (written cm), inl conn)
      end
  end.

(** One message taken by [sendLoop]; a peer that cannot be dialled is skipped,
    the error of a write is only logged. *)
Definition send_data (order : gmap uuid Node → list (uuid * Node)) (dial : Node → Z + error) (cm : clusterMux)
    (data : list Z) : clusterMux :=
  foldl (λ cm peer,
      match getOrDialConn dial cm peer with
      | (cm, inr _) => cm
      | (cm, inl conn) => cm_with cm (recvMux cm) (conns cm) (sendSources cm) (written cm ++ [(conn, data)])
      end)
    cm (NextPeers order (nodeId cm) (nodes cm)).

(** Both loops after [terminate:], then [doneCh]. *)
Definition cm_terminate (iter : gset Z → list Z) (cm : clusterMux) : go clusterMux :=
  mux ← Close iter (recvMux cm);
  if cmDone cm then Panic CloseOfClosedChannel
  else Done {| nodeId := nodeId cm; nodes := nodes cm; conns := ∅; sendSources := sendSources cm; recvMux := mux;
               listening := false; cmRunning := cmRunning cm; cmClosed := cmClosed cm; cmDone := true;
               cmTerminate := cmTerminate cm; written := written cm |}.

(** [Close]: unlike the other components it looks at [closed] first. *)
Definition cm_Close (iter : gset Z → list Z) (cm : clusterMux) : go (clusterMux * option error) :=
  if cmClosed cm then Done (cm, Some ErrAlreadyClosed)
  else if negb (cmRunning cm) then Done (cm, Some ErrRunnableMustBeRunningToBeClosed)
  else if cmTerminate cm then Panic CloseOfClosedChannel
  else
    cm ← cm_terminate iter
           {| nodeId := nodeId cm; nodes := nodes cm; conns := conns cm; sendSources := sendSources cm;
              recvMux := recvMux cm; listening := listening cm; cmRunning := cmRunning cm; cmClosed := cmClosed cm;
              cmDone := cmDone cm; cmTerminate := true; written := written cm |};
    Done ({| nodeId := nodeId cm; nodes := nodes cm; conns := conns cm; sendSources := sendSources cm;
             recvMux := recvMux cm; listening := listening cm; cmRunning := false; cmClosed := true;
             cmDone := cmDone cm; cmTerminate := cmTerminate cm; written := written cm |}, None).

(** Everything that can happen to a raw cluster. *)
Inductive cm_step (iter : gset Z → list Z) : clusterMux → clusterMux → Prop :=
  | cs_run cm e : cm_step iter cm (cm_Run e cm).1
  | cs_send cm ch : cm_step iter cm (Send cm ch).1
  | cs_recv cm cm' id : Recv cm = Done (cm', id) → cm_step iter cm cm'
  | cs_join cm : cm_step iter cm (Join cm).1
  | cs_leave cm : cm_step iter cm (Leave cm).1
  | cs_data cm cm' p r d : cmRunning cm = true → recv_data iter p r cm d = Done cm' → cm_step iter cm cm'
  | cs_out cm order dial d : node_order order → cmRunning cm = true → cm_step iter cm (send_data order dial cm d)
  | cs_close cm cm' e : cm_Close iter cm = Done (cm', e) → cm_step iter cm cm'.

(** ** typed.go *)

Section typed.
Context {T : Type} (marshal : T → list Z + error) (unmarshal : list Z → T + error).

Record typedCluster := {
  raw : clusterMux;
  rawSendCh : Z;
  tRecvMux : WatcherMux T;
  tRunning : bool;
  tClosed : bool;
  tDone : bool;
  tTerminate : bool;
  rawRecv : option Z       (* the subscription behind rawRecvCancel *)
}.

Definition NewTyped (r : clusterMux) (ch : Z) (mux : WatcherMux T) : typedCluster :=
  {| raw := r; rawSendCh := ch; tRecvMux := mux; tRunning := false; tClosed := false; tDone := false;
     tTerminate := false; rawRecv := None |}.

Definition t_with (c : typedCluster) (r : clusterMux) (mux : WatcherMux T) : typedCluster :=
  {| raw := r; rawSendCh := rawSendCh c; tRecvMux := mux; tRunning := tRunning c; tClosed := tClosed c;
     tDone := tDone c; tTerminate := tTerminate c; rawRecv := rawRecv c |}.

Definition t_Run (c : typedCluster) : go (typedCluster * option error) :=
  if tRunning c then Done (c, Some ErrAlreadyRunning)
  else if tClosed c then Done (c, Some ErrCannotRunClosedRunnable)
  else
    let (r, err) := Send (raw c) (rawSendCh c) in
    match err with
    | Some err => Done (t_with c r (tRecvMux c), Some err)
    | None =>
        '(r, id) ← Recv r;
        Done ({| raw := r; rawSendCh := rawSendCh c; tRecvMux := tRecvMux c; tRunning := true; tClosed := tClosed c;
                 tDone := tDone c; tTerminate := tTerminate c; rawRecv := Some id |}, None)
    end.

(** One message taken by [decodeLoop]; what does not decode is skipped. *)
Definition decode_step (iter : gset Z → list Z) (pick_done reads : bool) (c : typedCluster) (data : list Z) : go typedCluster :=
  match unmarshal data with
  | inr _ => Done c
  | inl v => mux ← DispatchFuncWithTimeout iter pick_done reads (tRecvMux c) v; Done (t_with c (raw c) mux)
  end.

(** One value taken by the goroutine [Send] starts: what goes to [rawSendCh]. *)
Definition encode_step (v : T) : option (list Z) :=
  match marshal v with inl b => Some b | inr _ => None end.

Definition t_Recv (c : typedCluster) : go (typedCluster * Z) :=
  '(mux, id) ← Watch (tRecvMux c) None; Done (t_with c (raw c) mux, id).

(** [Join], [Leave] and [ListNodes] delegate to the raw cluster. *)
Definition t_Join (c : typedCluster) : typedCluster * option error :=
  let (r, err) := Join (raw c) in (t_with c r (tRecvMux c), err).
Definition t_Leave (c : typedCluster) : typedCluster * option error :=
  let (r, err) := Leave (raw c) in (t_with c r (tRecvMux c), err).
Definition t_ListNodes (order : gmap uuid Node → list (uuid * Node)) (c : typedCluster) : list uuid :=
  ListNodes order (raw c).

Definition t_Close (iter : gset Z → list Z) (c : typedCluster) : go (typedCluster * option error) :=
  if tClosed c then Done (c, Some ErrAlreadyClosed)
  else if negb (tRunning c) then Done (c, Some ErrRunnableMustBeRunningToBeClosed)
  else if tTerminate c then Panic CloseOfClosedChannel
  else
    r ← match rawRecv c with
        | None => Done (raw c)
        | Some id => mux ← cancel (recvMux (raw c)) id;
                     Done (cm_with (raw c) mux (conns (raw c)) (sendSources (raw c)) (written (raw c)))
        end;
    mux ← Close iter (tRecvMux c);
    if tDone c then Panic CloseOfClosedChannel
    else Done ({| raw := r; rawSendCh := rawSendCh c; tRecvMux := mux; tRunning := false; tClosed := true;
                  tDone := true; tTerminate := true; rawRecv := rawRecv c |}, None).
End typed.
Arguments typedCluster : clear implicits.

(** * Lemmas *)

Lemma elem_of_NextPeers order self ns n :
  node_order order → n ∈ NextPeers order self ns ↔ ∃ id, id ≠ self ∧ ns !! id = Some n.
Proof.
  intros Ho. unfold NextPeers. rewrite list_elem_of_fmap. split.
  - intros ([id n'] & -> & [Hne Hin]%list_elem_of_filter). exists id. split; [done|].
    rewrite (Ho ns) in Hin. by apply elem_of_map_to_list.
  - intros (id & Hne & Hn). exists (id, n). split; [done|]. apply list_elem_of_filter. split; [done|].
    rewrite (Ho ns). by apply elem_of_map_to_list.
Qed.
Lemma NextPeers_empty order self : node_order order → NextPeers order self ∅ = [].
Proof.
  intros Ho. unfold NextPeers. specialize (Ho ∅). rewrite map_to_list_empty in Ho.
  apply Permutation_nil_r in Ho. by rewrite Ho.
Qed.

Lemma peers_NoDup order self ns :
  node_order order → (∀ id n, ns !! id = Some n → NodeID n = id) → NoDup (NodeID <$> NextPeers order self ns).
Proof.
  intros Ho Hid. unfold NextPeers. rewrite <-list_fmap_compose.
  assert (Heq : ∀ l : list (uuid * Node), Forall (λ p, ns !! p.1 = Some p.2) l → (NodeID ∘ snd) <$> l = fst <$> l).
  { induction 1 as [|[i n] l Hp _ IH]; [done|]. rewrite !fmap_cons, IH. f_equal. by apply Hid. }
  rewrite Heq.
  - eapply sublist_NoDup; [|apply fmap_sublist, sublist_filter]. rewrite (Ho ns). apply NoDup_fst_map_to_list.
  - apply Forall_forall. intros [i n] [_ Hin]%list_elem_of_filter. rewrite (Ho ns) in Hin.
    by apply elem_of_map_to_list in Hin.
Qed.

Lemma omap_ext_in {A B} (f g : A → option B) (l : list A) : (∀ x, x ∈ l → f x = g x) → omap f l = omap g l.
Proof. intros H. induction l as [|x l IH]; [done|]. csimpl. rewrite H by set_solver. by rewrite IH by set_solver. Qed.

(** What one message adds to the network and to the connections. *)
Definition conn_of (dial : Node → Z + error) (cs : gmap uuid Z) (peer : Node) : option Z :=
  match cs !! NodeID peer with
  | Some c => Some c
  | None => match dial peer with inl c => Some c | inr _ => None end
  end.

Lemma send_loop_spec dial data peers cm :
  NoDup (NodeID <$> peers) →
  let cm' := foldl (λ cm peer,
      match getOrDialConn dial cm peer with
      | (cm, inr _) => cm
      | (cm, inl conn) => cm_with cm (recvMux cm) (conns cm) (sendSources cm) (written cm ++ [(conn, data)])
      end) cm peers in
  written cm' = written cm ++ ((λ c, (c, data)) <$> omap (conn_of dial (conns cm)) peers) ∧
  nodes cm' = nodes cm ∧
  (∀ id c, conns cm !! id = Some c → conns cm' !! id = Some c) ∧
  (∀ p, p ∈ peers → conns cm' !! NodeID p = conn_of dial (conns cm) p) ∧
  (∀ id, id ∉ NodeID <$> peers → conns cm' !! id = conns cm !! id).
Proof.
  revert cm. induction peers as [|p peers IH]; intros cm Hnd; simpl.
  { split_and!; try done; [by rewrite app_nil_r|set_solver]. }
  apply NoDup_cons in Hnd as [Hp Hnd].
  set (cm1 := match getOrDialConn dial cm p with
              | (cm, inl conn) => cm_with cm (recvMux cm) (conns cm) (sendSources cm) (written cm ++ [(conn, data)])
              | (cm, inr _) => cm end).
  assert (H1 : written cm1 = written cm ++ (match conn_of dial (conns cm) p with Some c => [(c, data)] | None => [] end) ∧
               nodes cm1 = nodes cm ∧ conns cm1 !! NodeID p = conn_of dial (conns cm) p ∧
               ∀ id, id ≠ NodeID p → conns cm1 !! id = conns cm !! id).
  { unfold cm1, getOrDialConn, conn_of. destruct (conns cm !! NodeID p) as [c|] eqn:Hc; simpl.
    - by rewrite Hc.
    - destruct (dial p) as [c|err]; simpl; [|by rewrite app_nil_r, Hc].
      rewrite lookup_insert_eq. split_and!; try done. intros id Hid. by rewrite lookup_insert_ne. }
  clearbody cm1. destruct H1 as (Hw & Hn & Hcp & Hco).
  destruct (IH cm1 Hnd) as (IHw & IHn & IHk & IHp & IHo).
  assert (Hsame : ∀ q, q ∈ peers → conn_of dial (conns cm1) q = conn_of dial (conns cm) q).
  { intros q Hq. unfold conn_of. rewrite Hco; [done|]. intros Heq. apply Hp. rewrite <-Heq.
    apply list_elem_of_fmap. eauto. }
  split_and!.
  - rewrite IHw, Hw, <-app_assoc. f_equal.
    assert (Homap : omap (conn_of dial (conns cm1)) peers = omap (conn_of dial (conns cm)) peers).
    { apply omap_ext_in. exact Hsame. }
    rewrite Homap. by destruct (conn_of dial (conns cm) p).
  - congruence.
  - intros id c Hid. apply IHk. destruct (decide (id = NodeID p)) as [->|Hne]; [|by rewrite Hco].
    rewrite Hcp. unfold conn_of. by rewrite Hid.
  - intros q [->|Hq]%elem_of_cons.
    + by rewrite IHo.
    + by rewrite IHp, Hsame.
  - intros id Hid. apply not_elem_of_cons in Hid as [Hne Hid]. rewrite IHo, Hco; done.
Qed.

(** ** Reachable raw clusters *)

Lemma send_data_nodes order dial cm d : nodes (send_data order dial cm d) = nodes cm.
Proof.
  unfold send_data. generalize (NextPeers order (nodeId cm) (nodes cm)). intros l. revert cm.
  induction l as [|p l IH]; intros cm; simpl; [done|]. rewrite IH. unfold getOrDialConn.
  destruct (conns cm !! NodeID p); simpl; [done|]. by destruct (dial p).
Qed.

Lemma cm_step_silent iter cm cm' :
  cm_step iter cm cm' → nodes cm = ∅ ∧ written cm = [] → nodes cm' = ∅ ∧ written cm' = [].
Proof.
  intros [cm0 e|cm0 ch|cm0 cm1 id HR|cm0|cm0|cm0 cm1 p r d _ HD|cm0 order dial d Ho _|cm0 cm1 e HC] [Hn Hw].
  - unfold cm_Run. destruct (cmRunning cm0), (cmClosed cm0), e; done.
  - unfold Send. by destruct (cmRunning cm0).
  - unfold Recv in HR. destruct (Watch _ _) as [[]| | |]; try done. by injection HR as <- _.
  - done.
  - done.
  - unfold recv_data in HD. destruct (DispatchFuncWithTimeout _ _ _ _ _); try done. by injection HD as <-.
  - split; [by rewrite send_data_nodes|]. unfold send_data. by rewrite Hn, NextPeers_empty.
  - unfold cm_Close in HC. destruct (cmClosed cm0); [by injection HC as <- _|].
    destruct (cmRunning cm0); simpl in HC; [|by injection HC as <- _].
    destruct (cmTerminate cm0); [done|]. unfold cm_terminate in HC.
    destruct (Close _ _); try done. cbn [mbind go_bind] in HC.
    simpl in HC. destruct (cmDone cm0); [done|]. by injection HC as <- _.
Qed.

(** * Properties *)

(** A message is sent to every peer once. For a node map keyed by node
    identifier and any order the map is ranged over, [sendLoop] writes the
    message exactly once to each node other than the sender that has a
    connection or can be dialled, to no other, keeps every existing
    connection, and opens one connection per newly dialled peer. *)
Theorem message_reaches_peers order dial cm data :
  node_order order → (∀ id n, nodes cm !! id = Some n → NodeID n = id) →
  let cm' := send_data order dial cm data in
  written cm' = written cm ++
    ((λ c, (c, data)) <$> omap (conn_of dial (conns cm)) (NextPeers order (nodeId cm) (nodes cm))) ∧
  (∀ n, n ∈ NextPeers order (nodeId cm) (nodes cm) ↔ NodeID n ≠ nodeId cm ∧ nodes cm !! NodeID n = Some n) ∧
  (∀ n, n ∈ NextPeers order (nodeId cm) (nodes cm) → conns cm' !! NodeID n = conn_of dial (conns cm) n) ∧
  (∀ id c, conns cm !! id = Some c → conns cm' !! id = Some c).
Proof.
  intros Ho Hid cm'.
  assert (Hnd : NoDup (NodeID <$> NextPeers order (nodeId cm) (nodes cm))).
  { by apply peers_NoDup. }
  destruct (send_loop_spec dial data _ cm Hnd) as (Hw & _ & Hk & Hp & _).
  split_and!; [done| |done|done].
  intros n. rewrite elem_of_NextPeers by done. split.
  - intros (id & Hne & Hn). by rewrite (Hid id n Hn).
  - intros [Hne Hn]. eauto.
Qed.

(** No raw cluster ever sends anything. Joining is not implemented and
    nothing else adds to the node map, so in every state any sequence of calls
    and messages can reach from [NewMux] the cluster knows no node and has
    written nothing to the network. *)
Theorem cluster_never_sends iter id mux cm :
  rtc (cm_step iter) (NewMux id mux) cm → nodes cm = ∅ ∧ written cm = [].
Proof.
  apply (rtc_ind_r (λ cm, nodes cm = ∅ ∧ written cm = [])); [done|].
  intros y z _ Hs. by eapply cm_step_silent.
Qed.

Definition node_a : Node := {| NodeID := replicate 16 1; Addr := [10; 0; 0; 1] |}.
Definition node_b : Node := {| NodeID := replicate 16 2; Addr := [10; 0; 0; 2] |}.
Definition two_nodes : clusterMux :=
  {| nodeId := replicate 16 1; nodes := {[ replicate 16 1 := node_a; replicate 16 2 := node_b ]}; conns := ∅;
     sendSources := [0]; recvMux := NewWatcherMux 4; listening := true; cmRunning := true; cmClosed := false;
     cmDone := false; cmTerminate := false; written := [] |}.
Lemma message_reaches_peers_witness :
  let cm' := send_data map_to_list (λ _, inl 5) two_nodes [7; 8] in
  written cm' = written two_nodes ++
    ((λ c, (c, [7; 8])) <$> omap (conn_of (λ _, inl 5) (conns two_nodes))
       (NextPeers map_to_list (nodeId two_nodes) (nodes two_nodes))) ∧
  (∀ n, n ∈ NextPeers map_to_list (nodeId two_nodes) (nodes two_nodes) ↔
     NodeID n ≠ nodeId two_nodes ∧ nodes two_nodes !! NodeID n = Some n) ∧
  (∀ n, n ∈ NextPeers map_to_list (nodeId two_nodes) (nodes two_nodes) →
     conns cm' !! NodeID n = conn_of (λ _, inl 5) (conns two_nodes) n) ∧
  (∀ id c, conns two_nodes !! id = Some c → conns cm' !! id = Some c).
Proof.
  apply (message_reaches_peers map_to_list (λ _, inl 5) two_nodes [7; 8]); [by intros m|].
  intros id n. simpl. rewrite lookup_insert_Some, lookup_singleton_Some. naive_solver.
Defined.

Lemma cluster_never_sends_witness :
  let cm := (cm_Run None (Send (NewMux [1] (NewWatcherMux 4)) 0).1).1 in nodes cm = ∅ ∧ written cm = [].
Proof.
  intros cm. apply (cluster_never_sends elements [1] (NewWatcherMux 4)).
  eapply rtc_l; [apply (cs_send _ _ 0)|]. eapply rtc_l; [apply (cs_run _ _ None)|]. apply rtc_refl.
Defined.
