(* ===== verification/ClusterLoops.v ===== *)
(** * ClusterLoops: the goroutines of a running clusterMux (cluster/mux.go)

    [Run] starts [recvLoop], [sendLoop] and a goroutine that waits for both;
    [sendLoop] starts one merge goroutine per registered source, which feed a
    single unbuffered channel, and one that closes this channel when they are
    gone.  A schedule interleaves their channel operations with producers
    that fill or close the sources, subscribers, and [Close].  The state of
    the cluster itself and what one message or datagram does to it are those
    of [Cluster]. *)
From S2P Require Import Prelude Types WatcherMux MuxStreams Cluster.

Definition recvBufSize : nat := Z.to_nat 65536.

(** A source: what producers have put in it that nobody received yet, whether
    it is closed, and everything ever put in it. *)
Record source := { pending : list (list Z); srcClosed : bool; produced : list (list Z) }.

(** Where a merge goroutine is: in its outer select, offering a message to
    [merged], or gone. *)
Inductive merge_at := MSelect | MHave (d : list Z) | MExit.
#[export] Instance merge_at_eq_dec : EqDecision merge_at.
Proof. solve_decision. Defined.
(** [sendLoop]: in its select, handling a message, or past [terminate:]. *)
Inductive send_at := SSelect | SHave (d : list Z) | SEnded.
(** [recvLoop]: at the top, in [ReadFrom], after an error other than a
    timeout, or past [terminate:]. *)
Inductive recv_at := RTop | RRead | RErr | REnded.

Record cstate := {
  cmux : clusterMux;
  srcs : gmap Z source;
  mergers : list (Z * merge_at);
  mergedC : bool;                     (* merged is closed *)
  slp : send_at;
  rlp : recv_at;
  forwarded : list (Z * list Z)       (* received from merged, with its source *)
}.

(** The goroutines [Run] starts. *)
Definition start_loops (cm : clusterMux) (chans : gmap Z source) : cstate :=
  {| cmux := cm; srcs := chans; mergers := (λ h, (h, MSelect)) <$> sendSources cm; mergedC := false;
     slp := SSelect; rlp := RTop; forwarded := [] |}.

Definition with_mux (s : cstate) (cm : clusterMux) (sp : send_at) (rp : recv_at) : cstate :=
  {| cmux := cm; srcs := srcs s; mergers := mergers s; mergedC := mergedC s; slp := sp; rlp := rp;
     forwarded := forwarded s |}.
Definition with_source (s : cstate) (h : Z) (c : source) : cstate :=
  {| cmux := cmux s; srcs := <[h := c]> (srcs s); mergers := mergers s; mergedC := mergedC s; slp := slp s;
     rlp := rlp s; forwarded := forwarded s |}.
Definition with_merger (s : cstate) (i : nat) (h : Z) (m : merge_at) (sp : send_at) (fw : list (Z * list Z)) : cstate :=
  {| cmux := cmux s; srcs := srcs s; mergers := <[i := (h, m)]> (mergers s); mergedC := mergedC s; slp := sp;
     rlp := rlp s; forwarded := forwarded s ++ fw |}.

(** The two flags the loops share. *)
Definition set_flags (cm : clusterMux) (listen term dn : bool) (cs : gmap uuid Z) (m : WatcherMux (list Z)) : clusterMux :=
  {| nodeId := nodeId cm; nodes := nodes cm; conns := cs; sendSources := sendSources cm; recvMux := m;
     listening := listen; cmRunning := cmRunning cm; cmClosed := cmClosed cm; cmDone := dn; cmTerminate := term;
     written := written cm |}.

Inductive cact :=
  | Produce (h : Z) (d : list Z)
  | CloseSource (h : Z)
  | Subscribe                                (* Recv *)
  | Unsubscribe (id : Z)                     (* the cancel function *)
  | CloseCall                                (* close(cm.terminateCh) in Close *)
  | MergeTake (i : nat)
  | MergeClosed (i : nat)
  | MergeTerminate (i : nat)
  | MergePut (i : nat)                       (* merged <- data, received by sendLoop *)
  | CloseMerged
  | SendWrite (order : gmap uuid Node → list (uuid * Node)) (dial : Node → Z + error)
  | SendTerminate
  | SendClosed                               (* merged is closed *)
  | RecvNoDeadline                           (* SetReadDeadline failed *)
  | RecvStart
  | RecvTimeout
  | RecvError
  | RecvErrorRetry
  | RecvData (pick_done reads : bool) (d : list Z)
  | RecvTerminate
  | AllDone.

Section loops.
Context (iter : gset Z → list Z).

Definition cstep (s : cstate) (a : cact) : option cstate :=
  let cm := cmux s in
  match a with
  | Produce h d =>
      c ← srcs s !! h;
      if srcClosed c then None
      else Some (with_source s h {| pending := pending c ++ [d]; srcClosed := false; produced := produced c ++ [d] |})
  | CloseSource h =>
      c ← srcs s !! h;
      if srcClosed c then None
      else Some (with_source s h {| pending := pending c; srcClosed := true; produced := produced c |})
  | Subscribe => match Recv cm with Done (cm', _) => Some (with_mux s cm' (slp s) (rlp s)) | _ => None end
  | Unsubscribe id =>
      match cancel (recvMux cm) id with
      | Done m => Some (with_mux s (set_flags cm (listening cm) (cmTerminate cm) (cmDone cm) (conns cm) m) (slp s) (rlp s))
      | _ => None
      end
  | CloseCall =>
      if cmTerminate cm then None
      else Some (with_mux s (set_flags cm (listening cm) true (cmDone cm) (conns cm) (recvMux cm)) (slp s) (rlp s))
  | MergeTake i =>
      '(h, m) ← mergers s !! i;
      c ← srcs s !! h;
      match m, pending c with
      | MSelect, d :: q =>
          Some (with_source (with_merger s i h (MHave d) (slp s) []) h
                  {| pending := q; srcClosed := srcClosed c; produced := produced c |})
      | _, _ => None
      end
  | MergeClosed i =>
      '(h, m) ← mergers s !! i;
      c ← srcs s !! h;
      match m, pending c with
      | MSelect, [] => if srcClosed c then Some (with_merger s i h MExit (slp s) []) else None
      | _, _ => None
      end
  | MergeTerminate i =>
      '(h, m) ← mergers s !! i;
      match m with
      | MSelect | MHave _ => if cmTerminate cm then Some (with_merger s i h MExit (slp s) []) else None
      | MExit => None
      end
  | MergePut i =>
      '(h, m) ← mergers s !! i;
      match m, slp s with
      | MHave d, SSelect => Some (with_merger s i h MSelect (SHave d) [(h, d)])
      | _, _ => None
      end
  | CloseMerged =>
      if decide (Forall (λ x, x.2 = MExit) (mergers s) ∧ mergedC s = false) then
        Some {| cmux := cm; srcs := srcs s; mergers := mergers s; mergedC := true; slp := slp s; rlp := rlp s;
                forwarded := forwarded s |}
      else None
  | SendWrite order dial =>
      match slp s with SHave d => Some (with_mux s (send_data order dial cm d) SSelect (rlp s)) | _ => None end
  | SendTerminate =>
      match slp s with
      | SSelect => if cmTerminate cm then
                     Some (with_mux s (set_flags cm (listening cm) (cmTerminate cm) (cmDone cm) ∅ (recvMux cm)) SEnded (rlp s))
                   else None
      | _ => None
      end
  | SendClosed =>
      match slp s with
      | SSelect => if mergedC s then
                     Some (with_mux s (set_flags cm (listening cm) (cmTerminate cm) (cmDone cm) ∅ (recvMux cm)) SEnded (rlp s))
                   else None
      | _ => None
      end
  | RecvNoDeadline => match rlp s with RTop => if cmTerminate cm then None else Some s | _ => None end
  | RecvStart =>
      match rlp s with RTop => if cmTerminate cm then None else Some (with_mux s cm (slp s) RRead) | _ => None end
  | RecvTimeout => match rlp s with RRead => Some (with_mux s cm (slp s) RTop) | _ => None end
  | RecvError => match rlp s with RRead => Some (with_mux s cm (slp s) RErr) | _ => None end
  | RecvErrorRetry =>
      match rlp s with RErr => if cmTerminate cm then None else Some (with_mux s cm (slp s) RTop) | _ => None end
  | RecvData p r d =>
      match rlp s with
      | RRead => match recv_data iter p r cm (take recvBufSize d) with
                 | Done cm' => Some (with_mux s cm' (slp s) RTop)
                 | _ => None
                 end
      | _ => None
      end
  | RecvTerminate =>
      match rlp s with
      | RTop | RErr =>
          if cmTerminate cm then
            match Close iter (recvMux cm) with
            | Done m => Some (with_mux s (set_flags cm false (cmTerminate cm) (cmDone cm) (conns cm) m) (slp s) REnded)
            | _ => None
            end
          else None
      | _ => None
      end
  | AllDone =>
      match slp s, rlp s with
      | SEnded, REnded =>
          if cmDone cm then None
          else Some (with_mux s (set_flags cm (listening cm) (cmTerminate cm) true (conns cm) (recvMux cm)) SEnded REnded)
      | _, _ => None
      end
  end.
End loops.

(** * Lemmas *)

(** ** What a connected peer receives *)

(** The data of a log that carries the tag [c]: a connection or a source. *)
Definition tagged (c : Z) (l : list (Z * list Z)) : list (list Z) := snd <$> filter (λ w, w.1 = c) l.
Lemma tagged_app c l1 l2 : tagged c (l1 ++ l2) = tagged c l1 ++ tagged c l2.
Proof. unfold tagged. by rewrite filter_app, fmap_app. Qed.

Lemma tagged_other h h' l : h' ≠ h → Forall (λ x, x.1 = h) l → tagged h' l = [].
Proof.
  intros Hne. unfold tagged. induction 1 as [|x l Hx _ IH]; [done|]. by rewrite filter_cons_False by congruence.
Qed.

(** Of a list of peers with distinct identifiers one has connection [c]: one
    copy of the message goes there. *)
Lemma tagged_once {A} (f : A → option Z) (key : A → uuid) id c d l :
  NoDup (key <$> l) → id ∈ key <$> l → (∀ x, x ∈ l → f x = Some c ↔ key x = id) →
  tagged c ((λ c, (c, d)) <$> omap f l) = [d].
Proof.
  induction l as [|x l IH]; [set_solver|]. rewrite fmap_cons, NoDup_cons. intros [Hx Hnd] Hin Hf.
  assert (Hno : key x = id → tagged c ((λ c, (c, d)) <$> omap f l) = []).
  { intros Hid. clear IH Hin. unfold tagged. induction l as [|y l IHl]; [done|]. csimpl.
    assert (f y ≠ Some c).
    { intros Hy. apply Hx. apply Hf in Hy; [|set_solver]. rewrite Hid, <-Hy. csimpl. left. }
    assert (IHl' : snd <$> filter (λ w : Z * list Z, w.1 = c) ((λ c, (c, d)) <$> omap f l) = []).
    { apply IHl; [by csimpl in Hx; set_solver|by csimpl in Hnd; apply NoDup_cons in Hnd as [_ ?]|set_solver]. }
    destruct (f y) as [c'|]; [|done]. csimpl. by rewrite filter_cons_False by (simpl; congruence). }
  csimpl. destruct (decide (key x = id)) as [Hid|Hid].
  - rewrite (proj2 (Hf x ltac:(set_solver)) Hid). csimpl. unfold tagged in *.
    rewrite filter_cons_True by done. csimpl. by rewrite (Hno Hid).
  - assert (Hfx : f x ≠ Some c) by (intros Hfx; apply Hf in Hfx; [done|set_solver]).
    assert (IH' : tagged c ((λ c, (c, d)) <$> omap f l) = [d]).
    { apply IH; [done|set_solver|set_solver]. }
    destruct (f x) as [c'|]; [|done]. csimpl. unfold tagged in *. by rewrite filter_cons_False by (simpl; congruence).
Qed.

(** What never changes while the loops run. *)
Lemma send_data_frame order dial cm d :
  let cm' := send_data order dial cm d in
  nodeId cm' = nodeId cm ∧ nodes cm' = nodes cm ∧ recvMux cm' = recvMux cm ∧ cmTerminate cm' = cmTerminate cm ∧
  cmDone cm' = cmDone cm ∧ listening cm' = listening cm.
Proof.
  unfold send_data. generalize (NextPeers order (nodeId cm) (nodes cm)). intros l. revert cm.
  induction l as [|p l IH]; intros cm; simpl; [done|].
  destruct (getOrDialConn dial cm p) as [cm1 [conn|err]] eqn:Hg.
  - destruct (IH (cm_with cm1 (recvMux cm1) (conns cm1) (sendSources cm1) (written cm1 ++ [(conn, d)])))
      as (-> & -> & -> & -> & -> & ->). simpl.
    unfold getOrDialConn in Hg. destruct (conns cm !! NodeID p); [by injection Hg as <- _|].
    destruct (dial p); [|done]. by injection Hg as <- _.
  - destruct (IH cm1) as (-> & -> & -> & -> & -> & ->).
    unfold getOrDialConn in Hg. destruct (conns cm !! NodeID p); [by injection Hg as <- _|].
    destruct (dial p); [done|]. by injection Hg as <- _.
Qed.

(** Connection [c] is the one of peer [id] and of no other. *)
Definition connected (id : uuid) (c : Z) (cm : clusterMux) : Prop :=
  conns cm !! id = Some c ∧ ∀ id', conns cm !! id' = Some c → id' = id.
(** Nodes are keyed by identifier, and [id] is one of the peers. *)
Definition is_peer (id : uuid) (cm : clusterMux) : Prop :=
  (∀ i n, nodes cm !! i = Some n → NodeID n = i) ∧ id ≠ nodeId cm ∧ is_Some (nodes cm !! id).

Lemma send_data_connected order dial id c cm d :
  node_order order → (∀ n, dial n ≠ inl c) → is_peer id cm → connected id c cm →
  connected id c (send_data order dial cm d) ∧
  tagged c (written (send_data order dial cm d)) = tagged c (written cm) ++ [d].
Proof.
  intros Ho Hd (Hkey & Hself & [n Hn]) [Hc Hu].
  pose proof (peers_NoDup order (nodeId cm) (nodes cm) Ho Hkey) as Hnd.
  destruct (send_loop_spec dial d _ cm Hnd) as (Hw & _ & Hk & Hp & Hout).
  assert (Hconn : ∀ p, conn_of dial (conns cm) p = Some c ↔ NodeID p = id).
  { intros p. unfold conn_of. destruct (conns cm !! NodeID p) as [c'|] eqn:E.
    - split; [intros [= ->]; by apply Hu|]. intros <-. congruence.
    - split; [destruct (dial p) eqn:E'; [intros [= ->]; by apply Hd in E'|done]|]. intros <-. congruence. }
  split; [split; [by apply Hk|]|].
  - intros id'. destruct (decide (id' ∈ NodeID <$> NextPeers order (nodeId cm) (nodes cm))) as [Hin|Hin].
    + apply list_elem_of_fmap in Hin as (p & -> & Hin). unfold send_data. rewrite Hp by done. apply Hconn.
    + unfold send_data. rewrite Hout by done. apply Hu.
  - unfold send_data. rewrite Hw, tagged_app. f_equal. apply (tagged_once _ NodeID id); [done| |intros; apply Hconn].
    apply list_elem_of_fmap. exists n. split; [by rewrite (Hkey id n)|]. apply elem_of_NextPeers; [done|]. eauto.
Qed.

(** ** The invariant of the fan-out *)

(** Dialling gives new connections, and maps are ranged over in some order. *)
Definition fair_dial (c : Z) (a : cact) : Prop :=
  match a with SendWrite order dial => node_order order ∧ ∀ n, dial n ≠ inl c | _ => True end.
Definition handling (sp : send_at) : list (list Z) := match sp with SHave d => [d] | _ => [] end.

Record stream (id : uuid) (c : Z) (cm0 : clusterMux) (s : cstate) : Prop := {
  st_peer : is_peer id (cmux s);
  st_conn : slp s ≠ SEnded → connected id c (cmux s);
  st_written : tagged c (written (cmux s)) ++ handling (slp s) = tagged c (written cm0) ++ (snd <$> forwarded s)
}.

(** Splits a step into its enabled cases. *)
Ltac cstep_cases H :=
  repeat match type of H with
  | (_ ≫= _) = Some _ => apply bind_Some in H as (? & ? & H)
  | context [match ?x with (_, _) => _ end] => destruct x; cbn beta iota in H
  | match ?x with _ => _ end = Some _ => destruct x eqn:?; try discriminate H
  end; try discriminate H; injection H as <-.

Section invariants.
Context (iter : gset Z → list Z) (Hiter : ∀ X, iter X ≡ₚ elements X).

Lemma recv_data_frame p r cm d cm' :
  recv_data iter p r cm d = Done cm' →
  nodeId cm' = nodeId cm ∧ nodes cm' = nodes cm ∧ conns cm' = conns cm ∧ written cm' = written cm ∧
  cmTerminate cm' = cmTerminate cm ∧ cmDone cm' = cmDone cm ∧ listening cm' = listening cm ∧
  DispatchFuncWithTimeout iter p r (recvMux cm) d = Done (recvMux cm').
Proof. unfold recv_data. destruct (DispatchFuncWithTimeout _ _ _ _ _); try done. by intros [= <-]. Qed.
Lemma Recv_frame cm cm' id :
  Recv cm = Done (cm', id) →
  nodeId cm' = nodeId cm ∧ nodes cm' = nodes cm ∧ conns cm' = conns cm ∧ written cm' = written cm ∧
  cmTerminate cm' = cmTerminate cm ∧ cmDone cm' = cmDone cm ∧ listening cm' = listening cm ∧
  Watch (recvMux cm) None = Done (recvMux cm', id).
Proof. unfold Recv. destruct (Watch _ _) as [[m i]| | |]; try done. by intros [= <- <-]. Qed.

Lemma is_peer_frame id cm cm' : nodeId cm' = nodeId cm → nodes cm' = nodes cm → is_peer id cm → is_peer id cm'.
Proof. unfold is_peer. by intros -> ->. Qed.
Lemma connected_frame id c cm cm' : conns cm' = conns cm → connected id c cm → connected id c cm'.
Proof. unfold connected. by intros ->. Qed.

Lemma cstep_stream id c cm0 s a s' :
  fair_dial c a → stream id c cm0 s → cstep iter s a = Some s' → stream id c cm0 s'.
Proof.
  intros Ha [Hp Hc Hw] Hs. destruct a; cbn [cstep] in Hs; cstep_cases Hs.
  all: try (split; simpl in *; [done|done|]; rewrite ?app_nil_r, ?fmap_app in *; done).
  - apply Recv_frame in Heqg as (Hid & Hn & Hco & Hwr & _). split; simpl; [by eapply is_peer_frame|
      by intros ?; eapply connected_frame; eauto|by rewrite Hwr].
  - split; simpl in *; [done|by intros _; apply Hc|]. rewrite app_nil_r in Hw.
    by rewrite Hw, fmap_app, app_assoc.
  - destruct Ha as [Ho Hd].
    destruct (send_data_connected order dial id c (cmux s) d Ho Hd Hp (Hc ltac:(done))) as [Hc' Hw'].
    destruct (send_data_frame order dial (cmux s) d) as (Hid & Hn & _).
    split; simpl in *; [by eapply is_peer_frame|done|]. by rewrite Hw', app_nil_r.
  - apply recv_data_frame in Heqg as (Hid & Hn & Hco & Hwr & _). split; simpl; [by eapply is_peer_frame|
      by intros ?; eapply connected_frame; eauto|by rewrite Hwr].
Qed.

(** ** The invariant of the fan-in *)

(** What the merge goroutine at [m] took from its source and did not pass on:
    nothing, the message it offers, or, gone after a termination, one it
    dropped. *)
Definition held (term : bool) (m : merge_at) (l : list (list Z)) : Prop :=
  match m with
  | MSelect => l = []
  | MHave d => l = [d]
  | MExit => (length l <= 1)%nat ∧ (term = false → l = [])
  end.
Definition lane (s : cstate) (h : Z) (m : merge_at) : Prop :=
  ∃ ch l, srcs s !! h = Some ch ∧ held (cmTerminate (cmux s)) m l ∧
    produced ch = tagged h (forwarded s) ++ l ++ pending ch.
Record lanes (hs : list Z) (s : cstate) : Prop := {
  ln_handles : fst <$> mergers s = hs;
  ln_lane : ∀ i h m, mergers s !! i = Some (h, m) → lane s h m;
  ln_from : Forall (λ x, x.1 ∈ hs) (forwarded s)
}.

Lemma held_term m l : held false m l → held true m l.
Proof. destruct m; simpl; naive_solver. Qed.
Lemma held_terminated t t' m l : (t = true → t' = true) → held t m l → held t' m l.
Proof. destruct t, t', m; simpl; naive_solver. Qed.
Lemma lane_mono s s' h m :
  srcs s' !! h = srcs s !! h → tagged h (forwarded s') = tagged h (forwarded s) →
  (cmTerminate (cmux s) = true → cmTerminate (cmux s') = true) → lane s h m → lane s' h m.
Proof.
  intros Hs Hf Ht (ch & l & Hch & Hl & Hp). exists ch, l. rewrite Hs, Hf.
  split_and!; [done|by eapply held_terminated|done].
Qed.
(** Steps that leave mergers and the fan-in alone. *)
Lemma lanes_frame hs s s' :
  srcs s' = srcs s → mergers s' = mergers s → forwarded s' = forwarded s →
  (cmTerminate (cmux s) = true → cmTerminate (cmux s') = true) → lanes hs s → lanes hs s'.
Proof.
  intros Hs Hm Hf Ht [Hh Hl Hfr]. split; rewrite ?Hm, ?Hf; [done| |done].
  intros i h m Hi. apply (lane_mono s); [by rewrite Hs|by rewrite Hf|done|eauto].
Qed.
(** A step of the merger at [i], on its source [h]. *)
Lemma lanes_merger hs s s' i h m m' :
  NoDup hs → lanes hs s → mergers s !! i = Some (h, m) → mergers s' = <[i := (h, m')]> (mergers s) →
  (∀ h', h' ≠ h → srcs s' !! h' = srcs s !! h') → (∃ f, forwarded s' = forwarded s ++ f ∧ Forall (λ x, x.1 = h) f) →
  cmTerminate (cmux s') = cmTerminate (cmux s) → (lane s h m → lane s' h m') → lanes hs s'.
Proof.
  intros Hnd [Hh Hl Hf] Hi Hm Hs (f & Hfw & Hall) Ht Hstep.
  assert (Hin : h ∈ hs) by (rewrite <-Hh; apply list_elem_of_fmap; exists (h, m); split; [done|by eapply list_elem_of_lookup_2]).
  split.
  - rewrite Hm, list_fmap_insert. simpl. rewrite Hh. apply list_insert_id. rewrite <-Hh, list_lookup_fmap, Hi. done.
  - intros j h' m1. rewrite Hm. intros [(-> & [= <- <-] & _)|[Hne Hj]]%list_lookup_insert_Some; [by eauto|].
    assert (h' ≠ h).
    { intros ->. apply Hne. eapply (NoDup_lookup (fst <$> mergers s)); [by rewrite Hh|by rewrite list_lookup_fmap, Hi|].
      by rewrite list_lookup_fmap, Hj. }
    apply (lane_mono s); [by apply Hs| |by rewrite Ht|by eauto].
    by rewrite Hfw, tagged_app, (tagged_other h h' f), app_nil_r.
  - rewrite Hfw, Forall_app. split; [done|]. eapply Forall_impl; [exact Hall|]. by intros x ->.
Qed.

Lemma tagged_snoc h d l : tagged h (l ++ [(h, d)]) = tagged h l ++ [d].
Proof. rewrite tagged_app. f_equal. unfold tagged. by rewrite filter_cons_True. Qed.

(** A producer adds [x] to source [h], or closes it. *)
Lemma lanes_source hs s h ch ch' x :
  srcs s !! h = Some ch → pending ch' = pending ch ++ x → produced ch' = produced ch ++ x →
  lanes hs s → lanes hs (with_source s h ch').
Proof.
  intros Hch Hpe Hpr [Hh Hl Hf]. split; simpl; [done| |done]. intros i h' m Hi.
  destruct (Hl i h' m Hi) as (c1 & l & Hc1 & Hheld & Hp). destruct (decide (h' = h)) as [->|Hne].
  - exists ch', l. simpl. rewrite lookup_insert_eq. split_and!; [done|done|].
    assert (c1 = ch) as -> by congruence. by rewrite Hpr, Hpe, Hp, <-!app_assoc.
  - exists c1, l. simpl. by rewrite lookup_insert_ne.
Qed.

Lemma cstep_lanes hs s a s' : NoDup hs → lanes hs s → cstep iter s a = Some s' → lanes hs s'.
Proof.
  intros Hnd Hl Hs. destruct a; cbn [cstep] in Hs; cstep_cases Hs.
  all: try (eapply lanes_frame; [..|exact Hl]; simpl; congruence).
  all: try (eapply (lanes_source _ _ _ _ _ []); simpl; rewrite ?app_nil_r; done).
  all: try (match goal with Hm : mergers _ !! _ = Some _ |- _ => eapply (lanes_merger _ _ _ _ _ _ _ Hnd Hl Hm) end;
            [done|by intros; simpl; rewrite ?lookup_insert_ne|eexists; split; [done|by repeat constructor]|done|];
            intros (ch & l' & Hch & Hheld & Hp); simpl in *).
  - by eapply lanes_source.
  - apply Recv_frame in Heqg as (_ & _ & _ & _ & Ht & _). eapply lanes_frame; [..|exact Hl]; simpl; congruence.
  - simplify_eq. eexists _, [_]. simpl. rewrite lookup_insert_eq. split_and!; [done|done|].
    by rewrite app_nil_r, Hp, Heql.
  - simplify_eq. exists x, []. simpl. rewrite Heql, !app_nil_r in *. split_and!; simpl; (done || lia).
  - simplify_eq. exists ch, []. simpl. rewrite !app_nil_r in *. split_and!; simpl; (done || lia).
  - simplify_eq. exists ch, [d]. simpl. rewrite !app_nil_r in *. split_and!; simpl; (done || lia || congruence).
  - simplify_eq. exists ch, []. simpl. rewrite tagged_snoc, <-app_assoc. done.
  - destruct (send_data_frame order dial (cmux s) d) as (_ & _ & _ & Ht & _).
    eapply lanes_frame; [..|exact Hl]; simpl; congruence.
  - apply recv_data_frame in Heqg as (_ & _ & _ & _ & Ht & _). eapply lanes_frame; [..|exact Hl]; simpl; congruence.
Qed.

Lemma start_lanes cm chans :
  (∀ h, h ∈ sendSources cm → ∃ ch, chans !! h = Some ch ∧ produced ch = pending ch) →
  lanes (sendSources cm) (start_loops cm chans).
Proof.
  intros Hch. split; simpl; [by rewrite <-list_fmap_compose, list_fmap_id| |done].
  intros i h m Hi. rewrite list_lookup_fmap in Hi. apply fmap_Some in Hi as (h' & Hh & [= -> ->]).
  destruct (Hch h') as (ch & Hc & Hp); [by eapply list_elem_of_lookup_2|]. by exists ch, [].
Qed.
Lemma start_stream id c cm chans : is_peer id cm → connected id c cm → stream id c cm (start_loops cm chans).
Proof. intros Hp Hc. by split; simpl; rewrite ?app_nil_r. Qed.

(** ** Shutdown *)

(** The steps of the cluster's own goroutines. *)
Definition loop_step (s : cstate) (a : cact) : option cstate :=
  match a with Produce _ _ | CloseSource _ | Subscribe | Unsubscribe _ | CloseCall => None | _ => cstep iter s a end.

Definition merge_weight (m : merge_at) : nat := match m with MSelect => 1 | MHave _ => 4 | MExit => 0 end.
Definition send_weight (m : send_at) : nat := match m with SSelect => 1 | SHave _ => 2 | SEnded => 0 end.
Definition recv_weight (r : recv_at) : nat := match r with RTop => 1 | RRead => 3 | RErr => 2 | REnded => 0 end.
Definition flag_weight (b : bool) : nat := if b then 0 else 1.
Definition backlog (m : gmap Z source) : nat := map_fold (λ _ c n, length (pending c) + n)%nat 0%nat m.
Definition lmeasure (s : cstate) : nat :=
  5 * backlog (srcs s) + sum_list_with (λ x, merge_weight x.2) (mergers s) + send_weight (slp s) +
  recv_weight (rlp s) + flag_weight (mergedC s) + flag_weight (cmDone (cmux s)).

Lemma backlog_insert m h c : m !! h = None → backlog (<[h := c]> m) = (length (pending c) + backlog m)%nat.
Proof. intros Hn. unfold backlog. rewrite map_fold_insert_L; [done|intros; lia|done]. Qed.
Lemma backlog_take m h c c' d :
  m !! h = Some c → pending c = d :: pending c' → backlog m = S (backlog (<[h := c']> m)).
Proof.
  intros Hm Hp. rewrite <-(insert_delete_id m h c) at 1 by done. rewrite <-(insert_delete_eq m h c').
  rewrite !backlog_insert by apply lookup_delete_eq. rewrite Hp. simpl. lia.
Qed.
Lemma sum_insert {A} (f : A → nat) l i x y :
  l !! i = Some x → (sum_list_with f (<[i := y]> l) + f x = sum_list_with f l + f y)%nat.
Proof.
  revert i. induction l as [|z l IH]; intros [|i] Hi; simplify_eq/=; [lia|]. specialize (IH i Hi). lia.
Qed.

(** Brings the weights of the state before a step into the goal. *)
Ltac weigh s :=
  unfold lmeasure; cbn [with_mux with_source with_merger cmux srcs mergers mergedC slp rlp set_flags cmDone cmTerminate];
  repeat match goal with
  | E : slp s = _ |- _ => rewrite E; clear E
  | E : rlp s = _ |- _ => rewrite E; clear E
  | E : _ ∧ mergedC s = false |- _ => rewrite (proj2 E); clear E
  | E : cmDone (cmux s) = _ |- _ => rewrite E; clear E
  | H : mergers s !! _ = Some _ |- context [<[?i := ?y]> (mergers s)] =>
      pose proof (sum_insert (λ x, merge_weight x.2) _ _ _ y H); clear H
  | H : recv_data _ _ _ _ _ = Done _ |- _ => apply recv_data_frame in H as (_ & _ & _ & _ & -> & -> & _)
  | |- context [send_data ?o ?f ?cm ?d] => destruct (send_data_frame o f cm d) as (_ & _ & _ & -> & -> & _)
  end.

Lemma loop_measure s a s' :
  cmTerminate (cmux s) = true → loop_step s a = Some s' →
  (lmeasure s' < lmeasure s)%nat ∧ cmTerminate (cmux s') = true.
Proof.
  intros Ht Hs. unfold loop_step in Hs. destruct a; try done; cbn [cstep] in Hs; rewrite ?Ht in Hs; cstep_cases Hs; weigh s.
  all: try (simpl in *; split; [lia|done]).
  - rewrite (backlog_take (srcs s) z x {| pending := l0; srcClosed := srcClosed x; produced := produced x |} l) by done.
    simpl in *. split; [lia|done].
  - rewrite (proj2 a). simpl. split; [lia|done].
Qed.

(** What the flags say about the loops. *)
Record control (s : cstate) : Prop := {
  co_mux : mux_inv (recvMux (cmux s));
  co_recv : doneClosed (recvMux (cmux s)) = true ↔ rlp s = REnded;
  co_listen : rlp s = REnded → listening (cmux s) = false;
  co_conns : slp s = SEnded → conns (cmux s) = ∅;
  co_done : cmDone (cmux s) = true → slp s = SEnded ∧ rlp s = REnded;
  co_merged : mergedC s = true → Forall (λ x, x.2 = MExit) (mergers s)
}.

Lemma merged_open s i h m :
  (mergedC s = true → Forall (λ x, x.2 = MExit) (mergers s)) → mergers s !! i = Some (h, m) → m ≠ MExit → mergedC s = false.
Proof.
  intros Hg Hi Hm. destruct (mergedC s); [|done]. exfalso. apply Hm.
  by apply (Forall_lookup_1 _ _ _ _ (Hg eq_refl) Hi).
Qed.

Lemma cstep_control s a s' : control s → cstep iter s a = Some s' → control s'.
Proof.
  intros [Hm Hr Hl Hc Hd Hg] Hs. destruct a; cbn [cstep] in Hs; cstep_cases Hs.
  all: try (split; simpl in *; try done; intuition congruence).
  all: try (match goal with Hi : mergers _ !! _ = Some _ |- _ => pose proof (merged_open _ _ _ _ Hg Hi ltac:(done)) end;
            split; simpl in *; try done; intuition congruence).
  - apply Recv_frame in Heqg as (_ & _ & Hco & _ & _ & Hdo & Hli & Hw).
    split; simpl; rewrite ?Hco, ?Hdo, ?Hli, ?(Watch_done _ _ _ _ Hw); try done. by eapply Watch_inv.
  - split; simpl; rewrite ?(cancel_done _ _ _ Heqg); try done. by eapply cancel_inv.
  - split; simpl; try done. intros _. apply a.
  - destruct (send_data_frame order dial (cmux s) d) as (_ & _ & Hm' & _ & Hd' & Hl').
    split; simpl; rewrite ?Hm', ?Hd', ?Hl'; intuition congruence.
  - apply recv_data_frame in Heqg as (_ & _ & Hco & _ & _ & Hdo & Hli & Hw).
    destruct (dispatch_inv _ _ _ _ _ _ Hm Hw) as [Hi Hdc].
    split; simpl; rewrite ?Hco, ?Hdo, ?Hli, ?Hdc; try done; intuition congruence.
  - pose proof (Close_inv _ _ _ Hiter Hm Heqg). pose proof (Close_done _ _ _ Heqg). split; simpl; intuition congruence.
  - pose proof (Close_inv _ _ _ Hiter Hm Heqg). pose proof (Close_done _ _ _ Heqg). split; simpl; intuition congruence.
Qed.

Lemma start_loops_control cm chans :
  mux_inv (recvMux cm) → doneClosed (recvMux cm) = false → cmDone cm = false → control (start_loops cm chans).
Proof. intros Hm Hd Hc. split; simpl; rewrite ?Hd, ?Hc; done. Qed.

(** Everything the shutdown leaves behind. *)
Definition shut_down (s : cstate) : Prop :=
  cmDone (cmux s) = true ∧ conns (cmux s) = ∅ ∧ listening (cmux s) = false ∧ doneClosed (recvMux (cmux s)) = true ∧
  mergedC s = true ∧ Forall (λ x, x.2 = MExit) (mergers s).

Lemma loop_progress s :
  control s → cmTerminate (cmux s) = true → shut_down s ∨ ∃ a s', loop_step s a = Some s'.
Proof.
  intros Hc Ht. destruct (decide (Forall (λ x, x.2 = MExit) (mergers s))) as [Hall|Hex].
  2: { apply not_Forall_Exists, Exists_exists in Hex as ([h m] & [i Hi]%list_elem_of_lookup & Hm); [|intros ?; apply _].
       right. exists (MergeTerminate i). simpl. rewrite Hi, Ht. simpl in *. destruct m; [eauto..|done]. }
  destruct (mergedC s) eqn:Hmc; [|by right; exists CloseMerged; simpl; rewrite Hmc, decide_True by done; eauto].
  destruct (slp s) eqn:Hs.
  { right. exists SendTerminate. simpl. rewrite Hs, Ht. eauto. }
  { right. exists (SendWrite map_to_list (λ _, inr ErrNotFound)). simpl. rewrite Hs. eauto. }
  assert (Hclose : rlp s ≠ REnded → ∃ m, Close iter (recvMux (cmux s)) = Done m).
  { intros Hne. destruct (Close_run iter (recvMux (cmux s)) Hiter (co_mux _ Hc)) as (m & Heq & _); [|eauto].
    destruct (doneClosed _) eqn:E; [|done]. by apply (co_recv _ Hc) in E. }
  destruct (rlp s) eqn:Hr.
  { destruct (Hclose ltac:(done)) as [m Hm]. right. exists RecvTerminate. simpl. rewrite Hr, Ht, Hm. eauto. }
  { right. exists RecvTimeout. simpl. rewrite Hr. eauto. }
  { destruct (Hclose ltac:(done)) as [m Hm]. right. exists RecvTerminate. simpl. rewrite Hr, Ht, Hm. eauto. }
  destruct (cmDone (cmux s)) eqn:Hd; [left|right; exists AllDone; simpl; rewrite Hs, Hr, Hd; eauto].
  split_and!; [done|by apply (co_conns _ Hc)|by apply (co_listen _ Hc)|by apply (co_recv _ Hc)|done|done].
Qed.
End invariants.

(** * Properties *)



(** Two sources and the cluster of two nodes, one of them connected. *)
Definition busy_cluster : clusterMux :=
  cm_with two_nodes (recvMux two_nodes) {[ replicate 16 2 := 5 ]} [0; 1] [].
Definition busy_sources : gmap Z source :=
  {[ 0 := {| pending := [[1]; [2]]; srcClosed := false; produced := [[1]; [2]] |};
     1 := {| pending := []; srcClosed := false; produced := [] |} ]}.
Definition busy_acts : list cact :=
  [MergeTake 0; Produce 1 [9]; MergeTake 1; MergePut 1; SendWrite map_to_list (λ _, inl 6); MergePut 0; RecvStart;
   SendWrite map_to_list (λ _, inr ErrNotFound); MergeTake 0; CloseCall].
Lemma busy_run : ∃ s, run_acts (cstep elements) (start_loops busy_cluster busy_sources) busy_acts = Some s ∧
  cmTerminate (cmux s) = true ∧ forwarded s = [(1, [9]); (0, [1])] ∧ written (cmux s) = [(5, [9]); (5, [1])].
Proof. eexists. split; [vm_compute; reflexivity|]. by vm_compute. Qed.

Lemma busy_cluster_peer : is_peer (replicate 16 2) busy_cluster ∧ connected (replicate 16 2) 5 busy_cluster.
Proof.
  split; [split_and!|split].
  - intros i n. simpl. rewrite lookup_insert_Some, lookup_singleton_Some. naive_solver.
  - done.
  - eexists. by vm_compute.
  - by vm_compute.
  - intros id'. simpl. by intros [<- _]%lookup_singleton_Some.
Qed.

