(* ===== verification/TypedLoops.v ===== *)
(** * TypedLoops: the goroutines of a running typedCluster (cluster/typed.go)

    [Run] starts [decodeLoop]; every call of [Send] starts a goroutine that
    encodes the values of one channel and offers them on [rawSendCh], which
    a merge goroutine of the raw cluster receives.  The state holds the raw
    cluster with its goroutines ([ClusterLoops]), so that a schedule
    interleaves both layers, the producers, the subscribers and [Close].  The
    last part puts two clusters at the two ends of a network that may lose
    datagrams. *)
From S2P Require Import Prelude Types GoNet Json Codec WatcherMux MuxStreams Cluster ClusterLoops.

Section typed_loops.
Context {T : Type} (marshal : T → list Z + error) (unmarshal : list Z → T + error).
Context (iter : gset Z → list Z).
(** The handle of [rawSendCh] and the subscription behind [rawRecvCh]. *)
Context (rawSend rawRecv : Z).

(** A channel handed to [Send]: waiting values, closed, everything ever put. *)
Record tsource := { tpending : list T; tclosed : bool; tproduced : list T }.

(** The goroutine of [Send]: in its outer select, offering the encoding of a
    value on [rawSendCh], or gone. *)
Inductive sender_at := TSelect | TOffer (v : T) (b : list Z) | TExit.
(** [decodeLoop]: in its select, handling a message, or past its deferred
    function. *)
Inductive decode_at := DSelect | DHave (d : list Z) | DEnded.

Record tstate := {
  net : cstate;                       (* the raw cluster *)
  senders : list (tsource * sender_at);
  tmux : WatcherMux T;                (* recvMux *)
  tterm : bool;                       (* terminateCh is closed *)
  tdone : bool;                       (* doneCh is closed *)
  dlp : decode_at;
  sent : list (nat * T);              (* handed to the raw cluster, by goroutine *)
  received : list (list Z);           (* dispatched by the raw cluster *)
  decoded : list T                    (* dispatched by decodeLoop *)
}.

(** After [Run] on a raw cluster that is running. *)
Definition start_typed (raw : cstate) (mux : WatcherMux T) : tstate :=
  {| net := raw; senders := []; tmux := mux; tterm := false; tdone := false; dlp := DSelect; sent := [];
     received := []; decoded := [] |}.

Definition with_net (s : tstate) (n : cstate) (rc : list (list Z)) (dl : decode_at) : tstate :=
  {| net := n; senders := senders s; tmux := tmux s; tterm := tterm s; tdone := tdone s; dlp := dl; sent := sent s;
     received := received s ++ rc; decoded := decoded s |}.
Definition with_sender (s : tstate) (i : nat) (x : tsource * sender_at) (n : cstate) (st : list (nat * T)) : tstate :=
  {| net := n; senders := <[i := x]> (senders s); tmux := tmux s; tterm := tterm s; tdone := tdone s; dlp := dlp s;
     sent := sent s ++ st; received := received s; decoded := decoded s |}.
Definition with_tmux (s : tstate) (m : WatcherMux T) (term dn : bool) (dl : decode_at) (dc : list T) : tstate :=
  {| net := net s; senders := senders s; tmux := m; tterm := term; tdone := dn; dlp := dl; sent := sent s;
     received := received s; decoded := decoded s ++ dc |}.
(** The raw cluster with another [recvMux]. *)
Definition net_mux (n : cstate) (m : WatcherMux (list Z)) : cstate :=
  let cm := cmux n in
  with_mux n (set_flags cm (listening cm) (cmTerminate cm) (cmDone cm) (conns cm) m) (slp n) (rlp n).

Inductive tact :=
  | TSend                              (* Send: a channel and a goroutine *)
  | TProduce (i : nat) (v : T)
  | TCloseSource (i : nat)
  | TSubscribe                         (* Recv *)
  | TUnsubscribe (id : Z)
  | TCloseCall                         (* close(c.terminateCh) in Close *)
  | TCancelRaw                         (* c.rawRecvCancel() in Close *)
  | TTake (i : nat)
  | TSourceClosed (i : nat)
  | TTerminate (i : nat)
  | THand (i k : nat)                  (* c.rawSendCh <- buf, received by merge goroutine k *)
  | DTake
  | DSourceClosed
  | DDecode (pick_done reads : bool)
  | DTerminate
  | RawAct (a : cact).

(** The steps of the raw cluster that are not this layer's: its [rawSendCh] is
    written by [THand] only and never closed, its subscription is cancelled by
    [TCancelRaw] only and its identifier not given again (that takes 2^64
    subscriptions).  A reader that catches up during a dispatch timeout is
    scheduled before the dispatch. *)
Definition raw_allowed (n : cstate) (a : cact) : bool :=
  match a with
  | Produce h _ | CloseSource h => bool_decide (h ≠ rawSend)
  | Unsubscribe id => bool_decide (id ≠ rawRecv)
  | Subscribe => bool_decide (watcherIdCount (recvMux (cmux n)) ≠ rawRecv)
  | RecvData _ reads _ => negb reads
  | _ => true
  end.
Definition raw_received (a : cact) : list (list Z) :=
  match a with RecvData _ _ d => [take recvBufSize d] | _ => [] end.

(** [decodeLoop]'s deferred function. *)
Definition decode_exit (s : tstate) : option tstate :=
  match Close iter (tmux s) with
  | Done m => if tdone s then None else Some (with_tmux s m (tterm s) true DEnded [])
  | _ => None
  end.

Definition tstep (s : tstate) (a : tact) : option tstate :=
  match a with
  | TSend =>
      Some {| net := net s; senders := senders s ++ [({| tpending := []; tclosed := false; tproduced := [] |}, TSelect)];
              tmux := tmux s; tterm := tterm s; tdone := tdone s; dlp := dlp s; sent := sent s; received := received s;
              decoded := decoded s |}
  | TProduce i v =>
      '(c, m) ← senders s !! i;
      if tclosed c then None
      else Some (with_sender s i ({| tpending := tpending c ++ [v]; tclosed := false; tproduced := tproduced c ++ [v] |}, m)
                   (net s) [])
  | TCloseSource i =>
      '(c, m) ← senders s !! i;
      if tclosed c then None
      else Some (with_sender s i ({| tpending := tpending c; tclosed := true; tproduced := tproduced c |}, m) (net s) [])
  | TSubscribe =>
      match Watch (tmux s) None with Done (m, _) => Some (with_tmux s m (tterm s) (tdone s) (dlp s) []) | _ => None end
  | TUnsubscribe id =>
      match cancel (tmux s) id with Done m => Some (with_tmux s m (tterm s) (tdone s) (dlp s) []) | _ => None end
  | TCloseCall => if tterm s then None else Some (with_tmux s (tmux s) true (tdone s) (dlp s) [])
  | TCancelRaw =>
      if tterm s then
        match cancel (recvMux (cmux (net s))) rawRecv with
        | Done m => Some (with_net s (net_mux (net s) m) [] (dlp s))
        | _ => None
        end
      else None
  | TTake i =>
      '(c, m) ← senders s !! i;
      match m, tpending c with
      | TSelect, v :: q =>
          let c' := {| tpending := q; tclosed := tclosed c; tproduced := tproduced c |} in
          Some (with_sender s i (c', match marshal v with inl b => TOffer v b | inr _ => TSelect end) (net s) [])
      | _, _ => None
      end
  | TSourceClosed i =>
      '(c, m) ← senders s !! i;
      match m, tpending c with
      | TSelect, [] => if tclosed c then Some (with_sender s i (c, TExit) (net s) []) else None
      | _, _ => None
      end
  | TTerminate i =>
      '(c, m) ← senders s !! i;
      match m with
      | TExit => None
      | _ => if tterm s then Some (with_sender s i (c, TExit) (net s) []) else None
      end
  | THand i k =>
      '(c, m) ← senders s !! i;
      '(h, _) ← mergers (net s) !! k;
      match m with
      | TOffer v b =>
          if decide (h = rawSend) then
            n ← run_acts (cstep iter) (net s) [Produce rawSend b; MergeTake k];
            Some (with_sender s i (c, TSelect) n [(i, v)])
          else None
      | _ => None
      end
  | DTake =>
      match dlp s, recv (recvMux (cmux (net s))) rawRecv with
      | DSelect, Done (m, Some d) => Some (with_net s (net_mux (net s) m) [] (DHave d))
      | _, _ => None
      end
  | DSourceClosed =>
      match dlp s, recv (recvMux (cmux (net s))) rawRecv with
      | DSelect, Done (_, None) => decode_exit s
      | _, _ => None
      end
  | DDecode p r =>
      match dlp s with
      | DHave d =>
          match unmarshal d with
          | inr _ => Some (with_tmux s (tmux s) (tterm s) (tdone s) DSelect [])
          | inl v =>
              match DispatchFuncWithTimeout iter p r (tmux s) v with
              | Done m => Some (with_tmux s m (tterm s) (tdone s) DSelect [v])
              | _ => None
              end
          end
      | _ => None
      end
  | DTerminate => match dlp s with DSelect => if tterm s then decode_exit s else None | _ => None end
  | RawAct a =>
      if raw_allowed (net s) a then n ← cstep iter (net s) a; Some (with_net s n (raw_received a) (dlp s)) else None
  end.
End typed_loops.
Arguments tstate : clear implicits.
Arguments tsource : clear implicits.
Arguments sender_at : clear implicits.
Arguments tact : clear implicits.

(** * Lemmas *)

(** Splits a step into its enabled cases. *)
Ltac tstep_cases H :=
  repeat match type of H with
  | (_ ≫= _) = Some _ => apply bind_Some in H as (? & ? & H)
  | context [match ?x with (_, _) => _ end] => destruct x; cbn beta iota in H
  | match ?x with _ => _ end = Some _ => destruct x eqn:?; try discriminate H
  end; try discriminate H; try injection H as <-.

Section invariants.
Context {T : Type} (marshal : T → list Z + error) (unmarshal : list Z → T + error).
Context (iter : gset Z → list Z) (rawSend rawRecv : Z).
Context (Hiter : ∀ X, iter X ≡ₚ elements X).
Implicit Types (s : tstate T) (n : cstate).

Abbreviation step := (tstep marshal unmarshal iter rawSend rawRecv).

(** What [marshal] and [unmarshal] make of a value and of a message. *)
Definition enc (v : T) : option (list Z) := match marshal v with inl b => Some b | inr _ => None end.
Definition dec (d : list Z) : option T := match unmarshal d with inl v => Some v | inr _ => None end.
Definition encodable (v : T) : bool := match enc v with Some _ => true | None => false end.

(** ** The raw cluster as this layer sees it *)

(** Steps of the raw cluster leave the empty channel [rawSendCh] alone. *)
Lemma raw_source n a n' ch :
  raw_allowed rawSend rawRecv n a = true → cstep iter n a = Some n' →
  srcs n !! rawSend = Some ch → pending ch = [] → srcs n' !! rawSend = Some ch.
Proof.
  intros Ha Hs Hch Hp.
  destruct a; cbn [cstep] in Hs; cstep_cases Hs; simpl in *; try done;
    repeat match goal with
    | H : bool_decide _ = true |- _ => apply bool_decide_eq_true in H
    | |- <[?h := _]> _ !! _ = _ => rewrite lookup_insert_ne; [done|]
    end; try done; intros ->; simplify_eq; congruence.
Qed.

(** A value handed over goes through the channel at once. *)
Lemma hand_spec n b k n' ch h m :
  run_acts (cstep iter) n [Produce rawSend b; MergeTake k] = Some n' → mergers n !! k = Some (h, m) → h = rawSend →
  srcs n !! rawSend = Some ch → pending ch = [] →
  srcs n' !! rawSend = Some {| pending := []; srcClosed := srcClosed ch; produced := produced ch ++ [b] |} ∧
  cmux n' = cmux n ∧ forwarded n' = forwarded n.
Proof.
  intros Hr Hk -> Hch Hp. cbn [run_acts] in Hr. apply bind_Some in Hr as (n1 & H1 & Hr).
  apply bind_Some in Hr as (n2 & H2 & [= ->]).
  cbn [cstep] in H1. rewrite Hch in H1. cbn [mbind option_bind] in H1. destruct (srcClosed ch) eqn:Hc; [done|]. injection H1 as <-.
  cbn [cstep with_source mergers srcs] in H2. rewrite Hk in H2. cbn [mbind option_bind] in H2.
  rewrite lookup_insert_eq in H2. cbn [mbind option_bind] in H2. destruct m; try done.
  cbn [pending] in H2. rewrite Hp in H2. cbn [app] in H2. injection H2 as <-. simpl.
  rewrite lookup_insert_eq, app_nil_r. done.
Qed.

(** Steps of the raw cluster only ever add to the subscription. *)
Lemma raw_stream n a n' w :
  raw_allowed rawSend rawRecv n a = true → cstep iter n a = Some n' → heap (recvMux (cmux n)) !! rawRecv = Some w →
  ∃ w', heap (recvMux (cmux n')) !! rawRecv = Some w' ∧ got w' = got w ∧
    (buf w' = buf w ∨ buf w' = buf w ++ raw_received a).
Proof using Hiter.
  intros Ha Hs Hw.
  assert (Hkeep : recvMux (cmux n') = recvMux (cmux n) → ∃ w', heap (recvMux (cmux n')) !! rawRecv = Some w' ∧ got w' = got w ∧
    (buf w' = buf w ∨ buf w' = buf w ++ raw_received a)) by (intros ->; eauto).
  assert (Hsame : (∃ w', heap (recvMux (cmux n')) !! rawRecv = Some w' ∧ same_stream w w') →
    ∃ w', heap (recvMux (cmux n')) !! rawRecv = Some w' ∧ got w' = got w ∧ (buf w' = buf w ∨ buf w' = buf w ++ raw_received a)).
  { intros (w' & ? & ? & ?). eauto 6. }
  destruct a; cbn [cstep] in Hs; cstep_cases Hs; try (by apply Hkeep).
  - apply Recv_frame in Heqg as (_ & _ & _ & _ & _ & _ & _ & Hwt). simpl in Ha. apply bool_decide_eq_true in Ha.
    apply Hsame. by eapply watch_stream.
  - apply Hsame. simpl. by eapply cancel_stream.
  - apply Hkeep. simpl. by destruct (send_data_frame order dial (cmux n) d) as (_ & _ & -> & _).
  - apply recv_data_frame in Heqg as (_ & _ & _ & _ & _ & _ & _ & Hd). destruct reads; [done|]. simpl.
    destruct (dispatch_stream _ _ _ _ _ _ _ Hiter Hd Hw) as (w' & ? & ? & ?). eauto.
  - apply Hsame. simpl. by eapply close_stream.
  - apply Hsame. simpl. by eapply close_stream.
Qed.

(** ** The senders *)

(** What goroutine [i] handed over. *)
Definition of_sender (i : nat) (l : list (nat * T)) : list T := snd <$> filter (λ x, x.1 = i) l.
Lemma of_sender_app i l1 l2 : of_sender i (l1 ++ l2) = of_sender i l1 ++ of_sender i l2.
Proof. unfold of_sender. by rewrite filter_app, fmap_app. Qed.
Lemma of_sender_one i v : of_sender i [(i, v)] = [v].
Proof. unfold of_sender. by rewrite filter_cons_True. Qed.
Lemma of_sender_other i j v : i ≠ j → of_sender i [(j, v)] = [].
Proof. intros. unfold of_sender. by rewrite filter_cons_False. Qed.

Lemma of_sender_none i l : Forall (λ x, x.1 ≠ i) l → of_sender i l = [].
Proof. unfold of_sender. induction 1 as [|x l Hx _ IH]; [done|]. by rewrite filter_cons_False. Qed.

(** What a goroutine took and did not hand over: nothing, the value it
    offers, or, after a termination, one it dropped. *)
Definition offered (term : bool) (m : sender_at T) (l : list T) : Prop :=
  match m with
  | TSelect => l = []
  | TOffer v b => l = [v] ∧ marshal v = inl b
  | TExit => (length l <= 1)%nat ∧ (term = false → l = [])
  end.
Definition sender_ok s (i : nat) (x : tsource T * sender_at T) : Prop :=
  ∃ taken l, tproduced x.1 = taken ++ tpending x.1 ∧ filter encodable taken = of_sender i (sent s) ++ l ∧ offered (tterm s) x.2 l.

Record typed_ok s : Prop := {
  ty_senders : ∀ i x, senders s !! i = Some x → sender_ok s i x;
  ty_from : Forall (λ x, (x.1 < length (senders s))%nat) (sent s);
  ty_raw : ∃ ch, srcs (net s) !! rawSend = Some ch ∧ pending ch = [] ∧ Some <$> produced ch = (λ x, enc x.2) <$> sent s
}.

Lemma offered_mono t t' m l : (t = true → t' = true) → offered t m l → offered t' m l.
Proof. destruct t, t', m; simpl; naive_solver. Qed.
(** Steps that leave the senders and what they handed over alone. *)
Lemma typed_frame s s' :
  senders s' = senders s → sent s' = sent s → (tterm s = true → tterm s' = true) →
  srcs (net s') !! rawSend = srcs (net s) !! rawSend → typed_ok s → typed_ok s'.
Proof.
  intros Hs Ht Htm Hr [Hse Hf Hra]. split; rewrite ?Hs, ?Ht, ?Hr; [|done|done].
  intros i x Hi. destruct (Hse i x Hi) as (tk & l & H1 & H2 & H3). exists tk, l. rewrite Ht.
  split_and!; [done|done|by eapply offered_mono].
Qed.
(** A step of the goroutine or channel [i] that hands nothing over. *)
Lemma typed_sender s i x x' :
  senders s !! i = Some x → (sender_ok s i x → sender_ok s i x') → typed_ok s →
  typed_ok (with_sender s i x' (net s) []).
Proof.
  intros Hi Hx [Hse Hf Hra]. split; simpl; rewrite ?app_nil_r, ?length_insert; [|done|done].
  intros j y Hj. assert (Hok : sender_ok s j y).
  { apply list_lookup_insert_Some in Hj as [(-> & -> & _)|[_ Hj]]; eauto. }
  destruct Hok as (tk & l & H1 & H2 & H3). exists tk, l. simpl. by rewrite app_nil_r.
Qed.

Lemma filter_encodable_snoc l v : filter encodable (l ++ [v]) = filter encodable l ++ (if encodable v then [v] else []).
Proof.
  rewrite filter_app. f_equal. destruct (encodable v) eqn:E.
  - rewrite filter_cons_True; [done|]. apply Is_true_true. exact E.
  - rewrite filter_cons_False; [done|]. intros H%Is_true_true. congruence.
Qed.

Lemma decode_exit_frame s s' : decode_exit iter s = Some s' →
  senders s' = senders s ∧ sent s' = sent s ∧ tterm s' = tterm s ∧ net s' = net s ∧ dlp s' = DEnded ∧ tdone s' = true ∧
  tdone s = false ∧ Close iter (tmux s) = Done (tmux s') ∧ received s' = received s ∧ decoded s' = decoded s.
Proof.
  unfold decode_exit. destruct (Close iter (tmux s)); try done. destruct (tdone s); [done|]. intros [= <-]. simpl.
  by rewrite app_nil_r.
Qed.

Lemma tstep_typed s a s' : typed_ok s → step s a = Some s' → typed_ok s'.
Proof.
  intros Hok Hs. destruct a; cbn [tstep] in Hs; tstep_cases Hs.
  - (* TSend *)
    destruct Hok as [Hse Hf Hra]. split; simpl; [|eapply Forall_impl; [exact Hf|]; intros x; rewrite length_app; simpl; lia|done].
    intros j x Hj. apply lookup_app_Some in Hj as [Hj|[Hl Hj]].
    + destruct (Hse j x Hj) as (tk & l & ?). by exists tk, l.
    + apply list_lookup_singleton_Some in Hj as [Hj <-]. exists [], []. simpl. rewrite app_nil_r. split_and!; [done| |done].
      symmetry. apply of_sender_none. eapply Forall_impl; [exact Hf|]. intros y Hy. simpl in *. lia.
  - (* TProduce *)
    eapply typed_sender; [done| |done]. intros (tk & l & H1 & H2 & H3). exists tk, l. simpl in *.
    split_and!; [by rewrite app_assoc, <-H1|done|done].
  - (* TCloseSource *)
    eapply typed_sender; [done| |done]. intros (tk & l & H1 & H2 & H3). by exists tk, l.
  - by eapply typed_frame; [..|exact Hok].
  - by eapply typed_frame; [..|exact Hok].
  - by eapply typed_frame; [..|exact Hok].
  - by eapply typed_frame; [..|exact Hok].
  - (* TTake *)
    eapply typed_sender; [done| |done]. intros (tk & l' & H1 & H2 & H3). simpl in *. subst l'.
    exists (tk ++ [t0]). destruct (marshal t0) as [b|err] eqn:Em;
      [assert (He : encodable t0 = true) by (unfold encodable, enc; by rewrite Em)
      |assert (He : encodable t0 = false) by (unfold encodable, enc; by rewrite Em)].
    + exists [t0]. simpl. rewrite filter_encodable_snoc, He.
      split_and!; [by rewrite <-app_assoc, H1, Heql|by rewrite H2, app_nil_r|done|done].
    + exists []. simpl. rewrite filter_encodable_snoc, He.
      split_and!; [by rewrite <-app_assoc, H1, Heql|by rewrite H2, app_nil_r|done].
  - (* TSourceClosed *)
    eapply typed_sender; [done| |done]. intros (tk & l' & H1 & H2 & H3). simpl in *. subst l'. exists tk, []. simpl.
    split_and!; [done|done|lia|done].
  - (* TTerminate, waiting *)
    eapply typed_sender; [done| |done]. intros (tk & l' & H1 & H2 & H3). simpl in *. subst l'. exists tk, []. simpl.
    split_and!; [done|done|lia|done].
  - (* TTerminate, offering *)
    eapply typed_sender; [done| |done]. intros (tk & l' & H1 & H2 & [-> H3]). simpl in *. exists tk, [v]. simpl.
    split_and!; [done|done|lia|congruence].
  - (* THand *)
    destruct Hok as [Hse Hf (ch & Hch & Hp & Hpr)].
    match goal with H : run_acts _ _ _ = Some _ |- _ => rename H into Hrun end.
    match goal with H : mergers _ !! _ = Some _ |- _ => rename H into Hk end.
    match goal with H : senders _ !! _ = Some _ |- _ => rename H into Hi end.
    destruct (hand_spec _ _ _ _ _ _ _ Hrun Hk ltac:(done) Hch Hp) as (Hch' & _ & _).
    destruct (Hse i _ Hi) as (tk & l & H1 & H2 & [-> Hm]). simpl in *.
    split; simpl; rewrite ?length_insert.
    + intros j y [(<- & <- & _)|[Hne Hj]]%list_lookup_insert_Some.
      * exists tk, []. simpl. rewrite of_sender_app, of_sender_one, app_nil_r. by split_and!.
      * destruct (Hse j y Hj) as (tk' & l' & H1' & H2' & H3'). exists tk', l'. simpl.
        rewrite of_sender_app, of_sender_other, app_nil_r by done. by split_and!.
    + apply Forall_app_2; [done|]. apply Forall_singleton. by eapply lookup_lt_Some.
    + eexists. split; [exact Hch'|]. simpl. split; [done|]. rewrite !fmap_app, Hpr. simpl. unfold enc. by rewrite Hm.
  - by eapply typed_frame; [..|exact Hok].
  - (* DSourceClosed *)
    apply decode_exit_frame in Hs as (? & ? & Ht & Hn & _). eapply typed_frame; [..|exact Hok]; congruence.
  - by eapply typed_frame; [..|exact Hok].
  - by eapply typed_frame; [..|exact Hok].
  - apply decode_exit_frame in Hs as (? & ? & Ht & Hn & _). eapply typed_frame; [..|exact Hok]; congruence.
  - (* RawAct *)
    destruct (ty_raw _ Hok) as (ch & Hch & Hp & _). eapply typed_frame; [..|exact Hok]; try done. simpl. rewrite Hch.
    by eapply raw_source.
Qed.

(** ** The decoder *)

Definition in_hand (dl : decode_at) : list (list Z) := match dl with DHave d => [d] | _ => [] end.
Record decode_ok s : Prop := {
  do_stream : ∃ w processed, heap (recvMux (cmux (net s))) !! rawRecv = Some w ∧ hist w `sublist_of` received s ∧
    got w = processed ++ in_hand (dlp s) ∧ decoded s = omap dec processed;
  do_logged : logged (tmux s) (decoded s)
}.

Lemma omap_sublist {A B} (f : A → option B) l1 l2 : l1 `sublist_of` l2 → omap f l1 `sublist_of` omap f l2.
Proof.
  induction 1 as [|x l1 l2 _ IH|x l1 l2 _ IH]; [done|..]; csimpl; destruct (f x); try done.
  - by constructor.
  - by constructor.
Qed.

(** Steps that leave the subscription and the loop alone. *)
Lemma decode_frame s s' :
  recvMux (cmux (net s')) = recvMux (cmux (net s)) → received s' = received s → dlp s' = dlp s → decoded s' = decoded s →
  (logged (tmux s) (decoded s) → logged (tmux s') (decoded s)) → decode_ok s → decode_ok s'.
Proof. intros Hm Hr Hd Hde Hl [Hs Ho]. split; rewrite ?Hm, ?Hr, ?Hd, ?Hde; auto. Qed.

Lemma decode_exit_ok s s' : decode_ok s → dlp s = DSelect → decode_exit iter s = Some s' → decode_ok s'.
Proof.
  intros [(w & pr & Hw & Hh & Hg & Hd) Hl] Hdl Hx.
  destruct (decode_exit_frame _ _ Hx) as (_ & _ & _ & Hn & Hdl' & _ & _ & Hcl & Hr & Hde).
  split; [|by rewrite Hde; eapply logged_close].
  exists w, pr. rewrite Hn, Hr, Hdl', Hde. rewrite Hdl in Hg. done.
Qed.

Lemma tstep_decode s a s' : decode_ok s → step s a = Some s' → decode_ok s'.
Proof using Hiter.
  intros Hok Hs. destruct a; cbn [tstep] in Hs; tstep_cases Hs.
  all: try (by eapply decode_frame; [..|exact Hok]; simpl; rewrite ?app_nil_r).
  - eapply decode_frame; [..|exact Hok]; simpl; rewrite ?app_nil_r; try done. intros. by eapply logged_watch.
  - eapply decode_frame; [..|exact Hok]; simpl; rewrite ?app_nil_r; try done. intros. by eapply logged_cancel.
  - (* TCancelRaw *)
    destruct Hok as [(wa & pr & Hw & Hh & Hg & Hd) Hl]. split; [|done]. simpl.
    destruct (cancel_stream _ _ _ _ _ Heqg Hw) as (wb & Hw' & Hg' & Hb'). exists wb, pr.
    unfold hist in *. rewrite app_nil_r, Hg', Hb'. done.
  - (* THand *)
    match goal with H : run_acts _ _ _ = Some _ |- _ => rename H into Hrun end.
    match goal with H : mergers _ !! _ = Some _ |- _ => rename H into Hk end.
    eapply decode_frame; [..|exact Hok]; simpl; try done. f_equal.
    cbn [run_acts] in Hrun. apply bind_Some in Hrun as (n1 & H1 & Hrun). apply bind_Some in Hrun as (n2 & H2 & [= <-]).
    cbn [cstep] in H1, H2. tstep_cases H1. tstep_cases H2. done.
  - (* DTake *)
    destruct Hok as [(wa & pr & Hw & Hh & Hg & Hd) Hl]. split; [|done]. simpl. rewrite app_nil_r.
    apply recv_some in Heqg as (w0 & wb & Hw0 & -> & Hb & Hg' & Hh' & _). assert (w0 = wa) as -> by congruence.
    exists wb, pr. simpl. rewrite lookup_insert_eq, Hh', Hg', Hg, Heqd. simpl. by rewrite app_nil_r.
  - by eapply decode_exit_ok.
  - (* DDecode, decoded *)
    destruct Hok as [(wa & pr & Hw & Hh & Hg & Hd) Hl]. split; simpl.
    + exists wa, (pr ++ [d]). rewrite Heqd in Hg. simpl in *. rewrite app_nil_r, Hg, Hd, omap_app. csimpl.
      unfold dec at 3. by rewrite Heqs0.
    + by eapply logged_dispatch.
  - (* DDecode, refused *)
    destruct Hok as [(wa & pr & Hw & Hh & Hg & Hd) Hl]. split; simpl; [|by rewrite app_nil_r].
    exists wa, (pr ++ [d]). rewrite Heqd in Hg. simpl in *. rewrite !app_nil_r, Hg, Hd, omap_app. csimpl.
    unfold dec at 3. by rewrite Heqs0, app_nil_r.
  - by eapply decode_exit_ok.
  - (* RawAct *)
    destruct Hok as [(wa & pr & Hw & Hh & Hg & Hd) Hl]. split; [|done]. simpl.
    destruct (raw_stream _ _ _ _ ltac:(done) ltac:(done) Hw) as (wb & Hw' & Hg' & Hb').
    exists wb, pr. rewrite Hg'. split_and!; [done| |done|done]. unfold hist in *. rewrite Hg'.
    destruct Hb' as [-> | ->]; [by apply sublist_inserts_r|]. rewrite app_assoc. by apply sublist_app.
Qed.

(** ** The raw cluster's own invariants *)

Lemma tstep_lanes hs s a s' : NoDup hs → lanes hs (net s) → step s a = Some s' → lanes hs (net s').
Proof.
  intros Hnd Hl Hs. destruct a; cbn [tstep] in Hs; tstep_cases Hs; try done;
    try (apply decode_exit_frame in Hs as (_ & _ & _ & -> & _); done); simpl.
  - eapply lanes_frame; [..|exact Hl]; done.
  - eapply (run_acts_inv _ (lanes hs)); [|exact Hl|done]. intros. by eapply cstep_lanes.
  - eapply lanes_frame; [..|exact Hl]; done.
  - by eapply cstep_lanes.
Qed.

Definition fair_tact (c : Z) (a : tact T) : Prop := match a with RawAct a => fair_dial c a | _ => True end.
Lemma net_mux_stream id c cm n m : stream id c cm n → stream id c cm (net_mux n m).
Proof. intros [Hp Hc Hw]. by split. Qed.
Lemma tstep_stream id c cm s a s' :
  fair_tact c a → stream id c cm (net s) → step s a = Some s' → stream id c cm (net s').
Proof.
  intros Ha Hl Hs. destruct a; cbn [tstep] in Hs; tstep_cases Hs; try done;
    try (apply decode_exit_frame in Hs as (_ & _ & _ & -> & _); done); simpl.
  - by apply net_mux_stream.
  - eapply (run_acts_inv_in _ (stream id c cm) (fair_dial c)); [| |exact Hl|done]; [|by repeat constructor].
    intros. by eapply cstep_stream.
  - by apply net_mux_stream.
  - by eapply cstep_stream.
Qed.
End invariants.

(** ** Shutdown *)

Section shutdown.
Context {T : Type} (marshal : T → list Z + error) (unmarshal : list Z → T + error).
Context (iter : gset Z → list Z) (rawSend rawRecv : Z) (Hiter : ∀ X, iter X ≡ₚ elements X).
Implicit Types (s : tstate T).

(** The steps of the typed cluster's own goroutines. *)
Definition typed_loop_step s (a : tact T) : option (tstate T) :=
  match a with
  | TTake _ | TSourceClosed _ | TTerminate _ | THand _ _ | DTake | DSourceClosed | DDecode _ _ | DTerminate =>
      tstep marshal unmarshal iter rawSend rawRecv s a
  | _ => None
  end.

Definition sender_weight (m : sender_at T) : nat := match m with TSelect => 1 | TOffer _ _ => 2 | TExit => 0 end.
Definition decode_weight (d : decode_at) : nat := match d with DSelect => 1 | DHave _ => 2 | DEnded => 0 end.
Definition raw_backlog s : nat :=
  match heap (recvMux (cmux (net s))) !! rawRecv with Some w => length (buf w) | None => 0 end.
Definition typed_measure s : nat :=
  sum_list_with (λ x, 3 * length (tpending x.1) + sender_weight x.2)%nat (senders s) + 3 * raw_backlog s + decode_weight (dlp s).

Record typed_control s : Prop := {
  tc_mux : dlp s ≠ DEnded → mux_ready (tmux s) ∧ doneClosed (tmux s) = false;
  tc_closed : dlp s = DEnded → doneClosed (tmux s) = true;
  tc_done : tdone s = true ↔ dlp s = DEnded
}.

Lemma decode_exit_control s s' : decode_exit iter s = Some s' → typed_control s'.
Proof.
  intros (_ & _ & _ & _ & Hd & Ht & _ & Hc & _)%decode_exit_frame. split; rewrite ?Hd, ?Ht; try done.
  intros _. by eapply Close_done.
Qed.
Lemma tstep_control s a s' : typed_control s → tstep marshal unmarshal iter rawSend rawRecv s a = Some s' → typed_control s'.
Proof using Hiter.
  intros Hok Hs. assert (Hok' := Hok). destruct Hok' as [Hm Hc Hd]. destruct a; cbn [tstep] in Hs; tstep_cases Hs.
  all: try (by split); try (by eapply decode_exit_control).
  - split; simpl; [| |done]; rewrite (Watch_done _ _ _ _ Heqg); [|done]. intros Hne. destruct (Hm Hne). split; [by eapply watch_ready|done].
  - split; simpl; [| |done]; rewrite (cancel_done _ _ _ Heqg); [|done]. intros Hne. destruct (Hm Hne). split; [by eapply cancel_ready|done].
  - split; simpl; [by intros _; apply Hm|done|]. split; [|done]. intros Ht. by apply Hd in Ht.
  - destruct (Hm ltac:(done)) as [Hr Hf].
    match goal with H : DispatchFuncWithTimeout _ _ _ _ _ = Done _ |- _ => rename H into Hdisp end.
    destruct (dispatch_ready iter pick_done reads (tmux s) t Hiter Hr) as (m & Heq & Hm' & _).
    rewrite Heq in Hdisp. injection Hdisp as ->.
    destruct (dispatch_inv _ _ _ _ _ _ (proj1 Hr) Heq) as [_ Hfl]. split; simpl; [|done|].
    + intros _. by rewrite Hfl.
    + split; [|done]. intros Ht. by apply Hd in Ht.
  - split; simpl; [by intros _; apply Hm|done|]. split; [|done]. intros Ht. by apply Hd in Ht.
Qed.

Lemma decode_exit_measure s s' : decode_exit iter s = Some s' → dlp s = DSelect →
  (typed_measure s' < typed_measure s)%nat ∧ tterm s' = tterm s.
Proof.
  intros (Hs & _ & Ht & Hn & Hd & _)%decode_exit_frame Hdl. unfold typed_measure, raw_backlog.
  rewrite Hs, Hn, Hd, Hdl, Ht. simpl. split; [lia|done].
Qed.
Lemma hand_mux n h b k n' :
  run_acts (cstep iter) n [Produce h b; MergeTake k] = Some n' → recvMux (cmux n') = recvMux (cmux n).
Proof.
  cbn [run_acts]. intros (n1 & H1 & (n2 & H2 & [= <-])%bind_Some)%bind_Some. cbn [cstep] in H1, H2.
  tstep_cases H1. tstep_cases H2. done.
Qed.
Lemma typed_loop_measure s a s' :
  typed_loop_step s a = Some s' → (typed_measure s' < typed_measure s)%nat ∧ tterm s' = tterm s.
Proof.
  intros Hs. destruct a; try done; cbn [typed_loop_step tstep] in Hs; tstep_cases Hs;
    try (apply decode_exit_measure in Hs as [? ?]; [split; [done|congruence]|done]); (split; [|done]); unfold typed_measure, raw_backlog; simpl.
  all: repeat match goal with
    | H : senders ?u !! _ = Some _ |- context [<[?i := ?y]> (senders ?u)] =>
        pose proof (sum_insert (λ x, 3 * length (tpending x.1) + sender_weight x.2)%nat _ _ _ y H); clear H
    | E : tpending _ = _ |- _ => apply (f_equal length) in E
    | E : dlp ?u = _ |- _ => rewrite E; clear E
    end; simpl in *; try lia.
  - destruct (marshal _); simpl in *; lia.
  - match goal with H : _ = Some x |- _ => apply hand_mux in H as -> end. lia.
  - apply recv_some in Heqg as (w0 & w' & Hw0 & -> & Hb & _). simpl. rewrite lookup_insert_eq, Hw0, Hb. simpl. lia.
Qed.

(** Everything has come to its end. *)
Definition typed_down s : Prop :=
  Forall (λ x, x.2 = TExit) (senders s) ∧ dlp s = DEnded ∧ tdone s = true ∧ doneClosed (tmux s) = true.

#[local] Instance exit_dec (x : tsource T * sender_at T) : Decision (x.2 = TExit).
Proof. destruct (x.2); [right|right|left]; done. Defined.

Lemma typed_progress s :
  typed_control s → tterm s = true → typed_down s ∨ ∃ a s', typed_loop_step s a = Some s'.
Proof using Hiter.
  intros Hok Ht. destruct (decide (Forall (λ x, x.2 = TExit) (senders s))) as [Hall|Hex].
  2: { apply not_Forall_Exists, Exists_exists in Hex as ([c m] & [i Hi]%list_elem_of_lookup & Hm); [|intros ?; apply _].
       right. exists (TTerminate i). simpl. rewrite Hi, Ht. simpl in *. destruct m; [eauto..|done]. }
  destruct (dlp s) as [|dd|] eqn:Hdl.
  - right. exists DTerminate. simpl. rewrite Hdl, Ht. unfold decode_exit.
    destruct (tc_mux _ Hok) as [[Hi Ho] Hf]; [by rewrite Hdl|].
    destruct (Close_run iter (tmux s) Hiter Hi Hf) as (m & -> & _).
    destruct (tdone s) eqn:Hd; [|eauto]. apply (tc_done _ Hok) in Hd. congruence.
  - right. exists (DDecode true false). simpl. rewrite Hdl. destruct (unmarshal dd) as [v|]; [|eauto].
    destruct (tc_mux _ Hok) as [Hr Hf]; [by rewrite Hdl|].
    destruct (dispatch_ready iter true false (tmux s) v Hiter Hr) as (m & -> & _). eauto.
  - left. split_and!; [done|done|by apply (tc_done _ Hok)|by apply (tc_closed _ Hok)].
Qed.
End shutdown.

(** ** Clusters of a type with a JSON codec *)

Section json.
Context {T : Type} (c : codec T) (valid : T → Prop) (d : Z).
Context (Hc : overwrites c valid d) (Hd : d <= maxNestingDepth).

(** [json.Marshal(val)], and [json.Unmarshal] into the zero value of [T]. *)
Definition cmarshal (v : T) : list Z + error := inl (Marshal c v).
Definition cunmarshal (data : list Z) : T + error :=
  match Unmarshal c data (zero c) with (v, None) => inl v | (_, Some err) => inr err end.

Lemma dec_enc vs : Forall valid vs → omap (dec cunmarshal) (Marshal c <$> vs) = vs.
Proof using Hc Hd.
  induction 1 as [|v vs Hv _ IH]; [done|]. csimpl.
  assert (dec cunmarshal (Marshal c v) = Some v) as ->; [|by rewrite IH].
  unfold dec, cunmarshal. by rewrite (Unmarshal_Marshal c valid d).
Qed.

(** The producers put values the codec covers. *)
Definition valid_tact (a : tact T) : Prop := match a with TProduce _ v => valid v | _ => True end.
Definition all_valid (s : tstate T) : Prop := ∀ i x, senders s !! i = Some x → Forall valid (tproduced x.1).
Lemma tstep_valid iter rs rr s a s' :
  valid_tact a → all_valid s → tstep cmarshal cunmarshal iter rs rr s a = Some s' → all_valid s'.
Proof.
  intros Ha Hv Hs. destruct a; cbn [tstep] in Hs; tstep_cases Hs; try done;
    try (apply decode_exit_frame in Hs as (Hse & _); unfold all_valid; by rewrite Hse).
  1: { intros j x [Hj|[_ Hj]]%lookup_app_Some; [by eapply Hv|]. by apply list_lookup_singleton_Some in Hj as [_ <-]. }
  all: intros j y [(<- & <- & _)|[_ Hj]]%list_lookup_insert_Some; [|by eapply Hv];
    match goal with H : senders ?s0 !! _ = Some _, Ha : all_valid ?s0 |- _ => pose proof (Ha _ _ H) end; simpl in *; try done.
  by apply Forall_app_2; [|apply Forall_singleton].
Qed.
Lemma encodable_all v : encodable cmarshal v = true.
Proof. done. Qed.
Lemma filter_all (l : list T) : filter (λ v, encodable cmarshal v) l = l.
Proof. induction l as [|v l IH]; [done|]. rewrite filter_cons_True by done. by rewrite IH. Qed.
Lemma sent_valid rs (s : tstate T) : typed_ok cmarshal rs s → all_valid s → Forall valid (snd <$> sent s).
Proof.
  intros Hok Hv. apply Forall_fmap, Forall_forall. intros [i v] Hin. simpl.
  pose proof (ty_from _ _ _ Hok) as Hf. rewrite Forall_forall in Hf. specialize (Hf _ Hin). simpl in Hf.
  apply lookup_lt_is_Some in Hf as [x Hx]. destruct (ty_senders _ _ _ Hok i x Hx) as (tk & l & H1 & H2 & _).
  rewrite filter_all in H2. pose proof (Hv i x Hx) as Hall. rewrite H1, H2, !Forall_app in Hall. destruct Hall as [[Hall _] _].
  rewrite Forall_forall in Hall. apply Hall. unfold of_sender. apply list_elem_of_fmap. exists (i, v). split; [done|].
  by apply list_elem_of_filter.
Qed.
End json.

(** A raw cluster that starts with the typed cluster as its only source and a
    connection to peer [id]. *)
Record sender_start (rawSend : Z) (id : uuid) (conn : Z) (cm : clusterMux) (chans : gmap Z source) : Prop := {
  ss_sources : sendSources cm = [rawSend];
  ss_chan : chans !! rawSend = Some {| pending := []; srcClosed := false; produced := [] |};
  ss_peer : is_peer id cm;
  ss_conn : connected id conn cm;
  ss_silent : tagged conn (written cm) = []
}.
(** A raw cluster with a fresh subscription, and a multiplexer nobody was sent
    anything through. *)
Record receiver_start {T} (rawRecv : Z) (cm : clusterMux) (mux : WatcherMux T) : Prop := {
  rs_sub : ∃ w, heap (recvMux cm) !! rawRecv = Some w ∧ hist w = [];
  rs_mux : logged mux []
}.

Lemma start_typed_ok {T} (marshal : T → list Z + error) rawSend id conn cm chans (mux : WatcherMux T) :
  sender_start rawSend id conn cm chans → typed_ok marshal rawSend (start_typed (start_loops cm chans) mux).
Proof. intros H. split; simpl; [by intros i x ?|done|]. eexists. split; [apply (ss_chan _ _ _ _ _ H)|done]. Qed.
Lemma start_lanes_ok rawSend id conn cm chans : sender_start rawSend id conn cm chans → lanes [rawSend] (start_loops cm chans).
Proof.
  intros H. rewrite <-(ss_sources _ _ _ _ _ H). apply start_lanes. rewrite (ss_sources _ _ _ _ _ H).
  intros h ->%list_elem_of_singleton. eexists. by split; [apply (ss_chan _ _ _ _ _ H)|].
Qed.
Lemma start_decode_ok {T} (unmarshal : list Z → T + error) rawRecv cm chans mux :
  receiver_start rawRecv cm mux → decode_ok unmarshal rawRecv (start_typed (start_loops cm chans) mux).
Proof.
  intros [(w & Hw & Hh) Hm]. split; [|done]. exists w, []. simpl. rewrite Hh. split_and!; try done.
  by apply app_nil in Hh as [? _].
Qed.

Lemma tagged_only h (l : list (Z * list Z)) : Forall (λ x, x.1 ∈ [h]) l → tagged h l = snd <$> l.
Proof.
  unfold tagged. induction 1 as [|x l Hx _ IH]; [done|]. apply list_elem_of_singleton in Hx.
  rewrite filter_cons_True by done. csimpl. by rewrite IH.
Qed.

(** * Properties *)


(** Two clusters of two nodes: the first, whose typed cluster is its only
    source, is connected to its peer; the second has a fresh subscription. *)
Definition sending_cluster : clusterMux :=
  cm_with two_nodes (recvMux two_nodes) {[ replicate 16 2 := 5 ]} [0] [].
Definition typed_chans : gmap Z source := {[ 0 := {| pending := []; srcClosed := false; produced := [] |} ]}.
Definition subscribed {T} (mux : WatcherMux T) : WatcherMux T :=
  match Watch mux None with Done (m, _) => m | _ => mux end.
Definition receiving_cluster : clusterMux := cm_with two_nodes (subscribed (recvMux two_nodes)) ∅ [0] [].

Definition sending_acts : list (tact Z) :=
  [TSend; TProduce 0 7; TProduce 0 (-8); TTake 0; THand 0 0; TTake 0; RawAct (MergePut 0);
   RawAct (SendWrite map_to_list (λ _, inr ErrNotFound)); THand 0 0; RawAct (MergePut 0);
   RawAct (SendWrite map_to_list (λ _, inr ErrNotFound)); TCloseCall].
Definition receiving_acts : list (tact Z) :=
  [RawAct RecvStart; RawAct (RecvData true false (bytes "-8")); DTake; DDecode true false; TCloseCall].
Definition run_typed (cm : clusterMux) (mux : WatcherMux Z) (acts : list (tact Z)) : option (tstate Z) :=
  run_acts (tstep (cmarshal int64_codec) (cunmarshal int64_codec) elements 0 0) (start_typed (start_loops cm typed_chans) mux) acts.
Lemma typed_runs : ∃ sA sB,
  run_typed sending_cluster (NewWatcherMux 4) sending_acts = Some sA ∧
  run_typed receiving_cluster (subscribed (NewWatcherMux 4)) receiving_acts = Some sB ∧
  received sB = [bytes "-8"] ∧ tagged 5 (written (cmux (net sA))) = [bytes "7"; bytes "-8"] ∧ tterm sA = true.
Proof. eexists _, _. split; [vm_compute; reflexivity|]. split; [vm_compute; reflexivity|]. split_and!; vm_compute; reflexivity. Qed.


(** C25: Graceful shutdown of a typed cluster. Once [Close] has closed
    [terminateCh], whatever the scheduler does, whatever is still waiting in
    the channels handed to [Send] and in the raw subscription, and even if the
    raw cluster no longer takes anything from [rawSendCh], every goroutine of
    the typed cluster comes to an end, its multiplexer is closed and so is
    [doneCh]. *)
Theorem typed_shuts_down {T} (marshal : T → list Z + error) (unmarshal : list Z → T + error) iter rawSend rawRecv
    raw (mux : WatcherMux T) acts s :
  (∀ X, iter X ≡ₚ elements X) → mux_ready mux → doneClosed mux = false →
  run_acts (tstep marshal unmarshal iter rawSend rawRecv) (start_typed raw mux) acts = Some s → tterm s = true →
  inevitable (typed_loop_step marshal unmarshal iter rawSend rawRecv) typed_down s.
Proof.
  intros Hiter Hm Hf Hr Ht.
  assert (Hc : typed_control s).
  { revert Hr. apply (run_acts_inv _ typed_control); [|by split].
    intros s1 a s2. by apply tstep_control. }
  apply (inevitable_measure _ (λ s, typed_control s ∧ tterm s = true) _ (typed_measure rawRecv)); [done| |].
  - intros s1 [H1 H2]. by apply typed_progress.
  - intros s1 a s2 [H1 H2] Hs. destruct (typed_loop_measure _ _ _ _ _ _ _ _ Hs) as [Hlt Ht']. split; [|done].
    split; [|congruence]. apply (tstep_control marshal unmarshal iter rawSend rawRecv Hiter s1 a); [exact H1|].
    by destruct a; try done; apply Hs.
Qed.

Lemma typed_shuts_down_witness : ∃ s,
  run_typed sending_cluster (NewWatcherMux 4) sending_acts = Some s ∧
  inevitable (typed_loop_step (cmarshal int64_codec) (cunmarshal int64_codec) elements 0 0) typed_down s.
Proof.
  destruct typed_runs as (s & _ & Hr & _ & _ & _ & Ht). exists s. split; [exact Hr|].
  apply (typed_shuts_down (cmarshal int64_codec) (cunmarshal int64_codec) elements 0 0 (start_loops sending_cluster typed_chans)
           (NewWatcherMux 4) sending_acts); [reflexivity|apply new_mux_ready; lia|reflexivity|exact Hr|exact Ht].
Defined.
