(* ===== verification/Testenv.v ===== *)
(** * Testenv: configuration of the end-to-end tests (pkg/test/e2e)

    testenv_config.go finds the addresses and the key of the test machines in
    the environment or, failing that, in the state files of the test
    environment; ports.go chooses the port.  The environment, the directory,
    the files (read twice, so twice an input) and JSON decoding are inputs. *)
From S2P Require Import Prelude Types GoNet.
#[local] Open Scope string_scope.

(** ** What is used of strings, strconv and path/filepath *)

(** [strings.Split] at a one-byte separator. *)
Fixpoint split_on (sep : ascii) (s : string) : list string :=
  match s with
  | EmptyString => [""]
  | String c s' =>
      let parts := split_on sep s' in
      if decide (c = sep) then "" :: parts
      else match parts with p :: ps => String c p :: ps | [] => [String c ""] end
  end.
Definition join := String.concat.

Definition HasPrefix (s p : string) : bool := String.prefix p s.
(** The last [length p] bytes are [p]. *)
Definition HasSuffix (s p : string) : bool :=
  bool_decide (String.length p <= String.length s)%nat &&
  bool_decide (String.substring (String.length s - String.length p) (String.length p) s = p).

(** [filepath.Clean] works on the elements between slashes: empty ones and
    dots go, a double dot removes the element before it, or stays at the front
    of a relative path and goes at the front of a rooted one. *)
Definition clean_step (rooted : bool) (out : list string) (e : string) : list string :=
  if decide (e = "" ∨ e = ".") then out
  else if decide (e = "..") then
    match out with
    | [] => if rooted then [] else [".."]
    | p :: out' => if decide (p = "..") then ".." :: out else out'
    end
  else e :: out.
Definition Clean (path : string) : string :=
  if decide (path = "") then "."
  else
    let rooted := HasPrefix path "/" in
    let body := join "/" (rev (foldl (clean_step rooted) [] (split_on "/" path))) in
    if rooted then "/" ++ body else if decide (body = "") then "." else body.
(** [filepath.Join]. *)
Definition filepath_Join (elems : list string) : string :=
  let l := filter (λ e, e ≠ "") elems in
  if decide (l = []) then "" else Clean (join "/" l).

(** [strconv.Atoi]: an optional sign and decimal digits, in the range of int. *)
Definition ch_plus : Z := 43.
Definition Atoi (s : string) : option Z :=
  let (neg, ds) := match bytes s with
                   | c :: ds => if decide (c = ch_dash) then (true, ds)
                                else if decide (c = ch_plus) then (false, ds) else (false, c :: ds)
                   | [] => (false, [])
                   end in
  if decide (ds = []) then None
  else v ← atoi_digits ds 0;
       let v := if neg : bool then - v else v in
       if decide (min_i64 <= v <= max_i64) then Some v else None.

(** ** testenv_config.go *)

Definition ErrEnvVarNotSet := Sentinel "testenv environment variable not set".
Definition ErrStateFileNotFound := Sentinel "testenv-vm state file not found".

Definition defaultRouterIP := "10.100.0.2".
Definition defaultClientIP := "10.100.0.100".
Definition defaultLB0IP := "10.100.0.10".
Definition defaultLB1IP := "10.100.0.11".
Definition defaultLB2IP := "10.100.0.12".
Definition defaultBE0IP := "10.100.0.20".
Definition defaultBE1IP := "10.100.0.21".
Definition defaultBE2IP := "10.100.0.22".
Definition defaultBridgeIP := "10.100.0.1".
Definition defaultVIPSuffix := "200".

Record TestenvConfig := {
  RouterIP : string; ClientIP : string; LB0IP : string; LB1IP : string; LB2IP : string;
  BE0IP : string; BE1IP : string; BE2IP : string; SSHKeyPath : string; BridgeIP : string; VIP : string
}.

Definition computeVIP (bridgeIP : string) : string :=
  let parts := split_on "." bridgeIP in
  if decide (length parts = 4%nat) then join "." (take 3 parts) ++ "." ++ defaultVIPSuffix
  else "10.100.0." ++ defaultVIPSuffix.

(** The fields of testenvVMState that are used. *)
Record testenvVMState := {
  Stage : string;
  Status : string;
  Keys : gmap string string;       (* privateKeyPath by name *)
  Networks : gmap string string    (* ip by name *)
}.

Definition loadFromEnv (Getenv : string → string) : TestenvConfig + error :=
  let or_default name dflt := let v := Getenv name in if decide (v = "") then dflt else v in
  let key := Getenv "TESTENV_KEY_VMSSH_PRIVATE_PATH" in
  let missing := if decide (key = "") then ["TESTENV_KEY_VMSSH_PRIVATE_PATH"] else [] in
  if decide (0 < length missing)%nat
  then inr (Wraps [ErrEnvVarNotSet; Sentinel ("missing: " ++ join ", " missing)])
  else
    let bridge := or_default "TESTENV_NETWORK_UDPLBNET_IP" defaultBridgeIP in
    inl {| SSHKeyPath := key;
           RouterIP := or_default "TESTENV_VM_ROUTER_IP" defaultRouterIP;
           ClientIP := or_default "TESTENV_VM_CLIENT_IP" defaultClientIP;
           LB0IP := or_default "TESTENV_VM_LB_0_IP" defaultLB0IP;
           LB1IP := or_default "TESTENV_VM_LB_1_IP" defaultLB1IP;
           LB2IP := or_default "TESTENV_VM_LB_2_IP" defaultLB2IP;
           BE0IP := or_default "TESTENV_VM_BE_0_IP" defaultBE0IP;
           BE1IP := or_default "TESTENV_VM_BE_1_IP" defaultBE1IP;
           BE2IP := or_default "TESTENV_VM_BE_2_IP" defaultBE2IP;
           BridgeIP := bridge;
           VIP := computeVIP bridge |}.

Section state_file.
Context (ReadDir : string → list string + error) (ReadFile1 ReadFile2 : string → list Z + error)
        (Unmarshal : list Z → testenvVMState + error).

(** A candidate of the search: [None] is [continue]. *)
Definition candidate (stateFilesDir name : string) : option string :=
  if negb (HasPrefix name "testenv-") || negb (HasSuffix name ".json") then None
  else
    let candidatePath := filepath_Join [stateFilesDir; name] in
    match ReadFile1 candidatePath with
    | inr _ => None
    | inl data =>
        match Unmarshal data with
        | inr _ => None
        | inl state => if decide (Stage state = "e2e" ∧ Status state = "ready") then Some candidatePath else None
        end
    end.
Fixpoint find_state_file (stateFilesDir : string) (entries : list string) : string :=
  match entries with
  | [] => ""
  | name :: entries =>
      match candidate stateFilesDir name with Some path => path | None => find_state_file stateFilesDir entries end
  end.

Definition state_config (state : testenvVMState) : TestenvConfig + error :=
  let key := default "" (Keys state !! "VmSsh") in
  let bridge := default defaultBridgeIP (Networks state !! "UdplbNet") in
  if decide (key = "") then inr (Wraps [ErrStateFileNotFound; Sentinel "SSH key path not found in state file"])
  else inl {| RouterIP := defaultRouterIP; ClientIP := defaultClientIP; LB0IP := defaultLB0IP; LB1IP := defaultLB1IP;
              LB2IP := defaultLB2IP; BE0IP := defaultBE0IP; BE1IP := defaultBE1IP; BE2IP := defaultBE2IP;
              SSHKeyPath := key; BridgeIP := bridge; VIP := computeVIP bridge |}.

Definition loadFromStateFile (Getenv : string → string) : TestenvConfig + error :=
  let stateDir := let d := Getenv "TESTENV_VM_STATE_DIR" in if decide (d = "") then "/tmp/udplb-testenv-vm" else d in
  let stateFilesDir := filepath_Join [stateDir; "state"] in
  match ReadDir stateFilesDir with
  | inr err => inr (Wraps [ErrStateFileNotFound; err])
  | inl entries =>
      let stateFile := find_state_file stateFilesDir entries in
      if decide (stateFile = "")
      then inr (Wraps [ErrStateFileNotFound; Sentinel ("no e2e state file found in " ++ stateFilesDir)])
      else
        match ReadFile2 stateFile with
        | inr err => inr (Wraps [ErrStateFileNotFound; err])
        | inl data =>
            match Unmarshal data with
            | inr err => inr (Wraps [ErrStateFileNotFound; err])
            | inl state => state_config state
            end
        end
  end.

Definition LoadTestenvConfig (Getenv : string → string) : TestenvConfig + error :=
  match loadFromEnv Getenv with
  | inl cfg => inl cfg
  | inr envErr =>
      match loadFromStateFile Getenv with
      | inl cfg => inl cfg
      | inr stateErr => inr (Wraps [envErr; stateErr])
      end
  end.

Definition MustLoadTestenvConfig (Getenv : string → string) : go TestenvConfig :=
  match LoadTestenvConfig Getenv with inl cfg => Done cfg | inr _ => Panic ExplicitPanic end.
End state_file.

(** ** ports.go *)

Definition DefaultUDPTestPort : Z := 12345.
Definition GetUDPTestPort (Getenv : string → string) : Z :=
  let v := Getenv "PORTALLOC_UDPLB_E2E_UDP" in
  if decide (v ≠ "") then default DefaultUDPTestPort (Atoi v) else DefaultUDPTestPort.

Definition no_env (_ : string) : string := "".
Example clean_ex : filepath_Join ["/tmp/x/../y//"; "state"] = "/tmp/y/state".
Proof. reflexivity. Qed.
Example vip_ex : computeVIP "192.168.7.1" = "192.168.7.200" ∧ computeVIP "fd00::1" = "10.100.0.200".
Proof. split; reflexivity. Qed.
Example suffix_ex : HasSuffix "testenv-1.json" ".json" = true ∧ HasSuffix "x" ".json" = false ∧ HasPrefix "testenv-1.json" "testenv-" = true.
Proof. split_and!; reflexivity. Qed.
Example atoi_ex : Atoi "-12" = Some (-12) ∧ Atoi "+7" = Some 7 ∧ Atoi "" = None ∧ Atoi "12a" = None ∧ Atoi "9223372036854775808" = None.
Proof. split_and!; reflexivity. Qed.

(** * Lemmas *)

Lemma bytes_app s1 s2 : bytes (s1 ++ s2) = (bytes s1 ++ bytes s2)%list.
Proof. induction s1 as [|c s1 IH]; [done|]. change (Z.of_N (N_of_ascii c) :: bytes (s1 ++ s2) = Z.of_N (N_of_ascii c) :: bytes s1 ++ bytes s2)%list. by rewrite IH. Qed.
Lemma bytes_cons c s : bytes (String c s) = Z.of_N (N_of_ascii c) :: bytes s.
Proof. done. Qed.
Lemma ascii_dot c : Z.of_N (N_of_ascii c) = ch_dot ↔ c = "."%char.
Proof.
  split; [|by intros ->]. intros H. assert (N_of_ascii c = N_of_ascii ".") as Hc by (unfold ch_dot in H; simpl; lia).
  by rewrite <-(ascii_N_embedding c), Hc.
Qed.

Lemma split_on_last s : ch_dot ∉ bytes s → split_on "." s = [s].
Proof.
  induction s as [|c s IH]; [done|]. rewrite bytes_cons, not_elem_of_cons. intros [Hc Hs]. simpl.
  rewrite IH by done. rewrite decide_False; [done|]. intros ->. done.
Qed.
Lemma split_on_dot s x y :
  bytes s = (x ++ ch_dot :: y)%list → ch_dot ∉ x →
  ∃ s1 s2, split_on "." s = s1 :: split_on "." s2 ∧ bytes s1 = x ∧ bytes s2 = y.
Proof.
  revert x. induction s as [|c s IH]; intros x Hs Hx; [by destruct x|]. rewrite bytes_cons in Hs. simpl.
  destruct x as [|z x]; simpl in Hs; injection Hs as Hc Hs.
  - apply ascii_dot in Hc as ->. exists "", s. by rewrite decide_True.
  - apply not_elem_of_cons in Hx as [Hz Hx]. destruct (IH x Hs Hx) as (s1 & s2 & -> & H1 & H2).
    exists (String c s1), s2. rewrite decide_False by (intros ->; apply Hz; by rewrite <-Hc).
    split_and!; [done| |done]. by rewrite bytes_cons, Hc, H1.
Qed.
Lemma itoa_no_dot x : is_byte x → ch_dot ∉ itoa x.
Proof.
  intros Hx. destruct (itoa_octet x Hx) as [[? ->]|[[? ->]|[? ->]]]; unfold is_byte, ch_dot in *;
    rewrite ?not_elem_of_cons; repeat split; try (apply not_elem_of_nil); Z.div_mod_to_equations; lia.
Qed.

(** The address of the bridge decides the subnet of the virtual address. *)
Lemma computeVIP_dotted s a b c d :
  is_byte a → is_byte b → is_byte c → is_byte d → bytes s = dotted a b c d → bytes (computeVIP s) = dotted a b c 200.
Proof.
  intros Ha Hb Hc Hd Hs. unfold dotted in Hs.
  destruct (split_on_dot _ _ _ Hs (itoa_no_dot a Ha)) as (s1 & r1 & E1 & B1 & R1).
  destruct (split_on_dot _ _ _ R1 (itoa_no_dot b Hb)) as (s2 & r2 & E2 & B2 & R2).
  destruct (split_on_dot _ _ _ R2 (itoa_no_dot c Hc)) as (s3 & r3 & E3 & B3 & R3).
  assert (E4 : split_on "." r3 = [r3]) by (apply split_on_last; rewrite R3; by apply itoa_no_dot).
  unfold computeVIP. rewrite E1, E2, E3, E4. simpl. rewrite !bytes_app, B1, B2, B3. unfold dotted. simpl.
  rewrite <-!app_assoc. cbn [app]. rewrite <-!app_assoc. reflexivity.
Qed.

(** ** Printed integers parse back *)

Lemma Atoi_itoa s x : min_i64 <= x <= max_i64 → bytes s = itoa x → Atoi s = Some x.
Proof.
  unfold min_i64, max_i64. intros Hx Hs. unfold Atoi. rewrite Hs. unfold itoa. case_decide.
  - rewrite decide_True by done. destruct (decimal_digits_head 20 (- x) [] ltac:(lia) ltac:(lia)) as (c & ds & Hd & _).
    rewrite decide_False by (by rewrite Hd). rewrite atoi_decimal by lia. simpl.
    rewrite Z.opp_involutive. by rewrite decide_True.
  - destruct (decimal_digits_head 20 x [] ltac:(lia) ltac:(lia)) as (c & ds & Hd & Hc). rewrite Hd.
    unfold ch_dash, ch_plus. rewrite !decide_False by (done || lia). rewrite <-Hd, atoi_decimal by lia.
    simpl. by rewrite decide_True.
Qed.

(** The state the search selects: the first entry, in directory order, whose
    file has the right name, can be read, decodes, and is ready. *)
Lemma find_state_file_spec RF UM dir entries :
  find_state_file RF UM dir entries = default "" (head (omap (candidate RF UM dir) entries)).
Proof.
  induction entries as [|e entries IH]; [done|]. simpl. destruct (candidate RF UM dir e); [done|]. apply IH.
Qed.

Lemma loadFromEnv_ok Getenv :
  Getenv "TESTENV_KEY_VMSSH_PRIVATE_PATH" ≠ "" →
  ∃ cfg, loadFromEnv Getenv = inl cfg ∧ SSHKeyPath cfg = Getenv "TESTENV_KEY_VMSSH_PRIVATE_PATH" ∧
    VIP cfg = computeVIP (BridgeIP cfg).
Proof.
  intros E. unfold loadFromEnv. rewrite (decide_False (P := Getenv "TESTENV_KEY_VMSSH_PRIVATE_PATH" = "")) by done.
  simpl. by eexists.
Qed.
Lemma loadFromEnv_error Getenv :
  Getenv "TESTENV_KEY_VMSSH_PRIVATE_PATH" = "" →
  ∃ e, loadFromEnv Getenv = inr e ∧ errors_is e "testenv environment variable not set" = true.
Proof. intros E. unfold loadFromEnv. rewrite E. simpl. by eexists. Qed.
Lemma state_config_ok st :
  match state_config st with
  | inl cfg => VIP cfg = computeVIP (BridgeIP cfg) ∧ SSHKeyPath cfg ≠ "" ∧ Keys st !! "VmSsh" = Some (SSHKeyPath cfg)
  | inr e => errors_is e "testenv-vm state file not found" = true
  end.
Proof.
  unfold state_config. destruct (Keys st !! "VmSsh") as [key|]; simpl; [|done].
  destruct (decide (key = "")); done.
Qed.
Lemma loadFromStateFile_ok RD RF1 RF2 UM Getenv :
  match loadFromStateFile RD RF1 RF2 UM Getenv with
  | inl cfg => VIP cfg = computeVIP (BridgeIP cfg) ∧ SSHKeyPath cfg ≠ ""
  | inr e => errors_is e "testenv-vm state file not found" = true
  end.
Proof.
  unfold loadFromStateFile. destruct (RD _) as [entries|err]; [|done]. case_decide; [done|].
  destruct (RF2 _) as [data|err]; [|done]. destruct (UM data) as [st|err]; [|done].
  pose proof (state_config_ok st) as H1. destruct (state_config st); naive_solver.
Qed.

(** * Properties *)

(** Loading the test configuration, on every outcome. The environment wins
    when the key path is set in it; otherwise the state file is used; when
    both fail the error is both sentinels. A configuration that is returned
    has a key and a virtual address in the subnet of its bridge: if the bridge
    is an IPv4 address in the usual notation, the virtual one parses, as the
    program parses addresses, to the same address with last octet 200. *)
Theorem testenv_load RD RF1 RF2 UM Getenv :
  match LoadTestenvConfig RD RF1 RF2 UM Getenv with
  | inl cfg =>
      SSHKeyPath cfg ≠ "" ∧
      (Getenv "TESTENV_KEY_VMSSH_PRIVATE_PATH" ≠ "" → SSHKeyPath cfg = Getenv "TESTENV_KEY_VMSSH_PRIVATE_PATH") ∧
      (Getenv "TESTENV_KEY_VMSSH_PRIVATE_PATH" = "" → loadFromStateFile RD RF1 RF2 UM Getenv = inl cfg) ∧
      ∀ a b c d, is_byte a → is_byte b → is_byte c → is_byte d → bytes (BridgeIP cfg) = dotted a b c d →
        ParseIP (VIP cfg) ≫= To4 = Some [a; b; c; 200]
  | inr e =>
      Getenv "TESTENV_KEY_VMSSH_PRIVATE_PATH" = "" ∧
      errors_is e "testenv environment variable not set" = true ∧ errors_is e "testenv-vm state file not found" = true
  end.
Proof.
  assert (Hvip : ∀ cfg, VIP cfg = computeVIP (BridgeIP cfg) → ∀ a b c d, is_byte a → is_byte b → is_byte c → is_byte d →
    bytes (BridgeIP cfg) = dotted a b c d → ParseIP (VIP cfg) ≫= To4 = Some [a; b; c; 200]).
  { intros cfg -> a b c d Ha Hb Hc Hd Hs. apply ParseIP_dotted; [done|done|done|unfold is_byte; lia|]. by eapply computeVIP_dotted. }
  unfold LoadTestenvConfig. destruct (decide (Getenv "TESTENV_KEY_VMSSH_PRIVATE_PATH" = "")) as [E|E].
  - destruct (loadFromEnv_error _ E) as (e & -> & He).
    pose proof (loadFromStateFile_ok RD RF1 RF2 UM Getenv) as Hst. destruct (loadFromStateFile _ _ _ _ _) as [cfg|e'].
    + destruct Hst. split_and!; try done. by apply Hvip.
    + simpl. rewrite He, Hst. by rewrite orb_true_r.
  - destruct (loadFromEnv_ok _ E) as (cfg & -> & Hk & Hv). split_and!; [by rewrite Hk|done|done|by apply Hvip].
Qed.

(** The test port is the one the environment names when it is the decimal
    form of an integer, and the default when the variable is unset; the range
    of ports is not checked. *)
Theorem test_port Getenv p :
  min_i64 <= p <= max_i64 →
  (bytes (Getenv "PORTALLOC_UDPLB_E2E_UDP") = itoa p → GetUDPTestPort Getenv = p) ∧
  (Getenv "PORTALLOC_UDPLB_E2E_UDP" = "" → GetUDPTestPort Getenv = DefaultUDPTestPort).
Proof.
  intros Hp. unfold GetUDPTestPort. split; intros Hv; [|by rewrite Hv].
  rewrite (Atoi_itoa _ p) by done. case_decide as Hne; [done|]. rewrite Hne in Hv.
  exfalso. unfold itoa in Hv. case_decide; [done|].
  by destruct (decimal_digits_head 20 p [] ltac:(lia) ltac:(lia)) as (c & ds & Hd & _); rewrite Hd in Hv.
Qed.
