(* ===== verification/TestDriver.v ===== *)
(** * TestDriver: the integration test driver (cmd/udplb_test)

    main.go reads a configuration and dispatches a command, setup.go creates
    bridges, taps and a multipath route through netlink, run.go opens a tap
    and starts the load balancer.  The netlink library is the answer it gives
    to each request, which may depend on all requests before; what was asked
    of it is recorded.  System calls and the YAML decoder are inputs. *)
From S2P Require Import Prelude Types GoNet.
#[local] Open Scope string_scope.

(** ** main.go *)

Inductive NetdevType := NetdevTypeTap | NetdevTypeBridge | NetdevTypeOther (s : string).
#[export] Instance NetdevType_eq_dec : EqDecision NetdevType.
Proof. solve_decision. Defined.

Record NetdevSpec := { ndName : string; ndIP : string; ndType : NetdevType; ndLink : string }.
Record Config := { HostNetdevs : list NetdevSpec; VMSpecs : list string }.

Definition Bridges (c : Config) : list NetdevSpec :=
  foldl (λ bridges nd, if decide (ndType nd = NetdevTypeBridge) then (bridges ++ [nd])%list else bridges) [] (HostNetdevs c).
Definition Taps (c : Config) : list NetdevSpec :=
  foldl (λ taps nd, if decide (ndType nd = NetdevTypeTap) then (taps ++ [nd])%list else taps) [] (HostNetdevs c).

(** ** setup.go *)

(** An address with its prefix length, and a next hop ([None]: a nil address). *)
Definition addr : Type := list Z * Z.
Definition hop : Type := option (list Z).

Inductive request :=
  | LinkByName (name : string)
  | LinkSetUp (name : string)
  | AddBridge (name : string)
  | AddTap (name : string)
  | AddrAdd (name : string) (a : addr)
  | LinkSetMaster (name master : string)
  | RouteAdd (dst : option (list Z)) (hops : list hop).

Section setup.
Context `{!FlatErrors} (ParseAddr : string → addr + error) (answer : list request → request → option error).

Definition call (log : list request) (r : request) : list request * option error := ((log ++ [r])%list, answer log r).
(** The error of a refused request, with its context (less the quoted name). *)
Definition failed (err : error) (what : string) : option error := Some (Types.Join [err; Sentinel what]).

(** One bridge of the configuration; the names of the bridges are the keys of
    [bridgeMap], whose values carry the same name. *)
Definition add_bridge (log : list request) (bridgeMap : gset string) (br : NetdevSpec)
    : list request * gset string * option error :=
  let (log, err) := call log (AddBridge (ndName br)) in
  match err with
  | Some e => (log, bridgeMap, failed e "cannot add link")
  | None =>
      if decide (ndIP br ≠ "") then
        match ParseAddr (ndIP br) with
        | inr e => (log, bridgeMap, failed e "cannot parse cidr")
        | inl a =>
            let (log, err) := call log (AddrAdd (ndName br) a) in
            match err with
            | Some e => (log, bridgeMap, failed e "cannot set ip")
            | None => (log, {[ndName br]} ∪ bridgeMap, None)
            end
        end
      else (log, {[ndName br]} ∪ bridgeMap, None)
  end.
Fixpoint add_bridges (log : list request) (bridgeMap : gset string) (brs : list NetdevSpec)
    : list request * gset string * option error :=
  match brs with
  | [] => (log, bridgeMap, None)
  | br :: brs =>
      match add_bridge log bridgeMap br with
      | (log, m, Some e) => (log, m, Some e)
      | (log, m, None) => add_bridges log m brs
      end
  end.

(** The last part of a tap's iteration. *)
Definition set_master (primary : string) (bridgeMap : gset string) (log : list request) (tap : NetdevSpec)
    : list request * option error :=
  let masterName := if decide (ndLink tap = "") then primary else ndLink tap in
  if decide (masterName ∈ bridgeMap) then
    let (log, err) := call log (LinkSetMaster (ndName tap) masterName) in
    match err with Some e => (log, failed e "cannot set link") | None => (log, None) end
  else (log, None).
Definition add_tap (primary : string) (bridgeMap : gset string) (log : list request) (hops : list hop) (tap : NetdevSpec)
    : list request * list hop * option error :=
  let (log, err) := call log (AddTap (ndName tap)) in
  match err with
  | Some e => (log, hops, failed e "cannot create tap device")
  | None =>
      let (log, err) := call log (LinkSetUp (ndName tap)) in
      match err with
      | Some e => (log, hops, failed e "cannot set link up")
      | None =>
          if decide (ndIP tap ≠ "") then
            match ParseAddr (ndIP tap) with
            | inr e => (log, hops, failed e "cannot parse cidr")
            | inl a =>
                let (log, err) := call log (AddrAdd (ndName tap) a) in
                match err with
                | Some e => (log, hops, failed e "cannot set ip")
                | None => let (log, err) := set_master primary bridgeMap log tap in (log, (hops ++ [To4 a.1])%list, err)
                end
            end
          else let (log, err) := set_master primary bridgeMap log tap in (log, hops, err)
      end
  end.
Fixpoint add_taps (primary : string) (bridgeMap : gset string) (log : list request) (hops : list hop) (taps : list NetdevSpec)
    : list request * list hop * option error :=
  match taps with
  | [] => (log, hops, None)
  | tap :: taps =>
      match add_tap primary bridgeMap log hops tap with
      | (log, hops, Some e) => (log, hops, Some e)
      | (log, hops, None) => add_taps primary bridgeMap log hops taps
      end
  end.

Definition setupNetwork (cfg : Config) : list request * option error :=
  let (log, err) := call [] (LinkByName "lo") in
  match err with
  | Some _ => (log, Some (Sentinel "cannot get loopback interface by name"))
  | None =>
      let (log, err) := call log (LinkSetUp "lo") in
      match err with
      | Some e => (log, failed e "cannot set link up")
      | None =>
          match Bridges cfg with
          | [] => (log, Some (Sentinel "no bridges defined in config"))
          | br0 :: _ =>
              match add_bridges log ∅ (Bridges cfg) with
              | (log, _, Some e) => (log, Some e)
              | (log, bridgeMap, None) =>
                  match add_taps (ndName br0) bridgeMap log [] (Taps cfg) with
                  | (log, _, Some e) => (log, Some e)
                  | (log, hops, None) =>
                      if decide (0 < length hops)%nat then
                        let (log, err) := call log (RouteAdd (ParseIP "10.0.0.123") hops) in
                        match err with Some e => (log, failed e "cannot add route") | None => (log, None) end
                      else (log, None)
                  end
              end
          end
      end
  end.

Definition prepareVMs (cfg : Config) : option error := None.

Definition Setup (cfg : Config) : list request * option error :=
  match setupNetwork cfg with
  | (log, Some _) => (log, None)
  | (log, None) => (log, prepareVMs cfg)
  end.
Definition Teardown (cfg : Config) : option error := None.
Definition RunVMAgent : option error := None.
End setup.

(** ** run.go *)

(** [binary.LittleEndian.PutUint16] then [binary.BigEndian.Uint16]. *)
Definition PutUint16LE (v : Z) : list Z := [v `mod` 256; (v `div` 256) `mod` 256].
Definition Uint16BE (b : list Z) : Z := match b with [b0; b1] => b0 * 256 + b1 | _ => 0 end.
Definition htons (i : Z) : Z := Uint16BE (PutUint16LE i).

Definition IFF_TAP : Z := 0x0002.
Definition IFF_NO_PI : Z := 0x1000.
Definition ETH_P_ALL : Z := 0x0003.

(** The forty bytes of an [Ifreq]; [copy] cuts the name at the array's size. *)
Definition Ifreq_bytes (name : string) : list Z :=
  (let n := take 16 (bytes name) in
   n ++ replicate (16 - length n) 0 ++ PutUint16LE (Z.lor IFF_TAP IFF_NO_PI) ++ replicate 22 0)%list.

Record Socket := { sockfd : Z; sockProtocol : Z; sockIfindex : Z }.

(** What the system calls of [OpenTapFd] and [Socket] answer. *)
Record tap_sys := {
  sys_open : Z + error;                     (* open of the tun device *)
  sys_ioctl : Z → list Z → Z;               (* errno of TUNSETIFF *)
  sys_socket : Z → Z + error;
  sys_iface : string → Z + error;           (* index by name *)
  sys_bind : Socket → option error;
  sys_sendto : Socket → list Z → option error
}.

(** [OpenTapFd]: the descriptors it opened and left open, and its result. *)
Definition OpenTapFd (sys : tap_sys) (name : string) : list Z * (Socket + error) :=
  match sys_open sys with
  | inr err => ([], inr err)
  | inl fd =>
      let errno := sys_ioctl sys fd (Ifreq_bytes name) in
      if decide (errno ≠ 0) then ([fd], inr (Foreign errno))
      else
        match sys_socket sys (htons ETH_P_ALL) with
        | inr err => ([fd], inr err)
        | inl sk =>
            match sys_iface sys name with
            | inr err => ([fd; sk], inr err)
            | inl idx =>
                let sa := {| sockfd := sk; sockProtocol := htons ETH_P_ALL; sockIfindex := idx |} in
                match sys_bind sys sa with
                | Some err => ([fd; sk], inr err)
                | None => ([fd; sk], inl sa)
                end
            end
        end
  end.

Definition Sendto `{!FlatErrors} (sys : tap_sys) (sk : Socket) (frame : list Z) : option error :=
  match sys_sendto sys sk frame with
  | Some err => Some (Types.Join [err; Sentinel "cannot write to socket"])
  | None => None
  end.

(** The receive loop over what [Recvfrom] returns; it goes on for ever while
    nothing fails. *)
Fixpoint recv_loop (rs : list (Z + error)) : go (option error) :=
  match rs with
  | [] => NoFuel
  | inr err :: _ => Done (Some err)
  | inl _ :: rs => recv_loop rs
  end.

(** [Run]; the goroutines it starts (a UDP client and the load balancer
    process) only log their errors. *)
Definition Run `{!FlatErrors} (sys : tap_sys) (rs : list (Z + error)) (cfg : Config) : go (option error) :=
  match Taps cfg with
  | [] => Done (Some (Sentinel "no TAP devices defined in config"))
  | tap :: _ =>
      match (OpenTapFd sys (ndName tap)).2 with
      | inr err => Done (Some err)
      | inl sk =>
          match Sendto sys sk (bytes "yolo" ++ replicate (1500 - 4) 0)%list with
          | Some err => Done (Some err)
          | None => recv_loop rs
          end
      end
  end.

(** What the process library and the file system answer in [startUDPLB], in
    the order they are asked. *)
Record start_sys := {
  st_stdin : option error;
  st_template : string + error;
  st_format : string → string → string;       (* fmt.Sprintf(template, ifname) *)
  st_write : string → option error;
  st_stdout : option error;
  st_stderr : option error;
  st_start : option error
}.
(** The configuration the started process reads, or an error. *)
Definition startUDPLB `{!FlatErrors} (st : start_sys) (ifname : string) : string + error :=
  let errCtx := Sentinel ("starting udplb on if " ++ ifname) in
  match st_stdin st with Some err => inr (Types.Join [err; errCtx]) | None =>
  match st_template st with inr err => inr (Types.Join [err; errCtx]) | inl template =>
  let cfgFile := st_format st template ifname in
  match st_write st cfgFile with Some err => inr (Types.Join [err; errCtx]) | None =>
  match st_stdout st with Some err => inr (Types.Join [err; errCtx]) | None =>
  match st_stderr st with Some err => inr (Types.Join [err; errCtx]) | None =>
  match st_start st with Some err => inr (Types.Join [err; errCtx]) | None =>
  inl cfgFile
  end end end end end end.

(** ** main.go: GetConfig and main *)

Definition GetConfig (ReadFile : string → list Z + error) (Unmarshal : list Z → Config + error) (Args : list string)
    : Config + error :=
  match Args with
  | [_; path; _] =>
      match ReadFile path with
      | inr err => inr err
      | inl b => Unmarshal b
      end
  | _ => inr (Sentinel "incorrect arguments")
  end.

(** The exit status of [main]. *)
Definition main `{!FlatErrors} ReadFile Unmarshal ParseAddr answer (sys : tap_sys) (rs : list (Z + error)) (Args : list string)
    : go Z :=
  match GetConfig ReadFile Unmarshal Args with
  | inr _ => Done 1
  | inl cfg =>
      cmd ← slice_get Args 2;
      err ← (if decide (cmd = "setup") then Done (Setup ParseAddr answer cfg).2
             else if decide (cmd = "teardown") then Done (Teardown cfg)
             else if decide (cmd = "run") then Run sys rs cfg
             else if decide (cmd = "vm-agent") then Done RunVMAgent
             else Done None);
      match err with
      | Some _ => let _ := Teardown cfg in Done 1
      | None => Done 0
      end
  end.

(** * What setup should ask for *)

Section plan.
Context (ParseAddr : string → addr + error).

Definition addr_reqs (nd : NetdevSpec) : list request :=
  if decide (ndIP nd ≠ "") then match ParseAddr (ndIP nd) with inl a => [AddrAdd (ndName nd) a] | inr _ => [] end else [].
Definition bad_addr (nd : NetdevSpec) : Prop := ndIP nd ≠ "" ∧ ∃ e, ParseAddr (ndIP nd) = inr e.
Definition hops_of (nd : NetdevSpec) : list hop :=
  if decide (ndIP nd ≠ "") then match ParseAddr (ndIP nd) with inl a => [To4 a.1] | inr _ => [] end else [].
Definition bridge_reqs (br : NetdevSpec) : list request := (AddBridge (ndName br) :: addr_reqs br)%list.
Definition master_reqs (primary : string) (names : gset string) (tap : NetdevSpec) : list request :=
  let master := if decide (ndLink tap = "") then primary else ndLink tap in
  if decide (master ∈ names) then [LinkSetMaster (ndName tap) master] else [].
Definition tap_reqs (primary : string) (names : gset string) (tap : NetdevSpec) : list request :=
  ([AddTap (ndName tap); LinkSetUp (ndName tap)] ++ addr_reqs tap ++ master_reqs primary names tap)%list.

(** Loopback up; every bridge with its address; every tap, up, with its
    address and its master; then the route, with one next hop for each tap
    that has an address. *)
Definition plan (cfg : Config) : list request :=
  ([LinkByName "lo"; LinkSetUp "lo"] ++
   (Bridges cfg ≫= bridge_reqs) ++
   (Taps cfg ≫= tap_reqs (default "" (ndName <$> head (Bridges cfg))) (list_to_set (ndName <$> Bridges cfg))) ++
   (if decide (Taps cfg ≫= hops_of = []) then [] else [RouteAdd (ParseIP "10.0.0.123") (Taps cfg ≫= hops_of)]))%list.
End plan.

(** * Lemmas *)

Section runs.
Context `{!FlatErrors} (ParseAddr : string → addr + error) (answer : list request → request → option error).
#[local] Open Scope list_scope.

(** The library accepts the requests [rs], made one after the other from [log]. *)
Inductive accepts : list request → list request → Prop :=
  | accepts_nil log : accepts log []
  | accepts_cons log r rs : answer log r = None → accepts (log ++ [r]) rs → accepts log (r :: rs).

(** From [log] some code was to make the requests [reqs] and made all of
    them, each accepted; or it stopped at the first one refused, or because of
    a fault of the configuration ([bad]). *)
Definition ran (log reqs : list request) (bad : Prop) (log' : list request) (err : option error) : Prop :=
  match err with
  | None => log' = log ++ reqs ∧ accepts log reqs ∧ ¬ bad
  | Some _ => ∃ made, log' = log ++ made ∧ made `prefix_of` reqs ∧
      ((∃ d r, made = d ++ [r] ∧ accepts log d ∧ is_Some (answer (log ++ d) r)) ∨ (accepts log made ∧ bad))
  end.
#[local] Arguments ran : simpl never.

Lemma accepts_app log r1 r2 : accepts log r1 → accepts (log ++ r1) r2 → accepts log (r1 ++ r2).
Proof.
  induction 1 as [log|log r rs Hr _ IH]; simpl; [by rewrite app_nil_r|]. intros Hacc. constructor; [done|].
  apply IH. by rewrite <-app_assoc.
Qed.
Lemma ran_call log r : ran log [r] False (call answer log r).1 (call answer log r).2.
Proof.
  unfold ran. simpl. destruct (answer log r) eqn:E.
  - exists [r]. split_and!; [done|done|]. left. exists [], r. split_and!; [done|constructor|by rewrite app_nil_r, E].
  - split_and!; [done| |naive_solver]. by repeat constructor.
Qed.
Lemma ran_seq log r1 b1 l1 r2 b2 l2 err :
  ran log r1 b1 l1 None → ran l1 r2 b2 l2 err → ran log (r1 ++ r2) (b1 ∨ b2) l2 err.
Proof.
  intros (-> & H1 & Hb1) H2. destruct err as [e|].
  - destruct H2 as (made & -> & Hp & Hw). exists (r1 ++ made). split_and!; [by rewrite app_assoc|by apply prefix_app|].
    destruct Hw as [(d & r & -> & Hd & Hr)|[Hd Hb]]; [left|right; split; [by apply accepts_app|by right]].
    exists (r1 ++ d), r. split_and!; [by rewrite app_assoc|by apply accepts_app|by rewrite app_assoc].
  - destruct H2 as (-> & H2 & Hb2). split_and!; [by rewrite app_assoc|by apply accepts_app|tauto].
Qed.
Lemma ran_stop log r1 (b1 b : Prop) l1 e r2 : (b1 → b) → ran log r1 b1 l1 (Some e) → ran log (r1 ++ r2) b l1 (Some e).
Proof.
  intros Hb (made & -> & Hp & Hw). exists made. split_and!; [done|by apply prefix_app_r|]. naive_solver.
Qed.
Lemma ran_err log rs b l e e' : ran log rs b l (Some e) → ran log rs b l (Some e').
Proof. done. Qed.
Lemma ran_iff log rs b b' l err : (b ↔ b') → ran log rs b l err → ran log rs b' l err.
Proof. intros Hb. destruct err; unfold ran; [|by rewrite Hb]. intros (made & ? & ? & Hw). exists made. rewrite Hb in Hw. done. Qed.
Lemma ran_then (b1 b2 b : Prop) log r1 l1 r2 l2 err :
  (b1 ∨ b2 ↔ b) → ran log r1 b1 l1 None → ran l1 r2 b2 l2 err → ran log (r1 ++ r2) b l2 err.
Proof. intros Hb H1 H2. eapply ran_iff; [exact Hb|by eapply ran_seq]. Qed.
Lemma ran_done log : ran log [] False log None.
Proof. split_and!; [by rewrite app_nil_r|constructor|tauto]. Qed.
Lemma ran_bad log (b : Prop) e : b → ran log [] b log (Some e).
Proof. exists []. split_and!; [by rewrite app_nil_r|done|right; split; [constructor|done]]. Qed.

(** The request for the address of a device, from its three outcomes. *)
Lemma ran_addr log nd :
  match decide (ndIP nd ≠ "") with
  | right _ => ran log (addr_reqs ParseAddr nd) (bad_addr ParseAddr nd) log None
  | left _ =>
      match ParseAddr (ndIP nd) with
      | inr e => ∀ e', ran log (addr_reqs ParseAddr nd) (bad_addr ParseAddr nd) log (Some e')
      | inl a => ran log (addr_reqs ParseAddr nd) (bad_addr ParseAddr nd) (log ++ [AddrAdd (ndName nd) a])
                   (answer log (AddrAdd (ndName nd) a))
      end
  end.
Proof.
  unfold addr_reqs, bad_addr. destruct (decide (ndIP nd ≠ "")) as [Hne|Hne].
  - destruct (ParseAddr (ndIP nd)) as [a|e] eqn:E.
    + eapply ran_iff; [|apply ran_call]. naive_solver.
    + intros e'. apply ran_bad. eauto.
  - eapply ran_iff; [|apply ran_done]. naive_solver.
Qed.

Lemma add_bridge_ran log m br :
  match add_bridge ParseAddr answer log m br with
  | (l, m', err) => ran log (bridge_reqs ParseAddr br) (bad_addr ParseAddr br) l err ∧
                    (err = None → m' = {[ndName br]} ∪ m)
  end.
Proof.
  unfold add_bridge, bridge_reqs. pose proof (ran_call log (AddBridge (ndName br))) as Hc. simpl in Hc |- *.
  change (AddBridge (ndName br) :: addr_reqs ParseAddr br) with ([AddBridge (ndName br)] ++ addr_reqs ParseAddr br).
  destruct (answer log (AddBridge (ndName br))) as [e|].
  { split; [|done]. apply (ran_stop _ _ False); [tauto|exact Hc]. }
  pose proof (ran_addr (log ++ [AddBridge (ndName br)]) br) as Ha.
  destruct (decide (ndIP br ≠ "")) as [Hne|Hne].
  - destruct (ParseAddr (ndIP br)) as [a|e].
    + destruct (answer (log ++ _) (AddrAdd (ndName br) a)) as [e|]; (split; [|done]);
        (eapply ran_iff; [|eapply ran_seq; [exact Hc|exact Ha]]); tauto.
    + split; [|done]. eapply ran_iff; [|eapply ran_seq; [exact Hc|exact (Ha e)]]. tauto.
  - split; [|done]. eapply ran_iff; [|eapply ran_seq; [exact Hc|exact Ha]]. tauto.
Qed.
Lemma add_bridges_ran log m brs :
  match add_bridges ParseAddr answer log m brs with
  | (l, m', err) => ran log (brs ≫= bridge_reqs ParseAddr) (Exists (bad_addr ParseAddr) brs) l err ∧
                    (err = None → m' = list_to_set (ndName <$> brs) ∪ m)
  end.
Proof.
  revert log m. induction brs as [|br brs IH]; intros log m; cbn [add_bridges]; rewrite ?bind_cons.
  { split; [|set_solver]. eapply ran_iff; [|apply ran_done]. by rewrite Exists_nil. }
  pose proof (add_bridge_ran log m br) as H1. destruct (add_bridge _ _ log m br) as [[l1 m1] [e|]]; destruct H1 as [H1 Hm1].
  - split; [|done]. eapply ran_stop; [|done]. rewrite Exists_cons. by left.
  - specialize (IH l1 m1). destruct (add_bridges _ _ l1 m1 brs) as [[l2 m2] err]. destruct IH as [H2 Hm2]. split.
    + eapply ran_iff; [|by eapply ran_seq]. by rewrite Exists_cons.
    + intros He. rewrite (Hm2 He), (Hm1 eq_refl). set_solver.
Qed.

Lemma set_master_ran primary names log tap :
  ran log (master_reqs primary names tap) False (set_master answer primary names log tap).1
    (set_master answer primary names log tap).2.
Proof.
  unfold set_master, master_reqs. case_decide; [|apply ran_done].
  match goal with |- context [LinkSetMaster ?a ?b] => pose proof (ran_call log (LinkSetMaster a b)) as Hc end.
  simpl in Hc |- *. destruct (answer log _); done.
Qed.
Lemma add_tap_ran primary names log hops tap :
  match add_tap ParseAddr answer primary names log hops tap with
  | (l, h, err) => ran log (tap_reqs ParseAddr primary names tap) (bad_addr ParseAddr tap) l err ∧
                   (err = None → h = hops ++ hops_of ParseAddr tap)
  end.
Proof.
  unfold add_tap, tap_reqs, hops_of. pose proof (ran_call log (AddTap (ndName tap))) as Hc. simpl in Hc |- *.
  change (AddTap (ndName tap) :: LinkSetUp (ndName tap) :: ?l) with ([AddTap (ndName tap)] ++ [LinkSetUp (ndName tap)] ++ l).
  destruct (answer log (AddTap (ndName tap))) as [e|].
  { split; [|done]. apply (ran_stop _ _ False); [tauto|exact Hc]. }
  set (log1 := log ++ [AddTap (ndName tap)]) in *.
  pose proof (ran_call log1 (LinkSetUp (ndName tap))) as Hu. simpl in Hu.
  destruct (answer log1 (LinkSetUp (ndName tap))) as [e|].
  { split; [|done]. eapply ran_iff; [|eapply ran_seq; [done|]; apply (ran_stop _ _ False (bad_addr ParseAddr tap)); [tauto|exact Hu]]. tauto. }
  set (log2 := log1 ++ [LinkSetUp (ndName tap)]) in *.
  assert (H2 : ran log ([AddTap (ndName tap)] ++ [LinkSetUp (ndName tap)]) False log2 None).
  { eapply ran_iff; [|by eapply ran_seq]. tauto. }
  rewrite app_assoc. pose proof (ran_addr log2 tap) as Ha.
  assert (Hfin : ∀ l, ran log2 (addr_reqs ParseAddr tap) (bad_addr ParseAddr tap) l None →
    ran log (([AddTap (ndName tap)] ++ [LinkSetUp (ndName tap)]) ++ addr_reqs ParseAddr tap ++ master_reqs primary names tap)
      (bad_addr ParseAddr tap) (set_master answer primary names l tap).1 (set_master answer primary names l tap).2).
  { intros l Hl. eapply ran_iff; [|eapply ran_seq; [done|]; eapply ran_seq; [done|apply set_master_ran]]. tauto. }
  assert (Hstop : ∀ l e, ran log2 (addr_reqs ParseAddr tap) (bad_addr ParseAddr tap) l (Some e) →
    ran log (([AddTap (ndName tap)] ++ [LinkSetUp (ndName tap)]) ++ addr_reqs ParseAddr tap ++ master_reqs primary names tap)
      (bad_addr ParseAddr tap) l (Some e)).
  { intros l e Hl. eapply ran_iff; [|eapply ran_seq; [done|]; apply (ran_stop _ _ (bad_addr ParseAddr tap) (bad_addr ParseAddr tap)); [tauto|exact Hl]]. tauto. }
  destruct (decide (ndIP tap ≠ "")) as [Hne|Hne].
  - destruct (ParseAddr (ndIP tap)) as [a|e]; [|split; [apply Hstop, (Ha e)|done]].
    destruct (answer log2 (AddrAdd (ndName tap) a)) as [e|]; [split; [exact (Hstop _ _ Ha)|done]|].
    specialize (Hfin _ Ha). by destruct (set_master _ _ _ _ _) as [l err].
  - specialize (Hfin _ Ha). rewrite app_nil_r. by destruct (set_master _ _ _ _ _) as [l err].
Qed.
Lemma add_taps_ran primary names log hops taps :
  match add_taps ParseAddr answer primary names log hops taps with
  | (l, h, err) => ran log (taps ≫= tap_reqs ParseAddr primary names) (Exists (bad_addr ParseAddr) taps) l err ∧
                   (err = None → h = hops ++ (taps ≫= hops_of ParseAddr))
  end.
Proof.
  revert log hops. induction taps as [|tap taps IH]; intros log hops; cbn [add_taps]; rewrite ?bind_cons.
  { split; [|by rewrite app_nil_r]. eapply ran_iff; [|apply ran_done]. by rewrite Exists_nil. }
  pose proof (add_tap_ran primary names log hops tap) as H1.
  destruct (add_tap _ _ _ _ log hops tap) as [[l1 h1] [e|]]; destruct H1 as [H1 Hh1].
  - split; [|done]. eapply ran_stop; [|done]. rewrite Exists_cons. by left.
  - specialize (IH l1 h1). destruct (add_taps _ _ _ _ l1 h1 taps) as [[l2 h2] err]. destruct IH as [H2 Hh2]. split.
    + eapply ran_iff; [|by eapply ran_seq]. by rewrite Exists_cons.
    + intros He. by rewrite (Hh2 He), (Hh1 eq_refl), app_assoc.
Qed.
End runs.

Lemma Bridges_filter c : Bridges c = filter (λ nd, ndType nd = NetdevTypeBridge) (HostNetdevs c).
Proof.
  unfold Bridges. induction (HostNetdevs c) as [|nd l IH] using rev_ind; [done|].
  rewrite foldl_app, filter_app. simpl. rewrite IH, filter_cons, filter_nil. case_decide; [done|by rewrite app_nil_r].
Qed.
Lemma Taps_filter c : Taps c = filter (λ nd, ndType nd = NetdevTypeTap) (HostNetdevs c).
Proof.
  unfold Taps. induction (HostNetdevs c) as [|nd l IH] using rev_ind; [done|].
  rewrite foldl_app, filter_app. simpl. rewrite IH, filter_cons, filter_nil. case_decide; [done|by rewrite app_nil_r].
Qed.

(** A configuration without a bridge, or with an address that does not parse. *)
Definition faulty (ParseAddr : string → addr + error) (cfg : Config) : Prop :=
  Bridges cfg = [] ∨ Exists (bad_addr ParseAddr) (Bridges cfg) ∨ Exists (bad_addr ParseAddr) (Taps cfg).

Section setup_runs.
Context `{!FlatErrors} (ParseAddr : string → addr + error) (answer : list request → request → option error).
#[local] Open Scope list_scope.

(** The part of [setupNetwork] after the bridges. *)
Lemma route_ran log hops :
  match (if decide (0 < length hops)%nat then
           let (log, err) := call answer log (RouteAdd (ParseIP "10.0.0.123") hops) in
           match err with Some e => (log, failed e "cannot add route") | None => (log, None) end
         else (log, None)) with
  | (l, err) => ran answer log (if decide (hops = []) then [] else [RouteAdd (ParseIP "10.0.0.123") hops]) False l err
  end.
Proof.
  destruct hops as [|h hops]; [apply ran_done|]. rewrite decide_True by (simpl; lia). rewrite decide_False by done.
  pose proof (ran_call answer log (RouteAdd (ParseIP "10.0.0.123") (h :: hops))) as Hc. simpl in Hc |- *.
  destruct (answer log _); exact Hc.
Qed.

Lemma setupNetwork_ran cfg log err :
  setupNetwork ParseAddr answer cfg = (log, err) → ran answer [] (plan ParseAddr cfg) (faulty ParseAddr cfg) log err.
Proof.
  unfold setupNetwork, plan. intros Hs.
  pose proof (ran_call answer [] (LinkByName "lo")) as H1. simpl in H1, Hs.
  destruct (answer [] (LinkByName "lo")) as [e|].
  { injection Hs as <- <-. apply (ran_stop _ _ [LinkByName "lo"] False); [tauto|exact H1]. }
  pose proof (ran_call answer [LinkByName "lo"] (LinkSetUp "lo")) as H2. simpl in H2.
  destruct (answer [LinkByName "lo"] (LinkSetUp "lo")) as [e|].
  { injection Hs as <- <-. eapply (ran_then _ False (faulty ParseAddr cfg) _ _ [LinkByName "lo"]); [tauto|exact H1|].
    apply (ran_stop _ _ [LinkSetUp "lo"] False); [tauto|exact H2]. }
  assert (H12 : ran answer [] [LinkByName "lo"; LinkSetUp "lo"] False [LinkByName "lo"; LinkSetUp "lo"] None).
  { eapply (ran_then _ False False _ _ [LinkByName "lo"]); [tauto|exact H1|exact H2]. }
  eapply (ran_then _ False (faulty ParseAddr cfg)); [unfold faulty; tauto|exact H12|]. clear H1 H2 H12.
  destruct (Bridges cfg) as [|br0 brs] eqn:Hb.
  { injection Hs as <- <-. apply (ran_stop _ _ [] True); [by left|by apply ran_bad]. }
  rewrite <-Hb in *. pose proof (add_bridges_ran ParseAddr answer [LinkByName "lo"; LinkSetUp "lo"] ∅ (Bridges cfg)) as HB.
  destruct (add_bridges _ _ _ _ _) as [[l1 m1] [e|]]; destruct HB as [HB Hm1].
  { injection Hs as <- <-. eapply ran_stop; [|exact HB]. unfold faulty. tauto. }
  eapply (ran_then _ (Exists (bad_addr ParseAddr) (Bridges cfg)) (Exists (bad_addr ParseAddr) (Taps cfg))); [|exact HB|].
  { unfold faulty. rewrite Hb. split; [tauto|]. intros [?|?]; [done|tauto]. }
  rewrite Hb in Hm1 |- *. rewrite (Hm1 eq_refl), union_empty_r_L in Hs. simpl head. simpl default.
  pose proof (add_taps_ran ParseAddr answer (ndName br0) (list_to_set (ndName <$> br0 :: brs)) l1 [] (Taps cfg)) as HT.
  destruct (add_taps _ _ _ _ _ _ _) as [[l2 h2] [e|]]; destruct HT as [HT Hh2].
  { injection Hs as <- <-. eapply ran_stop; [|exact HT]. done. }
  eapply (ran_then _ (Exists (bad_addr ParseAddr) (Taps cfg)) False); [tauto|exact HT|].
  specialize (Hh2 eq_refl). simpl in Hh2. rewrite <-Hh2. pose proof (route_ran l2 h2) as HR.
  unfold call in HR. cbv beta iota zeta in HR. by rewrite Hs in HR.
Qed.
End setup_runs.

(** ** run.go and main.go *)

Lemma driver_htons_involutive i : 0 <= i < 2 ^ 16 → htons (htons i) = i.
Proof. intros Hi. unfold htons, PutUint16LE, Uint16BE. Z.div_mod_to_equations; lia. Qed.

(** A tap keeps its name when it is short enough; the kernel's string is not
    terminated when it fills the array. *)
Lemma Ifreq_name name :
  length (Ifreq_bytes name) = 40%nat ∧ take 16 (Ifreq_bytes name) = take 16 (bytes name ++ replicate 16 0)%list.
Proof.
  unfold Ifreq_bytes. set (n := take 16 (bytes name)).
  assert (Hn : (length n <= 16)%nat) by (unfold n; rewrite length_take; lia). split.
  - rewrite !length_app, !length_replicate. simpl. lia.
  - rewrite (app_assoc n), take_app_le, take_ge by (rewrite !length_app, !length_replicate; lia).
    rewrite take_app, take_replicate. unfold n. f_equal. f_equal. rewrite length_take. lia.
Qed.

(** Whatever happens, a descriptor that was opened stays open: nothing closes
    the tun device's, nor the socket's on an error. *)
Theorem OpenTapFd_leaks sys name fd :
  sys_open sys = inl fd → fd ∈ (OpenTapFd sys name).1.
Proof.
  intros Ho. unfold OpenTapFd. rewrite Ho. case_decide; [set_solver|].
  destruct (sys_socket _ _); [|set_solver]. destruct (sys_iface _ _); [|set_solver]. destruct (sys_bind _ _); set_solver.
Qed.

(** [Run] never ends well: it returns an error, or goes on. *)
Lemma Run_error `{!FlatErrors} sys rs cfg : Run sys rs cfg ≠ Done None.
Proof.
  unfold Run. destruct (Taps cfg) as [|tap taps]; [done|]. destruct (OpenTapFd sys (ndName tap)) as [fds [sk|e]]; simpl; [|done].
  unfold Sendto. destruct (sys_sendto sys sk _); [done|]. induction rs as [|[n|e] rs IH]; done.
Qed.
(** The exit status, by command: only [run] and an unusable configuration
    give 1; an unknown command, or the arguments in the documented order
    (command first), are not reported when the file exists. *)
Theorem driver_status `{!FlatErrors} ReadFile Unmarshal ParseAddr answer sys rs prog path cmd :
  main ReadFile Unmarshal ParseAddr answer sys rs [prog; path; cmd] =
  match GetConfig ReadFile Unmarshal [prog; path; cmd] with
  | inr _ => Done 1
  | inl cfg => if decide (cmd = "run") then _ ← Run sys rs cfg; Done 1 else Done 0
  end.
Proof.
  unfold main. destruct (GetConfig _ _ _) as [cfg|e]; [|done]. unfold slice_get. simpl.
  assert (HS : (Setup ParseAddr answer cfg).2 = None) by (unfold Setup, prepareVMs; by destruct (setupNetwork _ _ _) as [? []]).
  case_decide as H1; [subst; rewrite HS; by rewrite decide_False|]. case_decide as H2; [subst; by rewrite decide_False|].
  case_decide as H3; [subst|by case_decide].
  pose proof (Run_error sys rs cfg) as Hne. by destruct (Run sys rs cfg) as [[e|]| | |].
Qed.

(** * Properties *)

(** Setting up the test network. Whatever the netlink library answers, the
    requests made are those of the plan, in its order; the function succeeds
    only if all of them were made and accepted, and otherwise stopped at the
    first one that was refused, or at a fault of the configuration: no bridge,
    or an address that does not parse. [Setup] reports success in every case,
    so a failed setup is never torn down. *)
Theorem setup_follows_plan `{!FlatErrors} ParseAddr answer cfg log err :
  setupNetwork ParseAddr answer cfg = (log, err) →
  match err with
  | None => log = plan ParseAddr cfg ∧ accepts answer [] log ∧ ¬ faulty ParseAddr cfg
  | Some _ =>
      log `prefix_of` plan ParseAddr cfg ∧
      ((∃ d r, log = (d ++ [r])%list ∧ accepts answer [] d ∧ is_Some (answer d r)) ∨
       (accepts answer [] log ∧ faulty ParseAddr cfg))
  end ∧
  Setup ParseAddr answer cfg = (log, None).
Proof.
  intros Hs. split; [|unfold Setup; rewrite Hs; by destruct err].
  pose proof (setupNetwork_ran ParseAddr answer cfg log err Hs) as Hr. destruct err; unfold ran in Hr; simpl in Hr.
  - destruct Hr as (made & -> & Hp & Hw). split; [done|]. destruct Hw as [(d & r & -> & Hd)|Hw]; [left; by exists d, r|by right].
  - by destruct Hr as (-> & ? & ?).
Qed.

(** A bridge with an address and two taps, one with an address. *)
Definition sample_net : Config :=
  {| HostNetdevs := [ {| ndName := "br0"; ndIP := "10.0.0.1/24"; ndType := NetdevTypeBridge; ndLink := "" |};
                      {| ndName := "tap0"; ndIP := "10.0.0.10/24"; ndType := NetdevTypeTap; ndLink := "br0" |};
                      {| ndName := "tap1"; ndIP := ""; ndType := NetdevTypeTap; ndLink := "br9" |} ];
     VMSpecs := [] |}.
Definition sample_parse (s : string) : addr + error := inl ([10; 0; 0; 7], 24).
Definition sample_answer (log : list request) (r : request) : option error :=
  match r with RouteAdd _ _ => Some (Foreign 17) | _ => None end.
Lemma setup_follows_plan_witness : ∃ log e,
  setupNetwork (H := flaterrors_wraps) sample_parse sample_answer sample_net = (log, Some e) ∧
  log = plan sample_parse sample_net ∧ Setup (H := flaterrors_wraps) sample_parse sample_answer sample_net = (log, None).
Proof.
  destruct (setupNetwork (H := flaterrors_wraps) sample_parse sample_answer sample_net) as [log err] eqn:E.
  destruct (setup_follows_plan (H := flaterrors_wraps) _ _ _ _ _ E) as [_ HS].
  vm_compute in E. injection E as <- <-. eexists _, _. split; [reflexivity|]. split; [by vm_compute|exact HS].
Defined.
