(* ===== verification/TrafficGen.v ===== *)
(** * TrafficGen: the traffic generator's main (cmd/udplb-traffic-gen)

    The generator sends one prebuilt datagram per tick, the sessions in turn,
    until its timer fires or a signal arrives, and prints how many it sent for
    each session.  The ticks with the outcome of their write, the timer and
    the signal are the events it selects on, in the order it takes them. *)
From S2P Require Import Prelude Types Packet.

(** [uuid.New] draws a new identifier each time it is called. *)
Definition GenerateSessions (fresh : nat → uuid) (n : Z) : go (list uuid) :=
  if decide (n < 0) then Panic MakeLength else Done (fresh <$> seq 0 (Z.to_nat n)).

(** [TotalSent] and the counts, keyed by the text of the session. *)
Record Report := { TotalSent : Z; Sent : gmap (list Z) Z }.

Inductive gen_event := Tick (write_ok : bool) | TimerFires | SignalArrives.

Section generator.
Context (UUIDString : uuid → list Z).

(** The loop's variables, and the datagrams it has written. *)
Record gen := { idx : Z; report : Report; sentPackets : list (list Z) }.

Definition new_report (sessionIDs : list uuid) : Report :=
  {| TotalSent := 0; Sent := foldl (λ m sid, <[UUIDString sid := 0]> m) ∅ sessionIDs |}.

Definition gen_tick (sessionIDs : list uuid) (packets : list (list Z)) (g : gen) (write_ok : bool) : go gen :=
  if decide (length sessionIDs = 0%nat) then Panic DivideByZero
  else
    let sessionIdx := Z.rem (idx g) (Z.of_nat (length sessionIDs)) in
    packet ← slice_get packets sessionIdx;
    if write_ok then
      sid ← slice_get sessionIDs sessionIdx;
      match Sent (report g) !! UUIDString sid with
      | None => Panic NilDereference
      | Some n =>
          Done {| idx := i64 (idx g + 1);
                  report := {| TotalSent := i64 (TotalSent (report g) + 1);
                               Sent := <[UUIDString sid := i64 (n + 1)]> (Sent (report g)) |};
                  sentPackets := sentPackets g ++ [packet] |}
      end
    else Done {| idx := i64 (idx g + 1); report := report g; sentPackets := sentPackets g |}.

Fixpoint gen_loop (sessionIDs : list uuid) (packets : list (list Z)) (g : gen) (evs : list gen_event) : go gen :=
  match evs with
  | [] => NoFuel
  | Tick ok :: evs => g ← gen_tick sessionIDs packets g ok; gen_loop sessionIDs packets g evs
  | TimerFires :: _ | SignalArrives :: _ => Done g
  end.

(** [main]: the flags it checks, what resolving and dialling gave; the result
    is the exit status 1, or the printed report with the datagrams sent.  The
    interval of the ticker is a second divided by the rate; a ticker panics on
    an interval that is not positive. *)
Definition gen_main (target : string) (sessions rate payloadSize : Z) (resolved dialled : bool) (fresh : nat → uuid)
    (evs : list gen_event) : go (gen + Z) :=
  if decide (target = "") then Done (inr 1)
  else if decide (sessions <= 0) then Done (inr 1)
  else if decide (rate <= 0) then Done (inr 1)
  else if negb resolved then Done (inr 1)
  else if negb dialled then Done (inr 1)
  else
    sessionIDs ← GenerateSessions fresh sessions;
    packets ← mapM (λ sid, BuildPacket sid payloadSize) sessionIDs;
    let interval := 10 ^ 9 `div` rate in
    if decide (interval <= 0) then Panic ExplicitPanic
    else
      g ← gen_loop sessionIDs packets {| idx := 0; report := new_report sessionIDs; sentPackets := [] |} evs;
      Done (inl g).
End generator.

(** * Lemmas *)

(** The sessions whose datagram was written, over the outcomes of the ticks:
    the [k]-th tick is the turn of session [k] modulo their number. *)
Definition served (ids : list uuid) (oks : list bool) : list uuid :=
  omap (λ p : nat * bool, if p.2 then ids !! (p.1 mod length ids)%nat else None) (zip (seq 0 (length oks)) oks).
Definition times (sid : uuid) (l : list uuid) : Z := Z.of_nat (length (filter (λ s, s = sid) l)).
(** The datagram of a session. *)
Definition packet_of (payloadSize : Z) (sid : uuid) : list Z :=
  prefix_bytes ++ sid ++ replicate (Z.to_nat payloadSize) 0.

Lemma served_snoc ids oks ok :
  served ids (oks ++ [ok]) =
  served ids oks ++ (if ok : bool then match ids !! (length oks mod length ids)%nat with Some s => [s] | None => [] end else []).
Proof.
  unfold served. rewrite length_app. simpl. rewrite seq_app, zip_with_app by by rewrite length_seq. rewrite omap_app.
  f_equal. simpl. destruct ok; [|done]. by destruct (ids !! _).
Qed.
Lemma served_length ids oks : (length (served ids oks) <= length oks)%nat.
Proof.
  induction oks as [|ok oks IH] using rev_ind; [done|]. rewrite served_snoc, !length_app. simpl.
  destruct ok; [destruct (ids !! _)|]; simpl; lia.
Qed.
Lemma served_in ids oks : Forall (λ s, s ∈ ids) (served ids oks).
Proof.
  induction oks as [|ok oks IH] using rev_ind; [by constructor|]. rewrite served_snoc, Forall_app. split; [done|].
  destruct ok; [|by constructor]. destruct (ids !! _) eqn:E; [|by constructor]. repeat constructor. by eapply list_elem_of_lookup_2.
Qed.
Lemma times_snoc sid l s : times sid (l ++ [s]) = times sid l + if decide (s = sid) then 1 else 0.
Proof. unfold times. rewrite filter_app, length_app, filter_cons, filter_nil. case_decide; simpl; lia. Qed.
Lemma times_bound sid l : 0 <= times sid l <= Z.of_nat (length l).
Proof. unfold times. pose proof (length_filter (λ s, s = sid) l). lia. Qed.

Lemma NoDup_fmap_elem {A B} (f : A → B) l x y : NoDup (f <$> l) → x ∈ l → y ∈ l → f x = f y → x = y.
Proof.
  intros Hnd [i Hi]%list_elem_of_lookup [j Hj]%list_elem_of_lookup Hf.
  assert (i = j) as ->; [|congruence].
  eapply (NoDup_lookup (f <$> l)); [done|by rewrite list_lookup_fmap, Hi|]. by rewrite list_lookup_fmap, Hj, Hf.
Qed.

Section generator_runs.
Context (UUIDString : uuid → list Z) (ids : list uuid) (payloadSize : Z).
Context (Hids : ids ≠ []) (Hkeys : NoDup (UUIDString <$> ids)).

Record gen_at (oks : list bool) (g : gen) : Prop := {
  ga_idx : idx g = Z.of_nat (length oks);
  ga_packets : sentPackets g = packet_of payloadSize <$> served ids oks;
  ga_total : TotalSent (report g) = Z.of_nat (length (served ids oks));
  ga_sent : ∀ sid, sid ∈ ids → Sent (report g) !! UUIDString sid = Some (times sid (served ids oks))
}.

Lemma new_report_sent sid : sid ∈ ids → Sent (new_report UUIDString ids) !! UUIDString sid = Some 0.
Proof.
  clear Hids Hkeys. unfold new_report. simpl. induction ids as [|x l IH] using rev_ind; [by intros ?%not_elem_of_nil|].
  rewrite foldl_app. simpl. intros [Hin|Heq%list_elem_of_singleton]%elem_of_app.
  - destruct (decide (UUIDString x = UUIDString sid)) as [E|E]; [by rewrite E, lookup_insert_eq|].
    rewrite lookup_insert_ne by done. by apply IH.
  - by rewrite Heq, lookup_insert_eq.
Qed.

Lemma gen_at_tick oks g ok :
  Z.of_nat (length oks) < max_i64 → gen_at oks g →
  returns (gen_tick UUIDString ids (packet_of payloadSize <$> ids) g ok) (gen_at (oks ++ [ok])).
Proof.
  intros Hlt [Hi Hp Ht Hs]. unfold gen_tick.
  assert (Hn : length ids ≠ 0%nat) by by destruct ids.
  rewrite decide_False by done. set (k := (length oks mod length ids)%nat).
  assert (Hk : Z.rem (idx g) (Z.of_nat (length ids)) = Z.of_nat k).
  { rewrite Hi, Z.rem_mod_nonneg, <-Nat2Z.inj_mod by lia. done. }
  destruct (lookup_lt_is_Some_2 ids k) as [sid Hsid]; [apply Nat.mod_upper_bound; lia|].
  assert (Hidx : i64 (idx g + 1) = Z.of_nat (length (oks ++ [ok]))).
  { rewrite Hi, length_app. simpl. rewrite i64_small; [lia|]. unfold is_i64, min_i64, max_i64 in *. lia. }
  rewrite Hk. unfold slice_get. rewrite !decide_True by lia. rewrite Nat2Z.id, list_lookup_fmap, Hsid. cbn [fmap option_fmap option_map mbind go_bind].
  assert (Hin : sid ∈ ids) by by eapply list_elem_of_lookup_2.
  destruct ok; [|apply returns_done; split; simpl; [done|by rewrite served_snoc, app_nil_r..]].
  rewrite (Hs sid Hin). apply returns_done. pose proof (served_length ids oks).
  split; simpl; rewrite ?served_snoc, ?Hsid; fold k; rewrite ?Hsid.
  - done.
  - by rewrite Hp, fmap_app.
  - rewrite Ht, length_app. simpl. rewrite i64_small; [lia|]. unfold is_i64, min_i64, max_i64 in *. lia.
  - intros sid' Hin'. rewrite times_snoc. destruct (decide (sid = sid')) as [<-|Hne].
    + rewrite lookup_insert_eq. f_equal. rewrite i64_small; [done|].
      pose proof (times_bound sid (served ids oks)). unfold is_i64, min_i64, max_i64 in *. lia.
    + rewrite lookup_insert_ne; [by rewrite Z.add_0_r, Hs|]. intros E. apply Hne.
      by apply (NoDup_fmap_elem UUIDString ids).
Qed.
End generator_runs.

Lemma gen_loop_at UUIDString ids payloadSize oks0 oks g stop rest :
  ids ≠ [] → NoDup (UUIDString <$> ids) → Z.of_nat (length (oks0 ++ oks)) <= max_i64 → (∀ b, stop ≠ Tick b) →
  gen_at UUIDString ids payloadSize oks0 g →
  returns (gen_loop UUIDString ids (packet_of payloadSize <$> ids) g ((Tick <$> oks) ++ stop :: rest))
    (gen_at UUIDString ids payloadSize (oks0 ++ oks)).
Proof.
  intros Hids Hkeys Hlen Hstop. revert oks0 g Hlen. induction oks as [|ok oks IH]; intros oks0 g Hlen Hg.
  - rewrite app_nil_r. destruct stop as [b| |]; [by destruct (Hstop b)|by apply returns_done..].
  - rewrite fmap_cons. cbn [app gen_loop]. eapply returns_bind.
    + apply gen_at_tick; try done. rewrite length_app in Hlen. simpl in Hlen. lia.
    + intros g' Hg'. replace (oks0 ++ ok :: oks) with ((oks0 ++ [ok]) ++ oks) in * by by rewrite <-app_assoc.
      by apply IH.
Qed.

Lemma mapM_Done {A B} (f : A → go B) (h : A → B) l : (∀ x, x ∈ l → f x = Done (h x)) → mapM f l = Done (h <$> l).
Proof.
  induction l as [|x l IH]; intros Hf; [done|]. simpl. rewrite Hf by set_solver. simpl. rewrite IH by set_solver. done.
Qed.

Lemma gen_main_at UUIDString target sessions rate payloadSize fresh oks stop rest :
  let ids := fresh <$> seq 0 (Z.to_nat sessions) in
  target ≠ "" → 0 < sessions → 0 < rate <= 10 ^ 9 → 0 <= payloadSize <= max_i64 - 20 → (∀ i, is_uuid (fresh i)) →
  NoDup (UUIDString <$> ids) → Z.of_nat (length oks) <= max_i64 → (∀ b, stop ≠ Tick b) →
  returns (gen_main UUIDString target sessions rate payloadSize true true fresh ((Tick <$> oks) ++ stop :: rest))
    (λ r, ∃ g, r = inl g ∧ gen_at UUIDString ids payloadSize oks g).
Proof.
  intros ids Ht Hs Hr Hp Hf Hk Hl Hstop. unfold gen_main, GenerateSessions.
  rewrite (decide_False (P := target = "")), (decide_False (P := sessions <= 0)), (decide_False (P := rate <= 0)),
    (decide_False (P := sessions < 0)) by (done || lia). cbn [mbind go_bind negb]. fold ids.
  rewrite (mapM_Done _ (packet_of payloadSize)).
  2: { intros x (i & -> & _)%list_elem_of_fmap. by apply BuildPacket_run. }
  cbn [mbind go_bind]. rewrite decide_False.
  2: { assert (1 <= 10 ^ 9 `div` rate) by (apply Z.div_le_lower_bound; lia). lia. }
  assert (Hne : ids ≠ []).
  { unfold ids. destruct (Z.to_nat sessions) as [|n] eqn:E; [lia|done]. }
  eapply returns_bind; [apply (gen_loop_at UUIDString ids payloadSize []); try done|].
  - split; simpl; try done. intros sid Hsid. by apply new_report_sent.
  - intros g Hg. apply returns_done. eauto.
Qed.

(** What the echo backend counts of the datagrams of [l]. *)
Lemma packets_counted payloadSize a l sid :
  Forall is_uuid l →
  let ds := (λ p, (p, Some a)) <$> (packet_of payloadSize <$> l) in
  accepted ds = ds ∧ session_count ds sid = times sid l ∧ Forall (λ d, Forall is_byte d.1) ds.
Proof.
  intros Hl. simpl. induction l as [|s l IH] using rev_ind; [done|].
  rewrite Forall_app, Forall_singleton in Hl. destruct Hl as [Hl [Hlen Hb]]. destruct (IH Hl) as (IH1 & IH2 & IH3).
  destruct (valid_packet_intro s (replicate (Z.to_nat payloadSize) 0) Hlen) as [Hv Hps].
  rewrite !fmap_app. cbn [fmap list_fmap]. fold (packet_of payloadSize s) in Hv, Hps. split_and!.
  - rewrite accepted_snoc. simpl. by rewrite Hv, IH1.
  - rewrite session_count_snoc, times_snoc. simpl. by rewrite Hv, Hps, IH2.
  - rewrite Forall_app, Forall_singleton. split; [done|]. simpl. unfold packet_of. rewrite !Forall_app. split_and!; [|done|].
    + unfold prefix_bytes, is_byte. repeat constructor; lia.
    + apply Forall_replicate. unfold is_byte. lia.
Qed.

(** * Properties *)

(** The generator's report is what its receiver counts. For every valid
    choice of flags and every sequence of ticks, whichever writes fail, the
    generator stops at the timer or the signal without a panic, and has sent
    the datagrams of its sessions in turn, those whose write succeeded. If an
    echo backend receives exactly these datagrams, its total and its count of
    each session are the ones the generator reports. *)
Theorem generator_and_echo_agree UUIDString IPString target sessions rate payloadSize fresh oks stop rest a :
  let ids := fresh <$> seq 0 (Z.to_nat sessions) in
  target ≠ "" → 0 < sessions → 0 < rate <= 10 ^ 9 → 0 <= payloadSize <= max_i64 - 20 → (∀ i, is_uuid (fresh i)) →
  NoDup (UUIDString <$> ids) → Z.of_nat (length oks) <= max_i64 → (∀ b, stop ≠ Tick b) →
  returns (r ← gen_main UUIDString target sessions rate payloadSize true true fresh ((Tick <$> oks) ++ stop :: rest);
           match r with
           | inl g => '(st, _) ← echo_run IPString ((λ p, (p, Some a)) <$> sentPackets g); Done (Some (g, st))
           | inr _ => Done None
           end)
    (λ x, ∃ g st, x = Some (g, st) ∧ sentPackets g = packet_of payloadSize <$> served ids oks ∧
       TotalSent (report g) = TotalReceived st ∧
       ∀ sid, sid ∈ ids → Sent (report g) !! UUIDString sid = Some (map_get (Sessions st) sid)).
Proof.
  intros ids Ht Hs Hr Hp Hf Hk Hl Hstop. eapply returns_bind; [by apply gen_main_at|].
  intros r (g & -> & Hg). fold ids in Hg. destruct Hg as [_ Hpk Htot Hsent]. rewrite Hpk.
  assert (Hu : Forall is_uuid (served ids oks)).
  { eapply Forall_impl; [apply served_in|]. intros s (i & -> & _)%list_elem_of_fmap. done. }
  assert (Hc := λ sid, packets_counted payloadSize a (served ids oks) sid Hu). simpl in Hc.
  set (ds := (λ p, (p, Some a)) <$> _) in *. pose proof (served_length ids oks).
  eapply returns_bind; [apply echo_run_at; [apply (Hc [])|unfold ds; rewrite !length_fmap; lia]|].
  intros [st sent] [Et Ec _ _]. apply returns_done. exists g, st. simpl in *. split_and!; [done|done| |].
  - rewrite Et, Htot, (proj1 (Hc [])). unfold ds. by rewrite !length_fmap.
  - intros sid Hin. rewrite (Hsent sid Hin), Ec. by destruct (Hc sid) as (_ & -> & _).
Qed.

Definition sample_fresh (i : nat) : uuid := replicate 16 (Z.of_nat i mod 256).
Lemma generator_and_echo_agree_witness :
  returns (r ← gen_main id "10.0.0.1:1" 3 100 5 true true sample_fresh ((Tick <$> [true; true; false; true; true]) ++ [TimerFires]);
           match r with
           | inl g => '(st, _) ← echo_run id ((λ p, (p, Some [10; 0; 0; 9])) <$> sentPackets g); Done (Some (g, st))
           | inr _ => Done None
           end)
    (λ x, ∃ g st, x = Some (g, st) ∧
       sentPackets g = packet_of 5 <$> served (sample_fresh <$> seq 0 3) [true; true; false; true; true] ∧
       TotalSent (report g) = TotalReceived st ∧
       ∀ sid, sid ∈ sample_fresh <$> seq 0 3 → Sent (report g) !! sid = Some (map_get (Sessions st) sid)).
Proof.
  apply (generator_and_echo_agree id id "10.0.0.1:1" 3 100 5 sample_fresh [true; true; false; true; true] TimerFires []);
    try done; unfold max_i64; try (simpl; lia).
  - intros i. split; [apply length_replicate|]. apply Forall_replicate. unfold is_byte. apply Z.mod_pos_bound. lia.
  - apply (bool_decide_unpack _). by vm_compute.
Defined.
