(* ===== verification/Validation.v ===== *)
(** * Validation: the message validators (pkg/apis/common/v1alpha1)

    [Validate] of RequestMetadata, ResponseMetadata and Error.  A message is
    used through a pointer, so a missing one is [None] and reading its fields
    panics.  [uuid.Parse] of google/uuid is an argument. *)
From S2P Require Import Prelude Types.
#[local] Open Scope string_scope.

Definition errInvalidRequestMetadata := Sentinel "invalid RequestMetadata".
Definition errATraceIdMustBeSpecified := Sentinel "a traceId must be specified".
Definition errInvalidResponseMetadata := Sentinel "invalid ResponseMetadata".
Definition errInvalidDistributedError := Sentinel "invalid DistributedError".
Definition errAnErrorMustBeSpecified := Sentinel "an error must be specified".
Definition errUnknownErrorType := Sentinel "unknown error type".

(** The fields the validators read. *)
Record RequestMetadata := { RequestId : string; ReqTraceId : string }.
Record ResponseMetadata := { TraceId : string }.
Record TypedError := { ErrType : Z; ErrText : string }.
Record Error := { Errors : list (option TypedError); Metadata : option ResponseMetadata }.

(** AxisEnum of 00_enums.go. *)
Definition AxisX := "x".
Definition AxisY := "y".

(** Dereferences a message pointer. *)
Definition deref {A} (p : option A) : go A := match p with Some a => Done a | None => Panic NilDereference end.

(** The interface Validator of 00_interfaces.go. *)
Class Validator (M : Type) := Validate : option M → go (option error).

Section validators.
Context `{!FlatErrors} (uuid_Parse : string → uuid + error).

#[export] Instance RequestMetadata_Validate : Validator RequestMetadata := λ p,
  m ← deref p;
  match uuid_Parse (RequestId m) with
  | inr err => Done (Some (Join [err; errInvalidRequestMetadata]))
  | inl _ =>
      if decide (ReqTraceId m = "") then Done (Some (Join [errATraceIdMustBeSpecified; errInvalidRequestMetadata]))
      else Done None
  end.

#[export] Instance ResponseMetadata_Validate : Validator ResponseMetadata := λ p,
  m ← deref p;
  if decide (TraceId m = "") then Done (Some (Join [errATraceIdMustBeSpecified; errInvalidResponseMetadata]))
  else Done None.

(** The loop of [Error.Validate] over the errors: the first fault. *)
Fixpoint validate_errors (l : list (option TypedError)) : go (option error) :=
  match l with
  | [] => Done None
  | p :: l =>
      derr ← deref p;
      if decide (ErrType derr = 0) then Done (Some (Join [errUnknownErrorType; errInvalidDistributedError]))
      else if decide (ErrText derr = "") then Done (Some (Join [errAnErrorMustBeSpecified; errInvalidDistributedError]))
      else validate_errors l
  end.

#[export] Instance Error_Validate : Validator Error := λ p,
  e ← deref p;
  if decide (length (Errors e) = 0%nat) then Done (Some (Join [errAnErrorMustBeSpecified; errInvalidDistributedError]))
  else
    r ← validate_errors (Errors e);
    match r with
    | Some err => Done (Some err)
    | None =>
        r ← Validate (Metadata e);
        match r with
        | Some err => Done (Some (Join [err; errInvalidDistributedError]))
        | None => Done None
        end
    end.
End validators.

(** * Lemmas *)

Section specs.
Context `{!FlatErrors}.

(** An entry that says what went wrong. *)
Definition told (d : TypedError) : Prop := ErrType d ≠ 0 ∧ ErrText d ≠ "".
#[export] Instance told_dec d : Decision (told d).
Proof. unfold told. apply _. Defined.

Lemma validate_errors_run (ds : list TypedError) :
  returns (validate_errors (Some <$> ds)) (λ r,
    (r = None ↔ Forall told ds) ∧ (∀ err, r = Some err → errors_is err "invalid DistributedError" = true)).
Proof.
  induction ds as [|d ds IH]; [by apply returns_done|]. rewrite fmap_cons. cbn [validate_errors deref mbind go_bind].
  destruct (decide (ErrType d = 0)) as [Ht|Ht].
  { apply returns_done. rewrite Forall_cons. unfold told at 1. split; [naive_solver|]. intros err [= <-]. by rewrite Join_is. }
  destruct (decide (ErrText d = "")) as [Hx|Hx].
  { apply returns_done. rewrite Forall_cons. unfold told at 1. split; [naive_solver|]. intros err [= <-]. by rewrite Join_is. }
  eapply returns_mono; [exact IH|]. intros r. rewrite Forall_cons. unfold told at 2. naive_solver.
Qed.
End specs.

(** * Properties *)

(** What the validator of a distributed error accepts. A message whose
    entries are all present and that carries metadata is accepted exactly when
    it has an entry, every entry has a known type and a text, and the metadata
    names a trace; whatever it rejects is reported as an invalid error. A
    message without metadata, which the wire format allows, makes it panic
    instead of being rejected. *)
Theorem error_validation `{!FlatErrors} (ds : list TypedError) (md : ResponseMetadata) :
  returns (Validate (Some {| Errors := Some <$> ds; Metadata := Some md |})) (λ r,
    (r = None ↔ ds ≠ [] ∧ Forall told ds ∧ TraceId md ≠ "") ∧
    (∀ err, r = Some err → errors_is err "invalid DistributedError" = true)) ∧
  (ds ≠ [] → Forall told ds →
     Validate (Some {| Errors := Some <$> ds; Metadata := None |}) = Panic NilDereference).
Proof.
  unfold Validate, Error_Validate. cbn [deref mbind go_bind Errors Metadata]. rewrite length_fmap. split.
  - destruct (decide (length ds = 0%nat)) as [Hl|Hl].
    { apply returns_done. split; [|intros err [= <-]; by rewrite Join_is]. apply nil_length_inv in Hl. naive_solver. }
    assert (Hne : ds ≠ []) by (intros ->; by apply Hl).
    eapply returns_bind; [apply validate_errors_run|]. intros r [Hr He]. destruct r as [err|].
    + apply returns_done. split; [|done]. split; [done|]. intros (_ & Hall & _). by apply Hr in Hall.
    + unfold Validate, ResponseMetadata_Validate. cbn [deref mbind go_bind].
      destruct (decide (TraceId md = "")); cbn [mbind go_bind]; apply returns_done.
      * split; [naive_solver|]. intros err [= <-]. rewrite Join_is. simpl. by rewrite orb_true_r.
      * split; [|done]. naive_solver.
  - intros Hne Hall. rewrite decide_False by (intros ?%nil_length_inv; done).
    destruct (validate_errors_run ds) as (r & -> & Hr & _). apply Hr in Hall as ->. done.
Qed.

Lemma error_validation_witness :
  let d := {| ErrType := 4; ErrText := "bad port" |} in
  returns (@Validate _ (@Error_Validate flaterrors_wraps) (Some {| Errors := [Some d]; Metadata := Some {| TraceId := "t" |} |}))
    (λ r, (r = None ↔ [d] ≠ [] ∧ Forall told [d] ∧ "t" ≠ "") ∧
          (∀ err, r = Some err → errors_is err "invalid DistributedError" = true)) ∧
  @Validate _ (@Error_Validate flaterrors_wraps) (Some {| Errors := [Some d]; Metadata := None |}) = Panic NilDereference.
Proof.
  intros d. destruct (@error_validation flaterrors_wraps [d] {| TraceId := "t" |}) as [H1 H2].
  split; [exact H1|]. apply H2; [done|]. by repeat constructor.
Defined.

(** A request is valid when its identifier parses and it names a trace. *)
Theorem request_validation `{!FlatErrors} uuid_Parse (m : RequestMetadata) :
  returns (@Validate _ (RequestMetadata_Validate uuid_Parse) (Some m)) (λ r,
    (r = None ↔ (∃ id, uuid_Parse (RequestId m) = inl id) ∧ ReqTraceId m ≠ "") ∧
    (∀ err, r = Some err → errors_is err "invalid RequestMetadata" = true)).
Proof.
  unfold Validate, RequestMetadata_Validate. cbn [deref mbind go_bind].
  destruct (uuid_Parse (RequestId m)) as [id|err].
  - destruct (decide (ReqTraceId m = "")); apply returns_done.
    + split; [naive_solver|]. intros err [= <-]. by rewrite Join_is.
    + split; [naive_solver|done].
  - apply returns_done. split; [naive_solver|]. intros e [= <-]. rewrite Join_is. simpl. by rewrite orb_true_r.
Qed.
