(* ===== verification/BenchLog.v ===== *)
(** * BenchLog: the benchmark log parser (analysis/rlt/cmd/parse/main.go)

    The program finds all matches of one regular expression in a log and
    prints their groups as CSV.  The expression is a sequence of literals and
    of non-empty runs of a class of bytes; what may follow a run is never in
    its class, so the leftmost match is the greedy one and [match_record] is
    that matcher, one definition per fragment of the expression. *)
From S2P Require Import Prelude Types GoNet.

Definition is_letter (c : Z) : bool := bool_decide (97 <= c <= 122) || bool_decide (65 <= c <= 90).
Definition is_blank (c : Z) : bool := bool_decide (c = 32) || bool_decide (c = 9).

(** A literal, and a run of one or more bytes of a class. *)
Fixpoint lit (p b : list Z) : option (list Z) :=
  match p, b with
  | [], _ => Some b
  | c :: p, d :: b => if decide (c = d) then lit p b else None
  | _, [] => None
  end.
Fixpoint span (f : Z → bool) (b : list Z) : list Z * list Z :=
  match b with
  | [] => ([], [])
  | c :: b' => if f c then let (x, r) := span f b' in (c :: x, r) else ([], b)
  end.
Definition many1 (f : Z → bool) (b : list Z) : option (list Z * list Z) :=
  let (x, r) := span f b in if decide (x = []) then None else Some (x, r).

(** The constants of the expression. *)
Definition s_func : list Z := bytes "BenchmarkLookupTable/func=".
Definition s_prime : list Z := bytes "/prime=".
Definition s_nBefore : list Z := bytes "/nBefore=".
Definition s_nAfter : list Z := bytes "/nAfter=".
Definition s_dash : list Z := bytes "-".
Definition s_dot : list Z := bytes ".".
Definition s_execTime : list Z := bytes " ns/op".
Definition s_unchanged : list Z := bytes " %unchangedEntries/op".
Definition s_bytes : list Z := bytes " B/op".
Definition s_allocs : list Z := bytes " allocs/op".

(** The eight groups of a match at the front of [b], and what follows it. *)
Definition match_record (b : list Z) : option (list (list Z) * list Z) :=
  b ← lit s_func b; '(func, b) ← many1 is_letter b;
  b ← lit s_prime b; '(prime, b) ← many1 is_digit b;
  b ← lit s_nBefore b; '(nBefore, b) ← many1 is_digit b;
  b ← lit s_nAfter b; '(nAfter, b) ← many1 is_digit b;
  b ← lit s_dash b; '(_, b) ← many1 is_digit b; '(_, b) ← many1 is_blank b;
  '(_, b) ← many1 is_digit b; '(_, b) ← many1 is_blank b;
  '(execTime, b) ← many1 is_digit b; b ← lit s_execTime b; '(_, b) ← many1 is_blank b;
  '(whole, b) ← many1 is_digit b; b ← lit s_dot b; '(part, b) ← many1 is_digit b; b ← lit s_unchanged b;
  '(_, b) ← many1 is_blank b;
  '(allocated, b) ← many1 is_digit b; b ← lit s_bytes b; '(_, b) ← many1 is_blank b;
  '(allocs, b) ← many1 is_digit b; b ← lit s_allocs b;
  Some ([func; prime; nBefore; nAfter; execTime; whole ++ s_dot ++ part; allocated; allocs], b).

(** [FindAllSubmatch]: leftmost matches that do not overlap.  A match is never
    empty, so the length of the log bounds the iterations. *)
Fixpoint find_all (fuel : nat) (b : list Z) : list (list (list Z)) :=
  match fuel with
  | O => []
  | S fuel =>
      match match_record b with
      | Some (m, rest) => m :: find_all fuel rest
      | None => match b with [] => [] | _ :: b' => find_all fuel b' end
      end
  end.
Definition FindAllSubmatch (b : list Z) : list (list (list Z)) := find_all (S (length b)) b.

Definition header : list Z :=
  bytes "algorithm,prime,nBefore,nAfter,execTime,unchangedEntries,allocatedBytes,allocations".
Definition newline : list Z := [10].
Fixpoint commas (l : list (list Z)) : list Z :=
  match l with [] => [] | [x] => x | x :: l => x ++ bytes "," ++ commas l end.

(** [main]: the exit status 1, or what it prints. *)
Definition main (ReadFile : string → option (list Z)) (Args : list string) : list Z + Z :=
  match Args with
  | [_; logPath] =>
      match ReadFile logPath with
      | None => inr 1
      | Some b =>
          match FindAllSubmatch b with
          | [] => inr 1
          | ms => inl (header ++ newline ++ (ms ≫= λ m, commas m ++ newline))
          end
      end
  | _ => inr 1
  end.

(** * What the expression describes *)

Record bench := {
  b_func : list Z; b_prime : list Z; b_nBefore : list Z; b_nAfter : list Z; b_procs : list Z; b_iters : list Z;
  b_time : list Z; b_whole : list Z; b_part : list Z; b_bytes : list Z; b_allocs : list Z;
  b_s1 : list Z; b_s2 : list Z; b_s3 : list Z; b_s4 : list Z; b_s5 : list Z
}.
Definition run_of (f : Z → bool) (x : list Z) : Prop := x ≠ [] ∧ Forall (λ c, f c = true) x.
Record bench_ok (r : bench) : Prop := {
  bo_func : run_of is_letter (b_func r); bo_prime : run_of is_digit (b_prime r);
  bo_nBefore : run_of is_digit (b_nBefore r); bo_nAfter : run_of is_digit (b_nAfter r);
  bo_procs : run_of is_digit (b_procs r); bo_iters : run_of is_digit (b_iters r); bo_time : run_of is_digit (b_time r);
  bo_whole : run_of is_digit (b_whole r); bo_part : run_of is_digit (b_part r); bo_bytes : run_of is_digit (b_bytes r);
  bo_allocs : run_of is_digit (b_allocs r); bo_s1 : run_of is_blank (b_s1 r); bo_s2 : run_of is_blank (b_s2 r);
  bo_s3 : run_of is_blank (b_s3 r); bo_s4 : run_of is_blank (b_s4 r); bo_s5 : run_of is_blank (b_s5 r)
}.
(** The line of a benchmark, followed by [rest], and its groups. *)
Definition text (r : bench) (rest : list Z) : list Z :=
  s_func ++ b_func r ++ s_prime ++ b_prime r ++ s_nBefore ++ b_nBefore r ++ s_nAfter ++ b_nAfter r ++
  s_dash ++ b_procs r ++ b_s1 r ++ b_iters r ++ b_s2 r ++ b_time r ++ s_execTime ++ b_s3 r ++
  b_whole r ++ s_dot ++ b_part r ++ s_unchanged ++ b_s4 r ++ b_bytes r ++ s_bytes ++ b_s5 r ++ b_allocs r ++ s_allocs ++ rest.
Definition groups (r : bench) : list (list Z) :=
  [b_func r; b_prime r; b_nBefore r; b_nAfter r; b_time r; b_whole r ++ s_dot ++ b_part r; b_bytes r; b_allocs r].

(** * Lemmas *)

Lemma lit_app p b : lit p (p ++ b) = Some b.
Proof. induction p as [|c p IH]; simpl; [by destruct b|]. by rewrite decide_True. Qed.
Lemma lit_inv p b r : lit p b = Some r → b = p ++ r.
Proof.
  revert b. induction p as [|c p IH]; intros b; simpl; [by destruct b; intros [= <-]|].
  destruct b as [|d b]; [done|]. case_decide; [|done]. subst. intros H. by rewrite (IH _ H).
Qed.
Lemma span_inv f b x r : span f b = (x, r) → b = x ++ r ∧ Forall (λ c, f c = true) x.
Proof.
  revert x r. induction b as [|c b IH]; intros x r; simpl; [by intros [= <- <-]|].
  destruct (f c) eqn:E; [|by intros [= <- <-]]. destruct (span f b) as [x1 r1]. intros [= <- <-].
  destruct (IH x1 r1 eq_refl) as [-> ?]. split; [done|by constructor].
Qed.
Lemma many1_inv f b x r : many1 f b = Some (x, r) → b = x ++ r ∧ run_of f x.
Proof.
  unfold many1. destruct (span f b) as [x1 r1] eqn:E. case_decide; [done|]. intros [= <- <-].
  by destruct (span_inv _ _ _ _ E).
Qed.
(** What follows does not start with a byte of the class. *)
Definition stops (f : Z → bool) (r : list Z) : Prop := match r with [] => True | c :: _ => f c = false end.
Lemma many1_app f x r : run_of f x → stops f r → many1 f (x ++ r) = Some (x, r).
Proof.
  intros [Hne Hx] Hr. assert (Hs : span f (x ++ r) = (x, r)).
  { clear Hne. induction Hx as [|c x Hc _ IH]; simpl; [|by rewrite Hc, IH].
    destruct r as [|c r]; [done|]. simpl in *. by rewrite Hr. }
  unfold many1. rewrite Hs. by rewrite decide_False.
Qed.
Lemma stops_run f g x r : run_of g x → (∀ c, g c = true → f c = false) → stops f (x ++ r).
Proof. intros [Hne Hx] Hd. destruct Hx as [|c x Hc _]; [done|]. simpl. auto. Qed.
Lemma digit_not_blank c : is_digit c = true → is_blank c = false.
Proof. unfold is_digit, is_blank. rewrite bool_decide_eq_true. intros. rewrite !bool_decide_false; [done|lia..]. Qed.
Lemma blank_not_digit c : is_blank c = true → is_digit c = false.
Proof.
  unfold is_digit, is_blank. rewrite orb_true_iff, !bool_decide_eq_true. intros. rewrite bool_decide_false; [done|lia].
Qed.

(** The matcher is the expression: it succeeds exactly on a line followed by
    anything, with that line's groups. *)
Lemma match_record_text r rest : bench_ok r → match_record (text r rest) = Some (groups r, rest).
Proof.
  intros []. unfold match_record, text, groups.
  repeat first
    [ rewrite lit_app; cbn [mbind option_bind]
    | rewrite many1_app;
        [cbn [mbind option_bind]
        |assumption
        |first [reflexivity | eapply stops_run; [eassumption|]; first [exact digit_not_blank | exact blank_not_digit]]] ].
  done.
Qed.
Lemma match_record_inv b m rest : match_record b = Some (m, rest) → ∃ r, bench_ok r ∧ b = text r rest ∧ m = groups r.
Proof.
  unfold match_record. intros Hm.
  repeat match type of Hm with
  | (lit _ _ ≫= _) = Some _ =>
      let Hl := fresh "L" in apply bind_Some in Hm as (? & Hl & Hm); apply lit_inv in Hl; subst
  | (many1 _ _ ≫= _) = Some _ =>
      let Hl := fresh "L" in let Hr := fresh "R" in
      apply bind_Some in Hm as ([? ?] & Hl & Hm); apply many1_inv in Hl as [Hl Hr]; subst
  end.
  injection Hm as <- <-.
  eexists {| b_func := _ |}. split; [|split; [unfold text; simpl; reflexivity|done]]. by split.
Qed.
Lemma match_record_newline b : match_record (newline ++ b) = None.
Proof. done. Qed.

(** A log: one line per benchmark. *)
Definition log (rs : list bench) : list Z := foldr (λ r b, text r (newline ++ b)) [] rs.

Lemma text_length r rest : (length rest < length (text r rest))%nat.
Proof. unfold text. rewrite !length_app. simpl. lia. Qed.
Lemma find_all_log rs fuel : Forall bench_ok rs → (length (log rs) < fuel)%nat → find_all fuel (log rs) = groups <$> rs.
Proof.
  intros Hok. revert fuel. induction Hok as [|r rs Hr _ IH]; intros fuel Hf; [by destruct fuel|].
  destruct fuel as [|fuel]; [lia|]. cbn [find_all log foldr]. fold (log rs). rewrite match_record_text by done.
  pose proof (text_length r (newline ++ log rs)) as Hl. cbn [log foldr] in Hf. fold (log rs) in Hf.
  destruct fuel as [|fuel]; [lia|]. rewrite fmap_cons. f_equal. cbn [find_all]. rewrite match_record_newline. simpl.
  apply IH. rewrite length_app in Hl. change (length newline) with 1%nat in Hl. lia.
Qed.

(** * Properties *)

(** The parser reads a log back. At any position the matcher succeeds
    exactly where a benchmark line is, with that line's groups and the rest of
    the log; and on a log of one line per benchmark the program prints the
    header and one row per line, in order, holding the line's own fields. *)
Theorem bench_log_roundtrip (rs : list bench) prog path ReadFile :
  Forall bench_ok rs → rs ≠ [] → ReadFile path = Some (log rs) →
  main ReadFile [prog; path] = inl (header ++ newline ++ (rs ≫= λ r, commas (groups r) ++ newline)) ∧
  (∀ b m rest, match_record b = Some (m, rest) ↔ ∃ r, bench_ok r ∧ b = text r rest ∧ m = groups r).
Proof.
  intros Hok Hne Hr. split.
  - unfold main. rewrite Hr. unfold FindAllSubmatch. rewrite find_all_log by (done || lia).
    destruct rs as [|r rs]; [done|]. rewrite fmap_cons. f_equal. f_equal. f_equal. rewrite !bind_cons. f_equal.
    clear. induction rs as [|r rs IH]; [done|]. by rewrite fmap_cons, !bind_cons, IH.
  - intros b m rest. split; [apply match_record_inv|]. intros (r & Hr' & -> & ->). by apply match_record_text.
Qed.

(** The line of the comment in main.go. *)
Definition sample_bench : bench := {|
  b_func := bytes "RobustSimple"; b_prime := bytes "65497"; b_nBefore := bytes "255"; b_nAfter := bytes "299";
  b_procs := bytes "16"; b_iters := bytes "10"; b_time := bytes "298616768"; b_whole := bytes "59"; b_part := bytes "91";
  b_bytes := bytes "16534052"; b_allocs := bytes "132515"; b_s1 := bytes "          "; b_s2 := bytes "         ";
  b_s3 := bytes "                "; b_s4 := bytes "      "; b_s5 := bytes "     " |}.
Lemma sample_bench_ok : bench_ok sample_bench.
Proof. split; (split; [done|]); apply (bool_decide_unpack _); by vm_compute. Qed.
Lemma bench_log_roundtrip_witness :
  main (λ _, Some (log [sample_bench; sample_bench])) ["parse"; "log"]%string =
    inl (header ++ newline ++ ([sample_bench; sample_bench] ≫= λ r, commas (groups r) ++ newline)).
Proof.
  apply (bench_log_roundtrip [sample_bench; sample_bench] "parse" "log" (λ _, Some (log [sample_bench; sample_bench])));
    [repeat constructor; apply sample_bench_ok|done|reflexivity].
Defined.
